(* ===== verification/_CoqProject ===== *)
-Q . S2P
Prelude.v
GoText.v
Encoding.v
Sha256.v
Json.v
GoTime.v
GoPath.v
GoUrl.v
Storage.v
Nats.v
Names.v
OrderedCodec.v
Prog.v
Kv.v
Lease.v
LeaseSafety.v
LeaseSystem.v
Ledger.v
Blobs.v
ObjectReader.v
ObjectService.v
BlobOps.v
ReaderClose.v
OrderedStore.v
OrderedSeam.v
ErrorText.v
OrderedSeamProps.v
OrderedSpec.v
OrderedRefine.v
OrderedSafety.v
OrderedProps.v
OrderedRun.v
OrderedLinked.v
OrderedIndex.v
OrderedView.v
OrderedList.v
OrderedDelivery.v
OrderedEndToEnd.v
OrderedLatch.v
OrderedRegistry.v
OrderedReader.v
OrderedReaderProps.v
OrderedWhole.v
Lifecycle.v
LifecycleProps.v
Redaction.v
