(* ===== verification/Prelude.v ===== *)
(** * natsstore: a verification development

    natsstore implements the five primitives of [github.com/looprig/storage] (ledger, leaser,
    key-value store, blob store, ordered index) over NATS JetStream, and the composition root
    that opens them over an embedded or a remote server.  This library models that program
    from its Go source and proves what its comments and its contract promise, or exhibits the
    run that breaks the promise.

    ** How the program is modelled

    A method that talks to a service is a tree of calls ([Prog.prog]); its replies are
    whatever the service says.  The tree is read three ways: as a function of an executable
    service ([run], for examples and witnesses), as its set of call traces ([exec]), and as
    one thread of a pool whose threads interleave at every call ([pool_step]).  A service is
    a relation [handle e s r s'] that states what this package's comments rely on, failures
    included: a call may fail without effect, or take effect and lose its acknowledgement.
    [Prog.wp] is a rely/guarantee predicate transformer over such trees, and [pool_sound]
    carries what is proved with it to any number of threads in any schedule.

    Code whose concurrency is in locks and channels and not in calls (the scope latch, the
    view registry, the view against its stream, closing a reader) is a step relation over an
    explicit state, with an invariant of every reachable state.  Where goroutines run
    programs of calls over such a state, both are one system: [OrderedReader] is the reading
    half of the index as it runs, and it refines the step relations.  Pure code (codecs, sort
    keys, indexes, paths) is functions.  Machine integers are [N] or [Z] with the wrap-around
    written out ([add64], durations); a Go string is a [string] of bytes; an error is a value
    of [Storage.error], one constructor per typed error; a slice out of range is a [Panic].

    ** Files and sources

    - The language and its library: [GoText] (strings, strconv), [Encoding] (base64, UTF-8),
      [Sha256], [Json] (encoder and strict decoder), [GoTime] (instants with monotonic
      readings, durations, RFC 3339), [GoPath] (Clean, Join, Rel, TrimSpace), [GoUrl] (net/url's
      Parse, String and Redacted).
    - Shared vocabulary: [Storage] (the storage module's validators as a class with laws, the
      errors), [Nats] (client constants as a class, error classification), [Prog],
      [ErrorText] (the [Error] method of every error type).
    - [Names]: subject.go.
    - [Kv]: kv.go with its seam of seam.go.  [Ledger]: ledger.go with its seam.
    - [Lease], [LeaseSafety], [LeaseSystem]: lease.go with its seam; the operations, the world
      and its rely/guarantee conditions, the system of leasers, heartbeats, clock and reaper.
    - [Blobs], [ObjectReader], [ObjectService], [BlobOps], [ReaderClose]: blobs.go with the
      object half of seam.go; the operations, the chunk reader, its completeness over a
      service that behaves, [Get] linked with the seam's reader over buckets with links, and
      the locks of concurrent [Read] and [Close].
    - [OrderedCodec]: ordered_codec.go.  [OrderedSeam], [OrderedSeamProps]: ordered_seam.go
      and that it implements the contract [OrderedStore] is proved against.
    - [OrderedStore] (the mutating methods of ordered.go), [OrderedSpec] (the abstract index),
      [OrderedRefine], [OrderedSafety], [OrderedProps], [OrderedRun] (what they guarantee).
      [OrderedLinked]: the methods linked with the real seam, in several processes.
    - [OrderedIndex], [OrderedView], [OrderedList], [OrderedDelivery], [OrderedLatch],
      [OrderedRegistry]: the reading half of ordered.go; the sorted indexes, the materialised
      view and its barrier, the listings and cursors, delivery from the stream (a callback's
      two critical sections, callbacks of earlier subscriptions that run late), the latch of
      a scope, the life cycle of views.
    - [OrderedReader], [OrderedReaderProps]: these parts running together in one store: each
      view's goroutine ([run]) in the program [watchStream] or its backoff, the callbacks of
      its subscriptions, and any number of queries in the programs [readyView] and
      [streamTip], among other clients that commit.
    - [Lifecycle], [LifecycleProps]: natsstore.go, embedded.go, lockedengine.go, the store
      lock and paths.go; what they open and close, and what is never left open.
      [Redaction]: what [redactURL] keeps out of errors.

    The mutating half, the seam and the view meet in five places: [OrderedStore.handle] is
    the contract the store is a client of and the seam an implementation of;
    [OrderedLinked] replaces the store's calls by the seam's programs; [OrderedDelivery]
    feeds the view from the log the store writes, and [OrderedEndToEnd] reads it: a listing
    of a view that has caught up is a page of the abstract index; [OrderedReader.link]
    replaces a query's tip by the seam's program, and [OrderedReader.own_step] runs the
    seam's watch in the view's goroutine; [OrderedWhole] runs the processes that write, the
    server and a store that is queried together.

    ** What the theorems show

    - Refinement and linearizability: the ordered index ([ordered_linearizable],
      [ordered_index_refines], [seam_refines_contract], and all of it down to the NATS
      client's calls in [linked_linearizable]; with a store's queries, [read_your_writes]), the
      key-value store ([kv_refines_spec]), the ledger ([ledger_refines_spec]), the blob
      operations ([blob_ops_refine]): under any interleaving each reply is the abstract
      operation's at one instant of the call, or one of the listed failures; a blob is read by
      following its key's links, each look-up at an instant of its own.
    - Invariants of every schedule: dense and unique orders, histories of records, epochs.
    - Reading: the view is sound and the listings are exact pages of it, with their
      costs; what the barrier guarantees ([barrier_guarantee], [listings_reflect_index]) and
      what it misses; the store as it runs refines the registry and the delivery
      ([reader_refines]), a query that has returned can be relied on ([query_reads]), and a
      goroutine whose context has ended exits ([goroutine_exits]).
    - Mutual exclusion: leases, scope latches, views per namespace, locked directories.
    - Round trips and gates of the codecs; names are a bijection with their subjects.
    - Objects: integrity whatever the service answers (but for an [io.EOF] that the client
      itself reports, which the code passes on), completeness when it behaves, link
      resolution, no use after close, and every [Read] and [Close] returns.
    - Life cycle: an [Open] that fails leaves nothing, [Close] releases all and in order,
      engine directories are confined to the user's root.
    - Diagnostics: an error's text is one line whatever names it quotes, and exactly which
      parts it does not quote ([Error_one_line]); a password in a URL's user information is
      not in it ([redactURL_hides_password]).
    - Runs that break a promise the comments make: [barrier_misses_record], [put_race],
      [decodeOrderedRecord_trailing_bracket], [reaping_restarts_epoch], the overflow in
      [backstopBucketTTL_covers], [lock_precedes_confinement], [schemeless_password_shown],
      [unescaped_password_shown], [client_EOF_truncates].

    ** Bounds and fuel

    Recursion that is not structural takes fuel that its caller computes from its input: the
    length of the text ([ValidString], [trim_left], the JSON scanner), of the table (binary
    searches), the number of digits or blocks.  Lemmas show each is enough: the round trips
    for the scanners, [trim_left_spec] for trimming, the index characterisations for
    searches.  [Ledger.drain] and [OrderedList.walk] are loops of a client; the theorems give
    the number of rounds after which they end.  The link resolver's 32 is the program's own.
    SHA-256 is computed, never assumed injective.  A process draws fewer than 2^64 batch ids
    ([OrderedLinked.client_handle]).

    ** Parameters

    The storage module's validators ([Storage.Storage] with [StorageLaws], instance
    [Reference]), the constants of nats.go ([Nats.JetStream], instance [nats_go]), the lenient
    fallback of RFC 3339 parsing, net/url's host parser, which runes outside ASCII
    [strconv] calls printable, the texts of foreign errors and the client's names of its
    policies, and every service: each is an
    argument, and each theorem that assumes something of one has a witness over a concrete
    instance.

    ** Not modelled

    - The client's and the server's internals: TCP, consumer management, file stores; a
      drained connection counts as released when [Drain] is called.
    - Contexts are reduced to whether a call may fail because of one; wall-clock time only
      where leases compare it, where all processes share one clock.
    - A batch is atomic, as the server documents: an acknowledged one is committed whole, also
      when the count in its acknowledgement disagrees ([SeamProps.jhandle]).
    - The reading half: a message handed to a callback has metadata that parse: the branch
      of ordered_seam.go, line 726, that skips it and reports is left out, and with it the
      messages that may be applied before the report ends the watch;
      [setFatal] and the [cancel] it ends with are one step; [waitBarrier] is one call, whose
      answer is that of its last look under the lock ([waitBarrier_answer]); a subscription
      that was stopped may still run a callback.  The stores of other processes are other
      clients to the one that is queried.
    - The visit statistics of listings are returned beside the page and not stored; defensive
      copies of slices that nobody mutates are the slices.  Test seams ([acquireLock], [openEngine]) are the
      functions production points them at. *)

From stdpp Require Export base gmap strings list sorting numbers option relations.
From Stdlib Require Export ZArith Lia.

Declare Scope go_scope.
Delimit Scope go_scope with go.

(** ** Go machine integers

    [uint64] values are [N] below [two64]; [int64] values are [Z] in the two's
    complement range; slice lengths and indices ([int]) are [nat]. *)

Definition two64 : N := 18446744073709551616%N.
Definition MaxUint64 : N := 18446744073709551615%N.
Definition MaxInt64 : Z := 9223372036854775807%Z.
Definition MinInt64 : Z := (-9223372036854775808)%Z.

(** [uint64] addition wraps. *)
Definition add64 (a b : N) : N := ((a + b) mod two64)%N.

(** The wrap-around of an [int64], [time.Duration] among them. *)
Definition wrap64 (z : Z) : Z := ((z + 2 ^ 63) mod 2 ^ 64 - 2 ^ 63)%Z.

Definition u64 (n : N) : Prop := (n < two64)%N.
Definition i64 (z : Z) : Prop := (MinInt64 <= z <= MaxInt64)%Z.

Lemma add64_small a b : u64 (a + b) -> add64 a b = (a + b)%N.
Proof. intros H. unfold add64. by apply N.mod_small. Qed.

Lemma add64_u64 a b : u64 (add64 a b).
Proof. apply N.mod_lt. done. Qed.

(** A Go byte slice: [nil] is distinguished from the empty slice. *)
Abbreviation slice := (option string) (only parsing).

(** The bytes of a slice; [bytes.Equal] and [len] do not see the difference
    between [nil] and an empty slice. *)
Definition bytes_of (b : option string) : string := default EmptyString b.

(** ** Lists *)

(** [slices.Insert(l, at, x)] and [slices.Delete(l, at, at+1)], for [at] in range. *)
Definition slices_insert {A} (l : list A) (i : nat) (x : A) : list A :=
  take i l ++ x :: drop i l.
Definition slices_delete {A} (l : list A) (i : nat) : list A :=
  take i l ++ drop (S i) l.

(** The slice expression [l[lo:hi]]; out of range it panics ([None]). *)
Definition slice_range {A} (l : list A) (lo hi : nat) : option (list A) :=
  if decide (lo <= hi <= length l) then Some (take (hi - lo) (drop lo l)) else None.

Section list_facts.
Context {A : Type}.
Implicit Types (l : list A) (x y : A).

Lemma slices_insert_perm l i x : slices_insert l i x ≡ₚ x :: l.
Proof.
  unfold slices_insert. rewrite <- Permutation_middle. by rewrite take_drop.
Qed.

Lemma elem_of_slices_insert l i x y : y ∈ slices_insert l i x <-> y = x \/ y ∈ l.
Proof. rewrite slices_insert_perm. apply elem_of_cons. Qed.

Lemma slices_delete_perm l i x : l !! i = Some x -> l ≡ₚ x :: slices_delete l i.
Proof.
  intros H. unfold slices_delete. rewrite Permutation_middle.
  by rewrite <- (take_drop_middle l i x H) at 1.
Qed.

Lemma slice_range_Some l lo hi :
  lo <= hi -> hi <= length l -> slice_range l lo hi = Some (take (hi - lo) (drop lo l)).
Proof. intros. unfold slice_range. rewrite decide_True by lia. done. Qed.

Lemma sublist_full l l' : l `sublist_of` l' -> length l' <= length l -> l = l'.
Proof.
  induction 1 as [|x l l' _ IH|x l l' Hs _]; cbn; intros H; [done|f_equal; apply IH; lia|].
  apply sublist_length in Hs. lia.
Qed.
End list_facts.

(** ** Tactics *)

(** [lia] decides goals with division and remainder by constants. *)
Ltac Zify.zify_post_hook ::= Z.to_euclidean_division_equations.

(** Case analysis on every [match]/[if] of a hypothesis or of the goal. *)
Ltac break_match_in H :=
  match type of H with
  | context [match ?x with _ => _ end] => destruct x eqn:?
  end.
Ltac break_match :=
  match goal with
  | |- context [match ?x with _ => _ end] => destruct x eqn:?
  end.
Ltac invs H := inversion H; subst; clear H.

Create HintDb go.
#[export] Hint Extern 1 (u64 _) => unfold u64, two64 in *; lia : go.
