(* ===== verification/GoText.v ===== *)
(** * Go text: the parts of [strings] and [strconv] the program uses, over strings of bytes.

    A Go [string] is a [string] of [ascii] bytes.  [strings.ReplaceAll],
    [strings.CutPrefix], [strings.Cut], and [strconv.FormatUint]/[ParseUint] with its
    error precedence, each with its round trip. *)

From S2P Require Import Prelude.
From Stdlib Require Import Ascii.
Open Scope stdpp_scope.

(** ** Bytes *)

Definition byte_n (c : ascii) : N := N_of_ascii c.
Definition n_byte (n : N) : ascii := ascii_of_N n.

Lemma n_byte_n c : n_byte (byte_n c) = c.
Proof. apply ascii_N_embedding. Qed.
Lemma byte_n_byte n : (n < 256)%N -> byte_n (n_byte n) = n.
Proof. apply N_ascii_embedding. Qed.
Lemma byte_n_lt c : (byte_n c < 256)%N.
Proof. apply N_ascii_bounded. Qed.
Lemma byte_n_inj c d : byte_n c = byte_n d -> c = d.
Proof. intros H. by rewrite <- (n_byte_n c), <- (n_byte_n d), H. Qed.

Definition byte_in (lo hi : N) (c : ascii) : bool :=
  ((lo <=? byte_n c) && (byte_n c <=? hi))%N.

Fixpoint str_forallb (p : ascii -> bool) (s : string) : bool :=
  match s with
  | EmptyString => true
  | String c s' => p c && str_forallb p s'
  end.

Lemma str_forallb_app p a b :
  str_forallb p (a +:+ b) = str_forallb p a && str_forallb p b.
Proof.
  induction a as [|c a IH]; [done|]. cbn [str_forallb].
  change (String c a +:+ b) with (String c (a +:+ b)). cbn [str_forallb].
  rewrite IH. by rewrite andb_assoc.
Qed.

Lemma str_forallb_impl (p q : ascii -> bool) s :
  (forall c, p c = true -> q c = true) -> str_forallb p s = true -> str_forallb q s = true.
Proof.
  intros Hpq. induction s as [|c s IH]; [done|]. cbn. rewrite !andb_true_iff. intros [H1 H2]. auto.
Qed.

(** [String c s] in terms of [+:+], and the monoid laws, as one rewrite set. *)
Lemma str_cons_app c s t : String c s +:+ t = String c (s +:+ t).
Proof. done. Qed.
Lemma str_app_nil_l s : EmptyString +:+ s = s.
Proof. done. Qed.
Lemma str_app_nil_r s : s +:+ EmptyString = s.
Proof. induction s as [|c s IH]; [done|]. by rewrite str_cons_app, IH. Qed.
Lemma str_app_assoc s t u : (s +:+ t) +:+ u = s +:+ (t +:+ u).
Proof. induction s as [|c s IH]; [done|]. by rewrite !str_cons_app, IH. Qed.
Lemma str_length_app s t : String.length (s +:+ t) = String.length s + String.length t.
Proof. induction s as [|c s IH]; [done|]. rewrite str_cons_app. cbn. by rewrite IH. Qed.

Create HintDb str discriminated.
#[export] Hint Rewrite str_cons_app str_app_nil_l str_app_nil_r str_app_assoc : str.

Lemma substring_whole s m : String.length s <= m -> String.substring 0 m s = s.
Proof. revert m. induction s as [|c s IH]; intros [|m] H; cbn in *; [done|done|lia|]. f_equal. apply IH. lia. Qed.

(** A copy of part of [s], and what is left after it. *)
Lemma substring_split s o n m :
  String.length s <= m ->
  String.substring o n s +:+ String.substring (o + String.length (String.substring o n s)) m s = String.substring o m s.
Proof.
  revert o n m. induction s as [|c s IH]; intros o n m H.
  - by destruct o, n.
  - destruct o as [|o]; [|cbn in H; apply (IH o n m); lia].
    destruct n as [|n]; [done|]. destruct m as [|m]; [cbn in H; lia|]. cbn in H.
    cbn [String.substring String.length Nat.add]. rewrite str_cons_app. f_equal.
    etransitivity; [apply (IH 0 n (S m)); lia|]. by rewrite !substring_whole by lia.
Qed.
Lemma substring_past s o m : String.length s <= o -> String.substring o m s = EmptyString.
Proof. revert o. induction s as [|c s IH]; intros o H; [by destruct o, m|]. destruct o as [|o]; cbn in *; [lia|]. apply IH. lia. Qed.
Lemma substring_length s o n : o + String.length (String.substring o n s) <= max o (String.length s).
Proof.
  revert o n. induction s as [|c s IH]; intros [|o] [|n]; cbn; [lia..| | |]; [pose proof (IH 0 n)|pose proof (IH o 0)|pose proof (IH o (S n))]; lia.
Qed.

Lemma str_app_inv_head s t u : s +:+ t = s +:+ u -> t = u.
Proof. induction s as [|c s IH]; [done|]. rewrite !str_cons_app. intros H. apply IH. congruence. Qed.

Lemma str_app_length_inj s t u v :
  s +:+ u = t +:+ v -> String.length s = String.length t -> s = t /\ u = v.
Proof.
  revert t. induction s as [|c s IH]; intros [|d t]; rewrite ?str_cons_app, ?str_app_nil_l; cbn;
    try done. intros [= -> E] [= Hl]. by destruct (IH t E Hl) as [-> ->].
Qed.

(** Apply a function to every byte and join the results. *)
Fixpoint flat_str (f : ascii -> string) (s : string) : string :=
  match s with
  | EmptyString => EmptyString
  | String c s' => f c +:+ flat_str f s'
  end.

Lemma flat_str_app f s t : flat_str f (s +:+ t) = flat_str f s +:+ flat_str f t.
Proof.
  induction s as [|c s IH]; [done|]. rewrite str_cons_app. cbn. by rewrite IH, str_app_assoc.
Qed.

Lemma flat_str_ext f g s : (forall c, f c = g c) -> flat_str f s = flat_str g s.
Proof. intros H. induction s as [|c s IH]; [done|]. cbn. by rewrite H, IH. Qed.

Lemma flat_str_forallb (p q : ascii -> bool) f s :
  (forall c, p c = true -> str_forallb q (f c) = true) ->
  str_forallb p s = true -> str_forallb q (flat_str f s) = true.
Proof.
  intros Hf. induction s as [|c s IH]; [done|]. cbn. rewrite andb_true_iff. intros [Hc Hs].
  rewrite str_forallb_app, Hf, IH; done.
Qed.

(** ** [strings] *)

(** [strings.ReplaceAll] for a nonempty [old]: leftmost, non-overlapping; [skip]
    counts the bytes of a match still to be dropped. *)
Fixpoint replace_from (old new : string) (skip : nat) (s : string) : string :=
  match s with
  | EmptyString => EmptyString
  | String c s' =>
      match skip with
      | S k => replace_from old new k s'
      | O => if String.prefix old s
             then new +:+ replace_from old new (String.length old - 1) s'
             else String c (replace_from old new 0 s')
      end
  end.
Definition ReplaceAll (s old new : string) : string := replace_from old new 0 s.

(** [strings.CutPrefix]. *)
Fixpoint CutPrefix (s prefix : string) {struct prefix} : option string :=
  match prefix, s with
  | EmptyString, _ => Some s
  | String p prefix', String c s' => if decide (p = c) then CutPrefix s' prefix' else None
  | String _ _, EmptyString => None
  end.

(** [strings.Cut] with a one-byte separator. *)
Fixpoint Cut (s : string) (sep : ascii) : option (string * string) :=
  match s with
  | EmptyString => None
  | String c s' =>
      if decide (c = sep) then Some (EmptyString, s')
      else match Cut s' sep with
           | Some (before, after) => Some (String c before, after)
           | None => None
           end
  end.

Definition HasPrefix (s prefix : string) : bool := String.prefix prefix s.

Definition str1 (c : ascii) : string := String c EmptyString.

Lemma ReplaceAll_byte s b new :
  ReplaceAll s (String b EmptyString) new = flat_str (fun c => if decide (c = b) then new else str1 c) s.
Proof.
  unfold ReplaceAll. induction s as [|c s IH]; [done|].
  cbn [replace_from flat_str]. cbn [String.prefix].
  destruct (ascii_dec b c) as [->|Hne].
  - rewrite decide_True by done. rewrite <- IH. by destruct s.
  - rewrite decide_False by done. by rewrite IH.
Qed.

Lemma CutPrefix_app p s : CutPrefix (p +:+ s) p = Some s.
Proof.
  induction p as [|c p IH]; [by destruct s|]. rewrite str_cons_app. cbn.
  by rewrite decide_True.
Qed.

Lemma CutPrefix_Some p s r : CutPrefix s p = Some r -> s = p +:+ r.
Proof.
  revert s. induction p as [|c p IH]; intros s; [by destruct s; intros [=]; subst|].
  destruct s as [|d s]; [done|]. cbn. case_decide; [subst|done].
  intros H. by rewrite (IH _ H).
Qed.

Lemma Cut_app a sep b :
  str_forallb (fun c => bool_decide (c <> sep)) a = true -> Cut (a +:+ String sep b) sep = Some (a, b).
Proof.
  induction a as [|c a IH]; intros H.
  - rewrite str_app_nil_l. cbn. by rewrite decide_True.
  - rewrite str_cons_app. cbn in H |- *. apply andb_true_iff in H as [Hc Ha].
    apply bool_decide_eq_true in Hc. rewrite decide_False by done. by rewrite IH.
Qed.

Lemma Cut_Some s sep a b :
  Cut s sep = Some (a, b) ->
  s = a +:+ String sep b /\ str_forallb (fun c => bool_decide (c <> sep)) a = true.
Proof.
  revert a. induction s as [|c s IH]; intros a; [done|]. cbn. case_decide as Hc.
  - intros [= <- <-]. by subst.
  - destruct (Cut s sep) as [[a' b']|] eqn:E; [|done]. intros [= <- <-].
    destruct (IH a' eq_refl) as [-> Hf]. split; [done|]. cbn.
    rewrite bool_decide_eq_true_2 by done. done.
Qed.

Lemma prefix_app_iff p s : String.prefix p s = true <-> exists t, s = p +:+ t.
Proof.
  revert s. induction p as [|c p IH]; intros s.
  - split; [by exists s|]. by destruct s.
  - destruct s as [|d s]; cbn; [split; [done|by intros [t Ht]]|].
    destruct (ascii_dec c d) as [->|Hne].
    + rewrite IH. split; intros [t Ht]; exists t.
      * by rewrite Ht.
      * rewrite str_cons_app in Ht. congruence.
    + split; [done|]. intros [t Ht]. rewrite str_cons_app in Ht. congruence.
Qed.

(** ** [strings.Split] and [strings.Join] on a one-byte separator *)

Section split.
Context (sep : ascii).

Fixpoint split_on (s : string) : list string :=
  match s with
  | EmptyString => [EmptyString]
  | String c s =>
      if decide (c = sep) then EmptyString :: split_on s
      else match split_on s with x :: xs => String c x :: xs | [] => [] end
  end.

Fixpoint join_on (ws : list string) : string :=
  match ws with [] => EmptyString | [w] => w | w :: ws => w +:+ String sep (join_on ws) end.

Definition lacks (w : string) : Prop := str_forallb (fun c => bool_decide (c <> sep)) w = true.

Lemma lacks_cons c w : lacks (String c w) <-> c <> sep /\ lacks w.
Proof. unfold lacks. cbn. by rewrite andb_true_iff, bool_decide_eq_true. Qed.

Lemma lacks_app a b : lacks (a +:+ b) <-> lacks a /\ lacks b.
Proof. unfold lacks. by rewrite str_forallb_app, andb_true_iff. Qed.

Lemma split_lacks s : Forall lacks (split_on s) /\ split_on s <> [].
Proof.
  induction s as [|c s [IH Hne]]; [by split; [repeat constructor|]|]. cbn. case_decide as Hc; [by split; [constructor|]|].
  destruct (split_on s) as [|x xs]; [done|]. apply Forall_cons in IH as [Hx Hxs]. split; [|done]. constructor; [|done].
  by apply lacks_cons.
Qed.

Lemma split_word w s : lacks w -> split_on (w +:+ String sep s) = w :: split_on s.
Proof.
  induction w as [|c w IH]; [rewrite str_app_nil_l; cbn; by rewrite decide_True|]. intros [Hc Hw]%lacks_cons.
  rewrite str_cons_app. cbn [split_on]. rewrite decide_False by done. by rewrite IH.
Qed.

Lemma split_last w : lacks w -> split_on w = [w].
Proof.
  induction w as [|c w IH]; [done|]. intros [Hc Hw]%lacks_cons. cbn [split_on]. rewrite decide_False by done. by rewrite IH.
Qed.

Lemma join_cons w ws : ws <> [] -> join_on (w :: ws) = w +:+ String sep (join_on ws).
Proof. by destruct ws. Qed.

Lemma split_join ws : Forall lacks ws -> ws <> [] -> split_on (join_on ws) = ws.
Proof.
  induction 1 as [|w ws Hw Hws IH]; [done|]. intros _. destruct (decide (ws = [])) as [->|Hne]; [by apply split_last|].
  by rewrite join_cons, split_word, IH.
Qed.

Lemma join_split s : join_on (split_on s) = s.
Proof.
  induction s as [|c s IH]; [done|]. destruct (split_lacks s) as [_ Hne]. cbn [split_on]. case_decide as Hc.
  - subst c. rewrite join_cons by done. by rewrite IH.
  - destruct (split_on s) as [|x [|y xs]]; [done|by cbn in *; subst|]. cbn in *. by subst.
Qed.

Lemma join_app ws vs : ws <> [] -> vs <> [] -> join_on (ws ++ vs) = join_on ws +:+ String sep (join_on vs).
Proof.
  intros Hws Hvs. induction ws as [|w ws IH]; [done|]. destruct (decide (ws = [])) as [->|Hne]; [by apply join_cons|].
  cbn [app]. rewrite !join_cons; [|done|by destruct ws]. rewrite IH by done. by rewrite str_app_assoc, str_cons_app.
Qed.

Lemma split_app s t : split_on (s +:+ String sep t) = split_on s ++ split_on t.
Proof.
  induction s as [|c s IH]; [rewrite str_app_nil_l; cbn; by rewrite decide_True|].
  rewrite str_cons_app. cbn [split_on]. rewrite IH. case_decide; [done|].
  destruct (split_lacks s) as [_ Hne]. by destruct (split_on s).
Qed.

(** [Cut] at a separator that only what follows can hold. *)
Lemma Cut_lacks a t : lacks a -> Cut (a +:+ t) sep = option_map (fun p => (a +:+ p.1, p.2)) (Cut t sep).
Proof.
  induction a as [|c a IH]; [rewrite str_app_nil_l; by destruct (Cut t sep) as [[]|]|]. intros [Hc Ha]%lacks_cons. rewrite str_cons_app. cbn.
  rewrite decide_False by done. rewrite IH by done. by destruct (Cut t sep) as [[]|].
Qed.

Lemma Cut_None a : lacks a -> Cut a sep = None.
Proof. intros H. pose proof (Cut_lacks a EmptyString H) as E. by rewrite str_app_nil_r in E. Qed.

Lemma Cut_None_lacks a : Cut a sep = None -> lacks a.
Proof.
  induction a as [|c a IH]; [done|]. cbn [Cut]. case_decide as Hc; [done|]. intros H. apply lacks_cons. split; [done|].
  apply IH. by destruct (Cut a sep) as [[]|].
Qed.
End split.
Arguments lacks_cons {sep}. Arguments lacks_app {sep}. Arguments split_word {sep}. Arguments split_last {sep}.
Arguments join_cons {sep}. Arguments split_join {sep}. Arguments join_app {sep}. Arguments split_app {sep}.
Arguments Cut_lacks {sep}. Arguments Cut_None {sep}. Arguments Cut_None_lacks {sep}.

(** ** [strconv] *)

Definition digit_byte (d : N) : ascii := n_byte (48 + d).
Definition digit_val (c : ascii) : option N :=
  if byte_in 48 57 c then Some (byte_n c - 48)%N else None.

Lemma digit_val_byte d : (d < 10)%N -> digit_val (digit_byte d) = Some d.
Proof.
  intros H. unfold digit_val, digit_byte, byte_in. rewrite byte_n_byte by lia.
  destruct (N.leb_spec 48 (48 + d)%N), (N.leb_spec (48 + d)%N 57); try lia. cbn. f_equal. lia.
Qed.

Fixpoint format_loop (fuel : nat) (n : N) (acc : string) : string :=
  match fuel with
  | O => acc
  | S f => let acc' := String (digit_byte (n mod 10)) acc in
           if (n / 10 =? 0)%N then acc' else format_loop f (n / 10) acc'
  end.
(** [strconv.FormatUint(n, 10)]; 20 digits hold every [uint64]. *)
Definition FormatUint (n : N) : string := format_loop 20 n EmptyString.

(** [strconv.Itoa]/[FormatInt(z, 10)]. *)
Definition FormatInt (z : Z) : string :=
  if (z <? 0)%Z then String "-" (FormatUint (Z.to_N (- z))) else FormatUint (Z.to_N z).

Inductive parse_result := ParseOk (n : N) | ErrSyntax | ErrRange.

(** [strconv.ParseUint(s, 10, 64)]: the loop reports a range error at the byte
    that overflows, before it looks at the bytes after it. *)
Fixpoint parse_loop (s : string) (n : N) : parse_result :=
  match s with
  | EmptyString => ParseOk n
  | String c s' =>
      match digit_val c with
      | None => ErrSyntax
      | Some d =>
          if (MaxUint64 / 10 + 1 <=? n)%N then ErrRange
          else if (MaxUint64 <? n * 10 + d)%N then ErrRange
          else parse_loop s' (n * 10 + d)
      end
  end.
Definition ParseUint (s : string) : parse_result :=
  match s with
  | EmptyString => ErrSyntax
  | _ => parse_loop s 0
  end.

(** [strconv.ParseInt(s, 10, 64)]. *)
Definition ParseInt (s : string) : option Z :=
  let '(neg, digits) :=
    match s with
    | String "-" s' => (true, s')
    | String "+" s' => (false, s')
    | _ => (false, s)
    end in
  match ParseUint digits with
  | ParseOk n =>
      if neg then (if (Z.of_N n <=? MaxInt64 + 1)%Z then Some (- Z.of_N n)%Z else None)
      else (if (Z.of_N n <=? MaxInt64)%Z then Some (Z.of_N n) else None)
  | _ => None
  end.

Definition all_digits (s : string) : bool := str_forallb (byte_in 48 57) s.

Lemma digit_byte_digit d : (d < 10)%N -> byte_in 48 57 (digit_byte d) = true.
Proof.
  intros H. unfold byte_in, digit_byte. rewrite byte_n_byte by lia.
  apply andb_true_iff. split; apply N.leb_le; lia.
Qed.

Lemma format_loop_digits fuel n acc :
  all_digits acc = true -> all_digits (format_loop fuel n acc) = true.
Proof.
  revert n acc. induction fuel as [|f IH]; intros n acc H; [done|]. cbn [format_loop].
  assert (Hd : all_digits (String (digit_byte (n mod 10)) acc) = true).
  { unfold all_digits in *. cbn. rewrite digit_byte_digit by (apply N.mod_lt; done). done. }
  case_match; auto.
Qed.

Lemma FormatUint_digits n : all_digits (FormatUint n) = true.
Proof. by apply format_loop_digits. Qed.

Lemma format_loop_cons fuel n acc :
  exists c s, format_loop (S fuel) n acc = String c s.
Proof.
  revert n acc. induction fuel as [|f IH]; intros n acc.
  - cbn. case_match; eauto.
  - remember (S f) as g. cbn [format_loop]. case_match; [eauto|]. subst g. apply IH.
Qed.

Lemma FormatUint_nonempty n : exists c s, FormatUint n = String c s.
Proof. apply format_loop_cons. Qed.

Lemma parse_format_loop fuel n acc :
  u64 n -> (n < 10 ^ N.of_nat fuel)%N -> fuel <> 0 ->
  parse_loop (format_loop fuel n acc) 0 = parse_loop acc n.
Proof.
  revert n acc. induction fuel as [|f IH]; intros n acc Hn Hlt Hf; [done|].
  cbn [format_loop]. pose proof (N.div_mod' n 10) as Hdm.
  pose proof (N.mod_lt n 10 ltac:(done)) as Hm.
  assert (Hstep : parse_loop (String (digit_byte (n mod 10)) acc) (n / 10) = parse_loop acc n).
  { cbn [parse_loop]. rewrite digit_val_byte by done.
    unfold u64, MaxUint64, two64 in *.
    change (18446744073709551615 / 10 + 1)%N with 1844674407370955162%N.
    destruct (N.leb_spec 1844674407370955162 (n / 10)); [lia|].
    destruct (N.ltb_spec 18446744073709551615 (n / 10 * 10 + n mod 10)); [lia|].
    f_equal. lia. }
  destruct (N.eqb_spec (n / 10) 0) as [H0|H0]; [by rewrite <- Hstep, H0|].
  destruct f as [|f].
  { change (10 ^ N.of_nat 1)%N with 10%N in Hlt. rewrite N.div_small in H0 by lia. done. }
  rewrite IH; [done| |..|done].
  - unfold u64, two64 in *. lia.
  - apply N.Div0.div_lt_upper_bound. rewrite Nat2N.inj_succ, N.pow_succ_r' in Hlt. done.
Qed.

Lemma ParseUint_FormatUint n : u64 n -> ParseUint (FormatUint n) = ParseOk n.
Proof.
  intros H. destruct (FormatUint_nonempty n) as (c & s & E). unfold ParseUint. rewrite E, <- E.
  unfold FormatUint. rewrite parse_format_loop; [done|done| |done].
  unfold u64, two64 in H. eapply N.lt_trans; [exact H|]. done.
Qed.

Lemma FormatUint_inj n m : u64 n -> u64 m -> FormatUint n = FormatUint m -> n = m.
Proof.
  intros Hn Hm E. apply ParseUint_FormatUint in Hn, Hm. rewrite E in Hn. congruence.
Qed.

Lemma parse_loop_u64 s n m : u64 n -> parse_loop s n = ParseOk m -> u64 m.
Proof.
  revert n. induction s as [|c s IH]; intros n Hn H; [cbn in H; by simplify_eq|].
  cbn in H. repeat (case_match; try done). eapply IH; [|done].
  unfold u64, MaxUint64, two64 in *. match goal with H : (_ <? _)%N = false |- _ => apply N.ltb_ge in H end.
  lia.
Qed.

Lemma ParseUint_u64 s m : ParseUint s = ParseOk m -> u64 m.
Proof. destruct s; [done|]. intros H. eapply parse_loop_u64; [|exact H]. done. Qed.

Lemma FormatUint_head n :
  exists c s, FormatUint n = String c s /\ byte_in 48 57 c = true.
Proof.
  destruct (FormatUint_nonempty n) as (c & s & E). exists c, s. split; [done|].
  pose proof (FormatUint_digits n) as H. rewrite E in H. unfold all_digits in H. cbn in H.
  apply andb_true_iff in H. tauto.
Qed.

Lemma ParseInt_FormatInt z : i64 z -> ParseInt (FormatInt z) = Some z.
Proof.
  unfold i64, FormatInt. intros H. destruct (Z.ltb_spec z 0).
  - unfold ParseInt. rewrite ParseUint_FormatUint by (unfold MinInt64, MaxInt64, u64, two64 in *; lia).
    rewrite Z2N.id by lia. destruct (Z.leb_spec (- z) (MaxInt64 + 1)); [f_equal; lia|unfold MinInt64, MaxInt64 in *; lia].
  - destruct (FormatUint_head (Z.to_N z)) as (c & s & E & Hc).
    assert (Hp : ParseInt (FormatUint (Z.to_N z)) =
      match ParseUint (FormatUint (Z.to_N z)) with
      | ParseOk n => if (Z.of_N n <=? MaxInt64)%Z then Some (Z.of_N n) else None
      | _ => None end).
    { rewrite E. unfold ParseInt. destruct c as [[][][][][][][][]]; try discriminate Hc; reflexivity. }
    rewrite Hp, ParseUint_FormatUint by (unfold MinInt64, MaxInt64, u64, two64 in *; lia).
    rewrite Z2N.id by lia. destruct (Z.leb_spec z MaxInt64); [done|lia].
Qed.

(** ** Byte-wise order on strings (Go's [<]) *)

Fixpoint str_ltb (a b : string) : bool :=
  match a, b with
  | _, EmptyString => false
  | EmptyString, String _ _ => true
  | String c a', String d b' =>
      if (byte_n c <? byte_n d)%N then true
      else if (byte_n c =? byte_n d)%N then str_ltb a' b' else false
  end.

Lemma str_ltb_irrefl a : str_ltb a a = false.
Proof. induction a as [|c a IH]; [done|]. cbn. by rewrite N.ltb_irrefl, N.eqb_refl. Qed.

Lemma str_ltb_cons c a d b :
  str_ltb (String c a) (String d b) = true <->
  (byte_n c < byte_n d)%N \/ c = d /\ str_ltb a b = true.
Proof.
  cbn. destruct (N.ltb_spec (byte_n c) (byte_n d)); [tauto|].
  destruct (N.eqb_spec (byte_n c) (byte_n d)) as [E|].
  - apply byte_n_inj in E as ->. split; [auto|]. intros [?|[_ ?]]; [lia|done].
  - split; [done|]. intros [?|[-> _]]; lia.
Qed.

Lemma str_ltb_trans a b c : str_ltb a b = true -> str_ltb b c = true -> str_ltb a c = true.
Proof.
  revert b c. induction a as [|x a IH]; intros [|y b] [|z c]; try done.
  rewrite !str_ltb_cons. intros [?|[-> ?]] [?|[-> ?]]; eauto with lia.
Qed.

Lemma str_ltb_total a b : a = b \/ str_ltb a b = true \/ str_ltb b a = true.
Proof.
  revert b. induction a as [|x a IH]; intros [|y b]; [auto..|].
  rewrite !str_ltb_cons. destruct (N.lt_trichotomy (byte_n x) (byte_n y)) as [?|[E|?]]; [auto| |auto].
  apply byte_n_inj in E as ->. destruct (IH b) as [->|[?|?]]; auto.
Qed.

(** [sort.Strings]: the order is total, so every sorting algorithm has one result. *)
Definition str_le (a b : string) : Prop := str_ltb b a = false.
#[export] Instance str_le_dec : RelDecision str_le.
Proof. intros a b. unfold str_le. apply _. Defined.
#[export] Instance str_le_total : Total str_le.
Proof.
  intros a b. unfold str_le. destruct (str_ltb b a) eqn:E; [right|by left].
  apply not_true_iff_false. intros E2. pose proof (str_ltb_trans _ _ _ E E2) as H. by rewrite str_ltb_irrefl in H.
Qed.
#[export] Instance str_le_trans : Transitive str_le.
Proof.
  intros a b c H1 H2. unfold str_le in *. apply not_true_iff_false. intros E.
  destruct (str_ltb_total a b) as [->|[H|H]]; [congruence| |congruence].
  pose proof (str_ltb_trans _ _ _ E H). congruence.
Qed.
Lemma str_le_antisym a b : str_le a b -> str_le b a -> a = b.
Proof. intros H1 H2. destruct (str_ltb_total a b) as [|[H|H]]; [done|unfold str_le in *; congruence..]. Qed.

Definition sort_Strings (l : list string) : list string := merge_sort str_le l.
Lemma sort_Strings_perm l : sort_Strings l ≡ₚ l.
Proof. apply merge_sort_Permutation. Qed.
Lemma sort_Strings_sorted l : StronglySorted str_le (sort_Strings l).
Proof. apply StronglySorted_merge_sort; apply _. Qed.

(** ** [encoding/hex] *)

Definition hex_digit (n : N) : ascii := (if n <? 10 then n_byte (48 + n) else n_byte (87 + n))%N.
Fixpoint hex_EncodeToString (s : string) : string :=
  match s with
  | EmptyString => EmptyString
  | String c s' => String (hex_digit (byte_n c / 16)) (String (hex_digit (byte_n c mod 16)) (hex_EncodeToString s'))
  end.

Lemma hex_digit_inj a b : (a < 16)%N -> (b < 16)%N -> hex_digit a = hex_digit b -> a = b.
Proof.
  unfold hex_digit. intros Ha Hb H. apply (f_equal byte_n) in H.
  destruct (N.ltb_spec a 10), (N.ltb_spec b 10); rewrite !byte_n_byte in H by lia; lia.
Qed.

Lemma hex_length s : String.length (hex_EncodeToString s) = 2 * String.length s.
Proof. induction s as [|c s IH]; [done|]. cbn. rewrite IH. lia. Qed.

Lemma hex_inj s t : hex_EncodeToString s = hex_EncodeToString t -> s = t.
Proof.
  revert t. induction s as [|c s IH]; intros [|d t]; try done. cbn. intros [= H1 H2 H3].
  pose proof (byte_n_lt c). pose proof (byte_n_lt d).
  apply hex_digit_inj in H1; [|lia..]. apply hex_digit_inj in H2; [|lia..].
  f_equal; [|by apply IH]. apply byte_n_inj. lia.
Qed.

Lemma hex_bytes s : str_forallb (fun c => byte_in 48 57 c || byte_in 97 102 c) (hex_EncodeToString s) = true.
Proof.
  induction s as [|c s IH]; [done|]. cbn [hex_EncodeToString str_forallb]. rewrite IH.
  assert (H : forall n, (n < 16)%N -> byte_in 48 57 (hex_digit n) || byte_in 97 102 (hex_digit n) = true).
  { intros n Hn. unfold hex_digit, byte_in. destruct (N.ltb_spec n 10); rewrite !byte_n_byte by lia;
      apply orb_true_iff; [left|right]; apply andb_true_iff; rewrite !N.leb_le; lia. }
  pose proof (byte_n_lt c). by rewrite !H by lia.
Qed.
