(* ===== verification/Encoding.v ===== *)
(** * Base64 and UTF-8 as Go's standard library implements them.

    [base64.RawURLEncoding] addresses identities and cursors, [base64.StdEncoding]
    carries a JSON byte slice; both decoders skip CR and LF and accept nonzero
    trailing bits, as Go's non-strict decoders do.  [next_rune] is
    [utf8.DecodeRune] restricted to well-formed sequences. *)

From S2P Require Import Prelude GoText.
From Stdlib Require Import Ascii.
Open Scope stdpp_scope.

Module Base64.

Record encoding := { alphabet62 : ascii; alphabet63 : ascii; padded : bool }.
Definition RawURLEncoding : encoding := {| alphabet62 := "-"; alphabet63 := "_"; padded := false |}.
Definition StdEncoding : encoding := {| alphabet62 := "+"; alphabet63 := "/"; padded := true |}.

Definition enc6 (e : encoding) (n : N) : ascii :=
  (if n <? 26 then n_byte (65 + n)
   else if n <? 52 then n_byte (71 + n)
   else if n <? 62 then n_byte (n - 4)
   else if n =? 62 then alphabet62 e else alphabet63 e)%N.

Definition dec6 (e : encoding) (c : ascii) : option N :=
  (if byte_in 65 90 c then Some (byte_n c - 65)
   else if byte_in 97 122 c then Some (byte_n c - 71)
   else if byte_in 48 57 c then Some (byte_n c + 4)
   else if decide (c = alphabet62 e) then Some 62
   else if decide (c = alphabet63 e) then Some 63
   else None)%N.

Definition pad_with (e : encoding) (p : string) : string := if padded e then p else EmptyString.

(** [Encoding.EncodeToString]. *)
Fixpoint EncodeToString (e : encoding) (s : string) : string :=
  match s with
  | EmptyString => EmptyString
  | String a EmptyString =>
      let n := (byte_n a * 16)%N in
      String (enc6 e (n / 64)) (String (enc6 e (n mod 64)) (pad_with e "=="))
  | String a (String b EmptyString) =>
      let n := ((byte_n a * 256 + byte_n b) * 4)%N in
      String (enc6 e (n / 4096)) (String (enc6 e (n / 64 mod 64))
        (String (enc6 e (n mod 64)) (pad_with e "=")))
  | String a (String b (String c s')) =>
      let n := ((byte_n a * 256 + byte_n b) * 256 + byte_n c)%N in
      String (enc6 e (n / 262144)) (String (enc6 e (n / 4096 mod 64))
        (String (enc6 e (n / 64 mod 64)) (String (enc6 e (n mod 64)) (EncodeToString e s'))))
  end.

Definition is_newline (c : ascii) : bool := (byte_n c =? 10)%N || (byte_n c =? 13)%N.

Fixpoint strip_newlines (s : string) : string :=
  match s with
  | EmptyString => EmptyString
  | String c s' => if is_newline c then strip_newlines s' else String c (strip_newlines s')
  end.

Definition out2 (n1 n2 : N) : string := str1 (n_byte ((n1 * 64 + n2) / 16)).
Definition out3 (n1 n2 n3 : N) : string :=
  let n := (((n1 * 64 + n2) * 64 + n3) / 4)%N in
  String (n_byte (n / 256)) (str1 (n_byte (n mod 256))).
Definition out4 (n1 n2 n3 n4 : N) (rest : string) : string :=
  let n := (((n1 * 64 + n2) * 64 + n3) * 64 + n4)%N in
  String (n_byte (n / 65536)) (String (n_byte (n / 256 mod 256)) (String (n_byte (n mod 256)) rest)).

(** The quanta of [Encoding.DecodeString], newlines already dropped. *)
Fixpoint decode_quanta (e : encoding) (s : string) : option string :=
  match s with
  | EmptyString => Some EmptyString
  | String a (String b s2) =>
      match dec6 e a, dec6 e b with
      | Some n1, Some n2 =>
          match s2 with
          | EmptyString => if padded e then None else Some (out2 n1 n2)
          | String c s3 =>
              match dec6 e c, s3 with
              | Some n3, EmptyString => if padded e then None else Some (out3 n1 n2 n3)
              | Some n3, String d s4 =>
                  match dec6 e d with
                  | Some n4 => out4 n1 n2 n3 n4 <$> decode_quanta e s4
                  | None =>
                      if padded e && bool_decide (d = "="%char) && bool_decide (s4 = EmptyString)
                      then Some (out3 n1 n2 n3) else None
                  end
              | None, _ =>
                  if padded e && bool_decide (c = "="%char) && bool_decide (s3 = "=")
                  then Some (out2 n1 n2) else None
              end
          end
      | _, _ => None
      end
  | String _ EmptyString => None
  end.
(** [Encoding.DecodeString]; [None] is a [CorruptInputError]. *)
Definition DecodeString (e : encoding) (s : string) : option string :=
  decode_quanta e (strip_newlines s).

Definition b64_byte (c : ascii) : bool :=
  byte_in 65 90 c || byte_in 97 122 c || byte_in 48 57 c.

(** The alphabet of an encoding is a bijection on sextets; a decoder never confuses
    an alphabet byte with padding or a newline. *)
Class Alphabet (e : encoding) := {
  dec_enc6 : forall n, (n < 64)%N -> dec6 e (enc6 e n) = Some n;
  enc6_plain : forall n, (n < 64)%N -> is_newline (enc6 e n) = false;
  dec6_pad : dec6 e "=" = None
}.

Definition sextets : list N := N.of_nat <$> seq 0 64.

Lemma sextet_in n : (n < 64)%N -> In n sextets.
Proof.
  intros H. apply list_elem_of_In, list_elem_of_fmap. exists (N.to_nat n).
  split; [lia|]. apply elem_of_seq. lia.
Qed.

Lemma sextet_all (p : N -> bool) : forallb p sextets = true -> forall n, (n < 64)%N -> p n = true.
Proof. intros H n Hn. rewrite forallb_forall in H. apply H, sextet_in, Hn. Qed.

Ltac sextet_tac p :=
  intros n Hn;
  assert (Hp : p n = true) by (revert n Hn; apply sextet_all; vm_compute; reflexivity);
  first [apply bool_decide_eq_true in Hp; exact Hp | apply negb_true_iff in Hp; exact Hp].

#[global] Instance RawURL_Alphabet : Alphabet RawURLEncoding.
Proof.
  split.
  - sextet_tac (fun n => bool_decide (dec6 RawURLEncoding (enc6 RawURLEncoding n) = Some n)).
  - sextet_tac (fun n => negb (is_newline (enc6 RawURLEncoding n))).
  - done.
Qed.

#[global] Instance Std_Alphabet : Alphabet StdEncoding.
Proof.
  split.
  - sextet_tac (fun n => bool_decide (dec6 StdEncoding (enc6 StdEncoding n) = Some n)).
  - sextet_tac (fun n => negb (is_newline (enc6 StdEncoding n))).
  - done.
Qed.

(** Induction three bytes at a time. *)
Lemma triple_ind (P : string -> Prop) :
  P EmptyString -> (forall a, P (str1 a)) -> (forall a b, P (String a (str1 b))) ->
  (forall a b c s, P s -> P (String a (String b (String c s)))) -> forall s, P s.
Proof.
  intros H0 H1 H2 H3 s.
  assert (H : forall n s, String.length s <= n -> P s).
  { clear s. induction n as [|n IH]; intros s Hs.
    - destruct s; [done|cbn in Hs; lia].
    - destruct s as [|a [|b [|c s]]]; [done|apply H1|apply H2|].
      apply H3, IH. cbn in Hs. lia. }
  by apply (H (String.length s)).
Qed.

Lemma out2_spec a : out2 (byte_n a * 16 / 64) (byte_n a * 16 mod 64) = str1 a.
Proof.
  unfold out2. f_equal. rewrite <- (n_byte_n a) at 3. f_equal. pose proof (byte_n_lt a). lia.
Qed.

Lemma out3_spec a b :
  let n := ((byte_n a * 256 + byte_n b) * 4)%N in
  out3 (n / 4096) (n / 64 mod 64) (n mod 64) = String a (str1 b).
Proof.
  intros n. unfold out3. pose proof (byte_n_lt a). pose proof (byte_n_lt b).
  assert (E : (((n / 4096 * 64 + n / 64 mod 64) * 64 + n mod 64) / 4 = byte_n a * 256 + byte_n b)%N)
    by (unfold n; lia).
  rewrite E. f_equal; [|f_equal]; rewrite <- n_byte_n; f_equal; lia.
Qed.

Lemma out4_spec a b c s :
  let n := ((byte_n a * 256 + byte_n b) * 256 + byte_n c)%N in
  out4 (n / 262144) (n / 4096 mod 64) (n / 64 mod 64) (n mod 64) s
  = String a (String b (String c s)).
Proof.
  intros n. unfold out4.
  pose proof (byte_n_lt a). pose proof (byte_n_lt b). pose proof (byte_n_lt c).
  assert (E : ((((n / 262144 * 64 + n / 4096 mod 64) * 64 + n / 64 mod 64) * 64 + n mod 64)
    = n)%N) by lia.
  rewrite E. subst n. f_equal; [|f_equal; [|f_equal]]; rewrite <- n_byte_n; f_equal; lia.
Qed.

Section roundtrip.
Context (e : encoding) `{!Alphabet e}.

Lemma strip_enc6 n s : (n < 64)%N ->
  strip_newlines (String (enc6 e n) s) = String (enc6 e n) (strip_newlines s).
Proof. intros H. cbn. by rewrite enc6_plain. Qed.

Lemma EncodeToString_cons3 a b c s :
  EncodeToString e (String a (String b (String c s))) =
  let n := ((byte_n a * 256 + byte_n b) * 256 + byte_n c)%N in
  String (enc6 e (n / 262144)) (String (enc6 e (n / 4096 mod 64))
      (String (enc6 e (n / 64 mod 64)) (String (enc6 e (n mod 64)) (EncodeToString e s)))).
Proof. done. Qed.

(** Decoding undoes encoding. *)
Lemma DecodeString_EncodeToString s : DecodeString e (EncodeToString e s) = Some s.
Proof.
  unfold DecodeString. induction s as [|a|a b|a b c s IH] using triple_ind.
  - done.
  - pose proof (byte_n_lt a). unfold str1 at 1. cbn [EncodeToString].
    rewrite !strip_enc6 by lia. unfold pad_with.
    destruct (padded e) eqn:Ep; [change (strip_newlines "==") with "=="|]; cbn;
      rewrite Ep, !dec_enc6, ?dec6_pad by lia; cbn; by rewrite out2_spec.
  - pose proof (byte_n_lt a). pose proof (byte_n_lt b). unfold str1 at 1. cbn [EncodeToString].
    rewrite !strip_enc6 by lia. unfold pad_with.
    destruct (padded e) eqn:Ep; [change (strip_newlines "=") with "="|]; cbn;
      rewrite Ep, !dec_enc6, ?dec6_pad by lia; cbn; by rewrite out3_spec.
  - pose proof (byte_n_lt a). pose proof (byte_n_lt b). pose proof (byte_n_lt c).
    rewrite EncodeToString_cons3. cbv zeta. rewrite !strip_enc6 by lia.
    cbn [decode_quanta]. rewrite !dec_enc6 by lia. rewrite IH. cbn [fmap option_fmap option_map].
    by rewrite out4_spec.
Qed.

(** Hence two inputs never share an encoding. *)
Lemma EncodeToString_inj s t : EncodeToString e s = EncodeToString e t -> s = t.
Proof.
  intros H. pose proof (DecodeString_EncodeToString s) as Hs.
  rewrite H, DecodeString_EncodeToString in Hs. congruence.
Qed.
End roundtrip.

End Base64.

(** ** UTF-8 *)

Module Utf8.

(** A continuation byte within bounds. *)
Definition cont (lo hi : N) (c : ascii) : bool := byte_in lo hi c.

(** The well-formed multi-byte sequence at the head of [s], with the rest:
    [utf8.DecodeRune] when it does not answer [RuneError] with width 1.  The bounds
    are the accept ranges of [unicode/utf8]. *)
Definition next_rune (s : string) : option (string * string) :=
  match s with
  | String a (String b s2) =>
      if byte_in 194 223 a then
        (if cont 128 191 b then Some (String a (str1 b), s2) else None)
      else match s2 with
      | String c s3 =>
          if byte_in 224 239 a then
            (let lo := if (byte_n a =? 224)%N then 160%N else 128%N in
             let hi := if (byte_n a =? 237)%N then 159%N else 191%N in
             if cont lo hi b && cont 128 191 c then Some (String a (String b (str1 c)), s3) else None)
          else match s3 with
          | String d s4 =>
              if byte_in 240 244 a then
                (let lo := if (byte_n a =? 240)%N then 144%N else 128%N in
                 let hi := if (byte_n a =? 244)%N then 143%N else 191%N in
                 if cont lo hi b && cont 128 191 c && cont 128 191 d
                 then Some (String a (String b (String c (str1 d))), s4) else None)
              else None
          | EmptyString => None
          end
      | EmptyString => None
      end
  | _ => None
  end.

Definition is_ascii (c : ascii) : bool := (byte_n c <? 128)%N.

(** [utf8.ValidString]. *)
Fixpoint valid_fuel (fuel : nat) (s : string) : bool :=
  match fuel, s with
  | _, EmptyString => true
  | O, _ => false
  | S f, String c s' =>
      if is_ascii c then valid_fuel f s'
      else match next_rune s with
           | Some (_, rest) => valid_fuel f rest
           | None => false
           end
  end.
Definition ValidString (s : string) : bool := valid_fuel (String.length s) s.

Lemma next_rune_split s r rest :
  next_rune s = Some (r, rest) -> s = r +:+ rest /\ 2 <= String.length r <= 4.
Proof.
  unfold next_rune. intros H.
  repeat (case_match; try done); simplify_eq; cbn; (split; [done|lia]).
Qed.

Lemma next_rune_app s r rest t :
  next_rune s = Some (r, rest) -> next_rune (s +:+ t) = Some (r, rest +:+ t).
Proof.
  unfold next_rune. intros H.
  repeat (case_match; try done); simplify_eq; rewrite ?str_cons_app in *; simplify_eq;
    repeat (case_match; try done); simplify_eq; try done; try congruence.
Qed.

(** Well-formed UTF-8 as a derivation: ASCII bytes and well-formed sequences. *)
Inductive utf8 : string -> Prop :=
  | utf8_nil : utf8 EmptyString
  | utf8_ascii c s : is_ascii c = true -> utf8 s -> utf8 (String c s)
  | utf8_rune s r rest :
      next_rune s = Some (r, rest) -> (forall c s', s = String c s' -> is_ascii c = false) ->
      utf8 rest -> utf8 s.

Lemma valid_fuel_utf8 n s : valid_fuel n s = true -> utf8 s.
Proof.
  revert s. induction n as [|n IH]; intros s; destruct s as [|c s]; [by constructor|done|by constructor|].
  cbn [valid_fuel]. destruct (is_ascii c) eqn:Ec; [by constructor; auto|].
  destruct (next_rune (String c s)) as [[r rest]|] eqn:E; [|done].
  intros H. eapply utf8_rune; [exact E|intros ?? [= <- <-]; done|by apply IH].
Qed.

Lemma ValidString_utf8 s : ValidString s = true -> utf8 s.
Proof. apply valid_fuel_utf8. Qed.

Lemma ascii_utf8 s : str_forallb is_ascii s = true -> utf8 s.
Proof.
  induction s as [|c s IH]; [constructor|]. cbn. rewrite andb_true_iff. intros [Hc Hs].
  constructor; auto.
Qed.

End Utf8.
