(* ===== verification/Sha256.v ===== *)
(** * SHA-256 ([crypto/sha256], FIPS 180-4), executable, over strings of bytes.

    The program addresses records and compares objects by this digest.  No theorem
    assumes that it is collision free: those that depend on it say so by exhibiting
    the collision. *)

From S2P Require Import Prelude GoText.
From Stdlib Require Import Ascii.
Open Scope stdpp_scope.

Module Sha256.
Open Scope N_scope.

Definition mask32 (n : N) : N := n mod 4294967296.
Definition add32 (a b : N) : N := mask32 (a + b).
Definition rotr (n : N) (x : N) : N :=
  N.lor (N.shiftr x n) (mask32 (N.shiftl x (32 - n))).
Definition lnot32 (x : N) : N := N.lxor x 4294967295.

Definition ch (x y z : N) : N := N.lxor (N.land x y) (N.land (lnot32 x) z).
Definition maj (x y z : N) : N := N.lxor (N.lxor (N.land x y) (N.land x z)) (N.land y z).
Definition bsig0 (x : N) : N := N.lxor (N.lxor (rotr 2 x) (rotr 13 x)) (rotr 22 x).
Definition bsig1 (x : N) : N := N.lxor (N.lxor (rotr 6 x) (rotr 11 x)) (rotr 25 x).
Definition ssig0 (x : N) : N := N.lxor (N.lxor (rotr 7 x) (rotr 18 x)) (N.shiftr x 3).
Definition ssig1 (x : N) : N := N.lxor (N.lxor (rotr 17 x) (rotr 19 x)) (N.shiftr x 10).

(** The constants, as the standard defines them: the first 32 bits of the fractional parts of
    the cube and square roots of the first primes. *)
Fixpoint root_below (pow : N -> N) (bits : nat) (target acc : N) : N :=
  match bits with
  | O => acc
  | S b => let acc' := acc + 2 ^ N.of_nat b in
           root_below pow b target (if pow acc' <=? target then acc' else acc)
  end.
Definition fraction_of_root (k : N) (p : N) : N :=
  mask32 (root_below (fun x => x ^ k) 40 (p * 2 ^ (32 * k)) 0).

Definition is_prime (n : nat) : bool :=
  forallb (fun d => negb (n mod d =? 0)%nat) (seq 2 (n - 2)).
Definition primes : list N := map N.of_nat (take 64 (List.filter is_prime (seq 2 310))).

Definition K : list N := Eval vm_compute in map (fraction_of_root 3) primes.
Definition H0 : list N := Eval vm_compute in map (fraction_of_root 2) (take 8 primes).

(** The message schedule, newest word first, as a window of 16 words. *)
Fixpoint schedule (n : nat) (w : list N) : list N :=
  match n with
  | O => []
  | S k =>
      match w with
      | w0 :: rest =>
          let w1 := nth 0 rest 0 in let w9 := nth 8 rest 0 in let w14 := nth 13 rest 0 in
          let next := add32 (add32 (ssig1 w14) w9) (add32 (ssig0 w1) w0) in
          w0 :: schedule k (rest ++ [next])
      | [] => []
      end
  end.

Definition round (st : list N) (kw : N * N) : list N :=
  match st with
  | [a; b; c; d; e; f; g; h] =>
      let t1 := add32 (add32 h (bsig1 e)) (add32 (ch e f g) (add32 (fst kw) (snd kw))) in
      let t2 := add32 (bsig0 a) (maj a b c) in
      [add32 t1 t2; a; b; c; add32 d t1; e; f; g]
  | _ => st
  end.

Definition compress (h : list N) (block : list N) : list N :=
  zip_with add32 h (fold_left round (combine K (schedule 64 block)) h).

(** Big-endian words of a byte string. *)
Fixpoint words (s : string) : list N :=
  match s with
  | String a (String b (String c (String d s'))) =>
      (((byte_n a * 256 + byte_n b) * 256 + byte_n c) * 256 + byte_n d) :: words s'
  | _ => []
  end.

Fixpoint be_bytes (n : nat) (x : N) : string :=
  match n with
  | O => EmptyString
  | S k => be_bytes k (x / 256) +:+ str1 (n_byte (x mod 256))
  end.

Fixpoint zeros (n : nat) : string :=
  match n with O => EmptyString | S k => String (n_byte 0) (zeros k) end.

Definition pad (s : string) : string :=
  let len := N.of_nat (String.length s) in
  let z := N.to_nat ((119 - len mod 64) mod 64) in
  s +:+ String (n_byte 128) (zeros z) +:+ be_bytes 8 (len * 8).

Fixpoint blocks (fuel : nat) (w : list N) (h : list N) : list N :=
  match fuel with
  | O => h
  | S f => match w with
           | [] => h
           | _ => blocks f (drop 16 w) (compress h (take 16 w))
           end
  end.

(** [sha256.Sum256], 32 raw bytes. *)
Definition Sum256 (s : string) : string :=
  let w := words (pad s) in
  fold_right (fun x acc => be_bytes 4 x +:+ acc) EmptyString (blocks (length w) w H0).

(** FIPS 180-4 test vectors. *)
Example sum256_abc :
  hex_EncodeToString (Sum256 "abc") =
  "ba7816bf8f01cfea414140de5dae2223b00361a396177a9cb410ff61f20015ad".
Proof. vm_compute. reflexivity. Qed.
Example sum256_two_blocks :
  hex_EncodeToString (Sum256 "abcdbcdecdefdefgefghfghighijhijkijkljklmklmnlmnomnopnopq") =
  "248d6a61d20638b8e5c026930c3e6039a33ce45964ff2167f6ecedd419db06c1".
Proof. vm_compute. reflexivity. Qed.
Example sum256_empty :
  hex_EncodeToString (Sum256 EmptyString) =
  "e3b0c44298fc1c149afbf4c8996fb92427ae41e4649b934ca495991b7852b855".
Proof. vm_compute. reflexivity. Qed.

Lemma be_bytes_length n x : String.length (be_bytes n x) = n.
Proof.
  revert x. induction n as [|n IH]; intros x; [done|]. cbn [be_bytes].
  rewrite str_length_app, IH. cbn. lia.
Qed.

Lemma round_length st kw : length (round st kw) = length st.
Proof. do 9 (destruct st as [|? st]; [done|]). done. Qed.

Lemma compress_length h b : length (compress h b) = length h.
Proof.
  unfold compress. rewrite length_zip_with.
  assert (E : forall l, length (fold_left round l h) = length h).
  { intros l. revert h. induction l as [|kw l IH]; intros h; [done|]. cbn. by rewrite IH, round_length. }
  rewrite E. lia.
Qed.

Lemma blocks_length fuel w h : length (blocks fuel w h) = length h.
Proof.
  revert w h. induction fuel as [|f IH]; intros w h; [done|]. cbn [blocks]. destruct w; [done|].
  by rewrite IH, compress_length.
Qed.

Lemma Sum256_length s : String.length (Sum256 s) = 32%nat.
Proof.
  unfold Sum256. cbv zeta. set (l := blocks _ _ _).
  assert (Hl : length l = 8%nat) by (unfold l; by rewrite blocks_length).
  assert (E : String.length (fold_right (fun x acc => be_bytes 4 x +:+ acc) EmptyString l) = (4 * length l)%nat).
  { clear Hl. induction l as [|x l IH]; [done|]. cbn [fold_right length]. rewrite str_length_app, be_bytes_length, IH. lia. }
  rewrite E, Hl. done.
Qed.

(** Eight big-endian bytes determine a [uint64]. *)
Lemma be_bytes_inj n x y :
  x < 256 ^ N.of_nat n -> y < 256 ^ N.of_nat n -> be_bytes n x = be_bytes n y -> x = y.
Proof.
  revert x y. induction n as [|n IH]; intros x y Hx Hy H; [cbn in *; lia|].
  cbn [be_bytes] in H.
  assert (Hsplit : forall s t a b, s +:+ str1 a = t +:+ str1 b -> s = t /\ a = b).
  { clear. intros s. induction s as [|c s IH]; intros t a b E.
    - destruct t as [|d [|d' t]]; rewrite ?str_cons_app, ?str_app_nil_l in E; unfold str1 in E;
        simplify_eq; done.
    - destruct t as [|d t]; rewrite ?str_cons_app, ?str_app_nil_l in E.
      + unfold str1 in E. destruct s; rewrite ?str_cons_app, ?str_app_nil_l in E; simplify_eq.
      + injection E as -> E. destruct (IH _ _ _ E) as [-> ->]. done. }
  destruct (Hsplit _ _ _ _ H) as [H1 H2].
  assert (Hm : x mod 256 = y mod 256).
  { rewrite <- (byte_n_byte (x mod 256)), <- (byte_n_byte (y mod 256)) by lia. by rewrite H2. }
  rewrite Nat2N.inj_succ, N.pow_succ_r' in Hx, Hy.
  assert (Hd : x / 256 = y / 256).
  { apply IH; [..|done]; by apply N.Div0.div_lt_upper_bound. }
  rewrite (N.div_mod' x 256), (N.div_mod' y 256). congruence.
Qed.

End Sha256.
