(* ===== verification/Json.v ===== *)
(** * [encoding/json]: the encoder for flat structs and the strict decoder.

    [parse_value] is the scanner of a [json.Decoder] reading one value and leaving
    the rest of the input, [More] its look-ahead, [esc] the string encoder of
    [json.Marshal] (HTML escapes, U+2028/2029, invalid UTF-8 replaced), and
    [resolve] the field lookup (exact name first, then case folding).  The round trip
    [parse_print_object] is the basis of the record, counter and cursor codecs. *)

From S2P Require Import Prelude GoText Encoding.
From Stdlib Require Import Ascii.
Open Scope stdpp_scope.

Module Json.

(** [JNum] keeps the literal: it is converted by the field it lands in.  [JStr] keeps the
    body of the literal beside the string it denotes: a type with its own [UnmarshalJSON]
    is handed the literal. *)
Inductive json :=
  | JNull
  | JBool (b : bool)
  | JNum (lit : string)
  | JStr (raw s : string)
  | JArr (l : list json)
  | JObj (l : list (string * json)).

Definition dquote : ascii := n_byte 34.
Definition backslash : ascii := n_byte 92.

(** ** The string encoder *)

Definition u_esc (n : N) : string :=
  String backslash (String "u" (String (hex_digit (n / 4096)) (String (hex_digit (n / 256 mod 16))
    (String (hex_digit (n / 16 mod 16)) (str1 (hex_digit (n mod 16))))))).

Definition esc_ascii (c : ascii) : string :=
  let n := byte_n c in
  (if (n =? 34) || (n =? 92) then String backslash (str1 c)
   else if n =? 8 then String backslash (str1 "b")
   else if n =? 12 then String backslash (str1 "f")
   else if n =? 10 then String backslash (str1 "n")
   else if n =? 13 then String backslash (str1 "r")
   else if n =? 9 then String backslash (str1 "t")
   else if (n <? 32) || (n =? 60) || (n =? 62) || (n =? 38) then u_esc n
   else str1 c)%N.

Definition line_sep : string := String (n_byte 226) (String (n_byte 128) (str1 (n_byte 168))).
Definition par_sep : string := String (n_byte 226) (String (n_byte 128) (str1 (n_byte 169))).

Inductive rune_state := Fresh | Copy (k : nat) | Skip (k : nat).
Definition copy_state (k : nat) : rune_state := match k with O => Fresh | _ => Copy k end.
Definition skip_state (k : nat) : rune_state := match k with O => Fresh | _ => Skip k end.

(** The body of an encoded string. *)
Fixpoint esc (st : rune_state) (s : string) : string :=
  match s with
  | EmptyString => EmptyString
  | String c s' =>
      match st with
      | Copy (S k) => String c (esc (copy_state k) s')
      | Skip (S k) => esc (skip_state k) s'
      | _ =>
          if Utf8.is_ascii c then esc_ascii c +:+ esc Fresh s'
          else match Utf8.next_rune s with
               | Some (r, _) =>
                   if decide (r = line_sep) then u_esc 8232 +:+ esc (Skip 2) s'
                   else if decide (r = par_sep) then u_esc 8233 +:+ esc (Skip 2) s'
                   else String c (esc (copy_state (String.length r - 1)) s')
               | None => u_esc 65533 +:+ esc Fresh s'
               end
      end
  end.

Definition quote (s : string) : string := String dquote (esc Fresh s +:+ str1 dquote).

(** ** The string scanner *)

Definition hex_val (c : ascii) : option N :=
  (if byte_in 48 57 c then Some (byte_n c - 48)
   else if byte_in 97 102 c then Some (byte_n c - 87)
   else if byte_in 65 70 c then Some (byte_n c - 55) else None)%N.

Definition hex4 (a b c d : ascii) : option N :=
  match hex_val a, hex_val b, hex_val c, hex_val d with
  | Some x, Some y, Some z, Some w => Some (((x * 16 + y) * 16 + z) * 16 + w)%N
  | _, _, _, _ => None
  end.

Definition rune_error : string := String (n_byte 239) (String (n_byte 191) (str1 (n_byte 189))).
Definition is_surrogate (r : N) : bool := ((55296 <=? r) && (r <? 57344))%N.

(** [utf8.AppendRune]. *)
Definition append_rune (r : N) : string :=
  (if r <? 128 then str1 (n_byte r)
   else if r <? 2048 then String (n_byte (192 + r / 64)) (str1 (n_byte (128 + r mod 64)))
   else if is_surrogate r then rune_error
   else if r <? 65536 then
     String (n_byte (224 + r / 4096)) (String (n_byte (128 + r / 64 mod 64)) (str1 (n_byte (128 + r mod 64))))
   else if r <? 1114112 then
     String (n_byte (240 + r / 262144)) (String (n_byte (128 + r / 4096 mod 64))
       (String (n_byte (128 + r / 64 mod 64)) (str1 (n_byte (128 + r mod 64)))))
   else rune_error)%N.

(** [utf16.DecodeRune] on a surrogate pair. *)
Definition decode_pair (hi lo : N) : option N :=
  (if (55296 <=? hi) && (hi <? 56320) && (56320 <=? lo) && (lo <? 57344)
   then Some ((hi - 55296) * 1024 + (lo - 56320) + 65536) else None)%N.

Definition simple_esc (c : ascii) : option ascii :=
  (let n := byte_n c in
   if n =? 34 then Some (n_byte 34) else if n =? 92 then Some (n_byte 92)
   else if n =? 47 then Some (n_byte 47) else if n =? 98 then Some (n_byte 8)
   else if n =? 102 then Some (n_byte 12) else if n =? 110 then Some (n_byte 10)
   else if n =? 114 then Some (n_byte 13) else if n =? 116 then Some (n_byte 9)
   else None)%N.

Definition emit (o : string) (r : option (string * string)) : option (string * string) :=
  match r with Some (s, rest) => Some (o +:+ s, rest) | None => None end.

(** The rest of a string literal after its opening quote: the decoded value and the
    input after the closing quote.  [k] counts continuation bytes to copy. *)
Fixpoint parse_str (k : nat) (s : string) : option (string * string) :=
  match s with
  | EmptyString => None
  | String c s' =>
      match k with
      | S k' => emit (str1 c) (parse_str k' s')
      | O =>
          if decide (c = dquote) then Some (EmptyString, s')
          else if decide (c = backslash) then
            match s' with
            | EmptyString => None
            | String u s2 =>
                if decide (u = "u"%char) then
                  match s2 with
                  | String a (String b (String d (String e s6))) =>
                      match hex4 a b d e with
                      | None => None
                      | Some r =>
                          if is_surrogate r then
                            match s6 with
                            | String q (String v (String a' (String b' (String d' (String e' s12))))) =>
                                if bool_decide (q = backslash) && bool_decide (v = "u"%char) then
                                  match hex4 a' b' d' e' with
                                  | Some r' =>
                                      match decode_pair r r' with
                                      | Some x => emit (append_rune x) (parse_str 0 s12)
                                      | None => emit rune_error (parse_str 0 s6)
                                      end
                                  | None => None
                                  end
                                else emit rune_error (parse_str 0 s6)
                            | _ => emit rune_error (parse_str 0 s6)
                            end
                          else emit (append_rune r) (parse_str 0 s6)
                      end
                  | _ => None
                  end
                else match simple_esc u with
                     | Some x => emit (str1 x) (parse_str 0 s2)
                     | None => None
                     end
            end
          else if (byte_n c <? 32)%N then None
          else if Utf8.is_ascii c then emit (str1 c) (parse_str 0 s')
          else match Utf8.next_rune s with
               | Some (r, _) => emit (str1 c) (parse_str (String.length r - 1) s')
               | None => emit rune_error (parse_str 0 s')
               end
      end
  end.

(** ** The value scanner *)

Definition is_space (c : ascii) : bool :=
  ((byte_n c =? 32) || (byte_n c =? 9) || (byte_n c =? 13) || (byte_n c =? 10))%N.
Fixpoint skip_ws (s : string) : string :=
  match s with
  | String c s' => if is_space c then skip_ws s' else s
  | EmptyString => s
  end.

Fixpoint span_digits (s : string) : string * string :=
  match s with
  | String c s' => if byte_in 48 57 c
                   then let '(d, r) := span_digits s' in (String c d, r) else (EmptyString, s)
  | EmptyString => (EmptyString, EmptyString)
  end.

(** A nonempty run of digits. *)
Definition digits1 (s : string) : option (string * string) :=
  match span_digits s with
  | (EmptyString, _) => None
  | (d, r) => Some (d, r)
  end.

Definition scan_int (s : string) : option (string * string) :=
  match s with
  | String "0" s' => Some ("0", s')
  | _ => digits1 s
  end.
Definition scan_frac (s : string) : option (string * string) :=
  match s with
  | String "." s' => match digits1 s' with Some (d, r) => Some (String "." d, r) | None => None end
  | _ => Some (EmptyString, s)
  end.
Definition scan_exp (s : string) : option (string * string) :=
  match s with
  | String c s' =>
      if bool_decide (c = "e"%char) || bool_decide (c = "E"%char) then
        let '(sg, s2) := match s' with
                         | String "+" t => ("+", t) | String "-" t => ("-", t)
                         | _ => (EmptyString, s') end in
        match digits1 s2 with Some (d, r) => Some (String c (sg +:+ d), r) | None => None end
      else Some (EmptyString, s)
  | EmptyString => Some (EmptyString, s)
  end.
Definition scan_num (s : string) : option (string * string) :=
  let '(sg, s1) := match s with String "-" t => ("-", t) | _ => (EmptyString, s) end in
  match scan_int s1 with
  | None => None
  | Some (i, s2) =>
      match scan_frac s2 with
      | None => None
      | Some (f, s3) =>
          match scan_exp s3 with
          | None => None
          | Some (x, s4) => Some (sg +:+ i +:+ f +:+ x, s4)
          end
      end
  end.

(** What stands in [t] before its closing quote, with [r] after it. *)
Definition literal_body (t r : string) : string :=
  String.substring 0 (String.length t - String.length r - 1) t.

Fixpoint parse_value (fuel : nat) (s : string) {struct fuel} : option (json * string) :=
  match fuel with
  | O => None
  | S f =>
      match skip_ws s with
      | EmptyString => None
      | String c t =>
          if decide (c = "{"%char) then
            match skip_ws t with
            | String "}" r => Some (JObj [], r)
            | _ => match parse_members f t with Some (l, r) => Some (JObj l, r) | None => None end
            end
          else if decide (c = "["%char) then
            match skip_ws t with
            | String "]" r => Some (JArr [], r)
            | _ => match parse_elems f t with Some (l, r) => Some (JArr l, r) | None => None end
            end
          else if decide (c = dquote) then
            match parse_str 0 t with Some (v, r) => Some (JStr (literal_body t r) v, r) | None => None end
          else match CutPrefix (String c t) "null", CutPrefix (String c t) "true",
                     CutPrefix (String c t) "false" with
               | Some r, _, _ => Some (JNull, r)
               | _, Some r, _ => Some (JBool true, r)
               | _, _, Some r => Some (JBool false, r)
               | _, _, _ =>
                   match scan_num (String c t) with Some (l, r) => Some (JNum l, r) | None => None end
               end
      end
  end
with parse_members (fuel : nat) (s : string) {struct fuel} : option (list (string * json) * string) :=
  match fuel with
  | O => None
  | S f =>
      match skip_ws s with
      | String c t =>
          if decide (c = dquote) then
            match parse_str 0 t with
            | None => None
            | Some (key, r) =>
                match skip_ws r with
                | String ":" r1 =>
                    match parse_value f r1 with
                    | None => None
                    | Some (v, r2) =>
                        match skip_ws r2 with
                        | String "}" r3 => Some ([(key, v)], r3)
                        | String "," r3 =>
                            match parse_members f r3 with
                            | Some (l, r4) => Some ((key, v) :: l, r4)
                            | None => None
                            end
                        | _ => None
                        end
                    end
                | _ => None
                end
            end
          else None
      | EmptyString => None
      end
  end
with parse_elems (fuel : nat) (s : string) {struct fuel} : option (list json * string) :=
  match fuel with
  | O => None
  | S f =>
      match parse_value f s with
      | None => None
      | Some (v, r) =>
          match skip_ws r with
          | String "]" r1 => Some ([v], r1)
          | String "," r1 =>
              match parse_elems f r1 with Some (l, r2) => Some (v :: l, r2) | None => None end
          | _ => None
          end
      end
  end.

(** [Decoder.Decode] up to the assignment of fields: one value and the unread input.
    Every recursive call of the scanner is at most two levels above a consumed byte,
    so twice the length is fuel enough. *)
Definition Decode (s : string) : option (json * string) :=
  parse_value (2 * String.length s + 2) s.

(** [Decoder.More] at the top level: a closing bracket or brace is NOT "more". *)
Definition More (rest : string) : bool :=
  match skip_ws rest with
  | EmptyString => false
  | String c _ => negb (bool_decide (c = "]"%char) || bool_decide (c = "}"%char))
  end.

(** [Decoder.Token] answers [io.EOF]: nothing but space is left. *)
Definition at_EOF (rest : string) : bool := bool_decide (skip_ws rest = EmptyString).

(** ** Struct fields *)

(** [foldName]: ASCII letters to upper case, plus the two non-ASCII runes whose
    folding orbit holds an ASCII letter (U+017F, U+212A). *)
Definition upper (c : ascii) : ascii := if byte_in 97 122 c then n_byte (byte_n c - 32) else c.
Fixpoint foldName (s : string) : string :=
  match s with
  | EmptyString => EmptyString
  | String a s1 =>
      match s1 with
      | String b s2 =>
          if ((byte_n a =? 197) && (byte_n b =? 191))%N then String "S" (foldName s2)
          else match s2 with
               | String c s3 =>
                   if ((byte_n a =? 226) && (byte_n b =? 132) && (byte_n c =? 170))%N
                   then String "K" (foldName s3) else String (upper a) (foldName s1)
               | EmptyString => String (upper a) (foldName s1)
               end
      | EmptyString => String (upper a) (foldName s1)
      end
  end.

(** The struct field a key names; [None] is an unknown field. *)
Definition resolve (fields : list string) (key : string) : option string :=
  if bool_decide (key ∈ fields) then Some key
  else head (filter (fun f => foldName f = foldName key) fields).

(** Assigning a JSON value to a Go field holding [prev]; [None] is an error. *)
Definition as_string (prev : string) (v : json) : option string :=
  match v with JNull => Some prev | JStr _ s => Some s | _ => None end.
Definition as_bool (prev : bool) (v : json) : option bool :=
  match v with JNull => Some prev | JBool b => Some b | _ => None end.
Definition as_uint (bound : N) (prev : N) (v : json) : option N :=
  match v with
  | JNull => Some prev
  | JNum lit => match ParseUint lit with
                | ParseOk n => if (n <? bound)%N then Some n else None
                | _ => None
                end
  | _ => None
  end.
Definition as_int64 (prev : Z) (v : json) : option Z :=
  match v with JNull => Some prev | JNum lit => ParseInt lit | _ => None end.

Fixpoint as_byte_array (l : list json) : option string :=
  match l with
  | [] => Some EmptyString
  | v :: l' =>
      match as_uint 256 0 v, as_byte_array l' with
      | Some n, Some s => Some (String (n_byte n) s)
      | _, _ => None
      end
  end.
(** A [[]byte] field: [null] is [nil], a string is standard base64, an array its bytes. *)
Definition as_bytes (v : json) : option (option string) :=
  match v with
  | JNull => Some None
  | JStr _ s => match Base64.DecodeString Base64.StdEncoding s with
              | Some b => Some (Some b)
              | None => None
              end
  | JArr l => match as_byte_array l with Some b => Some (Some b) | None => None end
  | _ => None
  end.

(** Fold the members of an object into a struct; [null] leaves it as it is. *)
Definition decode_struct {P} (field : P -> string -> json -> option P) (fields : list string)
    (zero : P) (v : json) : option P :=
  match v with
  | JNull => Some zero
  | JObj l =>
      foldl (fun acc '(k, x) =>
               match acc, resolve fields k with
               | Some p, Some f => field p f x
               | _, _ => None
               end) (Some zero) l
  | _ => None
  end.

(** ** Flat objects, as [json.Marshal] prints a struct of scalars *)

(** A string as the encoder writes it. *)
Definition jstr (s : string) : json := JStr (esc Fresh s) s.

Definition print_scalar (v : json) : string :=
  match v with
  | JNull => "null"
  | JBool true => "true"
  | JBool false => "false"
  | JNum l => l
  | JStr _ s => quote s
  | _ => EmptyString
  end.

Fixpoint print_members (l : list (string * json)) : string :=
  match l with
  | [] => EmptyString
  | [(k, v)] => quote k +:+ String ":" (print_scalar v)
  | (k, v) :: l' => quote k +:+ String ":" (print_scalar v +:+ String "," (print_members l'))
  end.
Definition print_object (l : list (string * json)) : string :=
  String "{" (print_members l +:+ "}").

(** ** Round trips *)

Lemma as_string_jstr prev s : as_string prev (jstr s) = Some s.
Proof. done. Qed.

Lemma emit_emit a b r : emit a (emit b r) = emit (a +:+ b) r.
Proof. destruct r as [[s t]|]; [|done]. cbn. by rewrite str_app_assoc. Qed.

Lemma esc_copy u k t : String.length u = k -> esc (copy_state k) (u +:+ t) = u +:+ esc Fresh t.
Proof.
  revert k. induction u as [|c u IH]; intros k <-; [done|].
  rewrite !str_cons_app.
  transitivity (String c (esc (copy_state (String.length u)) (u +:+ t))); [done|]. by rewrite IH.
Qed.

Lemma esc_skip u k t : String.length u = k -> esc (skip_state k) (u +:+ t) = esc Fresh t.
Proof.
  revert k. induction u as [|c u IH]; intros k <-; [done|].
  rewrite !str_cons_app.
  transitivity (esc (skip_state (String.length u)) (u +:+ t)); [done|]. by rewrite IH.
Qed.

Lemma parse_copy u k t : String.length u = k -> parse_str k (u +:+ t) = emit u (parse_str 0 t).
Proof.
  revert k. induction u as [|c u IH]; intros k <-; cbn [String.length].
  - rewrite str_app_nil_l. by destruct (parse_str 0 t) as [[??]|].
  - rewrite str_cons_app. cbn [parse_str]. rewrite IH by done. by rewrite emit_emit.
Qed.

Lemma parse_esc_ascii c t :
  Utf8.is_ascii c = true -> parse_str 0 (esc_ascii c +:+ t) = emit (str1 c) (parse_str 0 t).
Proof. intros H. destruct c as [[][][][][][][][]]; try discriminate H; reflexivity. Qed.

(** The lead byte of a multi-byte sequence is none of the scanner's special bytes. *)
Lemma parse_lead c s' :
  Utf8.is_ascii c = false ->
  parse_str 0 (String c s') =
    match Utf8.next_rune (String c s') with
    | Some (r, _) => emit (str1 c) (parse_str (String.length r - 1) s')
    | None => emit rune_error (parse_str 0 s')
    end.
Proof.
  intros H. unfold Utf8.is_ascii in H. cbn [parse_str].
  assert (Hne : forall n, (n < 128)%N -> c <> n_byte n).
  { intros n Hn ->. rewrite byte_n_byte in H by lia. apply N.ltb_ge in H. lia. }
  rewrite (decide_False (P := c = dquote)) by (apply Hne; done).
  rewrite (decide_False (P := c = backslash)) by (apply Hne; done).
  apply N.ltb_ge in H as H'. destruct (N.ltb_spec (byte_n c) 32); [lia|].
  unfold Utf8.is_ascii. by rewrite H.
Qed.

Lemma next_rune_self s r rest t :
  Utf8.next_rune s = Some (r, rest) -> Utf8.next_rune (r +:+ t) = Some (r, t).
Proof.
  intros H. assert (Hr : Utf8.next_rune r = Some (r, EmptyString)).
  { revert H. unfold Utf8.next_rune at 1. intros H.
    repeat (case_match; try done); simplify_eq;
      cbv beta iota zeta delta [Utf8.next_rune str1];
      repeat match goal with E : ?b = ?v |- context [?b] => rewrite E; clear E end; done. }
  by apply (Utf8.next_rune_app _ _ _ t) in Hr.
Qed.

Lemma parse_rune s r rest t :
  Utf8.next_rune s = Some (r, rest) ->
  (forall c s', s = String c s' -> Utf8.is_ascii c = false) ->
  parse_str 0 (r +:+ t) = emit r (parse_str 0 t).
Proof.
  intros H Hna. pose proof (next_rune_self _ _ _ t H) as Hr.
  destruct (Utf8.next_rune_split _ _ _ H) as [-> Hlen].
  destruct r as [|c r]; [cbn in Hlen; lia|]. rewrite str_cons_app in *.
  rewrite parse_lead by (eapply Hna; done). rewrite Hr.
  rewrite parse_copy by (cbn; lia). by rewrite emit_emit.
Qed.

Lemma esc_rune s r rest :
  Utf8.next_rune s = Some (r, rest) ->
  (forall c s', s = String c s' -> Utf8.is_ascii c = false) ->
  esc Fresh s = (if decide (r = line_sep) then u_esc 8232
                 else if decide (r = par_sep) then u_esc 8233 else r) +:+ esc Fresh rest.
Proof.
  intros H Hna. destruct (Utf8.next_rune_split _ _ _ H) as [Hs Hlen].
  destruct r as [|c r]; [cbn in Hlen; lia|].
  destruct s as [|c' s']; [done|]. rewrite str_cons_app in Hs. injection Hs as -> ->.
  cbn [esc]. rewrite (Hna _ _ eq_refl), H.
  case_decide as E1.
  { injection E1 as -> ->. by rewrite (esc_skip _ 2). }
  case_decide as E2.
  { injection E2 as -> ->. by rewrite (esc_skip _ 2). }
  rewrite esc_copy by (cbn; lia). done.
Qed.

(** The scanner reads back what the encoder wrote, for valid UTF-8. *)
Lemma parse_str_esc s rest :
  Utf8.utf8 s -> parse_str 0 (esc Fresh s +:+ String dquote rest) = Some (s, rest).
Proof.
  induction 1 as [|c s Hc Hs IH|s r tl H Hna Htl IH].
  - done.
  - cbn [esc]. rewrite Hc, str_app_assoc, parse_esc_ascii, IH by done. done.
  - rewrite (esc_rune _ _ _ H Hna), str_app_assoc.
    destruct (Utf8.next_rune_split _ _ _ H) as [-> _].
    case_decide as E1; [subst r|case_decide as E2; [subst r|]].
    + change (emit line_sep (parse_str 0 (esc Fresh tl +:+ String dquote rest))
              = Some (line_sep +:+ tl, rest)). by rewrite IH.
    + change (emit par_sep (parse_str 0 (esc Fresh tl +:+ String dquote rest))
              = Some (par_sep +:+ tl, rest)). by rewrite IH.
    + rewrite (parse_rune _ _ _ _ H Hna), IH. done.
Qed.

Lemma literal_body_app b r : literal_body (b +:+ String dquote r) r = b.
Proof.
  unfold literal_body. rewrite str_length_app. cbn [String.length].
  replace (String.length b + Datatypes.S (String.length r) - String.length r - 1) with (String.length b) by lia.
  induction b as [|c b IH]; [reflexivity|].
  transitivity (String c (String.substring 0 (String.length b) (b +:+ String dquote r))); [reflexivity|].
  by rewrite IH.
Qed.

(** Bytes that may follow a scalar inside an object. *)
Definition closes (s : string) : Prop :=
  exists c t, s = String c t /\ (c = ","%char \/ c = "}"%char).

Lemma span_digits_app d t :
  all_digits d = true -> closes t -> span_digits (d +:+ t) = (d, t).
Proof.
  intros Hd (c & t' & -> & Hc). induction d as [|x d IH].
  - rewrite str_app_nil_l. destruct Hc as [-> | ->]; done.
  - unfold all_digits in *. cbn in Hd. apply andb_true_iff in Hd as [Hx Hd].
    rewrite str_cons_app. cbn [span_digits]. by rewrite Hx, IH.
Qed.

Lemma format_loop_head fuel n acc :
  (0 < n)%N -> (n < 10 ^ N.of_nat fuel)%N ->
  exists c s, format_loop fuel n acc = String c s /\ c <> "0"%char.
Proof.
  revert n acc. induction fuel as [|f IH]; intros n acc Hn Hlt; [cbn in Hlt; lia|].
  cbn [format_loop]. destruct (N.eqb_spec (n / 10) 0) as [H0|H0].
  - eexists _, _. split; [done|]. intros E.
    apply (f_equal byte_n) in E. unfold digit_byte in E. rewrite byte_n_byte in E by lia.
    change (byte_n "0") with 48%N in E. lia.
  - apply IH; [lia|]. rewrite Nat2N.inj_succ, N.pow_succ_r' in Hlt.
    by apply N.Div0.div_lt_upper_bound.
Qed.

Lemma scan_int_format n t : u64 n -> closes t -> scan_int (FormatUint n +:+ t) = Some (FormatUint n, t).
Proof.
  intros Hn Ht. destruct (decide (n = 0%N)) as [->|Hne].
  - done.
  - destruct (format_loop_head 20 n EmptyString) as (c & s & E & Hc); [lia| |].
    { eapply N.lt_trans; [exact Hn|]. done. }
    assert (Hs : scan_int (FormatUint n +:+ t) = digits1 (FormatUint n +:+ t)).
    { unfold FormatUint. rewrite E, str_cons_app. unfold scan_int.
      destruct c as [[][][][][][][][]]; try reflexivity. by destruct Hc. }
    rewrite Hs. unfold digits1. rewrite span_digits_app by (done || apply FormatUint_digits).
    unfold FormatUint. by rewrite E.
Qed.

Lemma scan_tail t : closes t -> scan_frac t = Some (EmptyString, t) /\ scan_exp t = Some (EmptyString, t).
Proof. by intros (c & t' & -> & [-> | ->]). Qed.

Lemma scan_num_uint n t : u64 n -> closes t -> scan_num (FormatUint n +:+ t) = Some (FormatUint n, t).
Proof.
  intros Hn Ht. destruct (FormatUint_head n) as (c & s & E & Hc).
  assert (Hneg : forall u, scan_num (FormatUint n +:+ u) =
    match scan_int (FormatUint n +:+ u) with
    | None => None
    | Some (i, s2) =>
        match scan_frac s2 with
        | None => None
        | Some (f, s3) => match scan_exp s3 with
                          | None => None
                          | Some (x, s4) => Some (EmptyString +:+ i +:+ f +:+ x, s4)
                          end
        end
    end).
  { intros u. rewrite E, str_cons_app. unfold scan_num.
    destruct c as [[][][][][][][][]]; try discriminate Hc; reflexivity. }
  rewrite Hneg, scan_int_format by done. destruct (scan_tail t Ht) as [-> ->].
  by rewrite str_app_nil_l, !str_app_nil_r.
Qed.

Lemma scan_num_int z t : i64 z -> closes t -> scan_num (FormatInt z +:+ t) = Some (FormatInt z, t).
Proof.
  unfold i64, MinInt64, MaxInt64. intros Hz Ht. unfold FormatInt.
  destruct (Z.ltb_spec z 0).
  - rewrite str_cons_app. unfold scan_num. rewrite scan_int_format by (done || unfold u64, two64; lia).
    destruct (scan_tail t Ht) as [-> ->]. by rewrite !str_app_nil_r.
  - apply scan_num_uint; [unfold u64, two64; lia|done].
Qed.

(** Well-formed scalars: what the encoder can hold. *)
Inductive scalar_ok : json -> Prop :=
  | ok_null : scalar_ok JNull
  | ok_bool b : scalar_ok (JBool b)
  | ok_uint n : u64 n -> scalar_ok (JNum (FormatUint n))
  | ok_int z : i64 z -> scalar_ok (JNum (FormatInt z))
  | ok_str s : Utf8.utf8 s -> scalar_ok (jstr s).

(** A number literal begins with a digit or a minus sign. *)
Definition num_head (c : ascii) : bool := byte_in 48 57 c || bool_decide (c = "-"%char).

Lemma parse_value_num f c s t l :
  num_head c = true -> scan_num (String c s +:+ t) = Some (l, t) ->
  parse_value (S f) (String c s +:+ t) = Some (JNum l, t).
Proof.
  intros Hc Hs. rewrite str_cons_app in *.
  assert (E : parse_value (S f) (String c (s +:+ t)) =
     match scan_num (String c (s +:+ t)) with Some (l, r) => Some (JNum l, r) | None => None end).
  { destruct c as [[][][][][][][][]]; try discriminate Hc; reflexivity. }
  by rewrite E, Hs.
Qed.

Lemma FormatInt_head z : exists c s, FormatInt z = String c s /\ num_head c = true.
Proof.
  unfold FormatInt. destruct (z <? 0)%Z; [by eexists _, _|].
  destruct (FormatUint_head (Z.to_N z)) as (c & s & -> & Hc). exists c, s.
  unfold num_head. by rewrite Hc.
Qed.

Lemma parse_value_quote f s t :
  Utf8.utf8 s -> parse_value (S f) (quote s +:+ t) = Some (jstr s, t).
Proof.
  intros H. unfold quote. rewrite str_cons_app, str_app_assoc.
  change (str1 dquote +:+ t) with (String dquote t).
  assert (E : forall u, parse_value (S f) (String dquote u) =
    match parse_str 0 u with Some (v, r) => Some (JStr (literal_body u r) v, r) | None => None end) by reflexivity.
  rewrite E, parse_str_esc, literal_body_app by done. done.
Qed.

Lemma parse_value_scalar f v t :
  scalar_ok v -> closes t -> parse_value (S f) (print_scalar v +:+ t) = Some (v, t).
Proof.
  intros Hv Ht. destruct Hv as [|[]|n Hn|z Hz|s Hs]; cbn [print_scalar]; try reflexivity.
  - destruct (FormatUint_head n) as (c & s & E & Hc). pose proof (scan_num_uint n t Hn Ht) as Hs.
    rewrite E in Hs |- *. apply parse_value_num; [|done]. unfold num_head. by rewrite Hc.
  - destruct (FormatInt_head z) as (c & s & E & Hc). pose proof (scan_num_int z t Hz Ht) as Hs.
    rewrite E in Hs |- *. by apply parse_value_num.
  - by apply parse_value_quote.
Qed.

Definition member_ok (m : string * json) : Prop := Utf8.utf8 m.1 /\ scalar_ok m.2.

Lemma parse_members_step f k u :
  Utf8.utf8 k ->
  parse_members (S f) (quote k +:+ String ":" u) =
    match parse_value f u with
    | None => None
    | Some (v, r2) =>
        match skip_ws r2 with
        | String "}" r3 => Some ([(k, v)], r3)
        | String "," r3 =>
            match parse_members f r3 with
            | Some (l, r4) => Some ((k, v) :: l, r4)
            | None => None
            end
        | _ => None
        end
    end.
Proof.
  intros H. unfold quote. rewrite str_cons_app, str_app_assoc.
  change (str1 dquote +:+ String ":" u) with (String dquote (String ":" u)).
  assert (E : forall w, parse_members (S f) (String dquote w) =
    match parse_str 0 w with
    | None => None
    | Some (key, r) =>
        match skip_ws r with
        | String ":" r1 =>
            match parse_value f r1 with
            | None => None
            | Some (v, r2) =>
                match skip_ws r2 with
                | String "}" r3 => Some ([(key, v)], r3)
                | String "," r3 =>
                    match parse_members f r3 with
                    | Some (l, r4) => Some ((key, v) :: l, r4)
                    | None => None
                    end
                | _ => None
                end
            end
        | _ => None
        end
    end) by reflexivity.
  by rewrite E, parse_str_esc.
Qed.

Lemma parse_members_print l f rest :
  l <> [] -> Forall member_ok l -> length l < f ->
  parse_members f (print_members l +:+ String "}" rest) = Some (l, rest).
Proof.
  revert f. induction l as [|[k v] l IH]; intros f Hne Hok Hf; [done|].
  destruct f as [|[|f]]; [lia|cbn in Hf; lia|].
  apply Forall_cons in Hok as [[Hk Hv] Hok]. cbn in Hk, Hv, Hf.
  destruct l as [|m l].
  - cbn [print_members]. rewrite str_app_assoc, str_cons_app, parse_members_step by done.
    rewrite parse_value_scalar; [done|done|]. eexists _, _. eauto.
  - assert (E : print_members ((k, v) :: m :: l) =
      quote k +:+ String ":" (print_scalar v +:+ String "," (print_members (m :: l)))) by done.
    rewrite E. clear E. rewrite str_app_assoc, str_cons_app, str_app_assoc, parse_members_step by done.
    rewrite str_cons_app. rewrite parse_value_scalar; [|done|eexists _, _; eauto].
    change (skip_ws (String "," ?x)) with (String "," x). cbv beta iota.
    rewrite IH; [done|done|done|cbn in *; lia].
Qed.

Lemma print_members_length l : length l <= String.length (print_members l).
Proof.
  induction l as [|[k v] l IH]; [cbn; lia|]. destruct l as [|m l].
  - cbn [print_members]. rewrite str_length_app. cbn [String.length length]. lia.
  - assert (E : print_members ((k, v) :: m :: l) =
      quote k +:+ String ":" (print_scalar v +:+ String "," (print_members (m :: l)))) by done.
    rewrite E. rewrite str_length_app. cbn [String.length].
    rewrite str_length_app. cbn [String.length]. cbn [length] in *. lia.
Qed.

(** One object is read back exactly, with the input after it. *)
Lemma parse_print_object l rest :
  l <> [] -> Forall member_ok l -> Decode (print_object l +:+ rest) = Some (JObj l, rest).
Proof.
  intros Hne Hok. unfold Decode, print_object.
  rewrite str_cons_app, str_app_assoc. change ("}" +:+ rest) with (String "}" rest).
  pose proof (print_members_length l) as Hlen.
  assert (Hn : exists n, 2 * String.length (String "{" (print_members l +:+ String "}" rest)) + 2
                         = S n /\ length l < n).
  { cbn [String.length]. rewrite str_length_app. eexists. split; [apply Nat.add_succ_r|]. lia. }
  destruct Hn as (n & -> & Hn).
  assert (E : forall u c u', u = String c u' -> c = dquote -> parse_value (S n) (String "{" u) =
     match parse_members n u with Some (l, r) => Some (JObj l, r) | None => None end)
    by (intros u c u' -> ->; reflexivity).
  assert (H : exists u', print_members l +:+ String "}" rest = String dquote u').
  { destruct l as [|[k v] [|m l]]; [done|..]; eexists; reflexivity. }
  destruct H as [u' Hu]. rewrite (E _ _ _ Hu eq_refl).
  by rewrite parse_members_print.
Qed.

(** ** Decoding structs *)

Lemma as_uint_format bound prev n :
  u64 n -> (n < bound)%N -> as_uint bound prev (JNum (FormatUint n)) = Some n.
Proof.
  intros Hn Hb. unfold as_uint. rewrite ParseUint_FormatUint by done.
  by destruct (N.ltb_spec n bound); [|lia].
Qed.
Lemma as_int64_format prev z : i64 z -> as_int64 prev (JNum (FormatInt z)) = Some z.
Proof. apply ParseInt_FormatInt. Qed.

(** Decoding the members of a struct, one resolved field at a time. *)
Definition decode_members {P} (field : P -> string -> json -> option P) (fields : list string)
    (acc : option P) (l : list (string * json)) : option P :=
  foldl (fun acc '(k, x) =>
           match acc, resolve fields k with
           | Some p, Some f => field p f x
           | _, _ => None
           end) acc l.

Lemma decode_members_cons {P} (field : P -> string -> json -> option P) fields p k x l :
  resolve fields k = Some k ->
  decode_members field fields (Some p) ((k, x) :: l) =
  decode_members field fields (field p k x) l.
Proof. intros H. cbn. by rewrite H. Qed.

Lemma resolve_known fields k : bool_decide (k ∈ fields) = true -> resolve fields k = Some k.
Proof. intros H. unfold resolve. by rewrite H. Qed.

Lemma as_uint_bound bound prev v n :
  (prev < bound)%N -> as_uint bound prev v = Some n -> (n < bound)%N.
Proof.
  intros Hp H. destruct v; cbn in H; simplify_eq; [done|].
  repeat (case_match; try done). simplify_eq. by apply N.ltb_lt.
Qed.

Lemma ParseInt_i64 s z : ParseInt s = Some z -> i64 z.
Proof.
  unfold ParseInt, i64, MinInt64, MaxInt64. intros H.
  destruct (match s with String "-" _ => _ | _ => _ end) as [neg d].
  repeat (case_match; try done); simplify_eq;
    repeat match goal with H : (_ <=? _)%Z = true |- _ => apply Z.leb_le in H end; lia.
Qed.

Lemma as_int64_i64 prev v z : i64 prev -> as_int64 prev v = Some z -> i64 z.
Proof. intros Hp H. destruct v; cbn in H; simplify_eq; [done|]. by apply ParseInt_i64 in H. Qed.

Lemma foldl_field_inv {P} (Q : P -> Prop) (field : P -> string -> json -> option P) fields l acc p :
  (forall q f x r, Q q -> field q f x = Some r -> Q r) ->
  (forall q, acc = Some q -> Q q) -> decode_members field fields acc l = Some p -> Q p.
Proof.
  intros Hf. revert acc. induction l as [|[k x] l IH]; intros acc Ha H; cbn in H; [auto|].
  eapply IH; [|exact H]. intros q Hq. repeat (case_match; try done). eauto.
Qed.

End Json.
