(* ===== verification/GoTime.v ===== *)
(** * Go time: instants, durations, and their JSON form.

    The parts of [time] that lease.go uses: [Add], [After], [Before] with Go's monotonic
    readings, and the RFC 3339 text of [MarshalJSON]/[UnmarshalJSON] with its round trip
    ([parse_format]).  The calendar is the proleptic Gregorian one of the package. *)

From S2P Require Import Prelude GoText Encoding Json.
From Stdlib Require Import Ascii.
Open Scope stdpp_scope.

Module GoTime.
Local Open Scope Z_scope.

(** [wall] is in nanoseconds since the Unix epoch; [mono] is the reading of the process's
    monotonic clock that [time.Now] attaches; [zone] is the location's offset in seconds. *)
Record Time := { wall : Z; mono : option Z; zone : Z }.

#[export] Instance Time_eq_dec : EqDecision Time.
Proof. solve_decision. Defined.

Definition second : Z := 1000000000.
Definition Hour : Z := 3600 * second.

(** ** Instants *)

(** [t.After(u)] and [t.Before(u)] compare monotonic readings when both have one. *)
Definition After (t u : Time) : bool :=
  match mono t, mono u with Some a, Some b => b <? a | _, _ => wall u <? wall t end.
Definition Before (t u : Time) : bool :=
  match mono t, mono u with Some a, Some b => a <? b | _, _ => wall t <? wall u end.

(** A time with a monotonic reading keeps its wall seconds in 33 bits from 1885 on. *)
Definition packed (w : Z) : bool :=
  let s := w / second + 2682288000 in (0 <=? s) && (s <? 2 ^ 33).

(** [t.Add(d)] drops the monotonic reading rather than let it overflow. *)
Definition Add (t : Time) (d : Z) : Time :=
  {| wall := wall t + d;
     mono := match mono t with
             | Some m => if packed (wall t + d) && bool_decide (i64 (m + d)) then Some (m + d) else None
             | None => None
             end;
     zone := zone t |}.

(** ** The calendar *)

Definition isLeap (y : Z) : bool := (y mod 4 =? 0) && (negb (y mod 100 =? 0) || (y mod 400 =? 0)).

(** Days of a common year before a month, from 0 for January. *)
Definition daysBefore (m : Z) : Z :=
  match m with
  | 0 => 0 | 1 => 31 | 2 => 59 | 3 => 90 | 4 => 120 | 5 => 151 | 6 => 181 | 7 => 212
  | 8 => 243 | 9 => 273 | 10 => 304 | 11 => 334 | _ => 365
  end.
Definition daysIn (m : Z) (leap : bool) : Z :=
  if (m =? 2) && leap then 29 else daysBefore m - daysBefore (m - 1).

(** The year and the day of the year of a day counted from 1 January of year 1. *)
Definition year_day (d : Z) : Z * Z :=
  let n400 := d / 146097 in
  let d := d - 146097 * n400 in
  let n := d / 36524 in
  let n100 := n - n / 4 in
  let d := d - 36524 * n100 in
  let n4 := d / 1461 in
  let d := d - 1461 * n4 in
  let n := d / 365 in
  let n1 := n - n / 4 in
  (400 * n400 + 100 * n100 + 4 * n4 + n1 + 1, d - 365 * n1).

Definition days_before_year (y : Z) : Z :=
  let y := y - 1 in
  let n400 := y / 400 in
  let y := y - 400 * n400 in
  let n100 := y / 100 in
  let y := y - 100 * n100 in
  let n4 := y / 4 in
  146097 * n400 + 36524 * n100 + 1461 * n4 + 365 * (y - 4 * n4).

(** The month and the day of the month. *)
Definition month_day (leap : bool) (yday : Z) : Z * Z :=
  if leap && (yday =? 59) then (2, 29)
  else
    let day := if leap && (59 <? yday) then yday - 1 else yday in
    let m := day / 31 in
    if daysBefore (m + 1) <=? day then (m + 2, day - daysBefore (m + 1) + 1)
    else (m + 1, day - daysBefore m + 1).
Definition yday_of (leap : bool) (m d : Z) : Z :=
  daysBefore (m - 1) + (if leap && (3 <=? m) then 1 else 0) + d - 1.

(** Days from 1 January of year 1 to the Unix epoch. *)
Definition epoch_days : Z := 719162.

Lemma year_day_inv d y yd :
  year_day d = (y, yd) -> days_before_year y + yd = d /\ 0 <= yd < 365 + (if isLeap y then 1 else 0).
Proof.
  unfold year_day, days_before_year. cbv zeta. intros H.
  set (n400 := d / 146097) in *. set (d1 := d - 146097 * n400) in *.
  assert (Hd1 : 0 <= d1 < 146097) by (subst d1 n400; Z.div_mod_to_equations; lia).
  assert (Ed1 : d1 = d - 146097 * n400) by done. clearbody d1. set (n := d1 / 36524) in *. assert (Hn : 0 <= n <= 4) by (subst n; Z.div_mod_to_equations; lia).
  assert (Hd2' : 36524 * n <= d1 < 36524 * n + 36524) by (subst n; Z.div_mod_to_equations; lia).
  set (n100 := n - n / 4) in *.
  assert (H100 : 0 <= n100 <= 3 /\ (n100 = n \/ n = 4 /\ n100 = 3))
    by (subst n100; Z.div_mod_to_equations; lia). clearbody n100.
  set (d2 := d1 - 36524 * n100) in *. set (n4 := d2 / 1461) in *.
  assert (Hd2 : 0 <= d2 <= 36524 /\ (d2 = 36524 -> n100 = 3)) by (unfold d2; lia).
  assert (Ed2 : d2 = d1 - 36524 * n100) by done. clearbody d2.
  assert (H4 : 0 <= n4 <= 24) by (subst n4; Z.div_mod_to_equations; lia).
  set (d3 := d2 - 1461 * n4) in *.
  assert (Hd3 : 0 <= d3 < 1461 /\ (n4 = 24 -> n100 < 3 -> d3 < 1460)) by (subst d3 n4; Z.div_mod_to_equations; lia).
  assert (Ed3 : d3 = d2 - 1461 * n4) by done. clearbody d3 n4. set (k := d3 / 365) in *. assert (Hk : 0 <= k <= 4 /\ 365 * k <= d3 < 365 * k + 365) by (subst k; Z.div_mod_to_equations; lia).
  set (n1 := k - k / 4) in *.
  assert (H1 : 0 <= n1 <= 3 /\ (n1 = k \/ k = 4 /\ n1 = 3)) by (subst n1; Z.div_mod_to_equations; lia).
  clearbody n1. injection H as <- <-.
  replace (400 * n400 + 100 * n100 + 4 * n4 + n1 + 1 - 1) with (400 * n400 + 100 * n100 + 4 * n4 + n1) by lia.
  assert (E1 : (400 * n400 + 100 * n100 + 4 * n4 + n1) / 400 = n400) by (Z.div_mod_to_equations; lia).
  assert (E2 : (400 * n400 + 100 * n100 + 4 * n4 + n1 - 400 * n400) / 100 = n100) by (Z.div_mod_to_equations; lia).
  rewrite E1, E2.
  assert (E3 : (400 * n400 + 100 * n100 + 4 * n4 + n1 - 400 * n400 - 100 * n100) / 4 = n4) by (Z.div_mod_to_equations; lia).
  rewrite E3. split; [lia|]. split; [lia|].
  destruct (decide (d3 - 365 * n1 = 365)) as [E|E].
  - assert (n1 = 3 /\ k = 4 /\ d3 = 1460) as (-> & -> & ?) by lia.
    assert (Hy : isLeap (400 * n400 + 100 * n100 + 4 * n4 + 3 + 1) = true); [|rewrite Hy; lia].
    unfold isLeap. apply andb_true_iff. split; [apply Z.eqb_eq; Z.div_mod_to_equations; lia|].
    apply orb_true_iff. destruct (decide (n4 = 24)) as [->|].
    + right. apply Z.eqb_eq. assert (n100 = 3) as -> by lia. Z.div_mod_to_equations; lia.
    + left. apply negb_true_iff, Z.eqb_neq. Z.div_mod_to_equations; lia.
  - destruct (isLeap _); lia.
Qed.

Definition month_check (leap : bool) (yday : Z) : bool :=
  let '(m, d) := month_day leap yday in
  (1 <=? m) && (m <=? 12) && (1 <=? d) && (d <=? daysIn m leap) && (yday_of leap m d =? yday).

Lemma month_day_inv (leap : bool) yday m d :
  0 <= yday < 365 + (if leap then 1 else 0) -> month_day leap yday = (m, d) ->
  1 <= m <= 12 /\ 1 <= d <= daysIn m leap /\ yday_of leap m d = yday.
Proof.
  intros Hy H.
  assert (Hall : forallb (month_check leap) (seqZ 0 (365 + (if leap then 1 else 0))) = true)
    by (destruct leap; vm_compute; reflexivity).
  rewrite forallb_forall in Hall. specialize (Hall yday).
  assert (Hin : In yday (seqZ 0 (365 + (if leap then 1 else 0)))) by (apply list_elem_of_In, elem_of_seqZ; lia).
  specialize (Hall Hin). unfold month_check in Hall. rewrite H in Hall.
  rewrite !andb_true_iff, !Z.leb_le, Z.eqb_eq in Hall. intuition.
Qed.

(** ** RFC 3339 *)

Definition digit (z : Z) : ascii := digit_byte (Z.to_N z).

(** [k] digits, zero padded. *)
Fixpoint pad (k : nat) (n : Z) : string :=
  match k with
  | O => EmptyString
  | S k => String (digit (n / 10 ^ Z.of_nat k mod 10)) (pad k n)
  end.

(** A fraction of [k] digits without its trailing zeros. *)
Fixpoint fraction (k : nat) (n : Z) : string :=
  match k with
  | O => EmptyString
  | S k => if n =? 0 then EmptyString
           else String (digit (n / 10 ^ Z.of_nat k)) (fraction k (n mod 10 ^ Z.of_nat k))
  end.

(** [Duration.String]: the largest units that fit, the last with its fraction. *)
Definition fmtFrac (prec : nat) (u : Z) : string :=
  let f := u mod 10 ^ Z.of_nat prec in if f =? 0 then EmptyString else String "." (fraction prec f).
Definition micro_sign : string := String (n_byte 194) (str1 (n_byte 181)).
Definition Duration_String (d : Z) : string :=
  let u := Z.abs d in
  let s := u / second in
  (if d <? 0 then "-" else EmptyString) +:+
  if u =? 0 then "0s"
  else if u <? 1000 then FormatInt u +:+ "ns"
  else if u <? 1000000 then FormatInt (u / 1000) +:+ fmtFrac 3 u +:+ micro_sign +:+ "s"
  else if u <? second then FormatInt (u / 1000000) +:+ fmtFrac 6 u +:+ "ms"
  else
    (if 0 <? s / 3600 then FormatInt (s / 3600) +:+ "h" else EmptyString) +:+
    (if 0 <? s / 60 then FormatInt (s / 60 mod 60) +:+ "m" else EmptyString) +:+
    FormatInt (s mod 60) +:+ fmtFrac 9 u +:+ "s".

Example Duration_String_examples :
  map Duration_String [0; 999; 1500; 2000000; 1500000000; 30000000000; 3600000000000; -5430000000007] =
  ["0s"; "999ns"; "1.5" +:+ micro_sign +:+ "s"; "2ms"; "1.5s"; "30s"; "1h0m0s"; "-1h30m30.000000007s"].
Proof. vm_compute. reflexivity. Qed.

Definition zone_text (z : Z) : string :=
  if z =? 0 then "Z"
  else
    let minutes := Z.quot z 60 in
    let m := Z.abs minutes in
    String (if minutes <? 0 then "-"%char else "+"%char) (pad 2 (m / 60) +:+ String ":" (pad 2 (m mod 60))).

(** [MarshalJSON], without the quotes: [None] is a year or a zone hour it refuses. *)
Definition format (t : Time) : option string :=
  let s := wall t / second + zone t in
  let ns := wall t mod second in
  let '(y, yd) := year_day (s / 86400 + epoch_days) in
  let '(m, d) := month_day (isLeap y) yd in
  let c := s mod 86400 in
  if (0 <=? y) && (y <=? 9999) && (Z.abs (zone t) <? 86400) then
    Some (pad 4 y +:+ String "-" (pad 2 m +:+ String "-" (pad 2 d +:+ String "T"
      (pad 2 (c / 3600) +:+ String ":" (pad 2 (c / 60 mod 60) +:+ String ":" (pad 2 (c mod 60) +:+
        (if ns =? 0 then EmptyString else String "." (fraction 9 ns)) +:+ zone_text (zone t)))))))
  else None.

(** [k] digits and the rest. *)
Fixpoint num (k : nat) (s : string) (acc : Z) : option (Z * string) :=
  match k with
  | O => Some (acc, s)
  | S k => match s with
           | String c s' => match digit_val c with
                            | Some v => num k s' (acc * 10 + Z.of_N v)
                            | None => None
                            end
           | EmptyString => None
           end
  end.
Definition lit (c : ascii) (s : string) : option string :=
  match s with String c' s' => if decide (c' = c) then Some s' else None | EmptyString => None end.

(** The value of a run of digits. *)
Fixpoint digits_value (s : string) (acc : Z) : Z :=
  match s with
  | String c s' => digits_value s' (acc * 10 + default 0 (Z.of_N <$> digit_val c))
  | EmptyString => acc
  end.

(** A fractional second: digits past the ninth are dropped. *)
Definition parse_fraction (s : string) : Z * string :=
  match s with
  | String "." s' =>
      match Json.span_digits s' with
      | (EmptyString, _) => (0, s)
      | (d, r) =>
          let d := String.substring 0 9 d in
          (digits_value d 0 * 10 ^ (9 - Z.of_nat (String.length d)), r)
      end
  | _ => (0, s)
  end.

Definition parse_zone (s : string) : option Z :=
  if decide (s = "Z") then Some 0
  else
    match s with
    | String sign s =>
        '(hr, s) ← num 2 s 0; s ← lit ":" s; '(mm, s) ← num 2 s 0;
        if bool_decide (s = EmptyString) && (bool_decide (sign = "-"%char) || bool_decide (sign = "+"%char)) &&
           (hr <=? 23) && (mm <=? 59)
        then Some ((if bool_decide (sign = "-"%char) then -1 else 1) * ((hr * 60 + mm) * 60))
        else None
    | EmptyString => None
    end.

(** The strict reader, [parseRFC3339]. *)
Definition parse_strict (s : string) : option Time :=
  '(y, s) ← num 4 s 0; s ← lit "-" s; '(m, s) ← num 2 s 0; s ← lit "-" s; '(d, s) ← num 2 s 0; s ← lit "T" s;
  '(hh, s) ← num 2 s 0; s ← lit ":" s; '(mi, s) ← num 2 s 0; s ← lit ":" s; '(sec, s) ← num 2 s 0;
  if (1 <=? m) && (m <=? 12) && (1 <=? d) && (d <=? daysIn m (isLeap y)) &&
     (hh <=? 23) && (mi <=? 59) && (sec <=? 59) then
    let '(ns, s) := parse_fraction s in
    z ← parse_zone s;
    let days := days_before_year y + yday_of (isLeap y) m d - epoch_days in
    Some {| wall := (days * 86400 + hh * 3600 + mi * 60 + sec - z) * second + ns; mono := None; zone := z |}
  else None.

(** ** Round trip *)

Lemma digit_val_digit z : 0 <= z < 10 -> digit_val (digit z) = Some (Z.to_N z).
Proof. intros H. apply digit_val_byte. lia. Qed.

Lemma pow10_pos (k : nat) : 0 < 10 ^ Z.of_nat k.
Proof. apply Z.pow_pos_nonneg; lia. Qed.

Lemma pow10_S (k : nat) : 10 ^ Z.of_nat (S k) = 10 * 10 ^ Z.of_nat k.
Proof. rewrite Nat2Z.inj_succ, Z.pow_succ_r by lia. done. Qed.

(** Splitting a number at its [k]-th digit. *)
Lemma digit_split n (k : nat) :
  0 <= n -> n mod 10 ^ Z.of_nat (S k) = (n / 10 ^ Z.of_nat k mod 10) * 10 ^ Z.of_nat k + n mod 10 ^ Z.of_nat k.
Proof.
  intros Hn. rewrite pow10_S. pose proof (pow10_pos k) as Hp.
  rewrite (Z.mul_comm 10), Z.rem_mul_r by lia. lia.
Qed.

Lemma num_pad k n rest acc :
  0 <= n -> num k (pad k n +:+ rest) acc = Some (acc * 10 ^ Z.of_nat k + n mod 10 ^ Z.of_nat k, rest).
Proof.
  intros Hn. revert acc. induction k as [|k IH]; intros acc.
  - cbn [num pad]. rewrite str_app_nil_l. rewrite Z.mod_1_r, Z.mul_1_r, Z.add_0_r. done.
  - cbn [num pad]. rewrite str_cons_app. pose proof (pow10_pos k) as Hp.
    assert (Hd : 0 <= n / 10 ^ Z.of_nat k mod 10 < 10) by (apply Z.mod_pos_bound; lia).
    rewrite digit_val_digit, IH by done. rewrite digit_split, pow10_S by done. rewrite Z2N.id by lia.
    do 2 f_equal. lia.
Qed.

Lemma num_pad_exact k n rest : 0 <= n < 10 ^ Z.of_nat k -> num k (pad k n +:+ rest) 0 = Some (n, rest).
Proof. intros H. rewrite num_pad by lia. rewrite Z.mod_small by lia. done. Qed.

Lemma lit_cons c s : lit c (String c s) = Some s.
Proof. cbn. by rewrite decide_True. Qed.

Lemma fraction_length k n : (String.length (fraction k n) <= k)%nat.
Proof.
  revert n. induction k as [|k IH]; intros n; [cbn; lia|]. cbn [fraction].
  destruct (n =? 0); cbn [String.length]; [lia|]. specialize (IH (n mod 10 ^ Z.of_nat k)). lia.
Qed.

Lemma fraction_digits k n : 0 <= n < 10 ^ Z.of_nat k -> all_digits (fraction k n) = true.
Proof.
  revert n. induction k as [|k IH]; intros n Hn; [done|]. cbn [fraction]. destruct (n =? 0); [done|].
  rewrite pow10_S in Hn. pose proof (pow10_pos k) as Hp.
  assert (0 <= n / 10 ^ Z.of_nat k < 10) by (split; [apply Z.div_pos; lia|apply Z.div_lt_upper_bound; lia]).
  unfold all_digits in *. cbn [str_forallb]. rewrite IH by (apply Z.mod_pos_bound; lia).
  unfold digit. rewrite digit_byte_digit by lia. done.
Qed.

Lemma fraction_value k n acc :
  0 <= n < 10 ^ Z.of_nat k ->
  digits_value (fraction k n) acc * 10 ^ (Z.of_nat k - Z.of_nat (String.length (fraction k n))) =
    acc * 10 ^ Z.of_nat k + n.
Proof.
  revert n acc. induction k as [|k IH]; intros n acc Hn.
  - cbn in *. lia.
  - cbn [fraction]. destruct (Z.eqb_spec n 0) as [->|Hne].
    + cbn [String.length digits_value]. rewrite Z.sub_0_r. lia.
    + rewrite pow10_S in Hn. pose proof (pow10_pos k) as Hp.
      assert (0 <= n / 10 ^ Z.of_nat k < 10) by (split; [apply Z.div_pos; lia|apply Z.div_lt_upper_bound; lia]).
      cbn [String.length digits_value]. rewrite digit_val_digit by done. cbn [fmap option_fmap option_map default].
      rewrite Z2N.id by lia.
      replace (Z.of_nat (S k) - Z.of_nat (S (String.length (fraction k (n mod 10 ^ Z.of_nat k)))))
        with (Z.of_nat k - Z.of_nat (String.length (fraction k (n mod 10 ^ Z.of_nat k)))) by lia.
      rewrite IH by (apply Z.mod_pos_bound; lia). rewrite pow10_S.
      pose proof (Z.div_mod n (10 ^ Z.of_nat k) ltac:(lia)). unfold id. lia.
Qed.

Lemma fraction_nonempty k n : n <> 0 -> k <> 0%nat -> fraction k n <> EmptyString.
Proof. intros Hn Hk. destruct k as [|k]; [done|]. cbn. by destruct (Z.eqb_spec n 0). Qed.

(** What may follow the seconds: a byte that is neither a digit nor a point. *)
Definition ends (s : string) : Prop :=
  exists c t, s = String c t /\ byte_in 48 57 c = false /\ c <> "."%char.

Lemma span_digits_ends d t : all_digits d = true -> ends t -> Json.span_digits (d +:+ t) = (d, t).
Proof.
  intros Hd (c & t' & -> & Hc & _). induction d as [|x d IH].
  - rewrite str_app_nil_l. cbn. by rewrite Hc.
  - unfold all_digits in *. cbn in Hd. apply andb_true_iff in Hd as [Hx Hd].
    rewrite str_cons_app. cbn [Json.span_digits]. by rewrite Hx, IH.
Qed.

Lemma parse_fraction_format ns rest :
  0 <= ns < second -> ends rest ->
  parse_fraction ((if ns =? 0 then EmptyString else String "." (fraction 9 ns)) +:+ rest) = (ns, rest).
Proof.
  intros Hns He. destruct (Z.eqb_spec ns 0) as [->|Hne].
  - rewrite str_app_nil_l. destruct He as (c & t & -> & _ & Hc). unfold parse_fraction.
    destruct c as [[][][][][][][][]]; try reflexivity. by destruct Hc.
  - assert (E : forall d t, d <> EmptyString -> all_digits d = true -> (String.length d <= 9)%nat -> ends t ->
      parse_fraction (String "." d +:+ t) = (digits_value d 0 * 10 ^ (9 - Z.of_nat (String.length d)), t)).
    { intros d t Hd Hall Hlen Ht. rewrite str_cons_app. unfold parse_fraction.
      rewrite span_digits_ends by done. destruct d as [|c d]; [done|]. by rewrite substring_whole. }
    rewrite E; [|by apply fraction_nonempty|by apply fraction_digits|apply fraction_length|done].
    change 9 with (Z.of_nat 9). rewrite (fraction_value 9 ns 0) by done. done.
Qed.

Lemma zone_text_ends z : ends (zone_text z).
Proof.
  unfold zone_text, ends. cbv zeta. destruct (z =? 0); [by exists "Z"%char, EmptyString|].
  eexists _, _. split; [reflexivity|]. by destruct (_ <? 0).
Qed.

Lemma parse_zone_text z : z mod 60 = 0 -> Z.abs z < 86400 -> parse_zone (zone_text z) = Some z.
Proof.
  intros Hm Ha. unfold zone_text. destruct (Z.eqb_spec z 0) as [->|Hz]; [done|]. cbv zeta.
  set (q := Z.quot z 60). assert (Hq : z = 60 * q /\ (z < 0 <-> q < 0) /\ Z.abs q < 1440).
  { pose proof (Z.quot_rem z 60 ltac:(lia)). pose proof (Z.rem_mod z 60 ltac:(lia)) as Hr.
    assert (Z.rem z 60 = 0) by (apply Z.rem_divide; [lia|]; apply Z.mod_divide; lia).
    subst q. lia. }
  destruct Hq as (Hq & Hs & Hb). clearbody q.
  assert (Hh : 0 <= Z.abs q / 60 <= 23) by (Z.div_mod_to_equations; lia).
  assert (Hmm : 0 <= Z.abs q mod 60 <= 59) by (Z.div_mod_to_equations; lia).
  assert (Hqm : Z.abs q / 60 * 60 + Z.abs q mod 60 = Z.abs q) by (Z.div_mod_to_equations; lia).
  unfold parse_zone. rewrite decide_False by (destruct (q <? 0); done).
  rewrite num_pad_exact by (cbn; lia). cbn [mbind option_bind]. rewrite lit_cons.
  cbn [mbind option_bind]. rewrite <- (str_app_nil_r (pad 2 (Z.abs q mod 60))), num_pad_exact by (cbn; lia). cbn [mbind option_bind].
  destruct (Z.leb_spec (Z.abs q / 60) 23), (Z.leb_spec (Z.abs q mod 60) 59); try lia.
  rewrite Hqm. rewrite (bool_decide_eq_true_2 (EmptyString = EmptyString)) by done.
  destruct (Z.ltb_spec q 0).
  - rewrite (bool_decide_eq_true_2 ("-"%char = "-"%char)) by done. cbn. f_equal. lia.
  - rewrite (bool_decide_eq_false_2 ("+"%char = "-"%char)), (bool_decide_eq_true_2 ("+"%char = "+"%char)) by done.
    cbn. f_equal. lia.
Qed.

(** What [MarshalJSON] writes, the strict reader reads back, less the monotonic reading, when
    the zone is of whole minutes. *)
Lemma parse_format t s :
  format t = Some s -> zone t mod 60 = 0 ->
  parse_strict s = Some {| wall := wall t; mono := None; zone := zone t |}.
Proof.
  unfold format. intros H Hz.
  destruct (year_day _) as [y yd] eqn:Ey. destruct (month_day _ _) as [m d] eqn:Em.
  destruct (Z.leb_spec 0 y), (Z.leb_spec y 9999), (Z.ltb_spec (Z.abs (zone t)) 86400); try discriminate H.
  cbn [andb] in H. apply (inj Some) in H. subst s. apply year_day_inv in Ey as [Ey Hyd]. apply month_day_inv in Em as (Hm & Hd & Ed); [|done].
  set (c := (wall t / second + zone t) mod 86400) in *.
  assert (Hc : 0 <= c < 86400) by (apply Z.mod_pos_bound; lia).
  assert (Hns : 0 <= wall t mod second < second) by (apply Z.mod_pos_bound; done).
  assert (Hdin : daysIn m (isLeap y) <= 31).
  { assert (Hcase : m = 1 \/ m = 2 \/ m = 3 \/ m = 4 \/ m = 5 \/ m = 6 \/ m = 7 \/ m = 8 \/ m = 9 \/ m = 10 \/ m = 11 \/ m = 12) by lia.
    destruct (isLeap y); repeat destruct Hcase as [->|Hcase]; try subst m; vm_compute; discriminate. }
  assert (Hhh : 0 <= c / 3600 <= 23) by (Z.div_mod_to_equations; lia).
  assert (Hmi : 0 <= c / 60 mod 60 <= 59) by (pose proof (Z.mod_pos_bound (c / 60) 60); lia).
  assert (Hss : 0 <= c mod 60 <= 59) by (pose proof (Z.mod_pos_bound c 60); lia).
  unfold parse_strict.
  repeat (rewrite num_pad_exact by (cbn; lia); cbn [mbind option_bind]; rewrite ?lit_cons; cbn [mbind option_bind]).
  rewrite !(proj2 (Z.leb_le _ _)) by (apply Hm || apply Hd || apply Hhh || apply Hmi || apply Hss). cbn [andb].
  rewrite parse_fraction_format by (done || apply zone_text_ends).
  rewrite parse_zone_text by done. cbn [mbind option_bind andb]. do 2 f_equal.
  rewrite Ed. pose proof (Z.div_mod (wall t) second ltac:(done)).
  pose proof (Z.div_mod (wall t / second + zone t) 86400 ltac:(lia)) as Hdays. fold c in Hdays.
  assert (Hcs : c / 3600 * 3600 + c / 60 mod 60 * 60 + c mod 60 = c) by (Z.div_mod_to_equations; lia).
  rewrite Z.mul_comm. lia.
Qed.

(** Text the strict reader refuses goes to the layout-driven [time.Parse], which accepts a
    little more (a comma for the point, single-digit hours) and is left open here: the
    instant and the zone it reads, if it reads any. *)
Class LayoutParser := { Parse_RFC3339 : string -> option (Z * Z) }.

Section json.
Context {P : LayoutParser}.

Definition parse (s : string) : option Time :=
  match parse_strict s with
  | Some t => Some t
  | None => '(w, z) ← Parse_RFC3339 s; Some {| wall := w; mono := None; zone := z |}
  end.

(** A [time.Time] field: [UnmarshalJSON] is handed the literal, escapes and all. *)
Definition as_time (prev : Time) (v : Json.json) : option Time :=
  match v with Json.JNull => Some prev | Json.JStr raw _ => parse raw | _ => None end.

(** No parsed time has a monotonic reading. *)
Lemma parse_mono s t : parse s = Some t -> mono t = None.
Proof.
  unfold parse. destruct (parse_strict s) as [t'|] eqn:E.
  - intros [= ->]. unfold parse_strict in E.
    repeat (apply bind_Some in E as ([? ?] & _ & E) || apply bind_Some in E as (? & _ & E)).
    destruct (_ && _); [|done]. destruct (parse_fraction _). by apply bind_Some in E as (? & _ & [= <-]).
  - intros H. by apply bind_Some in H as ([w z] & _ & [= <-]).
Qed.

Lemma as_time_mono prev v t : mono prev = None -> as_time prev v = Some t -> mono t = None.
Proof. intros Hp H. destruct v; try done; [by injection H as <-|by eapply parse_mono]. Qed.
End json.

End GoTime.
