(* ===== verification/GoPath.v ===== *)
(** * Go paths and blanks: the parts of [path/filepath] (Unix) and [strings.TrimSpace] that
    the composition root uses, with what confinement needs of them. *)

From S2P Require Import Prelude GoText.
From Stdlib Require Import Ascii.
Open Scope stdpp_scope.

Module GoPath.

(** ** [strings.TrimSpace] *)

(** The UTF-8 encodings of the runes [unicode.IsSpace] accepts. *)
Definition spaces : list (list ascii) := map (map n_byte)
  ([[9]; [10]; [11]; [12]; [13]; [32]; [194; 133]; [194; 160]; [225; 154; 128]; [226; 128; 168]; [226; 128; 169];
    [226; 128; 175]; [226; 129; 159]; [227; 128; 128]]%N ++
   map (fun k => [226; 128; 128 + k]%N) [0; 1; 2; 3; 4; 5; 6; 7; 8; 9; 10]%N).

Fixpoint cut_bytes (p l : list ascii) : option (list ascii) :=
  match p, l with
  | [], _ => Some l
  | x :: p, y :: l => if decide (x = y) then cut_bytes p l else None
  | _, [] => None
  end.

Fixpoint cut_any (ps : list (list ascii)) (l : list ascii) : option (list ascii) :=
  match ps with
  | [] => None
  | p :: ps => match cut_bytes p l with Some rest => Some rest | None => cut_any ps l end
  end.

Fixpoint trim_left (ps : list (list ascii)) (fuel : nat) (l : list ascii) : list ascii :=
  match fuel with
  | 0 => l
  | S fuel => match cut_any ps l with Some rest => trim_left ps fuel rest | None => l end
  end.

Definition trim (ps : list (list ascii)) (l : list ascii) : list ascii := trim_left ps (length l) l.

Definition TrimSpace (s : string) : string :=
  String.string_of_list_ascii (reverse (trim (map reverse spaces) (reverse (trim spaces (String.list_ascii_of_string s))))).

Lemma cut_bytes_Some p l rest : cut_bytes p l = Some rest <-> l = p ++ rest.
Proof.
  revert l. induction p as [|x p IH]; intros l; cbn; [split; congruence|].
  destruct l as [|y l]; [done|]. case_decide as E; [|split; congruence]. rewrite IH. subst. split; congruence.
Qed.

Lemma cut_any_None ps l : cut_any ps l = None <-> forall p, p ∈ ps -> ~ p `prefix_of` l.
Proof.
  induction ps as [|p ps IH]; cbn; [split; [intros _ p Hp; by apply not_elem_of_nil in Hp|done]|].
  destruct (cut_bytes p l) as [rest|] eqn:E.
  - split; [done|]. intros H. apply cut_bytes_Some in E as ->. exfalso. by apply (H p); [left|exists rest].
  - rewrite IH. split; intros H q Hq; [|by apply H; right].
    apply elem_of_cons in Hq as [->|Hq]; [|by apply H]. intros [rest ->].
    by rewrite (proj2 (cut_bytes_Some p (p ++ rest) rest) eq_refl) in E.
Qed.

Lemma cut_any_shorter ps l rest :
  Forall (fun p => p <> []) ps -> cut_any ps l = Some rest -> length rest < length l /\ rest `suffix_of` l.
Proof.
  induction 1 as [|p ps Hp _ IH]; cbn; [done|]. destruct (cut_bytes p l) as [r|] eqn:E; [|done].
  intros [= <-]. apply cut_bytes_Some in E as ->. split; [|by exists p]. rewrite length_app. destruct p; [done|cbn; lia].
Qed.

(** What is left starts with no space, and is a suffix. *)
Lemma trim_left_spec ps fuel l :
  Forall (fun p => p <> []) ps -> length l <= fuel ->
  cut_any ps (trim_left ps fuel l) = None /\ trim_left ps fuel l `suffix_of` l.
Proof.
  intros Hps. revert l. induction fuel as [|fuel IH]; intros l Hl.
  - cbn. split; [|done]. destruct l; [|cbn in Hl; lia]. apply cut_any_None. intros p Hp [k Hk].
    symmetry in Hk. apply app_eq_nil in Hk as [-> _]. eapply Forall_forall in Hps; [|exact Hp]. done.
  - cbn. destruct (cut_any ps l) as [rest|] eqn:E; [|done].
    destruct (cut_any_shorter ps l rest Hps E) as [Hlt Hs]. destruct (IH rest) as [H1 H2]; [lia|].
    split; [done|]. by etrans.
Qed.

Lemma trim_fixed ps l : cut_any ps l = None -> trim ps l = l.
Proof. intros H. unfold trim. destruct (length l); [done|]. cbn. by rewrite H. Qed.

Lemma spaces_nonempty : Forall (fun p => p <> []) spaces /\ Forall (fun p => p <> []) (map reverse spaces).
Proof. split; vm_compute; repeat constructor; discriminate. Qed.

(** Trimming again changes nothing. *)
Lemma TrimSpace_idem s : TrimSpace (TrimSpace s) = TrimSpace s.
Proof.
  destruct spaces_nonempty as [H1 H2].
  set (a := trim spaces (String.list_ascii_of_string s)). set (b := trim (map reverse spaces) (reverse a)).
  assert (Ets : TrimSpace s = String.string_of_list_ascii (reverse b)) by done.
  rewrite Ets. unfold TrimSpace. rewrite String.list_ascii_of_string_of_list_ascii.
  destruct (trim_left_spec spaces (length (String.list_ascii_of_string s)) (String.list_ascii_of_string s) H1) as [Ha _]; [done|].
  destruct (trim_left_spec (map reverse spaces) (length (reverse a)) (reverse a) H2) as [Hb [k Hk]]; [done|].
  change (cut_any spaces a = None) in Ha. change (cut_any (map reverse spaces) b = None) in Hb.
  change (reverse a = k ++ b) in Hk.
  rewrite (trim_fixed spaces (reverse b)).
  - by rewrite reverse_involutive, (trim_fixed _ b Hb).
  - apply cut_any_None. intros p Hp [r Hr]. apply (proj1 (cut_any_None spaces a) Ha p Hp).
    exists (r ++ reverse k). rewrite app_assoc, <- Hr, <- reverse_app, <- Hk. by rewrite reverse_involutive.
Qed.

(** A text that ends in a byte no space ends in is not blank. *)
Lemma cut_any_last ps l rest c :
  Forall (fun p => last p <> Some c) ps -> last l = Some c -> cut_any ps l = Some rest -> last rest = Some c.
Proof.
  intros Hps Hl. induction Hps as [|p ps Hp _ IH]; cbn; [done|]. destruct (cut_bytes p l) as [r|] eqn:E; [|done].
  intros [= <-]. apply cut_bytes_Some in E as ->. rewrite last_app in Hl. by destruct (last r).
Qed.

Lemma trim_left_last ps fuel l c :
  Forall (fun p => last p <> Some c) ps -> last l = Some c -> last (trim_left ps fuel l) = Some c.
Proof.
  intros Hps. revert l. induction fuel as [|fuel IH]; intros l Hl; [done|]. cbn.
  destruct (cut_any ps l) as [rest|] eqn:E; [|done]. apply IH. by apply (cut_any_last ps l).
Qed.

Lemma TrimSpace_last s c :
  Forall (fun p => last p <> Some c) spaces -> last (String.list_ascii_of_string s) = Some c -> TrimSpace s <> EmptyString.
Proof.
  intros Hc Hl. unfold TrimSpace. set (a := trim spaces (String.list_ascii_of_string s)).
  assert (Ha : last a = Some c) by by apply trim_left_last.
  rewrite (trim_fixed _ (reverse a)), reverse_involutive.
  - by destruct a.
  - apply cut_any_None. intros p Hp [k Hk]. apply list_elem_of_In, in_map_iff in Hp as (q & <- & Hq).
    apply list_elem_of_In in Hq. pose proof (proj1 (Forall_forall _ _) Hc q Hq) as Hlast.
    pose proof (proj1 (Forall_forall _ _) (proj1 spaces_nonempty) q Hq) as Hne.
    apply Hlast. destruct q as [|x q _] using rev_ind; [done|]. rewrite last_snoc. rewrite reverse_snoc in Hk.
    apply (f_equal reverse) in Hk. rewrite reverse_involutive in Hk. cbn [app] in Hk. rewrite reverse_cons in Hk.
    by rewrite Hk, last_snoc in Ha.
Qed.

(** ** Clean *)

(** [strings.Split(s, "/")] and its inverse. *)
#[local] Notation split_slash := (split_on "/"%char).
#[local] Notation join := (join_on "/"%char).
#[local] Notation no_slash := (lacks "/"%char).

(** One path element against those kept so far, innermost first. *)
Definition push (rooted : bool) (stack : list string) (w : string) : list string :=
  if decide (w = EmptyString \/ w = ".") then stack
  else if decide (w = "..") then
    match stack with
    | x :: rest => if decide (x = "..") then ".." :: stack else rest
    | [] => if rooted then [] else [".."]
    end
  else w :: stack.

Definition is_rooted (path : string) : bool := HasPrefix path "/".
Definition IsAbs : string -> bool := is_rooted.

(** A cleaned path: whether it starts at the root, and its elements. *)
Definition parts (path : string) : bool * list string :=
  (is_rooted path, reverse (foldl (push (is_rooted path)) [] (split_slash path))).
Definition render (p : bool * list string) : string :=
  if p.1 then String "/" (join p.2) else if decide (p.2 = []) then "." else join p.2.
Definition Clean (path : string) : string := render (parts path).

(** [filepath.Join], for two or more elements: those that are not empty, cleaned. *)
Definition Join (elems : list string) : string :=
  match List.filter (fun e => negb (String.eqb e EmptyString)) elems with [] => EmptyString | es => Clean (join es) end.

(** ** Rel *)

Fixpoint strip_common (a b : list string) : list string * list string :=
  match a, b with
  | x :: a', y :: b' => if decide (x = y) then strip_common a' b' else (a, b)
  | _, _ => (a, b)
  end.

(** The path to [targ] from [base], if it can be told lexically. *)
Definition Rel (base targ : string) : option string :=
  let '(rb, bc) := parts base in let '(rt, tc) := parts targ in
  if decide ((rb, bc) = (rt, tc)) then Some "."
  else if negb (Bool.eqb rb rt) then None
  else
    let words := if decide (tc = []) then if rt then [] else ["."] else tc in
    let '(b, t) := strip_common bc words in
    match b with
    | [] => Some (join t)
    | x :: _ => if decide (x = "..") then None else Some (join (map (fun _ => "..") b ++ t))
    end.

(** The examples of the library's documentation and tests. *)
Example clean_examples :
  map Clean ["/a/../b//c/."; "../../x/.."; EmptyString; "/.."; "a/b/../.."; "abc/./../def"; "//"] =
  ["/b/c"; "../.."; "."; "/"; "."; "def"; "/"].
Proof. vm_compute. reflexivity. Qed.
Example rel_examples :
  Rel "/a/b" "/a/b/c/d" = Some "c/d" /\ Rel "a/b/c" "a/b" = Some ".." /\ Rel "." ".." = Some ".." /\
  Rel ".." "a" = None /\ Rel "../.." ".." = None /\ Rel "a" "/a" = None /\ Rel "/" "/ab" = Some "ab" /\
  Rel "/ab/cd" "/ab/cde" = Some "../cde" /\ Rel "/a" "/a" = Some ".".
Proof. vm_compute. tauto. Qed.
Example trim_examples : TrimSpace "  a b	 " = "a b" /\ TrimSpace " 	 " = EmptyString.
Proof. vm_compute. tauto. Qed.

(** ** Cleaned paths *)

Definition plain (w : string) : Prop := w <> EmptyString /\ w <> "." /\ w <> ".." /\ str_forallb (fun c => bool_decide (c <> "/"%char)) w = true.

(** The elements of a cleaned path: leading ["..". . .] unless it is rooted, then plain ones. *)
Definition normal (rooted : bool) (ws : list string) : Prop :=
  exists k rest, ws = replicate k ".." ++ rest /\ (rooted = true -> k = 0) /\ Forall plain rest.

Lemma push_normal rooted stack w :
  no_slash w -> normal rooted (reverse stack) -> normal rooted (reverse (push rooted stack w)).
Proof.
  intros Hw (k & rest & E & Hk & Hp). unfold push. case_decide as H1; [by exists k, rest|].
  apply (f_equal reverse) in E. rewrite reverse_involutive, reverse_app in E. subst stack. case_decide as H2.
  - destruct (reverse rest) as [|x r] eqn:Er.
    + apply (f_equal reverse) in Er. rewrite reverse_involutive in Er. subst rest. rewrite app_nil_l.
      rewrite reverse_replicate. destruct k as [|k]; cbn.
      * destruct rooted; [by exists 0, []|]. exists 1, []. by split_and!.
      * exists (Datatypes.S (Datatypes.S k)), []. rewrite app_nil_r. split_and!; [|by intros H%Hk|done].
        exact (reverse_replicate (Datatypes.S (Datatypes.S k)) "..").
    + cbn [app]. apply (f_equal reverse) in Er. rewrite reverse_involutive, reverse_cons in Er. subst rest.
      apply Forall_app in Hp as [Hp Hx]. apply Forall_singleton in Hx as (_ & _ & Hx & _). rewrite decide_False by done.
      exists k, (reverse r). rewrite reverse_app, reverse_involutive. by split_and!.
  - exists k, (rest ++ [w]). rewrite reverse_cons, reverse_app, !reverse_involutive, app_assoc.
    split_and!; [done..|]. apply Forall_app. split; [done|]. constructor; [|done]. unfold plain. split_and!; try done; by intros ->; apply H1; auto.
Qed.

Lemma parts_normal path : normal (parts path).1 (parts path).2.
Proof.
  unfold parts. cbn [fst snd]. generalize (is_rooted path). intros rooted.
  destruct (split_lacks "/"%char path) as [H _]. assert (Hn : normal rooted (reverse (@nil string))) by by exists 0, [].
  revert Hn. generalize (@nil string). induction H as [|w ws Hw _ IH]; intros stack Hn; [done|]. cbn.
  apply IH. by apply push_normal.
Qed.

Lemma plain_no_slash w : plain w -> no_slash w.
Proof. by intros (_ & _ & _ & ?). Qed.

Lemma normal_no_slash r ws : normal r ws -> Forall no_slash ws.
Proof.
  intros (k & rest & -> & _ & H). apply Forall_app. split; [by apply Forall_replicate|].
  eapply Forall_impl; [exact H|apply plain_no_slash].
Qed.

Lemma normal_nonempty r ws : normal r ws -> Forall (fun w => w <> EmptyString) ws.
Proof.
  intros (k & rest & -> & _ & H). apply Forall_app. split; [by apply Forall_replicate|].
  eapply Forall_impl; [exact H|by intros w (? & _)].
Qed.

(** Pushing the words of a normal path keeps them all. *)
Lemma push_normal_words r k rest :
  (r = true -> k = 0) -> Forall plain rest ->
  foldl (push r) [] (replicate k ".." ++ rest) = reverse (replicate k ".." ++ rest).
Proof.
  intros Hk Hp. rewrite foldl_app.
  assert (E : forall n, (r = true -> n + k = 0) -> foldl (push r) (replicate n "..") (replicate k "..") = replicate (n + k) "..").
  { clear Hk. induction k as [|k IH]; intros n Hk; cbn; [by rewrite Nat.add_0_r|].
    destruct r; [by specialize (Hk eq_refl); lia|].
    assert (E1 : push false (replicate n "..") ".." = replicate (Datatypes.S n) "..") by by destruct n.
    rewrite E1, IH by done. f_equal. lia. }
  specialize (E 0 Hk). cbn [replicate Nat.add] in E. rewrite E, reverse_app, reverse_replicate. clear E.
  generalize (replicate k ".."). induction Hp as [|w rest (H1 & H2 & H3 & _) _ IH]; intros stack; [done|]. cbn [foldl].
  unfold push at 2. rewrite decide_False by tauto. rewrite decide_False by done. rewrite IH.
  by rewrite reverse_cons, <- app_assoc.
Qed.

Lemma rooted_slash s : is_rooted (String "/" s) = true.
Proof. unfold is_rooted, HasPrefix. apply prefix_app_iff. by exists s. Qed.
Lemma rooted_other c s : c <> "/"%char -> is_rooted (String c s) = false.
Proof.
  intros Hc. apply not_true_iff_false. unfold is_rooted, HasPrefix. rewrite prefix_app_iff. intros [t E].
  rewrite str_cons_app in E. by injection E.
Qed.

(** Cleaning a rendered normal path gives it back: [Clean] is idempotent. *)
Lemma parts_render r ws : normal r ws -> parts (render (r, ws)) = (r, ws).
Proof.
  intros Hn. pose proof (normal_no_slash _ _ Hn) as Hs. pose proof (normal_nonempty _ _ Hn) as He.
  assert (Hfold : forall r', r' = r -> foldl (push r') [] ws = reverse ws).
  { intros r' ->. destruct Hn as (k & rest & -> & Hk & Hp). by apply push_normal_words. }
  unfold render. cbn [fst snd]. destruct r.
  - unfold parts. rewrite rooted_slash. f_equal.
    change (split_slash (String "/" (join ws))) with (EmptyString :: split_slash (join ws)).
    cbn [foldl]. change (push true [] EmptyString) with (@nil string).
    destruct (decide (ws = [])) as [->|Hne]; [done|]. by rewrite split_join, Hfold, reverse_involutive.
  - destruct (decide (ws = [])) as [->|Hne]; [done|].
    assert (Hr : is_rooted (join ws) = false).
    { destruct ws as [|w ws]; [done|]. apply Forall_cons in Hs as [Hw _], He as [Hw' _].
      destruct w as [|c w]; [done|]. unfold lacks in Hw. cbn in Hw. apply andb_true_iff in Hw as [Hc _].
      apply bool_decide_eq_true in Hc. assert (E : exists s, join (String c w :: ws) = String c s).
      { destruct ws; [by exists w|]. by eexists. }
      destruct E as [s ->]. by apply rooted_other. }
    unfold parts. rewrite Hr. f_equal. by rewrite split_join, Hfold, reverse_involutive.
Qed.

Lemma parts_Clean path : parts (Clean path) = parts path.
Proof. unfold Clean. rewrite (surjective_pairing (parts path)). apply parts_render, parts_normal. Qed.

Lemma Clean_Clean path : Clean (Clean path) = Clean path.
Proof. unfold Clean at 1. by rewrite parts_Clean. Qed.

Lemma IsAbs_Clean path : IsAbs (Clean path) = IsAbs path.
Proof. exact (f_equal fst (parts_Clean path)). Qed.

(** ** Confinement *)

(** [targ] is [base] or lies beneath it. *)
Definition beneath (base targ : string) : Prop :=
  (parts base).1 = (parts targ).1 /\ exists rest, (parts targ).2 = (parts base).2 ++ rest /\ ".." ∉ rest.

(** The test the program makes of [Rel]'s answer. *)
Definition escapes (rel : string) : bool := String.eqb rel ".." || HasPrefix rel "../".

Lemma join_escapes ws : Forall no_slash ws -> escapes (join ws) = true <-> head ws = Some "..".
Proof.
  intros Hs. unfold escapes. rewrite orb_true_iff, String.eqb_eq. unfold HasPrefix. split.
  - intros [E|E].
    + destruct (decide (ws = [])) as [->|Hne]; [done|]. pose proof (split_join ws Hs Hne) as H. rewrite E in H. by rewrite <- H.
    + destruct (decide (ws = [])) as [->|Hne]; [done|]. apply prefix_app_iff in E as [t E].
      pose proof (split_join ws Hs Hne) as H. rewrite E in H.
      change ("../" +:+ t) with (".." +:+ String "/" t) in H. rewrite split_word in H by done. by rewrite <- H.
  - destruct ws as [|w ws]; [done|]. intros [= ->]. destruct ws as [|x ws]; [by left|right].
    apply prefix_app_iff. by exists (join (x :: ws)).
Qed.

Lemma strip_common_spec a b a' b' :
  strip_common a b = (a', b') -> exists c, a = c ++ a' /\ b = c ++ b' /\
    match a', b' with x :: _, y :: _ => x <> y | _, _ => True end.
Proof.
  revert b. induction a as [|x a IH]; intros b; cbn.
  - intros [= <- <-]. by exists [].
  - destruct b as [|y b]; [intros [= <- <-]; by exists []|]. case_decide as E.
    + subst y. intros H. destruct (IH b H) as (c & -> & -> & Hd). by exists (x :: c).
    + intros [= <- <-]. by exists [].
Qed.

Lemma normal_tail r c t : normal r (c ++ t) -> ".." ∈ t -> head t = Some "..".
Proof.
  intros (k & rest & E & _ & Hp) Hin. revert c E. induction k as [|k IH]; intros c E.
  - cbn in E. rewrite <- E in Hp. apply Forall_app in Hp as [_ Hp]. eapply Forall_forall in Hp; [|exact Hin].
    by destruct Hp as (_ & _ & ? & _).
  - destruct c as [|x c]; [cbn in E; by rewrite E|]. injection E as _ E. by apply (IH c).
Qed.

(** Going up always shows. *)
Lemma up_escapes (x : string) (b t : list string) : Forall no_slash t -> escapes (join (map (fun _ => "..") (x :: b) ++ t)) = true.
Proof.
  intros Ht. apply join_escapes; [|done]. apply Forall_app. split; [|done].
  apply Forall_forall. intros w Hw. apply list_elem_of_In, in_map_iff in Hw as (? & <- & _). done.
Qed.

(** [Rel] and the test decide confinement. *)
Lemma Rel_confined base targ :
  match Rel base targ with Some rel => escapes rel = false <-> beneath base targ | None => ~ beneath base targ end.
Proof.
  pose proof (parts_normal base) as Hb. pose proof (parts_normal targ) as Ht. unfold Rel, beneath.
  destruct (parts base) as [rb bc], (parts targ) as [rt tc]. cbn [fst snd] in *.
  case_decide as E; [|destruct (negb (Bool.eqb rb rt)) eqn:Er].
  { injection E as -> ->. split; [|done]. intros _. split; [done|]. exists []. rewrite app_nil_r. by split; [|apply not_elem_of_nil]. }
  { intros [-> _]. by rewrite Bool.eqb_reflx in Er. }
  apply negb_false_iff, Bool.eqb_prop in Er. subst rt.
  assert (Hws : Forall no_slash (if decide (tc = []) then if rb then [] else ["."] else tc)).
  { case_decide; [destruct rb; repeat constructor|by apply (normal_no_slash rb)]. }
  destruct (strip_common bc _) as [b t] eqn:Es. apply strip_common_spec in Es as (c & Ebc & Ew & Hd).
  rewrite Ew in Hws. apply Forall_app in Hws as [_ Hts].
  destruct b as [|x b].
  - rewrite app_nil_r in Ebc. subst c. case_decide as Etc.
    + subst tc. destruct bc as [|y bc]; [done|]. exfalso. destruct rb; [done|]. injection Ew as <- Ew.
      destruct Hb as ([|k] & rest & Eb & _ & Hp); [|done].
      destruct rest as [|z rest]; [done|]. injection Eb as <- _. apply Forall_cons in Hp as [(_ & H & _) _]. by apply H.
    + split.
      * intros Hesc. split; [done|]. exists t. split; [done|]. intros Hin. rewrite Ew in Ht.
        apply (normal_tail rb bc t Ht), (join_escapes t Hts) in Hin. congruence.
      * intros [_ (rest & Er & Hn)]. rewrite Ew in Er. apply app_inv_head in Er as ->. apply not_true_iff_false.
        rewrite (join_escapes rest Hts). destruct rest; [done|]. intros [= ->]. apply Hn. by left.
  - assert (Hnot : ~ (rb = rb /\ exists rest, tc = bc ++ rest /\ ".." ∉ rest)).
    { intros [_ (rest & Er & _)]. destruct (decide (tc = [])) as [E0|Hne]; [by rewrite E0, Ebc in Er; destruct c|].
      rewrite Ew, Ebc, <- app_assoc in Er. apply app_inv_head in Er. by rewrite Er in Hd. }
    destruct (decide (x = "..")) as [Ex|Ex]; [exact Hnot|]. split; [|by intros ?%Hnot]. by rewrite up_escapes.
Qed.

(** ** Joining *)

Lemma rooted_app s t : s <> EmptyString -> is_rooted (s +:+ t) = is_rooted s.
Proof.
  destruct s as [|c s]; [done|]. intros _. rewrite str_cons_app. destruct (decide (c = "/"%char)) as [->|Hc].
  - by rewrite !rooted_slash.
  - by rewrite !rooted_other.
Qed.

(** Plain elements joined to a path are added to it. *)
Lemma parts_Join root ws :
  root <> EmptyString -> Forall plain ws -> ws <> [] -> parts (Join (root :: ws)) = ((parts root).1, (parts root).2 ++ ws).
Proof.
  intros Hr Hp Hne. unfold Join. assert (Hf : List.filter (fun e => negb (String.eqb e EmptyString)) (root :: ws) = root :: ws).
  { assert (H : Forall (fun e => e <> EmptyString) (root :: ws)).
    { constructor; [done|]. eapply Forall_impl; [exact Hp|by intros w (? & _)]. }
    induction H as [|w l Hw _ IH]; [done|]. cbn. apply String.eqb_neq in Hw. rewrite Hw. cbn. by rewrite IH. }
  rewrite Hf, parts_Clean, join_cons by done. unfold parts. rewrite rooted_app by done. cbn [fst snd]. f_equal.
  rewrite split_app, split_join; [|eapply Forall_impl; [exact Hp|apply plain_no_slash]|done].
  rewrite foldl_app. generalize (foldl (push (is_rooted root)) [] (split_slash root)). intros stack.
  assert (E : foldl (push (is_rooted root)) stack ws = reverse ws ++ stack).
  { revert stack. clear -Hp. induction Hp as [|w ws (H1 & H2 & H3 & _) _ IH]; intros stack; [done|]. cbn [foldl].
    unfold push at 2. rewrite decide_False by tauto. rewrite decide_False by done.
    by rewrite IH, reverse_cons, <- app_assoc. }
  by rewrite E, reverse_app, reverse_involutive.
Qed.

(** ... and the path then ends in the last of them. *)
Lemma Join_ends root ws w :
  root <> EmptyString -> Forall plain (ws ++ [w]) -> exists x, Join (root :: ws ++ [w]) = x +:+ w.
Proof.
  intros Hr Hp. assert (Hne : ws ++ [w] <> []) by by destruct ws.
  pose proof (parts_Join root (ws ++ [w]) Hr Hp Hne) as E.
  assert (C : Clean (Join (root :: ws ++ [w])) = Join (root :: ws ++ [w])).
  { unfold Join. cbn [List.filter]. apply String.eqb_neq in Hr. rewrite Hr. apply Clean_Clean. }
  rewrite <- C. unfold Clean. rewrite E. unfold render. cbn [fst snd].
  set (vs := (parts root).2 ++ ws ++ [w]).
  assert (J : exists x, join vs = x +:+ w).
  { subst vs. rewrite app_assoc. destruct ((parts root).2 ++ ws) as [|y l]; [by exists EmptyString|].
    rewrite join_app by done. exists (join (y :: l) +:+ "/"). by rewrite str_app_assoc. }
  destruct J as [x ->]. destruct (parts root).1; [by exists (String "/" x)|]. rewrite decide_False; [by exists x|].
  subst vs. by destruct (parts root).2, ws.
Qed.
End GoPath.
