(* ===== verification/GoUrl.v ===== *)
(** * [net/url]: parsing a URL and printing it without its password.

    [Parse], [String] and [Redacted] follow the package; what its host parser accepts has
    changed from release to release and is a parameter. *)

From S2P Require Import Prelude GoText.
From Stdlib Require Import Ascii.
Open Scope stdpp_scope.

Module GoUrl.

(** ** Escaping *)

Inductive encoding := encodePath | encodeUserPassword | encodeHost | encodeFragment.
#[export] Instance encoding_eq_dec : EqDecision encoding.
Proof. solve_decision. Defined.

Fixpoint in_str (c : ascii) (s : string) : bool :=
  match s with EmptyString => false | String d s => bool_decide (c = d) || in_str c s end.

Definition alpha (c : ascii) : bool := byte_in 97 122 c || byte_in 65 90 c.
Definition digit (c : ascii) : bool := byte_in 48 57 c.

Definition shouldEscape (mode : encoding) (c : ascii) : bool :=
  if alpha c || digit c then false
  else if bool_decide (mode = encodeHost) && (in_str c "!$&'()*+,;=:[]<>" || bool_decide (c = "034"%char)) then false
  else if in_str c "-_.~" then false
  else if in_str c "$&+,/:;=?@" && bool_decide (mode <> encodeHost) then
    match mode with
    | encodePath => in_str c "?"
    | encodeUserPassword => in_str c "@/?:"
    | _ => false
    end
  else negb (bool_decide (mode = encodeFragment) && in_str c "!()*").

Definition upperhex (n : N) : ascii := (if n <? 10 then n_byte (48 + n) else n_byte (55 + n))%N.
Definition escape_byte (mode : encoding) (c : ascii) : string :=
  if shouldEscape mode c
  then String "%" (String (upperhex (byte_n c / 16)) (String (upperhex (byte_n c mod 16)) EmptyString))
  else String c EmptyString.
Definition escape (mode : encoding) (s : string) : string := flat_str (escape_byte mode) s.

Definition unhex (c : ascii) : option N :=
  (if byte_in 48 57 c then Some (byte_n c - 48)
   else if byte_in 97 102 c then Some (byte_n c - 87)
   else if byte_in 65 70 c then Some (byte_n c - 55) else None)%N.

(** In a path, a fragment and user information; the host has rules of its own. *)
Fixpoint unescape (s : string) : option string :=
  match s with
  | EmptyString => Some EmptyString
  | String c s =>
      if decide (c = "%"%char) then
        match s with
        | String a (String b s) =>
            match unhex a, unhex b with
            | Some x, Some y => option_map (String (n_byte (16 * x + y))) (unescape s)
            | _, _ => None
            end
        | _ => None
        end
      else option_map (String c) (unescape s)
  end.

Definition validEncoded (mode : encoding) (s : string) : bool :=
  str_forallb (fun c => in_str c "!$&'()*+,;=:@[]%" || negb (shouldEscape mode c)) s.

(** ** The URL *)

Record Userinfo := { username : string; password : option string }.
Record URL := {
  Scheme : string; Opaque : string; User : option Userinfo; Host : string; Path : string; RawPath : string;
  OmitHost : bool; ForceQuery : bool; RawQuery : string; Fragment : string; RawFragment : string }.

Definition stringContainsCTLByte (s : string) : bool :=
  negb (str_forallb (fun c => negb (byte_in 0 31 c || byte_in 127 127 c)) s).

Inductive scheme_result := NoScheme | MissingScheme | Found (scheme rest : string).
Fixpoint getScheme_from (first : bool) (s : string) : scheme_result :=
  match s with
  | EmptyString => NoScheme
  | String c s =>
      let cons := match getScheme_from false s with Found scheme rest => Found (String c scheme) rest | r => r end in
      if alpha c then cons
      else if digit c || in_str c "+-." then if first then NoScheme else cons
      else if decide (c = ":"%char) then if first then MissingScheme else Found EmptyString s
      else NoScheme
  end.
Definition getScheme : string -> scheme_result := getScheme_from true.

Definition lower_byte (c : ascii) : ascii := if byte_in 65 90 c then n_byte (byte_n c + 32) else c.
(** [strings.ToLower] of ASCII text. *)
Fixpoint ToLower (s : string) : string :=
  match s with EmptyString => EmptyString | String c s => String (lower_byte c) (ToLower s) end.

(** [strings.Cut] at the last occurrence. *)
Fixpoint CutLast (s : string) (sep : ascii) : option (string * string) :=
  match s with
  | EmptyString => None
  | String c s =>
      match CutLast s sep with
      | Some (a, b) => Some (String c a, b)
      | None => if decide (c = sep) then Some (EmptyString, s) else None
      end
  end.

Definition validUserinfo (s : string) : bool :=
  str_forallb (fun c => alpha c || digit c || in_str c "-._:~!$&'()*+,;=%@") s.

Section parser.
(** [parseHost] of the scheme and the host; [None] is an error. *)
Context (parseHost : string -> string -> option string).

Definition parse_userinfo (userinfo : string) : option Userinfo :=
  if negb (validUserinfo userinfo) then None
  else
    match Cut userinfo ":" with
    | None => option_map (fun u => {| username := u; password := None |}) (unescape userinfo)
    | Some (u, p) =>
        match unescape u, unescape p with
        | Some u, Some p => Some {| username := u; password := Some p |}
        | _, _ => None
        end
    end.

Definition parseAuthority (scheme authority : string) : option (option Userinfo * string) :=
  match CutLast authority "@" with
  | None => option_map (pair None) (parseHost scheme authority)
  | Some (userinfo, host) =>
      match parseHost scheme host with
      | None => None
      | Some host => option_map (fun u => (Some u, host)) (parse_userinfo userinfo)
      end
  end.

(** [ForceQuery], what precedes the query, and the query. *)
Definition cut_query (rest : string) : bool * string * string :=
  match Cut rest "?" with
  | None => (false, rest, EmptyString)
  | Some (rest, EmptyString) => (true, rest, EmptyString)
  | Some (rest, query) => (false, rest, query)
  end.

Definition first_segment (path : string) : string := match Cut path "/" with Some (s, _) => s | None => path end.

(** The authority, if the hierarchical part starts with one, and the path. *)
Definition cut_authority (rest : string) : option (string * string) :=
  match CutPrefix rest "//" with
  | None => None
  | Some rest => Some (match Cut rest "/" with Some (a, path) => (a, String "/" path) | None => (rest, EmptyString) end)
  end.

Definition with_path (u : URL) (p : string) : option URL :=
  match unescape p with
  | None => None
  | Some path =>
      Some {| Scheme := Scheme u; Opaque := Opaque u; User := User u; Host := Host u; Path := path;
              RawPath := if decide (escape encodePath path = p) then EmptyString else p;
              OmitHost := OmitHost u; ForceQuery := ForceQuery u; RawQuery := RawQuery u;
              Fragment := Fragment u; RawFragment := RawFragment u |}
  end.

Definition with_fragment (u : URL) (f : string) : option URL :=
  match unescape f with
  | None => None
  | Some frag =>
      Some {| Scheme := Scheme u; Opaque := Opaque u; User := User u; Host := Host u; Path := Path u; RawPath := RawPath u;
              OmitHost := OmitHost u; ForceQuery := ForceQuery u; RawQuery := RawQuery u;
              Fragment := frag; RawFragment := if decide (escape encodeFragment frag = f) then EmptyString else f |}
  end.

Definition new_url (scheme opaque : string) (user : option Userinfo) (host path : string) (omit force : bool) (query : string) : URL :=
  {| Scheme := scheme; Opaque := opaque; User := user; Host := host; Path := path; RawPath := EmptyString;
     OmitHost := omit; ForceQuery := force; RawQuery := query; Fragment := EmptyString; RawFragment := EmptyString |}.

(** [parse], not by way of a request, from the scheme on. *)
Definition parse_rest (scheme rest : string) : option URL :=
  let scheme := ToLower scheme in
  let '(force, rest, query) := cut_query rest in
  let has := negb (String.eqb scheme EmptyString) in
  if negb (HasPrefix rest "/") && has then Some (new_url scheme rest None EmptyString EmptyString false force query)
  else if negb (HasPrefix rest "/") && in_str ":" (first_segment rest) then None
  else
    match (if has || negb (HasPrefix rest "///") then cut_authority rest else None) with
    | Some (authority, path) =>
        match parseAuthority scheme authority with
        | None => None
        | Some (user, host) => with_path (new_url scheme EmptyString user host EmptyString false force query) path
        end
    | None =>
        with_path (new_url scheme EmptyString None EmptyString EmptyString (has && HasPrefix rest "/") force query) rest
    end.

Definition parse (raw : string) : option URL :=
  if stringContainsCTLByte raw then None
  else if String.eqb raw "*" then Some (new_url EmptyString EmptyString None EmptyString "*" false false EmptyString)
  else
    match getScheme raw with
    | MissingScheme => None
    | NoScheme => parse_rest EmptyString raw
    | Found scheme rest => parse_rest scheme rest
    end.

Definition Parse (raw : string) : option URL :=
  match Cut raw "#" with
  | None => parse raw
  | Some (u, EmptyString) => parse u
  | Some (u, frag) => match parse u with Some url => with_fragment url frag | None => None end
  end.
End parser.

(** ** Printing *)

Definition EscapedPath (u : URL) : string :=
  if negb (String.eqb (RawPath u) EmptyString) && validEncoded encodePath (RawPath u) &&
     bool_decide (unescape (RawPath u) = Some (Path u))
  then RawPath u
  else if String.eqb (Path u) "*" then "*" else escape encodePath (Path u).

Definition EscapedFragment (u : URL) : string :=
  if negb (String.eqb (RawFragment u) EmptyString) && validEncoded encodeFragment (RawFragment u) &&
     bool_decide (unescape (RawFragment u) = Some (Fragment u))
  then RawFragment u else escape encodeFragment (Fragment u).

Definition Userinfo_String (ui : Userinfo) : string :=
  escape encodeUserPassword (username ui) +:+
  match password ui with None => EmptyString | Some p => String ":" (escape encodeUserPassword p) end.

Definition String_ (u : URL) : string :=
  let scheme := if String.eqb (Scheme u) EmptyString then EmptyString else Scheme u +:+ ":" in
  let nonempty s := negb (String.eqb s EmptyString) in
  let has_user := bool_decide (is_Some (User u)) in
  let body :=
    if nonempty (Opaque u) then scheme +:+ Opaque u
    else
      let authority :=
        if (nonempty (Scheme u) || nonempty (Host u) || has_user) &&
           negb (OmitHost u && String.eqb (Host u) EmptyString && negb has_user)
        then (if nonempty (Host u) || nonempty (Path u) || has_user then "//" else EmptyString) +:+
             (match User u with Some ui => Userinfo_String ui +:+ "@" | None => EmptyString end) +:+
             escape encodeHost (Host u)
        else EmptyString in
      let path := EscapedPath u in
      let slash := if nonempty path && negb (HasPrefix path "/") && nonempty (Host u) then "/" else EmptyString in
      let front := scheme +:+ authority +:+ slash in
      let dot := if String.eqb front EmptyString && in_str ":" (first_segment path) then "./" else EmptyString in
      front +:+ dot +:+ path in
  let query := if ForceQuery u || nonempty (RawQuery u) then String "?" (RawQuery u) else EmptyString in
  let fragment := if nonempty (Fragment u) then String "#" (EscapedFragment u) else EmptyString in
  body +:+ query +:+ fragment.

Definition hide (ui : Userinfo) : Userinfo :=
  match password ui with Some _ => {| username := username ui; password := Some "xxxxx" |} | None => ui end.

Definition Redacted (u : URL) : string :=
  String_ {| Scheme := Scheme u; Opaque := Opaque u; User := option_map hide (User u); Host := Host u; Path := Path u;
             RawPath := RawPath u; OmitHost := OmitHost u; ForceQuery := ForceQuery u; RawQuery := RawQuery u;
             Fragment := Fragment u; RawFragment := RawFragment u |}.
End GoUrl.
