(* ===== verification/Storage.v ===== *)
(** * The vocabulary shared with [github.com/looprig/storage] and the error taxonomy.

    The storage module is not part of this repository: its validators are the
    operations of the class [Storage], and what this package relies on about them is
    the class [StorageLaws] (each law cites the comment that states it).  [error]
    lists every typed error the package returns, the storage errors it constructs, and
    the NATS sentinels it classifies; [errors_any] is the traversal behind
    [errors.Is]/[errors.As].  [Reference] is one executable instance of the laws. *)

From S2P Require Import Prelude GoText Encoding.
From Stdlib Require Import Ascii.
Open Scope stdpp_scope.

(** ** Ordered index data *)

Record OrderedID := { Namespace : string; OrderingScope : string; StableKey : string }.
Record Due := { DueStateOf : N; UnixMillis : Z }.
Record Rank := { Ranked : bool; RankVal : Z }.
Record OrderedRecord := {
  ID : OrderedID; RankingScope : string; Revision : N; Order : N;
  DueOf : Due; RankOf : Rank; Value : option string; Deleted : bool }.

#[export] Instance OrderedID_eq_dec : EqDecision OrderedID.
Proof. solve_decision. Defined.
#[export] Instance Due_eq_dec : EqDecision Due.
Proof. solve_decision. Defined.
#[export] Instance Rank_eq_dec : EqDecision Rank.
Proof. solve_decision. Defined.
#[export] Instance OrderedRecord_eq_dec : EqDecision OrderedRecord.
Proof. solve_decision. Defined.

Definition zeroID : OrderedID :=
  {| Namespace := EmptyString; OrderingScope := EmptyString; StableKey := EmptyString |}.
Definition zeroRank : Rank := {| Ranked := false; RankVal := 0 |}.
Definition zeroRecord : OrderedRecord :=
  {| ID := zeroID; RankingScope := EmptyString; Revision := 0; Order := 0;
     DueOf := {| DueStateOf := 0; UnixMillis := 0 |}; RankOf := zeroRank;
     Value := None; Deleted := false |}.

(** The Go types of a record's integer fields. *)
Definition typed_record (r : OrderedRecord) : Prop :=
  u64 (Revision r) /\ u64 (Order r) /\ (DueStateOf (DueOf r) < 256)%N /\
  i64 (UnixMillis (DueOf r)) /\ i64 (RankVal (RankOf r)).

Inductive OrderedOperation := OrderedCreateOperation | OrderedUpdateOperation | OrderedDeleteOperation.
Inductive OrderedCursorRule :=
  OrderedCursorMalformed | OrderedCursorUnknownVersion | OrderedCursorWrongKind | OrderedCursorQueryMismatch.

(** ** Errors *)

(** The NATS errors the package distinguishes; every other client error is [OtherNats]. *)
Inductive nats_error :=
  | ErrTimeout | ErrNoStreamResponse | ErrNoResponders
  | ErrStreamNameAlreadyInUse | ErrStreamNotFound
  | js_ErrNoStreamResponse | js_ErrStreamNameAlreadyInUse | js_ErrStreamNotFound
  | js_ErrMsgNotFound | js_ErrInvalidJetStreamResponse | js_ErrConsumerNotFound
  | js_ErrKeyExists | js_ErrKeyNotFound | js_ErrNoKeysFound
  | js_ErrObjectNotFound | js_ErrNoObjectsFound | js_ErrDigestMismatch | js_ErrCantGetBucket
  | nats_APIError (code : N)
  | js_APIError (code : N)
  | OtherNats (msg : string).

#[export] Instance nats_error_eq_dec : EqDecision nats_error.
Proof. solve_decision. Defined.

(** Why a stream's configuration is refused (ordered_seam.go, 279-424): one constructor
    per message, with the values the message prints. *)
Inductive config_reason :=
  | LayoutIs (got : string)
  | AtomicPublishDisabled
  | MaxMsgsPerSubjectIs (got : Z)
  | SubjectsNotExactly (filter : string)
  | RetentionIs (got : N)
  | MaxConsumersIs (got : Z)
  | StorageIs (got : N)
  | NoAckSet | MirrorSet | SourcesSet | SealedSet | RollupSet
  | FirstSeqIs (got : N)
  | SubjectTransformSet | RePublishSet | MsgTTLSet | MsgCounterSet | MsgSchedulesSet
  | DeleteMarkerTTLIs (got : Z)
  | PersistModeIs (got : N)
  | InactiveThresholdIs (got : Z)
  | MaxMsgSizeIs (got : Z)
  | LimitIs (name : string) (got want : Z)
  | DiscardIs (got : N).

Inductive error :=
  (* leaves of the standard library and of the NATS client *)
  | Nats (e : nats_error)
  | context_Canceled | context_DeadlineExceeded | io_EOF | fs_ErrClosed
  | Leaf (msg : string)
  | Wrapped (msg : string) (cause : error)
  | Join (l : list error)
  | Panic (msg : string)
  (* storage *)
  | InvalidNameError (name : string)
  | StorageError (msg : string)
  | ConflictError (name : string) (expected : N)
  | AmbiguousError (name : string) (expected : N) (cause : error)
  | LeaseHeldError (name : string) (holderEpoch : N)
  | KeyNotFoundError (key : string)
  | BlobNotFoundError (key : string)
  | BlobConflictError (key : string)
  | OrderedRecordNotFoundError (id : OrderedID)
  | OrderedDeletedError (id : OrderedID)
  | OrderedRevisionConflictError (id : OrderedID) (expected actual : N)
  | OrderedRevisionExhaustedError (id : OrderedID) (revision : N)
  | OrderedAmbiguousError (op : OrderedOperation) (id : OrderedID) (cause : error)
  | InvalidOrderedCursorError (kind token : string) (rule : OrderedCursorRule)
  (* this package *)
  | NameEncodingError (value reason : string)
  | RecordReadError (name : string) (seq : N) (cause : error)
  | StreamOpError (stream op : string) (cause : error)
  | KVOpError (key op : string) (cause : error)
  | LeaseOpError (name op : string) (cause : error)
  | LeaseEncodeError (cause : error)
  | BlobOpError (key op : string) (cause : error)
  | OrderedCodecError (subject reason : string) (cause : option error)
  | OrderedIdentityMismatchError (subject payloadSubject : string)
  | OrderedCounterError (value reason : string)
  | OrderedContentionError (id : OrderedID) (attempts : N)
  | OrderedOrderExhaustedError (id : OrderedID) (order : N)
  | OrderedStoreClosedError (ns : string)
  | OrderedViewStopTimeoutError (ns : string) (cause : error)
  | OrderedStreamOpError (stream op : string) (cause : error)
  | OrderedStreamConfigError (stream : string) (reason : config_reason)
  | OrderedBatchRejectedError (batchID : string) (code : Z) (errCode : N) (description : string)
  | OrderedBatchAckMismatchError (batchID : string) (committed sent : N)
  | OrderedBatchSubjectsError (subject : string)
  | OptionsError (field reason : string)
  | ConnectError (url : string) (cause : error)
  | WiringError (component : string) (cause : error)
  | StoreDirError (path : string) (cause : option error)
  | ServerStartError (cause : option error)
  | StoreLockedError (path : string)
  | StoreLockError (path : string) (cause : option error)
  (* package sentinels *)
  | errKVKeyExists | errKVKeyNotFound | errKVCASConflict
  | errObjNotFound | errNilObjectReader | errObjectIntegrity
  | errOrderedPrecondition | errOrderedAmbiguous
  | errTrailingLeaseData | errServerNotReady | errStoreLockUnsupported.

(** The traversal of [errors.Is]/[errors.As]: the error, then what it unwraps to. *)
Fixpoint errors_any (p : error -> bool) (e : error) : bool :=
  p e ||
  match e with
  | Wrapped _ c | AmbiguousError _ _ c | OrderedAmbiguousError _ _ c
  | RecordReadError _ _ c | StreamOpError _ _ c | KVOpError _ _ c | LeaseOpError _ _ c | LeaseEncodeError c
  | BlobOpError _ _ c | OrderedViewStopTimeoutError _ c | OrderedStreamOpError _ _ c
  | ConnectError _ c | WiringError _ c => errors_any p c
  | OrderedCodecError _ _ (Some c) | StoreDirError _ (Some c) | ServerStartError (Some c)
  | StoreLockError _ (Some c) => errors_any p c
  | Join l => existsb (errors_any p) l
  | _ => false
  end.

Definition is_nats (n : nats_error) (e : error) : bool :=
  errors_any (fun e => match e with Nats m => bool_decide (m = n) | _ => false end) e.
Definition is_deadline (e : error) : bool :=
  errors_any (fun e => match e with context_DeadlineExceeded => true | _ => false end) e.
Definition is_precondition (e : error) : bool :=
  errors_any (fun e => match e with errOrderedPrecondition => true | _ => false end) e.
Definition is_ordered_ambiguous (e : error) : bool :=
  errors_any (fun e => match e with errOrderedAmbiguous => true | _ => false end) e.
Definition is_key_exists (e : error) : bool :=
  errors_any (fun e => match e with errKVKeyExists => true | _ => false end) e.
Definition is_key_not_found (e : error) : bool :=
  errors_any (fun e => match e with errKVKeyNotFound => true | _ => false end) e.
Definition is_cas_conflict (e : error) : bool :=
  errors_any (fun e => match e with errKVCASConflict => true | _ => false end) e.
Definition is_obj_not_found (e : error) : bool :=
  errors_any (fun e => match e with errObjNotFound => true | _ => false end) e.
Definition is_config_error (e : error) : bool :=
  errors_any (fun e => match e with OrderedStreamConfigError _ _ => true | _ => false end) e.

(** [errors.Join]: nil errors are discarded, and nothing left is nil. *)
Definition errors_Join (l : list (option error)) : option error :=
  match omap id l with [] => None | es => Some (Join es) end.

(** ** Results: Go's [(T, error)] with the zero value dropped on error *)

Inductive res (A : Type) := Ok (a : A) | Err (e : error).
Arguments Ok {A} a.
Arguments Err {A} e.

Notation "x <-? m ; k" := (match m with Ok x => k | Err e => Err e end)
  (at level 100, m at next level, right associativity) : go_scope.
(** [if err := m; err != nil { return err }]. *)
Notation "'guard?' m ; k" := (match m with Some e => Err e | None => k end)
  (at level 100, m at next level, right associativity) : go_scope.

(** ** The storage contract *)

(** The bytes of a storage name (subject.go, lines 10-11). *)
Definition name_byte (c : ascii) : bool :=
  byte_in 97 122 c || byte_in 48 57 c || byte_in 45 47 c || (byte_n c =? 95)%N.

Class Storage := {
  ValidateName : string -> option error;
  ValidateOrderedID : OrderedID -> option error;
  ValidateOrderedRecord : OrderedRecord -> option error;
  ValidateOrderedValue : option string -> option error;
  ValidateDue : Due -> option error;
  ValidateOrderedLimit : Z -> option error;
  NotDue : N;
  DueAt : N;
  RankedCursorKind : string;
  DueCursorKind : string
}.

Class StorageLaws (S : Storage) := {
  (** subject.go 10-11: a name holds lower-case letters, digits, '_', '.', '-', '/'. *)
  ValidateName_bytes n : ValidateName n = None -> str_forallb name_byte n = true;
  (** ordered_codec.go 161-163: the scope of a valid identity is a validated name;
      the identity's namespace is checked again by [orderedNamespacePrefix]. *)
  ValidateOrderedID_names id :
    ValidateOrderedID id = None ->
    ValidateName (Namespace id) = None /\ ValidateName (OrderingScope id) = None;
  (** ordered_codec.go 102: the stable key is arbitrary UTF-8. *)
  ValidateOrderedID_utf8 id :
    ValidateOrderedID id = None -> Utf8.ValidString (StableKey id) = true;
  (** ordered_codec.go 199, 270: a record is validated together with its identity
      and its scope names. *)
  ValidateOrderedRecord_id r :
    ValidateOrderedRecord r = None ->
    ValidateOrderedID (ID r) = None /\ ValidateName (RankingScope r) = None;
  (** ordered_codec.go 288: orders are nonzero. *)
  ValidateOrderedRecord_order r : ValidateOrderedRecord r = None -> Order r <> 0%N;
  (** ordered.go 1107-1110: a tombstone carries neither a rank nor a due time. *)
  ValidateOrderedRecord_tombstone r :
    ValidateOrderedRecord r = None -> Deleted r = true ->
    Ranked (RankOf r) = false /\ DueStateOf (DueOf r) <> DueAt;
  (** ordered.go 474-477: [Delete] resets [Due] to [NotDue], which is not [DueAt]. *)
  NotDue_DueAt : NotDue <> DueAt;
  (** ordered_codec.go 112, 215: a due state is a [uint8]. *)
  NotDue_uint8 : (NotDue < 256)%N;
  (** A page limit is positive: a limit of 0 or -1 is refused (ordered_view_test.go 623). *)
  ValidateOrderedLimit_pos limit : ValidateOrderedLimit limit = None -> (0 < limit)%Z;
  (** The two cursor kinds are distinct, and are text the cursor encoder can carry. *)
  CursorKind_distinct : RankedCursorKind <> DueCursorKind;
  CursorKind_ascii :
    str_forallb Utf8.is_ascii RankedCursorKind = true /\ str_forallb Utf8.is_ascii DueCursorKind = true
}.

Lemma name_byte_ascii c : name_byte c = true -> Utf8.is_ascii c = true.
Proof. destruct c as [[][][][][][][][]]; vm_compute; done. Qed.

Section laws.
Context {S : Storage} `{!StorageLaws S}.

Lemma valid_name_utf8 n : ValidateName n = None -> Utf8.utf8 n.
Proof.
  intros H. apply Utf8.ascii_utf8. eapply str_forallb_impl; [|by apply ValidateName_bytes].
  apply name_byte_ascii.
Qed.

Lemma valid_record_names r :
  ValidateOrderedRecord r = None ->
  ValidateName (Namespace (ID r)) = None /\ ValidateName (OrderingScope (ID r)) = None /\
  ValidateName (RankingScope r) = None /\ Utf8.ValidString (StableKey (ID r)) = true.
Proof.
  intros [Hid Hrs]%ValidateOrderedRecord_id.
  destruct (ValidateOrderedID_names _ Hid) as [??]. by apply ValidateOrderedID_utf8 in Hid.
Qed.
End laws.

(** ** An executable instance of the contract *)

Module Reference.

Definition start_byte (c : ascii) : bool := byte_in 97 122 c || byte_in 48 57 c.

(** Segments over [[a-z0-9][a-z0-9_.-]*] joined by '/'; [at_start] is the state
    "a segment must begin here". *)
Fixpoint name_ok (at_start : bool) (s : string) : bool :=
  match s with
  | EmptyString => negb at_start
  | String c s' =>
      if at_start then start_byte c && name_ok false s'
      else if decide (c = "/"%char) then name_ok true s'
      else name_byte c && name_ok false s'
  end.

Definition check (b : bool) (e : error) : option error := if b then None else Some e.

Definition validName (n : string) : option error := check (name_ok true n) (InvalidNameError n).
Definition id_ok (id : OrderedID) : bool :=
  name_ok true (Namespace id) && name_ok true (OrderingScope id) &&
  Utf8.ValidString (StableKey id) && bool_decide (0 < String.length (StableKey id) <= 256).
Definition due_ok (d : Due) : bool :=
  ((DueStateOf d =? 0)%N && (UnixMillis d =? 0)%Z) || (DueStateOf d =? 1)%N.
Definition record_ok (r : OrderedRecord) : bool :=
  id_ok (ID r) && name_ok true (RankingScope r) && negb (Revision r =? 0)%N &&
  negb (Order r =? 0)%N && due_ok (DueOf r) &&
  negb (Deleted r && (Ranked (RankOf r) || (DueStateOf (DueOf r) =? 1)%N)).

#[export] Instance reference : Storage := {|
  ValidateName := validName;
  ValidateOrderedID id := check (id_ok id) (StorageError "invalid ordered id");
  ValidateOrderedRecord r := check (record_ok r) (StorageError "invalid ordered record");
  ValidateOrderedValue v := None;
  ValidateDue d := check (due_ok d) (StorageError "invalid due");
  ValidateOrderedLimit l :=
    check ((0 <? l)%Z && (l <=? 1000)%Z) (StorageError "invalid ordered limit");
  NotDue := 0%N;
  DueAt := 1%N;
  RankedCursorKind := "ranked";
  DueCursorKind := "due"
|}.

Lemma check_None b e : check b e = None <-> b = true.
Proof. by destruct b. Qed.

Lemma name_ok_bytes b s : name_ok b s = true -> str_forallb name_byte s = true.
Proof.
  revert b. induction s as [|c s IH]; intros b H; [done|]. cbn in H |- *.
  destruct b.
  - apply andb_true_iff in H as [Hc Hs]. rewrite (IH _ Hs), andb_true_r.
    unfold start_byte in Hc. unfold name_byte. by rewrite Hc.
  - case_decide; [subst; by rewrite (IH _ H)|].
    apply andb_true_iff in H as [-> Hs]. by rewrite (IH _ Hs).
Qed.

#[global] Instance reference_laws : StorageLaws reference.
Proof.
  split; cbn; intros *; unfold validName, id_ok, record_ok, id_ok; rewrite ?check_None, ?andb_true_iff.
  - apply name_ok_bytes.
  - tauto.
  - tauto.
  - tauto.
  - rewrite !negb_true_iff, !N.eqb_neq. tauto.
  - intros [_ H] Hd. rewrite Hd in H. cbn in H. apply negb_true_iff, orb_false_iff in H as [H1 H2].
    apply N.eqb_neq in H2. done.
  - done.
  - done.
  - intros [H%Z.ltb_lt _]. done.
  - done.
  - done.
Qed.

End Reference.
