(* ===== verification/Nats.v ===== *)
(** * The NATS client as the package uses it: constants and error classification.

    nats.go and nats-server are not part of this repository; the constants the package
    compares with are the operations of the class [JetStream].  The classifiers are
    those of seam.go, ledger.go and ordered_seam.go. *)

From S2P Require Import Prelude GoText Storage.
Open Scope stdpp_scope.

Class JetStream := {
  JSErrCodeStreamWrongLastSequence : N;
  JSErrCodeStreamWrongLastSequenceConstant : N;
  LimitsPolicy : N;
  DiscardOld : N;
  FileStorage : N;
  ExpectedLastSubjSeqHeader : string
}.

(** [errors.As]: the first error of the traversal that has the wanted type. *)
Section errors_as.
Context {A : Type} (get : error -> option A).
Fixpoint errors_as (e : error) : option A :=
  match get e with
  | Some a => Some a
  | None =>
      match e with
      | Wrapped _ c | AmbiguousError _ _ c | OrderedAmbiguousError _ _ c
      | RecordReadError _ _ c | StreamOpError _ _ c | KVOpError _ _ c | LeaseOpError _ _ c | LeaseEncodeError c
      | BlobOpError _ _ c | OrderedViewStopTimeoutError _ c | OrderedStreamOpError _ _ c
      | ConnectError _ c | WiringError _ c => errors_as c
      | OrderedCodecError _ _ (Some c) | StoreDirError _ (Some c) | ServerStartError (Some c)
      | StoreLockError _ (Some c) => errors_as c
      | Join l =>
          (fix first (l : list error) : option A :=
             match l with
             | [] => None
             | x :: l' => match errors_as x with Some a => Some a | None => first l' end
             end) l
      | _ => None
      end
  end.
End errors_as.

Definition js_api_code (e : error) : option N :=
  match e with Nats (js_APIError code) => Some code | _ => None end.
Definition nats_api_code (e : error) : option N :=
  match e with Nats (nats_APIError code) => Some code | _ => None end.

Section classify.
Context {J : JetStream}.

(** ledger.go *)
Definition isWrongLastSequence (err : error) : bool :=
  match errors_as nats_api_code err with
  | Some code => (code =? JSErrCodeStreamWrongLastSequence)%N
  | None => false
  end.

Definition isAmbiguous (err : error) : bool :=
  is_deadline err || is_nats ErrTimeout err || is_nats ErrNoStreamResponse err.

(** seam.go *)
Definition isJetStreamWrongLastSeq (err : error) : bool :=
  match errors_as js_api_code err with
  | Some code => (code =? JSErrCodeStreamWrongLastSequence)%N
  | None => false
  end.

(** ordered_seam.go *)
Definition isOrderedWrongLastSeqCode (code : N) : bool :=
  (code =? JSErrCodeStreamWrongLastSequence)%N || (code =? JSErrCodeStreamWrongLastSequenceConstant)%N.

Definition isOrderedWrongLastSeq (err : error) : bool :=
  match errors_as js_api_code err with
  | None => false
  | Some code =>
      (code =? JSErrCodeStreamWrongLastSequence)%N || (code =? JSErrCodeStreamWrongLastSequenceConstant)%N
  end.

Definition isOrderedAmbiguous (err : error) : bool :=
  is_deadline err || is_nats ErrTimeout err || is_nats ErrNoResponders err ||
  is_nats ErrNoStreamResponse err || is_nats js_ErrNoStreamResponse err.
End classify.

(** The constants of nats.go, to run examples with. *)
Definition nats_go : JetStream := {|
  JSErrCodeStreamWrongLastSequence := 10071; JSErrCodeStreamWrongLastSequenceConstant := 10164;
  LimitsPolicy := 0; DiscardOld := 0; FileStorage := 0;
  ExpectedLastSubjSeqHeader := "Nats-Expected-Last-Subject-Sequence" |}.
