(* ===== verification/Names.v ===== *)
(** * subject.go: storage names as JetStream subjects and stream names.

    [subjectForName]/[nameFromSubject] and [streamForName]/[nameFromStream] with
    their encoders; each pair is a bijection between the valid names and the
    encoder's image, and a decoder accepts nothing else. *)

From S2P Require Import Prelude GoText Encoding Storage.
From Stdlib Require Import Ascii.
Open Scope stdpp_scope.
Open Scope go_scope.

Module Names.

Definition subjectDotEscape : string := "%2E".
Definition streamEscape : ascii := "_".

Definition encodeSubject (name : string) : string :=
  ReplaceAll (ReplaceAll name "." subjectDotEscape) "/" ".".

Fixpoint encodeStream (name : string) : string :=
  match name with
  | EmptyString => EmptyString
  | String c rest =>
      (if decide (c = streamEscape) then "_u"
       else if decide (c = "."%char) then "_d"
       else if decide (c = "/"%char) then "_s"
       else str1 c) +:+ encodeStream rest
  end.

Fixpoint decodeStream_loop (stream s : string) : res string :=
  match s with
  | EmptyString => Ok EmptyString
  | String c s' =>
      if decide (c <> streamEscape) then
        (t <-? decodeStream_loop stream s'; Ok (String c t))
      else match s' with
           | EmptyString => Err (NameEncodingError stream "dangling escape")
           | String x s2 =>
               if decide (x = "u"%char) then (t <-? decodeStream_loop stream s2; Ok (String "_" t))
               else if decide (x = "d"%char) then (t <-? decodeStream_loop stream s2; Ok (String "." t))
               else if decide (x = "s"%char) then (t <-? decodeStream_loop stream s2; Ok (String "/" t))
               else Err (NameEncodingError stream "unknown escape sequence")
           end
  end.
Definition decodeStream (stream : string) : res string := decodeStream_loop stream stream.

Section names.
Context `{S : Storage}.

Definition subjectForName (name : string) : res string :=
  guard? ValidateName name; Ok (encodeSubject name).

Definition nameFromSubject (subj : string) : res string :=
  let unhier := ReplaceAll subj "." "/" in
  let name := ReplaceAll unhier subjectDotEscape "." in
  match ValidateName name with
  | Some _ => Err (NameEncodingError subj "does not decode to a valid storage name")
  | None =>
      if decide (encodeSubject name <> subj)
      then Err (NameEncodingError subj "not a canonical subject encoding")
      else Ok name
  end.

Definition streamForName (name : string) : res string :=
  guard? ValidateName name; Ok (encodeStream name).

Definition nameFromStream (stream : string) : res string :=
  name <-? decodeStream stream;
  match ValidateName name with
  | Some _ => Err (NameEncodingError stream "does not decode to a valid storage name")
  | None =>
      if decide (encodeStream name <> stream)
      then Err (NameEncodingError stream "not a canonical stream encoding")
      else Ok name
  end.
End names.

(** ** The stream encoding *)

Definition stream_esc (c : ascii) : string :=
  if decide (c = streamEscape) then "_u"
  else if decide (c = "."%char) then "_d"
  else if decide (c = "/"%char) then "_s" else str1 c.

Lemma encodeStream_flat s : encodeStream s = flat_str stream_esc s.
Proof. induction s as [|c s IH]; [done|]. cbn. by rewrite IH. Qed.

Lemma decode_stream_esc st c t :
  decodeStream_loop st (stream_esc c +:+ t) =
    (r <-? decodeStream_loop st t; Ok (String c r)).
Proof.
  unfold stream_esc. case_decide; [by subst|]. case_decide; [by subst|]. case_decide; [by subst|].
  unfold str1. rewrite str_cons_app, str_app_nil_l. cbn [decodeStream_loop].
  by rewrite decide_True.
Qed.

(** The expansion undoes the encoding of every byte string. *)
Lemma decodeStream_encodeStream st s : decodeStream_loop st (encodeStream s) = Ok s.
Proof.
  rewrite encodeStream_flat. induction s as [|c s IH]; [done|].
  cbn [flat_str]. by rewrite decode_stream_esc, IH.
Qed.

Lemma encodeStream_inj s t : encodeStream s = encodeStream t -> s = t.
Proof.
  intros H. pose proof (decodeStream_encodeStream EmptyString s) as Hs.
  rewrite H, decodeStream_encodeStream in Hs. congruence.
Qed.

Lemma encodeStream_app s t : encodeStream (s +:+ t) = encodeStream s +:+ encodeStream t.
Proof. by rewrite !encodeStream_flat, flat_str_app. Qed.

(** [[a-z0-9_-]], the bytes a stream name may hold. *)
Definition stream_byte (c : ascii) : bool :=
  byte_in 97 122 c || byte_in 48 57 c || (byte_n c =? 95)%N || (byte_n c =? 45)%N.

Lemma encodeStream_bytes s :
  str_forallb name_byte s = true -> str_forallb stream_byte (encodeStream s) = true.
Proof.
  rewrite encodeStream_flat. apply flat_str_forallb. intros c Hc.
  destruct c as [[][][][][][][][]]; try discriminate Hc; reflexivity.
Qed.

Lemma decodeStream_err st s e :
  decodeStream_loop st s = Err e -> exists why, e = NameEncodingError st why.
Proof.
  assert (H : forall n s, String.length s <= n ->
    decodeStream_loop st s = Err e -> exists why, e = NameEncodingError st why).
  { clear s. induction n as [|n IH]; intros s Hs; (destruct s as [|c s]; [done|cbn in Hs]); [lia|].
    cbn [decodeStream_loop]. case_decide as Hc.
    - destruct (decodeStream_loop st s) eqn:E; [done|]. intros [= <-]. apply (IH s); [lia|done].
    - destruct s as [|x s]; [naive_solver|]. cbn in Hs.
      repeat case_decide; try (destruct (decodeStream_loop st s) eqn:E; [done|]; intros [= <-];
        apply (IH s); [lia|done]). naive_solver. }
  by apply (H (String.length s)).
Qed.

(** ** The subject encoding *)

Definition subject_esc (c : ascii) : string :=
  if decide (c = "."%char) then subjectDotEscape else if decide (c = "/"%char) then "." else str1 c.
(** A subject after its dots have become slashes again. *)
Definition unhier_esc (c : ascii) : string :=
  if decide (c = "."%char) then subjectDotEscape else str1 c.

Lemma flat_str_flat f g s : flat_str f (flat_str g s) = flat_str (fun c => flat_str f (g c)) s.
Proof. induction s as [|c s IH]; [done|]. cbn. by rewrite flat_str_app, IH. Qed.

Lemma encodeSubject_flat s : encodeSubject s = flat_str subject_esc s.
Proof.
  unfold encodeSubject.
  rewrite !ReplaceAll_byte, flat_str_flat. apply flat_str_ext. intros c.
  unfold subject_esc. case_decide; [done|]. unfold str1. cbn. case_decide; done.
Qed.

Lemma unhier_encodeSubject s :
  ReplaceAll (encodeSubject s) "." "/" = flat_str unhier_esc s.
Proof.
  rewrite encodeSubject_flat.
  rewrite ReplaceAll_byte, flat_str_flat. apply flat_str_ext. intros c.
  unfold subject_esc, unhier_esc. case_decide; [done|].
  case_decide; [by subst|]. unfold str1. cbn. by rewrite decide_False.
Qed.

Definition no_percent (s : string) : bool := str_forallb (fun c => bool_decide (c <> "%"%char)) s.

(** Undoing the dot escape on a name that holds no '%'. *)
Lemma unescape_unhier s :
  no_percent s = true -> ReplaceAll (flat_str unhier_esc s) subjectDotEscape "." = s.
Proof.
  unfold ReplaceAll, no_percent. induction s as [|c s IH]; [done|]. cbn [flat_str str_forallb].
  rewrite andb_true_iff, bool_decide_eq_true. intros [Hc Hs]. unfold unhier_esc at 1.
  case_decide as Hd; [subst c|].
  - transitivity (String "." (replace_from subjectDotEscape "." 0 (flat_str unhier_esc s))).
    + by destruct (flat_str unhier_esc s).
    + by rewrite IH.
  - unfold str1. rewrite str_cons_app, str_app_nil_l. cbn [replace_from].
    assert (Hp : forall t, String.prefix subjectDotEscape (String c t) = false).
    { intros t. destruct (String.prefix _ _) eqn:E; [|done].
      apply prefix_app_iff in E as [u Hu]. unfold subjectDotEscape in Hu.
      rewrite str_cons_app in Hu. congruence. }
    by rewrite Hp, IH.
Qed.

Lemma name_no_percent s : str_forallb name_byte s = true -> no_percent s = true.
Proof.
  apply str_forallb_impl. intros c Hc. apply bool_decide_eq_true. intros ->. done.
Qed.

Section theorems.
Context {S : Storage} {L : StorageLaws S}.

Lemma nameFromSubject_encode name :
  ValidateName name = None -> nameFromSubject (encodeSubject name) = Ok name.
Proof.
  intros H. unfold nameFromSubject.
  rewrite unhier_encodeSubject, unescape_unhier by by apply name_no_percent, ValidateName_bytes.
  rewrite H. by rewrite decide_False by tauto.
Qed.

(** C40. [nameFromSubject] is the exact inverse of [subjectForName]: a subject decodes
    to a name precisely when the name encodes to that subject, so the pair is a
    bijection between valid names and the subjects the encoder emits. *)
Theorem nameFromSubject_iff subj name :
  nameFromSubject subj = Ok name <-> subjectForName name = Ok subj.
Proof.
  unfold subjectForName. split.
  - unfold nameFromSubject. intros H. cbv zeta in H.
    destruct (ValidateName _) eqn:E; [done|]. case_decide as Hn; [done|].
    injection H as <-. by rewrite E, Hn.
  - intros H. destruct (ValidateName name) eqn:E; [done|]. injection H as <-.
    by apply nameFromSubject_encode.
Qed.

(** [nameFromStream] is the exact inverse of [streamForName], and every other
    stream name is refused with a [NameEncodingError] naming it. *)
Theorem nameFromStream_iff stream :
  (forall name, nameFromStream stream = Ok name <-> streamForName name = Ok stream) /\
  (forall e, nameFromStream stream = Err e -> exists why, e = NameEncodingError stream why).
Proof.
  unfold nameFromStream, streamForName, decodeStream. split.
  - intros name. split.
    + intros H. destruct (decodeStream_loop stream stream) as [n|]; [|done].
      destruct (ValidateName n) eqn:E; [done|]. case_decide as Hn; [done|].
      injection H as <-. by rewrite E, Hn.
    + intros H. destruct (ValidateName name) eqn:E; [done|]. injection H as <-.
      rewrite decodeStream_encodeStream, E. by rewrite decide_False by tauto.
  - intros e H. destruct (decodeStream_loop stream stream) eqn:E; [|injection H as <-].
    + repeat (case_match; try done); simplify_eq; eauto.
    + by apply decodeStream_err in E.
Qed.

(** The image of [streamForName] stays in the JetStream-safe bytes [[a-z0-9_-]]
    and distinct names never share a stream. *)
Theorem streamForName_safe n m stream :
  streamForName n = Ok stream ->
  str_forallb stream_byte stream = true /\ (streamForName m = Ok stream -> m = n).
Proof.
  unfold streamForName. intros H. destruct (ValidateName n) eqn:E; [done|]. injection H as <-.
  split; [by apply encodeStream_bytes, ValidateName_bytes|].
  intros H. destruct (ValidateName m) eqn:E'; [done|]. injection H as H. by apply encodeStream_inj.
Qed.
End theorems.

Definition sample : string := "a/b_c.d-e".

Theorem nameFromSubject_iff_witness :
  nameFromSubject (S := Reference.reference) "a.b_c%2Ed-e" = Ok sample.
Proof. apply (proj2 (nameFromSubject_iff (S := Reference.reference) _ _)). vm_compute. reflexivity. Defined.

Theorem streamForName_safe_witness :
  str_forallb stream_byte "a_sb_uc_dd-e" = true.
Proof.
  exact (proj1 (streamForName_safe (S := Reference.reference) sample sample
    "a_sb_uc_dd-e" ltac:(vm_compute; reflexivity))).
Defined.

End Names.
