(* ===== verification/OrderedCodec.v ===== *)
(** * ordered_codec.go: subjects, record and counter payloads, continuation cursors.

    Subjects ([orderedStreamName] ... [orderedRecordSubject], [classifyOrderedSubject]),
    the hashed identity token, the JSON record payload with its four decoding gates,
    the decimal counter payload, and the opaque cursor tokens. *)

From S2P Require Import Prelude GoText Encoding Sha256 Json Storage Names.
From Stdlib Require Import Ascii.
Import Json.
Open Scope stdpp_scope.
Open Scope go_scope.

Module Codec.
Import Names.

Definition orderedRecordVersion : N := 1.
Definition orderedSubjectRoot : string := "OI".
Definition orderedStreamPrefix : string := "OI_".
Definition orderedCounterToken : string := "c".
Definition orderedRecordToken : string := "r".
Definition orderedIdentityDomain : string := "looprig.natsstore.ordered.identity.v1".

(** ** Identity token *)

(** One length-framed component of the hash preimage. *)
Definition frame (part : string) : string :=
  Sha256.be_bytes 8 (N.of_nat (String.length part)) +:+ part.
Definition identity_preimage (id : OrderedID) : string :=
  orderedIdentityDomain +:+ frame (Namespace id) +:+ frame (OrderingScope id) +:+ frame (StableKey id).
Definition orderedIdentityToken (id : OrderedID) : string :=
  Base64.EncodeToString Base64.RawURLEncoding (Sha256.Sum256 (identity_preimage id)).

(** ** Payloads *)

Record orderedPayload := {
  p_Version : N; p_Namespace : string; p_OrderingScope : string; p_StableKey : string;
  p_RankingScope : string; p_Revision : N; p_Order : N; p_DueState : N; p_DueUnixMillis : Z;
  p_Ranked : bool; p_RankValue : Z; p_Deleted : bool; p_Value : option string }.

Definition payload_fields : list string :=
  ["v"; "ns"; "os"; "key"; "rs"; "rev"; "order"; "due_state"; "due_ms"; "ranked"; "rank"; "deleted"; "value"].

Definition zero_payload : orderedPayload :=
  {| p_Version := 0; p_Namespace := EmptyString; p_OrderingScope := EmptyString;
     p_StableKey := EmptyString; p_RankingScope := EmptyString; p_Revision := 0; p_Order := 0;
     p_DueState := 0; p_DueUnixMillis := 0; p_Ranked := false; p_RankValue := 0;
     p_Deleted := false; p_Value := None |}.

Definition json_bytes (b : option string) : json :=
  match b with None => JNull | Some s => jstr (Base64.EncodeToString Base64.StdEncoding s) end.

(** The struct tags of [orderedPayload], in field order. *)
Definition payload_members (p : orderedPayload) : list (string * json) :=
  [("v", JNum (FormatUint (p_Version p))); ("ns", jstr (p_Namespace p));
   ("os", jstr (p_OrderingScope p)); ("key", jstr (p_StableKey p)); ("rs", jstr (p_RankingScope p));
   ("rev", JNum (FormatUint (p_Revision p))); ("order", JNum (FormatUint (p_Order p)));
   ("due_state", JNum (FormatUint (p_DueState p))); ("due_ms", JNum (FormatInt (p_DueUnixMillis p)));
   ("ranked", JBool (p_Ranked p)); ("rank", JNum (FormatInt (p_RankValue p)));
   ("deleted", JBool (p_Deleted p)); ("value", json_bytes (p_Value p))].

Definition payload_field (p : orderedPayload) (f : string) (x : json) : option orderedPayload :=
  let '(Build_orderedPayload v ns os key rs rev ord dst dms rkd rk del val) := p in
  let mk := Build_orderedPayload in
  if String.eqb f "v" then (v' ← as_uint 256 v x; Some (mk v' ns os key rs rev ord dst dms rkd rk del val))
  else if String.eqb f "ns" then (ns' ← as_string ns x; Some (mk v ns' os key rs rev ord dst dms rkd rk del val))
  else if String.eqb f "os" then (os' ← as_string os x; Some (mk v ns os' key rs rev ord dst dms rkd rk del val))
  else if String.eqb f "key" then (key' ← as_string key x; Some (mk v ns os key' rs rev ord dst dms rkd rk del val))
  else if String.eqb f "rs" then (rs' ← as_string rs x; Some (mk v ns os key rs' rev ord dst dms rkd rk del val))
  else if String.eqb f "rev" then (rev' ← as_uint two64 rev x; Some (mk v ns os key rs rev' ord dst dms rkd rk del val))
  else if String.eqb f "order" then (ord' ← as_uint two64 ord x; Some (mk v ns os key rs rev ord' dst dms rkd rk del val))
  else if String.eqb f "due_state" then (dst' ← as_uint 256 dst x; Some (mk v ns os key rs rev ord dst' dms rkd rk del val))
  else if String.eqb f "due_ms" then (dms' ← as_int64 dms x; Some (mk v ns os key rs rev ord dst dms' rkd rk del val))
  else if String.eqb f "ranked" then (rkd' ← as_bool rkd x; Some (mk v ns os key rs rev ord dst dms rkd' rk del val))
  else if String.eqb f "rank" then (rk' ← as_int64 rk x; Some (mk v ns os key rs rev ord dst dms rkd rk' del val))
  else if String.eqb f "deleted" then (del' ← as_bool del x; Some (mk v ns os key rs rev ord dst dms rkd rk del' val))
  else if String.eqb f "value" then (val' ← as_bytes x; Some (mk v ns os key rs rev ord dst dms rkd rk del val'))
  else None.

Definition payload_of (rec : OrderedRecord) : orderedPayload :=
  {| p_Version := orderedRecordVersion; p_Namespace := Namespace (ID rec);
     p_OrderingScope := OrderingScope (ID rec); p_StableKey := StableKey (ID rec);
     p_RankingScope := RankingScope rec; p_Revision := Revision rec; p_Order := Order rec;
     p_DueState := DueStateOf (DueOf rec); p_DueUnixMillis := UnixMillis (DueOf rec);
     p_Ranked := Ranked (RankOf rec); p_RankValue := RankVal (RankOf rec);
     p_Deleted := Deleted rec; p_Value := Value rec |}.

Definition record_of (p : orderedPayload) : OrderedRecord :=
  {| ID := {| Namespace := p_Namespace p; OrderingScope := p_OrderingScope p; StableKey := p_StableKey p |};
     RankingScope := p_RankingScope p; Revision := p_Revision p; Order := p_Order p;
     DueOf := {| DueStateOf := p_DueState p; UnixMillis := p_DueUnixMillis p |};
     RankOf := {| Ranked := p_Ranked p; RankVal := p_RankValue p |};
     Value := p_Value p; Deleted := p_Deleted p |}.

(** ** Counter payload *)

Definition encodeOrderedCounter (order : N) : string := FormatUint order.

Definition decodeOrderedCounter (data : string) : res N :=
  match ParseUint data with
  | ErrRange => Err (OrderedCounterError data "order out of range")
  | ErrSyntax => Err (OrderedCounterError data "not a decimal order")
  | ParseOk order =>
      if (order =? 0)%N then Err (OrderedCounterError data "order must be nonzero")
      else if decide (encodeOrderedCounter order <> data)
      then Err (OrderedCounterError data "not a canonical decimal order")
      else Ok order
  end.

(** ** Cursors *)

Definition orderedCursorVersion : Z := 1.
Definition orderedCursorPrefix : string := "oi".
Definition maxOrderedCursorBytes : nat := Z.to_nat (Z.shiftl 8 10).

Record orderedCursorPayload := {
  c_Kind : string; c_Namespace : string; c_RankingScope : string; c_Rank : Z;
  c_DueBound : Z; c_DueAt : Z; c_StableKey : string; c_OrderingScope : string }.

Definition cursor_fields : list string := ["k"; "ns"; "rs"; "rank"; "bound"; "due"; "sk"; "os"].
Definition zero_cursor : orderedCursorPayload :=
  {| c_Kind := EmptyString; c_Namespace := EmptyString; c_RankingScope := EmptyString; c_Rank := 0;
     c_DueBound := 0; c_DueAt := 0; c_StableKey := EmptyString; c_OrderingScope := EmptyString |}.

(** [omitempty] on a string or an integer. *)
Definition omit_str (k s : string) : list (string * json) :=
  if decide (s = EmptyString) then [] else [(k, jstr s)].
Definition omit_int (k : string) (z : Z) : list (string * json) :=
  if decide (z = 0%Z) then [] else [(k, JNum (FormatInt z))].

Definition cursor_members (c : orderedCursorPayload) : list (string * json) :=
  [("k", jstr (c_Kind c)); ("ns", jstr (c_Namespace c))] ++
  omit_str "rs" (c_RankingScope c) ++ omit_int "rank" (c_Rank c) ++
  omit_int "bound" (c_DueBound c) ++ omit_int "due" (c_DueAt c) ++
  [("sk", jstr (c_StableKey c)); ("os", jstr (c_OrderingScope c))].

Definition cursor_field (c : orderedCursorPayload) (f : string) (x : json) : option orderedCursorPayload :=
  let '(Build_orderedCursorPayload k ns rs rk bd du sk os) := c in
  let mk := Build_orderedCursorPayload in
  if String.eqb f "k" then (k' ← as_string k x; Some (mk k' ns rs rk bd du sk os))
  else if String.eqb f "ns" then (ns' ← as_string ns x; Some (mk k ns' rs rk bd du sk os))
  else if String.eqb f "rs" then (rs' ← as_string rs x; Some (mk k ns rs' rk bd du sk os))
  else if String.eqb f "rank" then (rk' ← as_int64 rk x; Some (mk k ns rs rk' bd du sk os))
  else if String.eqb f "bound" then (bd' ← as_int64 bd x; Some (mk k ns rs rk bd' du sk os))
  else if String.eqb f "due" then (du' ← as_int64 du x; Some (mk k ns rs rk bd du' sk os))
  else if String.eqb f "sk" then (sk' ← as_string sk x; Some (mk k ns rs rk bd du sk' os))
  else if String.eqb f "os" then (os' ← as_string os x; Some (mk k ns rs rk bd du sk os'))
  else None.

Definition cursor_token (version : Z) (data : string) : string :=
  orderedCursorPrefix +:+ FormatInt version +:+ String "." (Base64.EncodeToString Base64.RawURLEncoding data).

(** [json.Marshal] of strings and integers does not fail. *)
Definition encodeOrderedCursor (payload : orderedCursorPayload) : res string :=
  Ok (cursor_token orderedCursorVersion (print_object (cursor_members payload))).

Definition splitOrderedCursorVersion (token : string) : option (Z * string) :=
  match CutPrefix token orderedCursorPrefix with
  | None => None
  | Some rest =>
      match Cut rest "." with
      | None => None
      | Some (digits, body) =>
          if decide (digits = EmptyString) then None
          else if negb (all_digits digits) then None
          else match ParseInt digits with
               | None => None
               | Some version => if decide (FormatInt version <> digits) then None
                                 else Some (version, body)
               end
      end
  end.

Inductive orderedSubjectFamily :=
  | orderedForeignSubject | orderedCounterSubjectFamily | orderedRecordSubjectFamily.

Section codec.
Context `{S : Storage}.

(** ** Subjects *)

Definition orderedStreamName (namespace : string) : res string :=
  guard? ValidateName namespace; Ok (orderedStreamPrefix +:+ encodeStream namespace).

Definition orderedNamespacePrefix (namespace : string) : res string :=
  guard? ValidateName namespace; Ok (orderedSubjectRoot +:+ String "." (encodeStream namespace)).

Definition orderedSubjectFilter (namespace : string) : res string :=
  prefix <-? orderedNamespacePrefix namespace; Ok (prefix +:+ ".>").

Definition orderedCounterSubject (namespace orderingScope : string) : res string :=
  prefix <-? orderedNamespacePrefix namespace;
  guard? ValidateName orderingScope;
  Ok (prefix +:+ String "." (orderedCounterToken +:+ String "." (encodeStream orderingScope))).

Definition orderedRecordSubject (id : OrderedID) : res string :=
  guard? ValidateOrderedID id;
  prefix <-? orderedNamespacePrefix (Namespace id);
  Ok (prefix +:+ String "." (orderedRecordToken +:+ String "."
       (encodeStream (OrderingScope id) +:+ String "." (orderedIdentityToken id)))).

(** ** Records *)

Definition encodeOrderedRecord (rec : OrderedRecord) : res string :=
  guard? ValidateOrderedRecord rec; Ok (print_object (payload_members (payload_of rec))).

Definition decodeOrderedRecord (subject data : string) : res OrderedRecord :=
  match Decode data with
  | None => Err (OrderedCodecError subject "malformed payload" (Some (Leaf "json")))
  | Some (v, rest) =>
      match decode_struct payload_field payload_fields zero_payload v with
      | None => Err (OrderedCodecError subject "malformed payload" (Some (Leaf "json")))
      | Some payload =>
          if More rest then Err (OrderedCodecError subject "trailing bytes after the payload" None)
          else if negb (p_Version payload =? orderedRecordVersion)%N then
            Err (OrderedCodecError subject
                   ("unsupported payload version " +:+ FormatUint (p_Version payload)) None)
          else
            let rec := record_of payload in
            match ValidateOrderedRecord rec with
            | Some err => Err (OrderedCodecError subject "payload violates the record contract" (Some err))
            | None =>
                match orderedRecordSubject (ID rec) with
                | Err err => Err (OrderedCodecError subject "payload identity has no subject" (Some err))
                | Ok want => if decide (want <> subject)
                             then Err (OrderedIdentityMismatchError subject want)
                             else Ok rec
                end
            end
      end
  end.

(** ** Classification *)

Definition classifyOrderedSubject (namespace subject : string) : res orderedSubjectFamily :=
  prefix <-? orderedNamespacePrefix namespace;
  match CutPrefix subject (prefix +:+ ".") with
  | None => Ok orderedForeignSubject
  | Some rest =>
      match Cut rest "." with
      | None => Ok orderedForeignSubject
      | Some (token, _) =>
          if decide (token = orderedCounterToken) then Ok orderedCounterSubjectFamily
          else if decide (token = orderedRecordToken) then Ok orderedRecordSubjectFamily
          else Ok orderedForeignSubject
      end
  end.

(** ** Cursor decoding *)

Definition decodeOrderedCursorPayload (kind token : string) : res orderedCursorPayload :=
  let reject rule := Err (InvalidOrderedCursorError kind token rule) in
  if decide (maxOrderedCursorBytes < String.length token) then reject OrderedCursorMalformed
  else match splitOrderedCursorVersion token with
  | None => reject OrderedCursorMalformed
  | Some (version, body) =>
      if negb (version =? orderedCursorVersion)%Z then reject OrderedCursorUnknownVersion
      else match Base64.DecodeString Base64.RawURLEncoding body with
      | None => reject OrderedCursorMalformed
      | Some data =>
          match Decode data with
          | None => reject OrderedCursorMalformed
          | Some (v, rest) =>
              match decode_struct cursor_field cursor_fields zero_cursor v with
              | None => reject OrderedCursorMalformed
              | Some payload =>
                  if More rest then reject OrderedCursorMalformed
                  else if decide (c_Kind payload <> kind) then
                    if bool_decide (c_Kind payload = RankedCursorKind) ||
                       bool_decide (c_Kind payload = DueCursorKind)
                    then reject OrderedCursorWrongKind else reject OrderedCursorMalformed
                  else Ok payload
              end
          end
      end
  end.

Definition orderedMalformedCursorToken (kind : string) : string :=
  "not-an-ordered-cursor-" +:+ kind +:+ "-token".

Definition orderedUnknownVersionCursorToken (kind : string) : string :=
  cursor_token (orderedCursorVersion + 1)
    (print_object (cursor_members
      {| c_Kind := kind; c_Namespace := "sessions"; c_RankingScope := EmptyString; c_Rank := 0;
         c_DueBound := 0; c_DueAt := 0; c_StableKey := EmptyString; c_OrderingScope := EmptyString |})).
End codec.

(** ** Struct round trips *)

(** A typed payload whose strings are UTF-8 is what the JSON round trip preserves. *)
Record payload_ok (p : orderedPayload) : Prop := {
  ok_version : (p_Version p < 256)%N; ok_ns : Utf8.utf8 (p_Namespace p);
  ok_os : Utf8.utf8 (p_OrderingScope p); ok_key : Utf8.utf8 (p_StableKey p);
  ok_rs : Utf8.utf8 (p_RankingScope p); ok_rev : u64 (p_Revision p); ok_order : u64 (p_Order p);
  ok_due_state : (p_DueState p < 256)%N; ok_due : i64 (p_DueUnixMillis p);
  ok_rank : i64 (p_RankValue p) }.

Lemma std_alphabet_ascii s :
  str_forallb Utf8.is_ascii (Base64.EncodeToString Base64.StdEncoding s) = true.
Proof.
  assert (H : forall n, (n < 64)%N -> Utf8.is_ascii (Base64.enc6 Base64.StdEncoding n) = true).
  { apply (Base64.sextet_all (fun n => Utf8.is_ascii (Base64.enc6 Base64.StdEncoding n))).
    vm_compute. reflexivity. }
  induction s as [|a|a b|a b c s IH] using Base64.triple_ind; [done|..].
  - pose proof (byte_n_lt a). unfold str1. cbn [Base64.EncodeToString str_forallb].
    rewrite !H by lia. done.
  - pose proof (byte_n_lt a). pose proof (byte_n_lt b).
    unfold str1. cbn [Base64.EncodeToString str_forallb]. rewrite !H by lia. done.
  - pose proof (byte_n_lt a). pose proof (byte_n_lt b). pose proof (byte_n_lt c).
    rewrite Base64.EncodeToString_cons3. cbv zeta. cbn [str_forallb]. rewrite !H by lia. by rewrite IH.
Qed.

Lemma u64_small n : (n < 256)%N -> u64 n.
Proof. unfold u64, two64. lia. Qed.

Lemma payload_members_ok p : payload_ok p -> Forall member_ok (payload_members p).
Proof.
  intros []. unfold payload_members, json_bytes.
  repeat first [apply Forall_nil | apply Forall_cons; split]; split; cbn [fst snd];
    try (apply Utf8.ascii_utf8; reflexivity); try (by constructor; auto using u64_small).
  destruct (p_Value p); constructor. apply Utf8.ascii_utf8, std_alphabet_ascii.
Qed.

Lemma as_bytes_json b : as_bytes (json_bytes b) = Some b.
Proof.
  destruct b as [s|]; [|done]. unfold json_bytes, as_bytes, jstr.
  by rewrite (Base64.DecodeString_EncodeToString Base64.StdEncoding).
Qed.

Lemma decode_payload p :
  payload_ok p ->
  decode_struct payload_field payload_fields zero_payload (JObj (payload_members p)) = Some p.
Proof.
  intros []. change (decode_members payload_field payload_fields (Some zero_payload) (payload_members p) = Some p).
  unfold payload_members, zero_payload.
  repeat (rewrite decode_members_cons by (apply resolve_known; vm_compute; reflexivity);
    cbv beta iota delta [payload_field]; cbn [String.eqb Ascii.eqb Bool.eqb];
    rewrite ?as_uint_format by (done || apply u64_small; done);
    rewrite ?as_string_jstr, ?as_int64_format, ?as_bytes_json by done; cbn [as_bool mbind option_bind]).
  by destruct p.
Qed.

(** A decoded payload has the Go types of its fields. *)
Definition payload_typed (p : orderedPayload) : Prop :=
  (p_Version p < 256)%N /\ u64 (p_Revision p) /\ u64 (p_Order p) /\ (p_DueState p < 256)%N /\
  i64 (p_DueUnixMillis p) /\ i64 (p_RankValue p).

Lemma decode_struct_typed v p :
  decode_struct payload_field payload_fields zero_payload v = Some p -> payload_typed p.
Proof.
  assert (H0 : payload_typed zero_payload) by (repeat split; cbn; done).
  destruct v; cbn [decode_struct]; try done; [by intros [= <-]|].
  apply (foldl_field_inv payload_typed); [|by intros ? [= <-]].
  intros [] f x r (?&?&?&?&?&?). unfold payload_field, payload_typed, u64 in *. cbn in *. intros H'.
  repeat (destruct (String.eqb f _); [|]); try done;
    apply bind_Some in H' as (y & Hy & [= <-]); cbn; split_and!; try done;
    eauto using as_uint_bound, as_int64_i64.
Qed.

(** ** Cursor round trip *)

Record cursor_ok (c : orderedCursorPayload) : Prop := {
  ok_kind : Utf8.utf8 (c_Kind c); ok_c_ns : Utf8.utf8 (c_Namespace c);
  ok_c_rs : Utf8.utf8 (c_RankingScope c); ok_c_rank : i64 (c_Rank c);
  ok_c_bound : i64 (c_DueBound c); ok_c_due : i64 (c_DueAt c);
  ok_c_sk : Utf8.utf8 (c_StableKey c); ok_c_os : Utf8.utf8 (c_OrderingScope c) }.

Lemma cursor_members_ok c : cursor_ok c -> Forall member_ok (cursor_members c).
Proof.
  intros []. unfold cursor_members, omit_str, omit_int.
  repeat (apply Forall_app; split); repeat case_decide;
    repeat first [apply Forall_nil_2 | apply Forall_cons; split]; split; cbn [fst snd];
    try (apply Utf8.ascii_utf8; reflexivity); by constructor.
Qed.

Lemma decode_members_app {P} (field : P -> string -> json -> option P) fields acc l1 l2 :
  decode_members field fields acc (l1 ++ l2) =
  decode_members field fields (decode_members field fields acc l1) l2.
Proof. apply foldl_app. Qed.

Lemma decode_omit_str {P} (field : P -> string -> json -> option P) fields p k s q :
  resolve fields k = Some k -> (s = EmptyString -> q = p) -> field p k (jstr s) = Some q ->
  decode_members field fields (Some p) (omit_str k s) = Some q.
Proof.
  intros Hk H0 Hf. unfold omit_str. case_decide as E; [by rewrite (H0 E)|].
  rewrite decode_members_cons by done. by rewrite Hf.
Qed.

Lemma decode_omit_int {P} (field : P -> string -> json -> option P) fields p k z q :
  resolve fields k = Some k -> (z = 0%Z -> q = p) -> field p k (JNum (FormatInt z)) = Some q ->
  decode_members field fields (Some p) (omit_int k z) = Some q.
Proof.
  intros Hk H0 Hf. unfold omit_int. case_decide as E; [by rewrite (H0 E)|].
  rewrite decode_members_cons by done. by rewrite Hf.
Qed.

Ltac known := apply resolve_known; vm_compute; reflexivity.
Ltac int_field :=
  unfold cursor_field; cbn [String.eqb Ascii.eqb Bool.eqb]; by rewrite as_int64_format.

Lemma decode_cursor c :
  cursor_ok c ->
  decode_struct cursor_field cursor_fields zero_cursor (JObj (cursor_members c)) = Some c.
Proof.
  intros []. destruct c as [k ns rs rk bd du sk os]. cbn in *.
  change (decode_members cursor_field cursor_fields (Some zero_cursor)
    (cursor_members (Build_orderedCursorPayload k ns rs rk bd du sk os))
    = Some (Build_orderedCursorPayload k ns rs rk bd du sk os)).
  unfold cursor_members. cbn [c_Kind c_Namespace c_RankingScope c_Rank c_DueBound c_DueAt c_StableKey c_OrderingScope].
  rewrite !decode_members_app.
  assert (Ehd : decode_members cursor_field cursor_fields (Some zero_cursor) [("k", jstr k); ("ns", jstr ns)]
    = Some (Build_orderedCursorPayload k ns EmptyString 0%Z 0%Z 0%Z EmptyString EmptyString)) by reflexivity.
  rewrite Ehd.
  rewrite (decode_omit_str _ _ _ _ _ (Build_orderedCursorPayload k ns rs 0%Z 0%Z 0%Z EmptyString EmptyString)) by (known || done || by intros ->).
  rewrite (decode_omit_int _ _ _ _ _ (Build_orderedCursorPayload k ns rs rk 0%Z 0%Z EmptyString EmptyString));
    [|known|by intros ->|int_field].
  rewrite (decode_omit_int _ _ _ _ _ (Build_orderedCursorPayload k ns rs rk bd 0%Z EmptyString EmptyString));
    [|known|by intros ->|int_field].
  rewrite (decode_omit_int _ _ _ _ _ (Build_orderedCursorPayload k ns rs rk bd du EmptyString EmptyString));
    [|known|by intros ->|int_field].
  reflexivity.
Qed.

Lemma split_cursor_token version data :
  (0 <= version)%Z -> i64 version ->
  splitOrderedCursorVersion (cursor_token version data) =
    Some (version, Base64.EncodeToString Base64.RawURLEncoding data).
Proof.
  intros H0 Hi. unfold splitOrderedCursorVersion, cursor_token. rewrite CutPrefix_app.
  assert (E : FormatInt version = FormatUint (Z.to_N version)).
  { unfold FormatInt. destruct (Z.ltb_spec version 0); [lia|done]. }
  assert (Hd : all_digits (FormatInt version) = true) by (rewrite E; apply FormatUint_digits).
  rewrite Cut_app.
  - rewrite decide_False by (rewrite E; destruct (FormatUint_nonempty (Z.to_N version)) as (?&?&->); done).
    rewrite Hd. cbn [negb]. rewrite ParseInt_FormatInt by done. by rewrite decide_False by tauto.
  - eapply str_forallb_impl; [|exact Hd]. intros c Hc. apply bool_decide_eq_true. by intros ->.
Qed.

Lemma print_object_decode l :
  l <> [] -> Forall member_ok l -> Decode (print_object l) = Some (JObj l, EmptyString).
Proof. intros. rewrite <- (str_app_nil_r (print_object l)). by apply parse_print_object. Qed.

Section facts.
Context {S : Storage} {L : StorageLaws S}.

Lemma payload_of_ok rec :
  ValidateOrderedRecord rec = None -> typed_record rec -> payload_ok (payload_of rec).
Proof.
  intros (Hns & Hos & Hrs & Hkey)%valid_record_names (?&?&?&?&?).
  split; cbn; try done; first [by apply valid_name_utf8 | by apply Utf8.ValidString_utf8].
Qed.

Lemma record_of_payload_of rec : record_of (payload_of rec) = rec.
Proof. by destruct rec as [[] ? ? ? [] [] ? ?]. Qed.

(** What the decoder answers on an encoded record followed by [rest]. *)
Lemma decode_encoded rec subj rest :
  ValidateOrderedRecord rec = None -> typed_record rec -> orderedRecordSubject (ID rec) = Ok subj ->
  decodeOrderedRecord subj (print_object (payload_members (payload_of rec)) +:+ rest) =
  if More rest then Err (OrderedCodecError subj "trailing bytes after the payload" None) else Ok rec.
Proof.
  intros Hv Ht Hs. pose proof (payload_of_ok _ Hv Ht) as Hok. unfold decodeOrderedRecord.
  rewrite parse_print_object by (done || by apply payload_members_ok).
  rewrite decode_payload by done. destruct (More rest); [done|].
  cbn [p_Version payload_of]. change (negb (orderedRecordVersion =? orderedRecordVersion)%N) with false.
  cbv iota zeta. rewrite record_of_payload_of, Hv, Hs. by rewrite decide_False by tauto.
Qed.

Lemma decode_encodeOrderedRecord rec data subj :
  encodeOrderedRecord rec = Ok data -> typed_record rec -> orderedRecordSubject (ID rec) = Ok subj ->
  decodeOrderedRecord subj data = Ok rec.
Proof.
  unfold encodeOrderedRecord. intros H Ht Hs. destruct (ValidateOrderedRecord rec) eqn:Hv; [done|].
  injection H as <-. rewrite <- (str_app_nil_r (print_object _)). by rewrite decode_encoded.
Qed.

(** The four gates: an accepted record is valid, typed, and belongs to its subject. *)
Lemma decodeOrderedRecord_Ok subject data rec :
  decodeOrderedRecord subject data = Ok rec ->
  ValidateOrderedRecord rec = None /\ typed_record rec /\ orderedRecordSubject (ID rec) = Ok subject.
Proof.
  unfold decodeOrderedRecord. intros H.
  destruct (Decode data) as [[v rest]|]; [|done].
  destruct (decode_struct _ _ _ v) as [p|] eqn:Ep; [|done].
  destruct (More rest); [done|]. destruct (negb _); [done|]. cbv zeta in H.
  destruct (ValidateOrderedRecord _) eqn:Ev; [done|].
  destruct (orderedRecordSubject _) as [want|] eqn:Es; [|done].
  case_decide as Hw; [done|]. injection H as <-. subst want. split_and!; [done| |done].
  apply decode_struct_typed in Ep as (?&?&?&?&?&?). done.
Qed.

Lemma record_subject_exists rec :
  ValidateOrderedRecord rec = None -> exists subj, orderedRecordSubject (ID rec) = Ok subj.
Proof.
  intros Hv. destruct (ValidateOrderedRecord_id _ Hv) as [Hid _].
  destruct (ValidateOrderedID_names _ Hid) as [Hns _].
  unfold orderedRecordSubject, orderedNamespacePrefix. rewrite Hid, Hns. eauto.
Qed.

(** ** Subject families *)

Definition no_dot (s : string) : bool := str_forallb (fun c => bool_decide (c <> "."%char)) s.

Lemma encodeStream_no_dot s : no_dot (encodeStream s) = true.
Proof.
  rewrite encodeStream_flat. apply (flat_str_forallb (fun _ => true)).
  - intros c _. unfold stream_esc. repeat case_decide; try done. cbn.
    by rewrite bool_decide_eq_true_2.
  - by induction s.
Qed.

(** A dot-free token before a dot is determined by the whole string. *)
Lemma token_split a b x y :
  no_dot a = true -> no_dot b = true -> a +:+ String "." x = b +:+ String "." y -> a = b /\ x = y.
Proof.
  intros Ha Hb E. pose proof (Cut_app a "." x Ha) as H. rewrite E, (Cut_app b "." y Hb) in H.
  by simplify_eq.
Qed.

Definition family_subject (ns token rest : string) : string :=
  (orderedSubjectRoot +:+ String "." (encodeStream ns)) +:+ String "." (token +:+ String "." rest).

Lemma classify_family ns ns' token rest :
  ValidateName ns' = None -> no_dot token = true ->
  classifyOrderedSubject ns' (family_subject ns token rest) =
  if decide (ns' = ns) then
    if decide (token = orderedCounterToken) then Ok orderedCounterSubjectFamily
    else if decide (token = orderedRecordToken) then Ok orderedRecordSubjectFamily
    else Ok orderedForeignSubject
  else Ok orderedForeignSubject.
Proof.
  intros Hns Htok. unfold classifyOrderedSubject, orderedNamespacePrefix. rewrite Hns.
  unfold family_subject. case_decide as E.
  - subst. change (String "." (token +:+ String "." rest)) with ("." +:+ token +:+ String "." rest).
    rewrite <- (str_app_assoc _ "."), CutPrefix_app. by rewrite Cut_app.
  - destruct (CutPrefix _ _) as [r|] eqn:Ec; [|done]. exfalso. apply E.
    apply CutPrefix_Some in Ec. rewrite !str_app_assoc in Ec. apply str_app_inv_head in Ec.
    rewrite !str_cons_app in Ec. injection Ec as Ec. rewrite str_app_nil_l in Ec.
    apply token_split in Ec as [Ec _]; [|apply encodeStream_no_dot..]. symmetry. by apply encodeStream_inj.
Qed.

Lemma counter_subject_family ns os s :
  orderedCounterSubject ns os = Ok s -> s = family_subject ns orderedCounterToken (encodeStream os).
Proof.
  unfold orderedCounterSubject, orderedNamespacePrefix. intros H.
  repeat (case_match; try done); by simplify_eq.
Qed.

Lemma record_subject_family id s :
  orderedRecordSubject id = Ok s ->
  s = family_subject (Namespace id) orderedRecordToken
        (encodeStream (OrderingScope id) +:+ String "." (orderedIdentityToken id)).
Proof.
  unfold orderedRecordSubject, orderedNamespacePrefix. intros H.
  repeat (case_match; try done); by simplify_eq.
Qed.

Lemma family_subject_inj ns ns' t t' x y :
  no_dot t = true -> no_dot t' = true ->
  family_subject ns t x = family_subject ns' t' y -> ns = ns' /\ t = t' /\ x = y.
Proof.
  intros Ht Ht' E. unfold family_subject in E. rewrite !str_app_assoc in E.
  apply str_app_inv_head in E. rewrite !str_cons_app in E. injection E as E.
  apply token_split in E as [E1 E2]; [|apply encodeStream_no_dot..].
  apply token_split in E2 as [-> ->]; [|done..]. by apply encodeStream_inj in E1.
Qed.

(** Counter subjects address scopes injectively, and never a record. *)
Lemma counter_subject_inj ns os ns' os' s :
  orderedCounterSubject ns os = Ok s -> orderedCounterSubject ns' os' = Ok s -> ns = ns' /\ os = os'.
Proof.
  intros ->%counter_subject_family E%counter_subject_family.
  apply family_subject_inj in E as (-> & _ & E); [|done..]. by apply encodeStream_inj in E.
Qed.

Lemma counter_record_distinct ns os id s :
  orderedCounterSubject ns os = Ok s -> orderedRecordSubject id <> Ok s.
Proof.
  intros ->%counter_subject_family E%record_subject_family.
  by apply family_subject_inj in E as (_ & E & _).
Qed.

(** Two identities on one subject agree on the namespace and the ordering scope. *)
Lemma record_subject_scope id id' s :
  orderedRecordSubject id = Ok s -> orderedRecordSubject id' = Ok s ->
  Namespace id = Namespace id' /\ OrderingScope id = OrderingScope id'.
Proof.
  intros ->%record_subject_family E%record_subject_family.
  apply family_subject_inj in E as (-> & _ & E); [|done..].
  apply token_split in E as [E _]; [|apply encodeStream_no_dot..]. by apply encodeStream_inj in E.
Qed.

Lemma upper_not_in_subject n : str_forallb name_byte n = true ->
  str_forallb (fun c => bool_decide (c <> "O"%char)) (encodeSubject n) = true.
Proof.
  rewrite encodeSubject_flat. apply flat_str_forallb. intros c Hc.
  destruct c as [[][][][][][][][]]; try discriminate Hc; reflexivity.
Qed.

Lemma upper_not_in_stream n : str_forallb name_byte n = true ->
  str_forallb (fun c => bool_decide (c <> "O"%char)) (encodeStream n) = true.
Proof.
  intros H. eapply str_forallb_impl; [|by apply encodeStream_bytes].
  intros c Hc. apply bool_decide_eq_true. by intros ->.
Qed.

Lemma decode_issued_cursor payload :
  cursor_ok payload ->
  String.length (cursor_token orderedCursorVersion (print_object (cursor_members payload)))
    <= maxOrderedCursorBytes ->
  decodeOrderedCursorPayload (c_Kind payload)
    (cursor_token orderedCursorVersion (print_object (cursor_members payload))) = Ok payload.
Proof.
  intros Hok Hlen. unfold decodeOrderedCursorPayload. rewrite decide_False by lia.
  rewrite split_cursor_token by done. change (negb (orderedCursorVersion =? orderedCursorVersion)%Z) with false.
  cbv iota. rewrite (Base64.DecodeString_EncodeToString Base64.RawURLEncoding).
  rewrite print_object_decode by (done || by apply cursor_members_ok).
  rewrite decode_cursor by done. by rewrite decide_False by tauto.
Qed.

Lemma frame_inj a b x y :
  u64 (N.of_nat (String.length a)) -> u64 (N.of_nat (String.length b)) ->
  frame a +:+ x = frame b +:+ y -> a = b /\ x = y.
Proof.
  intros Ha Hb E. unfold frame in E. rewrite !str_app_assoc in E.
  apply str_app_length_inj in E as [E1 E2]; [|by rewrite !Sha256.be_bytes_length].
  apply Sha256.be_bytes_inj in E1; [|done..]. apply Nat2N.inj in E1.
  by apply str_app_length_inj in E2.
Qed.

Lemma identity_preimage_inj id1 id2 :
  (forall p, p ∈ [Namespace id1; OrderingScope id1; StableKey id1;
                  Namespace id2; OrderingScope id2; StableKey id2] ->
     u64 (N.of_nat (String.length p))) ->
  identity_preimage id1 = identity_preimage id2 -> id1 = id2.
Proof.
  unfold identity_preimage. intros Hlen E. apply str_app_inv_head in E.
  apply frame_inj in E as [E1 E]; [|apply Hlen; rewrite !elem_of_cons; tauto..].
  apply frame_inj in E as [E2 E]; [|apply Hlen; rewrite !elem_of_cons; tauto..].
  rewrite <- (str_app_nil_r (frame (StableKey id1))), <- (str_app_nil_r (frame (StableKey id2))) in E.
  apply frame_inj in E as [E3 _]; [|apply Hlen; rewrite !elem_of_cons; tauto..].
  destruct id1, id2. cbn in *. by subst.
Qed.

Lemma decode_counter n : u64 n -> n <> 0%N -> decodeOrderedCounter (encodeOrderedCounter n) = Ok n.
Proof.
  intros Hu Hn. unfold decodeOrderedCounter, encodeOrderedCounter. rewrite ParseUint_FormatUint by done.
  destruct (N.eqb_spec n 0); [done|]. by rewrite decide_False by tauto.
Qed.

(** ** Properties *)

(** C12. Round trip: an encoded record decodes, from its own subject, to exactly itself. *)
Theorem encodeOrderedRecord_roundtrip rec data :
  encodeOrderedRecord rec = Ok data -> typed_record rec ->
  exists subj, orderedRecordSubject (ID rec) = Ok subj /\ decodeOrderedRecord subj data = Ok rec.
Proof.
  intros He Ht. destruct (record_subject_exists rec) as [subj Hs].
  { unfold encodeOrderedRecord in He. by destruct (ValidateOrderedRecord rec). }
  exists subj. split; [done|]. by eapply decode_encodeOrderedRecord.
Qed.

(** C31. The decoding gates, for arbitrary stored bytes: whatever is accepted satisfies
    the storage contract, its own identity hashes to the subject it was read from, and
    acceptance is closed under re-encoding. *)
Theorem decodeOrderedRecord_gates subject data rec :
  decodeOrderedRecord subject data = Ok rec ->
  ValidateOrderedRecord rec = None /\
  orderedRecordSubject (ID rec) = Ok subject /\
  exists data', encodeOrderedRecord rec = Ok data' /\ decodeOrderedRecord subject data' = Ok rec.
Proof.
  intros (Hv & Ht & Hs)%decodeOrderedRecord_Ok. split_and!; [done..|].
  assert (He : encodeOrderedRecord rec = Ok (print_object (payload_members (payload_of rec))))
    by (unfold encodeOrderedRecord; by rewrite Hv).
  eexists. split; [exact He|]. by eapply decode_encodeOrderedRecord.
Qed.

(** C37. The trailing-bytes gate is [Decoder.More], which does not see a closing bracket
    or brace: a stored payload followed by a closing bracket and anything at all is still
    accepted. *)
Theorem decodeOrderedRecord_trailing_bracket rec data subj junk :
  encodeOrderedRecord rec = Ok data -> typed_record rec -> orderedRecordSubject (ID rec) = Ok subj ->
  decodeOrderedRecord subj (data +:+ String "]" junk) = Ok rec.
Proof.
  unfold encodeOrderedRecord. intros H Ht Hs. destruct (ValidateOrderedRecord rec) eqn:Hv; [done|].
  injection H as <-. by rewrite decode_encoded.
Qed.

(** The counter codec: a payload decodes to an order precisely when the order is a
    nonzero [uint64] and the payload is its canonical rendering. *)
Theorem decodeOrderedCounter_iff data n :
  decodeOrderedCounter data = Ok n <-> data = encodeOrderedCounter n /\ u64 n /\ n <> 0%N.
Proof.
  unfold decodeOrderedCounter, encodeOrderedCounter. split.
  - destruct (ParseUint data) as [m| |] eqn:E; [|done..]. destruct (N.eqb_spec m 0); [done|].
    case_decide as Hc; [done|]. intros [= <-]. split_and!; [done|by eapply ParseUint_u64|done].
  - intros (-> & Hu & Hn). by apply decode_counter.
Qed.

(** The identity token is injective up to a SHA-256 collision: two identities share a
    token only when they are equal, or when their length-framed preimages are two
    distinct byte strings with one digest. *)
Theorem orderedIdentityToken_collision id1 id2 :
  (forall p, p ∈ [Namespace id1; OrderingScope id1; StableKey id1;
                  Namespace id2; OrderingScope id2; StableKey id2] ->
     u64 (N.of_nat (String.length p))) ->
  (identity_preimage id1 = identity_preimage id2 <-> id1 = id2) /\
  (orderedIdentityToken id1 = orderedIdentityToken id2 <->
     id1 = id2 \/
     (identity_preimage id1 <> identity_preimage id2 /\
      Sha256.Sum256 (identity_preimage id1) = Sha256.Sum256 (identity_preimage id2))).
Proof.
  intros Hlen. assert (Hi : identity_preimage id1 = identity_preimage id2 <-> id1 = id2).
  { split; [|by intros ->]. apply identity_preimage_inj, Hlen. }
  split; [done|]. unfold orderedIdentityToken. split.
  - intros H%(Base64.EncodeToString_inj Base64.RawURLEncoding).
    destruct (decide (id1 = id2)); [by left|right]. split; [by rewrite Hi|done].
  - by intros [->|[_ ->]].
Qed.

(** Subject classification: within its own namespace a counter subject and a record
    subject are recognised as such, and from any other namespace both are foreign. *)
Theorem classifyOrderedSubject_complete id counter record ns :
  orderedCounterSubject (Namespace id) (OrderingScope id) = Ok counter ->
  orderedRecordSubject id = Ok record ->
  ValidateName ns = None ->
  counter <> record /\
  classifyOrderedSubject ns counter =
    Ok (if decide (ns = Namespace id) then orderedCounterSubjectFamily else orderedForeignSubject) /\
  classifyOrderedSubject ns record =
    Ok (if decide (ns = Namespace id) then orderedRecordSubjectFamily else orderedForeignSubject).
Proof.
  intros Hc Hr Hns. split; [intros ->; by eapply counter_record_distinct|].
  apply counter_subject_family in Hc as ->. apply record_subject_family in Hr as ->.
  rewrite !classify_family by done. split; case_decide; done.
Qed.

(** The ordered namespace cannot alias a ledger: no ledger subject begins with the
    ordered root, and no ledger stream is an ordered stream. *)
Theorem ordered_ledger_disjoint n m subj stream :
  subjectForName n = Ok subj -> streamForName n = Ok stream ->
  CutPrefix subj (orderedSubjectRoot +:+ ".") = None /\ orderedStreamName m <> Ok stream.
Proof.
  unfold subjectForName, streamForName. destruct (ValidateName n) eqn:En; [done|].
  intros [= <-] [= <-]. apply ValidateName_bytes in En. split.
  - destruct (CutPrefix _ _) eqn:E; [|done]. apply CutPrefix_Some in E.
    pose proof (upper_not_in_subject n En) as H. rewrite E in H. done.
  - unfold orderedStreamName. intros H. destruct (ValidateName m); [done|].
    injection H as H. pose proof (upper_not_in_stream n En) as Hs. rewrite <- H in Hs. done.
Qed.

(** Cursor round trip: an issued token decodes, for its own kind, to the position it
    was issued for, within the length cap. *)
Theorem decodeOrderedCursorPayload_roundtrip payload token :
  encodeOrderedCursor payload = Ok token -> cursor_ok payload ->
  String.length token <= maxOrderedCursorBytes ->
  decodeOrderedCursorPayload (c_Kind payload) token = Ok payload.
Proof.
  intros [= <-] Hok Hlen. apply decode_issued_cursor; done.
Qed.

(** Every rejected token is classified, for the kind that was asked for, under one of
    the three rules this decoder owns; an accepted token is of that kind. *)
Theorem decodeOrderedCursorPayload_classified kind token :
  match decodeOrderedCursorPayload kind token with
  | Ok payload => c_Kind payload = kind
  | Err e => exists rule, e = InvalidOrderedCursorError kind token rule /\
                          rule <> OrderedCursorQueryMismatch
  end.
Proof.
  unfold decodeOrderedCursorPayload.
  repeat (case_match; try done); simplify_eq; first [by eauto | by apply dec_stable].
Qed.
End facts.

(** ** Witnesses, at the executable instance of the storage contract *)

Existing Instance Reference.reference.

Definition sample_id : OrderedID :=
  {| Namespace := "work/q1"; OrderingScope := "lane_a"; StableKey := "job<1>" |}.
Definition sample_rec : OrderedRecord :=
  {| ID := sample_id; RankingScope := "prio"; Revision := 2; Order := 7;
     DueOf := {| DueStateOf := 1; UnixMillis := -5 |};
     RankOf := {| Ranked := true; RankVal := 40 |}; Value := Some "payload"; Deleted := false |}.
Definition get_ok {A} (d : A) (r : res A) : A := match r with Ok a => a | Err _ => d end.
Definition sample_data : string := get_ok EmptyString (encodeOrderedRecord sample_rec).
Definition sample_subject : string := get_ok EmptyString (orderedRecordSubject sample_id).
Definition sample_counter : string := get_ok EmptyString (orderedCounterSubject "work/q1" "lane_a").
Definition sample_cursor : orderedCursorPayload :=
  {| c_Kind := "ranked"; c_Namespace := "work/q1"; c_RankingScope := "prio"; c_Rank := 40;
     c_DueBound := 0; c_DueAt := 0; c_StableKey := "job<1>"; c_OrderingScope := "lane_a" |}.
Definition sample_token : string := get_ok EmptyString (encodeOrderedCursor sample_cursor).

Lemma sample_typed : typed_record sample_rec.
Proof. vm_compute. repeat split; discriminate. Qed.
Lemma sample_cursor_ok : cursor_ok sample_cursor.
Proof.
  split; try (apply Utf8.ascii_utf8; reflexivity); vm_compute; split; discriminate.
Qed.

Theorem encodeOrderedRecord_roundtrip_witness :
  exists subj, orderedRecordSubject sample_id = Ok subj /\
               decodeOrderedRecord subj sample_data = Ok sample_rec.
Proof.
  apply (encodeOrderedRecord_roundtrip sample_rec sample_data);
    [vm_compute; reflexivity | exact sample_typed].
Defined.

Theorem decodeOrderedRecord_gates_witness :
  ValidateOrderedRecord sample_rec = None.
Proof.
  refine (proj1 (decodeOrderedRecord_gates sample_subject sample_data sample_rec _)).
  vm_compute. reflexivity.
Defined.

Theorem decodeOrderedRecord_trailing_bracket_witness :
  decodeOrderedRecord sample_subject (sample_data +:+ "]x{") = Ok sample_rec.
Proof.
  apply (decodeOrderedRecord_trailing_bracket sample_rec sample_data sample_subject "x{");
    [vm_compute; reflexivity | exact sample_typed | vm_compute; reflexivity].
Defined.

Definition other_id : OrderedID :=
  {| Namespace := "work/q1"; OrderingScope := "lane_"; StableKey := "ajob<1>" |}.
(** A second record of [sample_id]'s scope. *)
Definition second_id : OrderedID :=
  {| Namespace := "work/q1"; OrderingScope := "lane_a"; StableKey := "job2" |}.

Theorem orderedIdentityToken_collision_witness :
  identity_preimage sample_id = identity_preimage other_id <-> sample_id = other_id.
Proof.
  refine (proj1 (orderedIdentityToken_collision sample_id other_id _)).
  intros p Hp. repeat (apply elem_of_cons in Hp as [->|Hp]; [vm_compute; reflexivity|]).
  by apply elem_of_nil in Hp.
Defined.

Theorem classifyOrderedSubject_complete_witness :
  classifyOrderedSubject "work/q1" sample_counter = Ok orderedCounterSubjectFamily.
Proof.
  refine (proj1 (proj2 (classifyOrderedSubject_complete sample_id sample_counter sample_subject
    "work/q1" _ _ _))); vm_compute; reflexivity.
Defined.

Theorem ordered_ledger_disjoint_witness :
  CutPrefix "work.q1" (orderedSubjectRoot +:+ ".") = None.
Proof.
  refine (proj1 (ordered_ledger_disjoint "work/q1" "work/q1" "work.q1" "work_sq1" _ _));
    vm_compute; reflexivity.
Defined.

Theorem decodeOrderedCursorPayload_roundtrip_witness :
  decodeOrderedCursorPayload "ranked" sample_token = Ok sample_cursor.
Proof.
  refine (decodeOrderedCursorPayload_roundtrip sample_cursor sample_token _ sample_cursor_ok _);
    [vm_compute; reflexivity | vm_compute; lia].
Defined.

End Codec.
