(* ===== verification/Prog.v ===== *)
(** * Programs that call a shared service, and their interleavings.

    A method of the package that talks to JetStream is a tree of calls: [Vis e k] issues
    the call [e] and continues with its reply.  The tree is inductive, so every program
    terminates once each of its calls returns.  Three readings of a tree are given: [run]
    against an executable service, [exec] as the set of its call/reply traces, and [step]
    as one thread of a pool whose threads interleave at every call.  [wp] is a
    rely/guarantee predicate transformer, and [pool_sound] carries it to any schedule of
    any number of threads, started at any time. *)

From S2P Require Import Prelude GoText Storage.
Open Scope stdpp_scope.

Section prog.
Context {E : Type} {R : E -> Type}.

Inductive prog (A : Type) : Type :=
  | Ret (a : A)
  | Vis (e : E) (k : R e -> prog A).
Arguments Ret {A} a.
Arguments Vis {A} e k.

Fixpoint bind {A B} (p : prog A) (f : A -> prog B) : prog B :=
  match p with Ret a => f a | Vis e k => Vis e (fun r => bind (k r) f) end.

Definition call (e : E) : prog (R e) := Vis e (fun r => Ret r).

(** Go's [x, err := f(); if err != nil { return err }]. *)
Definition bind_res {A B} (p : prog (res A)) (f : A -> prog (res B)) : prog (res B) :=
  bind p (fun r => match r with Ok a => f a | Err e => Ret (Err e) end).

(** ** Running against an executable service *)

Fixpoint run {A S} (h : forall e, S -> R e * S) (p : prog A) (s : S) : A * S :=
  match p with
  | Ret a => (a, s)
  | Vis e k => let (r, s') := h e s in run h (k r) s'
  end.

Lemma run_bind {A B S} (h : forall e, S -> R e * S) (p : prog A) (f : A -> prog B) s :
  run h (bind p f) s = let (a, s') := run h p s in run h (f a) s'.
Proof. revert s. induction p as [a|e k IH]; intros s; cbn; [done|]. destruct (h e s). apply IH. Qed.

(** ** Traces *)

Definition ans : Type := {e : E & R e}.

Fixpoint exec {A} (p : prog A) (tr : list ans) (a : A) : Prop :=
  match p with
  | Ret x => tr = [] /\ a = x
  | Vis e k => exists r tr', tr = existT e r :: tr' /\ exec (k r) tr' a
  end.

Lemma exec_bind {A B} (p : prog A) (f : A -> prog B) tr b :
  exec (bind p f) tr b <->
  exists a tr1 tr2, tr = tr1 ++ tr2 /\ exec p tr1 a /\ exec (f a) tr2 b.
Proof.
  revert tr. induction p as [x|e k IH]; intros tr; cbn.
  - split; [intros H; by exists x, [], tr|]. by intros (a & ? & tr2 & -> & [-> ->] & H).
  - split.
    + intros (r & tr' & -> & (a & tr1 & tr2 & -> & H1 & H2)%IH). exists a, (existT e r :: tr1), tr2.
      split_and!; [done| |done]. by exists r, tr1.
    + intros (a & tr1 & tr2 & -> & (r & tr' & -> & H1) & H2). exists r, (tr' ++ tr2).
      split; [done|]. apply IH. by exists a, tr', tr2.
Qed.

Lemma exec_call e tr r : exec (call e) tr r <-> tr = [existT e r].
Proof. cbn. split; [by intros (?&?&->&->&->)|]. intros ->. by exists r, []. Qed.

(** The trace a run leaves. *)
Fixpoint trace_of {A S} (h : forall e, S -> R e * S) (p : prog A) (s : S) : list ans :=
  match p with
  | Ret _ => []
  | Vis e k => let (r, s') := h e s in existT e r :: trace_of h (k r) s'
  end.

Lemma exec_trace_of {A S} (h : forall e, S -> R e * S) (p : prog A) s :
  exec p (trace_of h p s) (fst (run h p s)).
Proof.
  revert s. induction p as [a|e k IH]; intros s; cbn; [done|]. destruct (h e s) as [r s'].
  exists r, (trace_of h (k r) s'). split; [done|]. apply IH.
Qed.

(** At most [n] calls satisfying [f], whatever the replies. *)
Fixpoint at_most {A} (f : E -> bool) (n : nat) (p : prog A) : Prop :=
  match p with
  | Ret _ => True
  | Vis e k => if f e then match n with 0 => False | S n' => forall r, at_most f n' (k r) end
               else forall r, at_most f n (k r)
  end.

Lemma at_most_mono {A} f n m (p : prog A) : n <= m -> at_most f n p -> at_most f m p.
Proof.
  revert n m. induction p as [|e k IH]; intros n m Hnm; cbn; [done|].
  destruct (f e); [|by intros H r; apply (IH r n)].
  destruct n as [|n]; [done|]. destruct m as [|m]; [lia|]. intros H r. apply (IH r n); [lia|done].
Qed.

Lemma at_most_bind {A B} f n m (p : prog A) (g : A -> prog B) :
  at_most f n p -> (forall a, at_most f m (g a)) -> at_most f (n + m) (bind p g).
Proof.
  revert n. induction p as [a|e k IH]; intros n; cbn.
  - intros _ H. eapply at_most_mono; [|apply H]. lia.
  - destruct (f e); [|by intros H ? r; apply IH].
    destruct n as [|n]; [done|]. cbn. intros H ? r. by apply IH.
Qed.

Lemma at_most_exec {A} f n (p : prog A) tr a :
  at_most f n p -> exec p tr a -> length (filter (fun x => f (projT1 x)) tr) <= n.
Proof.
  revert n tr. induction p as [x|e k IH]; intros n tr; cbn.
  - intros _ [-> _]. cbn. lia.
  - intros H (r & tr' & -> & He). destruct (f e) eqn:Ef.
    + destruct n as [|n]; [done|]. rewrite filter_cons_True by (cbn [projT1]; by rewrite Ef).
      apply le_n_S. by apply (IH r n tr').
    + rewrite filter_cons_False by (cbn [projT1]; rewrite Ef; by intros []). by apply (IH r n tr').
Qed.

(** Every call the program can make satisfies [P], when the replies satisfy [rok]. *)
Fixpoint every {A} (rok : forall e, R e -> Prop) (P : E -> Prop) (p : prog A) : Prop :=
  match p with Ret _ => True | Vis e k => P e /\ forall r, rok e r -> every rok P (k r) end.

Lemma every_bind {A B} rok P (p : prog A) (f : A -> prog B) :
  every rok P p -> (forall a, every rok P (f a)) -> every rok P (bind p f).
Proof. induction p as [a|e k IH]; cbn; [auto|]. intros [HP Hk] Hf. split; auto. Qed.

Lemma every_exec {A} (P : E -> Prop) (p : prog A) tr a :
  every (fun _ _ => True) P p -> exec p tr a -> Forall (fun x => P (projT1 x)) tr.
Proof.
  revert tr. induction p as [x|e k IH]; intros tr; cbn; [by intros _ [-> _]|].
  intros [He Hk] (r & tr' & -> & H). constructor; [done|]. by apply (IH r); [apply Hk|].
Qed.

(** ** Interleavings *)

Context {S : Type}.
(** The service: [handle e s r s'] when [e], issued at [s], may reply [r] and leave [s']. *)
Context (handle : forall e, S -> R e -> S -> Prop).

Definition thread_step {A} (p : prog A) (s : S) (p' : prog A) (s' : S) : Prop :=
  match p with Ret _ => False | Vis e k => exists r, handle e s r s' /\ p' = k r end.

(** A pool of threads: each carries its tag (the method and arguments it runs), the state
    in which it started, and the program it has left.  One step is one call of one
    thread, or the start of a new thread. *)
Section pool.
Context {T A : Type} (body : T -> prog A) (allowed : T -> Prop).

Definition thread : Type := T * S * prog A.

Inductive pool_step : list thread * S -> list thread * S -> Prop :=
  | pool_call ts s i t s0 p p' s' :
      ts !! i = Some (t, s0, p) -> thread_step p s p' s' ->
      pool_step (ts, s) (<[i := (t, s0, p')]> ts, s')
  | pool_spawn ts s t : allowed t -> pool_step (ts, s) (ts ++ [(t, s, body t)], s).
End pool.

(** One thread that runs to its end while the others wait. *)
Fixpoint runs {A} (p : prog A) (s : S) (a : A) (s' : S) : Prop :=
  match p with
  | Ret x => a = x /\ s' = s
  | Vis e k => exists r s1, handle e s r s1 /\ runs (k r) s1 a s'
  end.

Lemma runs_bind {A B} (p : prog A) (f : A -> prog B) s a s1 b s' :
  runs p s a s1 -> runs (f a) s1 b s' -> runs (bind p f) s b s'.
Proof.
  revert s. induction p as [x|e k IH]; intros s; cbn; [by intros [-> ->]|].
  intros (r & s2 & Hh & Hr) Hf. exists r, s2. split; [done|]. by eapply IH.
Qed.

Lemma runs_thread {T A} (body : T -> prog A) (allowed : T -> Prop) t s0 p s a s' ts i :
  ts !! i = Some (t, s0, p) -> runs p s a s' ->
  exists ts', rtc (pool_step body allowed) (ts, s) (ts', s') /\ length ts' = length ts.
Proof.
  revert s ts. induction p as [x|e k IH]; intros s ts Hi; cbn.
  - intros [_ ->]. exists ts. by split; [|].
  - intros (r & s1 & Hh & Hr).
    destruct (IH r s1 (<[i := (t, s0, k r)]> ts)) as (ts' & Hs & Hl); [|done|].
    + apply list_lookup_insert_eq. by eapply lookup_lt_Some.
    + exists ts'. split; [|by rewrite Hl, length_insert]. eapply rtc_l; [|exact Hs].
      econstructor; [exact Hi|]. by exists r.
Qed.

Lemma runs_spawned {T A} (body : T -> prog A) (allowed : T -> Prop) t s a s' ts :
  allowed t -> runs (body t) s a s' -> exists ts', rtc (pool_step body allowed) (ts, s) (ts', s').
Proof.
  intros Ht Hr. destruct (runs_thread body allowed t s (body t) s a s' (ts ++ [(t, s, body t)]) (length ts)) as (ts' & H & _);
    [by apply list_lookup_middle|done|].
  exists ts'. eapply rtc_l; [by apply pool_spawn|done].
Qed.

(** ** Rely/guarantee *)

Context (rely guar : S -> S -> Prop).

(** Between two calls the service moves by [rely]; each own call must be a [guar]. *)
Fixpoint wp {A} (p : prog A) (Q : A -> S -> Prop) (s : S) : Prop :=
  match p with
  | Ret a => forall s', rely s s' -> Q a s'
  | Vis e k => forall s1, rely s s1 -> forall r s2, handle e s1 r s2 -> guar s1 s2 /\ wp (k r) Q s2
  end.

Context `{!Transitive rely, !Reflexive rely}.

Lemma wp_rely {A} (p : prog A) Q s s' : rely s s' -> wp p Q s -> wp p Q s'.
Proof.
  destruct p; cbn; intros Hr H.
  - intros s'' H'. apply H. by etrans.
  - intros s1 H1. apply H. by etrans.
Qed.

Lemma wp_mono {A} (p : prog A) (Q Q' : A -> S -> Prop) s :
  wp p Q s -> (forall a s', Q a s' -> Q' a s') -> wp p Q' s.
Proof.
  revert s. induction p as [a|e k IH]; intros s H HQ; cbn in *; [auto|].
  intros s1 H1 r s2 H2. destruct (H s1 H1 r s2 H2). split; [done|]. by apply IH.
Qed.

Lemma wp_ret {A} (a : A) (Q : A -> S -> Prop) s :
  (forall s', rely s s' -> Q a s') -> wp (Ret a) Q s.
Proof. done. Qed.

Lemma wp_bind {A B} (p : prog A) (f : A -> prog B) (Q : B -> S -> Prop) s :
  wp p (fun a s' => wp (f a) Q s') s -> wp (bind p f) Q s.
Proof.
  revert s. induction p as [a|e k IH]; intros s H; cbn in *.
  - by apply H.
  - intros s1 H1 r s2 H2. destruct (H s1 H1 r s2 H2). split; [done|]. by apply IH.
Qed.

Lemma wp_call {A} e (k : R e -> prog A) Q s :
  (forall s1 r s2, rely s s1 -> handle e s1 r s2 -> guar s1 s2 /\ wp (k r) Q s2) ->
  wp (bind (call e) k) Q s.
Proof. intros H s1 H1 r s2 H2. by apply H. Qed.

(** A pool whose threads all keep their [wp]. *)
Definition pool_ok {T A} (allowed : T -> Prop) (Q : T -> S -> A -> S -> Prop) (s0 : S)
    (c : list (thread (T := T) (A := A)) * S) : Prop :=
  rely s0 c.2 /\ Forall (fun '(t, s1, p) => allowed t /\ rely s0 s1 /\ wp p (Q t s1) c.2) c.1.

Lemma pool_ok_step {T A} (body : T -> prog A) (allowed : T -> Prop) (Q : T -> S -> A -> S -> Prop) s0 c c' :
  (forall s s', guar s s' -> rely s s') ->
  (forall t s, allowed t -> rely s0 s -> wp (body t) (Q t s) s) ->
  pool_step body allowed c c' -> pool_ok allowed Q s0 c -> rely c.2 c'.2 /\ pool_ok allowed Q s0 c'.
Proof.
  intros Hgr Hbody Hstep [Hr Hts].
  destruct Hstep as [ts1 s1 i t st p p' s' Hi Hp|ts1 s1 t Ht]; cbn in *.
  - destruct (proj1 (Forall_lookup _ _) Hts i _ Hi) as (Ht & Hst & Hwp).
    destruct p as [|e k]; [done|]. destruct Hp as (r & Hh & ->).
    destruct (Hwp s1 ltac:(reflexivity) r s' Hh) as [Hguar Hk]. apply Hgr in Hguar.
    split; [done|]. split; [by transitivity s1|]. apply Forall_insert; [|done].
    eapply Forall_impl; [exact Hts|]. intros [[t' st'] p'] (? & ? & ?). split_and!; [done..|].
    eapply wp_rely; [exact Hguar|done].
  - split; [reflexivity|]. split; [done|]. apply Forall_app. split; [done|].
    constructor; [|done]. split_and!; [done..|]. by apply Hbody.
Qed.

(** A step of nobody's thread. *)
Lemma pool_ok_env {T A} (allowed : T -> Prop) (Q : T -> S -> A -> S -> Prop) s0 ts s s' :
  rely s s' -> pool_ok allowed Q s0 (ts, s) -> pool_ok allowed Q s0 (ts, s').
Proof.
  intros Hr [H0 Hts]. split; [by transitivity s|]. eapply Forall_impl; [exact Hts|].
  intros [[t st] p] (? & ? & ?). split_and!; [done..|]. by eapply wp_rely.
Qed.

(** Any schedule of threads that each satisfy their [wp] only makes guaranteed moves,
    and what each thread has left still satisfies its [wp]. *)
Lemma pool_sound {T A} (body : T -> prog A) (allowed : T -> Prop)
    (Q : T -> S -> A -> S -> Prop) s0 c c' :
  (forall s s', guar s s' -> rely s s') ->
  (forall t s, allowed t -> rely s0 s -> wp (body t) (Q t s) s) ->
  rtc (pool_step body allowed) c c' -> pool_ok allowed Q s0 c ->
  rely c.2 c'.2 /\ pool_ok allowed Q s0 c'.
Proof.
  intros Hgr Hbody Hrun. induction Hrun as [c|c c1 c2 Hstep _ IH]; intros Hok; [done|].
  destruct (pool_ok_step body allowed Q s0 c c1 Hgr Hbody Hstep Hok) as [Hr Hok1].
  destruct (IH Hok1) as [Hr1 Hok2]. split; [by etrans|done].
Qed.
End prog.

Arguments prog : clear implicits.
Arguments prog {E} R A.
Arguments Ret {E R A} a.
Arguments Vis {E R A} e k.
Arguments ans : clear implicits.
Arguments ans {E} R.
Arguments wp_call {E R S handle rely guar A} e k Q s.

Notation "x <- p ; k" := (bind p (fun x => k))
  (at level 100, p at next level, right associativity) : go_scope.
Notation "x <-! p ; k" := (bind_res p (fun x => k))
  (at level 100, p at next level, right associativity) : go_scope.
Notation "' x <-! p ; k" := (bind_res p (fun x => k))
  (at level 20, x pattern, p at level 100, k at level 200) : go_scope.

(** An operation that replied [r] took effect in one move of [spec], at one instant between
    the states [s] and [s']. *)
Definition atomically {S A} (rely : S -> S -> Prop) (spec : S -> A -> S -> Prop) (s : S) (r : A) (s' : S) : Prop :=
  exists s1 s2, rely s s1 /\ spec s1 r s2 /\ rely s2 s'.

(** A program whose one call, whatever the reply, makes the move. *)
Lemma wp_one_call {E} {R : E -> Type} {S A} (handle : forall e, S -> R e -> S -> Prop) (rely : S -> S -> Prop)
    (spec : S -> A -> S -> Prop) (p : prog R A) e k s :
  p = Vis e (fun r => Ret (k r)) -> (forall s1 r s2, handle e s1 r s2 -> spec s1 (k r) s2) ->
  wp handle rely (fun _ _ => True) p (fun a s' => atomically rely spec s a s') s.
Proof. intros -> H s1 H1 r s2 H2. split; [done|]. intros s' H'. exists s1, s2. auto. Qed.

(** A program that makes no call. *)
Lemma wp_no_call {E} {R : E -> Type} {S A} (handle : forall e, S -> R e -> S -> Prop) (rely : S -> S -> Prop)
    `{!Reflexive rely} (spec : S -> A -> S -> Prop) (a : A) s :
  (forall s1, spec s1 a s1) ->
  wp handle rely (fun _ _ => True) (Ret a) (fun a s' => atomically rely spec s a s') s.
Proof. intros H s' Hs'. exists s, s. auto. Qed.

(** ** Threads that the service tells apart

    The same, where a call's outcome and what others may do between two calls depend on
    the thread [i] and its tag [t], and where the environment moves too. *)
Section indexed.
Context {E : Type} {R : E -> Type} {S T A : Type}.
Context (handle : nat -> T -> forall e, S -> R e -> S -> Prop) (env : S -> S -> Prop).
Context (body : T -> prog R A) (allowed : T -> Prop).

Inductive ipool_step : list (T * S * prog R A) * S -> list (T * S * prog R A) * S -> Prop :=
  | ipool_call ts s i t s0 p p' s' :
      ts !! i = Some (t, s0, p) -> thread_step (handle i t) p s p' s' ->
      ipool_step (ts, s) (<[i := (t, s0, p')]> ts, s')
  | ipool_spawn ts s t : allowed t -> ipool_step (ts, s) (ts ++ [(t, s, body t)], s)
  | ipool_env ts s s' : env s s' -> ipool_step (ts, s) (ts, s').

Lemma runs_ipool i t s0 p s a s' ts :
  ts !! i = Some (t, s0, p) -> runs (handle i t) p s a s' ->
  rtc ipool_step (ts, s) (<[i := (t, s0, Ret a)]> ts, s').
Proof.
  revert s ts. induction p as [x|e k IH]; intros s ts Hi; cbn.
  - intros [-> ->]. by rewrite list_insert_id.
  - intros (r & s1 & Hh & Hr). eapply rtc_l.
    { apply (ipool_call ts s i t s0 (Vis e k) (k r) s1 Hi). by exists r. }
    rewrite <- (list_insert_insert_eq ts i (t, s0, Ret a) (t, s0, k r)). apply (IH r); [|done].
    apply list_lookup_insert_eq. by eapply lookup_lt_Some.
Qed.

(** A thread that joined the pool during a run started in a state of the run. *)
Lemma spawned_during ts s ts' s' j t s1 p :
  rtc ipool_step (ts, s) (ts', s') -> length ts <= j -> ts' !! j = Some (t, s1, p) ->
  exists ts1, rtc ipool_step (ts, s) (ts1, s1).
Proof.
  intros H Hlen. revert p. change ts' with (ts', s').1.
  revert H. generalize (ts', s') as c. clear ts' s'. refine (rtc_ind_r _ _ _ _); cbn.
  { intros p Hj. apply lookup_lt_Some in Hj. lia. }
  intros c c' Hrun Hs IH p Hj.
  destruct Hs as [ts2 s2 i u s0 q q' s' Hi Hq|ts2 s2 u Hu|ts2 s2 s' He]; cbn in *.
  - apply list_lookup_insert_Some in Hj as [(<- & [= <- <- <-] & _)|[_ Hj]]; [by eapply IH|by eapply IH].
  - apply lookup_app_Some in Hj as [Hj|[_ Hj]]; [by eapply IH|].
    apply list_lookup_singleton_Some in Hj as [_ [= _ <- _]]. by exists ts2.
  - by eapply IH.
Qed.

(** What a thread relies on, what it guarantees, and what all of it amounts to. *)
Context (rely guar : nat -> T -> S -> S -> Prop) (common : S -> S -> Prop).
Context `{!forall i t, Reflexive (rely i t), !forall i t, Transitive (rely i t)}.
Context `{!Reflexive common, !Transitive common}.
Context (Q : nat -> T -> S -> A -> S -> Prop).
Context (guar_common : forall i t s s', guar i t s s' -> common s s').
Context (guar_rely : forall i t j u s s', i <> j -> guar i t s s' -> rely j u s s').
Context (env_common : forall s s', env s s' -> common s s').
Context (env_rely : forall j u s s', env s s' -> rely j u s s').

Definition ipool_ok (s0 : S) (c : list (T * S * prog R A) * S) : Prop :=
  common s0 c.2 /\ forall i t s1 p, c.1 !! i = Some (t, s1, p) ->
    allowed t /\ common s0 s1 /\ wp (handle i t) (rely i t) (guar i t) p (Q i t s1) c.2.

Lemma ipool_ok_step s0 c c' :
  (forall i t s, allowed t -> common s0 s -> wp (handle i t) (rely i t) (guar i t) (body t) (Q i t s) s) ->
  ipool_step c c' -> ipool_ok s0 c -> common c.2 c'.2 /\ ipool_ok s0 c'.
Proof.
  intros Hbody [ts s i t s1 p p' s' Hi Hp|ts s t Ht|ts s s' He] [Hc Hts]; cbn in *.
  - destruct (Hts i t s1 p Hi) as (Ht & H1 & Hwp). destruct p as [|e k]; [done|]. destruct Hp as (r & Hh & ->).
    destruct (Hwp s ltac:(reflexivity) r s' Hh) as [Hg Hk]. pose proof (guar_common _ _ _ _ Hg) as Hgc.
    split; [done|]. split; [by transitivity s|]. intros j u sj q [(-> & [= <- <- <-] & _)|[Hne Hj]]%list_lookup_insert_Some; [done|].
    destruct (Hts j u sj q Hj) as (? & ? & Hw). split_and!; [done..|].
    refine (wp_rely _ (rely j u) _ _ _ _ _ _ Hw). by eapply guar_rely.
  - split; [reflexivity|]. split; [done|]. intros i u s1 p [Hi|[Hge Hi]]%lookup_app_Some; [by apply Hts|].
    apply list_lookup_singleton_Some in Hi as [_ [= <- <- <-]]. split_and!; [done..|]. by apply Hbody.
  - apply env_common in He as Hc'. split; [done|]. split; [by transitivity s|]. intros j u sj q Hj.
    destruct (Hts j u sj q Hj) as (? & ? & Hw). split_and!; [done..|].
    refine (wp_rely _ (rely j u) _ _ _ _ _ _ Hw). by apply env_rely.
Qed.

Lemma ipool_sound s0 c c' :
  (forall i t s, allowed t -> common s0 s -> wp (handle i t) (rely i t) (guar i t) (body t) (Q i t s) s) ->
  rtc ipool_step c c' -> ipool_ok s0 c -> common c.2 c'.2 /\ ipool_ok s0 c'.
Proof.
  intros Hbody Hrun. induction Hrun as [c|c c1 c2 Hstep _ IH]; intros Hok; [done|].
  destruct (ipool_ok_step s0 c c1 Hbody Hstep Hok) as [Hr Hok1].
  destruct (IH Hok1) as [Hr1 Hok2]. split; [by etrans|done].
Qed.
End indexed.
