(* ===== verification/Kv.v ===== *)
(** * [kv.go], and the KV half of [seam.go]: the revision-fenced key-value store.

    The seam translates the client's errors into the package's sentinels, the store maps
    those onto the storage contract.  [kv_handle] is what the package relies on about a
    JetStream bucket; [kv_spec] is what the store promises, one atomic move per call. *)

From S2P Require Import Prelude GoText Storage Nats Prog.
Open Scope stdpp_scope.
Open Scope go_scope.

Module Kv.

(** ** The client's calls *)

Inductive kvcall :=
  | kv_Create (key val : string)
  | kv_Get (key : string)
  | kv_Update (key val : string) (expectedRev : N)
  | kv_Delete (key : string)
  | kv_Keys.

Definition kvreply (c : kvcall) : Type :=
  match c with
  | kv_Create _ _ | kv_Update _ _ _ => res N
  | kv_Get _ => res (string * N)
  | kv_Delete _ => option error
  | kv_Keys => res (list string)
  end.

Notation KM := (prog kvreply).
Definition kvdo (c : kvcall) : KM (kvreply c) := call c.

(** ** The seam *)

Section seam.
Context {J : JetStream}.

Definition seam_create (key val : string) : KM (res N) :=
  r <- kvdo (kv_Create key val);
  match r with
  | Err err => if is_nats js_ErrKeyExists err || isJetStreamWrongLastSeq err then Ret (Err errKVKeyExists)
               else Ret (Err err)
  | Ok rev => Ret (Ok rev)
  end.

Definition seam_get (key : string) : KM (res (string * N)) :=
  r <- kvdo (kv_Get key);
  match r with
  | Err err => if is_nats js_ErrKeyNotFound err then Ret (Err errKVKeyNotFound) else Ret (Err err)
  | Ok entry => Ret (Ok entry)
  end.

Definition seam_update (key val : string) (expectedRev : N) : KM (res N) :=
  r <- kvdo (kv_Update key val expectedRev);
  match r with
  | Err err => if is_nats js_ErrKeyNotFound err then Ret (Err errKVKeyNotFound)
               else if isJetStreamWrongLastSeq err then Ret (Err errKVCASConflict)
               else Ret (Err err)
  | Ok rev => Ret (Ok rev)
  end.

Definition seam_del (key : string) : KM (option error) := kvdo (kv_Delete key).

Definition seam_keys : KM (res (list string)) :=
  r <- kvdo kv_Keys;
  match r with
  | Err err => if is_nats js_ErrNoKeysFound err then Ret (Ok []) else Ret (Err err)
  | Ok ks => Ret (Ok ks)
  end.
End seam.

(** ** The store *)

(** The loop of [sortedDedupFiltered], with the keys already seen. *)
Fixpoint dedup_filter (all : list string) (prefix : string) (seen : gset string) : list string :=
  match all with
  | [] => []
  | k :: rest =>
      if negb (HasPrefix k prefix) then dedup_filter rest prefix seen
      else if decide (k ∈ seen) then dedup_filter rest prefix seen
      else k :: dedup_filter rest prefix ({[k]} ∪ seen)
  end.

Definition sortedDedupFiltered (all : list string) (prefix : string) : list string :=
  sort_Strings (dedup_filter all prefix ∅).

Section store.
Context `{Sto : Storage} {J : JetStream}.

Definition kvKeyForName (key : string) : res string := guard? ValidateName key; Ok key.

Definition Get (key : string) : KM (res (string * N)) :=
  k <-! Ret (kvKeyForName key);
  r <- seam_get k;
  match r with
  | Err err => if is_key_not_found err then Ret (Err (KeyNotFoundError key)) else Ret (Err (KVOpError key "get" err))
  | Ok entry => Ret (Ok entry)
  end.

Definition create (key k val : string) : KM (res N) :=
  r <- seam_create k val;
  match r with
  | Err err => if is_key_exists err then Ret (Err (ConflictError key 0)) else Ret (Err (KVOpError key "create" err))
  | Ok rev => Ret (Ok rev)
  end.

Definition update (key k : string) (expectedRev : N) (val : string) : KM (res N) :=
  r <- seam_update k val expectedRev;
  match r with
  | Err err => if is_cas_conflict err || is_key_not_found err then Ret (Err (ConflictError key expectedRev))
               else Ret (Err (KVOpError key "update" err))
  | Ok rev => Ret (Ok rev)
  end.

Definition Put (key : string) (expectedRev : N) (val : string) : KM (res N) :=
  k <-! Ret (kvKeyForName key);
  if (expectedRev =? 0)%N then create key k val else update key k expectedRev val.

Definition Keys (prefix : string) : KM (res (list string)) :=
  r <- seam_keys;
  match r with
  | Err err => Ret (Err (KVOpError prefix "keys" err))
  | Ok all => Ret (Ok (sortedDedupFiltered all prefix))
  end.

Definition Delete (key : string) : KM (option error) :=
  match kvKeyForName key with
  | Err err => Ret (Some err)
  | Ok k =>
      r <- seam_del k;
      match r with Some err => Ret (Some (KVOpError key "delete" err)) | None => Ret None end
  end.
End store.

(** ** The bucket *)

(** Live entries with their revisions, and the last revision handed out. *)
Record bucket := { live : gmap string (string * N); last_rev : N }.

Definition put (k v : string) (b : bucket) : bucket :=
  {| live := <[k := (v, (last_rev b + 1)%N)]> (live b); last_rev := last_rev b + 1 |}.
Definition del (k : string) (b : bucket) : bucket :=
  {| live := delete k (live b); last_rev := last_rev b + 1 |}.

(** The package's sentinels never come from the client. *)
Definition raw (e : error) : Prop :=
  is_key_exists e = false /\ is_key_not_found e = false /\ is_cas_conflict e = false.

Section contract.
Context {J : JetStream}.

(** What the interface comments say of each call; an unclassified error leaves a write
    undecided. *)
Definition kv_handle (c : kvcall) (b : bucket) : kvreply c -> bucket -> Prop :=
  match c return kvreply c -> bucket -> Prop with
  | kv_Create k v => fun r b' =>
      match r with
      | Ok rev => live b !! k = None /\ b' = put k v b /\ rev = last_rev b'
      | Err e => raw e /\
          if is_nats js_ErrKeyExists e || isJetStreamWrongLastSeq e then live b !! k <> None /\ b' = b
          else b' = b \/ live b !! k = None /\ b' = put k v b
      end
  | kv_Get k => fun r b' => b' = b /\
      match r with
      | Ok entry => live b !! k = Some entry
      | Err e => raw e /\ (is_nats js_ErrKeyNotFound e = true -> live b !! k = None)
      end
  | kv_Update k v rev => fun r b' =>
      let current := exists v0, live b !! k = Some (v0, rev) in
      match r with
      | Ok rev' => current /\ b' = put k v b /\ rev' = last_rev b'
      | Err e => raw e /\
          if is_nats js_ErrKeyNotFound e || isJetStreamWrongLastSeq e then ~ current /\ b' = b
          else b' = b \/ current /\ b' = put k v b
      end
  | kv_Delete k => fun r b' =>
      match r with None => b' = del k b | Some e => raw e /\ (b' = b \/ b' = del k b) end
  | kv_Keys => fun r b' => b' = b /\
      match r with
      | Ok ks => forall k, k ∈ ks <-> is_Some (live b !! k)
      | Err e => raw e /\ (is_nats js_ErrNoKeysFound e = true -> live b = ∅)
      end
  end.
End contract.

(** ** What the store promises *)

Inductive kv_op := OGet (key : string) | OPut (key : string) (expectedRev : N) (val : string)
  | OKeys (prefix : string) | ODelete (key : string).

Definition kv_out (o : kv_op) : Type :=
  match o with
  | OGet _ => res (string * N) | OPut _ _ _ => res N | OKeys _ => res (list string) | ODelete _ => option error
  end.

Section spec.
Context `{Sto : Storage} {J : JetStream}.

Definition kv_prog (o : kv_op) : KM (kv_out o) :=
  match o return KM (kv_out o) with
  | OGet k => Get k | OPut k rev v => Put k rev v | OKeys p => Keys p | ODelete k => Delete k
  end.

(** The fence: revision 0 wants no live value, any other wants exactly that revision. *)
Definition fence_holds (b : bucket) (k : string) (rev : N) : Prop :=
  if (rev =? 0)%N then live b !! k = None else exists v, live b !! k = Some (v, rev).

Definition kv_spec (o : kv_op) (b : bucket) : kv_out o -> bucket -> Prop :=
  match o return kv_out o -> bucket -> Prop with
  | OGet k => fun r b' => b' = b /\
      match ValidateName k with
      | Some e => r = Err e
      | None => match r with
                | Ok entry => live b !! k = Some entry
                | Err (KeyNotFoundError k') => k' = k /\ live b !! k = None
                | Err e => exists cause, e = KVOpError k "get" cause
                end
      end
  | OPut k rev v => fun r b' =>
      match ValidateName k with
      | Some e => r = Err e /\ b' = b
      | None => match r with
                | Ok rev' => fence_holds b k rev /\ b' = put k v b /\ rev' = last_rev b'
                | Err (ConflictError k' rev') => k' = k /\ rev' = rev /\ ~ fence_holds b k rev /\ b' = b
                | Err e => (exists op cause, e = KVOpError k op cause) /\
                           (b' = b \/ fence_holds b k rev /\ b' = put k v b)
                end
      end
  | OKeys prefix => fun r b' => b' = b /\
      match r with
      | Ok ks => StronglySorted str_le ks /\ NoDup ks /\
                 (forall k, k ∈ ks <-> HasPrefix k prefix = true /\ is_Some (live b !! k))
      | Err e => exists cause, e = KVOpError prefix "keys" cause
      end
  | ODelete k => fun r b' =>
      match ValidateName k with
      | Some e => r = Some e /\ b' = b
      | None => match r with
                | None => b' = del k b
                | Some e => (exists cause, e = KVOpError k "delete" cause) /\ (b' = b \/ b' = del k b)
                end
      end
  end.

Lemma elem_of_dedup_filter all prefix seen k :
  k ∈ dedup_filter all prefix seen <-> k ∈ all /\ HasPrefix k prefix = true /\ k ∉ seen.
Proof.
  revert seen. induction all as [|x all IH]; intros seen; cbn; [set_solver|].
  rewrite elem_of_cons. destruct (HasPrefix x prefix) eqn:Ep; cbn; [case_decide as Hx; [|rewrite elem_of_cons]|]; rewrite IH.
  - split; [intros (? & ? & ?); auto|]. intros ([->|?] & ? & ?); [done|auto].
  - split; [intros [->|(? & ? & ?)]; set_solver|]. intros (Hk & ? & ?).
    destruct (decide (k = x)) as [|Hne]; [by left|right]. set_solver.
  - split; [intros (? & ? & ?); auto|]. intros ([->|?] & ? & ?); [congruence|auto].
Qed.

Lemma dedup_filter_NoDup all prefix seen : NoDup (dedup_filter all prefix seen).
Proof.
  revert seen. induction all as [|x all IH]; intros seen; cbn; [constructor|].
  destruct (negb _); [done|]. case_decide; [done|]. constructor; [|done].
  rewrite elem_of_dedup_filter. set_solver.
Qed.

(** Filtered, each once, ascending. *)
Lemma sortedDedupFiltered_spec all prefix :
  StronglySorted str_le (sortedDedupFiltered all prefix) /\ NoDup (sortedDedupFiltered all prefix) /\
  forall k, k ∈ sortedDedupFiltered all prefix <-> HasPrefix k prefix = true /\ k ∈ all.
Proof.
  unfold sortedDedupFiltered. split_and!; [apply sort_Strings_sorted| |].
  - rewrite sort_Strings_perm. apply dedup_filter_NoDup.
  - intros k. rewrite sort_Strings_perm, elem_of_dedup_filter. set_solver.
Qed.

Notation kwp rely := (wp kv_handle rely (fun _ _ => True)).

(** Each operation, alone. *)
Lemma Get_refines (rely : bucket -> bucket -> Prop) k b :
  Reflexive rely -> kwp rely (kv_prog (OGet k)) (fun r b' => atomically rely (kv_spec (OGet k)) b r b') b.
Proof.
  intros Hrefl. cbn [kv_prog].
  unfold Get, kvKeyForName. destruct (ValidateName k) as [e|] eqn:Ek; cbn [bind_res bind].
  - apply wp_no_call; [done|]. intros b1. cbn. by rewrite Ek.
  - intros b1 H1 r b2 [-> Hr]. split; [done|].
    set (out := match r with Ok entry => Ok entry | Err err =>
      if is_nats js_ErrKeyNotFound err then Err (KeyNotFoundError k) else Err (KVOpError k "get" err) end).
    assert (Hout : kv_spec (OGet k) b1 out b1).
    { cbn. rewrite Ek. split; [done|]. unfold out. destruct r as [entry|e]; [exact Hr|].
      destruct (is_nats js_ErrKeyNotFound e); [by split; [|apply Hr]|]. eauto. }
    assert (Hk : forall b', rely b1 b' -> atomically rely (kv_spec (OGet k)) b out b') by (intros b' H'; by exists b1, b1).
    unfold out in Hk. destruct r as [entry|e]; cbn; [exact Hk|]. destruct Hr as [(_ & Hraw & _) _].
    destruct (is_nats js_ErrKeyNotFound e); cbn; [exact Hk|]. rewrite Hraw. exact Hk.
Qed.

Lemma Put_refines (rely : bucket -> bucket -> Prop) k rev v b :
  Reflexive rely -> kwp rely (kv_prog (OPut k rev v)) (fun r b' => atomically rely (kv_spec (OPut k rev v)) b r b') b.
Proof.
  intros Hrefl. cbn [kv_prog].
  unfold Put, kvKeyForName. destruct (ValidateName k) as [e|] eqn:Ek; cbn [bind_res bind].
  - apply wp_no_call; [done|]. intros b1. cbn. by rewrite Ek.
  - destruct (rev =? 0)%N eqn:Er; intros b1 H1 r b2 Hr; (split; [done|]).
    all: assert (Hk : forall out b', kv_spec (OPut k rev v) b1 out b2 -> rely b2 b' ->
      atomically rely (kv_spec (OPut k rev v)) b out b') by (intros out b' Ho H'; by exists b1, b2).
    all: cbn [kv_spec] in Hk; rewrite Ek in Hk; unfold fence_holds in Hk; rewrite Er in Hk.
    + apply N.eqb_eq in Er. destruct r as [rev'|e]; cbn; [intros b'; by apply Hk|].
      destruct Hr as [(Hraw & _) Hr]. destruct (is_nats js_ErrKeyExists e || isJetStreamWrongLastSeq e); cbn.
      * intros b'. apply Hk. split; [done|]. split; [by rewrite Er|]. exact Hr.
      * rewrite Hraw. intros b'. apply Hk. split; [eauto|done].
    + destruct r as [rev'|e]; cbn; [intros b'; by apply Hk|]. destruct Hr as [(_ & Hnf & Hcas) Hr].
      destruct (is_nats js_ErrKeyNotFound e); cbn; [intros b'; by apply Hk|].
      destruct (isJetStreamWrongLastSeq e); cbn; [intros b'; by apply Hk|].
      rewrite Hnf, Hcas. intros b'. apply Hk. split; [eauto|done].
Qed.

Lemma Keys_refines (rely : bucket -> bucket -> Prop) prefix b :
  Reflexive rely -> kwp rely (kv_prog (OKeys prefix)) (fun r b' => atomically rely (kv_spec (OKeys prefix)) b r b') b.
Proof.
  intros Hrefl. cbn [kv_prog].
  intros b1 H1 r b2 [-> Hr]. split; [done|].
  assert (Hk : forall out b', kv_spec (OKeys prefix) b1 out b1 -> rely b1 b' ->
    atomically rely (kv_spec (OKeys prefix)) b out b') by (intros out b' Ho H'; by exists b1, b1).
  destruct r as [ks|e]; cbn.
  - intros b'. apply Hk. split; [done|]. destruct (sortedDedupFiltered_spec ks prefix) as (Hs & Hn & Hm).
    split_and!; [done..|]. intros k. by rewrite Hm, Hr.
  - destruct (is_nats js_ErrNoKeysFound e) eqn:En; cbn; intros b'; apply Hk; (split; [done|]); [|eauto].
    split_and!; [constructor..|]. intros k. rewrite (proj2 Hr eq_refl), lookup_empty.
    split; [by intros ?%elem_of_nil|]. by intros [_ [? ?]].
Qed.

Lemma Delete_refines (rely : bucket -> bucket -> Prop) k b :
  Reflexive rely -> kwp rely (kv_prog (ODelete k)) (fun r b' => atomically rely (kv_spec (ODelete k)) b r b') b.
Proof.
  intros Hrefl. cbn [kv_prog].
  unfold Delete, kvKeyForName. destruct (ValidateName k) as [e|] eqn:Ek.
  - apply wp_no_call; [done|]. intros b1. cbn. by rewrite Ek.
  - intros b1 H1 r b2 Hr. split; [done|].
    assert (Hk : forall out b', kv_spec (ODelete k) b1 out b2 -> rely b2 b' ->
      atomically rely (kv_spec (ODelete k)) b out b') by (intros out b' Ho H'; by exists b1, b2).
    cbn [kv_spec] in Hk. rewrite Ek in Hk. destruct r as [e|]; cbn; intros b'; apply Hk; [|done].
    split; [eauto|apply Hr].
Qed.

(** C13. The KV store implements its contract: whatever other clients do, and whatever the
    bucket answers, each operation takes effect at one instant as [kv_spec] says: a read
    is of that instant and never takes a fault for absence; a put lands exactly under its
    fence with a fresh revision, and a conflict means it did not; the keys are the live
    ones with the prefix, ascending and once each. *)
Theorem kv_refines_spec (rely : bucket -> bucket -> Prop) o b :
  Reflexive rely -> kwp rely (kv_prog o) (fun r b' => atomically rely (kv_spec o) b r b') b.
Proof.
  intros Hrefl. destruct o; [by apply Get_refines|by apply Put_refines|by apply Keys_refines|by apply Delete_refines].
Qed.
End spec.

(** A create against a bucket where the key is live. *)
Definition held : bucket := put "a/b" "v" {| live := ∅; last_rev := 0 |}.

Theorem kv_refines_spec_witness :
  let _ := Reference.reference in let _ := nats_go in
  atomically eq (kv_spec (OPut "a/b" 0 "w")) held (Err (ConflictError "a/b" 0)) held.
Proof.
  intros S0 J0. pose proof (kv_refines_spec (Sto := Reference.reference) (J := nats_go) eq (OPut "a/b" 0 "w") held _) as H.
  destruct (H held eq_refl (Err (Nats js_ErrKeyExists)) held) as [_ H1].
  { split; [done|]. split; [|done]. by vm_compute. }
  exact (H1 held eq_refl).
Defined.

End Kv.
