(* ===== verification/Lease.v ===== *)
(** * [lease.go], and the lease half of [seam.go]: single-writer leases over a KV bucket.

    [Acquire] fences an epoch into the bucket by compare-and-swap, a heartbeat pushes the
    expiry forward, [Release] writes an expiry of now.  The lease object is shared by its
    heartbeat and its holder, so it lives in a store of objects and its critical sections
    are calls; the other calls are those of the KV seam, the clock and the entropy source. *)

From S2P Require Import Prelude GoText Encoding Json GoTime Storage Nats Names Prog Kv.
Open Scope stdpp_scope.
Open Scope go_scope.
Import Json GoTime.

Module Lease.

(** ** The stored record *)

Record leaseRecord := { Epoch : N; Holder : string; ExpiresAt : Time }.

Definition lease_fields : list string := ["epoch"; "holder"; "expires_at"].

(** The zero [time.Time] is the first instant of year 1. *)
Definition zero_time : Time := {| wall := - epoch_days * 86400 * second; mono := None; zone := 0 |}.
Definition zero_lease : leaseRecord := {| Epoch := 0; Holder := EmptyString; ExpiresAt := zero_time |}.

Section codec.
Context {P : LayoutParser}.

Definition lease_field (rec : leaseRecord) (f : string) (x : json) : option leaseRecord :=
  let '(Build_leaseRecord e h t) := rec in
  if String.eqb f "epoch" then (e' ← as_uint two64 e x; Some (Build_leaseRecord e' h t))
  else if String.eqb f "holder" then (h' ← as_string h x; Some (Build_leaseRecord e h' t))
  else if String.eqb f "expires_at" then (t' ← as_time t x; Some (Build_leaseRecord e h t'))
  else None.

Definition encodeLeaseRecord (rec : leaseRecord) : res string :=
  match format (ExpiresAt rec) with
  | Some text => Ok (print_object [("epoch", JNum (FormatUint (Epoch rec))); ("holder", jstr (Holder rec));
                                   ("expires_at", jstr text)])
  | None => Err (LeaseEncodeError (Leaf "Time.MarshalJSON"))
  end.

Definition decodeLeaseRecord (data : string) : res leaseRecord :=
  match Decode data with
  | None => Err (Leaf "json")
  | Some (v, rest) =>
      match decode_struct lease_field lease_fields zero_lease v with
      | None => Err (Leaf "json")
      | Some rec => if at_EOF rest then Ok rec else Err errTrailingLeaseData
      end
  end.
End codec.

(** ** Durations *)

Definition defaultLeaseTTL : Z := 30 * second.

(** The [ttl] a store is built with. *)
Definition newLeaserStore_ttl (ttl : Z) : Z := if (ttl <=? 0)%Z then defaultLeaseTTL else ttl.

Definition backstopBucketTTL (ttl : Z) : Z :=
  let mult := wrap64 (ttl * 100) in if (Hour <? mult)%Z then mult else Hour.

(** The period of the heartbeat. *)
Definition heartbeat_interval (ttl : Z) : Z :=
  let interval := Z.quot ttl 3 in if (interval <=? 0)%Z then ttl else interval.

(** ** The lease object *)

(** [l_done] is whether the heartbeat's [WaitGroup] is back at zero. *)
Record kvLease := {
  l_name : string; l_key : string; l_holder : string; l_epoch : N;
  l_rev : N; l_validUntil : Time; l_released : bool;
  l_lost : bool; l_stop : bool; l_done : bool }.

(** The calls: [p] is the process whose clock is read. *)
Inductive lcall :=
  | l_kv (c : Kv.kvcall)
  | l_now (p : nat)
  | l_rand                                   (* rand.Read of sixteen bytes *)
  | l_new (l : kvLease)
  | l_load (id : nat)                        (* the fields, read under mu *)
  | l_renewed (id : nat) (rev : N) (validUntil : Time)
  | l_release (id : nat)                     (* whether it was released already, and mark it *)
  | l_closeStop (id : nat)
  | l_wait (id : nat)                        (* wg.Wait() *)
  | l_markLost (id : nat)
  | l_select (id : nat)                      (* stop, or a tick *)
  | l_exit (id : nat).                       (* wg.Done() *)

Definition lreply (c : lcall) : Type :=
  match c with
  | l_kv c => Kv.kvreply c
  | l_now _ => Time
  | l_rand => res string
  | l_new _ => nat
  | l_load _ => kvLease
  | l_release _ | l_select _ => bool
  | _ => unit
  end.

Notation LM := (prog lreply).
Definition ldo (c : lcall) : LM (lreply c) := call c.

(** A program of the KV seam, run by the leaser. *)
Fixpoint kv {A} (p : prog Kv.kvreply A) : LM A :=
  match p with
  | Ret a => Ret a
  | Vis c k => Vis (l_kv c : lcall) (fun r => kv (k r))
  end.

(** ** Operations *)

Section lease.
Context `{Sto : Storage} {J : JetStream} {P : LayoutParser}.
(** The store's [ttl], and the process it runs in. *)
Context (ttl : Z) (p : nat).

Definition leaseKeyForName (name : string) : res string := Names.streamForName name.

Definition newHolderID : LM (res string) :=
  r <- ldo l_rand;
  match r with Err e => Ret (Err e) | Ok b => Ret (Ok (hex_EncodeToString b)) end.

(** The encoded record, and the expiry stamped into it. *)
Definition encode (epoch : N) (holder : string) : LM (res string * Time) :=
  t <- ldo (l_now p);
  let expiresAt := Add t ttl in
  Ret (encodeLeaseRecord {| Epoch := epoch; Holder := holder; ExpiresAt := expiresAt |}, expiresAt).

Definition expired (rec : leaseRecord) : LM bool :=
  t <- ldo (l_now p);
  Ret (negb (After (ExpiresAt rec) t)).

(** The object; its heartbeat is the thread that runs [heartbeat]. *)
Definition start (name key holder : string) (epoch rev : N) (validUntil : Time) : LM nat :=
  ldo (l_new {| l_name := name; l_key := key; l_holder := holder; l_epoch := epoch; l_rev := rev;
                l_validUntil := validUntil; l_released := false; l_lost := false; l_stop := false;
                l_done := false |}).

Definition createLease (name key holder : string) (epoch : N) : LM (res nat) :=
  enc <- encode epoch holder;
  match enc.1 with
  | Err err => Ret (Err (LeaseOpError name "encode" err))
  | Ok val =>
      r <- kv (Kv.seam_create key val);
      match r with
      | Err err => if is_key_exists err then Ret (Err (LeaseHeldError name epoch))
                   else Ret (Err (LeaseOpError name "create" err))
      | Ok rev => id <- start name key holder epoch rev enc.2; Ret (Ok id)
      end
  end.

Definition updateLease (name key holder : string) (epoch lastRev : N) : LM (res nat) :=
  enc <- encode epoch holder;
  match enc.1 with
  | Err err => Ret (Err (LeaseOpError name "encode" err))
  | Ok val =>
      r <- kv (Kv.seam_update key val lastRev);
      match r with
      | Err err => if is_cas_conflict err || is_key_not_found err
                   then Ret (Err (LeaseHeldError name (add64 epoch MaxUint64)))
                   else Ret (Err (LeaseOpError name "update" err))
      | Ok rev => id <- start name key holder epoch rev enc.2; Ret (Ok id)
      end
  end.

Definition Acquire (name : string) : LM (res nat) :=
  key <-! Ret (leaseKeyForName name);
  h <- newHolderID;
  match h with
  | Err err => Ret (Err (LeaseOpError name "holder-id" err))
  | Ok holder =>
      r <- kv (Kv.seam_get key);
      match r with
      | Err err => if is_key_not_found err then createLease name key holder 1
                   else Ret (Err (LeaseOpError name "get" err))
      | Ok (val, rev) =>
          match decodeLeaseRecord val with
          | Err derr => Ret (Err (LeaseOpError name "decode" derr))
          | Ok rec =>
              ex <- expired rec;
              if negb ex then Ret (Err (LeaseHeldError name (Epoch rec)))
              else updateLease name key holder (add64 (Epoch rec) 1) rev
          end
      end
  end.

Definition renew (id : nat) : LM bool :=
  l <- ldo (l_load id);
  enc <- encode (l_epoch l) (l_holder l);
  match enc.1 with
  | Err _ => Ret true
  | Ok val =>
      r <- kv (Kv.seam_update (l_key l) val (l_rev l));
      match r with
      | Ok newRev => _ <- ldo (l_renewed id newRev enc.2); Ret true
      | Err err =>
          if is_cas_conflict err || is_key_not_found err then Ret false
          else
            l <- ldo (l_load id);
            t <- ldo (l_now p);
            if negb (Before t (l_validUntil l)) then Ret false else Ret true
      end
  end.

(** The goroutine of [startHeartbeat], for at most [beats] turns of its loop. *)
Fixpoint heartbeat (beats : nat) (id : nat) : LM unit :=
  match beats with
  | 0 => Ret tt
  | Datatypes.S beats =>
      stop <- ldo (l_select id);
      if stop : bool then ldo (l_exit id)
      else
        ok <- renew id;
        if ok : bool then heartbeat beats id
        else (_ <- ldo (l_markLost id); ldo (l_exit id))
  end.

Definition Release (id : nat) : LM (option error) :=
  already <- ldo (l_release id);
  if already : bool then Ret None
  else
    _ <- ldo (l_closeStop id);
    _ <- ldo (l_wait id);
    _ <- ldo (l_markLost id);
    l <- ldo (l_load id);
    t <- ldo (l_now p);
    match encodeLeaseRecord {| Epoch := l_epoch l; Holder := l_holder l; ExpiresAt := t |} with
    | Err err => Ret (Some (LeaseOpError (l_name l) "encode" err))
    | Ok val =>
        r <- kv (Kv.seam_update (l_key l) val (l_rev l));
        match r with
        | Err err => if is_cas_conflict err || is_key_not_found err then Ret None
                     else Ret (Some (LeaseOpError (l_name l) "release" err))
        | Ok _ => Ret None
        end
    end.
End lease.

End Lease.
