(* ===== verification/LeaseSafety.v ===== *)
(** * Leases: the world they run in, and why they exclude one another.

    [world] is the bucket, a clock all processes share, and the lease objects; beside them
    it keeps when each key was last written, which is what the server's own expiry counts
    from, and the list of all writes.  [rely] is what every step of a leaser, of the clock
    and of the server guarantees to the others; [Acquire], the heartbeat and [Release] are
    proved against it. *)

From S2P Require Import Prelude GoText Encoding Json GoTime Storage Nats Names Prog Kv Lease.
From Stdlib Require Import Ascii.
Open Scope stdpp_scope.
Open Scope go_scope.
Import Json GoTime Lease.

Module LeaseSafety.

(** ** The stored record's round trip *)

(** The bytes of RFC 3339 text. *)
Definition rfc_byte (c : ascii) : bool :=
  byte_in 48 58 c || byte_in 43 43 c || byte_in 45 46 c || byte_in 84 84 c || byte_in 90 90 c.

Lemma rfc_digit z : (0 <= z < 10)%Z -> rfc_byte (digit z) = true.
Proof.
  intros H. unfold rfc_byte, digit, digit_byte, byte_in. rewrite !byte_n_byte by lia.
  apply orb_true_iff. left. apply orb_true_iff. left. apply orb_true_iff. left. apply orb_true_iff. left.
  apply andb_true_iff. rewrite !N.leb_le. lia.
Qed.

Lemma pad_rfc k n : str_forallb rfc_byte (pad k n) = true.
Proof.
  induction k as [|k IH]; [done|]. cbn [pad str_forallb]. rewrite IH.
  rewrite rfc_digit; [done|]. apply Z.mod_pos_bound. done.
Qed.

Lemma fraction_rfc k n : (0 <= n < 10 ^ Z.of_nat k)%Z -> str_forallb rfc_byte (fraction k n) = true.
Proof.
  intros H. apply fraction_digits in H. revert H. apply str_forallb_impl. intros c Hc.
  unfold rfc_byte. apply andb_true_iff in Hc as [H1 H2]. unfold byte_in at 1.
  apply N.leb_le in H1, H2. apply orb_true_iff. left. apply orb_true_iff. left. apply orb_true_iff. left.
  apply orb_true_iff. left. apply andb_true_iff. rewrite !N.leb_le. lia.
Qed.

Lemma format_rfc t s : format t = Some s -> str_forallb rfc_byte s = true.
Proof.
  unfold format. destruct (year_day _) as [y yd]. destruct (month_day _ _) as [m d].
  destruct (_ && _); [|done]. intros H. apply (inj Some) in H. subst s.
  assert (Hz : str_forallb rfc_byte (zone_text (zone t)) = true).
  { unfold zone_text. destruct (zone t =? 0)%Z; [done|]. cbv zeta. cbn [str_forallb].
    rewrite str_forallb_app. cbn [str_forallb]. rewrite !pad_rfc. by destruct (_ <? 0)%Z. }
  assert (Hf : str_forallb rfc_byte (if (wall t mod second =? 0)%Z then EmptyString
                 else String "." (fraction 9 (wall t mod second))) = true).
  { destruct (_ =? 0)%Z; [done|]. cbn [str_forallb]. rewrite fraction_rfc; [done|].
    by apply Z.mod_pos_bound. }
  repeat (rewrite str_forallb_app; cbn [str_forallb]; rewrite ?pad_rfc). by rewrite Hf, Hz.
Qed.

Lemma rfc_plain c : rfc_byte c = true -> Utf8.is_ascii c = true /\ esc_ascii c = str1 c.
Proof. destruct c as [[][][][][][][][]]; try discriminate; by vm_compute. Qed.

(** The encoder writes such text as it is. *)
Lemma esc_rfc s : str_forallb rfc_byte s = true -> esc Fresh s = s /\ Utf8.utf8 s.
Proof.
  induction s as [|c s IH]; [by repeat constructor|]. cbn [str_forallb]. rewrite andb_true_iff. intros [Hc Hs].
  destruct (IH Hs) as [He Hu]. destruct (rfc_plain c Hc) as [Ha Hp]. split; [|by constructor].
  cbn [esc]. by rewrite Ha, Hp, He.
Qed.

Section codec.
Context {P : LayoutParser}.

(** A stored expiry: the same instant, without the monotonic reading. *)
Definition stored (t : Time) : Time := {| wall := wall t; mono := None; zone := zone t |}.

Lemma decode_encode rec val :
  encodeLeaseRecord rec = Ok val -> u64 (Epoch rec) -> Utf8.utf8 (Holder rec) ->
  (zone (ExpiresAt rec) mod 60 = 0)%Z ->
  decodeLeaseRecord val = Ok {| Epoch := Epoch rec; Holder := Holder rec; ExpiresAt := stored (ExpiresAt rec) |}.
Proof.
  unfold encodeLeaseRecord. destruct (format (ExpiresAt rec)) as [text|] eqn:Ef; [|done].
  intros [= <-] Hu Hh Hz. pose proof (parse_format _ _ Ef Hz) as Hp.
  destruct (esc_rfc text (format_rfc _ _ Ef)) as [He Ht].
  unfold decodeLeaseRecord.
  rewrite <- (str_app_nil_r (print_object _)), parse_print_object; [|done|].
  2: { repeat constructor; cbn; try done; by apply Utf8.ascii_utf8. }
  assert (E : decode_struct lease_field lease_fields zero_lease
    (JObj [("epoch", JNum (FormatUint (Epoch rec))); ("holder", jstr (Holder rec)); ("expires_at", jstr text)]) =
    Some {| Epoch := Epoch rec; Holder := Holder rec; ExpiresAt := stored (ExpiresAt rec) |}); [|by rewrite E].
  change (decode_members lease_field lease_fields (Some zero_lease)
    [("epoch", JNum (FormatUint (Epoch rec))); ("holder", jstr (Holder rec)); ("expires_at", jstr text)] =
    Some {| Epoch := Epoch rec; Holder := Holder rec; ExpiresAt := stored (ExpiresAt rec) |}).
  assert (Et : forall prev, as_time prev (jstr text) = Some (stored (ExpiresAt rec))).
  { intros prev. unfold jstr, as_time, parse. by rewrite He, Hp. }
  unfold zero_lease.
  repeat (rewrite decode_members_cons by (apply resolve_known; vm_compute; reflexivity);
    cbv beta iota delta [lease_field]; cbn [String.eqb Ascii.eqb Bool.eqb];
    rewrite ?as_uint_format, ?as_string_jstr, ?Et by done; cbn [mbind option_bind]).
  done.
Qed.

Lemma decode_mono v rec : decodeLeaseRecord v = Ok rec -> mono (ExpiresAt rec) = None.
Proof.
  unfold decodeLeaseRecord. destruct (Decode v) as [[j rest]|]; [|done].
  destruct (decode_struct _ _ _ j) as [rec'|] eqn:E; [|done]. destruct (at_EOF rest); [|done]. intros [= <-].
  destruct j as [| | | | |l]; try done; cbn in E; [by injection E as <-|].
  revert E. apply (foldl_field_inv (fun r => mono (ExpiresAt r) = None)); [|by intros ? [= <-]].
  intros [e h t] f x r Hm H. cbn in Hm. unfold lease_field in H.
  repeat (destruct (String.eqb f _); [by apply bind_Some in H as (y & Hy & [= <-]); cbn; eauto using as_time_mono|]). done.
Qed.
End codec.

(** ** The world *)

Record world := {
  bkt : Kv.bucket;
  written : gmap string Z;              (* when the server stored each live value *)
  clock : Z;
  leases : gmap nat kvLease;
  history : list (string * string) }.   (* every value ever stored *)

Definition nowhere : world :=
  {| bkt := {| Kv.live := ∅; Kv.last_rev := 0 |}; written := ∅; clock := 0; leases := ∅; history := [] |}.

(** The write a call made, if it made one. *)
Definition wrote (c : Kv.kvcall) (b b' : Kv.bucket) : list (string * string) :=
  match c with
  | Kv.kv_Create k v | Kv.kv_Update k v _ =>
      if decide (Kv.live b' !! k = Kv.live b !! k) then [] else [(k, v)]
  | _ => []
  end.
Definition after_kv (c : Kv.kvcall) (b' : Kv.bucket) (s : world) : world :=
  let ws := wrote c (bkt s) b' in
  {| bkt := b'; written := foldr (fun kv w => <[kv.1 := clock s]> w) (written s) ws; clock := clock s;
     leases := leases s; history := history s ++ ws |}.
Definition set_leases (ls : gmap nat kvLease) (s : world) : world :=
  {| bkt := bkt s; written := written s; clock := clock s; leases := ls; history := history s |}.
Definition tick (d : Z) (s : world) : world :=
  {| bkt := bkt s; written := written s; clock := clock s + d; leases := leases s; history := history s |}.
Definition reap (k : string) (s : world) : world :=
  {| bkt := {| Kv.live := delete k (Kv.live (bkt s)); Kv.last_rev := Kv.last_rev (bkt s) |};
     written := written s; clock := clock s; leases := leases s; history := history s |}.

(** Updates of the lease object. *)
Definition renewed (rev : N) (validUntil : Time) (l : kvLease) : kvLease :=
  {| l_name := l_name l; l_key := l_key l; l_holder := l_holder l; l_epoch := l_epoch l; l_rev := rev;
     l_validUntil := validUntil; l_released := l_released l; l_lost := l_lost l; l_stop := l_stop l; l_done := l_done l |}.
Definition flagged (released lost stop exited : bool) (l : kvLease) : kvLease :=
  {| l_name := l_name l; l_key := l_key l; l_holder := l_holder l; l_epoch := l_epoch l; l_rev := l_rev l;
     l_validUntil := l_validUntil l; l_released := l_released l || released; l_lost := l_lost l || lost;
     l_stop := l_stop l || stop; l_done := l_done l || exited |}.

Section handle.
Context {J : JetStream}.
(** Each process's monotonic clock against the shared one, and its zone. *)
Context (boot zone_of : nat -> Z).

Definition on_lease {A} (id : nat) (f : kvLease -> kvLease) (out : kvLease -> A -> Prop) (s : world) (a : A)
    (s' : world) : Prop :=
  exists l, leases s !! id = Some l /\ out l a /\ s' = set_leases (<[id := f l]> (leases s)) s.

Definition l_handle (c : lcall) (s : world) : lreply c -> world -> Prop :=
  match c return lreply c -> world -> Prop with
  | l_kv c => fun r s' => exists b', Kv.kv_handle c (bkt s) r b' /\ s' = after_kv c b' s
  | l_now p => fun t s' => s' = s /\ t = {| wall := clock s; mono := Some (clock s + boot p); zone := zone_of p |}%Z
  | l_rand => fun r s' => s' = s /\ forall b, r = Ok b -> String.length b = 16
  | l_new l => fun id s' => leases s !! id = None /\ s' = set_leases (<[id := l]> (leases s)) s
  | l_load id => fun l s' => leases s !! id = Some l /\ s' = s
  | l_renewed id rev v => on_lease id (renewed rev v) (fun _ _ => True) s
  | l_release id => on_lease id (flagged true false false false) (fun l already => already = l_released l) s
  | l_closeStop id => on_lease id (flagged false false true false) (fun _ _ => True) s
  | l_wait id => fun _ s' => s' = s /\ exists l, leases s !! id = Some l /\ l_done l = true
  | l_markLost id => on_lease id (flagged false true false false) (fun _ _ => True) s
  | l_select id => fun stop s' => s' = s /\ exists l, leases s !! id = Some l /\ (stop = true -> l_stop l = true)
  | l_exit id => on_lease id (flagged false false false true) (fun _ _ => True) s
  end.
End handle.

(** ** What every step guarantees *)

Section safety.
Context {P : LayoutParser}.
(** The application's [ttl], and whether the server expires keys at all. *)
Context (ttl : Z) (reaps : bool).

Definition entry (s : world) (k : string) (rec : leaseRecord) : Prop :=
  exists v r, Kv.live (bkt s) !! k = Some (v, r) /\ decodeLeaseRecord v = Ok rec.
Definition expiry (rec : leaseRecord) : Z := wall (ExpiresAt rec).
Definition released_holder (s : world) (h : string) : Prop :=
  exists id l, leases s !! id = Some l /\ l_holder l = h /\ l_released l = true.
Definition logged (s : world) (k : string) (rec : leaseRecord) : Prop :=
  exists v, (k, v) ∈ history s /\ decodeLeaseRecord v = Ok rec.

(** Until [until], unless it releases it, [h] owns the key at epoch [e]. *)
Definition claim (s : world) (k h : string) (e : N) (until : Z) : Prop :=
  (clock s < until)%Z -> ~ released_holder s h ->
  exists rec, entry s k rec /\ Holder rec = h /\ Epoch rec = e /\ (until <= expiry rec)%Z.

Definition same_lease (l l' : kvLease) : Prop :=
  l_key l' = l_key l /\ l_holder l' = l_holder l /\ l_epoch l' = l_epoch l /\ (l_released l = true -> l_released l' = true).

Record moves (s s' : world) : Prop := {
  m_clock : (clock s <= clock s')%Z;
  m_last : (Kv.last_rev (bkt s) <= Kv.last_rev (bkt s'))%N;
  m_rev : forall k v r, Kv.live (bkt s') !! k = Some (v, r) -> (r <= Kv.last_rev (bkt s))%N ->
            Kv.live (bkt s) !! k = Some (v, r);
  m_leases : forall id l, leases s !! id = Some l -> exists l', leases s' !! id = Some l' /\ same_lease l l';
  m_entry : forall k rec, entry s k rec -> (clock s' < expiry rec)%Z -> ~ released_holder s' (Holder rec) ->
            exists rec', entry s' k rec' /\ Holder rec' = Holder rec /\ Epoch rec' = Epoch rec /\ (expiry rec <= expiry rec')%Z;
  m_history : exists ws, history s' = history s ++ ws }.

(** What the holder that wrote revision [rev] knows. *)
Record granted (s : world) (k : string) (rev : N) (h : string) (e : N) (until : Z) : Prop := {
  g_claim : claim s k h e until;
  g_rev : (rev <= Kv.last_rev (bkt s))%N;
  g_entry : forall v, Kv.live (bkt s) !! k = Some (v, rev) ->
              exists rec, decodeLeaseRecord v = Ok rec /\ Holder rec = h /\ Epoch rec = e /\ expiry rec = until;
  g_bound : (until <= clock s + ttl)%Z;
  g_logged : exists rec, logged s k rec /\ Holder rec = h /\ Epoch rec = e;
  g_epoch : u64 e;
  g_utf8 : Utf8.utf8 h }.

Definition lease_granted (s : world) (l : kvLease) : Prop :=
  granted s (l_key l) (l_rev l) (l_holder l) (l_epoch l) (wall (l_validUntil l)).

(** Epochs only grow, one holder each. *)
Record epochs_ok (s : world) : Prop := {
  e_dominated : forall k rec, logged s k rec -> exists cur, entry s k cur /\
    ((Epoch rec < Epoch cur)%N \/ Epoch rec = Epoch cur /\ Holder rec = Holder cur);
  e_unique : forall k rec rec', logged s k rec -> logged s k rec' -> Epoch rec = Epoch rec' -> Holder rec = Holder rec';
  e_sorted : forall k i j v v' rec rec', history s !! i = Some (k, v) -> history s !! j = Some (k, v') -> i < j ->
    decodeLeaseRecord v = Ok rec -> decodeLeaseRecord v' = Ok rec' -> (Epoch rec <= Epoch rec')%N;
  e_count : forall k rec, entry s k rec -> (Epoch rec <= N.of_nat (length (history s)))%N }.

Record inv (s : world) : Prop := {
  i_rev : forall k v r, Kv.live (bkt s) !! k = Some (v, r) -> (r <= Kv.last_rev (bkt s))%N;
  i_entry : forall k v r, Kv.live (bkt s) !! k = Some (v, r) -> exists rec w,
    decodeLeaseRecord v = Ok rec /\ u64 (Epoch rec) /\ written s !! k = Some w /\ (w <= clock s)%Z /\ (expiry rec <= w + ttl)%Z;
  i_leases : forall id l, leases s !! id = Some l -> lease_granted s l;
  i_epochs : reaps = false -> (N.of_nat (length (history s)) < MaxUint64)%N -> epochs_ok s }.

Definition rely (s s' : world) : Prop := inv s -> inv s' /\ moves s s'.

Lemma moves_refl s : moves s s.
Proof.
  split; try done; [| |by exists []; rewrite app_nil_r].
  - intros id l H. exists l. by repeat split.
  - intros k rec H _ _. by exists rec.
Qed.

Lemma released_mono s s' h : moves s s' -> released_holder s h -> released_holder s' h.
Proof.
  intros Hm (id & l & Hl & Hh & Hr). destruct (m_leases _ _ Hm _ _ Hl) as (l' & Hl' & _ & Hh' & _ & Hr').
  exists id, l'. rewrite Hh'. auto.
Qed.

Lemma moves_trans s s1 s2 : moves s s1 -> moves s1 s2 -> moves s s2.
Proof.
  intros H1 H2. pose proof (m_clock _ _ H1). pose proof (m_clock _ _ H2).
  pose proof (m_last _ _ H1). pose proof (m_last _ _ H2). split.
  - lia.
  - lia.
  - intros k v r Hl Hr. apply (m_rev _ _ H1); [|done]. apply (m_rev _ _ H2); [done|lia].
  - intros id l Hl. destruct (m_leases _ _ H1 _ _ Hl) as (l1 & Hl1 & S1 & S2 & S3 & S4).
    destruct (m_leases _ _ H2 _ _ Hl1) as (l2 & Hl2 & T1 & T2 & T3 & T4). exists l2. split; [done|].
    repeat split; try congruence. auto.
  - intros k rec He Hc Hr.
    destruct (m_entry _ _ H1 k rec He) as (rec1 & He1 & Hh1 & Ee1 & Hx1); [lia|by intros Hr1; apply Hr, (released_mono _ _ _ H2)|].
    destruct (m_entry _ _ H2 k rec1 He1) as (rec2 & He2 & Hh2 & Ee2 & Hx2); [lia|by rewrite Hh1|].
    exists rec2. repeat split; [done|congruence|congruence|lia].
  - destruct (m_history _ _ H1) as [w1 E1], (m_history _ _ H2) as [w2 E2]. exists (w1 ++ w2). by rewrite E2, E1, app_assoc.
Qed.

#[export] Instance rely_refl : Reflexive rely.
Proof. intros s H. split; [done|apply moves_refl]. Qed.
#[export] Instance rely_trans : Transitive rely.
Proof.
  intros s s1 s2 H1 H2 Hi. destruct (H1 Hi) as [Hi1 M1]. destruct (H2 Hi1) as [Hi2 M2].
  split; [done|]. by eapply moves_trans.
Qed.

Lemma claim_stable s s' k h e u : moves s s' -> claim s k h e u -> claim s' k h e u.
Proof.
  intros Hm Hc Hu Hr. pose proof (m_clock _ _ Hm).
  destruct Hc as (rec & He & <- & <- & Hx); [lia|by intros Hr'; apply Hr, (released_mono _ _ _ Hm)|].
  destruct (m_entry _ _ Hm k rec He) as (rec' & He' & Hh & Ee & Hx'); [lia|done|].
  exists rec'. repeat split; [done..|lia].
Qed.

Lemma logged_stable s s' k rec : moves s s' -> logged s k rec -> logged s' k rec.
Proof.
  intros Hm (v & Hv & Hd). destruct (m_history _ _ Hm) as [ws E]. exists v. split; [|done].
  rewrite E, elem_of_app. by left.
Qed.

Lemma granted_stable s s' k rev h e u : moves s s' -> granted s k rev h e u -> granted s' k rev h e u.
Proof.
  intros Hm []. pose proof (m_clock _ _ Hm). pose proof (m_last _ _ Hm). split; try done.
  - by eapply claim_stable.
  - lia.
  - intros v Hv. apply g_entry0. apply (m_rev _ _ Hm); done.
  - lia.
  - destruct g_logged0 as (rec & Hl & ?). exists rec. split; [by eapply logged_stable|done].
Qed.
(** ** One write *)

Definition put_world (k val : string) (s : world) : world :=
  {| bkt := Kv.put k val (bkt s); written := <[k := clock s]> (written s); clock := clock s;
     leases := leases s; history := history s ++ [(k, val)] |}.

Lemma after_kv_same c s : after_kv c (bkt s) s = s.
Proof.
  unfold after_kv, wrote. destruct s as [b w cl ls hs]; cbn. destruct c; cbn; rewrite ?decide_True by done; cbn;
    by rewrite app_nil_r.
Qed.

Lemma after_kv_put c k val s :
  inv s -> (c = Kv.kv_Create k val \/ exists rev, c = Kv.kv_Update k val rev) ->
  after_kv c (Kv.put k val (bkt s)) s = put_world k val s.
Proof.
  intros Hi Hc. unfold after_kv. assert (E : wrote c (bkt s) (Kv.put k val (bkt s)) = [(k, val)]); [|by rewrite E].
  assert (Hne : Kv.live (Kv.put k val (bkt s)) !! k <> Kv.live (bkt s) !! k).
  { cbn. rewrite lookup_insert_eq. intros E. symmetry in E. apply (i_rev s Hi) in E. lia. }
  destruct Hc as [->|[rev ->]]; unfold wrote; by rewrite decide_False.
Qed.

(** Who may write what over what. *)
Inductive put_allowed (s : world) (k : string) (new : leaseRecord) : Prop :=
  | put_absent : Kv.live (bkt s) !! k = None -> Epoch new = 1%N -> put_allowed s k new
  | put_takeover cur : entry s k cur -> (expiry cur <= clock s)%Z -> Epoch new = add64 (Epoch cur) 1 -> put_allowed s k new
  | put_own cur : entry s k cur -> Epoch new = Epoch cur -> Holder new = Holder cur ->
      ((expiry cur <= expiry new)%Z \/ released_holder s (Holder cur)) -> put_allowed s k new.

Lemma entry_unique s k rec rec' : entry s k rec -> entry s k rec' -> rec = rec'.
Proof. intros (v & r & Hl & Hd) (v' & r' & Hl' & Hd'). rewrite Hl in Hl'. simplify_eq. congruence. Qed.

Lemma entry_put s k val new k' rec :
  decodeLeaseRecord val = Ok new ->
  entry (put_world k val s) k' rec <-> (k' = k /\ rec = new) \/ (k' <> k /\ entry s k' rec).
Proof.
  intros Hd. unfold entry, put_world; cbn. destruct (decide (k' = k)) as [->|Hne].
  - rewrite lookup_insert_eq. split.
    + intros (v & r & [= <- <-] & Hd'). left. split; [done|congruence].
    + intros [[_ ->]|[? _]]; [|done]. by eexists _, _.
  - rewrite lookup_insert_ne by done. split; [by right|]. by intros [[? _]|[_ ?]].
Qed.

Lemma entry_put_same s k val new : decodeLeaseRecord val = Ok new -> entry (put_world k val s) k new.
Proof. intros Hd. apply (entry_put s k val new); [done|by left]. Qed.
Lemma entry_put_other s k val new k' rec :
  decodeLeaseRecord val = Ok new -> k' <> k -> entry s k' rec -> entry (put_world k val s) k' rec.
Proof. intros Hd Hne He. apply (entry_put s k val new); [done|by right]. Qed.

Lemma logged_put s k val new k' rec :
  decodeLeaseRecord val = Ok new ->
  logged (put_world k val s) k' rec -> logged s k' rec \/ k' = k /\ rec = new.
Proof.
  intros Hd (v & Hv & Hd'). cbn in Hv. apply elem_of_app in Hv as [Hv|Hv].
  - left. by exists v.
  - right. apply list_elem_of_singleton in Hv. injection Hv as -> ->. split; [done|congruence].
Qed.

Lemma put_moves s k val new :
  put_allowed s k new -> decodeLeaseRecord val = Ok new -> moves s (put_world k val s).
Proof.
  intros Ha Hd. split; try (cbn; lia).
  - intros k' v r Hl Hr. cbn in *. destruct (decide (k' = k)) as [->|Hne].
    + rewrite lookup_insert_eq in Hl. injection Hl as _ <-. lia.
    + by rewrite lookup_insert_ne in Hl.
  - intros id l Hl. exists l. by repeat split.
  - intros k' rec He Hc Hr. destruct (decide (k' = k)) as [->|Hne].
    + exists new. split; [by apply entry_put_same|].
      destruct Ha as [Hn|cur Hcur Hx _|cur Hcur He' Hh Hx].
      * destruct He as (v & r & Hl & _). congruence.
      * pose proof (entry_unique _ _ _ _ He Hcur) as ->. cbn in Hc. lia.
      * pose proof (entry_unique _ _ _ _ He Hcur) as ->. destruct Hx as [Hx|Hx]; [done|].
        exfalso. by apply Hr.
    + exists rec. split; [by apply (entry_put_other _ _ _ new)|]. done.
  - by exists [(k, val)].
Qed.

Lemma put_epochs s k val new :
  put_allowed s k new -> decodeLeaseRecord val = Ok new ->
  (N.of_nat (length (history s)) < MaxUint64)%N -> epochs_ok s -> epochs_ok (put_world k val s).
Proof.
  intros Ha Hd Hlen He.
  (* what [new] is to an older write of the key *)
  assert (Hold : forall rec, logged s k rec -> (Epoch rec < Epoch new)%N \/ Epoch rec = Epoch new /\ Holder rec = Holder new).
  { intros rec Hl. destruct (e_dominated s He k rec Hl) as (cur & Hcur & Hd').
    destruct Ha as [Hn|cur' Hcur' _ En|cur' Hcur' En Hh _].
    - destruct Hcur as (v & r & Hv & _). congruence.
    - pose proof (entry_unique _ _ _ _ Hcur' Hcur) as ->. pose proof (e_count s He k cur Hcur).
      rewrite En, add64_small by (unfold u64, two64, MaxUint64 in *; lia). left. lia.
    - pose proof (entry_unique _ _ _ _ Hcur' Hcur) as ->. by rewrite En, Hh. }
  split.
  - intros k' rec Hl. apply (logged_put s k val new k' rec Hd) in Hl as [Hl|[-> ->]].
    + destruct (decide (k' = k)) as [->|Hne].
      * exists new. split; [by apply entry_put_same|]. by apply Hold.
      * destruct (e_dominated s He k' rec Hl) as (cur & Hcur & Hd'). exists cur.
        split; [by apply (entry_put_other _ _ _ new)|done].
    + exists new. split; [by apply entry_put_same|]. by right.
  - intros k' rec rec' H1 H2 E. apply (logged_put s k val new _ _ Hd) in H1, H2.
    destruct H1 as [H1|[-> ->]], H2 as [H2|[Hk ->]]; try subst k'; [by eapply (e_unique s He)| | |done].
    + destruct (Hold _ H1) as [?|[_ ?]]; [lia|done].
    + destruct (Hold _ H2) as [?|[_ ?]]; [lia|done].
  - intros k' i j v v' rec rec' Hi Hj Hij D D'. cbn [history put_world] in Hi, Hj.
    apply lookup_snoc_Some in Hj as [[Hlt Hj]|[Hlt [= <- <-]]].
    + rewrite lookup_app_l in Hi by lia. by apply (e_sorted s He k' i j v v').
    + rewrite lookup_app_l in Hi by lia. assert (rec' = new) as -> by congruence.
      destruct (Hold rec) as [?|[-> _]]; [exists v; split; [by eapply list_elem_of_lookup_2|done]|lia|lia].
  - intros k' rec Hk. cbn [history put_world]. rewrite length_app. cbn [length].
    apply (entry_put s k val new k' rec Hd) in Hk as [[-> ->]|[_ Hk]]; [|pose proof (e_count s He k' rec Hk); lia].
    destruct Ha as [_ ->|cur Hcur _ ->|cur Hcur -> _ _]; [lia|..]; pose proof (e_count s He k cur Hcur); [|lia].
    rewrite add64_small by (unfold u64, two64, MaxUint64 in *; lia). lia.
Qed.

Lemma put_rely s k val new :
  inv s -> put_allowed s k new -> decodeLeaseRecord val = Ok new -> u64 (Epoch new) ->
  (expiry new <= clock s + ttl)%Z -> inv (put_world k val s) /\ moves s (put_world k val s).
Proof.
  intros Hi Ha Hd Hu Hx. pose proof (put_moves _ _ _ _ Ha Hd) as Hm. split; [|done]. split.
  - intros k' v r Hl. cbn in *. destruct (decide (k' = k)) as [->|Hne].
    + rewrite lookup_insert_eq in Hl. injection Hl as _ <-. lia.
    + rewrite lookup_insert_ne in Hl by done. apply (i_rev s Hi) in Hl. lia.
  - intros k' v r Hl. cbn in *. destruct (decide (k' = k)) as [->|Hne].
    + rewrite lookup_insert_eq in Hl. injection Hl as <- <-. exists new, (clock s).
      rewrite lookup_insert_eq. split_and!; [done..|lia|done].
    + rewrite lookup_insert_ne in Hl by done. rewrite lookup_insert_ne by done. by apply (i_entry s Hi k' v r).
  - intros id l Hl. apply (granted_stable s _ _ _ _ _ _ Hm). by apply (i_leases s Hi id).
  - intros Hrp Hlen. cbn [history put_world] in Hlen. rewrite length_app in Hlen. cbn [length] in Hlen.
    apply (put_epochs s k val new Ha Hd); [lia|]. apply (i_epochs s Hi); [done|lia].
Qed.

(** What the writer then knows. *)
Lemma put_granted s k val new :
  decodeLeaseRecord val = Ok new -> u64 (Epoch new) -> Utf8.utf8 (Holder new) -> (expiry new <= clock s + ttl)%Z ->
  granted (put_world k val s) k (Kv.last_rev (bkt s) + 1) (Holder new) (Epoch new) (expiry new).
Proof.
  intros Hd Hu Hh Hx. split; try done.
  - intros _ _. exists new. split; [by apply entry_put_same|]. done.
  - intros v. cbn. rewrite lookup_insert_eq. intros [= <-]. by exists new.
  - exists new. split; [|done]. exists val. split; [|done]. cbn. apply elem_of_app. right. by apply list_elem_of_singleton.
Qed.
(** ** The other steps *)

(** A step that leaves the bucket alone. *)
Lemma quiet_rely s s' :
  bkt s' = bkt s -> written s' = written s -> history s' = history s -> (clock s <= clock s')%Z ->
  (forall id l, leases s !! id = Some l -> exists l', leases s' !! id = Some l' /\ same_lease l l') ->
  (forall id l', leases s' !! id = Some l' -> lease_granted s l') ->
  inv s -> inv s' /\ moves s s'.
Proof.
  intros Hb Hw Hh Hc Hl Hg Hi. assert (Hent : forall k rec, entry s' k rec <-> entry s k rec) by (unfold entry; by rewrite Hb).
  assert (Hlog : forall k rec, logged s' k rec <-> logged s k rec) by (unfold logged; by rewrite Hh).
  assert (Hm : moves s s').
  { split; [done|by rewrite Hb|rewrite Hb; done|done| |exists []; by rewrite app_nil_r].
    intros k rec He _ _. exists rec. by rewrite Hent. }
  split; [|done]. split.
  - rewrite Hb. apply (i_rev s Hi).
  - rewrite Hb, Hw. intros k v r Hk. destruct (i_entry s Hi k v r Hk) as (rec & w & ? & ? & ? & ? & ?).
    exists rec, w. split_and!; [done..|lia|done].
  - intros id l Hk. apply (granted_stable s _ _ _ _ _ _ Hm). by apply (Hg id).
  - rewrite Hh. intros Hr Hlen. destruct (i_epochs s Hi Hr Hlen) as [H1 H2 H3 H4]. split.
    + intros k rec. rewrite Hlog. intros Hk. destruct (H1 k rec Hk) as (cur & ?). exists cur. by rewrite Hent.
    + intros k rec rec'. rewrite !Hlog. apply H2.
    + by rewrite Hh.
    + intros k rec. rewrite Hent, Hh. apply H4.
Qed.

Lemma tick_rely s d : (0 <= d)%Z -> rely s (tick d s).
Proof.
  intros Hd Hi. apply quiet_rely; cbn; try done; [lia| |apply (i_leases s Hi)].
  intros id l Hl. exists l. by repeat split.
Qed.

Lemma set_lease_rely s id l' :
  lease_granted s l' -> (forall l, leases s !! id = Some l -> same_lease l l') ->
  rely s (set_leases (<[id := l']> (leases s)) s).
Proof.
  intros Hg Hs Hi. apply quiet_rely; cbn; try done.
  - intros id0 l Hl. destruct (decide (id0 = id)) as [->|Hne].
    + exists l'. rewrite lookup_insert_eq. split; [done|by apply Hs].
    + exists l. rewrite lookup_insert_ne by done. by repeat split.
  - intros id0 l Hl. destruct (decide (id0 = id)) as [->|Hne].
    + rewrite lookup_insert_eq in Hl. by injection Hl as <-.
    + rewrite lookup_insert_ne in Hl by done. by apply (i_leases s Hi id0).
Qed.

(** The server's expiry comes after the application's. *)
Lemma reap_rely s k w :
  reaps = true -> (ttl <= backstopBucketTTL ttl)%Z -> written s !! k = Some w ->
  (w + backstopBucketTTL ttl <= clock s)%Z -> rely s (reap k s).
Proof.
  intros Hr Ht Hw Hc Hi.
  assert (Hent : forall k' rec, entry (reap k s) k' rec -> entry s k' rec).
  { intros k' rec (v & r & Hl & Hd). cbn in Hl. apply lookup_delete_Some in Hl as [_ Hl]. by exists v, r. }
  assert (Hm : moves s (reap k s)).
  { split; cbn; try done; [|intros id l Hl; exists l; by repeat split| |exists []; by rewrite app_nil_r].
    - intros k' v r Hl _. cbn in Hl. by apply lookup_delete_Some in Hl as [_ Hl].
    - intros k' rec He Hx _. destruct (decide (k' = k)) as [->|Hne].
      + destruct He as (v & r & Hl & Hd). destruct (i_entry s Hi k v r Hl) as (rec' & w' & Hd' & _ & Hw' & _ & Hx').
        assert (rec' = rec) as -> by congruence. assert (w' = w) as -> by congruence. cbn in Hx. lia.
      + exists rec. split; [|done]. destruct He as (v & r & Hl & Hd). exists v, r. split; [|done].
        cbn. by rewrite lookup_delete_ne. }
  split; [|done]. split; [| |intros id l Hl; by apply (granted_stable s _ _ _ _ _ _ Hm), (i_leases s Hi id)|congruence].
  - intros k' v r Hl. cbn in Hl. apply lookup_delete_Some in Hl as [_ Hl]. by apply (i_rev s Hi k' v).
  - intros k' v r Hl. cbn in Hl. apply lookup_delete_Some in Hl as [_ Hl]. by apply (i_entry s Hi k' v r).
Qed.
(** ** The programs *)

Section programs.
Context `{Sto : Storage} {J : JetStream}.
Context (boot zone_of : nat -> Z) (zone_minutes : forall p, (zone_of p mod 60 = 0)%Z).

Notation lwp := (wp (l_handle boot zone_of) rely rely).

(** A write through the seam: it lands, and is ours, or it may have landed, or not. *)
Lemma kv_write_wp {A} c k val new (fin : forall b : Kv.kvreply c, LM A) Q s :
  (c = Kv.kv_Create k val \/ exists rev, c = Kv.kv_Update k val rev) ->
  inv s -> decodeLeaseRecord val = Ok new -> u64 (Epoch new) -> Utf8.utf8 (Holder new) ->
  (forall s1 r b', inv s1 -> moves s s1 -> Kv.kv_handle c (bkt s1) r b' ->
     b' = bkt s1 \/ b' = Kv.put k val (bkt s1) /\ put_allowed s1 k new /\ (expiry new <= clock s1 + ttl)%Z) ->
  (forall s1 r b' s2, inv s1 -> moves s s1 -> Kv.kv_handle c (bkt s1) r b' -> inv s2 -> moves s s2 ->
     (b' = Kv.put k val (bkt s1) -> granted s2 k (Kv.last_rev b') (Holder new) (Epoch new) (expiry new)) ->
     lwp (fin r) Q s2) ->
  lwp (Vis (l_kv c : lcall) fin) Q s.
Proof.
  intros Hc Hi Hd Hu Hh Hstep Hfin s1 H1 r s2 (b' & Hb & ->). destruct (H1 Hi) as [Hi1 M1].
  destruct (Hstep s1 r b' Hi1 M1 Hb) as [->|(-> & Ha & Hx)].
  - rewrite after_kv_same. split; [done|]. apply (Hfin s1 r (bkt s1)); try done.
    intros E. apply (f_equal Kv.last_rev) in E. cbn in E. lia.
  - rewrite (after_kv_put c k val) by done. destruct (put_rely s1 k val new) as [Hi2 M2]; [done..|].
    split; [done|]. apply (Hfin s1 r (Kv.put k val (bkt s1))); try done; [by eapply moves_trans|].
    intros _. by apply put_granted.
Qed.

(** What [kv_Update] and [kv_Create] may leave. *)
Lemma update_outcome k val rev b r b' :
  Kv.kv_handle (Kv.kv_Update k val rev) b r b' ->
  (b' = b \/ b' = Kv.put k val b /\ exists v0, Kv.live b !! k = Some (v0, rev)) /\
  (forall rev', r = Ok rev' -> b' = Kv.put k val b /\ rev' = Kv.last_rev b').
Proof.
  cbn. destruct r as [rev'|e].
  - intros (Hc & -> & ->). split; [by right|]. by intros rev'' [= <-].
  - intros [_ H]. split; [|done]. destruct (_ || _); [left; by apply H|]. destruct H as [->|[? ->]]; [by left|by right].
Qed.
Lemma create_outcome k val b r b' :
  Kv.kv_handle (Kv.kv_Create k val) b r b' ->
  (b' = b \/ b' = Kv.put k val b /\ Kv.live b !! k = None) /\
  (forall rev', r = Ok rev' -> b' = Kv.put k val b /\ rev' = Kv.last_rev b').
Proof.
  cbn. destruct r as [rev'|e].
  - intros (Hc & -> & ->). split; [by right|]. by intros rev'' [= <-].
  - intros [_ H]. split; [|done]. destruct (_ || _); [left; by apply H|]. destruct H as [->|[? ->]]; [by left|by right].
Qed.

Lemma seam_update_wp {A} k val rev new (f : res N -> LM A) Q s :
  inv s -> decodeLeaseRecord val = Ok new -> u64 (Epoch new) -> Utf8.utf8 (Holder new) ->
  (forall s1, inv s1 -> moves s s1 -> (exists v0, Kv.live (bkt s1) !! k = Some (v0, rev)) ->
     put_allowed s1 k new /\ (expiry new <= clock s1 + ttl)%Z) ->
  (forall s2 rev', inv s2 -> moves s s2 -> granted s2 k rev' (Holder new) (Epoch new) (expiry new) ->
     lwp (f (Ok rev')) Q s2) ->
  (forall s2 err, inv s2 -> moves s s2 -> lwp (f (Err err)) Q s2) ->
  lwp (bind (kv (Kv.seam_update k val rev)) f) Q s.
Proof.
  intros Hi Hd Hu Hh Hput Hok Herr.
  apply (kv_write_wp (Kv.kv_Update k val rev) k val new); try done; [right; by eexists| |].
  - intros s1 r b' Hi1 M1 Hb. destruct (update_outcome _ _ _ _ _ _ Hb) as [[->|[-> Hc]] _]; [by left|right].
    destruct (Hput s1 Hi1 M1 Hc). done.
  - intros s1 r b' s2 Hi1 M1 Hb Hi2 M2 Hg. destruct (update_outcome _ _ _ _ _ _ Hb) as [_ Hr].
    destruct r as [rev'|e]; cbn.
    + destruct (Hr rev' eq_refl) as [E ->]. by apply Hok; [| |apply Hg].
    + repeat case_match; by apply Herr.
Qed.

Lemma seam_create_wp {A} k val new (f : res N -> LM A) Q s :
  inv s -> decodeLeaseRecord val = Ok new -> Epoch new = 1%N -> Utf8.utf8 (Holder new) -> (expiry new <= clock s + ttl)%Z ->
  (forall s2 rev', inv s2 -> moves s s2 -> granted s2 k rev' (Holder new) (Epoch new) (expiry new) ->
     lwp (f (Ok rev')) Q s2) ->
  (forall s2 err, inv s2 -> moves s s2 -> lwp (f (Err err)) Q s2) ->
  lwp (bind (kv (Kv.seam_create k val)) f) Q s.
Proof.
  intros Hi Hd He Hh Hx Hok Herr.
  apply (kv_write_wp (Kv.kv_Create k val) k val new); try done; [by left|by rewrite He| |].
  - intros s1 r b' Hi1 M1 Hb. destruct (create_outcome _ _ _ _ _ Hb) as [[->|[-> Hc]] _]; [by left|right].
    pose proof (m_clock _ _ M1). split_and!; [done|by apply put_absent|lia].
  - intros s1 r b' s2 Hi1 M1 Hb Hi2 M2 Hg. destruct (create_outcome _ _ _ _ _ Hb) as [_ Hr].
    destruct r as [rev'|e]; cbn.
    + destruct (Hr rev' eq_refl) as [E ->]. by apply Hok; [| |apply Hg].
    + repeat case_match; by apply Herr.
Qed.

Notation any := (fun _ _ => True).

(** A reading of [p]'s clock. *)
Definition now_at (p : nat) (s : world) : Time :=
  {| wall := clock s; mono := Some (clock s + boot p)%Z; zone := zone_of p |}.

Lemma now_wp {A} p (f : Time -> LM A) Q s :
  inv s -> (forall s1, inv s1 -> moves s s1 -> lwp (f (now_at p s1)) Q s1) -> lwp (bind (ldo (l_now p)) f) Q s.
Proof.
  intros Hi H s1 H1 r s2 [-> ->]. destruct (H1 Hi) as [Hi1 M1]. split; [reflexivity|]. by apply H.
Qed.

(** What [encode] stamps, it stamps from a reading, and it decodes to itself. *)
Lemma encode_wp {A} p e h (f : res string * Time -> LM A) Q s :
  inv s -> u64 e -> Utf8.utf8 h ->
  (forall s1 enc, inv s1 -> moves s s1 -> (clock s + ttl <= wall enc.2 <= clock s1 + ttl)%Z ->
     (forall val, enc.1 = Ok val -> exists new, decodeLeaseRecord val = Ok new /\ Epoch new = e /\ Holder new = h /\
        expiry new = wall enc.2) -> lwp (f enc) Q s1) ->
  lwp (bind (encode ttl p e h) f) Q s.
Proof.
  intros Hi Hu Hh H. unfold encode. apply wp_bind, now_wp; [apply _|done|]. intros s1 Hi1 M1 s2 H2.
  destruct (H2 Hi1) as [Hi2 M2]. pose proof (m_clock _ _ M1). pose proof (m_clock _ _ M2).
  apply H; [done|by eapply moves_trans|cbn; lia|].
  intros val Hv. cbn in Hv. exists {| Epoch := e; Holder := h; ExpiresAt := stored (Add (now_at p s1) ttl) |}.
  split; [|done]. apply (decode_encode _ _ Hv); [done|done|apply zone_minutes].
Qed.

Lemma start_wp {A} name key holder e rev until (f : nat -> LM A) Q s :
  inv s -> granted s key rev holder e (wall until) ->
  (forall s1 id, inv s1 -> lwp (f id) Q s1) ->
  lwp (bind (start name key holder e rev until) f) Q s.
Proof.
  intros Hi Hg H s1 H1 id s2 [Hid ->]. destruct (H1 Hi) as [Hi1 M1].
  assert (Hr : rely s1 (set_leases (<[id := {| l_name := name; l_key := key; l_holder := holder; l_epoch := e;
    l_rev := rev; l_validUntil := until; l_released := false; l_lost := false; l_stop := false; l_done := false |}]> (leases s1)) s1)).
  { apply set_lease_rely; [by apply (granted_stable s)|intros l Hl; cbn in Hid; by rewrite Hid in Hl]. }
  split; [done|]. apply H. by apply (Hr Hi1).
Qed.

Lemma createLease_wp p name key holder s :
  inv s -> Utf8.utf8 holder -> lwp (createLease ttl p name key holder 1) any s.
Proof.
  intros Hi Hh. apply encode_wp; [done..|]. intros s1 enc Hi1 M1 Hw Henc.
  destruct (enc.1) as [val|err]; [|done]. destruct (Henc val eq_refl) as (new & Hd & He & Hho & Hx).
  apply (seam_create_wp key val new); [done..|by rewrite Hho|lia| |].
  - intros s2 rev Hi2 M2 Hg. rewrite Hho, He, Hx in Hg. by apply start_wp.
  - intros s2 err Hi2 M2. cbn. by destruct (is_key_exists err).
Qed.

Lemma updateLease_wp p name key holder cur e rev s :
  inv s -> Utf8.utf8 holder -> (expiry cur <= clock s)%Z -> (rev <= Kv.last_rev (bkt s))%N ->
  (forall v, Kv.live (bkt s) !! key = Some (v, rev) -> decodeLeaseRecord v = Ok cur) -> e = add64 (Epoch cur) 1 ->
  lwp (updateLease ttl p name key holder e rev) any s.
Proof.
  intros Hi Hh Hexp Hrev Hcur ->. apply encode_wp; [done|apply add64_u64|done|]. intros s1 enc Hi1 M1 Hw Henc.
  destruct (enc.1) as [val|err]; [|done]. destruct (Henc val eq_refl) as (new & Hd & He & Hho & Hx).
  apply (seam_update_wp key val rev new); [done..|rewrite He; apply add64_u64|by rewrite Hho| | |].
  - intros s2 Hi2 M2 (v & Hv). pose proof (m_clock _ _ M1). pose proof (m_clock _ _ M2). split; [|lia].
    assert (M : moves s s2) by (by eapply moves_trans). apply (put_takeover s2 key new cur); [|lia|done].
    exists v, rev. split; [done|]. by apply Hcur, (m_rev _ _ M).
  - intros s2 rev' Hi2 M2 Hg. rewrite Hho, He, Hx in Hg. by apply start_wp.
  - intros s2 err Hi2 M2. cbn. by destruct (_ || _).
Qed.

Lemma seam_get_wp {A} k (f : res (string * N) -> LM A) Q s :
  inv s ->
  (forall s1 v r, inv s1 -> moves s s1 -> Kv.live (bkt s1) !! k = Some (v, r) -> lwp (f (Ok (v, r))) Q s1) ->
  (forall s1 err, inv s1 -> moves s s1 -> lwp (f (Err err)) Q s1) ->
  lwp (bind (kv (Kv.seam_get k)) f) Q s.
Proof.
  intros Hi Hok Herr s1 H1 r s2 (b' & [-> Hr] & ->). rewrite after_kv_same. destruct (H1 Hi) as [Hi1 M1].
  split; [done|]. destruct r as [[v r]|e]; cbn; [by apply Hok|]. destruct (is_nats _ e); by apply Herr.
Qed.

Lemma expired_wp {A} p rec v (f : bool -> LM A) Q s :
  inv s -> decodeLeaseRecord v = Ok rec ->
  (forall s1 ex, inv s1 -> moves s s1 -> (ex = true -> (expiry rec <= clock s1)%Z) -> lwp (f ex) Q s1) ->
  lwp (bind (expired p rec) f) Q s.
Proof.
  intros Hi Hd H. unfold expired. apply wp_bind, now_wp; [apply _|done|]. intros s1 Hi1 M1 s2 H2.
  destruct (H2 Hi1) as [Hi2 M2]. pose proof (m_clock _ _ M2). apply H; [done|by eapply moves_trans|].
  unfold After. rewrite (decode_mono _ _ Hd). rewrite negb_true_iff, Z.ltb_ge. cbn. unfold expiry. lia.
Qed.

Lemma holder_utf8 b : Utf8.utf8 (hex_EncodeToString b).
Proof.
  apply Utf8.ascii_utf8. eapply str_forallb_impl; [|apply hex_bytes]. intros c.
  unfold byte_in, Utf8.is_ascii. rewrite orb_true_iff, !andb_true_iff, !N.leb_le, N.ltb_lt. lia.
Qed.

Lemma holder_wp {A} (f : res string -> LM A) Q s :
  inv s -> (forall s1 r, inv s1 -> moves s s1 -> (forall h, r = Ok h -> Utf8.utf8 h) -> lwp (f r) Q s1) ->
  lwp (bind newHolderID f) Q s.
Proof.
  intros Hi H s1 H1 r s2 [-> _]. destruct (H1 Hi) as [Hi1 M1]. split; [reflexivity|].
  destruct r as [b|e]; apply H; try done. intros h [= <-]. apply holder_utf8.
Qed.

Lemma Acquire_wp p name s : inv s -> lwp (Acquire ttl p name) any s.
Proof.
  intros Hi. unfold Acquire. destruct (leaseKeyForName name) as [key|e]; [|done].
  apply holder_wp; [done|]. intros s1 [holder|e] Hi1 M1 Hh; [|done]. specialize (Hh holder eq_refl).
  apply seam_get_wp; [done| |].
  - intros s2 v rev Hi2 M2 Hv. destruct (decodeLeaseRecord v) as [rec|derr] eqn:Hd; [|done].
    apply (expired_wp p rec v); [done..|]. intros s3 ex Hi3 M3 Hex. destruct ex; [|done]. cbn [negb].
    pose proof (m_last _ _ M3). pose proof (i_rev _ Hi2 _ _ _ Hv).
    apply (updateLease_wp p name key _ rec _ rev); [done|done|by apply Hex|lia| |done].
    intros v' Hv'. apply (m_rev _ _ M3) in Hv'; [|done]. rewrite Hv in Hv'. injection Hv' as <-. done.
  - intros s2 err Hi2 M2. destruct (is_key_not_found err); [|done]. by apply createLease_wp.
Qed.

(** The critical sections of a lease object. *)
Lemma flag_wp {A} id rel lost stop ex (c : lcall) (k : lreply c -> LM A) Q s :
  (forall s1 r s2, l_handle boot zone_of c s1 r s2 -> exists l, leases s1 !! id = Some l /\
     s2 = set_leases (<[id := flagged rel lost stop ex l]> (leases s1)) s1) ->
  inv s -> (forall s2 r l, inv s2 -> moves s s2 -> leases s2 !! id = Some l -> (rel = true -> l_released l = true) ->
     lwp (k r) Q s2) ->
  lwp (Vis c k) Q s.
Proof.
  intros Hc Hi H s1 H1 r s2 Hs. destruct (H1 Hi) as [Hi1 M1]. destruct (Hc _ _ _ Hs) as (l & Hl & ->).
  assert (Hr : rely s1 (set_leases (<[id := flagged rel lost stop ex l]> (leases s1)) s1)).
  { apply set_lease_rely; [apply (i_leases s1 Hi1 id l Hl)|]. intros l' Hl'. rewrite Hl in Hl'. injection Hl' as <-.
    repeat split. cbn. by intros ->. }
  split; [done|]. destruct (Hr Hi1) as [Hi2 M2].
  apply (H _ r (flagged rel lost stop ex l)); [done|by eapply moves_trans|cbn; by rewrite lookup_insert_eq|].
  intros ->. cbn. by destruct (l_released l).
Qed.

Lemma load_wp {A} id (f : kvLease -> LM A) Q s :
  inv s -> (forall s1 l, inv s1 -> moves s s1 -> leases s1 !! id = Some l -> lease_granted s1 l -> lwp (f l) Q s1) ->
  lwp (bind (ldo (l_load id)) f) Q s.
Proof.
  intros Hi H s1 H1 l s2 [Hl ->]. destruct (H1 Hi) as [Hi1 M1]. split; [reflexivity|].
  apply H; try done. by apply (i_leases s1 Hi1 id).
Qed.

Lemma renewed_wp {A} id rev until l (f : unit -> LM A) Q s :
  inv s -> leases s !! id = Some l -> granted s (l_key l) rev (l_holder l) (l_epoch l) (wall until) ->
  (forall s2, inv s2 -> lwp (f tt) Q s2) -> lwp (bind (ldo (l_renewed id rev until)) f) Q s.
Proof.
  intros Hi Hl Hg H s1 H1 [] s2 (l1 & Hl1 & _ & ->). destruct (H1 Hi) as [Hi1 M1].
  destruct (m_leases _ _ M1 _ _ Hl) as (l1' & Hl1' & Ek & Eh & Ee & _). rewrite Hl1 in Hl1'. injection Hl1' as <-.
  assert (Hr : rely s1 (set_leases (<[id := renewed rev until l1]> (leases s1)) s1)).
  { apply set_lease_rely.
    - unfold lease_granted. cbn. rewrite Ek, Eh, Ee. by apply (granted_stable s).
    - intros l' Hl'. rewrite Hl1 in Hl'. injection Hl' as <-. by repeat split. }
  split; [done|]. apply H. by apply (Hr Hi1).
Qed.

(** The entry at the revision a lease holds is the one it wrote. *)
Lemma own_entry s l v new :
  lease_granted s l -> Kv.live (bkt s) !! l_key l = Some (v, l_rev l) ->
  Epoch new = l_epoch l -> Holder new = l_holder l ->
  ((wall (l_validUntil l) <= expiry new)%Z \/ released_holder s (l_holder l)) -> put_allowed s (l_key l) new.
Proof.
  intros Hg Hv He Hh Hx. destruct (g_entry _ _ _ _ _ _ Hg v Hv) as (cur & Hd & Eh & Ee & Ex).
  apply (put_own s _ new cur); [by exists v, (l_rev l)|congruence|congruence|]. by rewrite Ex, Eh.
Qed.

Lemma renew_wp p id s : inv s -> lwp (renew ttl p id) (fun _ s' => inv s') s.
Proof.
  assert (Hret : forall b s1, inv s1 -> lwp (Ret b : LM bool) (fun _ s' => inv s') s1)
    by (intros b s1 Hi1 s' H'; by apply H').
  intros Hi. apply load_wp; [done|]. intros s1 l Hi1 M1 Hl Hg.
  apply encode_wp; [done|apply Hg|apply Hg|]. intros s2 enc Hi2 M2 Hw Henc.
  destruct (enc.1) as [val|err]; [|by apply Hret].
  destruct (Henc val eq_refl) as (new & Hd & He & Hho & Hx). pose proof (g_bound _ _ _ _ _ _ Hg).
  apply (seam_update_wp _ val (l_rev l) new); [done|done|rewrite He; apply Hg|rewrite Hho; apply Hg| | |].
  - intros s3 Hi3 M3 (v & Hv). pose proof (m_clock _ _ M3). split; [|lia].
    assert (Hg3 : lease_granted s3 l) by (apply (granted_stable s1); [by eapply moves_trans|done]).
    apply (own_entry s3 l v); [done..|]. left. lia.
  - intros s3 rev Hi3 M3 Hg3. rewrite Hho, He, Hx in Hg3.
    destruct (m_leases _ _ (moves_trans _ _ _ M2 M3) _ _ Hl) as (l3 & Hl3 & Ek & Eh & Ee & _).
    apply (renewed_wp id rev enc.2 l3); [done|done|by rewrite Ek, Eh, Ee|]. intros s4 Hi4. by apply Hret.
  - intros s3 err Hi3 M3. cbv beta iota. destruct (_ || _); [by apply Hret|].
    apply load_wp; [done|]. intros s4 l4 Hi4 _ _ _. apply now_wp; [done|]. intros s5 Hi5 _.
    destruct (negb _); by apply Hret.
Qed.

Lemma exit_wp id s : inv s -> lwp (ldo (l_exit id)) any s.
Proof. intros Hi. apply (flag_wp id false false false true); [|done|done]. intros s1 r s2 (l & Hl & _ & ->). by exists l. Qed.

Lemma heartbeat_wp p beats id s : inv s -> lwp (heartbeat ttl p beats id) any s.
Proof.
  revert s. induction beats as [|beats IH]; intros s Hi; [done|].
  intros s1 H1 stop s2 [-> _]. destruct (H1 Hi) as [Hi1 M1]. split; [reflexivity|].
  destruct stop; [by apply exit_wp|].
  change (lwp (bind (renew ttl p id) (fun ok : bool => if ok then heartbeat ttl p beats id
    else bind (ldo (l_markLost id)) (fun _ => ldo (l_exit id)))) any s1).
  apply wp_bind; [apply _|]. apply wp_mono with (Q := fun _ s' => inv s'); [by apply renew_wp|]. intros ok s3 Hi3.
  destruct ok; [by apply IH|].
  apply (flag_wp id false true false false); [intros s4 r s5 (l & Hl & _ & ->); by exists l|done|].
  intros s4 [] l Hi4 _ _ _. by apply exit_wp.
Qed.

Lemma Release_wp p id s : (0 < ttl)%Z -> inv s -> lwp (Release p id) any s.
Proof.
  intros Ht Hi. apply (flag_wp id true false false false);
    [intros s1 r s2 (l & Hl & _ & ->); by exists l|done|].
  intros s1 already l1 Hi1 _ Hl1 Hrel. destruct already; [done|]. specialize (Hrel eq_refl).
  apply (flag_wp id false false true false); [intros s2 r s3 (l & Hl & _ & ->); by exists l|done|].
  intros s2 [] _ Hi2 M2 _ _. intros s3 H3 [] s4 [-> _]. destruct (H3 Hi2) as [Hi3 M3]. split; [reflexivity|].
  apply (flag_wp id false true false false); [intros s4 r s5 (l & Hl & _ & ->); by exists l|done|].
  intros s4 [] _ Hi4 M4 _ _. apply load_wp; [done|]. intros s5 l Hi5 M5 Hl Hg.
  assert (Hrl : released_holder s5 (l_holder l)).
  { assert (M : moves s1 s5) by (repeat (eapply moves_trans; [eassumption|]); apply moves_refl).
    destruct (m_leases _ _ M _ _ Hl1) as (l' & Hl' & _ & _ & _ & Hr). rewrite Hl in Hl'. injection Hl' as <-.
    exists id, l. auto. }
  apply now_wp; [done|]. intros s6 Hi6 M6.
  destruct (encodeLeaseRecord _) as [val|err] eqn:He; [|done].
  apply decode_encode in He as Hd; [|apply Hg|apply Hg|apply zone_minutes].
  eapply (seam_update_wp _ val (l_rev l)); [done|exact Hd|apply Hg|apply Hg| |done|].
  - intros s7 Hi7 M7 (v & Hv). pose proof (m_clock _ _ M7). split; [|cbn; lia].
    assert (M : moves s5 s7) by (by eapply moves_trans).
    apply (own_entry s7 l v); [by apply (granted_stable s5)|done..|]. right. by apply (released_mono _ _ _ M).
  - intros s7 err Hi7 M7. by destruct (_ || _).
Qed.
End programs.
End safety.

End LeaseSafety.
