(* ===== verification/LeaseSystem.v ===== *)
(** * The lease system: leasers, heartbeats, the clock and the server's expiry.

    Any number of processes run [Acquire], heartbeats and [Release] at once, every call an
    interleaving point, while the clock moves and, where the bucket was made with its
    server-side TTL, the server reaps keys.  From an empty bucket: leases in force exclude
    one another; without reaping their epochs only grow; with it they may restart. *)

From S2P Require Import Prelude GoText Encoding Json GoTime Storage Nats Names Prog Kv Lease LeaseSafety.
From Stdlib Require Import Ascii.
Open Scope stdpp_scope.
Open Scope go_scope.
Import Json GoTime Lease LeaseSafety.

Module LeaseSystem.

Inductive method :=
  | MAcquire (p : nat) (name : string)
  | MHeartbeat (p beats id : nat)
  | MRelease (p id : nat).

Section system.
Context `{Sto : Storage} {J : JetStream} {P : LayoutParser}.
(** The store's [ttl], whether the bucket has its own, and the processes' clocks. *)
Context (ttl : Z) (reaps : bool) (boot zone_of : nat -> Z).

Definition method_prog (m : method) : LM unit :=
  match m with
  | MAcquire p name => _ <- Acquire ttl p name; Ret tt
  | MHeartbeat p beats id => heartbeat ttl p beats id
  | MRelease p id => _ <- Release p id; Ret tt
  end.

Inductive env : world -> world -> Prop :=
  | env_tick d s : (0 <= d)%Z -> env s (tick d s)
  | env_reap k w s : reaps = true -> written s !! k = Some w -> (w + backstopBucketTTL ttl <= clock s)%Z ->
      env s (reap k s).

Definition config : Type := list (thread (R := lreply) (S := world) (T := method) (A := unit)) * world.

Inductive step : config -> config -> Prop :=
  | step_call c c' : pool_step (l_handle boot zone_of) method_prog (fun _ => True) c c' -> step c c'
  | step_env ts s s' : env s s' -> step (ts, s) (ts, s').

Definition reachable (c : config) : Prop := rtc step ([], nowhere) c.

(** A lease its holder may still use: not released, and within its local validity. *)
Definition in_force (s : world) (l : kvLease) : Prop :=
  l_released l = false /\ (clock s < wall (l_validUntil l))%Z.

(** The sixteen random bytes of two acquisitions differ. *)
Definition distinct_holders (s : world) : Prop :=
  forall i j l l', leases s !! i = Some l -> leases s !! j = Some l' -> l_holder l = l_holder l' -> i = j.

(** ** The invariant holds in every reachable state *)

Section sound.
Context (ttl_pos : (0 < ttl)%Z) (ttl_covered : (ttl <= backstopBucketTTL ttl)%Z)
  (zone_minutes : forall p, (zone_of p mod 60 = 0)%Z).

Notation rely := (rely ttl reaps).
Notation inv := (inv ttl reaps).
Notation any := (fun _ _ => True).

Lemma nowhere_inv : inv nowhere.
Proof.
  split; cbn; try (intros *; rewrite lookup_empty; done).
  intros _ _. split; cbn.
  - intros k rec (v & Hv & _). by apply not_elem_of_nil in Hv.
  - intros k rec rec' (v & Hv & _). by apply not_elem_of_nil in Hv.
  - intros k i j v v' rec rec' H. by rewrite lookup_nil in H.
  - intros k rec (v & r & H & _). cbn in H. by rewrite lookup_empty in H.
Qed.

Lemma then_done {A} (p : LM A) s :
  wp (l_handle boot zone_of) rely rely p any s ->
  wp (l_handle boot zone_of) rely rely (bind p (fun _ => Ret tt)) any s.
Proof. intros H. apply wp_bind; [apply _|]. apply wp_mono with (Q := any); [exact H|done]. Qed.

Lemma method_wp m s : inv s -> wp (l_handle boot zone_of) rely rely (method_prog m) any s.
Proof.
  intros Hi. destruct m as [p name|p beats id|p id]; cbn [method_prog].
  - apply then_done. by apply Acquire_wp.
  - by apply heartbeat_wp.
  - apply then_done. by apply Release_wp.
Qed.

Lemma env_rely s s' : env s s' -> rely s s'.
Proof. intros []; [by apply tick_rely|by eapply reap_rely]. Qed.

Lemma system_ok c c' :
  rtc step c c' -> pool_ok (l_handle boot zone_of) rely rely (fun _ => True) (fun _ _ => any) nowhere c ->
  rely c.2 c'.2 /\ pool_ok (l_handle boot zone_of) rely rely (fun _ => True) (fun _ _ => any) nowhere c'.
Proof.
  induction 1 as [c|c c1 c2 Hstep _ IH]; intros Hok; [done|].
  assert (H : rely c.2 c1.2 /\ pool_ok (l_handle boot zone_of) rely rely (fun _ => True) (fun _ _ => any) nowhere c1).
  { destruct Hstep as [c c' Hs|ts s s' He].
    - eapply (pool_ok_step _ _ _ method_prog); [auto| |exact Hs|done].
      intros t s _ Hr. apply method_wp. by apply (Hr nowhere_inv).
    - apply env_rely in He. split; [done|]. eapply pool_ok_env; [apply _|exact He|exact Hok]. }
  destruct H as [Hr Hok1]. destruct (IH Hok1) as [Hr' Hok2]. split; [by etrans|done].
Qed.

Lemma lease_reachable_inv c : reachable c -> inv c.2.
Proof.
  intros H. destruct (system_ok _ _ H) as [Hr _]; [by split; [|constructor]|]. apply (Hr nowhere_inv).
Qed.

(** ** What leases guarantee *)

Lemma force_owns s i l :
  inv s -> distinct_holders s -> leases s !! i = Some l -> in_force s l ->
  exists rec, entry s (l_key l) rec /\ Holder rec = l_holder l /\ Epoch rec = l_epoch l /\
    (wall (l_validUntil l) <= expiry rec)%Z.
Proof.
  intros Hi Hd Hl [Hr Hc]. apply (g_claim _ _ _ _ _ _ _ (i_leases _ _ _ Hi i l Hl)); [done|].
  intros (j & l' & Hl' & Hh & Hr'). rewrite (Hd j i l' l Hl' Hl Hh) in Hl'. congruence.
Qed.

(** C17. In every reachable state the bucket names the holder of each lease in force, at its
    epoch and with an expiry no earlier than the lease's own validity, so that no other
    process reads the entry as expired; two leases in force on one key are the same lease.
    Here any number of processes acquire, renew and release, every call may fail, be lost
    after it took effect or interleave with others, and the server may reap old keys. *)
Theorem lease_exclusive ts s :
  reachable (ts, s) -> distinct_holders s ->
  (forall i l, leases s !! i = Some l -> in_force s l ->
     exists rec, entry s (l_key l) rec /\ Holder rec = l_holder l /\ Epoch rec = l_epoch l /\
       (wall (l_validUntil l) <= expiry rec)%Z) /\
  (forall i j l l', leases s !! i = Some l -> leases s !! j = Some l' -> l_key l = l_key l' ->
     in_force s l -> in_force s l' -> i = j).
Proof.
  intros Hr Hd. pose proof (lease_reachable_inv _ Hr) as Hi. cbn in Hi. split.
  - intros i l Hl. by apply (force_owns s i).
  - intros i j l l' Hl Hl' Hk Hf Hf'.
    destruct (force_owns s i l Hi Hd Hl Hf) as (rec & He & Hh & _).
    destruct (force_owns s j l' Hi Hd Hl' Hf') as (rec' & He' & Hh' & _). rewrite <- Hk in He'.
    pose proof (entry_unique _ _ _ _ He He') as <-. apply (Hd i j l l' Hl Hl'). congruence.
Qed.

(** C18. Where the server reaps nothing, and fewer than 2^64-1 records were ever written, the
    epochs stored under a key never decrease from write to write, an epoch is only ever
    written by one holder, and so two leases of a key with one epoch have one holder. *)
Theorem lease_epochs_monotonic ts s :
  reaps = false -> reachable (ts, s) -> (N.of_nat (length (history s)) < MaxUint64)%N ->
  (forall k i j v v' rec rec', history s !! i = Some (k, v) -> history s !! j = Some (k, v') -> i < j ->
     decodeLeaseRecord v = Ok rec -> decodeLeaseRecord v' = Ok rec' ->
     (Epoch rec <= Epoch rec')%N /\ (Epoch rec = Epoch rec' -> Holder rec = Holder rec')) /\
  (forall i j l l', leases s !! i = Some l -> leases s !! j = Some l' -> l_key l = l_key l' ->
     l_epoch l = l_epoch l' -> l_holder l = l_holder l').
Proof.
  intros Hn Hr Hlen. pose proof (lease_reachable_inv _ Hr) as Hi. cbn in Hi.
  destruct (i_epochs _ _ _ Hi Hn Hlen) as [_ Hu Hs _]. split.
  - intros k i j v v' rec rec' H H' Hij D D'. split; [by apply (Hs k i j v v')|]. intros E.
    apply (Hu k); [exists v|exists v'|done]; (split; [by eapply list_elem_of_lookup_2|done]).
  - intros i j l l' Hl Hl' Hk E.
    destruct (g_logged _ _ _ _ _ _ _ (i_leases _ _ _ Hi i l Hl)) as (rec & Hg & Hh & He).
    destruct (g_logged _ _ _ _ _ _ _ (i_leases _ _ _ Hi j l' Hl')) as (rec' & Hg' & Hh' & He').
    rewrite <- Hh, <- Hh'. apply (Hu (l_key l)); [done|by rewrite Hk|congruence].
Qed.
End sound.

(** ** An acquisition of a free key, run alone *)

Definition new_lease (p : nat) (name key holder : string) (s : world) : kvLease :=
  {| l_name := name; l_key := key; l_holder := holder; l_epoch := 1; l_rev := Kv.last_rev (bkt s) + 1;
     l_validUntil := Add (now_at boot zone_of p s) ttl; l_released := false; l_lost := false; l_stop := false;
     l_done := false |}.
Definition acquired (p id : nat) (name key holder val : string) (s : world) : world :=
  set_leases (<[id := new_lease p name key holder s]> (leases s)) (put_world key val s).

Lemma after_kv_create k val s :
  Kv.live (bkt s) !! k = None -> after_kv (Kv.kv_Create k val) (Kv.put k val (bkt s)) s = put_world k val s.
Proof.
  intros Hn. unfold after_kv, wrote. rewrite decide_False; [done|]. cbn. by rewrite lookup_insert_eq, Hn.
Qed.

Notation runs := (runs (l_handle boot zone_of)).

Lemma runs_get_absent {A} key (f : res (string * N) -> LM A) s a s' :
  Kv.live (bkt s) !! key = None -> runs (f (Err errKVKeyNotFound)) s a s' ->
  runs (bind (kv (Kv.seam_get key)) f) s a s'.
Proof.
  intros Hn Hf. exists (Err (Nats js_ErrKeyNotFound)), s. split; [|exact Hf].
  exists (bkt s). rewrite after_kv_same. split; [|done]. split; [done|]. split; [by split_and!|done].
Qed.

Lemma runs_create {A} key val (f : res N -> LM A) s a s' :
  Kv.live (bkt s) !! key = None -> runs (f (Ok (Kv.last_rev (bkt s) + 1)%N)) (put_world key val s) a s' ->
  runs (bind (kv (Kv.seam_create key val)) f) s a s'.
Proof.
  intros Hn Hf. exists (Ok (Kv.last_rev (bkt s) + 1)%N), (put_world key val s). split; [|exact Hf].
  exists (Kv.put key val (bkt s)). rewrite after_kv_create by done. by split.
Qed.

Lemma runs_createLease p id name key holder val s :
  Kv.live (bkt s) !! key = None -> leases s !! id = None ->
  encodeLeaseRecord {| Epoch := 1; Holder := holder; ExpiresAt := Add (now_at boot zone_of p s) ttl |} = Ok val ->
  runs (createLease ttl p name key holder 1) s (Ok id) (acquired p id name key holder val s).
Proof.
  intros Hn Hid He. unfold createLease.
  apply runs_bind with (a := (Ok val, Add (now_at boot zone_of p s) ttl)) (s1 := s).
  - rewrite <- He. exists (now_at boot zone_of p s), s. by split; [split|].
  - apply runs_create; [done|]. unfold start.
    apply runs_bind with (a := id) (s1 := acquired p id name key holder val s); [|done].
    exists id, (acquired p id name key holder val s). by split; [split|].
Qed.

Lemma runs_Acquire p id name key b val s :
  leaseKeyForName name = Ok key -> String.length b = 16 -> Kv.live (bkt s) !! key = None -> leases s !! id = None ->
  encodeLeaseRecord {| Epoch := 1; Holder := hex_EncodeToString b; ExpiresAt := Add (now_at boot zone_of p s) ttl |} = Ok val ->
  runs (Acquire ttl p name) s (Ok id) (acquired p id name key (hex_EncodeToString b) val s).
Proof.
  intros Hk Hb Hn Hid He. unfold Acquire. rewrite Hk.
  exists (Ok b), s. split; [split; [done|by intros b' [= <-]]|].
  apply runs_get_absent; [done|]. by apply runs_createLease.
Qed.

Lemma calls_step c c' :
  rtc (pool_step (l_handle boot zone_of) method_prog (fun _ => True)) c c' -> rtc step c c'.
Proof. apply rtc_subrel. intros x y. apply step_call. Qed.

Lemma acquire_free p id name key b val s ts :
  leaseKeyForName name = Ok key -> String.length b = 16 -> Kv.live (bkt s) !! key = None -> leases s !! id = None ->
  encodeLeaseRecord {| Epoch := 1; Holder := hex_EncodeToString b; ExpiresAt := Add (now_at boot zone_of p s) ttl |} = Ok val ->
  exists ts', rtc step (ts, s) (ts', acquired p id name key (hex_EncodeToString b) val s).
Proof.
  intros Hk Hb Hn Hid He.
  destruct (runs_spawned (l_handle boot zone_of) method_prog (fun _ => True) (MAcquire p name) s tt
    (acquired p id name key (hex_EncodeToString b) val s) ts I) as (ts' & H).
  - eapply runs_bind; [by apply runs_Acquire|by split].
  - exists ts'. by apply calls_step.
Qed.
End system.

(** ** Concrete runs *)

Section samples.
Existing Instance Reference.reference.
Existing Instance nats_go.
Local Instance no_layout : LayoutParser := {| Parse_RFC3339 := fun _ => None |}.

Definition utc (p : nat) : Z := 0.
Fixpoint bytes16 (n : nat) (c : ascii) : string :=
  match n with 0 => EmptyString | Datatypes.S n => String c (bytes16 n c) end.
Definition holder_a : string := hex_EncodeToString (bytes16 16 "a"%char).
Definition holder_b : string := hex_EncodeToString (bytes16 16 "b"%char).
Definition record_text (holder : string) (at_ : Z) : string :=
  match encodeLeaseRecord {| Epoch := 1; Holder := holder;
    ExpiresAt := {| wall := at_; mono := None; zone := 0 |} |} with Ok v => v | Err _ => EmptyString end.
Definition first_world : world :=
  acquired defaultLeaseTTL utc utc 0 0 "jobs" "jobs" holder_a (record_text holder_a defaultLeaseTTL) nowhere.
Definition much_later : world := reap "jobs" (tick (backstopBucketTTL defaultLeaseTTL) first_world).
Definition second_world : world :=
  acquired defaultLeaseTTL utc utc 0 1 "jobs" "jobs" holder_b
    (record_text holder_b (backstopBucketTTL defaultLeaseTTL + defaultLeaseTTL)) much_later.

Lemma first_reachable reaps : exists ts, reachable defaultLeaseTTL reaps utc utc (ts, first_world).
Proof.
  apply (acquire_free defaultLeaseTTL reaps utc utc 0 0 "jobs" "jobs" (bytes16 16 "a"%char)); by vm_compute.
Qed.

Lemma first_lease : leases first_world !! 0 = Some (new_lease defaultLeaseTTL utc utc 0 "jobs" "jobs" holder_a nowhere).
Proof. done. Qed.

Lemma first_distinct : distinct_holders first_world.
Proof.
  assert (H : forall i l, leases first_world !! i = Some l -> i = 0).
  { intros i l H. cbn in H. apply lookup_insert_Some in H as [[<- _]|[_ H]]; [done|]. by rewrite lookup_empty in H. }
  intros i j l l' Hi Hj _. rewrite (H _ _ Hi), (H _ _ Hj). done.
Qed.

Lemma first_in_force l : leases first_world !! 0 = Some l -> in_force first_world l.
Proof. rewrite first_lease. intros [= <-]. by vm_compute. Qed.

(** C38. With the bucket's server-side TTL the epochs of a key are not monotonic: once the
    server has reaped an expired entry, the next holder is granted epoch 1 again, the very
    epoch of the lease that died. *)
Theorem reaping_restarts_epoch :
  exists ts s l l', reachable defaultLeaseTTL true utc utc (ts, s) /\
    leases s !! 0 = Some l /\ leases s !! 1 = Some l' /\
    l_key l = l_key l' /\ l_holder l <> l_holder l' /\ l_epoch l = l_epoch l'.
Proof.
  destruct (first_reachable true) as (ts & H1).
  destruct (acquire_free defaultLeaseTTL true utc utc 0 1 "jobs" "jobs" (bytes16 16 "b"%char)
    (record_text holder_b (backstopBucketTTL defaultLeaseTTL + defaultLeaseTTL)) much_later ts) as (ts' & H2);
    [by vm_compute..|].
  exists ts', second_world. eexists _, _. split; [|split; [reflexivity|split; [reflexivity|by vm_compute]]].
  unfold reachable. etrans; [exact H1|]. eapply rtc_l; [apply step_env, (env_tick _ _ (backstopBucketTTL defaultLeaseTTL)); by vm_compute|].
  eapply rtc_l; [apply step_env, (env_reap _ _ "jobs" 0); by vm_compute|]. exact H2.
Qed.

Lemma lease_exclusive_witness :
  exists ts, reachable defaultLeaseTTL true utc utc (ts, first_world) /\ distinct_holders first_world /\
    exists rec, entry first_world "jobs" rec /\ Holder rec = holder_a.
Proof.
  destruct (first_reachable true) as (ts & H). exists ts. split; [exact H|]. split; [apply first_distinct|].
  destruct (lease_exclusive defaultLeaseTTL true utc utc ltac:(vm_compute; reflexivity) ltac:(vm_compute; discriminate)
    ltac:(reflexivity) ts first_world H first_distinct) as [Hown _].
  destruct (Hown 0 _ first_lease (first_in_force _ first_lease)) as (rec & He & Hh & _). exists rec. split; [exact He|exact Hh].
Defined.

Lemma lease_epochs_monotonic_witness :
  exists ts, reachable defaultLeaseTTL false utc utc (ts, first_world) /\
    (forall i j l l', leases first_world !! i = Some l -> leases first_world !! j = Some l' -> l_key l = l_key l' ->
       l_epoch l = l_epoch l' -> l_holder l = l_holder l').
Proof.
  destruct (first_reachable false) as (ts & H). exists ts. split; [exact H|].
  exact (proj2 (lease_epochs_monotonic defaultLeaseTTL false utc utc ltac:(vm_compute; reflexivity)
    ltac:(vm_compute; discriminate) ltac:(reflexivity) ts first_world eq_refl H ltac:(vm_compute; reflexivity))).
Defined.
End samples.

(** ** The server's TTL against the application's *)

(** C39. The TTL a lease bucket is made with is the larger of an hour and a hundred times the
    store's, so it covers the application's expiry, as long as that product fits a
    [time.Duration]; past it the product wraps and the bucket may reap a lease in force. *)
Theorem backstopBucketTTL_covers :
  (forall t, let ttl := newLeaserStore_ttl t in (ttl * 100 <= MaxInt64)%Z ->
     (0 < ttl)%Z /\ backstopBucketTTL ttl = Z.max Hour (ttl * 100) /\ (ttl <= backstopBucketTTL ttl)%Z) /\
  (exists ttl, (0 < ttl <= MaxInt64)%Z /\ (backstopBucketTTL (newLeaserStore_ttl ttl) < newLeaserStore_ttl ttl)%Z).
Proof.
  split.
  - intros t ttl Hm. assert (Hp : (0 < ttl)%Z).
    { unfold ttl, newLeaserStore_ttl. destruct (t <=? 0)%Z eqn:E; [done|]. apply Z.leb_gt in E. done. }
    assert (Hw : wrap64 (ttl * 100) = (ttl * 100)%Z).
    { unfold wrap64, MaxInt64 in *. rewrite Z.mod_small; lia. }
    split; [done|]. unfold backstopBucketTTL. rewrite Hw. unfold Hour in *.
    destruct (_ <? _)%Z eqn:E; [apply Z.ltb_lt in E|apply Z.ltb_ge in E]; lia.
  - exists (3650 * 24 * Hour)%Z. by vm_compute.
Qed.
End LeaseSystem.
