(* ===== verification/Ledger.v ===== *)
(** * [ledger.go], and the ledger half of [seam.go]: the append-only ledger.

    One stream per ledger, appended under an expected-last-sequence fence, read through a
    cursor bounded by the tip it captured.  [lg_handle] is what the package relies on
    about JetStream streams; the abstract ledger is the list of its payloads, an absent
    stream being the empty ledger. *)

From S2P Require Import Prelude GoText Storage Nats Names Prog.
From Stdlib Require Import ZifyNat ZifyN.
Open Scope stdpp_scope.
Open Scope go_scope.
Import Names.

Module Ledger.

Inductive lcall :=
  | js_AddStream (stream subject : string) (maxMsgSize : Z)
  | js_PublishMsg (subject data : string) (expectLastSequence : N)
  | js_GetMsg (stream : string) (seq : N)
  | js_StreamInfo (stream : string)
  | js_DeleteStream (stream : string).

Definition lreply (c : lcall) : Type :=
  match c with
  | js_AddStream _ _ _ | js_DeleteStream _ => option error
  | js_PublishMsg _ _ _ | js_StreamInfo _ => res N
  | js_GetMsg _ _ => res string
  end.

Notation LM := (prog lreply).
Definition ldo (c : lcall) : LM (lreply c) := call c.

Definition ledgerMaxMsgSize : Z := Z.shiftl 4 20.

(** ** The seam *)

Definition ensureStream (stream subject : string) (maxMsgSize : Z) : LM (option error) :=
  err <- ldo (js_AddStream stream subject maxMsgSize);
  match err with
  | None => Ret None
  | Some e => if is_nats ErrStreamNameAlreadyInUse e then Ret None
              else Ret (Some (StreamOpError stream "ensure" e))
  end.

Definition publish (subject data : string) (expectedLastSeq : N) : LM (res N) :=
  ldo (js_PublishMsg subject data expectedLastSeq).

Definition getMsg (stream : string) (seq : N) : LM (res string) := ldo (js_GetMsg stream seq).

Definition lastSeq (stream : string) : LM (res N) :=
  info <- ldo (js_StreamInfo stream);
  match info with
  | Err e => if is_nats ErrStreamNotFound e then Ret (Ok 0%N) else Ret (Err (StreamOpError stream "info" e))
  | Ok n => Ret (Ok n)
  end.

Definition deleteStream (stream : string) : LM (option error) :=
  err <- ldo (js_DeleteStream stream);
  match err with
  | None => Ret None
  | Some e => if is_nats ErrStreamNotFound e then Ret None else Ret (Some (StreamOpError stream "delete" e))
  end.

(** ** The store *)

Record Rec := { Seq : N; Payload : string }.
Record ledgerCursor := { c_name : string; c_stream : string; c_next : N; c_tip : N }.

Section store.
Context `{Sto : Storage} {J : JetStream}.

Definition Append (name : string) (expected : N) (payload : string) : LM (option error) :=
  match subjectForName name with
  | Err e => Ret (Some e)
  | Ok subject =>
      match streamForName name with
      | Err e => Ret (Some e)
      | Ok stream =>
          err <- ensureStream stream subject ledgerMaxMsgSize;
          match err with
          | Some e => Ret (Some e)
          | None =>
              r <- publish subject payload expected;
              match r with
              | Ok _ => Ret None
              | Err e =>
                  if isWrongLastSequence e then Ret (Some (ConflictError name expected))
                  else if isAmbiguous e then Ret (Some (AmbiguousError name expected e))
                  else Ret (Some e)
              end
          end
      end
  end.

Definition Read (name : string) (from : N) : LM (res ledgerCursor) :=
  stream <-! Ret (streamForName name);
  tip <-! lastSeq stream;
  let next := if (from <? 1)%N then 1%N else from in
  Ret (Ok {| c_name := name; c_stream := stream; c_next := next; c_tip := tip |}).

Definition Tip (name : string) : LM (res N) :=
  stream <-! Ret (streamForName name); lastSeq stream.

Definition Delete (name : string) : LM (option error) :=
  match streamForName name with Err e => Ret (Some e) | Ok stream => deleteStream stream end.
End store.

(** The record and the advanced cursor, or the error and the cursor as it was. *)
Definition Next (c : ledgerCursor) : LM (res Rec * ledgerCursor) :=
  if (c_tip c <? c_next c)%N then Ret (Err io_EOF, c)
  else
    r <- getMsg (c_stream c) (c_next c);
    match r with
    | Err e => Ret (Err (RecordReadError (c_name c) (c_next c) e), c)
    | Ok data =>
        Ret (Ok {| Seq := c_next c; Payload := data |},
             {| c_name := c_name c; c_stream := c_stream c; c_next := add64 (c_next c) 1; c_tip := c_tip c |})
    end.

(** A reader's loop: the records until the cursor's first error, [io_EOF] at its end. *)
Fixpoint drain (fuel : nat) (c : ledgerCursor) : LM (list Rec * option error) :=
  match fuel with
  | 0 => Ret ([], None)
  | S fuel' =>
      r <- Next c;
      match r with
      | (Err e, _) => Ret ([], Some e)
      | (Ok rec, c') => rest <- drain fuel' c'; Ret (rec :: rest.1, rest.2)
      end
  end.
(** ** The server *)

(** Each stream with the subject it is bound to and its payloads, in sequence. *)
Notation streams := (gmap string (string * list string)).

Definition add (stream subject : string) (s : streams) : streams :=
  match s !! stream with Some _ => s | None => <[stream := (subject, [])]> s end.

(** The ledger of a name: an absent stream is the empty one. *)
Definition ledger (s : streams) (name : string) : list string :=
  match s !! encodeStream name with Some (_, msgs) => msgs | None => [] end.

(** The client's errors are not the storage package's. *)
Definition raw (e : error) : Prop := match e with ConflictError _ _ => False | _ => True end.

Section contract.
Context {J : JetStream}.

Definition appended (subj d : string) (expect : N) (s s' : streams) : Prop :=
  exists st msgs, s !! st = Some (subj, msgs) /\ N.of_nat (length msgs) = expect /\ s' = <[st := (subj, msgs ++ [d])]> s.

Definition lg_handle (c : lcall) (s : streams) : lreply c -> streams -> Prop :=
  match c return lreply c -> streams -> Prop with
  | js_AddStream st subj _ => fun r s' =>
      match r with
      | None => s' = add st subj s
      | Some e => if is_nats ErrStreamNameAlreadyInUse e then is_Some (s !! st) /\ s' = s
                  else s' = s \/ s' = add st subj s
      end
  | js_PublishMsg subj d expect => fun r s' =>
      match r with
      | Ok seq => appended subj d expect s s' /\ seq = (expect + 1)%N
      | Err e => raw e /\
          if isWrongLastSequence e
          then s' = s /\ exists st msgs, s !! st = Some (subj, msgs) /\ N.of_nat (length msgs) <> expect
          else s' = s \/ appended subj d expect s s'
      end
  | js_GetMsg st seq => fun r s' => s' = s /\
      match r with
      | Ok d => exists subj msgs, s !! st = Some (subj, msgs) /\ (1 <= seq)%N /\ msgs !! N.to_nat (seq - 1) = Some d
      | Err _ => True
      end
  | js_StreamInfo st => fun r s' => s' = s /\
      match r with
      | Ok n => exists subj msgs, s !! st = Some (subj, msgs) /\ n = N.of_nat (length msgs)
      | Err e => is_nats ErrStreamNotFound e = true -> s !! st = None
      end
  | js_DeleteStream st => fun r s' =>
      match r with
      | None => s' = delete st s
      | Some e => if is_nats ErrStreamNotFound e then s !! st = None /\ s' = s else s' = s \/ s' = delete st s
      end
  end.
End contract.

Section spec.
Context {Sto : Storage} {L : StorageLaws Sto} {J : JetStream}.

(** Every stream is one this package bound. *)
Definition bound (s : streams) : Prop :=
  forall st subj msgs, s !! st = Some (subj, msgs) ->
    exists name, ValidateName name = None /\ st = encodeStream name /\ subj = encodeSubject name.

Lemma encodeSubject_inj n m : ValidateName n = None -> ValidateName m = None ->
  encodeSubject n = encodeSubject m -> n = m.
Proof.
  intros Hn Hm E. pose proof (nameFromSubject_encode n Hn) as H. rewrite E, nameFromSubject_encode in H by done.
  by injection H.
Qed.

Inductive lg_op := OAppend (name : string) (expected : N) (payload : string) | OTip (name : string)
  | ORead (name : string) (from : N) | ODelete (name : string).
Definition lg_out (o : lg_op) : Type :=
  match o with OAppend _ _ _ | ODelete _ => option error | OTip _ => res N | ORead _ _ => res ledgerCursor end.
Definition lg_prog (o : lg_op) : LM (lg_out o) :=
  match o return LM (lg_out o) with
  | OAppend n e p => Append n e p | OTip n => Tip n | ORead n f => Read n f | ODelete n => Delete n
  end.
Definition lg_name (o : lg_op) : string :=
  match o with OAppend n _ _ | OTip n | ORead n _ | ODelete n => n end.

(** The ledgers of [s'] are those of [s], but for [name]'s. *)
Definition ledger_becomes (s : streams) (name : string) (l : list string) (s' : streams) : Prop :=
  ledger s' name = l /\ forall n, ValidateName n = None -> n <> name -> ledger s' n = ledger s n.

Definition lg_spec (o : lg_op) (s : streams) : lg_out o -> streams -> Prop :=
  match o return lg_out o -> streams -> Prop with
  | OAppend n expected p => fun r s' =>
      let fits := N.of_nat (length (ledger s n)) = expected in
      match r with
      | None => fits /\ ledger_becomes s n (ledger s n ++ [p]) s'
      | Some (ConflictError n' e') => n' = n /\ e' = expected /\ ~ fits /\ s' = s
      | Some _ => s' = s \/ fits /\ ledger_becomes s n (ledger s n ++ [p]) s'
      end
  | OTip n => fun r s' => s' = s /\
      match r with Ok tip => tip = N.of_nat (length (ledger s n)) | Err _ => True end
  | ORead n from => fun r s' => s' = s /\
      match r with
      | Ok c => c = {| c_name := n; c_stream := encodeStream n; c_next := N.max from 1;
                       c_tip := N.of_nat (length (ledger s n)) |}
      | Err _ => True
      end
  | ODelete n => fun r s' =>
      match r with None => ledger_becomes s n [] s' | Some _ => s' = s \/ ledger_becomes s n [] s' end
  end.

(** What other clients do between two calls; adding an empty stream is one such move. *)
Context (evol : streams -> streams -> Prop) `{!Reflexive evol, !Transitive evol}.
Context (evol_add : forall s name, ValidateName name = None -> evol s (add (encodeStream name) (encodeSubject name) s)).
Context (evol_bound : forall s s', evol s s' -> bound s -> bound s').

Notation lwp := (wp lg_handle evol (fun _ _ => True)).

Lemma ledger_insert s name subj l :
  s !! encodeStream name = Some (subj, l) -> forall l',
  ledger_becomes s name l' (<[encodeStream name := (subj, l')]> s).
Proof.
  intros H l'. unfold ledger_becomes, ledger. rewrite lookup_insert_eq. split; [done|].
  intros n Hn Hne. rewrite lookup_insert_ne; [done|]. intros E. by apply Hne, encodeStream_inj.
Qed.

(** A subject of a valid name belongs to that name's stream. *)
Lemma bound_stream s name st msgs : bound s -> ValidateName name = None ->
  s !! st = Some (encodeSubject name, msgs) -> st = encodeStream name /\ ledger s name = msgs.
Proof.
  intros Hb Hn H. destruct (Hb _ _ _ H) as (m & Hm & -> & E). apply encodeSubject_inj in E as ->; [|done..].
  split; [done|]. unfold ledger. by rewrite H.
Qed.

Lemma appended_ledger s s' name p expected : bound s -> ValidateName name = None ->
  appended (encodeSubject name) p expected s s' ->
  N.of_nat (length (ledger s name)) = expected /\ ledger_becomes s name (ledger s name ++ [p]) s'.
Proof.
  intros Hb Hn (st & msgs & Hst & Hlen & ->). destruct (bound_stream _ _ _ _ Hb Hn Hst) as [-> ->].
  split; [done|]. by eapply ledger_insert.
Qed.

Lemma lwp_lastSeq name s :
  lwp (lastSeq (encodeStream name)) (fun r s' => exists s1, evol s s1 /\ evol s1 s' /\
    match r with Ok tip => tip = N.of_nat (length (ledger s1 name)) | Err _ => True end) s.
Proof.
  intros s1 H1 r s2 [-> Hr]. split; [done|]. unfold ledger. destruct r as [n|e]; cbn.
  - intros s' H'. exists s1. destruct Hr as (subj & msgs & -> & ->). done.
  - destruct (is_nats ErrStreamNotFound e) eqn:En; cbn; intros s' H'; exists s1; [|done].
    by rewrite (Hr eq_refl).
Qed.

Lemma deleted_ledger s name : ledger_becomes s name [] (delete (encodeStream name) s).
Proof.
  unfold ledger_becomes, ledger. rewrite lookup_delete_eq. split; [done|].
  intros n Hn Hne. rewrite lookup_delete_ne; [done|]. intros E. by apply Hne, encodeStream_inj.
Qed.

Lemma lwp_publish n expected p s0 s :
  ValidateName n = None -> bound s -> evol s0 s ->
  lwp (r0 <- publish (encodeSubject n) p expected;
       match r0 with
       | Ok _ => Ret None
       | Err e => if isWrongLastSequence e then Ret (Some (ConflictError n expected))
                  else if isAmbiguous e then Ret (Some (AmbiguousError n expected e)) else Ret (Some e)
       end) (fun r s' => atomically evol (lg_spec (OAppend n expected p)) s0 r s') s.
Proof.
  intros Hn Hb H0 s3 H3 r0 s4 Hr0. split; [done|].
  assert (Hs3 : evol s0 s3) by (by etrans). assert (Hb3 : bound s3) by exact (evol_bound s s3 H3 Hb).
  assert (Hk : forall out, lg_spec (OAppend n expected p) s3 out s4 -> forall s', evol s4 s' ->
    atomically evol (lg_spec (OAppend n expected p)) s0 out s') by (intros; by exists s3, s4).
  destruct r0 as [seq|e]; cbn.
  - intros s'. apply Hk. destruct Hr0 as [Ha _]. by apply appended_ledger.
  - destruct Hr0 as [Hraw Hr0]. destruct (isWrongLastSequence e) eqn:Ew; cbn.
    + intros s'. apply Hk. destruct Hr0 as [-> (st & msgs & Hst & Hlen)].
      destruct (bound_stream _ _ _ _ Hb3 Hn Hst) as [_ Hl]. by rewrite <- Hl in Hlen.
    + assert (Hother : s4 = s3 \/ N.of_nat (length (ledger s3 n)) = expected /\
          ledger_becomes s3 n (ledger s3 n ++ [p]) s4).
      { destruct Hr0 as [->|Ha]; [by left|right; by apply appended_ledger]. }
      destruct (isAmbiguous e); cbn; intros s'; apply Hk; [exact Hother|].
      by destruct e; try exact Hother.
Qed.

(** C14. The ledger implements its contract, whatever other clients do between its calls: an
    append lands at one instant, exactly when the tip is [expected], as the record
    [expected + 1], and a conflict means it did not land; a tip, and a cursor's bound, is
    the length of the ledger at one instant, an absent stream counting as empty; a delete
    empties the ledger and is idempotent; no other ledger is touched. *)
Theorem ledger_refines_spec o s :
  ValidateName (lg_name o) = None -> bound s ->
  lwp (lg_prog o) (fun r s' => atomically evol (lg_spec o) s r s') s.
Proof.
  intros Hn Hb. destruct o as [n expected p|n|n from|n]; cbn [lg_name lg_prog] in *.
  - unfold Append, subjectForName, streamForName. rewrite Hn. cbn.
    intros s1 H1 r s2 Hr. split; [done|].
    assert (Hs2 : evol s s2).
    { etrans; [exact H1|]. destruct r as [err|]; cbn in Hr; [|subst; by apply evol_add].
      destruct (is_nats ErrStreamNameAlreadyInUse err); [by destruct Hr as [_ ->]|].
      destruct Hr as [->| ->]; [done|by apply evol_add]. }
    assert (Hb2 : bound s2) by exact (evol_bound s s2 Hs2 Hb).
    destruct r as [err|]; cbn; [|by apply lwp_publish].
    destruct (is_nats ErrStreamNameAlreadyInUse err); cbn; [by apply lwp_publish|].
    intros s' H'. exists s2, s2. split_and!; [done|by left|done].
  - unfold Tip, streamForName. rewrite Hn. cbn [bind_res bind].
    eapply wp_mono; [apply _..|apply lwp_lastSeq|]. intros r s' (s1 & H1 & H2 & Hr). exists s1, s1.
    split_and!; [done| |done]. by split.
  - unfold Read, streamForName. rewrite Hn. cbn [bind_res bind]. apply wp_bind; [apply _..|].
    eapply wp_mono; [apply _..|apply lwp_lastSeq|]. intros r s' (s1 & H1 & H2 & Hr).
    destruct r as [tip|e]; intros s2 H'; exists s1, s1; (split_and!; [done| |by etrans]); (split; [done|]); [|done].
    rewrite Hr. f_equal. destruct (N.ltb_spec from 1); lia.
  - unfold Delete, streamForName. rewrite Hn. intros s1 H1 r s2 Hr. split; [done|].
    assert (Hk : forall out, lg_spec (ODelete n) s1 out s2 -> forall s', evol s2 s' ->
      atomically evol (lg_spec (ODelete n)) s out s') by (intros; by exists s1, s2).
    destruct r as [e|]; cbn in Hr |- *.
    + destruct (is_nats ErrStreamNotFound e); cbn; intros s'; apply Hk.
      * destruct Hr as [Hnone ->]. split; [|done]. unfold ledger. by rewrite Hnone.
      * destruct Hr as [->| ->]; [by left|right; apply deleted_ledger].
    + intros s'. apply Hk. subst. apply deleted_ledger.
Qed.
End spec.

(** ** Reading *)

Definition records_from (next : N) (payloads : list string) : list Rec :=
  imap (fun i p => {| Seq := next + N.of_nat i; Payload := p |}) payloads.

Lemma records_from_cons next p l :
  records_from next (p :: l) = {| Seq := next; Payload := p |} :: records_from (next + 1) l.
Proof.
  unfold records_from. cbn. f_equal; [f_equal; lia|]. apply imap_ext. intros i x _. cbn. f_equal. lia.
Qed.

#[local] Arguments records_from : simpl never.

Section reading.
Context {J : JetStream}.
Context (evol : gmap string (string * list string) -> gmap string (string * list string) -> Prop)
  `{!Reflexive evol, !Transitive evol}.
Context (name : string).
(** The ledger is not deleted while it is read. *)
Context (evol_appends : forall s s', evol s s' -> ledger s name `prefix_of` ledger s' name).

Lemma drain_spec fuel c l s :
  c_stream c = encodeStream name -> (1 <= c_next c)%N -> (c_tip c + 1 < two64)%N ->
  c_tip c = N.of_nat (length l) -> l `prefix_of` ledger s name ->
  N.to_nat (c_tip c + 1 - c_next c) < fuel ->
  wp lg_handle evol (fun _ _ => True) (drain fuel c) (fun out _ =>
    let rest := drop (N.to_nat (c_next c - 1)) l in
    match out.2 with
    | Some io_EOF => out.1 = records_from (c_next c) rest
    | Some (RecordReadError n q _) => n = c_name c /\ (q <= c_tip c)%N /\
        exists k, q = (c_next c + N.of_nat k)%N /\ out.1 = records_from (c_next c) (take k rest)
    | _ => False
    end) s.
Proof.
  revert c s. induction fuel as [|fuel IH]; intros c s Hst Hnext Hmax Htip Hpre Hfuel; [lia|].
  cbn [drain]. unfold Next. destruct (N.ltb_spec (c_tip c) (c_next c)) as [Hend|Hmore]; cbn [bind].
  - intros s' _. cbn. rewrite drop_ge by lia. done.
  - intros s1 H1 r s2 [-> Hr]. split; [done|]. destruct r as [d|e]; cbn.
    + destruct Hr as (subj & msgs & Hs & _ & Hd). rewrite Hst in Hs.
      assert (Hp1 : l `prefix_of` ledger s1 name) by (etrans; [exact Hpre|by apply evol_appends]).
      assert (Hl : ledger s1 name = msgs) by (unfold ledger; by rewrite Hs).
      assert (Hat : l !! N.to_nat (c_next c - 1) = Some d).
      { rewrite Hl in Hp1. destruct Hp1 as [k ->]. rewrite lookup_app_l in Hd; [done|lia]. }
      assert (E1 : add64 (c_next c) 1 = (c_next c + 1)%N) by (apply add64_small; unfold u64; lia).
      apply wp_bind; [apply _..|]. eapply wp_mono; [apply _..|eapply IH|]; cbn; rewrite ?E1; try done; try lia.
      intros [recs err] s' Hout. cbn in Hout. intros s'' _. cbn.
      rewrite (drop_S l d (N.to_nat (c_next c - 1)) Hat).
      replace (Datatypes.S (N.to_nat (c_next c - 1))) with (N.to_nat (c_next c + 1 - 1)) by lia.
      destruct err as [[]|]; try done.
      * by rewrite records_from_cons, Hout.
      * destruct Hout as (-> & Hq & k & -> & ->). split_and!; [done..|]. exists (Datatypes.S k).
        split; [lia|]. by rewrite <- records_from_cons.
    + intros s' _. cbn. split_and!; [done..|]. exists 0. split; [lia|by rewrite take_0].
Qed.

(** A cursor over a ledger that is not deleted under it: draining it ends within one call
    per record, and yields in order exactly the records from [next] to the tip captured
    by [Read], however much is appended meanwhile; a record it cannot read is reported as
    that record's read error after the ones before it, never as the end. *)
Theorem cursor_bounded c s :
  c_stream c = encodeStream name -> (1 <= c_next c)%N -> (c_tip c + 1 < two64)%N ->
  c_tip c = N.of_nat (length (ledger s name)) ->
  wp lg_handle evol (fun _ _ => True) (drain (Datatypes.S (N.to_nat (c_tip c + 1 - c_next c))) c) (fun out _ =>
    let rest := drop (N.to_nat (c_next c - 1)) (ledger s name) in
    match out.2 with
    | Some io_EOF => out.1 = records_from (c_next c) rest
    | Some (RecordReadError n q _) => n = c_name c /\ (q <= c_tip c)%N /\
        exists k, q = (c_next c + N.of_nat k)%N /\ out.1 = records_from (c_next c) (take k rest)
    | _ => False
    end) s.
Proof. intros H1 H2 H3 H4. apply drain_spec; try done. lia. Qed.
End reading.

(** ** A concrete ledger *)

Section sample.
Existing Instance Reference.reference.
Existing Instance nats_go.

Definition one : gmap string (string * list string) := add (encodeStream "a/b") (encodeSubject "a/b") ∅.
Definition two : gmap string (string * list string) := <[encodeStream "a/b" := (encodeSubject "a/b", ["x"])]> one.

(** Other clients only provision streams of the package. *)
Inductive provision (s : gmap string (string * list string)) : gmap string (string * list string) -> Prop :=
  provision_add name : ValidateName name = None -> provision s (add (encodeStream name) (encodeSubject name) s).

Lemma provision_bound s s' : rtc provision s s' -> bound s -> bound s'.
Proof.
  intros H. induction H as [|x y z [name Hn] _ IH]; [done|]. intros Hb. apply IH.
  intros st subj msgs. unfold add. destruct (x !! encodeStream name) eqn:E; [apply Hb|].
  intros [[<- [= <- <-]]|[_ H']]%lookup_insert_Some; [by exists name|by eapply Hb].
Qed.

Lemma empty_bound : bound ∅.
Proof. intros st subj msgs H. by rewrite lookup_empty in H. Qed.

Theorem ledger_refines_spec_witness :
  atomically (rtc provision) (lg_spec (OAppend "a/b" 0 "x")) ∅ None two.
Proof.
  assert (Hadd : forall s name, ValidateName name = None ->
    rtc provision s (add (encodeStream name) (encodeSubject name) s)) by (intros; by apply rtc_once).
  pose proof (ledger_refines_spec (L := Reference.reference_laws) (rtc provision) Hadd provision_bound (OAppend "a/b" 0 "x") ∅
    ltac:(vm_compute; reflexivity) empty_bound) as H.
  destruct (H ∅ (rtc_refl _ _) None one eq_refl) as [_ H1].
  destruct (H1 one (rtc_refl _ _) (Ok 1%N) two) as [_ H2].
  { split; [|reflexivity]. exists (encodeStream "a/b"), []. split; [vm_compute; reflexivity|]. split; reflexivity. }
  exact (H2 two (rtc_refl _ _)).
Defined.

Theorem cursor_bounded_witness :
  let c := {| c_name := "a/b"; c_stream := encodeStream "a/b"; c_next := 1; c_tip := 1 |} in
  wp lg_handle eq (fun _ _ => True) (drain 2 c) (fun out _ =>
    match out.2 with Some io_EOF => out.1 = [{| Seq := 1; Payload := "x" |}] | Some (RecordReadError n q _) => q = 1%N | _ => False end) two.
Proof.
  intros c. assert (Heq : forall s s' : gmap string (string * list string), s = s' -> ledger s "a/b" `prefix_of` ledger s' "a/b")
    by (by intros s s' ->).
  eapply wp_mono; [apply _..| |].
  - apply (cursor_bounded eq "a/b" Heq c two); vm_compute; (reflexivity || discriminate).
  - intros [l e] s' H. cbn in H |- *. destruct e as [[]|]; try done. destruct H as (_ & Hq & k & -> & _). cbn in Hq. cbn. lia.
Defined.
End sample.
End Ledger.
