(* ===== verification/Blobs.v ===== *)
(** * [blobs.go], and the object half of [seam.go] but its reader: content-addressed blobs.

    A put reads the stored digest first, writes only an absent key, and refuses different
    content.  The two calls are not atomic: alone a put keeps every key immutable, and
    [put_race] exhibits two concurrent puts that both succeed. *)

From S2P Require Import Prelude GoText Sha256 Storage Nats Prog Kv.
Open Scope stdpp_scope.
Open Scope go_scope.

Module Blobs.

Inductive ocall :=
  | obj_Put (key data : string)
  | obj_Delete (key : string)
  | obj_List
  | obj_GetInfo (key : string).

(** [obj_GetInfo] answers the digest. *)
Definition oreply (c : ocall) : Type :=
  match c with
  | obj_Put _ _ | obj_Delete _ => option error
  | obj_List => res (list string)
  | obj_GetInfo _ => res string
  end.

Notation OM := (prog oreply).
Definition odo (c : ocall) : OM (oreply c) := call c.

(** nats.go's decoder of the stored digest. *)
Class DigestCodec := { DecodeObjectDigest : string -> res string }.

Section store.
Context `{Sto : Storage} {D : DigestCodec}.

(** ** The seam *)

Definition seam_put (key data : string) : OM (option error) := odo (obj_Put key data).

Definition seam_delete (key : string) : OM (option error) :=
  err <- odo (obj_Delete key);
  match err with
  | None => Ret None
  | Some e => if is_nats js_ErrObjectNotFound e then Ret None else Ret (Some e)
  end.

Definition seam_list : OM (res (list string)) :=
  r <- odo obj_List;
  match r with
  | Err e => if is_nats js_ErrNoObjectsFound e then Ret (Ok []) else Ret (Err e)
  | Ok infos => Ret (Ok infos)
  end.

Definition seam_getInfo (key : string) : OM (res string) :=
  r <- odo (obj_GetInfo key);
  match r with
  | Err e => if is_nats js_ErrObjectNotFound e then Ret (Err errObjNotFound) else Ret (Err e)
  | Ok info => Ret (DecodeObjectDigest info)
  end.

(** ** The store *)

Definition blobKeyForName (key : string) : res string := guard? ValidateName key; Ok key.

(** [source] is what [io.ReadAll] made of the reader. *)
Definition Put (key : string) (source : res string) : OM (option error) :=
  match blobKeyForName key with
  | Err err => Ret (Some err)
  | Ok k =>
      match source with
      | Err err => Ret (Some (BlobOpError key "read" err))
      | Ok data =>
          let sum := Sha256.Sum256 data in
          r <- seam_getInfo k;
          match r with
          | Err err =>
              if is_obj_not_found err then
                perr <- seam_put k data;
                match perr with Some e => Ret (Some (BlobOpError key "put" e)) | None => Ret None end
              else Ret (Some (BlobOpError key "getInfo" err))
          | Ok existing =>
              if String.eqb existing sum then Ret None else Ret (Some (BlobConflictError key))
          end
      end
  end.

(** [seam_get] is the seam's [get], linked in [BlobOps]; a [None] is a nil reader. *)
Definition Get {E} {R : E -> Type} {rd} (seam_get : string -> prog R (res (option rd))) (key : string) : prog R (res rd) :=
  k <-! Ret (blobKeyForName key);
  r <- seam_get k;
  match r with
  | Err err => if is_obj_not_found err then Ret (Err (BlobNotFoundError key)) else Ret (Err (BlobOpError key "get" err))
  | Ok None => Ret (Err (BlobOpError key "get" errNilObjectReader))
  | Ok (Some rc) => Ret (Ok rc)
  end.

Definition Delete (key : string) : OM (option error) :=
  match blobKeyForName key with
  | Err err => Ret (Some err)
  | Ok k =>
      err <- seam_delete k;
      match err with Some e => Ret (Some (BlobOpError key "delete" e)) | None => Ret None end
  end.

Definition List_ (prefix : string) : OM (res (list string)) :=
  r <- seam_list;
  match r with
  | Err err => Ret (Err (BlobOpError prefix "list" err))
  | Ok all => Ret (Ok (Kv.sortedDedupFiltered all prefix))
  end.
End store.

(** ** The object store *)

Notation objects := (gmap string string).

Definition raw (e : error) : Prop := is_obj_not_found e = false.

Section contract.
Context {D : DigestCodec}.

Definition obj_handle (c : ocall) (s : objects) : oreply c -> objects -> Prop :=
  match c return oreply c -> objects -> Prop with
  | obj_Put k d => fun r s' =>
      match r with None => s' = <[k := d]> s | Some e => raw e /\ (s' = s \/ s' = <[k := d]> s) end
  | obj_Delete k => fun r s' =>
      match r with
      | None => s' = delete k s
      | Some e => if is_nats js_ErrObjectNotFound e then s !! k = None /\ s' = s else s' = s \/ s' = delete k s
      end
  | obj_List => fun r s' => s' = s /\
      match r with
      | Ok ks => forall k, k ∈ ks <-> is_Some (s !! k)
      | Err e => is_nats js_ErrNoObjectsFound e = true -> s = ∅
      end
  | obj_GetInfo k => fun r s' => s' = s /\
      match r with
      | Ok info => match DecodeObjectDigest info with
                   | Ok digest => exists content, s !! k = Some content /\ digest = Sha256.Sum256 content
                   | Err e => raw e
                   end
      | Err e => raw e /\ (is_nats js_ErrObjectNotFound e = true -> s !! k = None)
      end
  end.
End contract.

Section spec.
Context `{Sto : Storage} {D : DigestCodec}.
Notation owp rely := (wp obj_handle rely (fun _ _ => True)).

(** A digest names its content, up to a collision. *)
Definition same_content (a b : string) : Prop := Sha256.Sum256 a = Sha256.Sum256 b.

Definition put_spec (k : string) (source : res string) (s : objects) (r : option error) (s' : objects) : Prop :=
  match ValidateName k with
  | Some e => r = Some e /\ s' = s
  | None =>
      match source with
      | Err e => r = Some (BlobOpError k "read" e) /\ s' = s
      | Ok data =>
          match r with
          | None => (s !! k = None /\ s' = <[k := data]> s) \/
                    (exists content, s !! k = Some content /\ same_content content data /\ s' = s)
          | Some (BlobConflictError k') => k' = k /\ s' = s /\
                    exists content, s !! k = Some content /\ ~ same_content content data
          | Some e => (exists op cause, e = BlobOpError k op cause) /\
                      (s' = s \/ s !! k = None /\ s' = <[k := data]> s)
          end
      end
  end.

(** C33. Alone on its key (other clients may write every other one), a put is immutable and
    content-addressed: it stores new content only under an absent key, succeeds without
    writing on content of the same digest, and otherwise reports the conflict with the
    stored content untouched; a reader's fault is reported before anything is written. *)
Theorem put_immutable k source s :
  owp (fun s s' => s' !! k = s !! k) (Put k source)
    (fun r s' => exists s1 s2, s1 !! k = s !! k /\ put_spec k source s1 r s2 /\ s' !! k = s2 !! k) s.
Proof.
  unfold Put, blobKeyForName, put_spec. destruct (ValidateName k) as [e|].
  { intros s' H'. by exists s, s. }
  destruct source as [data|e]; [|intros s' H'; by exists s, s].
  intros s1 H1 r s2 [-> Hr]. split; [done|]. destruct r as [info|e]; cbn.
  - destruct (DecodeObjectDigest info) as [existing|e]; cbn.
    + destruct Hr as (content & Hc & ->). destruct (String.eqb_spec (Sha256.Sum256 content) (Sha256.Sum256 data)) as [E|E];
        intros s' H'; exists s1, s1; (split; [done|]); (split; [|done]); [right; by exists content|].
      split; [done|]. split; [done|]. by exists content.
    + rewrite Hr. intros s' H'. exists s1, s1. split; [done|]. split; [|done]. split; [eauto|by left].
  - destruct Hr as [Hraw Hr]. destruct (is_nats js_ErrObjectNotFound e); cbn.
    + intros s3 H3 r s4 Hp. split; [done|].
      assert (Hnone : s3 !! k = None) by (rewrite H3; by apply Hr).
      destruct r as [e2|]; cbn in Hp |- *; intros s' H'; exists s3, s4; (split; [congruence|]); (split; [|done]).
      * split; [eauto|]. destruct Hp as [_ [->| ->]]; auto.
      * by left.
    + rewrite Hraw. intros s' H'. exists s1, s1. split; [done|]. split; [|done]. split; [eauto|by left].
Qed.

Inductive b_op := BDelete (key : string) | BList (prefix : string).
Definition b_out (o : b_op) : Type :=
  match o with BDelete _ => option error | BList _ => res (list string) end.
Definition b_prog (o : b_op) : OM (b_out o) :=
  match o return OM (b_out o) with BDelete k => Delete k | BList p => List_ p end.
Definition b_spec (o : b_op) (s : objects) : b_out o -> objects -> Prop :=
  match o return b_out o -> objects -> Prop with
  | BDelete k => fun r s' =>
      match ValidateName k with
      | Some e => r = Some e /\ s' = s
      | None => match r with
                | None => s' = delete k s
                | Some e => (exists cause, e = BlobOpError k "delete" cause) /\ (s' = s \/ s' = delete k s)
                end
      end
  | BList prefix => fun r s' => s' = s /\
      match r with
      | Ok ks => StronglySorted str_le ks /\ NoDup ks /\
                 (forall k, k ∈ ks <-> HasPrefix k prefix = true /\ is_Some (s !! k))
      | Err e => exists cause, e = BlobOpError prefix "list" cause
      end
  end.

(** Deletes and listings take effect at one instant, as [b_spec] says. *)
Lemma b_ops_refine (rely : objects -> objects -> Prop) o s :
  Reflexive rely -> owp rely (b_prog o) (fun r s' => atomically rely (b_spec o) s r s') s.
Proof.
  intros Hrefl. destruct o as [k|prefix]; cbn [b_prog].
  - unfold Delete, blobKeyForName. destruct (ValidateName k) as [e|] eqn:Ek.
    + apply wp_no_call; [done|]. intros s1. cbn. by rewrite Ek.
    + intros s1 H1 r s2 Hr. split; [done|].
      assert (Hk : forall out, b_spec (BDelete k) s1 out s2 -> forall s', rely s2 s' -> atomically rely (b_spec (BDelete k)) s out s')
        by (intros out Ho s' H'; by exists s1, s2).
      cbn [b_spec] in Hk. rewrite Ek in Hk. destruct r as [e|]; cbn in Hr |- *; [|by apply Hk].
      destruct (is_nats js_ErrObjectNotFound e); cbn; apply Hk.
      * destruct Hr as [Hn ->]. by rewrite delete_id.
      * split; [eauto|done].
  - intros s1 H1 r s2 [-> Hr]. split; [done|].
    assert (Hk : forall out, b_spec (BList prefix) s1 out s1 -> forall s', rely s1 s' -> atomically rely (b_spec (BList prefix)) s out s')
      by (intros out Ho s' H'; by exists s1, s1).
    destruct r as [ks|e]; cbn.
    + apply Hk. split; [done|]. destruct (Kv.sortedDedupFiltered_spec ks prefix) as (Hs & Hn & Hm).
      split_and!; [done..|]. intros k. by rewrite Hm, Hr.
    + destruct (is_nats js_ErrNoObjectsFound e) eqn:En; cbn; apply Hk; (split; [done|]); [|eauto].
      split_and!; [constructor..|]. intros k. rewrite (Hr eq_refl), lookup_empty.
      split; [by intros ?%elem_of_nil|]. by intros [_ [? ?]].
Qed.
End spec.

(** ** Two puts of one absent key *)

Section race.
Existing Instance Reference.reference.
(** Any decoder: neither put sees a stored digest. *)
Context {D : DigestCodec}.

Definition put_thread (d : string) : OM (option error) := Put "a" (Ok d).
Definition absent : error := Nats js_ErrObjectNotFound.
Notation run := (rtc (pool_step obj_handle put_thread (fun _ => True))).

(** C35. A put is not atomic: two concurrent puts of one absent key, with different content, can
    both report success.  The first has returned and its content is stored; the second,
    which looked before that, then overwrites it: the key was not immutable, and the
    second put was not told of the conflict. *)
Theorem put_race :
  exists p mid final,
    run ([], ∅) ([("one", ∅, Ret None); ("two", ∅, p)], mid) /\ mid !! "a" = Some "one" /\
    run ([("one", ∅, Ret None); ("two", ∅, p)], mid) ([("one", ∅, Ret None); ("two", ∅, Ret None)], final) /\
    final !! "a" = Some "two" /\ ~ same_content "one" "two".
Proof.
  set (after := fun d => bind (seam_put "a" d) (fun perr =>
    match perr with Some e => Ret (Some (BlobOpError "a" "put" e)) | None => Ret (R := oreply) None end)).
  exists (after "two"), (<["a" := "one"]> ∅), (<["a" := "two"]> (<["a" := "one"]> ∅)).
  assert (Hlook : forall s d, s !! "a" = None -> thread_step obj_handle (put_thread d) s (after d) s).
  { intros s d Hs. exists (Err absent). split; [|by vm_compute]. split; [done|]. by split; [vm_compute|]. }
  assert (Hput : forall s d, thread_step obj_handle (after d) s (Ret None) (<["a" := d]> s)).
  { intros s d. by exists None. }
  assert (Habs : (∅ : gmap string string) !! "a" = None) by apply lookup_empty.
  split_and!.
  - eapply rtc_l; [by apply (pool_spawn _ _ _ _ _ "one")|]. eapply rtc_l; [by apply (pool_spawn _ _ _ _ _ "two")|].
    eapply rtc_l; [by eapply (pool_call _ _ _ _ _ 0), Hlook|]. eapply rtc_l; [by eapply (pool_call _ _ _ _ _ 1), Hlook|].
    eapply rtc_l; [by eapply (pool_call _ _ _ _ _ 0), Hput|]. constructor.
  - apply lookup_insert_eq.
  - eapply rtc_l; [by eapply (pool_call _ _ _ _ _ 1), Hput|]. constructor.
  - apply lookup_insert_eq.
  - vm_compute. discriminate.
Qed.
End race.

(** A decoder of raw digests, for examples. *)
Definition raw_digest : DigestCodec := {| DecodeObjectDigest := fun s => Ok s |}.
End Blobs.
