(* ===== verification/ObjectReader.v ===== *)
(** * The reader of a stored object: [seam.go], lines 300-560.

    [get] resolves ObjectStore links, opens a pull consumer on the chunk subject and returns
    an [objectChunkReader]; [Read] takes one chunk at a time and refuses anything out of
    order, too long or of the wrong digest.  A reader is a value passed from one [Read] to
    the next, which its mutex serialises; the flags other goroutines set are calls. *)

From S2P Require Import Prelude GoText Sha256 Storage Nats Prog Blobs.
Open Scope stdpp_scope.
Open Scope go_scope.
Import Blobs.

Module ObjectReader.

(** ** What the client answers *)

Record ObjectLink := { link_Bucket : string; link_Name : string }.
(** [Link] is [Opts.Link], with nil options having none. *)
Record ObjectInfo := { Size : N; Chunks : N; NUID : string; Digest : string; Link : option ObjectLink }.
Record MsgMetadata := { Stream : string; Sequence_Stream : N; NumPending : N }.
Record Msg := { Subject : string; Metadata : res MsgMetadata; Data : string }.
Record ConsumerConfig := {
  AckNone : bool; FilterSubject : string; DeliverAll : bool; InactiveThreshold : Z;
  MemoryStorage : bool; MaxRequestBatch : Z }.

(** Handles of object stores, consumers and message contexts are numbers; 0 is [s.obj]. *)
Inductive rcall :=
  | r_Status
  | r_GetInfo (obj : nat) (key : string)
  | r_ObjectStore (bucket : string)
  | r_CreateConsumer (stream : string) (cfg : ConsumerConfig)
  | r_Messages (consumer : nat)
  | r_AfterFunc                       (* context.AfterFunc(ctx, r.stopMessages) *)
  | r_Next (messages : nat)           (* with the read timeout *)
  | r_closed                          (* r.closed.Load() *)
  | r_ctxErr                          (* r.callerCtx.Err() *)
  | r_stopCaller
  | r_stopOnce                        (* whether this is the first stopMessages *)
  | r_Stop (messages : nat).

Definition rreply (c : rcall) : Type :=
  match c with
  | r_Status => res (option string)
  | r_GetInfo _ _ => res (option ObjectInfo)
  | r_ObjectStore _ => res nat
  | r_CreateConsumer _ _ | r_Messages _ => res (option nat)
  | r_Next _ => res Msg
  | r_closed | r_stopOnce => bool
  | r_ctxErr => option error
  | _ => unit
  end.

Notation RM := (prog rreply).
Definition rdo (c : rcall) : RM (rreply c) := call c.

(** ** The reader *)

Definition blobObjectReadTimeout : Z := 5000000000.
Definition blobReaderCloseOverhead : Z := 1000000000.
Definition blobReaderCloseBound : Z := blobObjectReadTimeout + blobReaderCloseOverhead.
Definition objectStreamPrefix : string := "OBJ_".
Definition objectChunkPrefix : string := "$O.".
Definition objectChunkMarker : string := ".C.".
Definition objectLinkMaxDepth : nat := 32.

Definition integrity (msg : string) : error := Wrapped msg errObjectIntegrity.

Inductive stopper := stop_nil | stop_trivial | stop_afterFunc.

(** [hash] is what has been written to the running SHA-256. *)
Record objectChunkReader := {
  messages : option nat; stream : string; subject : string;
  expectedChunks : N; expectedSize : N; expectedDigest : string; hash : string;
  chunk : string; offset : nat; chunks : N; size : N; lastStreamSeq : N;
  complete : bool; terminal : option error; stopCaller : stopper }.

Definition with_terminal (err : error) (r : objectChunkReader) : objectChunkReader :=
  {| messages := messages r; stream := stream r; subject := subject r; expectedChunks := expectedChunks r;
     expectedSize := expectedSize r; expectedDigest := expectedDigest r; hash := hash r; chunk := chunk r;
     offset := offset r; chunks := chunks r; size := size r; lastStreamSeq := lastStreamSeq r;
     complete := complete r; terminal := Some err; stopCaller := stopCaller r |}.
Definition with_offset (o : nat) (r : objectChunkReader) : objectChunkReader :=
  {| messages := messages r; stream := stream r; subject := subject r; expectedChunks := expectedChunks r;
     expectedSize := expectedSize r; expectedDigest := expectedDigest r; hash := hash r; chunk := chunk r;
     offset := o; chunks := chunks r; size := size r; lastStreamSeq := lastStreamSeq r;
     complete := complete r; terminal := terminal r; stopCaller := stopCaller r |}.

(** A [uint32], and the difference of two [uint64]. *)
Definition two32 : N := 4294967296.
Definition sub64 (a b : N) : N := ((a + two64 - b) mod two64)%N.

(** The chunk accepted: it becomes the current one. *)
Definition take_chunk (data : string) (seq : N) (r : objectChunkReader) : objectChunkReader :=
  let nextChunk := ((chunks r + 1) mod two32)%N in
  {| messages := messages r; stream := stream r; subject := subject r; expectedChunks := expectedChunks r;
     expectedSize := expectedSize r; expectedDigest := expectedDigest r; hash := hash r +:+ data; chunk := data;
     offset := 0; chunks := nextChunk; size := add64 (size r) (N.of_nat (String.length data)); lastStreamSeq := seq;
     complete := (nextChunk =? expectedChunks r)%N; terminal := terminal r; stopCaller := stopCaller r |}.

Section reader.
Context {D : DigestCodec}.

Definition stop (r : objectChunkReader) : RM unit :=
  match stopCaller r with stop_afterFunc => rdo r_stopCaller | _ => Ret tt end.

Definition stopMessages (r : objectChunkReader) : RM unit :=
  first <- rdo r_stopOnce;
  if first : bool then match messages r with Some m => rdo (r_Stop m) | None => Ret tt end else Ret tt.

(** What a [Read] returns, and the reader it leaves. *)
Definition outcome : Type := (string * option error) * objectChunkReader.

Definition fail (err : error) (r : objectChunkReader) : RM outcome :=
  let r := with_terminal err r in
  _ <- stop r; _ <- stopMessages r; Ret (EmptyString, Some err, r).

Definition finish (r : objectChunkReader) : RM outcome :=
  if negb ((chunks r =? expectedChunks r)%N && (size r =? expectedSize r)%N)
  then fail (integrity "chunk count or size mismatch") r
  else if negb (String.eqb (Sha256.Sum256 (hash r)) (expectedDigest r)) then fail (Nats js_ErrDigestMismatch) r
  else
    let r := with_terminal io_EOF r in
    _ <- stop r; _ <- stopMessages r; Ret (EmptyString, Some io_EOF, r).

(** [copy(p, r.chunk[r.offset:])], [len(p) = n]. *)
Definition copy_chunk (n : nat) (r : objectChunkReader) : outcome :=
  let out := String.substring (offset r) n (chunk r) in
  (out, None, with_offset (offset r + String.length out) r).

Definition in_order (msg : Msg) (meta : MsgMetadata) (r : objectChunkReader) : bool :=
  let nextChunk := ((chunks r + 1) mod two32)%N in
  let wantPending := ((expectedChunks r + two32 - nextChunk) mod two32)%N in
  String.eqb (Subject msg) (subject r) && String.eqb (Stream meta) (stream r) &&
  negb (Sequence_Stream meta <=? lastStreamSeq r)%N && (NumPending meta =? wantPending)%N.

Definition accept (n : nat) (msg : Msg) (r : objectChunkReader) : RM outcome :=
  match Metadata msg with
  | Err err => fail err r
  | Ok meta =>
      if negb (in_order msg meta r) then fail (integrity "invalid chunk order") r
      else if (sub64 (expectedSize r) (size r) <? N.of_nat (String.length (Data msg)))%N
      then fail (integrity "object exceeds declared size") r
      else Ret (copy_chunk n (take_chunk (Data msg) (Sequence_Stream meta) r))
  end.

Definition next_error (err : error) (r : objectChunkReader) : RM outcome :=
  closed <- rdo r_closed;
  if closed : bool then fail fs_ErrClosed r
  else
    c <- rdo r_ctxErr;
    match c with
    | Some _ => c' <- rdo r_ctxErr; match c' with Some e => fail e r | None => fail err r end
    | None => fail err r
    end.

(** A [Read] into a buffer of [n] bytes. *)
Definition Read (n : nat) (r : objectChunkReader) : RM outcome :=
  closed <- rdo r_closed;
  if closed : bool then Ret (EmptyString, Some fs_ErrClosed, r)
  else match terminal r with
  | Some err => Ret (EmptyString, Some err, r)
  | None =>
      if decide (n = 0) then Ret (EmptyString, None, r)
      else if decide (offset r < String.length (chunk r)) then Ret (copy_chunk n r)
      else if complete r || (expectedChunks r =? 0)%N then finish r
      else match messages r with
      | None => Ret (EmptyString, Some (Panic "nil messages"), r)
      | Some m =>
          msg <- rdo (r_Next m);
          match msg with
          | Err err => next_error err r
          | Ok msg => accept n msg r
          end
      end
  end.

(** ** Opening an object *)

Definition validObjectToken (value : string) : bool :=
  negb (String.eqb value EmptyString) &&
  str_forallb (fun c => byte_in 97 122 c || byte_in 65 90 c || byte_in 48 57 c || (byte_n c =? 95)%N || (byte_n c =? 45)%N) value.

Definition object_identity (bucket key : string) : string := bucket +:+ String (n_byte 0) key.

(** [depth_left] is how deep the links may still go. *)
Fixpoint resolveObjectInfo (depth_left : nat) (obj : nat) (bucket key : string) (seen : gset string) :
    RM (res (ObjectInfo * string)) :=
  match depth_left with
  | 0 => Ret (Err (integrity "object link depth exceeded"))
  | Datatypes.S depth_left =>
      r <- rdo (r_GetInfo obj key);
      match r with
      | Err err => Ret (Err err)
      | Ok None => Ret (Err (integrity "nil object info"))
      | Ok (Some info) =>
          let identity := object_identity bucket key in
          if decide (identity ∈ seen) then Ret (Err (integrity "object link cycle"))
          else match Link info with
          | None => Ret (Ok (info, bucket))
          | Some link =>
              if String.eqb (link_Name link) EmptyString || negb (validObjectToken (link_Bucket link))
              then Ret (Err (Nats js_ErrCantGetBucket))
              else
                target <-! (if String.eqb (link_Bucket link) bucket then Ret (Ok obj)
                            else rdo (r_ObjectStore (link_Bucket link)));
                resolveObjectInfo depth_left target (link_Bucket link) (link_Name link) ({[identity]} ∪ seen)
          end
      end
  end.

Definition chunk_consumer (subject : string) : ConsumerConfig :=
  {| AckNone := true; FilterSubject := subject; DeliverAll := true; InactiveThreshold := blobReaderCloseBound;
     MemoryStorage := true; MaxRequestBatch := 1 |}.

(** The reader before its first [Read]. *)
Definition new_reader (info : ObjectInfo) (digest stream subject : string) (messages : option nat) (stop : stopper) :
    objectChunkReader :=
  {| messages := messages; stream := stream; subject := subject; expectedChunks := Chunks info;
     expectedSize := Size info; expectedDigest := digest; hash := EmptyString; chunk := EmptyString; offset := 0;
     chunks := 0; size := 0; lastStreamSeq := 0; complete := false; terminal := None; stopCaller := stop |}.

Definition open_chunks (info : ObjectInfo) (bucket digest : string) : RM (res objectChunkReader) :=
  let stream := objectStreamPrefix +:+ bucket in
  let subject := objectChunkPrefix +:+ bucket +:+ objectChunkMarker +:+ NUID info in
  consumer <-! rdo (r_CreateConsumer stream (chunk_consumer subject));
  match consumer with
  | None => Ret (Err (integrity "nil pull consumer"))
  | Some consumer =>
      msgs <-! rdo (r_Messages consumer);
      match msgs with
      | None => Ret (Err (integrity "nil messages context"))
      | Some m => _ <- rdo r_AfterFunc; Ret (Ok (new_reader info digest stream subject (Some m) stop_afterFunc))
      end
  end.

Definition open_object (info : ObjectInfo) (bucket : string) : RM (res objectChunkReader) :=
  match DecodeObjectDigest (Digest info) with
  | Err _ => Ret (Err (integrity "invalid digest"))
  | Ok digest =>
      if negb (String.length digest =? 32)%nat then Ret (Err (integrity "invalid digest"))
      else if (Chunks info =? 0)%N then
        if negb (Size info =? 0)%N then Ret (Err (integrity "zero chunks with nonzero size"))
        else Ret (Ok (new_reader info digest EmptyString EmptyString None stop_trivial))
      else if (Size info =? 0)%N || negb (validObjectToken (NUID info)) then Ret (Err (integrity "invalid chunk metadata"))
      else open_chunks info bucket digest
  end.

Definition get (key : string) : RM (res objectChunkReader) :=
  status <-! rdo r_Status;
  match status with
  | None => Ret (Err (integrity "invalid object store status"))
  | Some bucket =>
      if negb (validObjectToken bucket) then Ret (Err (integrity "invalid object store status"))
      else
        r <- resolveObjectInfo objectLinkMaxDepth 0 bucket key ∅;
        match r with
        | Err err => if is_nats js_ErrObjectNotFound err then Ret (Err errObjNotFound) else Ret (Err err)
        | Ok (info, bucket) => open_object info bucket
        end
  end.

(** A caller's [Read]s, one buffer after another. *)
Fixpoint reads (ns : list nat) (r : objectChunkReader) : RM (list (string * option error) * objectChunkReader) :=
  match ns with
  | [] => Ret ([], r)
  | n :: ns => o <- Read n r; rest <- reads ns o.2; Ret (o.1 :: rest.1, rest.2)
  end.
End reader.

(** ** What a reader has seen *)

(** The messages the consumer handed over. *)
Definition next_msg (x : ans rreply) : option Msg :=
  let 'existT c r := x in
  match c return rreply c -> option Msg with
  | r_Next _ => fun r => match r with Ok m => Some m | Err _ => None end
  | _ => fun _ => None
  end r.
Definition delivered (tr : list (ans rreply)) : list Msg := omap next_msg tr.

(** The client itself gave [io.EOF] for an error that the reader passes on: [Next]'s while
    the reader was open and its context live, a message's metadata's, or the context's. *)
Inductive client_EOF : list (ans rreply) -> Prop :=
  | eof_next m c t : c = [] \/ (exists e, c = [existT r_ctxErr (Some e)]) ->
      client_EOF (existT (r_Next m) (Err io_EOF) :: existT r_closed false :: c ++ existT r_ctxErr None :: t)
  | eof_metadata m msg t : Metadata msg = Err io_EOF -> client_EOF (existT (r_Next m) (Ok msg) :: t)
  | eof_context t : client_EOF (existT r_ctxErr (Some io_EOF) :: t)
  | eof_later x t : client_EOF t -> client_EOF (x :: t).

Lemma client_EOF_app_r t t' : client_EOF t' -> client_EOF (t ++ t').
Proof. intros H. induction t as [|x t IH]; [done|]. by apply eof_later. Qed.
Lemma client_EOF_app_l t t' : client_EOF t -> client_EOF (t ++ t').
Proof.
  induction 1 as [m c t Hc|m msg t Hm|t|x t _ IH]; cbn.
  - rewrite <- app_assoc. by apply (eof_next m c (t ++ t')).
  - by apply eof_metadata.
  - apply eof_context.
  - by apply eof_later.
Qed.

Fixpoint content (ms : list Msg) : string :=
  match ms with [] => EmptyString | m :: ms => Data m +:+ content ms end.
Definition sequence_of (m : Msg) : N := match Metadata m with Ok meta => Sequence_Stream meta | Err _ => 0 end.

Lemma content_app ms ms' : content (ms ++ ms') = content ms +:+ content ms'.
Proof. induction ms as [|m ms IH]; [done|]. cbn [app content]. by rewrite IH, str_app_assoc. Qed.

(** [out] has been returned of the accepted [ms], the first of the delivered [dl]; [leak] says
    that the client gave an [io.EOF] of its own. *)
Record reading (leak : Prop) (r0 : objectChunkReader) (out : string) (ms dl : list Msg) (r : objectChunkReader) : Prop := {
  rd_stream : stream r = stream r0;
  rd_subject : subject r = subject r0;
  rd_chunks : expectedChunks r = expectedChunks r0;
  rd_size : expectedSize r = expectedSize r0;
  rd_digest : expectedDigest r = expectedDigest r0;
  rd_hash : hash r = content ms;
  rd_out : out +:+ String.substring (offset r) (String.length (chunk r)) (chunk r) = content ms;
  rd_length : size r = N.of_nat (String.length (content ms)) /\ (size r <= expectedSize r)%N;
  rd_count : chunks r = N.of_nat (length ms) /\ (chunks r <= expectedChunks r)%N /\
    ((chunks r <? expectedChunks r) = negb (complete r || (expectedChunks r =? 0)))%N;
  rd_order : StronglySorted (fun m m' => (sequence_of m < sequence_of m')%N) ms /\
    Forall (fun m => Subject m = subject r0 /\ (sequence_of m <= lastStreamSeq r)%N) ms;
  rd_delivered : exists rest, dl = ms ++ rest /\ (terminal r = None -> rest = []);
  rd_EOF : terminal r = Some io_EOF -> leak \/ out = content ms /\ size r = expectedSize r /\ chunks r = expectedChunks r /\
    Sha256.Sum256 (content ms) = expectedDigest r }.

(** A reader that has accepted nothing. *)
Definition fresh (r : objectChunkReader) : Prop :=
  chunk r = EmptyString /\ offset r = 0 /\ hash r = EmptyString /\ chunks r = 0%N /\ size r = 0%N /\
  complete r = false /\ terminal r = None /\ (expectedChunks r < two32)%N /\ u64 (expectedSize r).

Lemma fresh_reading leak r : fresh r -> reading leak r EmptyString [] [] r.
Proof.
  intros (Hc & Ho & Hh & Hn & Hs & Hf & Ht & _). split; try done; rewrite ?Hc, ?Ho, ?Hn, ?Hs, ?Hf, ?Ht; try done.
  - cbn. split; [done|lia].
  - cbn. split; [done|]. split; [lia|]. destruct (N.eqb_spec (expectedChunks r) 0) as [->|]; [done|].
    cbn. apply N.ltb_lt. lia.
  - repeat constructor.
  - by exists [].
Qed.

Section integrity.
Context {D : DigestCodec}.
Section leak.
Context (leak : Prop).
Notation reading := (reading leak).

Lemma delivered_app tr tr' : delivered (tr ++ tr') = delivered tr ++ delivered tr'.
Proof. apply omap_app. Qed.

(** The two stops deliver nothing. *)
Lemma exec_stop r tr u : exec (stop r) tr u -> delivered tr = [].
Proof. unfold stop. destruct (stopCaller r); cbn; [by intros [-> _]..|]. by intros (? & ? & -> & -> & _). Qed.
Lemma exec_stopMessages r tr u : exec (stopMessages r) tr u -> delivered tr = [].
Proof.
  unfold stopMessages. intros ([] & tr' & -> & H); cbn in H.
  - destruct (messages r); cbn in H; [by destruct H as (? & ? & -> & -> & _)|by destruct H as [-> _]].
  - by destruct H as [-> _].
Qed.
Lemma exec_stops {A} (a : A) r tr o :
  exec (_ <- stop r; _ <- stopMessages r; Ret a) tr o -> o = a /\ delivered tr = [].
Proof.
  intros (u & t1 & t2 & -> & H1 & H2)%exec_bind. apply exec_bind in H2 as (v & t3 & t4 & -> & H3 & [-> ->]).
  split; [done|]. by rewrite !delivered_app, (exec_stop _ _ _ H1), (exec_stopMessages _ _ _ H3).
Qed.

(** What a terminal error leaves of the invariant. *)
Lemma reading_failed r0 out ms dl dl' r err :
  reading r0 out ms dl r -> terminal r = None ->
  (err = io_EOF -> leak \/ out = content ms /\ size r = expectedSize r /\ chunks r = expectedChunks r /\
     Sha256.Sum256 (content ms) = expectedDigest r) ->
  reading r0 out ms (dl ++ dl') (with_terminal err r).
Proof.
  intros [] Ht He. split; try done.
  - destruct rd_delivered0 as (rest & -> & Hr). rewrite (Hr Ht), app_nil_r. by exists dl'.
  - cbn. intros [= ->]. by apply He.
Qed.

Lemma exec_fail r0 out ms dl dl' r err tr o :
  reading r0 out ms dl r -> terminal r = None -> (err = io_EOF -> leak) -> exec (fail err r) tr o ->
  o.1 = (EmptyString, Some err) /\ delivered tr = [] /\ terminal o.2 = Some err /\ reading r0 out ms (dl ++ dl') o.2.
Proof.
  intros Hr Ht Hne (-> & Hd)%exec_stops. split_and!; [done..|]. cbn. apply reading_failed; [done..|]. intros E. left. by apply Hne.
Qed.

Lemma reading_more r0 out ms dl r n :
  reading r0 out ms dl r -> terminal r = None ->
  let '(data, err, r') := copy_chunk n r in err = None /\ reading r0 (out +:+ data) ms dl r'.
Proof.
  intros [] Ht. unfold copy_chunk. split; [done|]. split; try done; cbn; [|by rewrite Ht].
  by rewrite str_app_assoc, substring_split by done.
Qed.

Lemma reading_chunk r0 out ms dl r msg meta :
  (expectedChunks r0 < two32)%N -> u64 (expectedSize r0) ->
  reading r0 out ms dl r -> terminal r = None -> String.length (chunk r) <= offset r ->
  complete r || (expectedChunks r =? 0)%N = false -> Metadata msg = Ok meta -> in_order msg meta r = true ->
  (sub64 (expectedSize r) (size r) <? N.of_nat (String.length (Data msg)))%N = false ->
  reading r0 out (ms ++ [msg]) (dl ++ [msg]) (take_chunk (Data msg) (Sequence_Stream meta) r).
Proof.
  intros H32 H64 [] Ht Ho Hc Hm Hin Hsz.
  destruct rd_length0 as [Hl Hle], rd_count0 as (Hn & Hnle & Hlt), rd_order0 as [Hsort Hall].
  rewrite Hc in Hlt. apply N.ltb_lt in Hlt. apply N.ltb_ge in Hsz. apply orb_false_iff in Hc as [_ He0].
  unfold in_order in Hin. rewrite !andb_true_iff, negb_true_iff, String.eqb_eq in Hin.
  destruct Hin as [[[Hsub _] Hseq] _]. apply N.leb_gt in Hseq.
  assert (Hsq : sequence_of msg = Sequence_Stream meta) by (unfold sequence_of; by rewrite Hm).
  assert (Hnext : ((chunks r + 1) mod two32 = chunks r + 1)%N) by (apply N.mod_small; rewrite rd_chunks0 in Hlt; lia).
  assert (Hsub64 : sub64 (expectedSize r) (size r) = (expectedSize r - size r)%N).
  { unfold sub64, u64 in *. replace (_ + two64 - _)%N with (expectedSize r - size r + 1 * two64)%N by lia.
    rewrite N.Div0.mod_add. apply N.mod_small. rewrite <- rd_size0 in H64. lia. }
  rewrite Hsub64 in Hsz.
  assert (Hadd : add64 (size r) (N.of_nat (String.length (Data msg))) = (size r + N.of_nat (String.length (Data msg)))%N)
    by (apply add64_small; unfold u64 in *; rewrite <- rd_size0 in H64; lia).
  assert (Hnil : String.substring (offset r) (String.length (chunk r)) (chunk r) = EmptyString) by by apply substring_past.
  assert (Hc1 : content (ms ++ [msg]) = content ms +:+ Data msg).
  { rewrite content_app. cbn [content]. by rewrite str_app_nil_r. }
  split; try done; cbn.
  - by rewrite Hc1, rd_hash0.
  - rewrite Hc1, substring_whole by done. rewrite <- rd_out0, Hnil. by rewrite str_app_nil_r.
  - rewrite Hadd, Hc1, str_length_app, Hl. split; lia.
  - rewrite Hnext, length_app. cbn [length]. split; [lia|]. split; [lia|].
    rewrite He0, orb_false_r. destruct (N.eqb_spec (chunks r + 1) (expectedChunks r)); [apply N.ltb_ge|apply N.ltb_lt]; lia.
  - split.
    + apply StronglySorted_app. split_and!; [|done|repeat constructor]. intros m m' Hm1 Hm2.
      apply list_elem_of_singleton in Hm2 as ->. eapply Forall_forall in Hall as [_ Hall]; [|exact Hm1]. lia.
    + apply Forall_app. split.
      * eapply Forall_impl; [exact Hall|]. intros m [? ?]. split; [done|lia].
      * constructor; [|done]. split; [congruence|lia].
  - destruct rd_delivered0 as (rest & -> & Hr). rewrite (Hr Ht), app_nil_r. exists []. by rewrite app_nil_r.
  - by rewrite Ht.
Qed.

Definition advanced (r0 : objectChunkReader) (out : string) (ms dl : list Msg) (tr : list (ans rreply)) (o : outcome) : Prop :=
  exists ms', reading r0 (out +:+ o.1.1) (ms ++ ms') (dl ++ delivered tr) o.2 /\
    (o.1.2 = Some io_EOF -> terminal o.2 = Some io_EOF).

Lemma advanced_fail r0 out ms dl msgs r err tr tr' o :
  reading r0 out ms dl r -> terminal r = None -> (err = io_EOF -> leak) -> exec (fail err r) tr o ->
  delivered tr' = msgs ++ delivered tr -> advanced r0 out ms dl tr' o.
Proof.
  intros Hr Ht Hne He Hd. destruct (exec_fail r0 out ms dl msgs r err tr o Hr Ht Hne He) as (E & Hn & Hto & Ho).
  exists []. rewrite Hd, Hn, E, !app_nil_r. cbn [fst snd]. rewrite str_app_nil_r. split; [done|]. by intros [= <-].
Qed.

Ltac refused msgs He := eapply (advanced_fail _ _ _ _ msgs); [eassumption|eassumption| |exact He|reflexivity].

Lemma advanced_same r0 out ms dl r err :
  reading r0 out ms dl r -> (err = Some io_EOF -> terminal r = Some io_EOF) ->
  advanced r0 out ms dl [] (EmptyString, err, r).
Proof. intros Hr He. exists []. cbn. by rewrite !app_nil_r, str_app_nil_r. Qed.

Lemma finish_advanced r0 out ms dl r tr o :
  reading r0 out ms dl r -> terminal r = None -> String.length (chunk r) <= offset r ->
  exec (finish r) tr o -> advanced r0 out ms dl tr o.
Proof.
  intros Hr Ht Ho. unfold finish.
  destruct (negb _) eqn:E1; [by intros He; refused (@nil Msg) He|].
  destruct (negb (String.eqb _ _)) eqn:E2; [by intros He; refused (@nil Msg) He|].
  intros [-> Hd]%exec_stops. exists []. cbn [fst snd]. rewrite Hd, !app_nil_r, str_app_nil_r. split; [|done].
  apply negb_false_iff, andb_true_iff in E1 as [H1 H2]. apply N.eqb_eq in H1, H2.
  apply negb_false_iff, String.eqb_eq in E2.
  rewrite <- (app_nil_r dl). apply reading_failed; [done..|]. intros _. right.
  split_and!; [|done|done|by rewrite <- (rd_hash _ _ _ _ _ _ Hr)].
  rewrite <- (rd_out _ _ _ _ _ _ Hr). by rewrite substring_past, str_app_nil_r.
Qed.

Lemma accept_advanced r0 out ms dl r n m msg tr o :
  (expectedChunks r0 < two32)%N -> u64 (expectedSize r0) ->
  reading r0 out ms dl r -> terminal r = None -> String.length (chunk r) <= offset r ->
  complete r || (expectedChunks r =? 0)%N = false -> (Metadata msg = Err io_EOF -> leak) ->
  exec (accept n msg r) tr o -> advanced r0 out ms dl (existT (r_Next m) (Ok msg) :: tr) o.
Proof.
  intros H32 H64 Hr Ht Ho Hc Hm. unfold accept. destruct (Metadata msg) as [meta|e] eqn:Em.
  2: { intros He. refused [msg] He. intros ->. by apply Hm. }
  destruct (negb (in_order _ _ _)) eqn:E1; [by intros He; refused [msg] He|].
  destruct (_ <? _)%N eqn:E2; [by intros He; refused [msg] He|].
  intros [-> ->]. apply negb_false_iff in E1.
  pose proof (reading_chunk _ _ _ _ _ _ _ H32 H64 Hr Ht Ho Hc Em E1 E2) as Hr'.
  pose proof (reading_more _ _ _ _ _ n Hr' Ht) as [_ Hr'']. exists [msg]. split; [exact Hr''|]. cbn. congruence.
Qed.

Lemma next_error_advanced r0 out ms dl r m err tr o :
  reading r0 out ms dl r -> terminal r = None -> (client_EOF (existT (r_Next m) (Err err) :: tr) -> leak) ->
  exec (next_error err r) tr o -> advanced r0 out ms dl (existT (r_Next m) (Err err) :: tr) o.
Proof.
  intros Hr Ht Hn (closed & t1 & -> & H). destruct closed; [by refused (@nil Msg) H|].
  destruct H as (c & t2 & -> & H). destruct c as [e|].
  - destruct H as (c' & t3 & -> & H). destruct c' as [e'|]; refused (@nil Msg) H; intros ->; apply Hn.
    + do 3 apply eof_later. apply eof_context.
    + apply (eof_next m [existT r_ctxErr (Some e)]). right. by exists e.
  - refused (@nil Msg) H. intros ->. apply Hn, (eof_next m []). by left.
Qed.

Lemma Read_advanced r0 out ms dl r n tr o :
  (expectedChunks r0 < two32)%N -> u64 (expectedSize r0) ->
  reading r0 out ms dl r -> (client_EOF tr -> leak) -> exec (Read n r) tr o -> advanced r0 out ms dl tr o.
Proof.
  intros H32 H64 Hr Hn (closed & t1 & -> & H).
  change (advanced r0 out ms dl t1 o). destruct closed; [destruct H as [-> ->]; by apply advanced_same|].
  destruct (terminal r) as [err|] eqn:Ht; [destruct H as [-> ->]; apply advanced_same; [done|congruence]|].
  destruct (decide (n = 0)); [destruct H as [-> ->]; by apply advanced_same|].
  destruct (decide (offset r < String.length (chunk r))) as [Ho|Ho].
  { destruct H as [-> ->]. destruct (reading_more _ _ _ _ _ n Hr Ht) as [_ Hr']. exists [].
    rewrite !app_nil_r. split; [exact Hr'|]. cbn. congruence. }
  destruct (complete r || _) eqn:Hc; [eapply finish_advanced; [done|done|lia|done]|].
  destruct (messages r) as [m|]; [|destruct H as [-> ->]; by apply advanced_same].
  destruct H as (msg & t2 & -> & H). destruct msg as [msg|err].
  - eapply accept_advanced; try done; [lia|]. intros E. apply Hn, eof_later. by apply eof_metadata.
  - eapply next_error_advanced; try done. intros E. by apply Hn, eof_later.
Qed.

(** A terminal error is returned for ever. *)
Lemma Read_sticky r n tr o err :
  terminal r = Some err -> exec (Read n r) tr o -> o.2 = r /\ o.1.1 = EmptyString.
Proof. intros Ht (closed & t1 & -> & H). destruct closed; [|rewrite Ht in H]; by destruct H as [-> ->]. Qed.

Fixpoint bytes_read (outs : list (string * option error)) : string :=
  match outs with [] => EmptyString | o :: outs => o.1 +:+ bytes_read outs end.

Lemma reads_sticky ns r tr outs r' err :
  terminal r = Some err -> exec (reads ns r) tr (outs, r') -> r' = r /\ bytes_read outs = EmptyString.
Proof.
  intros Ht. revert tr outs r'. induction ns as [|n ns IH]; intros tr outs r' He; [by destruct He as [_ [= -> ->]]|].
  cbn [reads] in He.
  apply exec_bind in He as (o & t1 & t2 & -> & H1 & (rest & t3 & t4 & -> & H2 & [_ [= -> ->]])%exec_bind).
  destruct (Read_sticky _ _ _ _ _ Ht H1) as [E1 E]. rewrite E1 in H2. destruct rest as [rest r'].
  destruct (IH _ _ _ H2) as [-> E2]. cbn. by rewrite E, E2.
Qed.

Lemma reads_advanced r0 out ms dl r ns tr outs r' :
  (expectedChunks r0 < two32)%N -> u64 (expectedSize r0) ->
  reading r0 out ms dl r -> (client_EOF tr -> leak) -> exec (reads ns r) tr (outs, r') ->
  exists ms', reading r0 (out +:+ bytes_read outs) (ms ++ ms') (dl ++ delivered tr) r' /\
    (Some io_EOF ∈ outs.*2 -> terminal r' = Some io_EOF).
Proof.
  intros H32 H64. revert out ms dl r tr outs r'.
  induction ns as [|n ns IH]; intros out ms dl r tr outs r' Hr Hn He; cbn [reads] in He.
  { destruct He as [-> [= -> ->]]. exists []. cbn. rewrite !app_nil_r, str_app_nil_r. split; [done|]. by intros ?%not_elem_of_nil. }
  apply exec_bind in He as (o & t1 & t2 & -> & H1 & (rest & t3 & t4 & -> & H2 & [-> [= -> ->]])%exec_bind).
  rewrite app_nil_r in *.
  assert (Hn1 : client_EOF t1 -> leak) by (intros E; by apply Hn, client_EOF_app_l).
  assert (Hn2 : client_EOF t3 -> leak) by (intros E; by apply Hn, client_EOF_app_r).
  destruct (Read_advanced _ _ _ _ _ _ _ _ H32 H64 Hr Hn1 H1) as (ms1 & Hr1 & He1). destruct rest as [rest r'].
  destruct (IH _ _ _ _ _ _ _ Hr1 Hn2 H2) as (ms2 & Hr2 & He2). cbn [fst snd bytes_read fmap list_fmap].
  exists (ms1 ++ ms2). rewrite delivered_app, !app_assoc, <- str_app_assoc. split; [exact Hr2|].
  intros [E|E]%elem_of_cons; [|by apply He2]. symmetry in E. apply He1 in E.
  by destruct (reads_sticky _ _ _ _ _ _ E H2) as [-> _].
Qed.
End leak.

(** ** What [get] opens *)

(** Go's types of an answered info. *)
Definition info_typed (x : ans rreply) : Prop :=
  let 'existT c r := x in
  match c return rreply c -> Prop with
  | r_GetInfo _ _ => fun r => match r with Ok (Some i) => (Chunks i < two32)%N /\ u64 (Size i) | _ => True end
  | _ => fun _ => True
  end r.

Definition info_answered (tr : list (ans rreply)) (info : ObjectInfo) : Prop :=
  exists obj key, existT (r_GetInfo obj key) (Ok (Some info)) ∈ tr.

Lemma resolve_answered depth_left obj bucket key seen tr info b :
  exec (resolveObjectInfo depth_left obj bucket key seen) tr (Ok (info, b)) -> info_answered tr info.
Proof.
  revert obj bucket key seen tr. induction depth_left as [|k IH]; intros obj bucket key seen tr; cbn [resolveObjectInfo]; [by intros [_ ?]|].
  intros (r & t1 & -> & H). destruct r as [[i|]|e]; [|by destruct H as [_ ?]..].
  cbn [bind] in H. cbv zeta in H. destruct (decide _); [by destruct H as [_ ?]|].
  destruct (Link i) as [link|]; [|destruct H as [-> [= -> ->]]; exists obj, key; by left].
  destruct (_ || _); [by destruct H as [_ ?]|].
  apply exec_bind in H as (target & t2 & t3 & -> & _ & H). destruct target as [target|e]; [|by destruct H as [_ ?]].
  destruct (IH _ _ _ _ _ H) as (o & k' & Hin). exists o, k'. apply list_elem_of_further, elem_of_app. by right.
Qed.

(** A reader just opened over an answered info. *)
Definition opened (info : ObjectInfo) (r : objectChunkReader) : Prop :=
  exists digest stream subject msgs stop, DecodeObjectDigest (Digest info) = Ok digest /\
    String.length digest = 32 /\ r = new_reader info digest stream subject msgs stop.

Lemma open_object_opened info bucket tr r : exec (open_object info bucket) tr (Ok r) -> opened info r.
Proof.
  unfold open_object. destruct (DecodeObjectDigest _) as [digest|e] eqn:Ed; [|by intros [_ ?]].
  destruct (String.length digest =? 32)%nat eqn:El; [|by intros [_ ?]]. apply Nat.eqb_eq in El. cbn [negb].
  destruct (_ =? 0)%N; [destruct (negb _); [by intros [_ ?]|]|].
  { intros [_ [= ->]]. by exists digest, EmptyString, EmptyString, None, stop_trivial. }
  destruct (_ || _); [by intros [_ ?]|]. unfold open_chunks. cbv zeta.
  intros (c & t1 & t2 & -> & _ & H)%exec_bind. destruct c as [[c|]|e]; [|by destruct H as [_ ?]..].
  apply exec_bind in H as (m & t3 & t4 & -> & _ & H). destruct m as [[m|]|e]; [|by destruct H as [_ ?]..].
  apply exec_bind in H as (u & t5 & t6 & -> & _ & [_ E]). injection E as ->. by eexists digest, _, _, (Some m), stop_afterFunc.
Qed.

Lemma get_opened key tr r :
  exec (get key) tr (Ok r) -> exists info, info_answered tr info /\ opened info r.
Proof.
  intros (status & t1 & t2 & -> & _ & H)%exec_bind. destruct status as [[bucket|]|e]; [|by destruct H as [_ ?]..].
  destruct (negb _); [by destruct H as [_ ?]|]. apply exec_bind in H as (res & t3 & t4 & -> & H1 & H2).
  destruct res as [[info b]|e]; [|destruct (is_nats _ _); by destruct H2 as [_ ?]].
  exists info. split; [|by eapply open_object_opened].
  destruct (resolve_answered _ _ _ _ _ _ _ _ H1) as (o & k & Hin). exists o, k.
  rewrite !elem_of_app. auto.
Qed.

(** C19. Whatever the service answers, the bytes a reader has returned are a prefix of the
    chunks it was handed, in the order and on the subject of the object, with increasing
    stream sequences; and once a [Read] has returned [io.EOF] they are the whole object that
    the answered metadata describes, its number of chunks, its size, its SHA-256 digest,
    unless the client itself reported [io.EOF] as an error, of [Next] on an open reader
    with a live context, of a message's metadata or of the context: the code passes such
    an error on as it is (see [client_EOF_truncates]). *)
Theorem object_integrity key tr0 r0 ns tr outs r :
  exec (get key) tr0 (Ok r0) -> Forall info_typed tr0 -> exec (reads ns r0) tr (outs, r) ->
  exists info digest ms later rest, info_answered tr0 info /\ DecodeObjectDigest (Digest info) = Ok digest /\
    delivered tr = ms ++ later /\ content ms = bytes_read outs +:+ rest /\
    StronglySorted (fun m m' => (sequence_of m < sequence_of m')%N) ms /\ Forall (fun m => Subject m = subject r0) ms /\
    (Some io_EOF ∈ outs.*2 ->
       client_EOF tr \/
       rest = EmptyString /\ N.of_nat (length ms) = Chunks info /\
       N.of_nat (String.length (bytes_read outs)) = Size info /\ Sha256.Sum256 (bytes_read outs) = digest).
Proof.
  intros Hg Hty Hrd. destruct (get_opened _ _ _ Hg) as (info & Hin & (digest & st & su & msgs & sp & Hd & _ & Hr0)).
  pose proof Hin as (o & k & Hin'). pose proof (proj1 (Forall_forall _ _) Hty _ Hin') as [H32 H64].
  assert (Hf : fresh r0) by (rewrite Hr0; by split_and!).
  destruct (reads_advanced (client_EOF tr) r0 EmptyString [] [] r0 ns tr outs r) as (ms & Hr & He);
    [by rewrite Hr0|by rewrite Hr0|by apply fresh_reading|done..|].
  rewrite !str_app_nil_l, !app_nil_l in Hr. destruct (rd_delivered _ _ _ _ _ _ Hr) as (later & Hl & _).
  destruct (rd_order _ _ _ _ _ _ Hr) as [Hs Hall].
  exists info, digest, ms, later, (String.substring (offset r) (String.length (chunk r)) (chunk r)).
  split_and!; [done|done|done|by rewrite (rd_out _ _ _ _ _ _ Hr)|done|by eapply Forall_impl; [exact Hall|intros m [? _]]|].
  intros E%He. destruct (rd_EOF _ _ _ _ _ _ Hr E) as [Hleak|(Eo & Es & Ec & Eh)]; [by left|right].
  pose proof (rd_out _ _ _ _ _ _ Hr) as Ho. rewrite <- Eo in Ho, Eh.
  rewrite <- (proj1 (rd_count _ _ _ _ _ _ Hr)), Ec, (rd_chunks _ _ _ _ _ _ Hr).
  rewrite Eo, <- (proj1 (rd_length _ _ _ _ _ _ Hr)), Es, (rd_size _ _ _ _ _ _ Hr).
  rewrite Eo in Eh. rewrite Eh, (rd_digest _ _ _ _ _ _ Hr), Hr0. split; [|done].
  rewrite <- (str_app_nil_r (bytes_read outs)) in Ho at 2. by apply str_app_inv_head in Ho.
Qed.
End integrity.

End ObjectReader.
