(* ===== verification/ObjectService.v ===== *)
(** * The object reader against a service that behaves: completeness.

    [object_handle] is a bucket with one object; opening it and reading with any positive
    buffers returns the object and then [io.EOF].  [dir_handle] is a set of
    buckets whose links [resolveObjectInfo] follows; it finds the object at the end of the
    links exactly when there is one, fewer than 32 links away. *)

From S2P Require Import Prelude GoText Sha256 Storage Nats Prog Blobs ObjectReader.
Open Scope stdpp_scope.
Open Scope go_scope.
Import Blobs ObjectReader.

Module ObjectService.

(** ** Reading a whole object *)

(** The stored chunks as the consumer sends them: stream sequences from [seq], spaced by
    [gap], and the number still pending. *)
Fixpoint chunk_messages (stream subject : string) (seq gap : N) (cs : list string) : list Msg :=
  match cs with
  | [] => []
  | c :: cs =>
      {| Subject := subject; Data := c;
         Metadata := Ok {| Stream := stream; Sequence_Stream := seq; NumPending := N.of_nat (length cs) |} |}
      :: chunk_messages stream subject (seq + 1 + gap) gap cs
  end.

Fixpoint total (cs : list string) : string := match cs with [] => EmptyString | c :: cs => c +:+ total cs end.

(** An object as the bucket keeps it: its chunks, and where their messages start. *)
Record stored_object := {
  so_bucket : string; so_key : string; so_nuid : string; so_digest : string; so_chunks : list string;
  so_seq : N; so_gap : N }.

Definition so_info (so : stored_object) : ObjectInfo :=
  {| Size := N.of_nat (String.length (total (so_chunks so))); Chunks := N.of_nat (length (so_chunks so));
     NUID := so_nuid so; Digest := so_digest so; Link := None |}.

Definition object_handle (so : stored_object) (c : rcall) (q : list Msg) : rreply c * list Msg :=
  match c return rreply c * list Msg with
  | r_Status => (Ok (Some (so_bucket so)), q)
  | r_GetInfo _ key => (if String.eqb key (so_key so) then Ok (Some (so_info so)) else Err (Nats js_ErrObjectNotFound), q)
  | r_ObjectStore _ => (Err (Nats ErrTimeout), q)
  | r_CreateConsumer stream cfg =>
      if String.eqb stream ("OBJ_" +:+ so_bucket so) &&
         String.eqb (FilterSubject cfg) ("$O." +:+ so_bucket so +:+ ".C." +:+ so_nuid so)
      then (Ok (Some 0), chunk_messages stream (FilterSubject cfg) (so_seq so) (so_gap so) (so_chunks so))
      else (Ok (Some 0), [])
  | r_Messages _ => (Ok (Some 0), q)
  | r_Next _ => match q with m :: q => (Ok m, q) | [] => (Err (Nats ErrTimeout), []) end
  | r_closed => (false, q)
  | r_ctxErr => (None, q)
  | r_stopOnce => (true, q)
  | r_AfterFunc | r_stopCaller | r_Stop _ => (tt, q)
  end.

(** What of the current chunk is not copied yet. *)
Definition left_over (r : objectChunkReader) : string :=
  String.substring (offset r) (String.length (chunk r)) (chunk r).

Section complete.
Context {D : DigestCodec} (so : stored_object).
Notation chunk_handle := (object_handle so).

Record ready (gap : N) (r : objectChunkReader) (q : list Msg) (cs : list string) : Prop := {
  re_queue : exists seq, (lastStreamSeq r < seq)%N /\ q = chunk_messages (stream r) (subject r) seq gap cs;
  re_messages : cs <> [] -> exists m, messages r = Some m;
  re_chunks : (chunks r + N.of_nat (length cs) = expectedChunks r)%N /\ (expectedChunks r < two32)%N;
  re_size : (size r + N.of_nat (String.length (total cs)) = expectedSize r)%N /\ u64 (expectedSize r);
  re_digest : Sha256.Sum256 (hash r +:+ total cs) = expectedDigest r;
  re_complete : complete r || (expectedChunks r =? 0)%N = bool_decide (cs = []);
  re_terminal : terminal r = None }.

Definition work (r : objectChunkReader) (cs : list string) : nat :=
  String.length (left_over r) + String.length (total cs) + length cs.

(** One read: progress, or the end. *)
Definition read_well (gap : N) (r : objectChunkReader) (cs : list string) (o : outcome) (q : list Msg) : Prop :=
  (exists cs', ready gap o.2 q cs' /\ o.1.2 = None /\ o.1.1 +:+ left_over o.2 +:+ total cs' = left_over r +:+ total cs /\
     work o.2 cs' < work r cs) \/
  (left_over r = EmptyString /\ cs = [] /\ o.1 = (EmptyString, Some io_EOF) /\ terminal o.2 = Some io_EOF).

Lemma copy_progress gap r q cs n :
  0 < n -> offset r < String.length (chunk r) -> ready gap r q cs ->
  let o := copy_chunk n r in
  ready gap o.2 q cs /\ o.1.2 = None /\ o.1.1 +:+ left_over o.2 = left_over r /\
  String.length (left_over o.2) < String.length (left_over r).
Proof.
  intros Hn Ho []. cbv zeta. unfold copy_chunk. cbn [fst snd].
  assert (Hs : String.substring (offset r) n (chunk r) +:+ left_over (with_offset (offset r +
    String.length (String.substring (offset r) n (chunk r))) r) = left_over r) by (apply substring_split; done).
  split; [by split|]. split_and!; [done|done|]. apply (f_equal String.length) in Hs. rewrite str_length_app in Hs.
  assert (String.length (String.substring (offset r) n (chunk r)) <> 0); [|lia].
  clear -Hn Ho. revert Ho. generalize (offset r). intros o. revert o.
  induction (chunk r) as [|c s IH]; intros o Ho; cbn in Ho; [lia|]. destruct o as [|o]; [destruct n; [lia|done]|]. apply (IH o). lia.
Qed.

Lemma run_stops {A} (a : A) r q :
  run chunk_handle (_ <- stop r; _ <- stopMessages r; Ret a) q = (a, q).
Proof. unfold stop, stopMessages. destruct (stopCaller r), (messages r); reflexivity. Qed.

Lemma in_order_next gap r seq c cs :
  ready gap r (chunk_messages (stream r) (subject r) seq gap (c :: cs)) (c :: cs) -> (lastStreamSeq r < seq)%N ->
  in_order {| Subject := subject r; Data := c;
    Metadata := Ok {| Stream := stream r; Sequence_Stream := seq; NumPending := N.of_nat (length cs) |} |}
    {| Stream := stream r; Sequence_Stream := seq; NumPending := N.of_nat (length cs) |} r = true.
Proof.
  intros [] Hseq. destruct re_chunks0 as [Hc H32]. cbn in Hc. unfold in_order. cbn.
  rewrite !String.eqb_refl. cbn. apply andb_true_iff. split.
  - rewrite negb_true_iff, N.leb_gt. done.
  - apply N.eqb_eq. rewrite (N.mod_small (chunks r + 1)) by lia.
    replace (expectedChunks r + two32 - (chunks r + 1))%N with (N.of_nat (length cs) + 1 * two32)%N by lia.
    rewrite N.Div0.mod_add. symmetry. apply N.mod_small. lia.
Qed.

Lemma fits gap r q c cs :
  ready gap r q (c :: cs) -> (sub64 (expectedSize r) (size r) <? N.of_nat (String.length c))%N = false.
Proof.
  intros []. destruct re_size0 as [Hs H64]. cbn in Hs. rewrite str_length_app in Hs.
  apply N.ltb_ge. unfold sub64, u64 in *.
  replace (_ + two64 - _)%N with (expectedSize r - size r + 1 * two64)%N by lia.
  rewrite N.Div0.mod_add, N.mod_small by lia. lia.
Qed.

(** The reader that has just taken a chunk. *)
Lemma taken_ready gap r seq c cs :
  ready gap r (chunk_messages (stream r) (subject r) seq gap (c :: cs)) (c :: cs) ->
  ready gap (take_chunk c seq r) (chunk_messages (stream r) (subject r) (seq + 1 + gap) gap cs) cs.
Proof.
  intros []. destruct re_chunks0 as [Hc H32], re_size0 as [Hs H64]. cbn in Hc, Hs. rewrite str_length_app in Hs.
  assert (Hn : ((chunks r + 1) mod two32 = chunks r + 1)%N) by (apply N.mod_small; lia).
  split; cbn; rewrite ?Hn.
  - exists (seq + 1 + gap)%N. split; [lia|done].
  - intros _. by apply re_messages0.
  - split; [lia|done].
  - rewrite add64_small by (unfold u64 in *; lia). split; [lia|done].
  - by rewrite str_app_assoc.
  - destruct (N.eqb_spec (expectedChunks r) 0); [lia|]. rewrite orb_false_r.
    destruct cs; [apply N.eqb_eq|apply N.eqb_neq]; cbn in Hc; lia.
  - done.
Qed.

Lemma read_chunk gap r q c cs n :
  0 < n -> ready gap r q (c :: cs) -> String.length (chunk r) <= offset r ->
  exists o q', run chunk_handle (Read n r) q = (o, q') /\ read_well gap r (c :: cs) o q'.
Proof.
  intros Hn Hr Ho. pose proof Hr as []. destruct re_queue0 as (seq & Hseq & ->).
  destruct re_messages0 as [m Hm]; [done|].
  assert (Hnil : left_over r = EmptyString) by by apply substring_past.
  pose proof (taken_ready gap r seq c cs Hr) as Hr'.
  exists (copy_chunk n (take_chunk c seq r)), (chunk_messages (stream r) (subject r) (seq + 1 + gap) gap cs). split.
  - unfold Read. cbn [run bind rdo call object_handle]. rewrite re_terminal0.
    rewrite decide_False by lia. rewrite decide_False by lia. rewrite re_complete0. cbn [bool_decide].
    rewrite bool_decide_false by done. rewrite Hm. cbn [run bind rdo call object_handle chunk_messages].
    unfold accept. cbn [Metadata Data]. rewrite (in_order_next gap r seq c cs Hr Hseq). cbn [negb].
    rewrite (fits gap r _ c cs Hr). done.
  - left. exists cs. destruct (decide (0 < String.length c)) as [Hc|Hc].
    + destruct (copy_progress gap (take_chunk c seq r) _ cs n Hn Hc Hr') as (H1 & H2 & H3 & H4).
      assert (Ht : left_over (take_chunk c seq r) = c) by (by apply substring_whole).
      split_and!; [done|done| |].
      * rewrite <- str_app_assoc, H3, Ht, Hnil. done.
      * unfold work. rewrite Hnil. rewrite Ht in H4. cbn [total length]. rewrite str_length_app. cbn [String.length]. lia.
    + assert (c = EmptyString) as -> by (destruct c; [done|cbn in Hc; lia]).
      unfold copy_chunk. cbn [fst snd chunk take_chunk offset]. 
      assert (Hs : String.substring 0 n EmptyString = EmptyString) by (by destruct n). rewrite Hs.
      split_and!; [destruct Hr'; by split|done|by rewrite Hnil|]. unfold work. rewrite Hnil.
      change (left_over _) with EmptyString. cbn [total length String.length]. rewrite str_app_nil_l. lia.
Qed.

Lemma Read_well gap r q cs n :
  0 < n -> ready gap r q cs -> exists o q', run chunk_handle (Read n r) q = (o, q') /\ read_well gap r cs o q'.
Proof.
  intros Hn Hr. destruct (decide (offset r < String.length (chunk r))) as [Ho|Ho].
  - destruct (copy_progress gap r q cs n Hn Ho Hr) as (H1 & H2 & H3 & H4). exists (copy_chunk n r), q. split.
    + unfold Read. cbn [run bind rdo call object_handle]. rewrite (re_terminal _ _ _ _ Hr).
      rewrite decide_False by lia. by rewrite decide_True by lia.
    + left. exists cs. split_and!; [done|done|by rewrite <- str_app_assoc, H3|unfold work; lia].
  - destruct cs as [|c cs]; [|by apply (read_chunk gap r q c cs n); [| |lia]].
    pose proof Hr as []. destruct re_chunks0 as [Hc H32], re_size0 as [Hs H64]. cbn in Hc, Hs.
    exists (EmptyString, Some io_EOF, with_terminal io_EOF r), q. split.
    + unfold Read. cbn [run bind rdo call object_handle]. rewrite re_terminal0.
      rewrite decide_False by lia. rewrite decide_False by lia. rewrite re_complete0.
      rewrite bool_decide_true by done. unfold finish.
      replace (chunks r =? expectedChunks r)%N with true by (symmetry; apply N.eqb_eq; lia).
      replace (size r =? expectedSize r)%N with true by (symmetry; apply N.eqb_eq; lia). cbn [negb andb].
      cbn [total] in re_digest0. rewrite str_app_nil_r in re_digest0.
      rewrite re_digest0, String.eqb_refl. cbn [negb]. by rewrite run_stops.
    + right. split_and!; [by apply substring_past; lia|done..].
Qed.

Lemma Read_ended n r q err :
  terminal r = Some err -> run chunk_handle (Read n r) q = ((EmptyString, Some err), r, q).
Proof. intros Ht. unfold Read. cbn [run bind rdo call object_handle]. by rewrite Ht. Qed.

Lemma reads_ended ns r q err :
  terminal r = Some err ->
  run chunk_handle (reads ns r) q = (replicate (length ns) (EmptyString, Some err), r, q).
Proof.
  intros Ht. induction ns as [|n ns IH]; [done|]. cbn [reads]. rewrite run_bind, (Read_ended n r q err Ht).
  rewrite run_bind. cbn [snd]. rewrite IH. done.
Qed.

Lemma bytes_ended k err : bytes_read (replicate k (EmptyString, err)) = EmptyString.
Proof. by induction k. Qed.

Lemma reads_well gap ns r q cs :
  ready gap r q cs -> Forall (fun n => 0 < n) ns -> work r cs < length ns ->
  exists outs r' q', run chunk_handle (reads ns r) q = ((outs, r'), q') /\
    bytes_read outs = left_over r +:+ total cs /\ last outs = Some (EmptyString, Some io_EOF) /\
    Forall (fun o => o.2 = None \/ o.2 = Some io_EOF) outs.
Proof.
  revert r q cs. induction ns as [|n ns IH]; intros r q cs Hr Hpos Hw; [cbn in Hw; lia|].
  apply Forall_cons in Hpos as [Hn Hpos]. cbn in Hw.
  destruct (Read_well gap r q cs n Hn Hr) as (o & q1 & Hrun & Hwell). cbn [reads]. rewrite run_bind, Hrun, run_bind.
  destruct Hwell as [(cs' & Hr' & He & Hb & Hlt)|(Hb & -> & Ho & Ht)].
  - destruct (IH o.2 q1 cs' Hr' Hpos ltac:(lia)) as (outs & r' & q2 & Hrun2 & Hb2 & Hl2 & Hf2). rewrite Hrun2.
    exists (o.1 :: outs), r', q2. split; [done|]. cbn [bytes_read]. rewrite Hb2. split; [done|].
    split; [by destruct outs|]. constructor; [by left|done].
  - rewrite (reads_ended ns _ _ _ Ht). exists (o.1 :: replicate (length ns) (EmptyString, Some io_EOF)), o.2, q1.
    split; [done|]. rewrite Ho, Hb. cbn [bytes_read fst]. rewrite bytes_ended. split; [done|]. split.
    + clear. induction (length ns) as [|k IHk]; [done|]. cbn [replicate] in *. destruct k; [done|]. exact IHk.
    + constructor; [by right|]. apply Forall_replicate. by right.
Qed.

(** The object is well formed: its chunks are not empty, and the metadata describe them. *)
Record well_stored : Prop := {
  ws_bucket : validObjectToken (so_bucket so) = true;
  ws_nuid : validObjectToken (so_nuid so) = true;
  ws_digest : DecodeObjectDigest (so_digest so) = Ok (Sha256.Sum256 (total (so_chunks so)));
  ws_chunks : Forall (fun c => c <> EmptyString) (so_chunks so);
  ws_count : (N.of_nat (length (so_chunks so)) < two32)%N;
  ws_size : u64 (N.of_nat (String.length (total (so_chunks so))));
  ws_seq : (0 < so_seq so)%N }.

Definition opened_reader : objectChunkReader :=
  let digest := Sha256.Sum256 (total (so_chunks so)) in
  match so_chunks so with
  | [] => new_reader (so_info so) digest EmptyString EmptyString None stop_trivial
  | _ => new_reader (so_info so) digest (objectStreamPrefix +:+ so_bucket so)
      (objectChunkPrefix +:+ so_bucket so +:+ objectChunkMarker +:+ so_nuid so) (Some 0) stop_afterFunc
  end.

Lemma run_get q :
  well_stored -> run chunk_handle (get (so_key so)) q = run chunk_handle (open_object (so_info so) (so_bucket so)) q.
Proof.
  intros []. unfold get. cbn [run bind rdo call object_handle bind_res]. rewrite ws_bucket0. cbn [negb].
  unfold objectLinkMaxDepth. cbn [resolveObjectInfo run bind rdo call object_handle]. rewrite String.eqb_refl.
  cbv zeta. rewrite decide_False by apply not_elem_of_empty.
  change (Link (so_info so)) with (@None ObjectLink). reflexivity.
Qed.

Lemma run_open_chunks digest q :
  run chunk_handle (open_chunks (so_info so) (so_bucket so) digest) q =
  (Ok (new_reader (so_info so) digest (objectStreamPrefix +:+ so_bucket so)
     (objectChunkPrefix +:+ so_bucket so +:+ objectChunkMarker +:+ so_nuid so) (Some 0) stop_afterFunc),
   chunk_messages (objectStreamPrefix +:+ so_bucket so)
     (objectChunkPrefix +:+ so_bucket so +:+ objectChunkMarker +:+ so_nuid so) (so_seq so) (so_gap so) (so_chunks so)).
Proof.
  unfold open_chunks. cbv zeta. change (NUID (so_info so)) with (so_nuid so).
  unfold bind_res, rdo, call. cbn [run bind]. unfold object_handle at 1. cbn [FilterSubject chunk_consumer].
  rewrite !String.eqb_refl. reflexivity.
Qed.

Lemma nonempty_total c cs : c <> EmptyString -> (N.of_nat (String.length (total (c :: cs))) =? 0)%N = false.
Proof. intros Hc. apply N.eqb_neq. cbn [total]. rewrite str_length_app. destruct c; [done|]. cbn. lia. Qed.

Lemma get_opens :
  well_stored -> exists q', run chunk_handle (get (so_key so)) [] = (Ok opened_reader, q') /\
    ready (so_gap so) opened_reader q' (so_chunks so) /\ left_over opened_reader = EmptyString.
Proof.
  intros Hw. rewrite run_get by done. pose proof Hw as []. unfold open_object, opened_reader.
  change (Digest (so_info so)) with (so_digest so). rewrite ws_digest0, Sha256.Sum256_length. cbn [negb Nat.eqb].
  change (Chunks (so_info so)) with (N.of_nat (length (so_chunks so))).
  change (Size (so_info so)) with (N.of_nat (String.length (total (so_chunks so)))).
  change (NUID (so_info so)) with (so_nuid so).
  destruct (so_chunks so) as [|c cs] eqn:Ec.
  - exists []. split; [done|]. split; [|done]. split; cbn; rewrite ?Ec; try done. by exists 1%N.
  - apply Forall_cons in ws_chunks0 as [Hc _]. pose proof (nonempty_total c cs Hc) as Ht. rewrite Ht, ws_nuid0.
    change (N.of_nat (length (c :: cs)) =? 0)%N with false. cbn [negb orb]. rewrite run_open_chunks, Ec.
    eexists. split; [reflexivity|]. split; [|done].
    split; cbn [new_reader stream subject expectedChunks expectedSize expectedDigest hash chunks size lastStreamSeq
      complete messages terminal so_info Size Chunks]; rewrite ?Ec.
    + by exists (so_seq so).
    + by exists 0.
    + done.
    + done.
    + by rewrite str_app_nil_l.
    + done.
    + done.
Qed.

(** C20. Opening a stored object and reading it with buffers of any positive sizes, enough of
    them, returns exactly its bytes and then [io.EOF], and no other error: the loop of
    [io.ReadAll] ends, after at most one [Read] per byte and per chunk and one for the end. *)
Theorem object_reads_complete ns :
  well_stored -> Forall (fun n => 0 < n) ns ->
  String.length (total (so_chunks so)) + length (so_chunks so) < length ns ->
  exists r q outs r' q', run chunk_handle (get (so_key so)) [] = (Ok r, q) /\
    run chunk_handle (reads ns r) q = ((outs, r'), q') /\
    bytes_read outs = total (so_chunks so) /\ last outs = Some (EmptyString, Some io_EOF) /\
    Forall (fun o => o.2 = None \/ o.2 = Some io_EOF) outs.
Proof.
  intros Hw Hpos Hlen. destruct (get_opens Hw) as (q & Hg & Hr & Hl). exists opened_reader, q.
  destruct (reads_well (so_gap so) ns opened_reader q (so_chunks so) Hr Hpos) as (outs & r' & q' & Hrun & Hb & Hlast & Hf).
  { unfold work. rewrite Hl. cbn. lia. }
  exists outs, r', q'. rewrite Hl, str_app_nil_l in Hb. done.
Qed.
End complete.

(** ** Following links *)

(** Buckets of objects, each known by name; a handle is its position among those opened. *)
Notation directory := (string -> string -> option ObjectInfo).

Definition dir_handle (dir : directory) (c : rcall) (open : list string) : rreply c * list string :=
  match c return rreply c * list string with
  | r_GetInfo obj key =>
      (match (b ← open !! obj; dir b key) with Some i => Ok (Some i) | None => Err (Nats js_ErrObjectNotFound) end, open)
  | r_ObjectStore bucket => (Ok (length open), open ++ [bucket])
  | r_Status => (Err (Nats ErrTimeout), open)
  | r_CreateConsumer _ _ => (Err (Nats ErrTimeout), open)
  | r_Messages _ => (Err (Nats ErrTimeout), open)
  | r_Next _ => (Err (Nats ErrTimeout), open)
  | r_closed | r_stopOnce => (false, open)
  | r_ctxErr => (None, open)
  | r_AfterFunc | r_stopCaller | r_Stop _ => (tt, open)
  end.

Definition link_ok (l : ObjectLink) : Prop := link_Name l <> EmptyString /\ validObjectToken (link_Bucket l) = true.

Section links.
Context {D : DigestCodec} (dir : directory).

(** One usable link from an object to the next; the object at the end of [n] of them. *)
Inductive link_step : string * string -> string * string -> Prop :=
  | one_link b k i l : dir b k = Some i -> Link i = Some l -> link_ok l ->
      link_step (b, k) (link_Bucket l, link_Name l).
Definition leads_to (n : nat) (p : string * string) (b : string) (i : ObjectInfo) : Prop :=
  exists k, nsteps link_step n p (b, k) /\ dir b k = Some i /\ Link i = None.

Lemma link_step_det p q q' : link_step p q -> link_step p q' -> q = q'.
Proof. intros [b k i l Hd Hl _] H. inversion H; subst. congruence. Qed.

(** No object on such a path comes twice. *)
Lemma leads_no_cycle n p b i m : leads_to n p b i -> ~ nsteps link_step (Datatypes.S m) p p.
Proof.
  revert p m. induction (lt_wf n) as [n _ IH]. intros p m (k & Hs & Hd & Hl) Hc.
  destruct n as [|n].
  - inversion Hs; subst. inversion Hc as [|? ? q ? Hq]; subst. inversion Hq; subst. congruence.
  - inversion Hs as [|? ? q ? Hpq Hq]; subst. inversion Hc as [|? ? q' ? Hpq' Hq']; subst.
    assert (q' = q) as -> by by eapply link_step_det.
    apply (IH n ltac:(lia) q m); [by exists k|]. replace (Datatypes.S m) with (m + 1) by lia.
    eapply nsteps_trans; [exact Hq'|by apply nsteps_once].
Qed.

Lemma identity_inj b k b' k' :
  validObjectToken b = true -> validObjectToken b' = true -> object_identity b k = object_identity b' k' ->
  (b, k) = (b', k').
Proof.
  unfold validObjectToken. rewrite !andb_true_iff. intros [_ Hb] [_ Hb']. revert b' Hb'.
  unfold object_identity. induction b as [|c b IH]; intros [|c' b'] Hb' E; rewrite ?str_app_nil_l, ?str_cons_app in E.
  - by injection E as ->.
  - injection E as <- E. cbn [str_forallb] in Hb'. apply andb_true_iff in Hb' as [H _]. by vm_compute in H.
  - injection E as -> E. cbn [str_forallb] in Hb. apply andb_true_iff in Hb as [H _]. by vm_compute in H.
  - injection E as <- E. cbn [str_forallb] in Hb, Hb'. apply andb_true_iff in Hb as [_ Hb], Hb' as [_ Hb'].
    specialize (IH Hb b' Hb' E). congruence.
Qed.

(** What has been seen are objects from which this one was reached. *)
Definition seen_before (seen : gset string) (b k : string) : Prop :=
  forall id, id ∈ seen -> exists b0 k0 m, id = object_identity b0 k0 /\ validObjectToken b0 = true /\
    nsteps link_step (Datatypes.S m) (b0, k0) (b, k).

(** One link, followed and remembered. *)
Lemma leads_step n b k i l b' info : dir b k = Some i -> Link i = Some l ->
  leads_to (Datatypes.S n) (b, k) b' info <->
  link_ok l /\ leads_to n (link_Bucket l, link_Name l) b' info.
Proof.
  intros Hd Hl. split.
  - intros (k' & Hs & Hd' & Hl'). inversion Hs as [|? ? q ? Hq Hqs]; subst. inversion Hq; subst.
    assert (l0 = l) as -> by congruence. split; [done|]. by exists k'.
  - intros (Hok & k' & Hs & Hrest). exists k'. split; [|done]. eapply nsteps_l; [by econstructor|done].
Qed.

Lemma seen_link seen b k i l : validObjectToken b = true -> dir b k = Some i -> Link i = Some l -> link_ok l ->
  seen_before seen b k -> seen_before ({[object_identity b k]} ∪ seen) (link_Bucket l) (link_Name l).
Proof.
  intros Hb Hd Hl Hok Hseen id [->%elem_of_singleton|Hid]%elem_of_union.
  - exists b, k, 0. split_and!; [done..|]. apply nsteps_once. by econstructor.
  - destruct (Hseen _ Hid) as (b0 & k0 & m & -> & Hb0 & Hm). exists b0, k0, (Datatypes.S m). split_and!; [done..|].
    replace (Datatypes.S (Datatypes.S m)) with (Datatypes.S m + 1) by lia.
    eapply nsteps_trans; [exact Hm|]. apply nsteps_once. by econstructor.
Qed.

Lemma resolve_spec depth_left obj b k seen open info b' :
  validObjectToken b = true -> open !! obj = Some b -> seen_before seen b k ->
  (exists n, n < depth_left /\ leads_to n (b, k) b' info) <->
  (run (dir_handle dir) (resolveObjectInfo depth_left obj b k seen) open).1 = Ok (info, b').
Proof.
  revert obj b k seen open. induction depth_left as [|d IH]; intros obj b k seen open Hb Ho Hseen.
  { cbn. split; [by intros (n & Hn & _); lia|done]. }
  cbn [resolveObjectInfo]. unfold rdo, call. cbn [bind run dir_handle]. rewrite Ho. cbn [mbind option_bind].
  destruct (dir b k) as [i|] eqn:Hd.
  2: { cbn. split; [|done]. intros (n & _ & k' & Hs & Hd' & _). destruct n; inversion Hs; subst; [congruence|].
       match goal with H : link_step _ _ |- _ => inversion H; congruence end. }
  cbv zeta. destruct (decide (object_identity b k ∈ seen)) as [Hin|Hin].
  { cbn. split; [|done]. intros (n & _ & Hlead). exfalso.
    destruct (Hseen _ Hin) as (b0 & k0 & m & E & Hb0 & Hm).
    pose proof (identity_inj _ _ _ _ Hb Hb0 E) as [= <- <-]. by eapply leads_no_cycle. }
  destruct (Link i) as [l|] eqn:Hl.
  2: { cbn. split.
       - intros (n & _ & k' & Hs & Hd' & Hl'). destruct n; inversion Hs; subst; [congruence|].
         match goal with H : link_step _ _ |- _ => inversion H; congruence end.
       - intros [= <- <-]. exists 0. split; [lia|]. exists k. by split; [constructor|]. }
  pose proof (fun n => leads_step n b k i l b' info Hd Hl) as Hstep.
  assert (H0 : ~ leads_to 0 (b, k) b' info) by (intros (k' & Hs & Hd' & Hl'); inversion Hs; subst; congruence).
  destruct (_ || _) eqn:Hbad.
  { cbn. split; [|done]. intros ([|n] & _ & Hlead); [done|]. apply Hstep in Hlead as [[Hn Ht] _].
    apply orb_true_iff in Hbad as [Hbad|Hbad]; [by apply String.eqb_eq in Hbad|by rewrite Ht in Hbad]. }
  apply orb_false_iff in Hbad as [Hn Ht]. apply String.eqb_neq in Hn. apply negb_false_iff in Ht.
  pose proof (seen_link seen b k i l Hb Hd Hl (conj Hn Ht) Hseen) as Hseen'.
  transitivity (exists n, n < d /\ leads_to n (link_Bucket l, link_Name l) b' info).
  { split.
    - intros ([|n] & Hlt & Hlead); [done|]. exists n. split; [lia|]. by apply Hstep.
    - intros (n & Hlt & Hlead). exists (Datatypes.S n). split; [lia|]. by apply Hstep. }
  unfold bind_res. destruct (String.eqb_spec (link_Bucket l) b) as [E|E].
  - cbn [bind run]. apply IH; [done|congruence|done].
  - cbn [bind run dir_handle]. apply IH; [done|by apply list_lookup_middle|done].
Qed.

(** [resolveObjectInfo] finds an object exactly when one stands at the end of fewer than
    32 usable links from the key, and then it answers that object and its bucket: the depth
    bound and the cycle check refuse nothing else, and dangling, unnamed or oddly named
    links are errors.  Whatever is answered, it asks for at most 32 infos. *)
Theorem resolve_follows_links bucket key open info bucket' :
  validObjectToken bucket = true -> open !! 0 = Some bucket ->
  ((exists n, n < objectLinkMaxDepth /\ leads_to n (bucket, key) bucket' info) <->
   (run (dir_handle dir) (resolveObjectInfo objectLinkMaxDepth 0 bucket key ∅) open).1 = Ok (info, bucket')) /\
  at_most (fun c => match c with r_GetInfo _ _ => true | _ => false end) objectLinkMaxDepth
    (resolveObjectInfo objectLinkMaxDepth 0 bucket key ∅).
Proof.
  intros Hb Ho. split; [apply resolve_spec; [done..|]; by intros id ?%not_elem_of_empty|].
  generalize objectLinkMaxDepth, 0, bucket, key, (∅ : gset string). clear.
  intros d. induction d as [|d IH]; intros obj b k seen; [done|]. cbn [resolveObjectInfo]. cbn. intros r.
  repeat case_match; try done; cbn; try apply IH; try done. intros [?|?]; [apply IH|done].
Qed.
End links.

(** ** A small object and a link to it *)

Section sample.
Existing Instance raw_digest.

Definition greeting : stored_object :=
  {| so_bucket := "blobs"; so_key := "greeting"; so_nuid := "N1"; so_digest := Sha256.Sum256 "hello world";
     so_chunks := ["hello "; "world"]; so_seq := 7; so_gap := 3 |}.

Lemma greeting_stored : well_stored greeting.
Proof. split; try by vm_compute. by repeat constructor. Qed.

Definition buffers : list nat := replicate 14 5.

Lemma object_reads_complete_witness :
  exists r q outs r' q', run (object_handle greeting) (get "greeting") [] = (Ok r, q) /\
    run (object_handle greeting) (reads buffers r) q = ((outs, r'), q') /\ bytes_read outs = "hello world".
Proof.
  destruct (object_reads_complete greeting buffers greeting_stored ltac:(by repeat constructor; lia) ltac:(vm_compute; lia))
    as (r & q & outs & r' & q' & H1 & H2 & H3 & _). exists r, q, outs, r', q'. split; [exact H1|split; [exact H2|exact H3]].
Defined.

Definition greeting_reader : objectChunkReader := opened_reader greeting.
Definition greeting_queue : list Msg := (run (object_handle greeting) (get "greeting") []).2.

Definition open_trace : list (ans rreply) := trace_of (object_handle greeting) (get "greeting") [].
Definition read_trace : list (ans rreply) :=
  trace_of (object_handle greeting) (reads buffers greeting_reader) greeting_queue.
Definition read_outcome : list (string * option error) * objectChunkReader :=
  fst (run (object_handle greeting) (reads buffers greeting_reader) greeting_queue).

Lemma open_trace_exec : exec (get "greeting") open_trace (Ok greeting_reader).
Proof.
  assert (E : fst (run (object_handle greeting) (get "greeting") []) = Ok greeting_reader) by (vm_compute; reflexivity).
  exact (eq_ind _ (exec (get "greeting") open_trace) (exec_trace_of (object_handle greeting) (get "greeting") []) _ E).
Qed.
Lemma read_trace_exec : exec (reads buffers greeting_reader) read_trace (read_outcome.1, read_outcome.2).
Proof.
  exact (eq_ind _ (exec (reads buffers greeting_reader) read_trace)
    (exec_trace_of (object_handle greeting) (reads buffers greeting_reader) greeting_queue) _ (surjective_pairing read_outcome)).
Qed.
Lemma open_trace_typed : Forall info_typed open_trace.
Proof.
  let t := eval vm_compute in open_trace in assert (E : open_trace = t) by (vm_compute; reflexivity).
  rewrite E. repeat (constructor; [first [exact I|by split]|]). constructor.
Qed.
(** The errors the client's calls gave. *)
Definition client_error (x : ans rreply) : option error :=
  let 'existT c r := x in
  match c return rreply c -> option error with
  | r_Next _ => fun r => match r with Err e => Some e | Ok m => match Metadata m with Err e => Some e | Ok _ => None end end
  | r_ctxErr => fun r => r
  | _ => fun _ => None
  end r.
Lemma client_EOF_error tr : client_EOF tr -> Exists (fun x => client_error x = Some io_EOF) tr.
Proof. induction 1 as [m c t Hc|m msg t Hm|t|x t _ IH]; [by left|left; cbn; by rewrite Hm|by left|by right]. Qed.
Lemma read_trace_no_EOF : ~ client_EOF read_trace.
Proof.
  intros H%client_EOF_error. revert H. apply Forall_not_Exists. vm_compute. repeat constructor; intros [=].
Qed.
Lemma read_outcome_ends : Some io_EOF ∈ read_outcome.1.*2.
Proof. vm_compute. repeat constructor. Qed.
Definition answered_info (x : ans rreply) : option ObjectInfo :=
  let 'existT c r := x in
  match c return rreply c -> option ObjectInfo with
  | r_GetInfo _ _ => fun r => match r with Ok i => i | Err _ => None end
  | _ => fun _ => None
  end r.
Lemma open_trace_infos : omap answered_info open_trace = [so_info greeting].
Proof. vm_compute. reflexivity. Qed.
Lemma open_trace_info info : info_answered open_trace info -> info = so_info greeting.
Proof.
  intros (obj & k & Hin). apply list_elem_of_singleton. rewrite <- open_trace_infos.
  apply list_elem_of_omap. by eexists.
Qed.

Lemma object_integrity_witness :
  exec (get "greeting") open_trace (Ok greeting_reader) /\
  Ok (Sha256.Sum256 (bytes_read read_outcome.1)) = DecodeObjectDigest (Digest (so_info greeting)).
Proof.
  split; [exact open_trace_exec|].
  destruct (object_integrity (D := raw_digest) "greeting" open_trace greeting_reader buffers read_trace read_outcome.1
    read_outcome.2 open_trace_exec open_trace_typed read_trace_exec)
    as (info & digest & ms & later & rest & Hin & Hd & _ & _ & _ & _ & He).
  destruct (He read_outcome_ends) as [Hleak|(_ & _ & _ & Hh)]; [exact (False_ind _ (read_trace_no_EOF Hleak))|]. pose proof (open_trace_info info Hin) as ->.
  exact (eq_trans (f_equal (@Ok string) Hh) (eq_sym Hd)).
Defined.

(** A client that reports the end of its messages by [io.EOF] makes a truncated object look
    whole: the first chunk, and the end. *)
Definition ending_handle (c : rcall) (q : list Msg) : rreply c * list Msg :=
  match c return rreply c * list Msg with
  | r_Next _ => match q with m :: q => (Ok m, q) | [] => (Err io_EOF, []) end
  | c => object_handle greeting c q
  end.
Example client_EOF_truncates :
  let outs := (run ending_handle (reads buffers greeting_reader) (take 1 greeting_queue)).1.1 in
  bytes_read outs = "hello " /\ last outs = Some (EmptyString, Some io_EOF).
Proof. vm_compute. by split. Qed.

Definition linked (b k : string) : option ObjectInfo :=
  if String.eqb k "alias" then
    Some {| Size := 0; Chunks := 0; NUID := EmptyString; Digest := EmptyString;
            Link := Some {| link_Bucket := "blobs"; link_Name := "greeting" |} |}
  else if String.eqb k "greeting" then Some (so_info greeting) else None.

Lemma resolve_follows_links_witness :
  (run (dir_handle linked) (resolveObjectInfo objectLinkMaxDepth 0 "blobs" "alias" ∅) ["blobs"]).1 =
    Ok (so_info greeting, "blobs").
Proof.
  apply (proj1 (resolve_follows_links linked "blobs" "alias" ["blobs"] (so_info greeting) "blobs" eq_refl eq_refl)).
  exists 1. split; [vm_compute; lia|]. exists "greeting". split; [|by split].
  apply nsteps_once. by eapply (one_link linked "blobs" "alias" _ {| link_Bucket := "blobs"; link_Name := "greeting" |}).
Defined.
End sample.
End ObjectService.
