(* ===== verification/BlobOps.v ===== *)
(** * Reading, deleting and listing blobs: the store over its seam.

    [Blobs.Get] linked with the seam's [get] of [ObjectReader], over buckets whose entries
    other clients change between any two calls; with the deletes and listings of [Blobs],
    what every operation but [Put] answers. *)

From S2P Require Import Prelude GoText Sha256 Storage Nats Prog Kv Blobs ObjectReader.
Open Scope stdpp_scope.
Open Scope go_scope.
Import Blobs ObjectReader.

Module BlobOps.

Section get.
Context `{Sto : Storage} {D : DigestCodec}.

(** [s.seam.get] returns no nil reader without an error. *)
Definition seam_get (key : string) : RM (res (option objectChunkReader)) :=
  r <- get key;
  Ret (match r with Ok rc => Ok (Some rc) | Err err => Err err end).

(** [blobStore.Get] over [jetStreamObjectSeam.get]. *)
Definition Get (key : string) : RM (res objectChunkReader) := Blobs.Get seam_get key.

(** ** The buckets *)

(** What each bucket holds under each name, and the bucket of each handle, the store's own
    first. *)
Record world := { entries : gmap (string * string) ObjectInfo; stores : list string }.

(** An error that does not say that an object is absent. *)
Definition fault (e : error) : Prop := is_obj_not_found e = false /\ is_nats js_ErrObjectNotFound e = false.

(** What the package relies on: an info is the entry of the bucket asked, only a look-up of
    an absent name answers [ErrObjectNotFound], and any call can fail otherwise. *)
Definition world_handle (c : rcall) (s : world) : rreply c -> world -> Prop :=
  match c return rreply c -> world -> Prop with
  | r_Status => fun r s' => s' = s /\
      match r with Ok (Some b) => stores s !! 0 = Some b | Ok None => True | Err e => fault e end
  | r_GetInfo obj key => fun r s' => s' = s /\
      match r with
      | Ok (Some i) => exists b, stores s !! obj = Some b /\ entries s !! (b, key) = Some i
      | Ok None => True
      | Err e => is_obj_not_found e = false /\
          (is_nats js_ErrObjectNotFound e = true -> exists b, stores s !! obj = Some b /\ entries s !! (b, key) = None)
      end
  | r_ObjectStore bucket => fun r s' =>
      match r with
      | Ok h => h = length (stores s) /\ s' = {| entries := entries s; stores := stores s ++ [bucket] |}
      | Err e => s' = s /\ fault e
      end
  | r_CreateConsumer _ _ | r_Messages _ => fun r s' => s' = s /\ match r with Ok _ => True | Err e => fault e end
  | _ => fun _ s' => s' = s
  end.

(** ** What a get answers *)

Section answers.
(** The other clients, and the other calls of this process. *)
Context (rely : world -> world -> Prop).

(** Time passes: others move, and this call opens buckets. *)
Definition later : world -> world -> Prop := rtc (fun s s' => rely s s' \/ entries s' = entries s).

(** Following the links from a name, each look-up at some instant: to an entry that is no
    link, or to an absent name. *)
Inductive follows (s : world) : string * string -> option (string * ObjectInfo) -> Prop :=
  | found s1 b k i : later s s1 -> entries s1 !! (b, k) = Some i -> Link i = None -> follows s (b, k) (Some (b, i))
  | absent s1 b k : later s s1 -> entries s1 !! (b, k) = None -> follows s (b, k) None
  | linked s1 b k i l out : later s s1 -> entries s1 !! (b, k) = Some i -> Link i = Some l ->
      follows s1 (link_Bucket l, link_Name l) out -> follows s (b, k) out.

(** A new reader of the object of [i] in [bucket]. *)
Definition reader_of (bucket : string) (i : ObjectInfo) (rc : objectChunkReader) : Prop :=
  exists digest, DecodeObjectDigest (Digest i) = Ok digest /\ String.length digest = 32 /\
    if (Chunks i =? 0)%N then Size i = 0%N /\ rc = new_reader i digest EmptyString EmptyString None stop_trivial
    else exists m, rc = new_reader i digest (objectStreamPrefix +:+ bucket)
           (objectChunkPrefix +:+ bucket +:+ objectChunkMarker +:+ NUID i) (Some m) stop_afterFunc.

Definition get_spec (bucket : string) (s : world) (key : string) (r : res objectChunkReader) : Prop :=
  match ValidateName key with
  | Some e => r = Err e
  | None =>
      match r with
      | Ok rc => exists b i, follows s (bucket, key) (Some (b, i)) /\ reader_of b i rc
      | Err (BlobNotFoundError key') => key' = key /\ follows s (bucket, key) None
      | Err e => exists cause, e = BlobOpError key "get" cause /\ is_nats js_ErrObjectNotFound cause = false
      end
  end.

(** Handles stay what they are. *)
Context `{!Reflexive rely} (Hrely : forall s s', rely s s' -> stores s `prefix_of` stores s').
Notation WP := (wp world_handle rely (fun _ _ => True)).

Lemma later_rely s s' : rely s s' -> later s s'.
Proof. intros H. apply rtc_once. by left. Qed.

Lemma stores_rely s s' n b : rely s s' -> stores s !! n = Some b -> stores s' !! n = Some b.
Proof. intros Hr H. by eapply prefix_lookup_Some; [|apply Hrely]. Qed.

Lemma follows_later s s' p out : later s s' -> follows s' p out -> follows s p out.
Proof.
  intros Hl H. destruct H as [s1 b k i H1|s1 b k H1|s1 b k i l out H1 ? ? ?].
  - apply (found s s1); [by etrans|done..].
  - apply (absent s s1); [by etrans|done].
  - apply (linked s s1 b k i l); [by etrans|done..].
Qed.

Lemma integrity_fault msg : fault (integrity msg).
Proof. by split. Qed.

(** What the links of a name resolve to. *)
Definition resolved (s : world) (p : string * string) (r : res (ObjectInfo * string)) : Prop :=
  match r with
  | Ok (i, b) => follows s p (Some (b, i))
  | Err e => is_obj_not_found e = false /\ (is_nats js_ErrObjectNotFound e = true -> follows s p None)
  end.

Lemma resolved_fault s p e : fault e -> resolved s p (Err e).
Proof. intros [H1 H2]. split; [done|]. by rewrite H2. Qed.

Lemma resolved_link s s1 s2 b k i l r :
  later s s1 -> entries s1 !! (b, k) = Some i -> Link i = Some l -> later s1 s2 ->
  resolved s2 (link_Bucket l, link_Name l) r -> resolved s (b, k) r.
Proof.
  intros H1 He Hl H2 H.
  assert (Hf : forall out, follows s2 (link_Bucket l, link_Name l) out -> follows s (b, k) out).
  { intros out Hf. apply (linked s s1 b k i l); [done..|]. by eapply follows_later. }
  destruct r as [[i' b']|e]; [by apply Hf|]. destruct H as [Hn Ha]. split; [done|]. intros Hx. by apply Hf, Ha.
Qed.

Lemma wp_resolve depth obj b k seen s :
  stores s !! obj = Some b -> WP (resolveObjectInfo depth obj b k seen) (fun r _ => resolved s (b, k) r) s.
Proof.
  revert obj b k seen s. induction depth as [|depth IH]; intros obj b k seen s Hobj; cbn [resolveObjectInfo].
  { intros s' _. apply resolved_fault, integrity_fault. }
  apply wp_call. intros s1 r s2 H1 [-> Hr]. split; [done|]. pose proof (stores_rely _ _ _ _ H1 Hobj) as Hobj1.
  destruct r as [[i|]|e].
  2: { intros s' _. apply resolved_fault, integrity_fault. }
  2: { intros s' _. destruct Hr as [Hn Ha]. split; [done|]. intros (b' & Hb & He)%Ha.
       assert (b' = b) as -> by congruence. apply (absent s s1); [by apply later_rely|done]. }
  destruct Hr as (b' & Hb & He). assert (b' = b) as -> by congruence. clear Hb. cbv zeta.
  destruct (decide _); [intros s' _; apply resolved_fault, integrity_fault|].
  destruct (Link i) as [l|] eqn:Hl.
  2: { intros s' _. apply (found s s1); [by apply later_rely|done..]. }
  destruct (_ || _); [by intros s' _|].
  assert (Hls : later s s1) by by apply later_rely.
  destruct (String.eqb_spec (link_Bucket l) b) as [E|_]; unfold bind_res.
  - eapply wp_mono; [apply (IH obj (link_Bucket l) (link_Name l) _ s1); by rewrite E|]. intros r s' Hr.
    by apply (resolved_link s s1 s1 b k i l).
  - apply (wp_call (r_ObjectStore (link_Bucket l))). intros s2 r s3 H2 Hr. split; [done|]. destruct r as [h|e].
    + destruct Hr as [-> ->]. eapply wp_mono; [apply IH; by apply list_lookup_middle|].
      intros r s' Hr. eapply (resolved_link s s1 _ b k i l); [done..| |exact Hr].
      eapply rtc_l; [by left|]. apply rtc_once. by right.
    + destruct Hr as [-> Hf]. intros s' _. by apply resolved_fault.
Qed.

(** ** The reader that is opened *)

(** Whatever happens meanwhile, the reader is the object's, or a fault is reported. *)
Definition opened_or_fault (b : string) (i : ObjectInfo) (r : res objectChunkReader) : Prop :=
  match r with Ok rc => reader_of b i rc | Err e => fault e end.

Lemma wp_open b i s : WP (open_object i b) (fun r _ => opened_or_fault b i r) s.
Proof.
  assert (Hint : forall msg s, WP (Ret (Err (integrity msg))) (fun r _ => opened_or_fault b i r) s)
    by (intros msg s' s'' _; apply integrity_fault).
  unfold open_object. destruct (DecodeObjectDigest (Digest i)) as [digest|e] eqn:Hd; [|apply Hint].
  destruct (Nat.eqb_spec (String.length digest) 32) as [Hlen|_]; [cbn [negb]|apply Hint].
  destruct (Chunks i =? 0)%N eqn:Hc.
  - destruct (N.eqb_spec (Size i) 0) as [Hs|_]; [cbn [negb]|apply Hint]. intros s' _. exists digest. by rewrite Hc.
  - destruct (_ || _); [apply Hint|]. unfold open_chunks. cbv zeta. unfold bind_res.
    apply (wp_call (r_CreateConsumer _ _)). intros s1 r s2 _ [_ Hr]. split; [done|].
    destruct r as [[consumer|]|e]; [|apply Hint|by intros s' _].
    apply (wp_call (r_Messages _)). intros s3 r s4 _ [_ Hr']. split; [done|].
    destruct r as [[m|]|e]; [|apply Hint|by intros s' _].
    apply (wp_call r_AfterFunc). intros s5 [] s6 _ _. split; [done|]. intros s' _. exists digest. rewrite Hc.
    split_and!; [done..|by exists m].
Qed.

Lemma wp_seam_get bucket k s :
  stores s !! 0 = Some bucket ->
  WP (seam_get k) (fun r _ => match r with
    | Ok (Some rc) => exists b i, follows s (bucket, k) (Some (b, i)) /\ reader_of b i rc
    | Ok None => False
    | Err e => e = errObjNotFound /\ follows s (bucket, k) None \/ fault e
    end) s.
Proof.
  intros Hb. unfold seam_get, get. apply wp_bind; [done|]. unfold bind_res. apply (wp_call r_Status).
  intros s1 r s2 H1 [-> Hr]. split; [done|]. pose proof (stores_rely _ _ _ _ H1 Hb) as Hb1.
  destruct r as [[b|]|e]; [|by intros s' _ s'' _; right|by intros s' _ s'' _; right].
  assert (b = bucket) as -> by congruence. destruct (negb _); [by intros s' _ s'' _; right|].
  apply wp_bind; [done|]. eapply wp_mono; [by apply (wp_resolve objectLinkMaxDepth 0 bucket k)|].
  intros [[i b]|e] s' Hres.
  - eapply wp_mono; [apply wp_open|]. intros [rc|e] s2 Ho s3 _; [|by right]. exists b, i. split; [|done].
    eapply follows_later; [by apply later_rely|exact Hres].
  - destruct Hres as [Hn Ha]. destruct (is_nats js_ErrObjectNotFound e) eqn:En; intros s2 _ s3 _; [left|right; by split].
    split; [done|]. eapply follows_later; [by apply later_rely|by apply Ha].
Qed.

Lemma get_answers bucket key s :
  stores s !! 0 = Some bucket -> WP (Get key) (fun r _ => get_spec bucket s key r) s.
Proof.
  intros Hb. unfold Get, Blobs.Get, blobKeyForName, get_spec. destruct (ValidateName key) as [e|]; [by intros s' _|].
  cbn [bind bind_res]. apply wp_bind; [done|]. eapply wp_mono; [by apply wp_seam_get|].
  intros [[rc|]|e] s' Hr; [|done|].
  - by intros s2 _.
  - destruct Hr as [[-> Hf]|[Hn Hf]]; [by intros s2 _|]. rewrite Hn. intros s2 _. by exists e.
Qed.
End answers.
End get.

(** ** The operations *)

(** C34. The blob operations but [Put].  A delete and a listing take effect at one instant, as
    [b_spec] says: a delete is idempotent, a listing is the stored keys with the prefix,
    ascending and once each, and a fault is neither.  A get follows the links of its key
    through the buckets, whatever other clients change between its calls: a reader it
    returns is the one of the object at their end, in that object's bucket; [BlobNotFound]
    is answered only when some name on the way, the key's own or a dangling link's, was
    absent when it was looked up; and every other failure is a [BlobOpError] whose cause
    is not the absence of an object, so that neither is ever reported as the other. *)
Theorem blob_ops_refine `{Sto : Storage} {D : DigestCodec} :
  (forall rely o s, Reflexive rely ->
     wp obj_handle rely (fun _ _ => True) (b_prog o) (fun r s' => atomically rely (b_spec o) s r s') s) /\
  (forall rely bucket key s, Reflexive rely -> (forall s s', rely s s' -> stores s `prefix_of` stores s') ->
     stores s !! 0 = Some bucket ->
     wp world_handle rely (fun _ _ => True) (Get key) (fun r _ => get_spec rely bucket s key r) s).
Proof. split; [intros rely o s; apply b_ops_refine|intros rely bucket key s Hrefl Hrely; by apply get_answers]. Qed.

(** ** A delete, and a link to a blob that is gone *)

Section sample.
Existing Instance Reference.reference.
Existing Instance raw_digest.

Definition alias : ObjectInfo :=
  {| Size := 0; Chunks := 0; NUID := EmptyString; Digest := EmptyString;
     Link := Some {| link_Bucket := "blobs"; link_Name := "gone" |} |}.
Definition dangling : world := {| entries := {[("blobs", "alias") := alias]}; stores := ["blobs"] |}.

Lemma dangling_gone : entries dangling !! ("blobs", "gone") = None.
Proof. vm_compute. reflexivity. Qed.

Theorem blob_ops_refine_witness :
  atomically eq (b_spec (BDelete "a")) (<["a" := "one"]> ∅) None (delete "a" (<["a" := "one"]> ∅)) /\
  follows eq dangling ("blobs", "alias") None.
Proof.
  destruct blob_ops_refine as [H1 H2]. split.
  - destruct (H1 eq (BDelete "a") (<["a" := "one"]> ∅) _ _ eq_refl None (delete "a" (<["a" := "one"]> ∅)) eq_refl) as [_ H].
    exact (H _ eq_refl).
  - assert (Hp : forall s s' : world, s = s' -> stores s `prefix_of` stores s') by (by intros s ? <-).
    specialize (H2 eq "blobs" "alias" dangling _ Hp eq_refl).
    destruct (H2 dangling eq_refl (Ok (Some "blobs")) dangling (conj eq_refl eq_refl)) as [_ H3]. clear H2.
    destruct (H3 dangling eq_refl (Ok (Some alias)) dangling) as [_ H4]; [split; [done|]; by exists "blobs"|]. clear H3.
    destruct (H4 dangling eq_refl (Err (Nats js_ErrObjectNotFound)) dangling) as [_ H5].
    { split; [done|]. split; [done|]. intros _. exists "blobs". split; [done|apply dangling_gone]. }
    exact (proj2 (H5 dangling eq_refl)).
Defined.
End sample.
End BlobOps.
