(* ===== verification/ReaderClose.v ===== *)
(** * Closing a blob reader while others read: the locks of [blobs.go] and [seam.go].

    A caller of the store holds a [blobLifecycleReader] around an [objectChunkReader]; any
    number of goroutines may be in [Read] and [Close] at once.  One step is one access to a
    flag, a mutex, a [sync.Once] or a channel, in the order of the two methods.  A [Read] at
    work ends by itself: the one call it makes has a time limit. *)

From S2P Require Import Prelude GoText Storage.
Open Scope stdpp_scope.

Module ReaderClose.

(** Where a caller is: in a [Read], before the wrapper's flag, the mutex, the inner flag, or
    past it in the work of [objectChunkReader.Read]; or in a [Close], before the flag, the
    [Once], the parts of the inner [Close], the end of the [Once]'s function, the channel. *)
Inductive phase :=
  | RStart | RLock | RIn | RWork | RDone (refused : bool)
  | CStart | COnce | CInner | CStop | CLock | CFinish | CWait | CDone (err : option error).

(** A [sync.Once]. *)
Inductive once_state := Free | Busy (c : nat) | Ran.

(** [w_] fields are the wrapper's, [i_] fields the inner reader's. *)
Record state := {
  w_closed : bool; w_once : once_state; w_done : bool; w_closeErr : option error;
  i_closed : bool; i_stopped : bool; i_readMu : option nat; i_done : bool;
  closes : nat;                       (* how often the inner Close was called *)
  callers : gmap nat phase }.

Definition idle : state :=
  {| w_closed := false; w_once := Free; w_done := false; w_closeErr := None; i_closed := false;
     i_stopped := false; i_readMu := None; i_done := false; closes := 0; callers := ∅ |}.

Definition at_ (c : nat) (ph : phase) (s : state) : state :=
  {| w_closed := w_closed s; w_once := w_once s; w_done := w_done s; w_closeErr := w_closeErr s;
     i_closed := i_closed s; i_stopped := i_stopped s; i_readMu := i_readMu s; i_done := i_done s;
     closes := closes s; callers := <[c := ph]> (callers s) |}.
Definition with_wrapper (cl : bool) (o : once_state) (d : bool) (e : option error) (s : state) : state :=
  {| w_closed := cl; w_once := o; w_done := d; w_closeErr := e; i_closed := i_closed s; i_stopped := i_stopped s;
     i_readMu := i_readMu s; i_done := i_done s; closes := closes s; callers := callers s |}.
Definition with_inner (cl st : bool) (mu : option nat) (d : bool) (n : nat) (s : state) : state :=
  {| w_closed := w_closed s; w_once := w_once s; w_done := w_done s; w_closeErr := w_closeErr s;
     i_closed := cl; i_stopped := st; i_readMu := mu; i_done := d; closes := n; callers := callers s |}.
Definition set_mu (mu : option nat) (s : state) : state :=
  with_inner (i_closed s) (i_stopped s) mu (i_done s) (closes s) s.

(** A new call of a method. *)
Inductive enter : state -> state -> Prop :=
  | call_read c s : callers s !! c = None -> enter s (at_ c RStart s)
  | call_close c s : callers s !! c = None -> enter s (at_ c CStart s).

(** One step of a call, from a phase. *)
Inductive move (c : nat) (s : state) : phase -> state -> Prop :=
  (* blobLifecycleReader.Read, objectChunkReader.Read *)
  | read_check : move c s RStart (at_ c (if w_closed s then RDone true else RLock) s)
  | read_lock : i_readMu s = None -> move c s RLock (at_ c RIn (set_mu (Some c) s))
  | read_closed : i_closed s = true -> move c s RIn (at_ c (RDone true) (set_mu None s))
  | read_open : i_closed s = false -> move c s RIn (at_ c RWork s)
  | read_end : move c s RWork (at_ c (RDone false) (set_mu None s))
  (* blobLifecycleReader.Close *)
  | close_store : move c s CStart (at_ c COnce (with_wrapper true (w_once s) (w_done s) (w_closeErr s) s))
  | close_first : w_once s = Free ->
      move c s COnce (at_ c CInner (with_wrapper (w_closed s) (Busy c) (w_done s) (w_closeErr s) s))
  | close_later : w_once s = Ran -> move c s COnce (at_ c CWait s)
  (* objectChunkReader.Close, called by the first *)
  | close_inner : move c s CInner
      (at_ c CStop (with_inner true (i_stopped s) (i_readMu s) (i_done s) (Datatypes.S (closes s)) s))
  | close_stop : move c s CStop (at_ c CLock (with_inner (i_closed s) true (i_readMu s) (i_done s) (closes s) s))
  | close_lock : i_readMu s = None ->
      move c s CLock (at_ c CFinish (with_inner (i_closed s) (i_stopped s) None true (closes s) s))
  (* r.closeErr = ...; close(r.closeDone); <-r.closeDone; return r.closeErr *)
  | close_finish err : move c s CFinish (at_ c CWait (with_wrapper (w_closed s) Ran true err s))
  | close_return : w_done s = true -> move c s CWait (at_ c (CDone (w_closeErr s)) s).

Inductive progress (s s' : state) : Prop :=
  | progress_by c ph : callers s !! c = Some ph -> move c s ph s' -> progress s s'.

Definition step (s s' : state) : Prop := enter s s' \/ progress s s'.
Definition reachable (s : state) : Prop := rtc step idle s.

(** ** The invariant *)

Definition in_read (ph : phase) : Prop := ph = RIn \/ ph = RWork.
Definition in_close (ph : phase) : Prop := ph = CInner \/ ph = CStop \/ ph = CLock \/ ph = CFinish.

Definition phase_ok (s : state) (c : nat) (ph : phase) : Prop :=
  match ph with
  | RIn => i_readMu s = Some c
  | RWork => i_readMu s = Some c /\ i_done s = false
  | COnce => w_closed s = true
  | CInner => w_once s = Busy c /\ closes s = 0 /\ w_closed s = true
  | CStop | CLock => w_once s = Busy c /\ closes s = 1 /\ w_closed s = true
  | CFinish => w_once s = Busy c /\ closes s = 1 /\ i_done s = true /\ w_closed s = true
  | CWait => w_once s = Ran
  | CDone err => w_once s = Ran /\ err = w_closeErr s
  | _ => True
  end.

Record inv (s : state) : Prop := {
  v_phases : forall c ph, callers s !! c = Some ph -> phase_ok s c ph;
  v_mutex : forall c, i_readMu s = Some c -> exists ph, callers s !! c = Some ph /\ in_read ph;
  v_once : match w_once s with
           | Free => closes s = 0
           | Busy c => exists ph, callers s !! c = Some ph /\ in_close ph
           | Ran => closes s = 1 /\ i_done s = true /\ w_closed s = true
           end;
  v_closed : i_closed s = true <-> closes s = 1;
  v_count : closes s <= 1;
  v_done : w_done s = true <-> w_once s = Ran;
  v_drained : i_done s = true -> i_closed s = true }.

Lemma idle_inv : inv idle.
Proof. split; cbn; [intros c ph H; by rewrite lookup_empty in H|done|done|by split|lia|by split|done]. Qed.

(** What a step of [c] must show: that it keeps the others' phases, its own, and the rest. *)
Lemma move_keeps s s' c ph :
  callers s' = <[c := ph]> (callers s) ->
  (forall d p, d <> c -> callers s !! d = Some p -> phase_ok s d p -> phase_ok s' d p) ->
  phase_ok s' c ph -> inv s -> forall d p, callers s' !! d = Some p -> phase_ok s' d p.
Proof.
  intros Hc Hothers Hown Hi d p Hd. rewrite Hc in Hd. destruct (decide (d = c)) as [->|Hne].
  - rewrite lookup_insert_eq in Hd. by injection Hd as <-.
  - rewrite lookup_insert_ne in Hd by done. apply Hothers; [done..|]. by apply (v_phases s Hi).
Qed.

(** Another caller keeps its place. *)
Lemma keeps_place (P : phase -> Prop) s c d ph ph' :
  callers s !! c = Some ph -> ~ P ph ->
  (exists p, callers s !! d = Some p /\ P p) -> exists p, <[c := ph']> (callers s) !! d = Some p /\ P p.
Proof.
  intros Hc Hn (p & Hd & Hp). exists p. rewrite lookup_insert_ne; [done|]. intros ->. rewrite Hc in Hd. by injection Hd as ->.
Qed.

Lemma at_place (P : phase -> Prop) s c (ph : phase) : P ph -> exists p, <[c := ph]> (callers s) !! c = Some p /\ P p.
Proof. intros H. exists ph. by rewrite lookup_insert_eq. Qed.

Ltac place :=
  lazymatch goal with
  | |- exists p, <[?c := _]> _ !! ?c = Some p /\ _ => apply (at_place _ _ c); unfold in_read, in_close; tauto
  | |- exists p, <[?c := _]> _ !! ?d = Some p /\ _ =>
      eapply keeps_place; [eassumption|unfold in_read, in_close; intuition discriminate|eauto]
  end.

Lemma enter_inv s s' : enter s s' -> inv s -> inv s'.
Proof.
  intros He Hi. assert (Hfresh : forall P c, callers s !! c = None ->
    forall ph d, (exists p, callers s !! d = Some p /\ P p) -> exists p, <[c := ph]> (callers s) !! d = Some p /\ P p).
  { intros P c Hc ph d (p & Hd & Hp). exists p. rewrite lookup_insert_ne; [done|]. intros ->. congruence. }
  destruct He as [c s Hc|c s Hc]; (split;
    [eapply (move_keeps s); [reflexivity|intros d p _ _; by destruct p|done|done]
    |intros d Hd; apply Hfresh; [done|by apply (v_mutex s Hi)]
    |pose proof (v_once s Hi) as Ho; cbn; destruct (w_once s); [done|by apply Hfresh|done]
    |apply Hi..]).
Qed.

Lemma move_inv c s ph s' : callers s !! c = Some ph -> move c s ph s' -> inv s -> inv s'.
Proof.
  intros Hc Hm Hi. pose proof (v_phases s Hi c ph Hc) as Hp. pose proof (v_mutex s Hi) as Hmu.
  pose proof (v_once s Hi) as Ho. pose proof (v_closed s Hi) as Hcl. pose proof (v_count s Hi) as Hn.
  pose proof (v_done s Hi) as Hd. pose proof (v_drained s Hi) as Hdr.
  destruct Hm; cbn in Hp; (split; [eapply (move_keeps s); [reflexivity| | |done]| | | | | |]); cbn; try done.
  all: try (intros d p Hne Hdp; destruct p; cbn; try done; intuition congruence).
  all: try (destruct Hp as (Eo & Hp); rewrite Eo in Ho |- *).
  all: try (intros d Hmd; first [assert (d = c) as -> by congruence; place
                                |destruct (Hmu d Hmd) as (p & ?); place]).
  all: try place.
  all: try (destruct (w_once s) eqn:Eo'; first [place|intuition congruence]).
  all: try (repeat case_match; intuition (first [congruence|lia])).
  split; [done|]. destruct (i_done s); [|done]. by rewrite Hdr in H.
Qed.

Lemma reader_reachable_inv s : reachable s -> inv s.
Proof.
  intros H. assert (E : forall s0, rtc step s0 s -> inv s0 -> inv s); [|by apply (E _ H), idle_inv].
  clear H. intros s0. induction 1 as [s0|s0 s1 s2 Hs _ IH]; [done|]. intros Hi. apply IH.
  destruct Hs as [He|[c ph Hc Hm]]; [by apply (enter_inv s0)|by apply (move_inv c s0 ph)].
Qed.

(** ** No deadlock *)

Definition finished (ph : phase) : Prop := match ph with RDone _ | CDone _ => True | _ => False end.

(** The holder of the mutex can go on. *)
Lemma holder_moves s d : inv s -> i_readMu s = Some d -> exists s', progress s s'.
Proof.
  intros Hi Hmu. destruct (v_mutex s Hi d Hmu) as (ph & Hd & [->| ->]).
  - destruct (i_closed s) eqn:Ecl; eexists; (econstructor; [exact Hd|]); [by apply read_closed|by apply read_open].
  - eexists. econstructor; [exact Hd|apply read_end].
Qed.

Lemma lock_moves s c ph ph' s' : inv s -> callers s !! c = Some ph' -> (i_readMu s = None -> move c s ph s') -> ph' = ph ->
  exists s', progress s s'.
Proof.
  intros Hi Hc Hm ->. destruct (i_readMu s) as [d|] eqn:Emu; [by eapply holder_moves|].
  eexists. econstructor; [exact Hc|by apply Hm].
Qed.

(** Whoever runs the wrapper's [Once] can go on, or the mutex's holder can. *)
Lemma once_moves s d : inv s -> w_once s = Busy d -> exists s', progress s s'.
Proof.
  intros Hi Ho. pose proof (v_once s Hi) as H. rewrite Ho in H. destruct H as (ph & Hd & [->|[->|[->| ->]]]).
  - eexists. econstructor; [exact Hd|apply close_inner].
  - eexists. econstructor; [exact Hd|apply close_stop].
  - by eapply lock_moves; [|exact Hd|apply close_lock|].
  - eexists. econstructor; [exact Hd|by apply (close_finish d s None)].
Qed.

Lemma no_deadlock s c ph : inv s -> callers s !! c = Some ph -> ~ finished ph -> exists s', progress s s'.
Proof.
  intros Hi Hc Hf. pose proof (v_phases s Hi c ph Hc) as Hp.
  destruct ph; cbn in Hf, Hp; try (by destruct Hf);
    try (by eapply holder_moves; [|apply Hp]); try (by eapply once_moves; [|apply Hp]).
  - eexists. econstructor; [exact Hc|apply read_check].
  - by eapply lock_moves; [|exact Hc|apply read_lock|].
  - eexists. econstructor; [exact Hc|apply close_store].
  - destruct (w_once s) as [|d|] eqn:Eo; [|by eapply once_moves|];
      eexists; (econstructor; [exact Hc|]); [by apply close_first|by apply close_later].
  - eexists. econstructor; [exact Hc|]. apply close_return. by apply (v_done s Hi).
Qed.

(** Once a [Close] has returned, no [Read] works on the object, and no later one will. *)
Lemma closed_stays s s' c err :
  rtc step s s' -> inv s -> callers s !! c = Some (CDone err) ->
  callers s' !! c = Some (CDone err) /\ inv s'.
Proof.
  induction 1 as [s|s s1 s2 Hs _ IH]; [done|]. intros Hi Hc.
  destruct Hs as [He|[d ph Hd Hm]].
  - apply IH; [by apply (enter_inv s)|]. destruct He as [d s Hn|d s Hn]; cbn;
      (rewrite lookup_insert_ne; [done|]; intros ->; congruence).
  - apply IH; [by apply (move_inv d s ph)|]. destruct (decide (d = c)) as [->|Hne].
    + rewrite Hc in Hd. injection Hd as <-. inversion Hm.
    + destruct Hm; cbn; by rewrite lookup_insert_ne.
Qed.

(** ** Every call returns *)

(** How many steps a call still has to take, and all the calls together. *)
Definition weight (ph : phase) : nat :=
  match ph with
  | RStart => 4 | RLock => 3 | RIn => 2 | RWork => 1 | RDone _ => 0
  | CStart => 7 | COnce => 6 | CInner => 5 | CStop => 4 | CLock => 3 | CFinish => 2 | CWait => 1 | CDone _ => 0
  end.
Definition total (m : gmap nat phase) : nat := map_fold (fun _ ph n => weight ph + n) 0 m.

Lemma total_insert m c ph ph' : m !! c = Some ph -> total (<[c := ph']> m) + weight ph = total m + weight ph'.
Proof.
  intros Hc. unfold total. rewrite (map_fold_delete_L _ _ c ph m); [|intros; lia|done].
  rewrite (map_fold_delete_L _ _ c ph' (<[c := ph']> m)); [|intros; lia|apply lookup_insert_eq].
  rewrite delete_insert_eq. lia.
Qed.

Lemma total_bound m : total m <= 7 * size m.
Proof.
  unfold total. induction m as [|c ph m Hc IH] using map_ind; [rewrite map_fold_empty; lia|].
  rewrite map_fold_insert_L by (done || intros; lia). rewrite map_size_insert_None by done.
  assert (weight ph <= 7) by (destruct ph; cbn; lia). lia.
Qed.

(** A step is one of some call's, towards its end. *)
Lemma progress_total s s' : progress s s' -> total (callers s') < total (callers s).
Proof.
  intros [c ph Hc Hm].
  assert (exists ph', callers s' = <[c := ph']> (callers s) /\ weight ph' < weight ph) as (ph' & -> & Hw).
  { destruct Hm; eexists; (split; [reflexivity|]); try (destruct (w_closed s)); cbn; lia. }
  pose proof (total_insert _ _ _ ph' Hc). lia.
Qed.

Lemma progress_bounded n s s' : nsteps progress n s s' -> n + total (callers s') <= total (callers s).
Proof. induction 1 as [s|n s s1 s' H%progress_total _ IH]; lia. Qed.

Lemma progress_inv s s' : rtc progress s s' -> inv s -> inv s'.
Proof. induction 1 as [s|s s1 s' [c ph Hc Hm] _ IH]; [done|]. intros Hi. apply IH. by apply (move_inv c s ph). Qed.

(** C21. Reads and closes of one blob reader, in any number and any interleaving.  Every call
    returns: with no new calls, the calls at work take at most seven steps each, in whatever
    order, and once none of them can take a step all of them have returned.  The inner
    reader is closed at most once.  After a [Close] has returned it has been closed, every
    [Close] returns the same result, no [Read] is at work on the object now or later, and
    each that begins then is refused. *)
Theorem reader_close_safe s :
  reachable s ->
  (forall n s', nsteps progress n s s' -> n <= 7 * size (callers s)) /\
  (forall s', rtc progress s s' -> (forall t, ~ progress s' t) -> forall c ph, callers s' !! c = Some ph -> finished ph) /\
  closes s <= 1 /\
  (forall c err s', callers s !! c = Some (CDone err) -> rtc step s s' ->
     closes s' = 1 /\ (forall d err', callers s' !! d = Some (CDone err') -> err' = err) /\
     (forall d, callers s' !! d <> Some RWork) /\
     (forall d t, callers s' !! d = Some RStart -> move d s' RStart t -> callers t !! d = Some (RDone true))).
Proof.
  intros Hr%reader_reachable_inv. split_and!.
  - intros n s' Hn%progress_bounded. pose proof (total_bound (callers s)). lia.
  - intros s' Hs Hend c ph Hc. pose proof (progress_inv _ _ Hs Hr) as Hi.
    destruct ph; try exact I; (destruct (no_deadlock s' c _ Hi Hc) as [t Ht]; [by intros []|by apply Hend in Ht]).
  - apply (v_count s Hr).
  - intros c err s' Hc Hs. destruct (closed_stays s s' c err Hs Hr Hc) as [Hc' Hi].
    destruct (v_phases s' Hi c _ Hc') as [Ho He]. pose proof (v_once s' Hi) as Hran. rewrite Ho in Hran.
    destruct Hran as (Hn & Hdone & Hw). split_and!.
    + done.
    + intros d err' Hd. destruct (v_phases s' Hi d _ Hd) as [_ E]. congruence.
    + intros d Hd. destruct (v_phases s' Hi d _ Hd) as [_ E]. congruence.
    + intros d t Hd Hm. inversion Hm; subst. cbn. by rewrite lookup_insert_eq, Hw.
Qed.

(** A reader closed once, with a second [Close] and a [Read] behind it. *)
Definition closed_once : state :=
  {| w_closed := true; w_once := Ran; w_done := true; w_closeErr := None; i_closed := true; i_stopped := true;
     i_readMu := None; i_done := true; closes := 1; callers := {[0 := CDone None]} |}.

Ltac goes rule := eapply rtc_l; [right; eapply (progress_by _ _ 0); [reflexivity|apply rule; reflexivity]|cbn; rewrite ?insert_insert_eq].

Lemma closed_once_reachable : reachable closed_once.
Proof.
  eapply rtc_l; [left; by apply (call_close 0)|]. cbn.
  goes close_store. goes close_first. goes close_inner. goes close_stop. goes close_lock.
  goes (close_finish 0 {| w_closed := true; w_once := Busy 0; w_done := false; w_closeErr := None; i_closed := true;
    i_stopped := true; i_readMu := None; i_done := true; closes := 1; callers := {[0 := CFinish]} |} None).
  goes close_return. constructor.
Qed.

Lemma reader_close_safe_witness : closes closed_once = 1 /\ (forall d, callers closed_once !! d <> Some RWork).
Proof.
  destruct (reader_close_safe closed_once closed_once_reachable) as (_ & _ & _ & H).
  destruct (H 0 None closed_once eq_refl (rtc_refl _ _)) as (H1 & _ & H3 & _).
  split; [exact H1|exact H3].
Defined.

End ReaderClose.
