(* ===== verification/OrderedStore.v ===== *)
(** * [ordered.go] (mutating half): [Get], [Create], [Update], [Delete] over the seam.

    Each method is a program over the calls of the [orderedSeam] interface and the other
    effects it has (the scope latch, the entropy source, the timer).  [handle] is the
    contract the interface's comments state, over an append-only log per stream; [fake]
    is an executable service that meets it, with scripted failures. *)

From S2P Require Import Prelude GoText Storage OrderedCodec Prog.
From Stdlib Require Import Ascii.
Open Scope stdpp_scope.
Import Codec.

Module Store.

Record orderedStreamSpec := { stream : string; subjectFilter : string }.
Record orderedMsg := { subject : string; data : string; expectLastSeq : N }.

#[export] Instance orderedMsg_eq_dec : EqDecision orderedMsg.
Proof. solve_decision. Defined.

(** ** The calls a mutating method makes *)

Inductive event :=
  | ensureStream (spec : orderedStreamSpec)
  | lastMsgForSubject (spec : orderedStreamSpec) (subject : string)
  | publish (stream : string) (msg : orderedMsg)
  | publishBatch (stream : string) (msgs : list orderedMsg)
  | acquireScope (key : string)
  | releaseScope (key : string)
  | randomUint64
  | sleep (delay : Z).

(** Go's [error] result is [option error]. *)
Definition reply (e : event) : Type :=
  match e with
  | lastMsgForSubject _ _ => res (N * string)
  | releaseScope _ => unit
  | randomUint64 => N
  | _ => option error
  end.

Notation M := (prog reply).

(** A call of the seam, or of another effect. *)
Definition seam (e : event) : M (reply e) := call e.

(** [if err != nil { return err }] *)
Notation "'guard!' m ; k" := (match m with Some e => Ret (Err e) | None => k end)
  (at level 100, m at next level, right associativity) : go_scope.

Definition orderedCreateAttempts : nat := 64.
Definition orderedRetryBase : Z := 100 * 1000.
Definition orderedRetryMaxShift : Z := 8.
Definition orderedViewRetryBase : Z := 50 * 1000 * 1000.
Definition orderedViewRetryMaxShift : Z := 6.

Definition orderedBackoff (base shift maxShift : Z) : M (option error) :=
  if (base <=? 0)%Z then Ret None
  else
    let shift := Z.min (Z.max shift 0) maxShift in
    let window := wrap64 (Z.shiftl base shift) in
    r <- seam randomUint64;
    let delay := wrap64 (Z.of_N r mod (window mod 2 ^ 64)) in
    seam (sleep delay).

Definition orderedRecordEqual (a b : OrderedRecord) : bool :=
  bool_decide (ID a = ID b) && bool_decide (RankingScope a = RankingScope b) &&
  (Revision a =? Revision b)%N && (Order a =? Order b)%N &&
  bool_decide (DueOf a = DueOf b) && bool_decide (RankOf a = RankOf b) &&
  Bool.eqb (Deleted a) (Deleted b) && String.eqb (bytes_of (Value a)) (bytes_of (Value b)).

Section store.
Context `{S : Storage}.
Context (retryBase : Z).

Definition waitBeforeRetry (attempt : Z) : M (option error) :=
  orderedBackoff retryBase (attempt - 1) orderedRetryMaxShift.

(** The stream and its filter, the counter subject, the record subject. *)
Definition orderedLocation (id : OrderedID) : res (orderedStreamSpec * string * string) :=
  guard? ValidateOrderedID id;
  stream <-? orderedStreamName (Namespace id);
  filter <-? orderedSubjectFilter (Namespace id);
  counter <-? orderedCounterSubject (Namespace id) (OrderingScope id);
  record <-? orderedRecordSubject id;
  Ok ({| stream := stream; subjectFilter := filter |}, counter, record).

(** [None] is [ok = false]. *)
Definition readRecord (spec : orderedStreamSpec) (subject : string)
    : M (res (option (OrderedRecord * N))) :=
  '(seq, data) <-! seam (lastMsgForSubject spec subject);
  if (seq =? 0)%N then Ret (Ok None)
  else rec <-! Ret (decodeOrderedRecord subject data); Ret (Ok (Some (rec, seq))).

Definition Get (id : OrderedID) : M (res OrderedRecord) :=
  '(spec, _, recordSubj) <-! Ret (orderedLocation id);
  found <-! readRecord spec recordSubj;
  match found with
  | None => Ret (Err (OrderedRecordNotFoundError id))
  | Some (rec, _) => Ret (Ok rec)
  end.

(** ** Create *)

Definition new_record (id : OrderedID) (rankingScope : string) (value : option string) (rank : Rank)
    (due : Due) (last : N) : OrderedRecord :=
  {| ID := id; RankingScope := rankingScope; Revision := 1; Order := add64 last 1;
     DueOf := due; RankOf := rank; Value := value; Deleted := false |}.

Definition readCounter (spec : orderedStreamSpec) (counterSubj : string) : M (res (N * N)) :=
  '(counterSeq, counterData) <-! seam (lastMsgForSubject spec counterSubj);
  if (counterSeq =? 0)%N then Ret (Ok (counterSeq, 0%N))
  else last <-! Ret (decodeOrderedCounter counterData); Ret (Ok (counterSeq, last)).

(** One attempt; [None] means the attempt lost its fence and the identity is still free. *)
Definition create_attempt (id : OrderedID) (rankingScope : string) (value : option string)
    (rank : Rank) (due : Due) (spec : orderedStreamSpec) (counterSubj recordSubj : string)
    : M (res (option (OrderedRecord * bool))) :=
  '(counterSeq, last) <-! readCounter spec counterSubj;
  if (last =? MaxUint64)%N then Ret (Err (OrderedOrderExhaustedError id last))
  else
    let rec := new_record id rankingScope value rank due last in
    payload <-! Ret (encodeOrderedRecord rec);
    err <- seam (publishBatch (stream spec)
             [{| subject := counterSubj; data := encodeOrderedCounter (Order rec); expectLastSeq := counterSeq |};
              {| subject := recordSubj; data := payload; expectLastSeq := 0 |}]);
    match err with
    | None => Ret (Ok (Some (rec, true)))
    | Some e =>
        if is_precondition e then
          found <-! readRecord spec recordSubj;
          match found with
          | Some (winner, _) => Ret (Ok (Some (winner, false)))
          | None => Ret (Ok None)
          end
        else if is_ordered_ambiguous e then
          found <-! readRecord spec recordSubj;
          match found with
          | Some (winner, _) => Ret (Ok (Some (winner, orderedRecordEqual winner rec)))
          | None => Ret (Err (OrderedAmbiguousError OrderedCreateOperation id e))
          end
        else Ret (Err e)
    end.

(** The loop, with [n] attempts left. *)
Fixpoint create_loop (n : nat) (id : OrderedID) (rankingScope : string) (value : option string)
    (rank : Rank) (due : Due) (spec : orderedStreamSpec) (counterSubj recordSubj : string)
    : M (res (OrderedRecord * bool)) :=
  match n with
  | 0 => Ret (Err (OrderedContentionError id (N.of_nat orderedCreateAttempts)))
  | Datatypes.S n' =>
      let attempt := (Z.of_nat orderedCreateAttempts - Z.of_nat n')%Z in
      err <- (if (1 <? attempt)%Z then waitBeforeRetry (attempt - 1) else Ret None);
      guard! err;
      done <-! create_attempt id rankingScope value rank due spec counterSubj recordSubj;
      match done with
      | Some result => Ret (Ok result)
      | None => create_loop n' id rankingScope value rank due spec counterSubj recordSubj
      end
  end.

#[global] Arguments create_loop : simpl never.

Definition Create (id : OrderedID) (rankingScope : string) (value : option string) (rank : Rank)
    (due : Due) : M (res (OrderedRecord * bool)) :=
  '(spec, counterSubj, recordSubj) <-! Ret (orderedLocation id);
  err <- seam (ensureStream spec); guard! err;
  found <-! readRecord spec recordSubj;
  match found with
  | Some (existing, _) => Ret (Ok (existing, false))
  | None =>
      guard! ValidateName rankingScope;
      guard! ValidateOrderedValue value;
      guard! ValidateDue due;
      err <- seam (acquireScope counterSubj); guard! err;
      result <- create_loop orderedCreateAttempts id rankingScope value rank due spec counterSubj recordSubj;
      _ <- seam (releaseScope counterSubj);
      Ret result
  end.

(** ** Update and Delete *)

Definition commitRevision (spec : orderedStreamSpec) (subject : string) (expectSeq : N)
    (next : OrderedRecord) (expectedRevision : N) (op : OrderedOperation) : M (res OrderedRecord) :=
  payload <-! Ret (encodeOrderedRecord next);
  err <- seam (publish (stream spec) {| subject := subject; data := payload; expectLastSeq := expectSeq |});
  match err with
  | None => Ret (Ok next)
  | Some e =>
      if is_precondition e then
        found <-! readRecord spec subject;
        match found with
        | None => Ret (Err (OrderedRecordNotFoundError (ID next)))
        | Some (current, _) =>
            if Deleted current then
              match op with
              | OrderedDeleteOperation => Ret (Ok current)
              | _ => Ret (Err (OrderedDeletedError (ID next)))
              end
            else Ret (Err (OrderedRevisionConflictError (ID next) expectedRevision (Revision current)))
        end
      else if is_ordered_ambiguous e then
        found <-! readRecord spec subject;
        match found with
        | Some (current, _) =>
            if orderedRecordEqual current next then Ret (Ok current)
            else Ret (Err (OrderedAmbiguousError op (ID next) e))
        | None => Ret (Err (OrderedAmbiguousError op (ID next) e))
        end
      else Ret (Err e)
  end.

Definition updated (current : OrderedRecord) (value : option string) (rank : Rank) (due : Due)
    : OrderedRecord :=
  {| ID := ID current; RankingScope := RankingScope current; Revision := add64 (Revision current) 1;
     Order := Order current; DueOf := due; RankOf := rank; Value := value; Deleted := Deleted current |}.

Definition Update (id : OrderedID) (expectedRevision : N) (value : option string) (rank : Rank)
    (due : Due) : M (res OrderedRecord) :=
  '(spec, _, recordSubj) <-! Ret (orderedLocation id);
  found <-! readRecord spec recordSubj;
  match found with
  | None => Ret (Err (OrderedRecordNotFoundError id))
  | Some (current, seq) =>
      if Deleted current then Ret (Err (OrderedDeletedError id))
      else
        guard! ValidateOrderedValue value;
        guard! ValidateDue due;
        if negb (Revision current =? expectedRevision)%N then
          Ret (Err (OrderedRevisionConflictError id expectedRevision (Revision current)))
        else if (Revision current =? MaxUint64)%N then
          Ret (Err (OrderedRevisionExhaustedError id (Revision current)))
        else commitRevision spec recordSubj seq (updated current value rank due) expectedRevision
               OrderedUpdateOperation
  end.

Definition tombstone (current : OrderedRecord) : OrderedRecord :=
  {| ID := ID current; RankingScope := RankingScope current; Revision := add64 (Revision current) 1;
     Order := Order current; DueOf := {| DueStateOf := NotDue; UnixMillis := 0 |};
     RankOf := zeroRank; Value := Value current; Deleted := true |}.

Definition Delete (id : OrderedID) (expectedRevision : N) : M (res OrderedRecord) :=
  '(spec, _, recordSubj) <-! Ret (orderedLocation id);
  found <-! readRecord spec recordSubj;
  match found with
  | None => Ret (Err (OrderedRecordNotFoundError id))
  | Some (current, seq) =>
      if Deleted current then Ret (Ok current)
      else if negb (Revision current =? expectedRevision)%N then
        Ret (Err (OrderedRevisionConflictError id expectedRevision (Revision current)))
      else if (Revision current =? MaxUint64)%N then
        Ret (Err (OrderedRevisionExhaustedError id (Revision current)))
      else commitRevision spec recordSubj seq (tombstone current) expectedRevision OrderedDeleteOperation
  end.
End store.

Lemma create_loop_S {S : Storage} base n id rks value rank due spec counter record :
  create_loop base (Datatypes.S n) id rks value rank due spec counter record =
  (err <- (if (1 <? Z.of_nat orderedCreateAttempts - Z.of_nat n)%Z
           then waitBeforeRetry base (Z.of_nat orderedCreateAttempts - Z.of_nat n - 1) else Ret None);
   guard! err;
   done <-! create_attempt id rks value rank due spec counter record;
   match done with
   | Some result => Ret (Ok result)
   | None => create_loop base n id rks value rank due spec counter record
   end).
Proof. reflexivity. Qed.

(** ** The service: an append-only log per stream

    A message's stream sequence is its position, from 1; the current message on a subject
    is the last one ([MaxMsgsPerSubject = 1] only forgets the earlier ones). *)

Notation log := (list (string * string)).
Notation backend := (gmap string log).
Definition log_of (b : backend) (s : string) : log := default [] (b !! s).

Definition head_step (subj : string) (acc : N * (N * string)) (m : string * string) : N * (N * string) :=
  let seq := (acc.1 + 1)%N in (seq, if decide (m.1 = subj) then (seq, m.2) else acc.2).
(** The current message on [subj]: its sequence and payload, or [(0, nil)]. *)
Definition head (l : log) (subj : string) : N * string :=
  (foldl (head_step subj) (0%N, (0%N, EmptyString)) l).2.

Definition fences_hold (l : log) (msgs : list orderedMsg) : Prop :=
  Forall (fun m => (head l (subject m)).1 = expectLastSeq m) msgs.
#[export] Instance fences_hold_dec l msgs : Decision (fences_hold l msgs).
Proof. apply Forall_dec. intros m. apply N.eq_dec. Defined.

Definition stored (msgs : list orderedMsg) : log := map (fun m => (subject m, data m)) msgs.
Definition append (b : backend) (s : string) (msgs : list orderedMsg) : backend :=
  <[s := log_of b s ++ stored msgs]> b.

Section contract.
(** The errors the seam may return, and those under which a write may still have
    committed (a lost acknowledgement, a cancelled request). *)
Context (fault : error -> Prop) (may_commit : error -> Prop).

(** Lines 131-135 and 141-146 of ordered.go: a fenced write commits in full or not at
    all; a failed fence is reported as such. *)
Definition publish_contract (b : backend) (s : string) (msgs : list orderedMsg) (r : option error)
    (b' : backend) : Prop :=
  match r with
  | None => fences_hold (log_of b s) msgs /\ b' = append b s msgs
  | Some e =>
      fault e /\
      if is_precondition e then ~ fences_hold (log_of b s) msgs /\ b' = b
      else b' = b \/ (may_commit e /\ fences_hold (log_of b s) msgs /\ b' = append b s msgs)
  end.

Definition fault_of (r : option error) : Prop := match r with None => True | Some e => fault e end.

Definition handle (e : event) (b : backend) : reply e -> backend -> Prop :=
  match e return reply e -> backend -> Prop with
  | ensureStream spec => fun r b' =>
      fault_of r /\ (b' = b \/ b' = <[stream spec := log_of b (stream spec)]> b)
  | lastMsgForSubject spec subj => fun r b' =>
      b' = b /\ match r with Ok m => m = head (log_of b (stream spec)) subj | Err e => fault e end
  | publish s m => publish_contract b s [m]
  | publishBatch s msgs => publish_contract b s msgs
  | acquireScope _ => fun r b' => b' = b /\ fault_of r
  | releaseScope _ => fun _ b' => b' = b
  | randomUint64 => fun r b' => b' = b /\ u64 r
  | sleep _ => fun r b' => b' = b /\ fault_of r
  end.
End contract.

(** ** An executable service with scripted outcomes for its publishes *)

Inductive outcome :=
  | Normal                      (* commit if the fences hold, reject otherwise *)
  | LostAck (committed : bool)  (* report an unknown outcome *)
  | Refused (e : error)         (* fail, committing nothing *)
  | Raced (msgs : list orderedMsg).  (* another writer commits [msgs] first *)

Record fake := { msgs : backend; script : list outcome }.

Definition lost_ack : error := Join [errOrderedAmbiguous; Nats ErrTimeout].

Definition fake_commit (b : backend) (s : string) (ms : list orderedMsg) : option error * backend :=
  if decide (fences_hold (log_of b s) ms) then (None, append b s ms)
  else (Some errOrderedPrecondition, b).

Definition fake_publish (f : fake) (s : string) (ms : list orderedMsg) : option error * fake :=
  let b := msgs f in
  let rest := tail (script f) in
  match script f with
  | [] | Normal :: _ =>
      let (r, b') := fake_commit b s ms in (r, {| msgs := b'; script := rest |})
  | LostAck c :: _ =>
      (Some lost_ack, {| msgs := if c then snd (fake_commit b s ms) else b; script := rest |})
  | Refused e :: _ => (Some e, {| msgs := b; script := rest |})
  | Raced other :: _ =>
      let (r, b') := fake_commit (append b s other) s ms in (r, {| msgs := b'; script := rest |})
  end.

Definition fake_handle (e : event) (f : fake) : reply e * fake :=
  match e return reply e * fake with
  | ensureStream spec => (None, {| msgs := <[stream spec := log_of (msgs f) (stream spec)]> (msgs f);
                                   script := script f |})
  | lastMsgForSubject spec subj => (Ok (head (log_of (msgs f) (stream spec)) subj), f)
  | publish s m => fake_publish f s [m]
  | publishBatch s ms => fake_publish f s ms
  | acquireScope _ => (None, f)
  | releaseScope _ => (tt, f)
  | randomUint64 => (0%N, f)
  | sleep _ => (None, f)
  end.

End Store.
