(* ===== verification/OrderedSeam.v ===== *)
(** * [ordered_seam.go]: the ordered seam over the NATS client.

    The configuration the seam provisions and the one it accepts, the cache of verified
    streams, the fenced publish and the atomic batch with its hand-decoded
    acknowledgement, the tip and the watch.  Each operation is a program over the
    client's calls. *)

From S2P Require Import Prelude GoText Json Storage Nats OrderedCodec Prog OrderedStore.
From Stdlib Require Import Ascii.
Open Scope stdpp_scope.
Import Json Store.

Module Seam.

(** ** Configuration *)

(** The fields of [jetstream.StreamConfig] the package sets or reads; the pointer and
    slice fields it only compares with nil or counts are a [bool] and a length. *)
Record StreamConfig := {
  Name : string; Description : string; Subjects : list string;
  Retention : N; MaxConsumers : Z; Discard : N; StorageTypeOf : N;
  MaxMsgs : Z; MaxBytes : Z; MaxAge : Z; MaxMsgsPerSubject : Z; MaxMsgSize : Z; Replicas : Z;
  AllowAtomicPublish : bool; NoAck : bool; Mirror : bool; Sources : nat; Sealed : bool;
  AllowRollup : bool; FirstSeq : N; SubjectTransform : bool; RePublish : bool;
  AllowMsgTTL : bool; AllowMsgCounter : bool; AllowMsgSchedules : bool;
  SubjectDeleteMarkerTTL : Z; PersistMode : N; InactiveThreshold : Z }.

(** ordered_codec.go, line 25. *)
Definition orderedStreamDescription : string := "looprig ordered index layout v1".
Definition orderedMaxMsgSize : Z := Z.shiftl 4 20.
Definition orderedViewInactiveThreshold : Z := 30 * 1000 * 1000 * 1000.

Definition orderedHdrBatchID : string := "Nats-Batch-Id".
Definition orderedHdrBatchSeq : string := "Nats-Batch-Sequence".
Definition orderedHdrBatchCommit : string := "Nats-Batch-Commit".
Definition orderedBatchNonceBytes : nat := 16.
Definition orderedMaxBatchIDLen : nat := 64.
Definition orderedBatchIDPrefix : string := "ns-".

(** [entropy] is what [orderedRandomBytes] filled the nonce with. *)
Definition newOrderedBatchNonce (entropy : string) : string := hex_EncodeToString entropy.

(** [n] is the counter after [s.batchID.Add(1)]. *)
Definition nextBatchID (batchNonce : string) (n : N) : string :=
  orderedBatchIDPrefix +:+ batchNonce +:+ "-" +:+ FormatUint n.

Section seam.
Context {J : JetStream}.

Definition orderedStreamConfig (spec : orderedStreamSpec) : StreamConfig :=
  {| Name := stream spec; Description := orderedStreamDescription; Subjects := [subjectFilter spec];
     Retention := LimitsPolicy; MaxConsumers := -1; Discard := DiscardOld; StorageTypeOf := FileStorage;
     MaxMsgs := -1; MaxBytes := -1; MaxAge := 0; MaxMsgsPerSubject := 1; MaxMsgSize := orderedMaxMsgSize;
     Replicas := 1; AllowAtomicPublish := true;
     NoAck := false; Mirror := false; Sources := 0; Sealed := false; AllowRollup := false; FirstSeq := 0;
     SubjectTransform := false; RePublish := false; AllowMsgTTL := false; AllowMsgCounter := false;
     AllowMsgSchedules := false; SubjectDeleteMarkerTTL := 0; PersistMode := 0; InactiveThreshold := 0 |}.

(** The first limit that is not the wanted one. *)
Fixpoint check_limits (l : list (string * Z * Z)) : option config_reason :=
  match l with
  | [] => None
  | (name, got, want) :: l' => if negb (got =? want)%Z then Some (LimitIs name got want) else check_limits l'
  end.

Definition verifyOrderedStreamConfig (spec : orderedStreamSpec) (cfg : StreamConfig) : option error :=
  let want := orderedStreamConfig spec in
  let refuse reason := Some (OrderedStreamConfigError (stream spec) reason) in
  if negb (String.eqb (Description cfg) orderedStreamDescription) then refuse (LayoutIs (Description cfg))
  else if negb (AllowAtomicPublish cfg) then refuse AtomicPublishDisabled
  else if negb (MaxMsgsPerSubject cfg =? 1)%Z then refuse (MaxMsgsPerSubjectIs (MaxMsgsPerSubject cfg))
  else if negb (bool_decide (length (Subjects cfg) = 1)) ||
          negb (String.eqb (nth 0 (Subjects cfg) EmptyString) (subjectFilter spec))
       then refuse (SubjectsNotExactly (subjectFilter spec))
  else if negb (Retention cfg =? Retention want)%N then refuse (RetentionIs (Retention cfg))
  else if negb (MaxConsumers cfg =? MaxConsumers want)%Z then refuse (MaxConsumersIs (MaxConsumers cfg))
  else if negb (StorageTypeOf cfg =? StorageTypeOf want)%N then refuse (StorageIs (StorageTypeOf cfg))
  else if NoAck cfg then refuse NoAckSet
  else if Mirror cfg then refuse MirrorSet
  else if negb (bool_decide (Sources cfg = 0)) then refuse SourcesSet
  else if Sealed cfg then refuse SealedSet
  else if AllowRollup cfg then refuse RollupSet
  else if negb (FirstSeq cfg =? FirstSeq want)%N then refuse (FirstSeqIs (FirstSeq cfg))
  else if SubjectTransform cfg then refuse SubjectTransformSet
  else if RePublish cfg then refuse RePublishSet
  else if AllowMsgTTL cfg then refuse MsgTTLSet
  else if AllowMsgCounter cfg then refuse MsgCounterSet
  else if AllowMsgSchedules cfg then refuse MsgSchedulesSet
  else if negb (SubjectDeleteMarkerTTL cfg =? 0)%Z then refuse (DeleteMarkerTTLIs (SubjectDeleteMarkerTTL cfg))
  else if negb (PersistMode cfg =? PersistMode want)%N then refuse (PersistModeIs (PersistMode cfg))
  else if (0 <? InactiveThreshold cfg)%Z && (InactiveThreshold cfg <? orderedViewInactiveThreshold)%Z
       then refuse (InactiveThresholdIs (InactiveThreshold cfg))
  else if negb (MaxMsgSize cfg =? -1)%Z && (MaxMsgSize cfg <? MaxMsgSize want)%Z
       then refuse (MaxMsgSizeIs (MaxMsgSize cfg))
  else match check_limits [("max age", MaxAge cfg, MaxAge want); ("max bytes", MaxBytes cfg, MaxBytes want);
                           ("max messages", MaxMsgs cfg, MaxMsgs want)] with
       | Some reason => refuse reason
       | None => if negb (Discard cfg =? Discard want)%N then refuse (DiscardIs (Discard cfg)) else None
       end.

(** ** The calls of the client, and of the seam's own shared state *)

(** A handle is bound to the name of its stream, and carries the [StreamInfo] the server
    answered with when it was resolved: the layout and the last sequence of that moment. *)
Record handle := { h_name : string; h_info : option (StreamConfig * N) }.

Record nats_msg := { msg_subject : string; msg_data : string; msg_header : gmap string string }.

Inductive jcall :=
  | cachedVerifiedStream (name : string)
  | cacheVerifiedStream (name : string) (h : handle)
  | batchID_Add
  | js_Stream (name : string)
  | js_CreateStream (cfg : StreamConfig)
  | stream_Info (h : handle)
  | stream_CachedInfo (h : handle)
  | stream_GetLastMsgForSubject (h : handle) (subject : string)
  | js_PublishMsg (subject data : string) (expectLastSeq : N)
  | nc_PublishMsg (m : nats_msg)
  | nc_RequestMsg (m : nats_msg)
  | stream_OrderedConsumer (h : handle) (filter : string)
  | consumer_Consume
  | watch_select
  | consumeCtx_Stop
  | consumer_CachedInfo
  | stream_DeleteConsumer (h : handle) (name : string).

(** How a watch ends: its context, the consumer closing, or a reported failure. *)
Inductive watch_end := WatchDone | WatchClosed | WatchFailed (err : error).

Definition jreply (c : jcall) : Type :=
  match c with
  | cachedVerifiedStream _ => option handle
  | cacheVerifiedStream _ _ => unit
  | batchID_Add => N
  | js_Stream _ | js_CreateStream _ => res handle
  | stream_Info _ => res StreamConfig
  | stream_CachedInfo _ => option (StreamConfig * N)
  | stream_GetLastMsgForSubject _ _ => res (N * string)
  | js_PublishMsg _ _ _ | nc_PublishMsg _ => option error
  | nc_RequestMsg _ => res string
  | stream_OrderedConsumer _ _ | consumer_Consume => option error
  | watch_select => watch_end
  | consumeCtx_Stop => unit
  | consumer_CachedInfo => option string
  | stream_DeleteConsumer _ _ => option error
  end.

Notation JM := (prog jreply).

(** One call of the client. *)
Definition client (c : jcall) : JM (jreply c) := call c.

(** [if err != nil { return err }] where the function returns an error. *)
Notation "'check!' m ; k" := (match m with Some e => Ret (Some e) | None => k end)
  (at level 100, m at next level, right associativity) : go_scope.

(** ** The stream and its cache *)

Definition verifyAndCacheStream (spec : orderedStreamSpec) (h : handle) : JM (option error) :=
  info <- client (stream_Info h);
  match info with
  | Err err => Ret (Some (OrderedStreamOpError (stream spec) "info" err))
  | Ok cfg =>
      check! verifyOrderedStreamConfig spec cfg;
      _ <- client (cacheVerifiedStream (stream spec) h);
      Ret None
  end.

Definition is_err (n : nats_error) {A} (r : res A) : bool :=
  match r with Err e => is_nats n e | Ok _ => false end.

Definition ensureStream_ (spec : orderedStreamSpec) : JM (option error) :=
  cached <- client (cachedVerifiedStream (stream spec));
  match cached with
  | Some _ => Ret None
  | None =>
      r <- client (js_Stream (stream spec));
      r <- (if is_err js_ErrStreamNotFound (r : res handle) then
              c <- client (js_CreateStream (orderedStreamConfig spec));
              if is_err js_ErrStreamNameAlreadyInUse c then client (js_Stream (stream spec)) else Ret c
            else Ret r);
      match r with
      | Err err => Ret (Some (OrderedStreamOpError (stream spec) "ensure" err))
      | Ok h => verifyAndCacheStream spec h
      end
  end.

Definition lastMsgForSubject_ (spec : orderedStreamSpec) (subject : string) : JM (res (N * string)) :=
  cached <- client (cachedVerifiedStream (stream spec));
  found <-! (match cached with
             | Some h => Ret (Ok (Some h))
             | None =>
                 r <- client (js_Stream (stream spec));
                 if is_err js_ErrStreamNotFound r then Ret (Ok None)
                 else match r with
                      | Err err => Ret (Err (OrderedStreamOpError (stream spec) "lookup" err))
                      | Ok h => v <- verifyAndCacheStream spec h; guard! v; Ret (Ok (Some h))
                      end
             end);
  match found with
  | None => Ret (Ok (0%N, EmptyString))
  | Some h =>
      m <- client (stream_GetLastMsgForSubject h subject);
      if is_err js_ErrMsgNotFound m then Ret (Ok (0%N, EmptyString))
      else match m with
           | Err err => Ret (Err (OrderedStreamOpError (stream spec) "get last message" err))
           | Ok seq_data => Ret (Ok seq_data)
           end
  end.

(** ** Writing *)

Definition publish_ (streamName : string) (msg : orderedMsg) : JM (option error) :=
  err <- client (js_PublishMsg (subject msg) (data msg) (expectLastSeq msg));
  match err with
  | None => Ret None
  | Some e =>
      if isOrderedWrongLastSeq e then Ret (Some errOrderedPrecondition)
      else if isOrderedAmbiguous e then Ret (errors_Join [Some errOrderedAmbiguous; Some e])
      else Ret (Some (OrderedStreamOpError streamName "publish" e))
  end.

Record orderedAPIError := { Code : Z; ErrCode : N; ErrDescription : string }.
Record orderedBatchAck := { Stream : string; Sequence : N; BatchID : string; BatchSize : N;
                            AckError : option orderedAPIError }.

Definition zero_api_error : orderedAPIError := {| Code := 0; ErrCode := 0; ErrDescription := EmptyString |}.
Definition zero_ack : orderedBatchAck :=
  {| Stream := EmptyString; Sequence := 0; BatchID := EmptyString; BatchSize := 0; AckError := None |}.

Definition api_error_field (p : orderedAPIError) (f : string) (v : json) : option orderedAPIError :=
  if decide (f = "code") then
    c ← as_int64 (Code p) v; Some {| Code := c; ErrCode := ErrCode p; ErrDescription := ErrDescription p |}
  else if decide (f = "err_code") then
    c ← as_uint 65536 (ErrCode p) v; Some {| Code := Code p; ErrCode := c; ErrDescription := ErrDescription p |}
  else
    d ← as_string (ErrDescription p) v; Some {| Code := Code p; ErrCode := ErrCode p; ErrDescription := d |}.

(** Unknown members are ignored, so only the known ones reach [decode_struct]. *)
Definition known_members (fields : list string) (v : json) : json :=
  match v with
  | JObj l => JObj (filter (fun m => resolve fields m.1 <> None) l)
  | _ => v
  end.

Definition api_error_fields : list string := ["code"; "err_code"; "description"].
Definition ack_fields : list string := ["stream"; "seq"; "batch"; "count"; "error"].

Definition ack_field (p : orderedBatchAck) (f : string) (v : json) : option orderedBatchAck :=
  if decide (f = "stream") then
    x ← as_string (Stream p) v;
    Some {| Stream := x; Sequence := Sequence p; BatchID := BatchID p; BatchSize := BatchSize p; AckError := AckError p |}
  else if decide (f = "seq") then
    x ← as_uint two64 (Sequence p) v;
    Some {| Stream := Stream p; Sequence := x; BatchID := BatchID p; BatchSize := BatchSize p; AckError := AckError p |}
  else if decide (f = "batch") then
    x ← as_string (BatchID p) v;
    Some {| Stream := Stream p; Sequence := Sequence p; BatchID := x; BatchSize := BatchSize p; AckError := AckError p |}
  else if decide (f = "count") then
    x ← as_uint two64 (BatchSize p) v;
    Some {| Stream := Stream p; Sequence := Sequence p; BatchID := BatchID p; BatchSize := x; AckError := AckError p |}
  else
    match v with
    | JNull => Some {| Stream := Stream p; Sequence := Sequence p; BatchID := BatchID p; BatchSize := BatchSize p; AckError := None |}
    | _ =>
        e ← decode_struct api_error_field api_error_fields (default zero_api_error (AckError p))
              (known_members api_error_fields v);
        Some {| Stream := Stream p; Sequence := Sequence p; BatchID := BatchID p; BatchSize := BatchSize p; AckError := Some e |}
    end.

(** [json.Unmarshal(reply.Data, &ack)]. *)
Definition decode_ack (s : string) : option orderedBatchAck :=
  '(v, rest) ← Decode s;
  if at_EOF rest then decode_struct ack_field ack_fields zero_ack (known_members ack_fields v) else None.

Definition classifyOrderedBatchAck (id : string) (sent : N) (ack : orderedBatchAck) : option error :=
  match AckError ack with
  | Some e =>
      if isOrderedWrongLastSeqCode (ErrCode e) then Some errOrderedPrecondition
      else Some (OrderedBatchRejectedError id (Code e) (ErrCode e) (ErrDescription e))
  | None =>
      if negb (BatchSize ack =? sent)%N
      then errors_Join [Some errOrderedAmbiguous; Some (OrderedBatchAckMismatchError id (BatchSize ack) sent)]
      else None
  end.

(** The first subject named twice, in order of discovery. *)
Fixpoint duplicate_subject (seen : list string) (msgs : list orderedMsg) : option string :=
  match msgs with
  | [] => None
  | m :: rest => if decide (subject m ∈ seen) then Some (subject m) else duplicate_subject (subject m :: seen) rest
  end.

(** The member [i] of the batch [id]; the last also carries the commit header. *)
Definition member (id : string) (i : nat) (commit : bool) (m : orderedMsg) : nats_msg :=
  let h := <[ExpectedLastSubjSeqHeader := FormatUint (expectLastSeq m)]>
             (<[orderedHdrBatchSeq := FormatUint (N.of_nat (i + 1))]> (<[orderedHdrBatchID := id]> ∅)) in
  {| msg_subject := subject m; msg_data := data m;
     msg_header := if commit then <[orderedHdrBatchCommit := "1"]> h else h |}.

Fixpoint batch_loop (streamName id : string) (total i : nat) (msgs : list orderedMsg) : JM (option error) :=
  match msgs with
  | [] => Ret None
  | m :: rest =>
      if i <? total - 1 then
        err <- client (nc_PublishMsg (member id i false m));
        match err with
        | Some e => Ret (Some (OrderedStreamOpError streamName "batch member publish" e))
        | None => batch_loop streamName id total (i + 1) rest
        end
      else
        reply <- client (nc_RequestMsg (member id i true m));
        match reply with
        | Err e =>
            if isOrderedAmbiguous e then Ret (errors_Join [Some errOrderedAmbiguous; Some e])
            else Ret (Some (OrderedStreamOpError streamName "batch commit" e))
        | Ok bytes =>
            match decode_ack bytes with
            | None => Ret (Some (OrderedStreamOpError streamName "batch commit ack decode" (Leaf "json")))
            | Some ack => Ret (classifyOrderedBatchAck id (N.of_nat total) ack)
            end
        end
  end.

Definition publishBatch_ (batchNonce streamName : string) (msgs : list orderedMsg) : JM (option error) :=
  if decide (length msgs = 0) then Ret (Some (OrderedBatchRejectedError EmptyString 0 0 "batch has no messages"))
  else
    match duplicate_subject [] msgs with
    | Some s => Ret (Some (OrderedBatchSubjectsError s))
    | None =>
        n <- client batchID_Add;
        batch_loop streamName (nextBatchID batchNonce n) (length msgs) 0 msgs
    end.

(** ** Reading the tip, and watching *)

Definition freshStream (streamName : string) : JM (res (option handle)) :=
  r <- client (js_Stream streamName);
  if is_err js_ErrStreamNotFound r then Ret (Ok None)
  else match r with
       | Err err => Ret (Err (OrderedStreamOpError streamName "lookup" err))
       | Ok h => Ret (Ok (Some h))
       end.

Definition streamTip (streamName : string) : JM (res N) :=
  found <-! freshStream streamName;
  match found with
  | None => Ret (Ok 0%N)
  | Some h =>
      info <- client (stream_CachedInfo h);
      match info with
      | None => Ret (Err (OrderedStreamOpError streamName "info" (Nats js_ErrInvalidJetStreamResponse)))
      | Some (_, lastSeq) => Ret (Ok lastSeq)
      end
  end.

(** The consumer's handler: what it passes to [apply], or the failure it reports. *)
Definition watch_handler (spec : orderedStreamSpec) (metadata : res N) (subject data : string)
    : (string * N * string) + error :=
  match metadata with
  | Err e => inr (OrderedStreamOpError (stream spec) "watch metadata" e)
  | Ok seq => inl (subject, seq, data)
  end.

Definition releaseOrderedViewConsumer (h : handle) : JM unit :=
  info <- client consumer_CachedInfo;
  match info with
  | None => Ret tt
  | Some name => _ <- client (stream_DeleteConsumer h name); Ret tt
  end.

Definition watchStream (spec : orderedStreamSpec) : JM (option error) :=
  found <- freshStream (stream spec);
  match found with
  | Err err => Ret (Some err)
  | Ok None => Ret (Some (OrderedStreamOpError (stream spec) "watch" (Nats js_ErrStreamNotFound)))
  | Ok (Some h) =>
      info <- client (stream_CachedInfo h);
      match info with
      | None => Ret (Some (OrderedStreamOpError (stream spec) "info" (Nats js_ErrInvalidJetStreamResponse)))
      | Some (cfg, _) =>
          check! verifyOrderedStreamConfig spec cfg;
          err <- client (stream_OrderedConsumer h (subjectFilter spec));
          match err with
          | Some e => Ret (Some (OrderedStreamOpError (stream spec) "watch consumer" e))
          | None =>
              err <- client consumer_Consume;
              match err with
              | Some e =>
                  _ <- releaseOrderedViewConsumer h;
                  Ret (Some (OrderedStreamOpError (stream spec) "watch consume" e))
              | None =>
                  fin <- client watch_select;
                  (* the deferred calls, last one first *)
                  _ <- client consumeCtx_Stop;
                  _ <- releaseOrderedViewConsumer h;
                  Ret (match fin with
                       | WatchDone => None
                       | WatchClosed => Some (OrderedStreamOpError (stream spec) "watch" (Nats js_ErrConsumerNotFound))
                       | WatchFailed e => Some e
                       end)
              end
          end
      end
  end.

End seam.
End Seam.
