(* ===== verification/ErrorText.v ===== *)
(** * The text of errors: the [Error] methods, and [strconv.Quote].

    Errors are values of [Storage.error]; this file renders them, the reasons a stream's
    configuration is refused for included.  What the storage module, the client and the
    standard library print of their own errors and policies is a parameter, and so is which
    non-ASCII runes are printable.  The fields a caller or the server controls are quoted,
    so that an error stays on its line; [unquoted] lists the parts that are not. *)

From S2P Require Import Prelude GoText Encoding GoTime Storage Nats OrderedSeam.
From Stdlib Require Import Ascii.
Open Scope stdpp_scope.
Import Seam.

Module ErrorText.

(** ** [strconv.Quote] *)

Definition lower_hex (n : N) : ascii := (if n <? 10 then n_byte (48 + n) else n_byte (87 + n))%N.
(** [n] in [k] hexadecimal digits. *)
Fixpoint hex_digits (k : nat) (n : N) : string :=
  match k with
  | 0 => EmptyString
  | S k => hex_digits k (n / 16) +:+ str1 (lower_hex (n mod 16))
  end.

(** The code point of a well-formed sequence. *)
Definition rune_value (r : string) : N :=
  let tail c := (byte_n c mod 64)%N in
  match r with
  | String a (String b EmptyString) => (byte_n a mod 32 * 64 + tail b)%N
  | String a (String b (String c EmptyString)) => (byte_n a mod 16 * 4096 + tail b * 64 + tail c)%N
  | String a (String b (String c (String d EmptyString))) =>
      (byte_n a mod 8 * 262144 + tail b * 4096 + tail c * 64 + tail d)%N
  | _ => 65533%N
  end.

Definition backslash : ascii := "092".
Definition quote_mark : ascii := "034".

Definition quote_ascii (c : ascii) : string :=
  if decide (c = quote_mark \/ c = backslash) then String backslash (str1 c)
  else if byte_in 32 126 c then str1 c
  else
    String backslash
      (match byte_n c with
       | 7 => "a" | 8 => "b" | 12 => "f" | 10 => "n" | 13 => "r" | 9 => "t" | 11 => "v"
       | n => String "x" (hex_digits 2 n)
       end%N).

Section quote.
(** [strconv.IsPrint] of a rune past ASCII, by its encoding. *)
Context (IsPrint : string -> bool).

Definition quote_rune (r : string) : string :=
  if IsPrint r then r
  else if (rune_value r <? 65536)%N then String backslash (String "u" (hex_digits 4 (rune_value r)))
  else String backslash (String "U" (hex_digits 8 (rune_value r))).

Fixpoint quote_body (fuel : nat) (s : string) : string :=
  match fuel, s with
  | S fuel, String c rest =>
      if Utf8.is_ascii c then quote_ascii c +:+ quote_body fuel rest
      else
        match Utf8.next_rune s with
        | Some (r, rest) => quote_rune r +:+ quote_body fuel rest
        | None => String backslash (String "x" (hex_digits 2 (byte_n c))) +:+ quote_body fuel rest
        end
  | _, _ => EmptyString
  end.

Definition Quote (s : string) : string :=
  String quote_mark (quote_body (String.length s) s +:+ str1 quote_mark).

(** ** The [Error] methods *)

Definition BlobOpError_Error (key op cause : string) : string :=
  "natsstore: blob " +:+ Quote key +:+ " " +:+ op +:+ " failed: " +:+ cause.
Definition KVOpError_Error (key op cause : string) : string :=
  "natsstore: kv " +:+ Quote key +:+ " " +:+ op +:+ " failed: " +:+ cause.
Definition LeaseOpError_Error (name op cause : string) : string :=
  "natsstore: lease " +:+ Quote name +:+ " " +:+ op +:+ " failed: " +:+ cause.
Definition LeaseEncodeError_Error (cause : string) : string := "natsstore: encode lease record: " +:+ cause.
Definition RecordReadError_Error (name : string) (seq : N) (cause : string) : string :=
  "natsstore: ledger " +:+ Quote name +:+ " read of seq " +:+ FormatUint seq +:+ " failed: " +:+ cause.
Definition StreamOpError_Error (stream op cause : string) : string :=
  "natsstore: ledger stream " +:+ Quote stream +:+ " " +:+ op +:+ " failed: " +:+ cause.
Definition NameEncodingError_Error (value reason : string) : string :=
  "natsstore: malformed encoded name " +:+ Quote value +:+ ": " +:+ reason.
Definition OrderedContentionError_Error (id : OrderedID) (attempts : N) : string :=
  "natsstore: ordered create for namespace " +:+ Quote (Namespace id) +:+ " ordering scope " +:+ Quote (OrderingScope id) +:+
  " lost the order counter race " +:+ FormatUint attempts +:+ " times".
Definition OrderedOrderExhaustedError_Error (id : OrderedID) (order : N) : string :=
  "natsstore: ordered namespace " +:+ Quote (Namespace id) +:+ " ordering scope " +:+ Quote (OrderingScope id) +:+
  " exhausted its order space at " +:+ FormatUint order.
Definition OrderedStoreClosedError_Error (ns : string) : string :=
  "natsstore: ordered store is closed; namespace " +:+ Quote ns +:+ " has no view".
Definition OrderedViewStopTimeoutError_Error (ns cause : string) : string :=
  "natsstore: ordered view for namespace " +:+ Quote ns +:+ " did not stop in time: " +:+ cause.
Definition OrderedCodecError_Error (subject reason : string) (cause : option string) : string :=
  let msg := "natsstore: ordered payload on subject " +:+ Quote subject +:+ ": " +:+ reason in
  match cause with Some c => msg +:+ ": " +:+ c | None => msg end.
Definition OrderedIdentityMismatchError_Error (subject payloadSubject : string) : string :=
  "natsstore: ordered record stored on subject " +:+ Quote subject +:+
  " carries an identity that belongs on subject " +:+ Quote payloadSubject.
Definition OrderedCounterError_Error (value reason : string) : string :=
  "natsstore: ordered counter payload " +:+ Quote value +:+ ": " +:+ reason.
Definition OrderedStreamOpError_Error (stream op cause : string) : string :=
  "natsstore: ordered stream " +:+ Quote stream +:+ " " +:+ op +:+ " failed: " +:+ cause.
Definition OrderedStreamConfigError_Error (stream reason : string) : string :=
  "natsstore: ordered stream " +:+ Quote stream +:+ " is not usable: " +:+ reason.
Definition OrderedBatchRejectedError_Error (batchID : string) (code : Z) (errCode : N) (description : string) : string :=
  "natsstore: ordered batch " +:+ Quote batchID +:+ " rejected: code=" +:+ FormatInt code +:+
  " err_code=" +:+ FormatUint errCode +:+ " " +:+ Quote description.
Definition OrderedBatchAckMismatchError_Error (batchID : string) (committed sent : N) : string :=
  "natsstore: ordered batch " +:+ Quote batchID +:+ " was acknowledged with " +:+ FormatUint committed +:+
  " of " +:+ FormatUint sent +:+ " messages; the outcome is unknown".
Definition OrderedBatchSubjectsError_Error (subject : string) : string :=
  "natsstore: ordered batch names subject " +:+ Quote subject +:+ " more than once".
Definition OptionsError_Error (field reason : string) : string :=
  "natsstore: invalid option " +:+ Quote field +:+ ": " +:+ reason.
Definition ConnectError_Error (url cause : string) : string :=
  "natsstore: connect to " +:+ Quote url +:+ " failed: " +:+ cause.
Definition WiringError_Error (component cause : string) : string :=
  "natsstore: wiring " +:+ Quote component +:+ " failed: " +:+ cause.

(** A path is printed as it is. *)
Definition StoreDirError_Error (path : string) (cause : option string) : string :=
  let msg := "natsstore: invalid StoreDir" in
  let msg := if String.eqb path EmptyString then msg else msg +:+ " " +:+ path in
  match cause with Some c => msg +:+ ": " +:+ c | None => msg end.
Definition ServerStartError_Error (cause : option string) : string :=
  match cause with
  | Some c => "natsstore: embedded server start failed: " +:+ c
  | None => "natsstore: embedded server start failed"
  end.
Definition StoreLockedError_Error (path : string) : string :=
  if String.eqb path EmptyString then "natsstore: store directory already locked"
  else "natsstore: store directory already locked: " +:+ path.
Definition StoreLockError_Error (path : string) (cause : option string) : string :=
  let msg := "natsstore: store lock" in
  let msg := if String.eqb path EmptyString then msg else msg +:+ " " +:+ path in
  match cause with Some c => msg +:+ ": " +:+ c | None => msg end.

(** ** Why a stream's configuration is refused *)

(** The client's names of its policies. *)
Context {J : JetStream}.
Context (RetentionPolicy_String StorageType_String PersistMode_String DiscardPolicy_String : N -> string).

Definition reason_text (r : config_reason) : string :=
  let is_want what got want := what +:+ " is " +:+ got +:+ ", want " +:+ want in
  match r with
  | LayoutIs got => is_want "layout" (Quote got) (Quote orderedStreamDescription)
  | AtomicPublishDisabled => "atomic publish is disabled"
  | MaxMsgsPerSubjectIs got => is_want "max messages per subject" (FormatInt got) "1"
  | SubjectsNotExactly filter => "subjects are not exactly " +:+ Quote filter
  | RetentionIs got =>
      is_want "retention policy" (RetentionPolicy_String got) (RetentionPolicy_String LimitsPolicy) +:+
      " (consumers must not remove authoritative records)"
  | MaxConsumersIs got =>
      is_want "max consumers" (FormatInt got) (FormatInt (-1)) +:+ " (materialized views must remain available)"
  | StorageIs got =>
      is_want "storage" (StorageType_String got) (StorageType_String FileStorage) +:+ " (ordered records must survive restart)"
  | NoAckSet => "publish acknowledgements are disabled"
  | MirrorSet => "mirror is configured (foreign messages can become authority)"
  | SourcesSet => "sources are configured (foreign messages can become authority)"
  | SealedSet => "stream is sealed (ordered mutations require publishing)"
  | RollupSet => "rollup is enabled (authority can be deleted by a publish)"
  | FirstSeqIs got => is_want "first sequence" (FormatUint got) (FormatUint 0) +:+ " (empty view watermarks start at zero)"
  | SubjectTransformSet => "subject transform is configured (CAS subjects must not be redirected)"
  | RePublishSet => "republish is configured (ordered commits must have no foreign side effects)"
  | MsgTTLSet => "per-message TTL is enabled (authority must never expire)"
  | MsgCounterSet => "message counters are enabled (ordered payloads must retain ordinary message semantics)"
  | MsgSchedulesSet => "message schedules are enabled (delayed foreign messages can become authority)"
  | DeleteMarkerTTLIs got =>
      is_want "subject delete marker TTL" (GoTime.Duration_String got) "0s" +:+
      " (server normalization enables message TTL and rollup)"
  | PersistModeIs got =>
      is_want "persist mode" (PersistMode_String got) (PersistMode_String 0) +:+
      " (publish acknowledgements must follow persistence)"
  | InactiveThresholdIs got =>
      is_want "consumer inactive threshold limit" (GoTime.Duration_String got)
        ("0s or at least " +:+ GoTime.Duration_String orderedViewInactiveThreshold)
  | MaxMsgSizeIs got => is_want "max message size" (FormatInt got) ("at least " +:+ FormatInt orderedMaxMsgSize)
  | LimitIs name got want => is_want name (FormatInt got) (FormatInt want) +:+ " (records must never expire)"
  | DiscardIs got => is_want "discard policy" (DiscardPolicy_String got) (DiscardPolicy_String DiscardOld)
  end.

(** ** Every error *)

(** The errors of others. *)
Context (foreign : error -> string).

Fixpoint Error (e : error) : string :=
  match e with
  | Leaf msg | Panic msg => msg
  | Wrapped msg c => Error c +:+ ": " +:+ msg        (* fmt.Errorf("%w: ...") *)
  | Join l => join_on "010" (map Error l)            (* errors.Join: one per line *)
  | NameEncodingError v r => NameEncodingError_Error v r
  | RecordReadError n q c => RecordReadError_Error n q (Error c)
  | StreamOpError s op c => StreamOpError_Error s op (Error c)
  | KVOpError k op c => KVOpError_Error k op (Error c)
  | LeaseOpError n op c => LeaseOpError_Error n op (Error c)
  | LeaseEncodeError c => LeaseEncodeError_Error (Error c)
  | BlobOpError k op c => BlobOpError_Error k op (Error c)
  | OrderedCodecError s r c => OrderedCodecError_Error s r (option_map Error c)
  | OrderedIdentityMismatchError s p => OrderedIdentityMismatchError_Error s p
  | OrderedCounterError v r => OrderedCounterError_Error v r
  | OrderedContentionError id n => OrderedContentionError_Error id n
  | OrderedOrderExhaustedError id n => OrderedOrderExhaustedError_Error id n
  | OrderedStoreClosedError ns => OrderedStoreClosedError_Error ns
  | OrderedViewStopTimeoutError ns c => OrderedViewStopTimeoutError_Error ns (Error c)
  | OrderedStreamOpError s op c => OrderedStreamOpError_Error s op (Error c)
  | OrderedStreamConfigError s r => OrderedStreamConfigError_Error s (reason_text r)
  | OrderedBatchRejectedError b code ec d => OrderedBatchRejectedError_Error b code ec d
  | OrderedBatchAckMismatchError b c n => OrderedBatchAckMismatchError_Error b c n
  | OrderedBatchSubjectsError s => OrderedBatchSubjectsError_Error s
  | OptionsError f r => OptionsError_Error f r
  | ConnectError u c => ConnectError_Error u (Error c)
  | WiringError w c => WiringError_Error w (Error c)
  | StoreDirError p c => StoreDirError_Error p (option_map Error c)
  | ServerStartError c => ServerStartError_Error (option_map Error c)
  | StoreLockedError p => StoreLockedError_Error p
  | StoreLockError p c => StoreLockError_Error p (option_map Error c)
  | errKVKeyExists => "natsstore: kv key already exists"
  | errKVKeyNotFound => "natsstore: kv key not found"
  | errKVCASConflict => "natsstore: kv revision conflict"
  | errObjNotFound => "natsstore: object not found"
  | errNilObjectReader => "natsstore: object seam returned nil reader"
  | errObjectIntegrity => "natsstore: object integrity failure"
  | errOrderedPrecondition => "natsstore: ordered publish precondition failed"
  | errOrderedAmbiguous => "natsstore: ordered publish outcome is unknown"
  | errTrailingLeaseData => "natsstore: trailing data after lease record"
  | errServerNotReady => "natsstore: embedded server not ready within timeout"
  | errStoreLockUnsupported => "natsstore: store-directory file locking is unsupported on this platform"
  | e => foreign e
  end.

(** ** One line *)

Definition control (c : ascii) : bool := byte_in 0 31 c || byte_in 127 127 c.
Definition one_line (s : string) : bool := str_forallb (fun c => negb (control c)) s.

Lemma one_line_app s t : one_line (s +:+ t) = one_line s && one_line t.
Proof. apply str_forallb_app. Qed.

Lemma one_line_str1 c : control c = false -> one_line (str1 c) = true.
Proof. unfold one_line. cbn. by intros ->. Qed.

Lemma lower_hex_line n : control (lower_hex (n mod 16)) = false.
Proof.
  pose proof (N.mod_lt n 16 ltac:(done)) as H.
  assert ((n mod 16)%N ∈ [0; 1; 2; 3; 4; 5; 6; 7; 8; 9; 10; 11; 12; 13; 14; 15]%N) as Hin.
  { rewrite !elem_of_cons. lia. }
  rewrite !elem_of_cons in Hin. destruct_or?; try (by rewrite Hin; vm_compute). by apply not_elem_of_nil in Hin.
Qed.

Lemma hex_digits_line k n : one_line (hex_digits k n) = true.
Proof.
  revert n. induction k as [|k IH]; intros n; [done|]. cbn [hex_digits].
  by rewrite one_line_app, IH, one_line_str1 by apply lower_hex_line.
Qed.

Lemma quote_ascii_line c : one_line (quote_ascii c) = true.
Proof. destruct c as [[] [] [] [] [] [] [] []]; vm_compute; reflexivity. Qed.

(** A well-formed sequence past ASCII has no ASCII byte. *)
Lemma next_rune_line s r rest : Utf8.next_rune s = Some (r, rest) -> one_line r = true.
Proof.
  assert (C : forall c, (128 <= byte_n c)%N -> negb (control c) = true).
  { intros c Hc. unfold control, byte_in. destruct (N.leb_spec 0 (byte_n c)), (N.leb_spec (byte_n c) 31), (N.leb_spec 127 (byte_n c)),
      (N.leb_spec (byte_n c) 127); cbn; done || lia. }
  assert (B : forall lo hi c, (128 <= lo)%N -> byte_in lo hi c = true -> negb (control c) = true).
  { intros lo hi c Hlo H. apply C. apply andb_true_iff in H as [H _]. apply N.leb_le in H. lia. }
  unfold Utf8.next_rune, Utf8.cont. intros H. repeat (case_match; try done); simplify_eq; unfold one_line; cbn [str_forallb str1];
    rewrite ?andb_true_iff in *; destruct_and?; split_and?; try done;
    (eapply B; [|eassumption]; repeat case_match; lia).
Qed.

Lemma Quote_line s : one_line (Quote s) = true.
Proof.
  unfold Quote. change (one_line (quote_body (String.length s) s +:+ str1 quote_mark) = true). rewrite one_line_app, andb_true_r.
  generalize (String.length s) as fuel. intros fuel. revert s. induction fuel as [|fuel IH]; intros s; [done|].
  destruct s as [|c rest]; [done|]. cbn [quote_body]. destruct (Utf8.is_ascii c).
  - by rewrite one_line_app, quote_ascii_line, IH.
  - destruct (Utf8.next_rune (String c rest)) as [[r rest']|] eqn:E; rewrite one_line_app, IH, andb_true_r.
    + unfold quote_rune. destruct (IsPrint r); [by eapply next_rune_line|].
      destruct (rune_value r <? 65536)%N; [exact (hex_digits_line 4 _)|exact (hex_digits_line 8 _)].
    + exact (hex_digits_line 2 _).
Qed.

Lemma digits_line s : all_digits s = true -> one_line s = true.
Proof.
  apply str_forallb_impl. intros c Hc. apply andb_true_iff in Hc as [H1 H2]. apply N.leb_le in H1, H2.
  unfold control, byte_in. destruct (N.leb_spec 0 (byte_n c)), (N.leb_spec (byte_n c) 31), (N.leb_spec 127 (byte_n c)),
    (N.leb_spec (byte_n c) 127); cbn; done || lia.
Qed.

(** The parts of a text that are printed as they are: what the code names an operation, a
    field or a fault by, a path, what others print, and the newlines of [errors.Join]. *)
Definition reason_unquoted (r : config_reason) : list string :=
  match r with
  | RetentionIs got => [RetentionPolicy_String got; RetentionPolicy_String LimitsPolicy]
  | StorageIs got => [StorageType_String got; StorageType_String FileStorage]
  | PersistModeIs got => [PersistMode_String got; PersistMode_String 0]
  | DiscardIs got => [DiscardPolicy_String got; DiscardPolicy_String DiscardOld]
  | LimitIs name _ _ => [name]
  | _ => []
  end.

Fixpoint unquoted (e : error) : list string :=
  let opt c := match c with Some c => unquoted c | None => [] end in
  match e with
  | Leaf msg | Panic msg => [msg]
  | Wrapped msg c => unquoted c ++ [msg]
  | Join l => match l with _ :: _ :: _ => [str1 "010"] | _ => [] end ++ concat (map unquoted l)
  | NameEncodingError _ r | OrderedCounterError _ r | OptionsError _ r => [r]
  | StreamOpError _ op c | KVOpError _ op c | LeaseOpError _ op c | BlobOpError _ op c | OrderedStreamOpError _ op c =>
      op :: unquoted c
  | RecordReadError _ _ c | LeaseEncodeError c | OrderedViewStopTimeoutError _ c | ConnectError _ c | WiringError _ c => unquoted c
  | OrderedCodecError _ r c => r :: opt c
  | OrderedStreamConfigError _ r => reason_unquoted r
  | StoreDirError p c | StoreLockError p c => p :: opt c
  | ServerStartError c => opt c
  | StoreLockedError p => [p]
  | OrderedIdentityMismatchError _ _ | OrderedContentionError _ _ | OrderedOrderExhaustedError _ _
  | OrderedStoreClosedError _ | OrderedBatchRejectedError _ _ _ _ | OrderedBatchAckMismatchError _ _ _
  | OrderedBatchSubjectsError _ | errKVKeyExists | errKVKeyNotFound | errKVCASConflict | errObjNotFound
  | errNilObjectReader | errObjectIntegrity | errOrderedPrecondition | errOrderedAmbiguous | errTrailingLeaseData
  | errServerNotReady | errStoreLockUnsupported => []
  | e => [foreign e]
  end.

Lemma FormatUint_line n : one_line (FormatUint n) = true.
Proof. apply digits_line, FormatUint_digits. Qed.
Lemma FormatInt_line z : one_line (FormatInt z) = true.
Proof. unfold FormatInt. destruct (z <? 0)%Z; exact (FormatUint_line _). Qed.

(** Pulls a text apart; what the code writes itself is on one line. *)
Ltac lines :=
  rewrite ?one_line_app, ?Quote_line, ?FormatUint_line, ?FormatInt_line;
  repeat match goal with |- context [one_line ?s] => change (one_line s) with true end;
  rewrite ?andb_true_l, ?andb_true_r.

Ltac render :=
  match goal with
  | |- one_line ?t = _ => let rec hd t := match t with ?f _ => hd f | _ => t end in let f := hd t in unfold f
  end; lines.

Lemma cause_line msg (c : option string) :
  one_line (match c with Some c => msg +:+ ": " +:+ c | None => msg end) =
  one_line msg && match c with Some c => one_line c | None => true end.
Proof. destruct c; by lines. Qed.

Lemma path_line msg path sep :
  one_line (if String.eqb path EmptyString then msg else msg +:+ sep +:+ path) =
  one_line msg && (if String.eqb path EmptyString then true else one_line sep) && one_line path.
Proof. destruct (String.eqb_spec path EmptyString) as [->|]; lines; [done|]. by rewrite andb_assoc. Qed.

Lemma join_line l : one_line (join_on "010" l) = match l with [] => true | [s] => one_line s | _ => false end.
Proof.
  destruct l as [|s [|t l]]; [done..|]. rewrite join_cons, one_line_app by done.
  change (one_line (String "010" _)) with false. apply andb_false_r.
Qed.

Lemma Duration_line d : one_line (GoTime.Duration_String d) = true.
Proof.
  assert (F : forall k u, one_line (GoTime.fmtFrac k u) = true).
  { intros k u. unfold GoTime.fmtFrac. cbv zeta. destruct (_ =? 0)%Z; [done|]. change (one_line (str1 "." +:+ GoTime.fraction k (u mod 10 ^ Z.of_nat k)) = true).
    rewrite one_line_app. apply digits_line, GoTime.fraction_digits, Z.mod_pos_bound. by apply Z.pow_pos_nonneg; lia. }
  unfold GoTime.Duration_String. cbv zeta. rewrite one_line_app.
  assert (Hsign : one_line (if (d <? 0)%Z then "-" else EmptyString) = true) by by destruct (d <? 0)%Z. rewrite Hsign.
  repeat case_match; rewrite ?one_line_app, ?F, ?FormatInt_line; done.
Qed.

Lemma reason_line r : one_line (reason_text r) = forallb one_line (reason_unquoted r).
Proof.
  destruct r; cbv zeta beta iota delta [reason_text reason_unquoted]; lines; rewrite ?Duration_line; cbn [forallb];
    by rewrite ?andb_true_r.
Qed.

(** C27. An error's text is on one line exactly when each part of it that is not quoted is:
    the names that the code gives an operation, an option or a fault, a path, what other
    packages print of their errors and policies, and, where errors are joined, the newline
    between them.  All else, the names, keys, subjects, payloads, URLs and descriptions that
    come from callers or from the server, is quoted, and never breaks a line, nor carries
    any other control byte, whatever bytes it holds. *)
Theorem Error_one_line e : one_line (Error e) = forallb one_line (unquoted e).
Proof.
  revert e. fix IH 1. intros e. destruct e; cbn [Error unquoted forallb]; rewrite ?andb_true_r; try reflexivity.
  all: try (render; rewrite ?IH, ?forallb_app; cbn [forallb]; rewrite ?andb_true_r; reflexivity).
  - rewrite join_line, forallb_app. destruct l as [|x [|y l]]; [done| |done].
    cbn [map concat forallb]. rewrite app_nil_r. apply IH.
  - unfold OrderedCodecError_Error. rewrite cause_line. lines. destruct cause; cbn [option_map]; by rewrite ?IH.
  - unfold OrderedStreamConfigError_Error. lines. apply reason_line.
  - unfold StoreDirError_Error. rewrite cause_line, path_line. lines. destruct (String.eqb _ _), cause; cbn [option_map]; by rewrite ?IH.
  - unfold ServerStartError_Error. destruct cause; cbn [option_map]; [lines; apply IH|done].
  - unfold StoreLockedError_Error. destruct (String.eqb_spec path EmptyString) as [->|]; by lines; rewrite ?andb_true_r.
  - unfold StoreLockError_Error. rewrite cause_line, path_line. lines. destruct (String.eqb _ _), cause; cbn [option_map]; by rewrite ?IH.
Qed.
End quote.
End ErrorText.
