(* ===== verification/OrderedSeamProps.v ===== *)
(** * The seam implements the contract the store relies on.

    [jhandle] states what the package relies on about the NATS client and server (the
    comments of ordered_seam.go): fenced publishes, batches staged under an id and
    committed whole by their last member.  Under it, and in any interleaving with other
    clients, each operation of the seam behaves as one call of [Store.handle]. *)

From S2P Require Import Prelude GoText Json Storage Nats OrderedCodec Prog OrderedStore OrderedSeam.
From Stdlib Require Import Ascii.
Open Scope stdpp_scope.
Import Json Store Seam.

Module SeamProps.

(** ** Configuration *)

Definition with_drift (cfg : StreamConfig) (name : string) (size replicas inactive : Z) : StreamConfig :=
  {| Name := name; Description := Description cfg; Subjects := Subjects cfg;
     Retention := Retention cfg; MaxConsumers := MaxConsumers cfg; Discard := Discard cfg;
     StorageTypeOf := StorageTypeOf cfg; MaxMsgs := MaxMsgs cfg; MaxBytes := MaxBytes cfg;
     MaxAge := MaxAge cfg; MaxMsgsPerSubject := MaxMsgsPerSubject cfg; MaxMsgSize := size;
     Replicas := replicas; AllowAtomicPublish := AllowAtomicPublish cfg; NoAck := NoAck cfg;
     Mirror := Mirror cfg; Sources := Sources cfg; Sealed := Sealed cfg; AllowRollup := AllowRollup cfg;
     FirstSeq := FirstSeq cfg; SubjectTransform := SubjectTransform cfg; RePublish := RePublish cfg;
     AllowMsgTTL := AllowMsgTTL cfg; AllowMsgCounter := AllowMsgCounter cfg;
     AllowMsgSchedules := AllowMsgSchedules cfg; SubjectDeleteMarkerTTL := SubjectDeleteMarkerTTL cfg;
     PersistMode := PersistMode cfg; InactiveThreshold := inactive |}.

(** One refusal test: [refuse_if b k] refuses when [b]. *)
Lemma refuse_step (b : bool) (e : error) (k : option error) :
  (if b then Some e else k) = None <-> b = false /\ k = None.
Proof. destruct b; intuition congruence. Qed.

Section config.
Context {J : JetStream}.

(** [verifyOrderedStreamConfig] accepts exactly the configuration the seam provisions, up
    to the name, the replica count, a message cap that is unlimited or at least as large,
    and a consumer threshold that is unlimited or at least the views' own; in
    particular nothing accepted can expire, drop, redirect or inject a record. *)
Theorem verifyOrderedStreamConfig_iff spec cfg :
  verifyOrderedStreamConfig spec cfg = None <->
  exists name size replicas inactive,
    cfg = with_drift (orderedStreamConfig spec) name size replicas inactive /\
    (size = -1 \/ orderedMaxMsgSize <= size)%Z /\ (inactive <= 0 \/ orderedViewInactiveThreshold <= inactive)%Z.
Proof.
  unfold verifyOrderedStreamConfig. cbv zeta. split.
  - rewrite !refuse_step. intros H. repeat match goal with H : _ /\ _ |- _ => destruct H end.
    destruct cfg as [name desc subj ret maxc disc sto maxm maxb maxa per size rep atomic noack mirror src
      sealed roll first tr rp ttl ctr sched marker persist inactive].
    cbn [Description AllowAtomicPublish MaxMsgsPerSubject Subjects Retention MaxConsumers StorageTypeOf NoAck
      Mirror Sources Sealed AllowRollup FirstSeq SubjectTransform RePublish AllowMsgTTL AllowMsgCounter
      AllowMsgSchedules SubjectDeleteMarkerTTL PersistMode InactiveThreshold MaxMsgSize MaxAge MaxBytes MaxMsgs
      Discard Name Replicas orderedStreamConfig check_limits] in *.
    destruct (negb (maxa =? 0)%Z) eqn:E1; [done|]. destruct (negb (maxb =? -1)%Z) eqn:E2; [done|].
    destruct (negb (maxm =? -1)%Z) eqn:E3; [done|].
    match goal with H : (if ?b then _ else None) = None |- _ => destruct b eqn:?; [done|] end.
    repeat match goal with
      | H : _ || _ = false |- _ => apply orb_false_iff in H as [? ?]
      | H : negb _ = false |- _ => apply negb_false_iff in H
      | H : (_ =? _)%Z = true |- _ => apply Z.eqb_eq in H
      | H : (_ =? _)%N = true |- _ => apply N.eqb_eq in H
      | H : String.eqb _ _ = true |- _ => apply String.eqb_eq in H
      | H : bool_decide _ = true |- _ => apply bool_decide_eq_true in H
      end.
    destruct subj as [|s [|]]; [done| |done]. cbn [nth] in *. subst.
    exists name, size, rep, inactive. split; [done|]. split.
    + destruct (Z.eqb_spec size (-1)); [by left|]. right. cbn in *. lia.
    + destruct (Z.ltb_spec 0 inactive); [|by left]. right. cbn in *. lia.
  - intros (name & size & rep & inactive & -> & Hs & Hi). cbn.
    rewrite !String.eqb_refl, !N.eqb_refl. cbn.
    assert (H1 : (0 <? inactive)%Z && (inactive <? orderedViewInactiveThreshold)%Z = false).
    { apply andb_false_iff. rewrite !Z.ltb_ge. lia. }
    assert (H2 : negb (size =? -1)%Z && (size <? orderedMaxMsgSize)%Z = false).
    { apply andb_false_iff. rewrite negb_false_iff, Z.eqb_eq, Z.ltb_ge. done. }
    by rewrite H1, H2.
Qed.
End config.

(** ** Batch ids *)

Lemma format_loop_length fuel n acc :
  String.length (format_loop fuel n acc) <= fuel + String.length acc.
Proof.
  revert n acc. induction fuel as [|fuel IH]; intros n acc; cbn; [lia|].
  destruct (n / 10 =? 0)%N; cbn; [lia|]. specialize (IH (n / 10)%N (String (digit_byte (n mod 10)) acc)).
  cbn in IH. lia.
Qed.

(** Batch ids: an id fits the server's limit, and two ids are equal only when they were
    drawn from the same nonce at the same count. *)
Theorem nextBatchID_unique e1 n1 e2 n2 :
  String.length e1 = orderedBatchNonceBytes -> String.length e2 = orderedBatchNonceBytes -> u64 n1 -> u64 n2 ->
  String.length (nextBatchID (newOrderedBatchNonce e1) n1) <= orderedMaxBatchIDLen /\
  (nextBatchID (newOrderedBatchNonce e1) n1 = nextBatchID (newOrderedBatchNonce e2) n2 -> e1 = e2 /\ n1 = n2).
Proof.
  unfold nextBatchID, newOrderedBatchNonce, orderedBatchNonceBytes, orderedMaxBatchIDLen. intros H1 H2 U1 U2. split.
  - rewrite !str_length_app, hex_length, H1. unfold FormatUint.
    pose proof (format_loop_length 20 n1 EmptyString) as H. change (String.length EmptyString) with 0 in H.
    change (String.length orderedBatchIDPrefix) with 3. change (String.length "-") with 1. lia.
  - intros H%str_app_inv_head. apply str_app_length_inj in H as [He Hn]; [|by rewrite !hex_length, H1, H2].
    apply hex_inj in He. injection Hn as Hn. split; [done|]. by apply FormatUint_inj.
Qed.

Theorem nextBatchID_unique_witness :
  String.length (nextBatchID (newOrderedBatchNonce "0123456789abcdef") MaxUint64) <= orderedMaxBatchIDLen.
Proof.
  apply (nextBatchID_unique "0123456789abcdef" MaxUint64 "0123456789abcdef" MaxUint64);
    [reflexivity|reflexivity|reflexivity|reflexivity].
Defined.

(** ** What the package relies on about the client and the server *)

Record jserver := {
  logs : backend;
  staged : gmap string (list nats_msg);      (* by batch id *)
  issued : gmap string nat;                  (* the batch ids in use, by the thread that drew them *)
  cache : gmap string handle }.

(** The package's sentinels never come from the client. *)
Definition raw (e : error) : Prop := is_precondition e = false /\ is_ordered_ambiguous e = false.
Definition raw_reply {A} (r : res A) : Prop := match r with Ok _ => True | Err e => raw e end.

(** A cached handle is the one of its stream. *)
Definition cache_ok (c : gmap string handle) : Prop := forall n h, c !! n = Some h -> h_name h = n.

Section contract.
Context {J : JetStream}.
Context (batchNonce : string).
(** The stream whose subjects hold a subject; this thread; how other clients may change the
    logs. *)
Context (owner : string -> option string) (me : nat) (evol : backend -> backend -> Prop).
Context `{!Reflexive evol, !Transitive evol}.

(** [nm] is the [i]-th message of a batch and carries [m] for the stream [st]. *)
Definition carries (st : string) (i : nat) (nm : nats_msg) (m : orderedMsg) : Prop :=
  msg_subject nm = subject m /\ msg_data nm = data m /\ owner (subject m) = Some st /\ u64 (expectLastSeq m) /\
  msg_header nm !! orderedHdrBatchSeq = Some (FormatUint (N.of_nat (i + 1))) /\
  msg_header nm !! ExpectedLastSubjSeqHeader = Some (FormatUint (expectLastSeq m)).

(** A complete batch: its messages are numbered from 1 without a gap, and the last commits. *)
Definition complete (st : string) (all : list nats_msg) (ms : list orderedMsg) : Prop :=
  length all = length ms /\
  (forall i nm m, all !! i = Some nm -> ms !! i = Some m -> carries st i nm m) /\
  exists nm, last all = Some nm /\ msg_header nm !! orderedHdrBatchCommit = Some "1".

Definition fenced_commit (b : backend) (st : string) (ms : list orderedMsg) (b' : backend) : Prop :=
  fences_hold (log_of b st) ms /\ b' = append b st ms.
Definition batch_commit (b : backend) (all : list nats_msg) (b' : backend) : Prop :=
  exists st ms, complete st all ms /\ fenced_commit b st ms b'.

Definition staged_at (s : jserver) (id : string) : list nats_msg := default [] (staged s !! id).
Definition batch_id (m : nats_msg) : string := default EmptyString (msg_header m !! orderedHdrBatchID).

(** The seam's cache of verified streams, under its mutex. *)
Definition verifiedStreams_get (s : jserver) (name : string) : option handle := cache s !! name.
Definition verifiedStreams_put (s : jserver) (name : string) (h : handle) : jserver :=
  {| logs := logs s; staged := staged s; issued := issued s; cache := <[name := h]> (cache s) |}.

Definition same_store (s s' : jserver) : Prop :=
  logs s' = logs s /\ cache s' = cache s /\ issued s' = issued s.
(** Only what is staged under [id] changed. *)
Definition staged_only (id : string) (s s' : jserver) : Prop :=
  forall id', id' <> id -> staged_at s' id' = staged_at s id'.

(** What a handle resolved at a log may carry: [last_seq] is the number of messages ever
    stored, which is what the log lists. *)
Definition info_of (h : handle) (l : list (string * string)) : Prop :=
  match h_info h with Some (_, lastSeq) => lastSeq = N.of_nat (length l) | None => True end.

(** The answer to a lookup of the stream [n], whose log is [l]. *)
Definition stream_reply (n : string) (l : list (string * string)) (r : res handle) : Prop :=
  raw_reply r /\
  match r with
  | Ok h => h_name h = n /\ info_of h l
  | Err e => is_nats js_ErrStreamNotFound e = true -> l = []
  end.

Definition jhandle (c : jcall) (s : jserver) : jreply c -> jserver -> Prop :=
  match c return jreply c -> jserver -> Prop with
  | cachedVerifiedStream n => fun r s' => s' = s /\ r = verifiedStreams_get s n
  | cacheVerifiedStream n h => fun _ s' => s' = verifiedStreams_put s n h
  (* the nonce and the counter make the id fresh: [nextBatchID_unique] *)
  | batchID_Add => fun r s' => let id := nextBatchID batchNonce r in
      issued s !! id = None /\
      s' = {| logs := logs s; staged := staged s; issued := <[id := me]> (issued s); cache := cache s |}
  | js_Stream n => fun r s' => s' = s /\ stream_reply n (log_of (logs s) n) r
  | js_CreateStream cfg => fun r s' =>
      staged s' = staged s /\ issued s' = issued s /\ cache s' = cache s /\ raw_reply r /\
      (logs s' = logs s \/ logs s' = <[Name cfg := log_of (logs s) (Name cfg)]> (logs s)) /\
      match r with Ok h => h_name h = Name cfg | Err _ => True end
  | stream_Info _ => fun r s' => s' = s /\ raw_reply r
  (* no call to the server: what the handle was resolved with *)
  | stream_CachedInfo h => fun r s' => s' = s /\ r = h_info h
  | stream_GetLastMsgForSubject h subj => fun r s' => s' = s /\ raw_reply r /\
      match r with
      | Ok m => m = head (log_of (logs s) (h_name h)) subj /\ u64 m.1
      | Err e => is_nats js_ErrMsgNotFound e = true -> head (log_of (logs s) (h_name h)) subj = (0%N, EmptyString)
      end
  | js_PublishMsg subj dat expect => fun r s' =>
      let ms := [{| subject := subj; data := dat; expectLastSeq := expect |}] in
      staged s' = staged s /\ issued s' = issued s /\ cache s' = cache s /\
      exists st, owner subj = Some st /\
      match r with
      | None => fenced_commit (logs s) st ms (logs s')
      | Some e => raw e /\
          if isOrderedWrongLastSeq e then ~ fences_hold (log_of (logs s) st) ms /\ logs s' = logs s
          else logs s' = logs s \/ fenced_commit (logs s) st ms (logs s')
      end
  (* fire and forget: staged, or lost on the way *)
  | nc_PublishMsg m => fun r s' => same_store s s' /\ match r with None => True | Some e => raw e end /\
      (staged s' = staged s \/ staged s' = <[batch_id m := staged_at s (batch_id m) ++ [m]]> (staged s))
  | nc_RequestMsg m => fun r s' =>
      let all := staged_at s (batch_id m) ++ [m] in
      cache s' = cache s /\ issued s' = issued s /\ staged_only (batch_id m) s s' /\ raw_reply r /\
      match r with
      | Err _ => logs s' = logs s \/ batch_commit (logs s) all (logs s')
      | Ok bytes =>
          match decode_ack bytes with
          | None => logs s' = logs s \/ batch_commit (logs s) all (logs s')
          | Some ack =>
              match AckError ack with
              | None => batch_commit (logs s) all (logs s')
              | Some e => logs s' = logs s /\
                  (isOrderedWrongLastSeqCode (ErrCode e) = true ->
                   exists st ms, complete st all ms /\ ~ fences_hold (log_of (logs s) st) ms)
              end
          end
      end
  | _ => fun _ s' => s' = s
  end.

(** A cached handle is its stream's, and nothing is staged under an id nobody drew. *)
Definition server_ok (s : jserver) : Prop :=
  cache_ok (cache s) /\ forall id, issued s !! id = None -> staged_at s id = [].

(** Between two calls: other clients' writes, never under an id of this thread; and the
    server may drop what is staged. *)
Definition jrely (s s' : jserver) : Prop :=
  evol (logs s) (logs s') /\
  (forall id, issued s !! id = Some me -> issued s' !! id = Some me /\ staged_at s' id `sublist_of` staged_at s id) /\
  (server_ok s -> server_ok s').

#[export] Instance jrely_refl : Reflexive jrely.
Proof. intros s. split_and!; done. Qed.
#[export] Instance jrely_trans : Transitive jrely.
Proof.
  intros s1 s2 s3 (E1 & S1 & C1) (E2 & S2 & C2). split_and!; [by etrans| |auto].
  intros id [Hid H1]%S1. apply S2 in Hid as [? H2]. split; [done|by etrans].
Qed.

(** ** What the seam promises *)

Definition seam_fault (e : error) : Prop :=
  match e with
  | errOrderedPrecondition | Join _ | OrderedStreamOpError _ _ _ | OrderedStreamConfigError _ _
  | OrderedBatchRejectedError _ _ _ _ | OrderedBatchSubjectsError _ => True
  | _ => False
  end.
(** The outcomes that leave a write undecided: an ambiguous one, a cancelled request, an
    acknowledgement that does not decode. *)
Definition seam_may_commit (e : error) : Prop :=
  match e with
  | Join _ => True
  | OrderedStreamOpError _ op _ => op = "publish" \/ op = "batch commit" \/ op = "batch commit ack decode"
  | _ => False
  end.

Definition msg_fits (st : string) (m : orderedMsg) : Prop := owner (subject m) = Some st /\ u64 (expectLastSeq m).

(** The program of each call of the interface, and what its arguments satisfy. *)
Definition seam_prog (e : event) : option (prog jreply (reply e)) :=
  match e return option (prog jreply (reply e)) with
  | ensureStream spec => Some (ensureStream_ spec)
  | lastMsgForSubject spec subj => Some (lastMsgForSubject_ spec subj)
  | publish st m => Some (publish_ st m)
  | publishBatch st ms => Some (publishBatch_ batchNonce st ms)
  | _ => None
  end.
Definition seam_args (e : event) : Prop :=
  match e with
  | publish st m => msg_fits st m
  | publishBatch st ms => Forall (msg_fits st) ms /\ u64 (N.of_nat (length ms))  (* a Go slice *)
  | _ => True
  end.

(** The sequence in a reply is a [uint64]. *)
Definition typed_reply (e : event) : reply e -> Prop :=
  match e return reply e -> Prop with
  | lastMsgForSubject _ _ => fun r => match r with Ok m => u64 m.1 | Err _ => True end
  | _ => fun _ => True
  end.

(** [r] is a reply of the interface's call [e], made at one instant between [b0] and [b1]. *)
Definition at_one_instant (e : event) (b0 : backend) (r : reply e) (b1 : backend) : Prop :=
  typed_reply e r /\
  exists b b', evol b0 b /\ Store.handle seam_fault seam_may_commit e b r b' /\ evol b' b1.

(** What this thread does to the server while it runs the call [e]: to the logs, nothing or
    what some reply of [e] allows; to the batches, only under its own ids. *)
Definition jguar (e : event) (s s' : jserver) : Prop :=
  (logs s' = logs s \/ exists r, Store.handle seam_fault seam_may_commit e (logs s) r (logs s')) /\
  issued s ⊆ issued s' /\
  (forall id, issued s !! id <> Some me -> staged_at s' id = staged_at s id) /\
  (server_ok s -> server_ok s').

Notation jwp e := (wp jhandle jrely (jguar e)).

#[export] Instance jguar_refl e : Reflexive (jguar e).
Proof. intros s. split_and!; [by left|done..]. Qed.

(** A call that at most writes the logs. *)
Lemma jguar_logs e s s' :
  staged s' = staged s -> issued s' = issued s -> cache s' = cache s ->
  (logs s' = logs s \/ exists r, Store.handle seam_fault seam_may_commit e (logs s) r (logs s')) -> jguar e s s'.
Proof.
  intros Hst His Hc Hl. unfold jguar, server_ok, staged_at. rewrite Hst, His, Hc. by split_and!.
Qed.

(** A call that writes a batch of this thread's. *)
Lemma jguar_batch e id s s' :
  issued s !! id = Some me -> issued s' = issued s -> cache s' = cache s -> staged_only id s s' ->
  (logs s' = logs s \/ exists r, Store.handle seam_fault seam_may_commit e (logs s) r (logs s')) -> jguar e s s'.
Proof.
  intros Hid His Hc Hst Hl. unfold jguar, server_ok. rewrite His, Hc. split_and!; [done..| |].
  - intros id' Hne. apply Hst. by intros ->.
  - intros [Hok Hfree]. split; [done|]. intros id' Hn. rewrite Hst; [by apply Hfree|]. intros ->. congruence.
Qed.

(** Drawing an id. *)
Lemma jguar_draw e id s :
  issued s !! id = None ->
  jguar e s {| logs := logs s; staged := staged s; issued := <[id := me]> (issued s); cache := cache s |}.
Proof.
  intros Hid. split_and!; cbn; [by left|by apply insert_subseteq|done|].
  intros [Hok Hfree]. split; [done|]. intros id' Hn. apply Hfree.
  cbn in Hn. by apply lookup_insert_None in Hn as [? _].
Qed.

Lemma at_instant_rely e b0 r s s' : at_one_instant e b0 r (logs s) -> jrely s s' -> at_one_instant e b0 r (logs s').
Proof. intros (Ht & b & b' & H1 & H2 & H3) (He & _). split; [done|]. exists b, b'. split_and!; [done..|by etrans]. Qed.

Lemma jwp_client {A} e c (k : jreply c -> prog jreply A) Q s :
  (forall s1 r s2, jrely s s1 -> jhandle c s1 r s2 -> jguar e s1 s2 /\ jwp e (k r) Q s2) ->
  jwp e (bind (client c) k) Q s.
Proof. intros H. by apply wp_call. Qed.

(** A call that changes nothing. *)
Definition reads (c : jcall) : bool :=
  match c with
  | cachedVerifiedStream _ | js_Stream _ | stream_Info _ | stream_CachedInfo _
  | stream_GetLastMsgForSubject _ _ => true
  | _ => false
  end.

Lemma jwp_read {A} e c (k : jreply c -> prog jreply A) Q s :
  reads c = true -> (forall s1 r, jrely s s1 -> jhandle c s1 r s1 -> jwp e (k r) Q s1) ->
  jwp e (bind (client c) k) Q s.
Proof.
  intros Hc H. apply jwp_client. intros s1 r s2 H1 H2.
  assert (s2 = s1) as -> by (destruct c; try done; cbn in H2; by destruct_and?).
  split; [reflexivity|by apply H].
Qed.

Lemma jwp_bind {A B} e (p : prog jreply A) (f : A -> prog jreply B) Q s :
  jwp e p (fun a s' => jwp e (f a) Q s') s -> jwp e (bind p f) Q s.
Proof. apply wp_bind; apply _. Qed.

Lemma jwp_ret {A} e (a : A) (Q : A -> jserver -> Prop) s :
  (forall s', jrely s s' -> Q a s') -> jwp e (Ret a) Q s.
Proof. done. Qed.

(** A read: nothing it did changed the logs. *)
Lemma at_read e b0 b r b1 : typed_reply e r -> evol b0 b -> evol b b1 ->
  Store.handle seam_fault seam_may_commit e b r b -> at_one_instant e b0 r b1.
Proof. intros Ht H1 H2 H. split; [done|]. by exists b, b. Qed.

Lemma jrely_ok s s' : jrely s s' -> server_ok s -> server_ok s'.
Proof. by intros (_ & _ & H). Qed.

Lemma evol_rely b0 s s' : evol b0 (logs s) -> jrely s s' -> evol b0 (logs s').
Proof. intros H (He & _). by etrans. Qed.

Lemma jwp_verify e spec h s (Q : option error -> jserver -> Prop) :
  h_name h = stream spec -> server_ok s ->
  (forall v s', evol (logs s) (logs s') -> server_ok s' ->
     match v with None => True | Some e => seam_fault e end -> Q v s') ->
  jwp e (verifyAndCacheStream spec h) Q s.
Proof.
  intros Hh Hc HQ. apply jwp_read; [done|]. intros s1 r Hr _.
  pose proof (jrely_ok _ _ Hr Hc) as Hc1.
  assert (Hret : forall v, match v with None => True | Some e => seam_fault e end -> jwp e (Ret v) Q s1).
  { intros v Hv. apply jwp_ret. intros s' Hr'. apply HQ; [|by eapply jrely_ok|done].
    eapply evol_rely; [|exact Hr']. by eapply evol_rely. }
  destruct r as [cfg|err]; [|by apply Hret].
  destruct (verifyOrderedStreamConfig spec cfg) as [err|] eqn:Ev.
  - apply Hret. unfold verifyOrderedStreamConfig in Ev.
    repeat match type of Ev with
      | (if ?b then _ else _) = _ => destruct b; [by injection Ev as <-|]
      | (match ?m with Some _ => _ | None => _ end) = _ => destruct m; [by injection Ev as <-|]
      end. done.
  - apply jwp_client. intros s3 [] s4 Hr3 ->.
    assert (Hc4 : server_ok s3 -> server_ok {| logs := logs s3; staged := staged s3; issued := issued s3;
      cache := <[stream spec := h]> (cache s3) |}).
    { intros [Hok Hfree]. split; [|done]. cbn. intros n h' [[<- <-]|[_ Hn]]%lookup_insert_Some; [done|by apply Hok]. }
    split; [split_and!; [by left|done..]|]. apply jwp_ret. intros s' Hr'. apply HQ; [| |done].
    + eapply evol_rely; [|exact Hr']. cbn. eapply evol_rely; [|exact Hr3]. by eapply evol_rely.
    + eapply jrely_ok; [exact Hr'|]. apply Hc4. by eapply jrely_ok.
Qed.

Lemma lastMsgForSubject_refines spec subj s :
  server_ok s ->
  jwp (lastMsgForSubject spec subj) (lastMsgForSubject_ spec subj)
    (fun r s' => at_one_instant (lastMsgForSubject spec subj) (logs s) r (logs s')) s.
Proof.
  intros Hc. unfold lastMsgForSubject_. apply jwp_read; [done|]. intros s1 r H1 [_ ->].
  pose proof (jrely_ok _ _ H1 Hc) as Hc1. set (e := lastMsgForSubject spec subj).
  assert (Hret : forall s3 (r : reply e), typed_reply e r -> evol (logs s) (logs s3) ->
    Store.handle seam_fault seam_may_commit e (logs s3) r (logs s3) ->
    jwp e (Ret r) (fun r s' => at_one_instant e (logs s) r (logs s')) s3).
  { intros s3 r Ht He Hr. apply jwp_ret. intros s' H'. eapply at_read; [done|exact He|apply H'|exact Hr]. }
  (* the answer, once the handle is known *)
  assert (Hget : forall h s3, h_name h = stream spec -> evol (logs s) (logs s3) ->
    jwp e (m <- client (stream_GetLastMsgForSubject h subj);
         if is_err js_ErrMsgNotFound m then Ret (Ok (0%N, EmptyString))
         else match m with
              | Err err => Ret (Err (OrderedStreamOpError (stream spec) "get last message" err))
              | Ok seq_data => Ret (Ok seq_data) end)
      (fun r s' => at_one_instant e (logs s) r (logs s')) s3).
  { intros h s3 Hh He. apply jwp_read; [done|]. intros s4 m H4 (_ & Hraw & Hm). rewrite Hh in Hm.
    assert (He4 : evol (logs s) (logs s4)) by (by eapply evol_rely).
    destruct m as [m|err]; cbn [is_err].
    - by apply Hret; [apply Hm| |split; [|apply Hm]].
    - destruct (is_nats js_ErrMsgNotFound err); apply Hret; try done; split; try done. by rewrite Hm. }
  unfold verifiedStreams_get. destruct (cache s1 !! stream spec) as [h|] eqn:Hcache; cbn [bind bind_res].
  - apply Hget; [by apply Hc1|by eapply evol_rely].
  - apply jwp_read; [done|]. intros s2 r H2 (_ & Hraw & Hr).
    assert (He2 : evol (logs s) (logs s2)) by (eapply evol_rely; [by eapply evol_rely|exact H2]).
    destruct r as [h|err]; cbn [is_err]; cbn [bind].
    + apply jwp_bind, jwp_bind, jwp_verify; [apply Hr|by apply (jrely_ok _ _ H2)|]. intros v s3 He3 _ Hv.
      destruct v as [err|].
      * apply jwp_ret. intros s4 H4. apply jwp_ret. intros s' H'.
        eapply at_read; [done|exact He2| |split; [done|exact Hv]].
        eapply evol_rely; [|exact H']. by eapply evol_rely.
      * apply jwp_ret. intros s4 H4. apply Hget; [apply Hr|]. eapply evol_rely; [|exact H4]. by etrans.
    + destruct (is_nats js_ErrStreamNotFound err) eqn:En; cbn [bind]; apply Hret; try done; split; try done.
      by rewrite Hr.
Qed.

Lemma ensureStream_refines spec s :
  server_ok s ->
  jwp (ensureStream spec) (ensureStream_ spec)
    (fun r s' => at_one_instant (ensureStream spec) (logs s) r (logs s')) s.
Proof.
  intros Hc. unfold ensureStream_. apply jwp_read; [done|]. intros s1 r H1 [_ ->]. set (e := ensureStream spec).
  set (post := fun (r : option error) (s' : jserver) => at_one_instant e (logs s) r (logs s')).
  assert (He1 : evol (logs s) (logs s1)) by (by eapply evol_rely).
  unfold verifiedStreams_get. destruct (cache s1 !! stream spec) as [h|].
  { apply jwp_ret. intros s' H'. eapply at_read; [done|exact He1|apply H'|]. split; [done|by left]. }
  apply jwp_read; [done|]. intros s2 r H2 (_ & Hraw & Hr). apply jwp_bind.
  (* from the reply that named the stream to the end; [b]/[b'] is where it may have been created *)
  assert (Hend : forall b b' s4 (r : res handle), evol (logs s) b ->
    (b' = b \/ b' = <[stream spec := log_of b (stream spec)]> b) -> evol b' (logs s4) -> server_ok s4 ->
    match r with Ok h => h_name h = stream spec | Err _ => True end ->
    jwp e (match r with
         | Err err => Ret (Some (OrderedStreamOpError (stream spec) "ensure" err))
         | Ok h => verifyAndCacheStream spec h end) post s4).
  { intros b b' s4 r' E1 Hb E2 Hc4 Hr'. destruct r' as [h|err].
    - apply jwp_verify; [done..|]. intros v s5 E5 _ Hv. split; [done|]. exists b, b'. split; [done|].
      split; [|by etrans]. by destruct v.
    - apply jwp_ret. intros s' H'. split; [done|]. exists b, b'. split; [done|]. split; [done|]. by eapply evol_rely. }
  assert (Hc2 : server_ok s2) by (eapply jrely_ok; [exact H2|]; by eapply jrely_ok).
  assert (He2 : evol (logs s) (logs s2)) by (by eapply evol_rely).
  assert (Hplain : forall s4 (r : res handle), jrely s2 s4 -> match r with Ok h => h_name h = stream spec | Err _ => True end ->
    jwp e (match r with
         | Err err => Ret (Some (OrderedStreamOpError (stream spec) "ensure" err))
         | Ok h => verifyAndCacheStream spec h end) post s4).
  { intros s4 r' H4 Hr'. eapply Hend; [exact He2|by left|by apply H4| |done]. by eapply jrely_ok. }
  destruct (is_err js_ErrStreamNotFound r).
  - apply jwp_client. intros s4 c s5 H4 (Hst & His & Hca & _ & Hlogs & Hok). cbn [Name orderedStreamConfig] in *.
    assert (Hg : jguar e s4 s5) by (apply jguar_logs; [done..|right; by exists None]).
    split; [done|]. assert (He4 : evol (logs s) (logs s4)) by (by eapply evol_rely).
    assert (Hc5 : server_ok s5) by (apply Hg; by eapply jrely_ok).
    destruct (is_err js_ErrStreamNameAlreadyInUse c).
    + intros s6 H6 r6 s7 (-> & _ & Hr6). split; [reflexivity|]. apply jwp_ret. intros s7 H7.
      eapply Hend; [exact He4|exact Hlogs| | |by destruct r6; [apply Hr6|]].
      * eapply evol_rely; [|exact H7]. by apply H6.
      * eapply jrely_ok; [exact H7|]. by eapply jrely_ok.
    + apply jwp_ret. intros s6 H6.
      eapply Hend; [exact He4|exact Hlogs|by apply H6|by eapply jrely_ok|done].
  - apply jwp_ret. intros s4 H4. apply Hplain; [done|]. by destruct r; [apply Hr|].
Qed.

Lemma publish_refines st m s :
  msg_fits st m ->
  jwp (publish st m) (publish_ st m) (fun r s' => at_one_instant (publish st m) (logs s) r (logs s')) s.
Proof.
  intros [Ho Hu]. apply jwp_client. intros s1 r s2 H1 (Hst & His & Hca & st' & Ho' & Hr).
  assert (st' = st) as -> by congruence.
  assert (Em : {| subject := subject m; data := data m; expectLastSeq := expectLastSeq m |} = m) by (by destruct m).
  rewrite Em in Hr.
  assert (Hlogs : logs s2 = logs s1 \/ fenced_commit (logs s1) st [m] (logs s2)).
  { destruct r as [e|]; [|by right]. destruct Hr as [_ Hr]. destruct (isOrderedWrongLastSeq e); [left; apply Hr|done]. }
  split; [apply jguar_logs; try done; destruct Hlogs; [by left|right; by exists None]|].
  assert (Hret : forall r, publish_contract seam_fault seam_may_commit (logs s1) st [m] r (logs s2) ->
    jwp (publish st m) (Ret r) (fun r s' => at_one_instant (publish st m) (logs s) r (logs s')) s2).
  { intros r' Hp. apply jwp_ret. intros s' H'. split; [done|]. exists (logs s1), (logs s2).
    split; [by eapply evol_rely|]. split; [exact Hp|apply H']. }
  destruct r as [e|]; [|by apply Hret]. destruct Hr as [[Hp Ha] Hr].
  destruct (isOrderedWrongLastSeq e); [by apply Hret; split|].
  destruct (isOrderedAmbiguous e); apply Hret; (split; [done|]).
  - assert (Hj : is_precondition (Join [errOrderedAmbiguous; e]) = false) by (cbn; by rewrite orb_false_r).
    cbn [errors_Join omap list_omap id] in *. rewrite Hj. destruct Hr as [?|[? ?]]; [by left|by right].
  - change (is_precondition (OrderedStreamOpError st "publish" e)) with (is_precondition e). rewrite Hp.
    destruct Hr as [?|[? ?]]; [by left|right]. split; [by left|done].
Qed.

(** ** The batch *)

Context (Hheader : ExpectedLastSubjSeqHeader <> orderedHdrBatchID /\ ExpectedLastSubjSeqHeader <> orderedHdrBatchSeq /\
  ExpectedLastSubjSeqHeader <> orderedHdrBatchCommit).

Lemma member_headers id i c m :
  batch_id (member id i c m) = id /\
  msg_header (member id i c m) !! orderedHdrBatchSeq = Some (FormatUint (N.of_nat (i + 1))) /\
  msg_header (member id i c m) !! ExpectedLastSubjSeqHeader = Some (FormatUint (expectLastSeq m)) /\
  (msg_header (member id i c m) !! orderedHdrBatchCommit = Some "1" <-> c = true).
Proof.
  destruct Hheader as (H1 & H2 & H3). unfold batch_id, member. cbn [msg_header].
  assert (N1 : orderedHdrBatchCommit <> orderedHdrBatchID) by done.
  assert (N2 : orderedHdrBatchCommit <> orderedHdrBatchSeq) by done.
  assert (N3 : orderedHdrBatchSeq <> orderedHdrBatchID) by done.
  destruct c; rewrite ?(lookup_insert_ne _ orderedHdrBatchCommit) by congruence; split_and!;
    rewrite ?lookup_insert_eq, ?(lookup_insert_ne _ ExpectedLastSubjSeqHeader) by congruence;
    rewrite ?lookup_insert_eq, ?(lookup_insert_ne _ orderedHdrBatchSeq) by congruence;
    rewrite ?lookup_insert_eq; try done.
Qed.

(** The members of [ms] as they are published ahead of the commit. *)
Definition members (id : string) (ms : list orderedMsg) : list nats_msg := imap (fun i m => member id i false m) ms.

Lemma members_snoc id ms m : members id (ms ++ [m]) = members id ms ++ [member id (length ms) false m].
Proof. unfold members. rewrite imap_app. cbn. by rewrite Nat.add_0_r. Qed.

(** If the messages staged under our id, some possibly lost, and then the commit form a
    complete batch, it is ours. *)
Lemma complete_ours st id pre m arrived st' ms' :
  Forall (msg_fits st) (pre ++ [m]) -> u64 (N.of_nat (length (pre ++ [m]))) ->
  arrived `sublist_of` members id pre -> complete st' (arrived ++ [member id (length pre) true m]) ms' ->
  st' = st /\ ms' = pre ++ [m].
Proof.
  intros Hfit Hu Hsub (Hlen & Hcar & _).
  pose proof (sublist_length _ _ Hsub) as Hle. unfold members in Hle. rewrite length_imap in Hle.
  rewrite length_app in Hlen, Hu. cbn [length] in Hlen, Hu.
  assert (Hall : length arrived = length pre).
  { destruct (lookup_lt_is_Some_2 ms' (length arrived) ltac:(lia)) as [m' Hm'].
    destruct (Hcar (length arrived) (member id (length pre) true m) m') as (_&_&_&_&Hseq&_);
      [by apply list_lookup_middle|done|].
    destruct (member_headers id (length pre) true m) as (_ & Hs & _ & _). rewrite Hs in Hseq. injection Hseq as Hseq.
    apply FormatUint_inj in Hseq; unfold u64 in *; lia. }
  assert (arrived = members id pre) as ->.
  { apply sublist_full; [done|]. unfold members. rewrite length_imap. lia. }
  (* each carried message is the one sent *)
  assert (Hsame : forall i a a', (pre ++ [m]) !! i = Some a -> ms' !! i = Some a' -> owner (subject a') = Some st' /\ a' = a).
  { intros i a a' Ha Ha'.
    assert (Hnm : exists c, (members id pre ++ [member id (length pre) true m]) !! i = Some (member id i c a)).
    { apply lookup_app_Some in Ha as [Ha|[Hge Ha]].
      - exists false. apply lookup_app_l_Some. unfold members. by rewrite list_lookup_imap, Ha.
      - apply list_lookup_singleton_Some in Ha as [Hi <-]. exists true.
        assert (i = length pre) as -> by lia. rewrite <- Hall. by apply list_lookup_middle. }
    destruct Hnm as [c Hnm]. destruct (Hcar i _ a' Hnm Ha') as (E1 & E2 & Hown & Hu' & _ & E3).
    destruct (member_headers id i c a) as (_ & _ & H3 & _). rewrite H3 in E3. injection E3 as E3.
    pose proof (proj1 (Forall_lookup _ _) Hfit i a Ha) as [_ Hua].
    apply FormatUint_inj in E3; [|done..]. cbn in E1, E2. split; [done|]. destruct a, a'. cbn in *. congruence. }
  assert (Hms : ms' = pre ++ [m]).
  { apply list_eq_same_length with (length pre + 1); [by rewrite length_app|lia|].
    intros i a a' _ Ha' Ha. by destruct (Hsame i a' a Ha Ha') as [_ ->]. }
  split; [|done]. subst ms'.
  destruct (Hsame (length pre) m m) as [Ho _]; [by apply list_lookup_middle..|].
  apply Forall_app in Hfit as [_ [[Ho' _] _]%Forall_cons]. congruence.
Qed.

(** The last member carries the commit: its acknowledgement decides. *)
Lemma last_member_refines st id b0 pre m s :
  Forall (msg_fits st) (pre ++ [m]) -> u64 (N.of_nat (length (pre ++ [m]))) ->
  staged_at s id `sublist_of` members id pre -> issued s !! id = Some me -> evol b0 (logs s) ->
  jwp (publishBatch st (pre ++ [m])) (batch_loop st id (length (pre ++ [m])) (length pre) [m])
    (fun r s' => at_one_instant (publishBatch st (pre ++ [m])) b0 r (logs s')) s.
Proof.
  intros Hfit Hu Hsub Hmine Hb0. cbn [batch_loop]. rewrite length_app. cbn [length].
  destruct (Nat.ltb_spec (length pre) (length pre + 1 - 1)) as [|_]; [lia|].
  replace (length pre + 1) with (length (pre ++ [m])) by (by rewrite length_app).
  apply jwp_client. intros s1 r s2 H1 (Hc & His & Honly & Hraw & Hr).
  destruct (member_headers id (length pre) true m) as (Hid & _ & _ & _). rewrite Hid in Hr, Honly.
  destruct (proj1 (proj2 H1) _ Hmine) as [Hmine1 Hs1].
  assert (Hsub1 : staged_at s1 id `sublist_of` members id pre) by (by etrans).
  assert (Hcommit : batch_commit (logs s1) (staged_at s1 id ++ [member id (length pre) true m]) (logs s2) ->
    fenced_commit (logs s1) st (pre ++ [m]) (logs s2)).
  { intros (st' & ms' & Hcomp & Hf). by destruct (complete_ours st id pre m _ st' ms' Hfit Hu Hsub1 Hcomp) as [-> ->]. }
  assert (Hlogs : logs s2 = logs s1 \/ fenced_commit (logs s1) st (pre ++ [m]) (logs s2)).
  { destruct r as [bytes|e]; [|destruct Hr as [?|?%Hcommit]; auto].
    destruct (decode_ack bytes) as [ack|]; [|destruct Hr as [?|?%Hcommit]; auto].
    destruct (AckError ack); [left; apply Hr|right; by apply Hcommit]. }
  split; [eapply jguar_batch; try done; destruct Hlogs; [by left|right; by exists None]|].
  assert (Hret : forall r, publish_contract seam_fault seam_may_commit (logs s1) st (pre ++ [m]) r (logs s2) ->
    jwp (publishBatch st (pre ++ [m])) (Ret r) (fun r s' => at_one_instant (publishBatch st (pre ++ [m])) b0 r (logs s')) s2).
  { intros r' Hp. apply jwp_ret. intros s' H'. split; [done|]. exists (logs s1), (logs s2).
    split; [by eapply evol_rely|]. split; [exact Hp|apply H']. }
  assert (Hmaybe : forall e, seam_fault e -> seam_may_commit e -> is_precondition e = false ->
    publish_contract seam_fault seam_may_commit (logs s1) st (pre ++ [m]) (Some e) (logs s2)).
  { intros e Hf Hm Hp. split; [done|]. rewrite Hp. destruct Hlogs as [?|[? ?]]; [by left|by right]. }
  destruct r as [bytes|e].
  - destruct (decode_ack bytes) as [ack|]; [|apply Hret, Hmaybe; try done; cbn; auto].
    apply Hret. unfold classifyOrderedBatchAck. destruct (AckError ack) as [e|].
    + destruct Hr as [Hl Hwrong]. destruct (isOrderedWrongLastSeqCode (ErrCode e)); (split; [done|]); cbn.
      * destruct (Hwrong eq_refl) as (st' & ms' & Hcomp & Hf).
        by destruct (complete_ours st id pre m _ st' ms' Hfit Hu Hsub1 Hcomp) as [-> ->].
      * by left.
    + apply Hcommit in Hr. destruct (BatchSize ack =? _)%N; cbn [negb]; [exact Hr|].
      split; [done|]. cbn. destruct Hr as [? ?]. by right.
  - destruct Hraw as [Hp Ha]. destruct (isOrderedAmbiguous e); apply Hret.
    + apply Hmaybe; try done. cbn. by rewrite orb_false_r.
    + apply Hmaybe; try done. cbn; auto.
Qed.

Lemma batch_loop_refines st id b0 rest pre s :
  Forall (msg_fits st) (pre ++ rest) -> u64 (N.of_nat (length (pre ++ rest))) -> rest <> [] ->
  issued s !! id = Some me -> staged_at s id `sublist_of` members id pre -> evol b0 (logs s) ->
  jwp (publishBatch st (pre ++ rest)) (batch_loop st id (length (pre ++ rest)) (length pre) rest)
    (fun r s' => at_one_instant (publishBatch st (pre ++ rest)) b0 r (logs s')) s.
Proof.
  revert pre s. induction rest as [|m rest IH]; intros pre s Hfit Hu Hne Hmine Hsub Hb0; [done|].
  destruct (decide (rest = [])) as [->|Hrest]; [by apply last_member_refines|].
  assert (Hlt : length pre < length (pre ++ m :: rest) - 1)
    by (rewrite length_app; destruct rest; [done|cbn; lia]).
  cbn [batch_loop]. destruct (Nat.ltb_spec (length pre) (length (pre ++ m :: rest) - 1)) as [_|]; [|lia].
  apply jwp_client. intros s1 r s2 H1 ((Hl & Hc & His) & Hraw & Hst).
  destruct (member_headers id (length pre) false m) as (Hid & _). rewrite Hid in Hst.
  destruct (proj1 (proj2 H1) _ Hmine) as [Hmine1 Hs1].
  assert (Hb1 : evol b0 (logs s2)) by (rewrite Hl; by eapply evol_rely).
  split.
  { apply (jguar_batch _ id); try done; [|by left]. intros id' Hne'. unfold staged_at.
    destruct Hst as [->| ->]; [done|by rewrite lookup_insert_ne]. }
  destruct r as [e|].
  - apply jwp_ret. intros s' H'. split; [done|]. exists (logs s2), (logs s2). split; [done|]. split; [|apply H'].
    split; [done|]. change (is_precondition (OrderedStreamOpError st _ e)) with (is_precondition e).
    destruct Hraw as [-> _]. by left.
  - replace (pre ++ m :: rest) with ((pre ++ [m]) ++ rest) in * by (by rewrite <- app_assoc).
    replace (length pre + 1) with (length (pre ++ [m])) by (rewrite length_app; cbn; lia).
    apply IH; try done; [by rewrite His|]. rewrite members_snoc. unfold staged_at in *. destruct Hst as [-> | ->].
    + apply sublist_inserts_r. by etrans.
    + rewrite lookup_insert_eq. cbn. apply sublist_app; [by etrans|done].
Qed.

Lemma publishBatch_refines st ms s :
  seam_args (publishBatch st ms) -> server_ok s ->
  jwp (publishBatch st ms) (publishBatch_ batchNonce st ms)
    (fun r s' => at_one_instant (publishBatch st ms) (logs s) r (logs s')) s.
Proof.
  intros [Hfit Hu] Hok. unfold publishBatch_.
  assert (Hnone : forall e, seam_fault e -> is_precondition e = false ->
    jwp (publishBatch st ms) (Ret (Some e)) (fun r s' => at_one_instant (publishBatch st ms) (logs s) r (logs s')) s).
  { intros e Hf Hp. apply jwp_ret. intros s' H'. split; [done|]. exists (logs s), (logs s). split; [done|].
    split; [|apply H']. split; [done|]. rewrite Hp. by left. }
  destruct (decide (length ms = 0)) as [|Hlen]; [by apply Hnone|].
  destruct (duplicate_subject [] ms) as [d|]; [by apply Hnone|].
  apply jwp_client. intros s1 n s2 H1 [Hfree ->]. split; [by apply jguar_draw|].
  apply (batch_loop_refines st _ (logs s) ms []); try done.
  - by destruct ms.
  - apply lookup_insert_eq.
  - unfold staged_at. cbn [staged]. destruct (jrely_ok _ _ H1 Hok) as [_ Hf]. specialize (Hf _ Hfree).
    unfold staged_at in Hf. by rewrite Hf.
  - apply H1.
Qed.

(** Each operation, as one call. *)
Lemma seam_refines e p s :
  seam_prog e = Some p -> seam_args e -> server_ok s ->
  wp jhandle jrely (jguar e) p (fun r s' => at_one_instant e (logs s) r (logs s')) s.
Proof.
  destruct e; try done; intros [= <-] Ha Hc.
  - by apply ensureStream_refines.
  - by apply lastMsgForSubject_refines.
  - by apply publish_refines.
  - by apply publishBatch_refines.
Qed.

(** C7. Refinement: whatever other clients do between its calls, and whatever is lost or
    refused within the client's contract, each operation of the seam is one call of the
    interface [Store.handle] describes, taking effect at one instant: a read answers the
    log of that instant, a fenced publish or a batch commits whole under its fences or
    not at all, a precondition error means a fence failed, and only the outcomes of
    [seam_may_commit] leave a write undecided. *)
Theorem seam_refines_contract e p s :
  seam_prog e = Some p -> seam_args e -> server_ok s ->
  wp jhandle jrely (jguar e) p (fun r s' => at_one_instant e (logs s) r (logs s')) s.
Proof. apply seam_refines. Qed.

End contract.

(** ** The cache of verified streams *)

Section cache_admission.
Context {J : JetStream}.

Definition cached_at (x : ans jreply) : option (string * handle) :=
  match projT1 x with cacheVerifiedStream n h => Some (n, h) | _ => None end.
Definition creates_at (x : ans jreply) : bool :=
  match projT1 x with js_CreateStream _ => true | _ => false end.
Definition verified_at (spec : orderedStreamSpec) (h : handle) (x : ans jreply) : Prop :=
  match x with
  | existT (stream_Info h') (Ok cfg) => h' = h /\ verifyOrderedStreamConfig spec cfg = None
  | _ => False
  end.
Definition hit_at (spec : orderedStreamSpec) (x : ans jreply) : Prop :=
  match x with
  | existT (cachedVerifiedStream n) (Some _) => n = stream spec
  | _ => False
  end.

Lemma exec_client {A} c (k : jreply c -> prog jreply A) tr r :
  exec (bind (client c) k) tr r -> exists x tr', tr = existT c x :: tr' /\ exec (k x) tr' r.
Proof. done. Qed.

(** Every admission to the cache is of this stream, after its layout was accepted. *)
Definition admits (spec : orderedStreamSpec) (tr : list (ans jreply)) : Prop :=
  forall tr1 x tr2 n h, tr = tr1 ++ x :: tr2 -> cached_at x = Some (n, h) ->
    n = stream spec /\ Exists (verified_at spec h) tr1.

Lemma admits_prefix spec tr tr' : Forall (fun x => cached_at x = None) tr -> admits spec tr' -> admits spec (tr ++ tr').
Proof.
  intros Hn Ha tr1 x tr2 n h E Hc. revert tr1 E. induction Hn as [|y tr Hy _ IH]; intros tr1 E; [by eapply Ha|].
  destruct tr1 as [|z tr1]; cbn in E; injection E as <- E; [congruence|].
  destruct (IH tr1 E) as [? He]. split; [done|by constructor 2].
Qed.

Lemma admits_none spec tr : Forall (fun x => cached_at x = None) tr -> admits spec tr.
Proof.
  intros H. rewrite <- (app_nil_r tr). apply admits_prefix; [done|].
  intros [|] ? ? ? ? E; by discriminate.
Qed.

Lemma admits_suffix spec tr tr' : admits spec tr -> Forall (fun x => cached_at x = None) tr' -> admits spec (tr ++ tr').
Proof.
  intros Ha Hn. induction tr' as [|y tr' IH] using rev_ind; [by rewrite app_nil_r|].
  apply Forall_app in Hn as [Hn [Hy _]%Forall_cons]. rewrite app_assoc.
  intros t1 x t2 n h E Hx. destruct t2 as [|z t2 _] using rev_ind.
  - apply app_inj_tail in E as [_ ->]. congruence.
  - rewrite app_comm_cons, app_assoc in E. apply app_inj_tail in E as [E _]. by eapply (IH Hn t1).
Qed.

Lemma verify_trace spec h tr r : exec (verifyAndCacheStream spec h) tr r ->
  admits spec tr /\ Forall (fun x => creates_at x = false) tr /\
  (r = None -> Exists (fun x => cached_at x = Some (stream spec, h)) tr).
Proof.
  intros (info & tr' & -> & H). destruct info as [cfg|e]; cbn in H.
  - destruct (verifyOrderedStreamConfig spec cfg) as [e|] eqn:Ev.
    + destruct H as [-> ->]. split_and!; [apply admits_none; by repeat constructor|by repeat constructor|done].
    + destruct H as ([] & tr2 & -> & -> & ->). split_and!.
      * intros [|x1 [|x2 tr1]] x tr2 n h' E Hc; cbn in E; injection E as <-.
        -- done.
        -- subst. injection Hc as <- <-. split; [done|]. by constructor.
        -- by destruct tr1.
      * by repeat constructor.
      * intros _. by right; left.
  - destruct H as [-> ->]. split_and!; [apply admits_none; by repeat constructor|by repeat constructor|done].
Qed.

(** The read of one subject: no stream is cached or created. *)
Lemma last_msg_trace (spec : orderedStreamSpec) subj h tr r :
  exec (m <- client (stream_GetLastMsgForSubject h subj);
     if is_err js_ErrMsgNotFound m then Ret (Ok (0%N, EmptyString))
     else match m with
          | Err err => Ret (Err (OrderedStreamOpError (stream spec) "get last message" err))
          | Ok seq_data => Ret (Ok seq_data) end) tr r ->
  Forall (fun x => cached_at x = None) tr /\ Forall (fun x => creates_at x = false) tr.
Proof.
  intros (m & tr1 & -> & H). cbn in H.
  assert (tr1 = []) as -> by (destruct m as [m|e]; cbn in H; [|destruct (is_nats _ e)]; by destruct H as [-> _]).
  split; by repeat constructor.
Qed.

(** The cache of verified streams is sound: a stream enters it only after its current
    layout was fetched and accepted; [ensureStream] succeeds only for a stream that is in
    it; and reading a record never provisions a stream. *)
Theorem stream_cache_sound spec subj :
  (forall tr r, exec (ensureStream_ spec) tr r ->
     admits spec tr /\
     (r = None -> Exists (hit_at spec) tr \/
                  exists h, Exists (fun x => cached_at x = Some (stream spec, h)) tr)) /\
  (forall tr r, exec (lastMsgForSubject_ spec subj) tr r ->
     admits spec tr /\ Forall (fun x => creates_at x = false) tr).
Proof.
  split.
  - intros tr r (cached & tr1 & -> & H). destruct cached as [h|].
    { cbn in H. destruct H as [-> ->]. split; [apply admits_none; by repeat constructor|]. intros _. left. by constructor. }
    cbn in H. destruct H as (r1 & tr2 & -> & H). apply exec_bind in H as (r2 & tr3 & tr4 & -> & H3 & H4).
    assert (Hn : Forall (fun x => cached_at x = None) tr3).
    { destruct (is_err js_ErrStreamNotFound r1); [|by destruct H3 as [-> _]].
      destruct H3 as (c & tr5 & -> & H3). destruct (is_err js_ErrStreamNameAlreadyInUse c).
      - destruct H3 as (r3 & tr6 & -> & -> & _). by repeat constructor.
      - destruct H3 as [-> _]. by repeat constructor. }
    destruct r2 as [h|e]; cbn in H4.
    + apply verify_trace in H4 as (Ha & _ & He). split.
      * apply (admits_prefix _ [_; _] _); [by repeat constructor|]. by apply admits_prefix.
      * intros Hr. right. exists h. do 2 constructor 2. apply Exists_app. right. by apply He.
    + destruct H4 as [-> ->]. split; [|done]. apply admits_none. do 2 (constructor; [done|]).
      by apply Forall_app.
  - intros tr r H. apply exec_client in H as (cached & tr1 & -> & H). apply exec_bind in H as (f & tr2 & tr3 & -> & H2 & H3).
    assert (H2' : admits spec tr2 /\ Forall (fun x => creates_at x = false) tr2).
    { destruct cached as [h|]; [cbn in H2; destruct H2 as [-> _]; split; [by apply admits_none|done]|].
      apply exec_client in H2 as (r1 & tr4 & -> & H2). destruct (is_err js_ErrStreamNotFound r1).
      { destruct H2 as [-> _]. split; [apply admits_none|]; by repeat constructor. }
      destruct r1 as [h|e]; [|destruct H2 as [-> _]; split; [apply admits_none|]; by repeat constructor].
      apply exec_bind in H2 as (v & tr5 & tr6 & -> & H5 & H6).
      assert (tr6 = []) as -> by (destruct v; by destruct H6 as [-> _]). rewrite app_nil_r.
      apply verify_trace in H5 as (Ha & Hc & _). split; [|by constructor].
      apply (admits_prefix _ [_] _); [by repeat constructor|done]. }
    destruct H2' as [Ha Hc]. destruct f as [[h|]|e]; cbn in H3.
    + apply last_msg_trace in H3 as [H3 H3']. split; [|constructor; [done|]; by apply Forall_app].
      apply (admits_prefix _ [_] _); [by repeat constructor|].
      by apply admits_suffix.
    + destruct H3 as [-> _]. rewrite app_nil_r. split; [|by constructor].
      apply (admits_prefix _ [_] _); [by repeat constructor|done].
    + destruct H3 as [-> _]. rewrite app_nil_r. split; [|by constructor].
      apply (admits_prefix _ [_] _); [by repeat constructor|done].
Qed.

End cache_admission.
(** ** The contract at a concrete batch *)

Section sample.
Existing Instance nats_go.

Definition sample_nonce : string := newOrderedBatchNonce "0123456789abcdef".
Definition sample_owner (_ : string) : option string := Some "OI_ns".
Definition counter_msg : orderedMsg := {| subject := "OI.ns.c.s"; data := "1"; expectLastSeq := 0 |}.
Definition record_msg : orderedMsg := {| subject := "OI.ns.r.s.t"; data := "{}"; expectLastSeq := 0 |}.
(** [{"seq":2,"count":2}], quoted with single quotes. *)
Definition sample_ack : string := ReplaceAll "{'seq':2,'count':2}" "'" (str1 dquote).

Notation commit_msg := (member (nextBatchID sample_nonce 1) 1 true record_msg).
Notation first_msg := (member (nextBatchID sample_nonce 1) 0 false counter_msg).
Definition sample_issued : gmap string nat := <[nextBatchID sample_nonce 1 := 0]> ∅.
Definition server_start : jserver := {| logs := ∅; staged := ∅; issued := ∅; cache := ∅ |}.
Definition server_drawn : jserver := {| logs := ∅; staged := ∅; issued := sample_issued; cache := ∅ |}.
Definition server_staged : jserver :=
  {| logs := ∅; staged := <[nextBatchID sample_nonce 1 := [first_msg]]> ∅; issued := sample_issued; cache := ∅ |}.
Definition server_end : jserver :=
  {| logs := append ∅ "OI_ns" [counter_msg; record_msg]; staged := ∅; issued := sample_issued; cache := ∅ |}.

Lemma sample_ack_ok : exists ack, decode_ack sample_ack = Some ack /\ AckError ack = None /\ BatchSize ack = 2%N.
Proof. eexists. vm_compute. split; [reflexivity|done]. Qed.

Lemma sample_complete : complete sample_owner "OI_ns" ([first_msg] ++ [commit_msg]) [counter_msg; record_msg].
Proof.
  split; [done|]. split; [|exists commit_msg; done].
  intros i nm m Hi Hm. destruct i as [|[|i]]; [..|by destruct i].
  - injection Hi as <-. injection Hm as <-. vm_compute. split_and!; reflexivity.
  - injection Hi as <-. injection Hm as <-. vm_compute. split_and!; reflexivity.
Qed.

Lemma sample_staged_only : staged_only (batch_id commit_msg) server_staged server_end.
Proof.
  intros id Hid. unfold staged_at, server_staged, server_end. cbn [staged].
  rewrite lookup_empty, lookup_insert_ne; [by rewrite lookup_empty|]. intros <-. by apply Hid.
Qed.

Theorem seam_refines_contract_witness :
  at_one_instant eq (publishBatch "OI_ns" [counter_msg; record_msg]) ∅ None (append ∅ "OI_ns" [counter_msg; record_msg]).
Proof.
  assert (Hh : ExpectedLastSubjSeqHeader <> orderedHdrBatchID /\ ExpectedLastSubjSeqHeader <> orderedHdrBatchSeq /\
    ExpectedLastSubjSeqHeader <> orderedHdrBatchCommit) by (vm_compute; repeat split; discriminate).
  assert (Hargs : seam_args sample_owner (publishBatch "OI_ns" [counter_msg; record_msg]))
    by (split; [constructor; [by split|constructor; [by split|constructor]]|done]).
  pose proof (seam_refines_contract sample_nonce sample_owner 0 eq Hh
    (publishBatch "OI_ns" [counter_msg; record_msg]) _ server_start eq_refl Hargs ltac:(done)) as H.
  destruct sample_ack_ok as (ack & Hack & Herr & Hsize).
  (* the counter, the staged member, the committing request *)
  destruct (H server_start ltac:(split_and!; done) 1%N server_drawn ltac:(split; done)) as [_ H1].
  destruct (H1 server_drawn ltac:(split_and!; done) None server_staged) as [_ H2].
  { split; [done|]. split; [done|]. right. vm_compute. reflexivity. }
  destruct (H2 server_staged ltac:(split_and!; done) (Ok sample_ack) server_end) as [_ H3].
  { split; [done|]. split; [done|]. split; [apply sample_staged_only|]. split; [done|].
    rewrite Hack, Herr. exists "OI_ns", [counter_msg; record_msg].
    split; [exact sample_complete|]. split; [constructor; [done|constructor; [done|constructor]]|reflexivity]. }
  rewrite Hack in H3. unfold classifyOrderedBatchAck in H3. rewrite Herr, Hsize in H3.
  exact (H3 server_end ltac:(split_and!; done)).
Defined.
End sample.

End SeamProps.
