(* ===== verification/OrderedSpec.v ===== *)
(** * The abstract ordered index of one namespace.

    What the mutating half of [storage.OrderedIndex] promises, as four pure functions over
    a counter per order scope and a record per identity, with the precedence of the
    contract written out; then what any history of successful operations guarantees:
    orders are dense, unique and never reused; identity, ranking scope and order are
    immutable; revisions advance; a tombstone is final. *)

From S2P Require Import Prelude GoText Storage OrderedCodec Prog OrderedStore.
Open Scope stdpp_scope.
Import Codec Store.

Module Spec.

(** Counters and records by the subjects that address them. *)
Record index := { counters : gmap string N; records : gmap string OrderedRecord }.

Definition empty_index : index := {| counters := ∅; records := ∅ |}.

(** The last order the scope of a counter subject has allocated. *)
Definition last_order (x : index) (counter : string) : N := default 0%N (counters x !! counter).

(** The Go types of the caller's rank and due time. *)
Definition typed_args (rank : Rank) (due : Due) : Prop :=
  (DueStateOf due < 256)%N /\ i64 (UnixMillis due) /\ i64 (RankVal rank).

Section spec.
Context {S : Storage}.

Definition put (x : index) (subj : string) (r : OrderedRecord) : index :=
  {| counters := counters x; records := <[subj := r]> (records x) |}.

Definition allocate (x : index) (counter subj : string) (r : OrderedRecord) : index :=
  {| counters := <[counter := Order r]> (counters x); records := <[subj := r]> (records x) |}.

Definition spec_get (x : index) (id : OrderedID) : res OrderedRecord :=
  match orderedLocation id with
  | Err e => Err e
  | Ok (_, _, record) =>
      match records x !! record with
      | None => Err (OrderedRecordNotFoundError id)
      | Some r => Ok r
      end
  end.

Definition spec_create (x : index) (id : OrderedID) (rks : string) (value : option string)
    (rank : Rank) (due : Due) : res (OrderedRecord * bool) * index :=
  match orderedLocation id with
  | Err e => (Err e, x)
  | Ok (_, counter, record) =>
      match records x !! record with
      | Some r => (Ok (r, false), x)
      | None =>
          match (guard? ValidateName rks; guard? ValidateOrderedValue value; guard? ValidateDue due; Ok tt) with
          | Err e => (Err e, x)
          | Ok _ =>
              let last := last_order x counter in
              if (last =? MaxUint64)%N then (Err (OrderedOrderExhaustedError id last), x)
              else
                let r := new_record id rks value rank due last in
                match ValidateOrderedRecord r with
                | Some e => (Err e, x)
                | None => (Ok (r, true), allocate x counter record r)
                end
          end
      end
  end.

(** The revision compare-and-swap both revising operations share. *)
Definition spec_revise (x : index) (id : OrderedID) (record : string) (cur next : OrderedRecord)
    (expected : N) : res OrderedRecord * index :=
  if negb (Revision cur =? expected)%N then
    (Err (OrderedRevisionConflictError id expected (Revision cur)), x)
  else if (Revision cur =? MaxUint64)%N then (Err (OrderedRevisionExhaustedError id (Revision cur)), x)
  else match ValidateOrderedRecord next with
       | Some e => (Err e, x)
       | None => (Ok next, put x record next)
       end.

Definition spec_update (x : index) (id : OrderedID) (expected : N) (value : option string)
    (rank : Rank) (due : Due) : res OrderedRecord * index :=
  match orderedLocation id with
  | Err e => (Err e, x)
  | Ok (_, _, record) =>
      match records x !! record with
      | None => (Err (OrderedRecordNotFoundError id), x)
      | Some cur =>
          if Deleted cur then (Err (OrderedDeletedError id), x)
          else match (guard? ValidateOrderedValue value; guard? ValidateDue due; Ok tt) with
               | Err e => (Err e, x)
               | Ok _ => spec_revise x id record cur (updated cur value rank due) expected
               end
      end
  end.

Definition spec_delete (x : index) (id : OrderedID) (expected : N) : res OrderedRecord * index :=
  match orderedLocation id with
  | Err e => (Err e, x)
  | Ok (_, _, record) =>
      match records x !! record with
      | None => (Err (OrderedRecordNotFoundError id), x)
      | Some cur =>
          if Deleted cur then (Ok cur, x)
          else spec_revise x id record cur (tombstone cur) expected
      end
  end.

(** A successful operation on the namespace. *)
Inductive index_step (ns : string) (x : index) : index -> Prop :=
  | step_create id rks value rank due r x' :
      Namespace id = ns -> typed_args rank due ->
      spec_create x id rks value rank due = (Ok (r, true), x') -> index_step ns x x'
  | step_update id expected value rank due r x' :
      Namespace id = ns -> typed_args rank due ->
      spec_update x id expected value rank due = (Ok r, x') -> index_step ns x x'
  | step_delete id expected r x' :
      Namespace id = ns -> spec_delete x id expected = (Ok r, x') -> index_step ns x x'.

(** ** The two shapes a step takes *)

Inductive change (ns : string) (x : index) : index -> Prop :=
  | change_none : change ns x x
  | change_create id counter record r :
      Namespace id = ns -> ID r = id -> Revision r = 1%N -> Deleted r = false ->
      orderedCounterSubject ns (OrderingScope id) = Ok counter -> orderedRecordSubject id = Ok record ->
      records x !! record = None -> last_order x counter <> MaxUint64 ->
      Order r = add64 (last_order x counter) 1 -> ValidateOrderedRecord r = None ->
      (DueStateOf (DueOf r) < 256)%N -> i64 (UnixMillis (DueOf r)) -> i64 (RankVal (RankOf r)) ->
      change ns x (allocate x counter record r)
  | change_revise record cur next :
      records x !! record = Some cur -> Deleted cur = false -> Revision cur <> MaxUint64 ->
      ID next = ID cur -> RankingScope next = RankingScope cur -> Order next = Order cur ->
      Revision next = add64 (Revision cur) 1 -> ValidateOrderedRecord next = None ->
      (DueStateOf (DueOf next) < 256)%N -> i64 (UnixMillis (DueOf next)) -> i64 (RankVal (RankOf next)) ->
      change ns x (put x record next).

Lemma orderedLocation_Ok id spec counter record :
  orderedLocation id = Ok (spec, counter, record) ->
  ValidateOrderedID id = None /\ orderedStreamName (Namespace id) = Ok (stream spec) /\
  orderedSubjectFilter (Namespace id) = Ok (subjectFilter spec) /\
  orderedCounterSubject (Namespace id) (OrderingScope id) = Ok counter /\
  orderedRecordSubject id = Ok record.
Proof.
  unfold orderedLocation. intros H. repeat (case_match; try done). simplify_eq. done.
Qed.

Lemma spec_revise_change ns x id record cur next expected r x' :
  records x !! record = Some cur -> Deleted cur = false ->
  ID next = ID cur -> RankingScope next = RankingScope cur -> Order next = Order cur ->
  Revision next = add64 (Revision cur) 1 ->
  (DueStateOf (DueOf next) < 256)%N -> i64 (UnixMillis (DueOf next)) -> i64 (RankVal (RankOf next)) ->
  spec_revise x id record cur next expected = (Ok r, x') -> change ns x x' /\ r = next.
Proof.
  unfold spec_revise. intros ????????? H.
  destruct (negb _); [done|]. destruct (N.eqb_spec (Revision cur) MaxUint64); [done|].
  destruct (ValidateOrderedRecord next) eqn:Ev; [done|]. injection H as <- <-.
  split; [|done]. by eapply change_revise.
Qed.
Context {L : StorageLaws S}.

Lemma index_step_change ns x x' : index_step ns x x' -> change ns x x'.
Proof.
  intros [id rks value rank due r x1 Hns Ht H|id expected value rank due r x1 Hns Ht H
         |id expected r x1 Hns H]; [destruct Ht as (?&?&?)..|].
  - unfold spec_create in H. destruct (orderedLocation id) as [[[spec counter] record]|] eqn:El; [|done].
    apply orderedLocation_Ok in El as (_&_&_&Hc&Hr).
    destruct (records x !! record) eqn:Er; [done|].
    repeat (case_match; try done). injection H as <- <-. subst ns.
    eapply change_create; try done. by apply N.eqb_neq.
  - unfold spec_update in H. destruct (orderedLocation id) as [[[spec counter] record]|] eqn:El; [|done].
    destruct (records x !! record) as [cur|] eqn:Er; [|done].
    destruct (Deleted cur) eqn:Ed; [done|]. destruct (guard? _; _); [|done].
    by eapply spec_revise_change in H as [H _].
  - unfold spec_delete in H. destruct (orderedLocation id) as [[[spec counter] record]|] eqn:El; [|done].
    destruct (records x !! record) as [cur|] eqn:Er; [|done].
    destruct (Deleted cur) eqn:Ed; [injection H as <- <-; constructor|].
    eapply spec_revise_change in H as [H _]; try done; [|split; discriminate..].
    apply NotDue_uint8.
Qed.

(** ** The invariant of an index *)

Record index_inv (ns : string) (x : index) : Prop := {
  inv_record s r : records x !! s = Some r ->
    orderedRecordSubject (ID r) = Ok s /\ Namespace (ID r) = ns /\
    ValidateOrderedRecord r = None /\ typed_record r;
  (** the counter of a record's scope has reached its order *)
  inv_bound s r counter : records x !! s = Some r ->
    orderedCounterSubject ns (OrderingScope (ID r)) = Ok counter ->
    (1 <= Order r <= last_order x counter)%N;
  inv_unique s r s' r' : records x !! s = Some r -> records x !! s' = Some r' ->
    OrderingScope (ID r) = OrderingScope (ID r') -> Order r = Order r' -> s = s';
  inv_dense os counter k : orderedCounterSubject ns os = Ok counter ->
    (1 <= k <= last_order x counter)%N ->
    exists s r, records x !! s = Some r /\ OrderingScope (ID r) = os /\ Order r = k;
  inv_u64 counter : u64 (last_order x counter) }.

Lemma empty_inv ns : index_inv ns empty_index.
Proof.
  assert (E : forall s : string, records empty_index !! s = None) by (intros; apply lookup_empty).
  assert (E' : forall c, last_order empty_index c = 0%N) by done.
  split; intros *; rewrite ?E, ?E'; try done. lia.
Qed.

Lemma record_counter ns r : Namespace (ID r) = ns -> ValidateOrderedRecord r = None ->
  exists counter, orderedCounterSubject ns (OrderingScope (ID r)) = Ok counter.
Proof.
  intros <- (Hns & Hos & _)%valid_record_names.
  unfold orderedCounterSubject, orderedNamespacePrefix. rewrite Hns, Hos. eauto.
Qed.

Lemma last_order_allocate x counter counter' record r :
  last_order (allocate x counter record r) counter' =
  if decide (counter' = counter) then Order r else last_order x counter'.
Proof.
  unfold last_order. cbn. case_decide; [subst; by rewrite lookup_insert_eq|by rewrite lookup_insert_ne].
Qed.

Lemma add64_succ n : u64 n -> n <> MaxUint64 -> add64 n 1 = (n + 1)%N.
Proof. unfold u64, two64, MaxUint64. intros. apply add64_small. unfold u64, two64. lia. Qed.

Lemma create_inv ns x id counter record r :
  index_inv ns x -> Namespace id = ns -> ID r = id -> Revision r = 1%N ->
  orderedCounterSubject ns (OrderingScope id) = Ok counter -> orderedRecordSubject id = Ok record ->
  records x !! record = None -> Order r = (last_order x counter + 1)%N -> u64 (Order r) ->
  ValidateOrderedRecord r = None ->
  (DueStateOf (DueOf r) < 256)%N -> i64 (UnixMillis (DueOf r)) -> i64 (RankVal (RankOf r)) ->
  index_inv ns (allocate x counter record r).
Proof.
  intros Hinv Hns Hid Hrev Hc Hr Hx Ho Hu Hv Hds Hdm Hrv.
  assert (Hscope : forall c os, orderedCounterSubject ns os = Ok c -> c = counter -> os = OrderingScope id).
  { intros c os Hc' ->. by eapply counter_subject_inj. }
  assert (Hlast : forall c, (last_order x c <= last_order (allocate x counter record r) c)%N).
  { intros c. rewrite last_order_allocate. case_decide; [subst; lia|done]. }
  assert (Hold : forall s' r', records x !! s' = Some r' ->
    OrderingScope (ID r') = OrderingScope id -> (Order r' <= last_order x counter)%N).
  { intros s' r' Hs' Hos. apply (inv_bound _ _ Hinv s' r' counter Hs'). by rewrite Hos. }
  split.
  - intros s r0. cbn. intros [[<- <-]|[? ?]]%lookup_insert_Some; [|by apply (inv_record _ _ Hinv)].
    rewrite Hid. split_and!; try done. split_and!; try done. by rewrite Hrev.
  - intros s r0 c. cbn. intros [[<- <-]|[_ H0]]%lookup_insert_Some H1.
    + rewrite Hid, Hc in H1. injection H1 as <-. rewrite last_order_allocate, decide_True by done. lia.
    + pose proof (inv_bound _ _ Hinv s r0 c H0 H1). pose proof (Hlast c). lia.
  - intros s r0 s' r1. cbn.
    intros [[<- <-]|[_ H0]]%lookup_insert_Some [[<- <-]|[_ H1]]%lookup_insert_Some Hos Hord.
    + done.
    + pose proof (Hold s' r1 H1 ltac:(congruence)). lia.
    + pose proof (Hold s r0 H0 ltac:(congruence)). lia.
    + by eapply (inv_unique _ _ Hinv).
  - intros os c k Hos Hk. rewrite last_order_allocate in Hk. cbn [records allocate].
    destruct (decide (c = counter)) as [Ec|]; [destruct (decide (k = Order r)) as [->|]|].
    + rewrite (Hscope c os Hos Ec). exists record, r. rewrite lookup_insert_eq, Hid. done.
    + subst c. destruct (inv_dense _ _ Hinv os counter k Hos) as (s & r0 & Hs & ? & ?); [lia|].
      exists s, r0. rewrite lookup_insert_ne by congruence. done.
    + destruct (inv_dense _ _ Hinv os c k Hos Hk) as (s & r0 & Hs & ? & ?).
      exists s, r0. rewrite lookup_insert_ne by congruence. done.
  - intros c. rewrite last_order_allocate. case_decide; [done|apply (inv_u64 _ _ Hinv)].
Qed.

Lemma revise_inv ns x record cur next :
  index_inv ns x -> records x !! record = Some cur ->
  ID next = ID cur -> Order next = Order cur -> u64 (Revision next) -> ValidateOrderedRecord next = None ->
  (DueStateOf (DueOf next) < 256)%N -> i64 (UnixMillis (DueOf next)) -> i64 (RankVal (RankOf next)) ->
  index_inv ns (put x record next).
Proof.
  intros Hinv Hx Hid Ho Hu Hv Hds Hdm Hrv.
  (* every record of the new index has the identity and order of an old one *)
  assert (Hback : forall s r, records (put x record next) !! s = Some r -> exists r0,
    records x !! s = Some r0 /\ ID r = ID r0 /\ Order r = Order r0 /\ (r = r0 \/ s = record /\ r = next)).
  { intros s r. cbn. intros [[<- <-]|[? ?]]%lookup_insert_Some; eauto 10. }
  split.
  - intros s r (r0 & H0 & E1 & E2 & H3)%Hback.
    destruct (inv_record _ _ Hinv s r0 H0) as (? & ? & ? & Ht). rewrite E1.
    split_and!; try done; destruct H3 as [->|[-> ->]]; try done.
    destruct Ht as (?&?&?&?&?). split_and!; try done. by rewrite Ho; simplify_eq.
  - intros s r c (r0 & H0 & E1 & E2 & _)%Hback. rewrite E1, E2. by apply (inv_bound _ _ Hinv s).
  - intros s r s' r' (r0 & H0 & E1 & E2 & _)%Hback (r1 & H1 & E3 & E4 & _)%Hback.
    rewrite E1, E2, E3, E4. by apply (inv_unique _ _ Hinv).
  - intros os c k Hos Hk. destruct (inv_dense _ _ Hinv os c k Hos Hk) as (s & r0 & Hs & E1 & E2).
    cbn [records put]. destruct (decide (s = record)) as [->|].
    + exists record, next. rewrite lookup_insert_eq. split_and!; [done|congruence..].
    + exists s, r0. by rewrite lookup_insert_ne.
  - apply (inv_u64 _ _ Hinv).
Qed.

Lemma change_inv ns x x' : change ns x x' -> index_inv ns x -> index_inv ns x'.
Proof.
  intros [|id counter record r|record cur next]; [done|..]; intros Hinv.
  - assert (Ho : Order r = (last_order x counter + 1)%N).
    { rewrite <- add64_succ by (done || apply (inv_u64 _ _ Hinv)). done. }
    eapply create_inv; try done. replace (Order r) with (add64 (last_order x counter) 1). apply add64_u64.
  - eapply revise_inv; try done. replace (Revision next) with (add64 (Revision cur) 1). apply add64_u64.
Qed.

Lemma steps_inv ns x x' : rtc (index_step ns) x x' -> index_inv ns x -> index_inv ns x'.
Proof.
  induction 1 as [|x x1 x2 Hs _ IH]; [done|]. intros Hi. by eapply IH, change_inv; [apply index_step_change|].
Qed.

(** ** The life of one record *)

(** What a later state keeps of a record. *)
Definition evolves (r r' : OrderedRecord) : Prop :=
  ID r' = ID r /\ RankingScope r' = RankingScope r /\ Order r' = Order r /\
  (Revision r <= Revision r')%N /\ (Revision r' = Revision r -> r' = r) /\ (Deleted r = true -> r' = r).

Lemma evolves_refl r : evolves r r.
Proof. by split_and!. Qed.

Lemma evolves_same r r' : evolves r r' -> Revision r' = Revision r -> r' = r.
Proof. by intros (_ & _ & _ & _ & H & _). Qed.
Lemma evolves_le r r' : evolves r r' -> (Revision r <= Revision r')%N.
Proof. by intros (_ & _ & _ & H & _). Qed.

Lemma evolves_trans r1 r2 r3 : evolves r1 r2 -> evolves r2 r3 -> evolves r1 r3.
Proof.
  intros (A1&B1&C1&D1&E1&F1) (A2&B2&C2&D2&E2&F2). split_and!; try congruence; [lia|..].
  - intros H. rewrite E2; [apply E1; lia|lia].
  - intros Hd. rewrite F2; [by apply F1|]. by rewrite (F1 Hd).
Qed.

Lemma change_evolves ns x x' s r :
  change ns x x' -> index_inv ns x -> records x !! s = Some r ->
  exists r', records x' !! s = Some r' /\ evolves r r'.
Proof.
  intros [|id counter record rn|record cur next] Hinv Hr; cbn.
  - exists r. split; [done|apply evolves_refl].
  - exists r. rewrite lookup_insert_ne by congruence. split; [done|apply evolves_refl].
  - destruct (decide (s = record)) as [->|].
    + exists next. rewrite lookup_insert_eq. split; [done|]. assert (r = cur) as -> by congruence.
      destruct (inv_record _ _ Hinv _ _ Hr) as (_ & _ & _ & Hu & _).
      rewrite add64_succ in * by done. split_and!; try done; try congruence; lia.
    + exists r. rewrite lookup_insert_ne by congruence. split; [done|apply evolves_refl].
Qed.

Lemma steps_evolves ns x x' s r :
  rtc (index_step ns) x x' -> index_inv ns x -> records x !! s = Some r ->
  exists r', records x' !! s = Some r' /\ evolves r r'.
Proof.
  intros H. revert r. induction H as [x|x x1 x2 Hs _ IH]; intros r Hinv Hr.
  - exists r. split; [done|apply evolves_refl].
  - apply index_step_change in Hs. destruct (change_evolves _ _ _ _ _ Hs Hinv Hr) as (r1 & H1 & He).
    destruct (IH r1) as (r2 & H2 & He2); [by eapply change_inv|done|].
    exists r2. split; [done|by eapply evolves_trans].
Qed.

Lemma steps_last_order ns x x' c :
  rtc (index_step ns) x x' -> index_inv ns x -> (last_order x c <= last_order x' c)%N.
Proof.
  induction 1 as [|x x1 x2 Hs _ IH]; [done|]. intros Hinv. apply index_step_change in Hs.
  etrans; [|apply IH; by eapply change_inv]. destruct Hs as [|id counter record r|record cur next]; try done.
  rewrite last_order_allocate. case_decide; [subst|done].
  rewrite add64_succ in * by (done || apply (inv_u64 _ _ Hinv)). lia.
Qed.

(** ** Which operation a transition of one record is *)

Lemma spec_create_Ok x id rks value rank due r x' :
  spec_create x id rks value rank due = (Ok (r, true), x') ->
  exists spec counter record, orderedLocation id = Ok (spec, counter, record) /\
    records x !! record = None /\ x' = allocate x counter record r /\
    r = new_record id rks value rank due (last_order x counter).
Proof.
  unfold spec_create. intros H. destruct (orderedLocation id) as [[[spec counter] record]|]; [|done].
  destruct (records x !! record) eqn:Er; [done|]. destruct (guard? _; _); [|done].
  destruct (_ =? _)%N; [done|]. destruct (ValidateOrderedRecord _); [done|].
  injection H as <- <-. by exists spec, counter, record.
Qed.

Lemma spec_revise_Ok x id record cur next expected r x' :
  spec_revise x id record cur next expected = (Ok r, x') ->
  Revision cur = expected /\ r = next /\ x' = put x record next.
Proof.
  unfold spec_revise. intros H. destruct (N.eqb_spec (Revision cur) expected); [|done].
  cbn [negb] in H. destruct (_ =? _)%N; [done|]. destruct (ValidateOrderedRecord _); [done|].
  by injection H as <- <-.
Qed.

(** The identity only appears in errors. *)
Lemma spec_revise_id x id id' record cur next expected r x' :
  spec_revise x id record cur next expected = (Ok r, x') ->
  spec_revise x id' record cur next expected = (Ok r, x').
Proof.
  unfold spec_revise. destruct (negb _); [done|]. destruct (_ =? _)%N; [done|].
  by destruct (ValidateOrderedRecord _).
Qed.

Lemma spec_update_Ok x id expected value rank due r x' :
  spec_update x id expected value rank due = (Ok r, x') ->
  exists spec counter record cur, orderedLocation id = Ok (spec, counter, record) /\
    records x !! record = Some cur /\ Deleted cur = false /\
    ValidateOrderedValue value = None /\ ValidateDue due = None /\
    spec_revise x id record cur (updated cur value rank due) expected = (Ok r, x').
Proof.
  unfold spec_update. intros H. destruct (orderedLocation id) as [[[spec counter] record]|]; [|done].
  destruct (records x !! record) as [cur|] eqn:Er; [|done]. destruct (Deleted cur) eqn:Ed; [done|].
  destruct (ValidateOrderedValue value) eqn:Ev; [done|]. destruct (ValidateDue due) eqn:Edue; [done|].
  by exists spec, counter, record, cur.
Qed.

Lemma spec_delete_Ok x id expected r x' :
  spec_delete x id expected = (Ok r, x') ->
  exists spec counter record cur, orderedLocation id = Ok (spec, counter, record) /\
    records x !! record = Some cur /\
    ((Deleted cur = true /\ r = cur /\ x' = x) \/
     (Deleted cur = false /\ spec_revise x id record cur (tombstone cur) expected = (Ok r, x'))).
Proof.
  unfold spec_delete. intros H. destruct (orderedLocation id) as [[[spec counter] record]|]; [|done].
  destruct (records x !! record) as [cur|] eqn:Er; [|done].
  exists spec, counter, record, cur. split_and!; [done..|].
  destruct (Deleted cur) eqn:Ed; [injection H as <- <-; by left|by right].
Qed.

Lemma create_step ns x x' s r :
  index_step ns x x' -> records x !! s = None -> records x' !! s = Some r ->
  Revision r = 1%N /\
  spec_create x (ID r) (RankingScope r) (Value r) (RankOf r) (DueOf r) = (Ok (r, true), x').
Proof.
  intros [id rks value rank due r0 x1 _ _ H|id expected value rank due r0 x1 _ _ H|id expected r0 x1 _ H] Hs Hs'.
  - pose proof H as (sp & c & rec & _ & _ & -> & Er)%spec_create_Ok. cbn in Hs'.
    apply lookup_insert_Some in Hs' as [[<- <-]|[_ ?]]; [|congruence].
    subst r0. split; [done|exact H].
  - apply spec_update_Ok in H as (sp & c & rec & cur & _ & Hc & _ & _ & _ & (_ & _ & ->)%spec_revise_Ok).
    cbn in Hs'. apply lookup_insert_Some in Hs' as [[-> _]|[_ ?]]; congruence.
  - apply spec_delete_Ok in H as (sp & c & rec & cur & _ & Hc & [(_ & _ & ->)|(_ & (_ & _ & ->)%spec_revise_Ok)]);
      [congruence|]. cbn in Hs'. apply lookup_insert_Some in Hs' as [[-> _]|[_ ?]]; congruence.
Qed.

(** A record that changed was updated, or deleted, at its current revision. *)
Lemma revise_step ns x x' s cur r id spec counter :
  index_step ns x x' -> records x !! s = Some cur -> records x' !! s = Some r -> r <> cur ->
  orderedLocation id = Ok (spec, counter, s) ->
  if Deleted r then spec_delete x id (Revision cur) = (Ok r, x')
  else spec_update x id (Revision cur) (Value r) (RankOf r) (DueOf r) = (Ok r, x').
Proof.
  intros [id0 rks value rank due r0 x1 _ _ H|id0 expected value rank due r0 x1 _ _ H|id0 expected r0 x1 _ H]
    Hs Hs' Hne Hloc.
  - apply spec_create_Ok in H as (sp & c & rec & _ & Hn & -> & _). cbn in Hs'.
    apply lookup_insert_Some in Hs' as [[-> _]|[_ ?]]; congruence.
  - apply spec_update_Ok in H as (sp & c & rec & cur0 & _ & Hc & Hd & Hv & Hdue & H).
    pose proof H as (Hx & Er & Ex)%spec_revise_Ok. subst x1. cbn in Hs'.
    apply lookup_insert_Some in Hs' as [[-> Eq]|[_ ?]]; [|congruence].
    assert (cur0 = cur) as -> by congruence. rewrite <- Eq. cbn [Deleted updated]. rewrite Hd.
    unfold spec_update. rewrite Hloc, Hs, Hd. cbn [Value RankOf DueOf updated]. rewrite Hv, Hdue.
    rewrite Hx. apply spec_revise_id with id0. by rewrite Er in H.
  - apply spec_delete_Ok in H as (sp & c & rec & cur0 & _ & Hc & [(_ & _ & ->)|(Hd & H)]); [congruence|].
    pose proof H as (Hx & Er & Ex)%spec_revise_Ok. subst x1. cbn in Hs'.
    apply lookup_insert_Some in Hs' as [[-> Eq]|[_ ?]]; [|congruence].
    assert (cur0 = cur) as -> by congruence. rewrite <- Eq. cbn [Deleted tombstone].
    unfold spec_delete. rewrite Hloc, Hs, Hd.
    rewrite Hx. apply spec_revise_id with id0. by rewrite Er in H.
Qed.
End spec.

End Spec.
