(* ===== verification/OrderedRefine.v ===== *)
(** * The ordered store refines the abstract index, under any interleaving.

    [abs] reads the abstract index of a namespace off its stream's log.  Each call of a
    mutating method either leaves every ordered log alone or commits exactly one
    successful operation of the specification ([guar]); each method's reply is the
    specification's reply at an instant between its start and its return, or one of the
    explicit failures.  [Prog.pool_sound] then gives the statements for every schedule. *)

From S2P Require Import Prelude GoText Storage OrderedCodec Prog OrderedStore OrderedSpec.
Open Scope stdpp_scope.
Import Codec Store Spec.

Module Refine.

(** ** The current message of a log *)

Lemma foldl_seq subj l acc :
  (foldl (head_step subj) acc l).1 = (acc.1 + N.of_nat (length l))%N.
Proof. revert acc. induction l as [|m l IH]; intros acc; cbn; [lia|]. rewrite IH. cbn. lia. Qed.

Lemma head_snoc l m subj :
  head (l ++ [m]) subj = if decide (m.1 = subj) then (N.of_nat (length l) + 1, m.2)%N else head l subj.
Proof.
  unfold head. rewrite foldl_app. cbn. rewrite foldl_seq. by case_decide.
Qed.

Lemma head_lookup l subj q d :
  head l subj = (q, d) -> q <> 0%N -> l !! N.to_nat (q - 1) = Some (subj, d).
Proof.
  induction l as [|[s e] l IH] using rev_ind; [intros [= <- <-]; done|].
  rewrite head_snoc. cbn [fst snd]. destruct (decide (s = subj)) as [->|].
  - intros [= <- <-] _. rewrite N.add_sub, Nat2N.id, lookup_app_r, Nat.sub_diag by lia. done.
  - intros E Hq. apply lookup_app_l_Some. by apply IH.
Qed.

(** A sequence identifies its message: an unmoved fence means an unchanged payload. *)
Lemma head_stable l l' subj :
  l `prefix_of` l' -> (head l' subj).1 = (head l subj).1 -> head l' subj = head l subj.
Proof.
  intros Hp Hq. destruct (head l subj) as [q d] eqn:E, (head l' subj) as [q' d'] eqn:E'.
  cbn in Hq. subst q'. destruct (decide (q = 0%N)) as [->|Hne].
  - clear Hp. assert (H0 : forall k e, head k subj = (0%N, e) -> e = EmptyString).
    { intros k e. induction k as [|m k IH] using rev_ind; [by intros [= <-]|].
      rewrite head_snoc. destruct (decide _); [|done]. intros [= Hq _]. lia. }
    by rewrite (H0 _ _ E), (H0 _ _ E').
  - apply head_lookup in E; [|done]. apply head_lookup in E'; [|done].
    eapply prefix_lookup_Some in E; [|done]. congruence.
Qed.

Lemma head_absent l l' subj :
  l `prefix_of` l' -> (head l' subj).1 = 0%N -> (head l subj).1 = 0%N.
Proof.
  intros [k ->]. induction k as [|m k IH] using rev_ind; [by rewrite app_nil_r|].
  rewrite app_assoc, head_snoc. destruct (decide _); [|done]. cbn. lia.
Qed.

(** ** The abstract index of a log *)

Section refine.
Context {S : Storage} {L : StorageLaws S}.

Definition apply_msg (ns : string) (x : index) (m : string * string) : index :=
  match classifyOrderedSubject ns m.1 with
  | Ok orderedCounterSubjectFamily =>
      match decodeOrderedCounter m.2 with
      | Ok n => {| counters := <[m.1 := n]> (counters x); records := records x |}
      | Err _ => x
      end
  | Ok orderedRecordSubjectFamily =>
      match decodeOrderedRecord m.1 m.2 with Ok r => put x m.1 r | Err _ => x end
  | _ => x
  end.

Definition abs (ns : string) (l : log) : index := foldl (apply_msg ns) empty_index l.

(** Every message is one the store wrote: a counter, or a record under its own subject. *)
Definition msg_ok (ns : string) (m : string * string) : Prop :=
  (exists os n, orderedCounterSubject ns os = Ok m.1 /\ decodeOrderedCounter m.2 = Ok n) \/
  (exists r, decodeOrderedRecord m.1 m.2 = Ok r /\ Namespace (ID r) = ns).
Definition wf_log (ns : string) (l : log) : Prop := Forall (msg_ok ns) l.

Lemma classify_counter ns os s :
  orderedCounterSubject ns os = Ok s -> classifyOrderedSubject ns s = Ok orderedCounterSubjectFamily.
Proof.
  intros H. pose proof H as ->%counter_subject_family.
  unfold orderedCounterSubject, orderedNamespacePrefix in H.
  destruct (ValidateName ns) eqn:Hns; [done|].
  by rewrite classify_family, !decide_True by done.
Qed.

Lemma classify_record id s :
  orderedRecordSubject id = Ok s ->
  classifyOrderedSubject (Namespace id) s = Ok orderedRecordSubjectFamily.
Proof.
  intros H. pose proof H as ->%record_subject_family.
  unfold orderedRecordSubject, orderedNamespacePrefix in H.
  destruct (ValidateOrderedID id); [done|]. destruct (ValidateName (Namespace id)) eqn:Hns; [done|].
  by rewrite classify_family, decide_True by done.
Qed.

Lemma apply_counter ns os s d n x :
  orderedCounterSubject ns os = Ok s -> decodeOrderedCounter d = Ok n ->
  apply_msg ns x (s, d) = {| counters := <[s := n]> (counters x); records := records x |}.
Proof. intros Hs Hd. unfold apply_msg. cbn. by rewrite (classify_counter ns os s Hs), Hd. Qed.

Lemma apply_record ns s d r x :
  decodeOrderedRecord s d = Ok r -> Namespace (ID r) = ns -> apply_msg ns x (s, d) = put x s r.
Proof.
  intros Hd <-. pose proof Hd as (_ & _ & Hs)%decodeOrderedRecord_Ok.
  unfold apply_msg. cbn. by rewrite (classify_record _ _ Hs), Hd.
Qed.

Lemma abs_snoc ns l m : abs ns (l ++ [m]) = apply_msg ns (abs ns l) m.
Proof. unfold abs. by rewrite foldl_app. Qed.

(** The index holds what the current messages decode to. *)
Lemma abs_counter ns os c l :
  wf_log ns l -> orderedCounterSubject ns os = Ok c ->
  if decide ((head l c).1 = 0%N) then counters (abs ns l) !! c = None
  else exists n, decodeOrderedCounter (head l c).2 = Ok n /\ counters (abs ns l) !! c = Some n.
Proof.
  intros Hwf Hc. induction l as [|[s d] l IH] using rev_ind; [by rewrite decide_True|].
  apply Forall_app in Hwf as [Hwf [Hm _]%Forall_cons]. specialize (IH Hwf).
  rewrite head_snoc, abs_snoc. cbn [fst snd].
  destruct Hm as [(os' & n & Hs & Hd)|(r & Hd & Hns)]; cbn in Hs, Hd || cbn in Hd.
  - rewrite (apply_counter ns os' s d n) by done. cbn [counters].
    destruct (decide (s = c)) as [->|].
    + cbn [fst snd]. rewrite decide_False by lia. exists n. by rewrite lookup_insert_eq.
    + by rewrite lookup_insert_ne by done.
  - rewrite (apply_record ns s d r) by done. cbn [counters put].
    destruct (decide (s = c)) as [->|]; [|done]. exfalso.
    pose proof Hd as (_ & _ & Hr)%decodeOrderedRecord_Ok. by eapply counter_record_distinct.
Qed.

Lemma abs_record id s l :
  wf_log (Namespace id) l -> orderedRecordSubject id = Ok s ->
  if decide ((head l s).1 = 0%N) then records (abs (Namespace id) l) !! s = None
  else exists r, decodeOrderedRecord s (head l s).2 = Ok r /\ records (abs (Namespace id) l) !! s = Some r.
Proof.
  intros Hwf Hs. induction l as [|[s' d] l IH] using rev_ind; [by rewrite decide_True|].
  apply Forall_app in Hwf as [Hwf [Hm _]%Forall_cons]. specialize (IH Hwf).
  rewrite head_snoc, abs_snoc. cbn [fst snd].
  destruct Hm as [(os' & n & Hs' & Hd)|(r & Hd & Hns)]; cbn in Hs', Hd || cbn in Hd.
  - rewrite (apply_counter _ os' s' d n) by done. cbn [records].
    destruct (decide (s' = s)) as [->|]; [|done]. exfalso. by eapply counter_record_distinct.
  - rewrite (apply_record _ s' d r) by done. cbn [records put].
    destruct (decide (s' = s)) as [->|].
    + cbn [fst snd]. rewrite decide_False by lia. exists r. by rewrite lookup_insert_eq.
    + by rewrite lookup_insert_ne by done.
Qed.

(** ** Moves: what one call of one method may do to a namespace's log *)

Definition commits (ns : string) (l : log) (ms : list orderedMsg) : Prop :=
  Forall (msg_ok ns) (stored ms) /\
  index_step ns (abs ns l) (abs ns (l ++ stored ms)) /\
  NoDup (map subject ms) /\
  (* no message rewrites the state its record already has *)
  (forall id s, orderedRecordSubject id = Ok s -> s ∈ map subject ms ->
     records (abs ns l) !! s <> records (abs ns (l ++ stored ms)) !! s).

Definition moves (ns : string) (l l' : log) : Prop :=
  l' = l \/ exists ms, l' = l ++ stored ms /\ commits ns l ms.

(** A log the store wrote. *)
Definition good (ns : string) (l : log) : Prop := wf_log ns l /\ index_inv ns (abs ns l).

Lemma good_nil ns : good ns [].
Proof. split; [constructor|apply empty_inv]. Qed.

Lemma moves_prefix ns l l' : rtc (moves ns) l l' -> l `prefix_of` l'.
Proof.
  induction 1 as [|l l1 l2 [->|(ms & -> & _)] _ IH]; [done|done|].
  etrans; [|exact IH]. by apply prefix_app_r.
Qed.

Lemma moves_good ns l l' : rtc (moves ns) l l' -> good ns l -> good ns l'.
Proof.
  induction 1 as [|l l1 l2 [->|(ms & -> & Hm & Hs & _ & _)] _ IH]; [done|done|].
  intros [Hw Hi]. apply IH. split; [by apply Forall_app|].
  eapply change_inv; [by apply index_step_change|done].
Qed.

Lemma moves_steps ns l l' : rtc (moves ns) l l' -> rtc (index_step ns) (abs ns l) (abs ns l').
Proof.
  induction 1 as [|l l1 l2 [->|(ms & -> & _ & Hs & _)] _ IH]; [done|done|]. by eapply rtc_l.
Qed.

Lemma head_not_in l ms s : s ∉ map subject ms -> head (l ++ stored ms) s = head l s.
Proof.
  induction ms as [|m ms IH] using rev_ind; intros Hn; cbn; [by rewrite app_nil_r|].
  unfold stored. rewrite map_app, app_assoc. cbn. rewrite head_snoc. cbn [fst].
  rewrite map_app, elem_of_app in Hn. cbn in Hn. rewrite list_elem_of_singleton in Hn.
  rewrite decide_False by (intros <-; tauto). apply IH. tauto.
Qed.

(** A record either kept its message, or moved to a later revision. *)
Lemma record_moved ns l l' id s cur :
  rtc (moves ns) l l' -> good ns l -> orderedRecordSubject id = Ok s ->
  records (abs ns l) !! s = Some cur ->
  exists cur', records (abs ns l') !! s = Some cur' /\ evolves cur cur' /\
    ((head l' s = head l s /\ cur' = cur) \/ (Revision cur < Revision cur')%N).
Proof.
  intros Hm Hg Hs Hc. revert cur Hc. induction Hm as [l|l l1 l2 [->|(ms & -> & Hms)] Hm IH]; intros cur Hc.
  - exists cur. split_and!; [done|apply evolves_refl|by left].
  - by apply IH.
  - pose proof Hms as (Hok & Hst & _ & Hne).
    assert (Hg1 : good ns (l ++ stored ms)) by (apply (moves_good ns l); [|done]; apply rtc_once; right; eauto).
    destruct Hg as [Hw Hi].
    destruct (change_evolves _ _ _ _ _ (index_step_change _ _ _ Hst) Hi Hc) as (c1 & H1 & He1).
    destruct (IH Hg1 c1 H1) as (c2 & H2 & He2 & Hd).
    exists c2. split_and!; [done|by eapply evolves_trans|].
    assert (Hle : (Revision cur <= Revision c1 /\ Revision c1 <= Revision c2)%N)
      by (split; by apply evolves_le).
    destruct (decide (Revision c1 = Revision cur)) as [E|]; [|right; lia].
    assert (c1 = cur) as -> by (by apply evolves_same). destruct Hd as [[Hd ->]|]; [|right; lia].
    left. split; [|done]. rewrite Hd. apply head_not_in. intros Hin.
    by apply (Hne id s Hs Hin); rewrite Hc, H1.
Qed.

(** An identity that appears at its first revision was created by one move, and a record
    found one revision later was revised by one move. *)
Lemma find_create ns l l' s r :
  rtc (moves ns) l l' -> good ns l -> records (abs ns l) !! s = None ->
  records (abs ns l') !! s = Some r -> Revision r = 1%N ->
  exists m m', rtc (moves ns) l m /\ moves ns m m' /\ rtc (moves ns) m' l' /\
    spec_create (abs ns m) (ID r) (RankingScope r) (Value r) (RankOf r) (DueOf r)
      = (Ok (r, true), abs ns m').
Proof.
  intros Hm Hg Hn Hr H1. induction Hm as [l|l l1 l2 Hmv Hm IH]; [congruence|].
  assert (Hg1 : good ns l1) by (apply (moves_good ns l); [by apply rtc_once|done]).
  destruct (records (abs ns l1) !! s) as [r1|] eqn:E1.
  - destruct Hmv as [->|(ms & -> & Hms)]; [congruence|].
    destruct (create_step _ _ _ _ _ (proj1 (proj2 Hms)) Hn E1) as [Hr1 Hsp].
    destruct (steps_evolves _ _ _ s r1 (moves_steps _ _ _ Hm) (proj2 Hg1) E1) as (r' & E' & He).
    assert (r' = r) as -> by congruence. assert (r = r1) as -> by (apply evolves_same; congruence).
    exists l, (l ++ stored ms). split_and!; [constructor|right; eauto|done|done].
  - destruct (IH Hg1 eq_refl Hr) as (m & m' & Ha & Hb & Hc & Hd). exists m, m'.
    split_and!; try done. by eapply rtc_l.
Qed.

Lemma find_revise ns l l' s cur r id spec counter :
  rtc (moves ns) l l' -> good ns l -> records (abs ns l) !! s = Some cur ->
  records (abs ns l') !! s = Some r -> Revision r = (Revision cur + 1)%N ->
  orderedLocation id = Ok (spec, counter, s) ->
  exists m m', rtc (moves ns) l m /\ moves ns m m' /\ rtc (moves ns) m' l' /\
    (if Deleted r then spec_delete (abs ns m) id (Revision cur) = (Ok r, abs ns m')
     else spec_update (abs ns m) id (Revision cur) (Value r) (RankOf r) (DueOf r) = (Ok r, abs ns m')).
Proof.
  intros Hm Hg Hn Hr H1 Hloc. induction Hm as [l|l l1 l2 Hmv Hm IH].
  { assert (r = cur) as -> by congruence. lia. }
  assert (Hg1 : good ns l1) by (apply (moves_good ns l); [by apply rtc_once|done]).
  pose proof Hloc as (_ & _ & _ & _ & Hs)%orderedLocation_Ok.
  destruct (steps_evolves _ _ _ s cur (moves_steps _ _ _ (rtc_once _ _ Hmv)) (proj2 Hg) Hn) as (r1 & E1 & He).
  destruct (decide (Revision r1 = Revision cur)) as [E|Hne].
  - assert (r1 = cur) as -> by (by apply evolves_same).
    destruct (IH Hg1 E1 Hr) as (m & m' & Ha & Hb & Hc & Hd). exists m, m'.
    split_and!; try done. by eapply rtc_l.
  - destruct (steps_evolves _ _ _ s r1 (moves_steps _ _ _ Hm) (proj2 Hg1) E1) as (r' & E' & He').
    assert (r' = r) as -> by congruence.
    assert (Hle : (Revision cur <= Revision r1 /\ Revision r1 <= Revision r)%N)
      by (split; by apply evolves_le).
    assert (r = r1) as -> by (apply evolves_same; [done|lia]).
    destruct Hmv as [->|(ms & -> & Hms)]; [congruence|].
    exists l, (l ++ stored ms). split_and!; [constructor|right; eauto|done|].
    eapply revise_step; [apply Hms|done|done| |done]. intros ->. lia.
Qed.

(** ** What a fenced write commits *)

Lemma counter_value ns os c l :
  good ns l -> orderedCounterSubject ns os = Ok c ->
  if decide ((head l c).1 = 0%N) then last_order (abs ns l) c = 0%N
  else decodeOrderedCounter (head l c).2 = Ok (last_order (abs ns l) c).
Proof.
  intros [Hw _] Hc. pose proof (abs_counter ns os c l Hw Hc) as H. unfold last_order.
  destruct (decide _) as [_|_]; [by rewrite H|]. by destruct H as (n & -> & ->).
Qed.

(** An unmoved counter fence means an unmoved counter. *)
Lemma counter_stable ns os c l l' :
  good ns l -> rtc (moves ns) l l' -> orderedCounterSubject ns os = Ok c ->
  (head l' c).1 = (head l c).1 -> last_order (abs ns l') c = last_order (abs ns l) c.
Proof.
  intros Hg Hm Hc Hq. pose proof (moves_good _ _ _ Hm Hg) as Hg'.
  pose proof (counter_value _ _ _ _ Hg Hc) as H. pose proof (counter_value _ _ _ _ Hg' Hc) as H'.
  rewrite (head_stable _ _ _ (moves_prefix _ _ _ Hm) Hq) in H'.
  destruct (decide _); congruence.
Qed.

Lemma record_value id s l :
  good (Namespace id) l -> orderedRecordSubject id = Ok s ->
  if decide ((head l s).1 = 0%N) then records (abs (Namespace id) l) !! s = None
  else exists r, decodeOrderedRecord s (head l s).2 = Ok r /\ records (abs (Namespace id) l) !! s = Some r.
Proof. intros [Hw _]. by apply abs_record. Qed.

Lemma encoded_ok rec payload s :
  encodeOrderedRecord rec = Ok payload -> typed_record rec -> orderedRecordSubject (ID rec) = Ok s ->
  decodeOrderedRecord s payload = Ok rec /\ ValidateOrderedRecord rec = None.
Proof.
  intros H Ht Hs. split; [by apply (decode_encodeOrderedRecord rec)|].
  unfold encodeOrderedRecord in H. by destruct (ValidateOrderedRecord rec).
Qed.

Lemma commits_create id spec counter record rks value rank due l q payload :
  let ns := Namespace id in
  let rec := new_record id rks value rank due (last_order (abs ns l) counter) in
  orderedLocation id = Ok (spec, counter, record) -> good ns l -> typed_args rank due ->
  ValidateName rks = None -> ValidateOrderedValue value = None -> ValidateDue due = None ->
  last_order (abs ns l) counter <> MaxUint64 -> encodeOrderedRecord rec = Ok payload ->
  let ms := [{| subject := counter; data := encodeOrderedCounter (Order rec); expectLastSeq := q |};
             {| subject := record; data := payload; expectLastSeq := 0 |}] in
  fences_hold l ms ->
  commits ns l ms /\
  spec_create (abs ns l) id rks value rank due = (Ok (rec, true), abs ns (l ++ stored ms)).
Proof.
  intros ns rec Hloc Hg (Hd1 & Hd2 & Hd3) Hn Hv Hdue Hmax Henc ms Hf.
  pose proof Hloc as (_ & _ & _ & Hc & Hr)%orderedLocation_Ok.
  apply Forall_cons in Hf as [Hf1 [Hf2 _]%Forall_cons]. cbn in Hf1, Hf2.
  assert (Hu : u64 (last_order (abs ns l) counter)) by apply (inv_u64 _ _ (proj2 Hg)).
  assert (Hord : decodeOrderedCounter (encodeOrderedCounter (Order rec)) = Ok (Order rec)).
  { apply decode_counter; [apply add64_u64|]. cbn. rewrite add64_succ by done. lia. }
  assert (Ht : typed_record rec) by (split_and!; try done; apply add64_u64).
  destruct (encoded_ok rec payload record Henc Ht Hr) as [Hdec Hval].
  assert (Habsent : records (abs ns l) !! record = None).
  { pose proof (record_value id record l Hg Hr) as H. by rewrite decide_True in H. }
  assert (Habs : abs ns (l ++ stored ms) = allocate (abs ns l) counter record rec).
  { change (l ++ stored ms) with (l ++ [(counter, encodeOrderedCounter (Order rec))] ++ [(record, payload)]).
    rewrite app_assoc, !abs_snoc. rewrite (apply_counter ns _ _ _ _ _ Hc Hord).
    by rewrite (apply_record ns _ _ _ _ Hdec). }
  assert (Hspec : spec_create (abs ns l) id rks value rank due = (Ok (rec, true), abs ns (l ++ stored ms))).
  { unfold spec_create. rewrite Hloc, Habsent, Hn, Hv, Hdue.
    destruct (N.eqb_spec (last_order (abs ns l) counter) MaxUint64); [done|].
    change (new_record _ _ _ _ _ _) with rec. by rewrite Hval, Habs. }
  split; [|done]. split_and!.
  - apply Forall_cons; split; [left; by exists (OrderingScope id), (Order rec)|].
    apply Forall_singleton. right. by exists rec.
  - eapply step_create; done.
  - cbn. apply NoDup_cons. split; [|apply NoDup_singleton]. intros ->%list_elem_of_singleton.
    by eapply counter_record_distinct.
  - intros id' s Hs Hin. rewrite Habs. cbn in Hin. cbn [records allocate].
    apply elem_of_cons in Hin as [->|Hin%list_elem_of_singleton].
    + exfalso. by eapply counter_record_distinct.
    + subst s. by rewrite Habsent, lookup_insert_eq.
Qed.

(** A revision compare-and-swap, for either revising operation [op]. *)
Lemma commits_revise id spec counter record l cur next q payload op :
  let ns := Namespace id in
  orderedLocation id = Ok (spec, counter, record) -> good ns l ->
  records (abs ns l) !! record = Some cur -> ID next = ID cur ->
  typed_record next -> Revision next <> Revision cur -> encodeOrderedRecord next = Ok payload ->
  let ms := [{| subject := record; data := payload; expectLastSeq := q |}] in
  (ValidateOrderedRecord next = None -> op (abs ns l) = (Ok next, put (abs ns l) record next)) ->
  (forall x', op (abs ns l) = (Ok next, x') -> index_step ns (abs ns l) x') ->
  commits ns l ms /\ op (abs ns l) = (Ok next, abs ns (l ++ stored ms)).
Proof.
  intros ns Hloc Hg Hcur Hid Ht Hrev Henc ms Hop Hstep.
  destruct (inv_record _ _ (proj2 Hg) _ _ Hcur) as (Hs & Hns & _ & _).
  destruct (encoded_ok next payload record Henc Ht) as [Hdec Hval]; [by rewrite Hid|].
  assert (Habs : abs ns (l ++ stored ms) = put (abs ns l) record next).
  { cbn [stored map ms]. rewrite abs_snoc. rewrite (apply_record ns _ _ next); [done|done|by rewrite Hid]. }
  rewrite Habs. split; [|by apply Hop]. split_and!.
  - apply Forall_singleton. right. exists next. split; [done|by rewrite Hid].
  - rewrite Habs. by apply Hstep, Hop.
  - apply NoDup_singleton.
  - intros id' s Hs' Hin. rewrite Habs. cbn in Hin. apply list_elem_of_singleton in Hin as ->.
    cbn [records put]. rewrite Hcur, lookup_insert_eq. congruence.
Qed.
End refine.
End Refine.
