(* ===== verification/OrderedSafety.v ===== *)
(** * Linearizability of the mutating half, for every schedule and every failure.

    The calls of concurrently running methods interleave arbitrarily over the seam
    contract.  Every reply of a method is its specification's reply at one instant
    between its start and its return, or one of the failures listed in [failed]. *)

From S2P Require Import Prelude GoText Storage Names OrderedCodec Prog OrderedStore OrderedSpec OrderedRefine.
Open Scope stdpp_scope.
Import Names Codec Store Spec Refine.

Module Safety.

(** ** The methods *)

Inductive method :=
  | mGet (id : OrderedID)
  | mCreate (id : OrderedID) (rks : string) (value : option string) (rank : Rank) (due : Due)
  | mUpdate (id : OrderedID) (expected : N) (value : option string) (rank : Rank) (due : Due)
  | mDelete (id : OrderedID) (expected : N).

Definition method_id (m : method) : OrderedID :=
  match m with mGet id | mCreate id _ _ _ _ | mUpdate id _ _ _ _ | mDelete id _ => id end.

(** The Go types of the arguments. *)
Definition typed_method (m : method) : Prop :=
  match m with
  | mCreate _ _ _ rank due | mUpdate _ _ _ rank due => typed_args rank due
  | _ => True
  end.

(** One reply type for all four; the flag is [Create]'s [created]. *)
Definition unflagged (r : res OrderedRecord) : res (OrderedRecord * bool) :=
  match r with Ok x => Ok (x, false) | Err e => Err e end.

(** The same call, up to the identity's hash and a nil value. *)
Definition same_call {S : Storage} (m m' : method) : Prop :=
  orderedLocation (method_id m') = orderedLocation (method_id m) /\
  match m, m' with
  | mGet _, mGet _ => True
  | mCreate _ rks v rank due, mCreate _ rks' v' rank' due' =>
      rks' = rks /\ bytes_of v' = bytes_of v /\ rank' = rank /\ due' = due
  | mUpdate _ e v rank due, mUpdate _ e' v' rank' due' =>
      e' = e /\ bytes_of v' = bytes_of v /\ rank' = rank /\ due' = due
  | mDelete _ e, mDelete _ e' => e' = e
  | _, _ => False
  end.

Section safety.
Context {S : Storage} {L : StorageLaws S}.
Context (fault may_commit : error -> Prop) (retryBase : Z).

Definition method_prog (m : method) : M (res (OrderedRecord * bool)) :=
  match m with
  | mGet id => r <- Get id; Ret (unflagged r)
  | mCreate id rks value rank due => Create retryBase id rks value rank due
  | mUpdate id expected value rank due => r <- Update id expected value rank due; Ret (unflagged r)
  | mDelete id expected => r <- Delete id expected; Ret (unflagged r)
  end.

Definition method_spec (m : method) (x : index) : res (OrderedRecord * bool) * index :=
  match m with
  | mGet id => (unflagged (spec_get x id), x)
  | mCreate id rks value rank due => spec_create x id rks value rank due
  | mUpdate id expected value rank due =>
      let (r, x') := spec_update x id expected value rank due in (unflagged r, x')
  | mDelete id expected => let (r, x') := spec_delete x id expected in (unflagged r, x')
  end.

(** ** Rely and guarantee on the service *)

Inductive guar (b b' : backend) : Prop :=
  | guar_stutter : (forall s, log_of b' s = log_of b s) -> guar b b'
  | guar_commit ns st ms :
      orderedStreamName ns = Ok st -> commits ns (log_of b st) ms -> b' = append b st ms -> guar b b'.

Definition rely : backend -> backend -> Prop := rtc guar.

#[export] Instance rely_reflexive : Reflexive rely.
Proof. intros b. constructor. Qed.
#[export] Instance rely_transitive : Transitive rely.
Proof. intros b1 b2 b3 H1 H2. unfold rely in *. by etrans. Qed.

Definition good_backend (b : backend) : Prop :=
  forall ns st, orderedStreamName ns = Ok st -> good ns (log_of b st).

Lemma orderedStreamName_inj ns ns' st :
  orderedStreamName ns = Ok st -> orderedStreamName ns' = Ok st -> ns = ns'.
Proof.
  unfold orderedStreamName. destruct (ValidateName ns), (ValidateName ns'); try done.
  intros [= <-] [= H]. apply encodeStream_inj. by symmetry.
Qed.

Lemma log_of_append b st ms s :
  log_of (append b st ms) s = if decide (s = st) then log_of b st ++ stored ms else log_of b s.
Proof.
  unfold log_of at 1, append. case_decide; [subst; by rewrite lookup_insert_eq|by rewrite lookup_insert_ne].
Qed.

Lemma guar_moves ns st b b' :
  guar b b' -> orderedStreamName ns = Ok st -> moves ns (log_of b st) (log_of b' st).
Proof.
  intros [H|ns' st' ms Hst' Hc ->] Hst; [left; apply H|].
  rewrite log_of_append. destruct (decide (st = st')) as [->|]; [|by left].
  assert (ns' = ns) as -> by (by eapply orderedStreamName_inj). right. eauto.
Qed.

Lemma rely_moves ns st b b' :
  rely b b' -> orderedStreamName ns = Ok st -> rtc (moves ns) (log_of b st) (log_of b' st).
Proof.
  intros H Hst. induction H as [|b b1 b2 Hg _ IH]; [done|]. eapply rtc_l; [by apply guar_moves|done].
Qed.

Lemma rely_good b b' : rely b b' -> good_backend b -> good_backend b'.
Proof. intros H Hb ns st Hst. eapply moves_good; [by apply rely_moves|by apply Hb]. Qed.

Lemma publish_guar ns st ms b r b' :
  publish_contract fault may_commit b st ms r b' -> orderedStreamName ns = Ok st ->
  (fences_hold (log_of b st) ms -> commits ns (log_of b st) ms) -> guar b b'.
Proof.
  intros H Hst Hc. unfold publish_contract in H. destruct r as [e|].
  - destruct H as [_ H]. destruct (is_precondition e); [destruct H as [_ ->]; by left|].
    destruct H as [->|(_ & Hf & ->)]; [by left|]. right with ns st ms; auto.
  - destruct H as [Hf ->]. right with ns st ms; auto.
Qed.

(** ** Linearization *)

(** [op] replies [a] at one instant between [b0] and [b1], its effect being one move. *)
Definition lin {A} (ns st : string) (b0 b1 : backend) (op : index -> A * index) (a : A) : Prop :=
  exists l l', rtc (moves ns) (log_of b0 st) l /\ moves ns l l' /\ rtc (moves ns) l' (log_of b1 st) /\
    op (abs ns l) = (a, abs ns l').

Lemma lin_here {A} ns st b0 b b1 (op : index -> A * index) a :
  orderedStreamName ns = Ok st -> rely b0 b -> rely b b1 ->
  op (abs ns (log_of b st)) = (a, abs ns (log_of b st)) -> lin ns st b0 b1 op a.
Proof.
  intros Hst H0 H1 Hop. exists (log_of b st), (log_of b st).
  split_and!; [by apply rely_moves|by left|by apply rely_moves|done].
Qed.

Lemma lin_commit {A} ns st b0 b b1 ms (op : index -> A * index) a :
  orderedStreamName ns = Ok st -> rely b0 b -> rely (append b st ms) b1 -> commits ns (log_of b st) ms ->
  op (abs ns (log_of b st)) = (a, abs ns (log_of b st ++ stored ms)) -> lin ns st b0 b1 op a.
Proof.
  intros Hst H0 H1 Hc Hop. exists (log_of b st), (log_of b st ++ stored ms).
  split_and!; [by apply rely_moves|right; eauto| |done].
  apply (rely_moves ns st) in H1; [|done]. by rewrite log_of_append, decide_True in H1.
Qed.

Lemma lin_between {A} ns st b0 b b' b1 (op : index -> A * index) a m m' :
  orderedStreamName ns = Ok st -> rely b0 b -> rely b' b1 ->
  rtc (moves ns) (log_of b st) m -> moves ns m m' -> rtc (moves ns) m' (log_of b' st) ->
  op (abs ns m) = (a, abs ns m') -> lin ns st b0 b1 op a.
Proof.
  intros Hst H0 H1 Ha Hb Hc Hop. exists m, m'. split_and!; [|done| |done].
  - etrans; [by apply rely_moves|done].
  - etrans; [done|by apply rely_moves].
Qed.

(** ** The failures a method may report instead *)

Definition method_op (m : method) : option OrderedOperation :=
  match m with
  | mGet _ => None
  | mCreate _ _ _ _ _ => Some OrderedCreateOperation
  | mUpdate _ _ _ _ _ => Some OrderedUpdateOperation
  | mDelete _ _ => Some OrderedDeleteOperation
  end.

Inductive failed (m : method) (ns st counter : string) (b0 b1 : backend) : error -> Prop :=
  (** an error of the seam, passed on *)
  | failed_seam e : fault e -> failed m ns st counter b0 b1 e
  (** a write whose acknowledgement was lost and that the read-back did not settle *)
  | failed_ambiguous op id' c :
      method_op m = Some op -> orderedLocation id' = orderedLocation (method_id m) ->
      fault c -> is_ordered_ambiguous c = true ->
      failed m ns st counter b0 b1 (OrderedAmbiguousError op id' c)
  (** [Create] lost the counter race in all its attempts *)
  | failed_contention :
      method_op m = Some OrderedCreateOperation ->
      failed m ns st counter b0 b1 (OrderedContentionError (method_id m) (N.of_nat orderedCreateAttempts))
  (** [Create] found the scope's counter exhausted, possibly after a concurrent creator of
      the same identity took the last order *)
  | failed_exhausted l :
      method_op m = Some OrderedCreateOperation ->
      rtc (moves ns) (log_of b0 st) l -> rtc (moves ns) l (log_of b1 st) ->
      last_order (abs ns l) counter = MaxUint64 ->
      failed m ns st counter b0 b1 (OrderedOrderExhaustedError (method_id m) MaxUint64)
  (** the record [Create] would write violates the record contract *)
  | failed_candidate id rks value rank due last e :
      m = mCreate id rks value rank due ->
      ValidateOrderedRecord (new_record id rks value rank due last) = Some e ->
      failed m ns st counter b0 b1 e.

(** What a method promises about its reply [out], given the states at its start and return. *)
Definition method_post (m : method) (b0 : backend) (out : res (OrderedRecord * bool)) (b1 : backend) : Prop :=
  match orderedLocation (method_id m) with
  | Err e => out = Err e
  | Ok (spec, counter, _) =>
      let ns := Namespace (method_id m) in
      (exists m', same_call m m' /\ lin ns (stream spec) b0 b1 (method_spec m') out) \/
      (exists e, out = Err e /\ failed m ns (stream spec) counter b0 b1 e)
  end.

(** ** Reading *)

Notation WP := (wp (handle fault may_commit) rely guar).

(** Everything a method knows while it runs: where it works, and that the service is sound. *)
Context (id : OrderedID) (spec : orderedStreamSpec) (counter record : string).
Context (Hloc : orderedLocation id = Ok (spec, counter, record)).
Notation ns := (Namespace id).
Notation lg b := (log_of b (stream spec)).
Notation ix b := (abs ns (lg b)).

Lemma loc_stream : orderedStreamName ns = Ok (stream spec).
Proof. by apply orderedLocation_Ok in Hloc as (_ & ? & _). Qed.
Lemma loc_counter : orderedCounterSubject ns (OrderingScope id) = Ok counter.
Proof. by apply orderedLocation_Ok in Hloc as (_ & _ & _ & ? & _). Qed.
Lemma loc_record : orderedRecordSubject id = Ok record.
Proof. by apply orderedLocation_Ok in Hloc as (_ & _ & _ & _ & ?). Qed.

Lemma good_lg b : good_backend b -> good ns (lg b).
Proof. intros Hb. apply Hb, loc_stream. Qed.

(** The record at [record] has the same location as [id], whatever the hash did. *)
Lemma same_location x r : index_inv ns x -> records x !! record = Some r ->
  orderedLocation (ID r) = orderedLocation id.
Proof.
  intros Hi (Hs & Hns & Hv & _)%(inv_record _ _ Hi). pose proof loc_record as Hr.
  destruct (record_subject_scope _ _ _ Hs Hr) as [_ Hos].
  pose proof Hloc as (Hid & _)%orderedLocation_Ok.
  unfold orderedLocation in *. rewrite Hid in *. rewrite Hns, Hos, Hs, Hr.
  by apply ValidateOrderedRecord_id in Hv as [-> _].
Qed.

Lemma rely_refl b : rely b b. Proof. constructor. Qed.
Lemma rely_trans b1 b2 b3 : rely b1 b2 -> rely b2 b3 -> rely b1 b3.
Proof. apply transitivity. Qed.
Ltac chain := solve [eauto 6 using rely_trans].
Lemma guar_refl b : guar b b. Proof. by left. Qed.

Lemma wp_readRecord {B} (k : option (OrderedRecord * N) -> M (res B)) (Q : res B -> backend -> Prop) b :
  good_backend b ->
  (forall b1 e, rely b b1 -> fault e -> Q (Err e) b1) ->
  (forall b1, rely b b1 -> good_backend b1 -> records (ix b1) !! record = None -> WP (k None) Q b1) ->
  (forall b1 r, rely b b1 -> good_backend b1 -> records (ix b1) !! record = Some r ->
     WP (k (Some (r, (head (lg b1) record).1))) Q b1) ->
  WP (bind_res (readRecord spec record) k) Q b.
Proof.
  intros Hb Herr Hnone Hsome b1 Hr1 r b2 [-> Hread]. split; [apply guar_refl|].
  pose proof (rely_good _ _ Hr1 Hb) as Hb1.
  pose proof (record_value id record (lg b1) (good_lg _ Hb1) loc_record) as Hv.
  destruct r as [[q d]|e]; cbn.
  - rewrite <- Hread in Hv. cbn in Hv. destruct (N.eqb_spec q 0) as [Hq|Hq].
    + rewrite decide_True in Hv by done. by apply Hnone.
    + rewrite decide_False in Hv by done. destruct Hv as (rec & Hd & Hx). rewrite Hd. cbn.
      pose proof (Hsome b1 rec Hr1 Hb1 Hx) as H. rewrite <- Hread in H. exact H.
  - intros b3 H3. apply Herr; [by etrans|done].
Qed.

Lemma record_stable l l' :
  good ns l -> rtc (moves ns) l l' -> (head l' record).1 = (head l record).1 ->
  records (abs ns l') !! record = records (abs ns l) !! record.
Proof.
  intros Hg Hm Hq. pose proof (moves_good _ _ _ Hm Hg) as Hg'.
  pose proof (record_value id record l Hg loc_record) as H.
  pose proof (record_value id record l' Hg' loc_record) as H'.
  rewrite (head_stable _ _ _ (moves_prefix _ _ _ Hm) Hq) in H'.
  destruct (decide _) as [_|_]; [by rewrite H, H'|].
  destruct H as (r & Hd & ->), H' as (r' & Hd' & ->). congruence.
Qed.

(** ** The revision compare-and-swap *)

Lemma record_equal a c : orderedRecordEqual a c = true ->
  ID a = ID c /\ RankingScope a = RankingScope c /\ Revision a = Revision c /\ Order a = Order c /\
  DueOf a = DueOf c /\ RankOf a = RankOf c /\ Deleted a = Deleted c /\
  bytes_of (Value a) = bytes_of (Value c).
Proof.
  unfold orderedRecordEqual. rewrite !andb_true_iff, !bool_decide_eq_true, !N.eqb_eq, String.eqb_eq.
  rewrite Bool.eqb_true_iff. tauto.
Qed.

Definition spec_rev (op : OrderedOperation) (id' : OrderedID) (expected : N) (value : option string)
    (rank : Rank) (due : Due) (x : index) : res OrderedRecord * index :=
  match op with
  | OrderedDeleteOperation => spec_delete x id' expected
  | _ => spec_update x id' expected value rank due
  end.
Definition next_of (op : OrderedOperation) (cur : OrderedRecord) value rank due : OrderedRecord :=
  match op with OrderedDeleteOperation => tombstone cur | _ => updated cur value rank due end.

Definition rev_post (op : OrderedOperation) (expected : N) (value : option string) (rank : Rank)
    (due : Due) (b0 : backend) (out : res OrderedRecord) (b1 : backend) : Prop :=
  (exists id' value', orderedLocation id' = orderedLocation id /\ bytes_of value' = bytes_of value /\
     lin ns (stream spec) b0 b1 (spec_rev op id' expected value' rank due) out) \/
  (exists e, out = Err e /\
     (fault e \/ exists id' c, e = OrderedAmbiguousError op id' c /\
        orderedLocation id' = orderedLocation id /\ fault c /\ is_ordered_ambiguous c = true)).

Section revise.
Context (op : OrderedOperation) (expected : N) (value : option string) (rank : Rank) (due : Due).
Context (Hop : op = OrderedUpdateOperation /\ ValidateOrderedValue value = None /\
                 ValidateDue due = None /\ typed_args rank due \/ op = OrderedDeleteOperation).
Context (cur : OrderedRecord) (Hlive : Deleted cur = false) (Hrev : Revision cur = expected)
        (Hmax : Revision cur <> MaxUint64).
Notation next := (next_of op cur value rank due).

Lemma spec_rev_live id' x :
  orderedLocation id' = orderedLocation id -> records x !! record = Some cur ->
  spec_rev op id' expected value rank due x =
  match ValidateOrderedRecord next with Some e => (Err e, x) | None => (Ok next, put x record next) end.
Proof.
  intros Hid Hx. apply N.eqb_neq in Hmax.
  destruct Hop as [(-> & Hv & Hd & _)| ->]; cbn [spec_rev next_of].
  - unfold spec_update. rewrite Hid, Hloc, Hx, Hlive, Hv, Hd. unfold spec_revise.
    by rewrite Hrev, N.eqb_refl, <- Hrev, Hmax.
  - unfold spec_delete. rewrite Hid, Hloc, Hx, Hlive. unfold spec_revise.
    by rewrite Hrev, N.eqb_refl, <- Hrev, Hmax.
Qed.

Lemma spec_rev_lost id' x c :
  orderedLocation id' = orderedLocation id -> records x !! record = Some c -> Revision c <> expected ->
  spec_rev op id' expected value rank due x =
  (if Deleted c then match op with OrderedDeleteOperation => Ok c | _ => Err (OrderedDeletedError id') end
   else Err (OrderedRevisionConflictError id' expected (Revision c)), x).
Proof.
  intros Hid Hx Hne. apply N.eqb_neq in Hne.
  destruct Hop as [(-> & Hv & Hd & _)| ->]; cbn [spec_rev].
  - unfold spec_update. rewrite Hid, Hloc, Hx, Hv, Hd. destruct (Deleted c); [done|].
    unfold spec_revise. by rewrite Hne.
  - unfold spec_delete. rewrite Hid, Hloc, Hx. destruct (Deleted c); [done|].
    unfold spec_revise. by rewrite Hne.
Qed.

Lemma spec_rev_step id' x x' r : Namespace id' = ns ->
  spec_rev op id' expected value rank due x = (Ok r, x') -> index_step ns x x'.
Proof.
  intros Hns H. destruct Hop as [(-> & _ & _ & Ht)| ->]; cbn [spec_rev] in H;
    [by eapply step_update|by eapply step_delete].
Qed.

Lemma next_facts x : index_inv ns x -> records x !! record = Some cur ->
  ID next = ID cur /\ Revision next = (Revision cur + 1)%N /\ typed_record next.
Proof.
  intros Hi (_ & _ & _ & Ht)%(inv_record _ _ Hi). pose proof Ht as (Hu & Ho & _).
  assert (E : Revision next = add64 (Revision cur) 1) by (by destruct Hop as [(-> & _)| ->]).
  rewrite add64_succ in E by done. split_and!; [by destruct Hop as [(-> & _)| ->]|done|].
  split; [rewrite E; unfold u64, two64, MaxUint64 in *; lia|].
  destruct Hop as [(-> & _ & _ & ? & ? & ?)| ->]; [by split_and!|].
  split_and!; try done. apply NotDue_uint8.
Qed.

Lemma same_next x : index_inv ns x -> records x !! record = Some cur -> orderedLocation (ID next) = orderedLocation id.
Proof. intros Hi Hcur. destruct (next_facts _ Hi Hcur) as (-> & _). by apply (same_location x). Qed.

(** The fence was lost: the record has moved past the revision expected. *)
Lemma wp_lost_race b0 b b1 :
  rely b0 b -> good_backend b -> records (ix b) !! record = Some cur -> rely b b1 ->
  (head (lg b1) record).1 <> (head (lg b) record).1 ->
  WP (found <-! readRecord spec record;
      match found with
      | None => Ret (Err (OrderedRecordNotFoundError (ID next)))
      | Some (current, _) =>
          if Deleted current then
            match op with OrderedDeleteOperation => Ret (Ok current) | _ => Ret (Err (OrderedDeletedError (ID next))) end
          else Ret (Err (OrderedRevisionConflictError (ID next) expected (Revision current)))
      end) (rev_post op expected value rank due b0) b1.
Proof.
  intros H0 Hb Hcur H1 Hmoved. pose proof loc_stream as Hst. pose proof (good_lg _ Hb) as Hg.
  pose proof (rely_good _ _ H1 Hb) as Hb1. pose proof (rely_moves _ _ _ _ H1 Hst) as Hm1.
  pose proof (same_next _ (proj2 Hg) Hcur) as Hidl.
  apply wp_readRecord; [done| | |].
  - intros b4 e' H4 He'. right. exists e'. split; [done|by left].
  - intros b4 H4 Hb4 Hx4. exfalso.
    destruct (steps_evolves ns _ _ record cur
      (moves_steps _ _ _ (rely_moves _ _ _ _ (transitivity H1 H4) Hst)) (proj2 Hg) Hcur) as (c' & Hx' & _). congruence.
  - intros b4 c H4 Hb4 Hx4. assert (Hgt : (expected < Revision c)%N).
    { destruct (record_moved ns (lg b) (lg b1) id record cur Hm1 Hg loc_record Hcur) as (c1 & Hx1 & _ & [[Hh _]|Hlt]).
      - exfalso. apply Hmoved. by rewrite Hh.
      - destruct (steps_evolves ns _ _ record c1 (moves_steps _ _ _ (rely_moves _ _ _ _ H4 Hst))
          (proj2 (good_lg _ Hb1)) Hx1) as (c' & Hx' & Hle%evolves_le).
        assert (c' = c) as -> by congruence. lia. }
    pose proof (spec_rev_lost (ID next) _ c Hidl Hx4 ltac:(lia)) as Hsp.
    assert (Hpost : forall b5, rely b4 b5 -> rev_post op expected value rank due b0
      (spec_rev op (ID next) expected value rank due (ix b4)).1 b5).
    { intros b5 H5. left. exists (ID next), value. split_and!; [done..|].
      apply (lin_here _ _ b0 b4); [done|by do 2 (etrans; [done|])|done|]. by rewrite Hsp. }
    rewrite Hsp in Hpost. cbn [fst] in Hpost. destruct (Deleted c); [destruct op|]; exact Hpost.
Qed.

(** The acknowledgement was lost: a read-back that finds the candidate settles it. *)
Lemma wp_lost_ack b0 b b2 e :
  rely b0 b -> good_backend b -> records (ix b) !! record = Some cur -> rely b b2 ->
  fault e -> is_ordered_ambiguous e = true ->
  WP (found <-! readRecord spec record;
      match found with
      | Some (current, _) =>
          if orderedRecordEqual current next then Ret (Ok current) else Ret (Err (OrderedAmbiguousError op (ID next) e))
      | None => Ret (Err (OrderedAmbiguousError op (ID next) e))
      end) (rev_post op expected value rank due b0) b2.
Proof.
  intros H0 Hb Hcur H2 Hfault Eamb. pose proof loc_stream as Hst. pose proof (good_lg _ Hb) as Hg.
  pose proof (rely_good _ _ H2 Hb) as Hb2. pose proof (same_next _ (proj2 Hg) Hcur) as Hidl.
  destruct (next_facts _ (proj2 Hg) Hcur) as (Hid & Hnext & Ht).
  assert (Hamb : forall b5, rev_post op expected value rank due b0 (Err (OrderedAmbiguousError op (ID next) e)) b5).
  { intros b5. right. eexists. split; [done|]. right. by exists (ID next), e. }
  apply wp_readRecord; [done| | |].
  - intros b4 e' H4 He'. right. exists e'. split; [done|by left].
  - intros b4 H4 Hb4 Hx4 b5 H5. apply Hamb.
  - intros b4 c H4 Hb4 Hx4. destruct (orderedRecordEqual c next) eqn:Eeq; intros b5 H5; [|apply Hamb].
    assert (Hb4' : rely b b4) by (etrans; [exact H2|done]).
    apply record_equal in Eeq as (_ & _ & Er & _ & Ed & Erk & Edel & Ev).
    destruct (find_revise ns (lg b) (lg b4) record cur c id spec counter
      (rely_moves _ _ _ _ Hb4' Hst) Hg Hcur Hx4 ltac:(by rewrite Er) Hloc) as (m & m' & Ha & Hm & Hz & Hsp).
    left. exists id, (match op with OrderedDeleteOperation => value | _ => Value c end).
    rewrite Hrev in Hsp. rewrite Edel, Erk, Ed in Hsp. split_and!; [done| |].
    + by destruct Hop as [(-> & _)| ->].
    + eapply (lin_between _ _ b0 b b4); [done..| ].
      destruct Hop as [(-> & _)| ->]; cbn in Hsp |- *; [by rewrite Hlive in Hsp|done].
Qed.

Lemma wp_commitRevision b0 b :
  rely b0 b -> good_backend b -> records (ix b) !! record = Some cur ->
  WP (commitRevision spec record (head (lg b) record).1 next expected op)
     (rev_post op expected value rank due b0) b.
Proof.
  intros H0 Hb Hcur. pose proof (good_lg _ Hb) as Hg. pose proof loc_stream as Hst.
  destruct (next_facts _ (proj2 Hg) Hcur) as (Hid & Hnext & Ht).
  unfold commitRevision. destruct (encodeOrderedRecord next) as [payload|e] eqn:Henc; cbn [bind_res bind].
  2: { intros b1 H1. left. exists id, value. split_and!; [done..|]. eapply lin_here; [done..|].
       rewrite spec_rev_live by done. unfold encodeOrderedRecord in Henc.
       destruct (ValidateOrderedRecord next); congruence. }
  pose (ms := [{| subject := record; data := payload; expectLastSeq := (head (lg b) record).1 |}]).
  intros b1 H1 r b2 Hp. change (publish_contract fault may_commit b1 (stream spec) ms r b2) in Hp.
  pose proof (rely_good _ _ H1 Hb) as Hb1. pose proof (rely_moves _ _ _ _ H1 Hst) as Hm1.
  assert (Hc : fences_hold (lg b1) ms -> commits ns (lg b1) ms /\
    spec_rev op id expected value rank due (ix b1) = (Ok next, abs ns (lg b1 ++ stored ms))).
  { intros [Hf _]%Forall_cons. cbn in Hf.
    assert (Hx : records (ix b1) !! record = Some cur) by (by rewrite (record_stable _ _ Hg Hm1 Hf)).
    eapply (commits_revise id _ _ record (lg b1) cur next _ payload
              (spec_rev op id expected value rank due)); try done.
    - by apply good_lg.
    - lia.
    - intros Hv. by rewrite spec_rev_live, Hv.
    - intros x' Hx'. by eapply spec_rev_step. }
  assert (Hguar : guar b1 b2) by (eapply publish_guar; [exact Hp|done|by intros []%Hc]).
  split; [exact Hguar|]. destruct r as [e|]; cbn in Hp |- *.
  - destruct Hp as [Hfault Hp]. destruct (is_precondition e) eqn:Epre; cbn.
    + destruct Hp as [Hnf ->]. apply (wp_lost_race b0 b); [done..|]. intros Hh. apply Hnf. by apply Forall_singleton.
    + destruct (is_ordered_ambiguous e) eqn:Eamb; cbn; [|intros b3 H3; right; exists e; split; [done|by left]].
      apply (wp_lost_ack b0 b); [done..| |done|done]. etrans; [exact H1|by apply rtc_once].
  - intros b3 H3. left. exists id, value. split_and!; [done..|].
    destruct Hp as [Hf ->]. destruct (Hc Hf). apply (lin_commit _ _ b0 b1 _ ms); [done|by etrans|done..].
Qed.
End revise.

Lemma lin_ext {A} b0 b1 b2 (op : index -> A * index) a :
  lin ns (stream spec) b0 b1 op a -> rely b1 b2 -> lin ns (stream spec) b0 b2 op a.
Proof.
  intros (l & l' & ? & ? & ? & ?) Hext. exists l, l'. split_and!; try done.
  etrans; [done|]. by apply rely_moves, loc_stream.
Qed.

Lemma rev_post_ext op expected value rank due b0 out b1 b2 :
  rev_post op expected value rank due b0 out b1 -> rely b1 b2 ->
  rev_post op expected value rank due b0 out b2.
Proof.
  intros [(id' & v' & ? & ? & Hl)|H] Hr; [left|by right].
  exists id', v'. split_and!; try done. by eapply lin_ext.
Qed.

(** ** [Get], [Update] and [Delete] *)

Lemma wp_Get b : good_backend b ->
  WP (Get id) (fun out b1 => lin ns (stream spec) b b1 (fun x => (spec_get x id, x)) out \/
                             exists e, out = Err e /\ fault e) b.
Proof.
  intros Hb. unfold Get. rewrite Hloc. cbn [bind_res bind].
  apply wp_readRecord; [done| | |].
  - intros b1 e _ He. right. eauto.
  - intros b1 H1 Hb1 Hx b2 H2. left. apply (lin_here _ _ b b1); [apply loc_stream|done..|].
    unfold spec_get. by rewrite Hloc, Hx.
  - intros b1 r H1 Hb1 Hx b2 H2. left. apply (lin_here _ _ b b1); [apply loc_stream|done..|].
    unfold spec_get. by rewrite Hloc, Hx.
Qed.

Lemma rev_post_here op expected value rank due b0 b1 b2 out :
  rely b0 b1 -> rely b1 b2 ->
  spec_rev op id expected value rank due (ix b1) = (out, ix b1) ->
  rev_post op expected value rank due b0 out b2.
Proof.
  intros H0 H1 Hs. left. exists id, value. split_and!; [done..|].
  apply (lin_here _ _ b0 b1); [apply loc_stream|done..].
Qed.

Lemma wp_Update expected value rank due b :
  good_backend b -> typed_args rank due ->
  WP (Update id expected value rank due) (rev_post OrderedUpdateOperation expected value rank due b) b.
Proof.
  intros Hb Ht. unfold Update. rewrite Hloc. cbn [bind_res bind].
  apply wp_readRecord; [done| | |].
  - intros b1 e _ He. right. eauto.
  - intros b1 H1 Hb1 Hx b2 H2. apply (rev_post_here _ _ _ _ _ b b1); [done..|].
    cbn. unfold spec_update. by rewrite Hloc, Hx.
  - intros b1 cur H1 Hb1 Hx. cbv beta iota.
    assert (Hret : forall out, spec_update (ix b1) id expected value rank due = (out, ix b1) ->
      WP (Ret out) (rev_post OrderedUpdateOperation expected value rank due b) b1)
      by (intros out Hs b2 H2; by apply (rev_post_here _ _ _ _ _ b b1)).
    unfold spec_update in Hret. rewrite Hloc, Hx in Hret.
    destruct (Deleted cur) eqn:Hd; [by apply Hret|].
    destruct (ValidateOrderedValue value) eqn:Hv; [by apply Hret|].
    destruct (ValidateDue due) eqn:Hdue; [by apply Hret|].
    unfold spec_revise in Hret. destruct (N.eqb_spec (Revision cur) expected) as [Hr|]; [|by apply Hret].
    cbn [negb] in *. destruct (N.eqb_spec (Revision cur) MaxUint64) as [|Hmax]; [by apply Hret|].
    apply (wp_commitRevision OrderedUpdateOperation); try done. by left.
Qed.

Lemma wp_Delete expected b :
  good_backend b ->
  WP (Delete id expected)
     (rev_post OrderedDeleteOperation expected None zeroRank {| DueStateOf := NotDue; UnixMillis := 0 |} b) b.
Proof.
  intros Hb. unfold Delete. rewrite Hloc. cbn [bind_res bind].
  apply wp_readRecord; [done| | |].
  - intros b1 e _ He. right. eauto.
  - intros b1 H1 Hb1 Hx b2 H2. apply (rev_post_here _ _ _ _ _ b b1); [done..|].
    cbn. unfold spec_delete. by rewrite Hloc, Hx.
  - intros b1 cur H1 Hb1 Hx. cbv beta iota.
    assert (Hret : forall out, spec_delete (ix b1) id expected = (out, ix b1) ->
      WP (Ret out) (rev_post OrderedDeleteOperation expected None zeroRank
                      {| DueStateOf := NotDue; UnixMillis := 0 |} b) b1)
      by (intros out Hs b2 H2; by apply (rev_post_here _ _ _ _ _ b b1)).
    unfold spec_delete in Hret. rewrite Hloc, Hx in Hret.
    destruct (Deleted cur) eqn:Hd; [by apply Hret|].
    unfold spec_revise in Hret. destruct (N.eqb_spec (Revision cur) expected) as [Hr|]; [|by apply Hret].
    cbn [negb] in *. destruct (N.eqb_spec (Revision cur) MaxUint64) as [|Hmax]; [by apply Hret|].
    by apply (wp_commitRevision OrderedDeleteOperation _ _ _ _ (or_intror eq_refl)).
Qed.

(** ** [Create] *)

Section create.
Context (rks : string) (value : option string) (rank : Rank) (due : Due).
Context (Hty : typed_args rank due).
Notation m := (mCreate id rks value rank due).

Definition create_post (b0 : backend) (out : res (OrderedRecord * bool)) (b1 : backend) : Prop :=
  (exists value', bytes_of value' = bytes_of value /\
     lin ns (stream spec) b0 b1 (fun x => spec_create x id rks value' rank due) out) \/
  (exists e, out = Err e /\ failed m ns (stream spec) counter b0 b1 e).

Lemma create_post_ext b0 out b1 b2 :
  create_post b0 out b1 -> rely b1 b2 -> create_post b0 out b2.
Proof.
  intros [(v' & ? & Hl)|(e & -> & H)] Hr; [left|right].
  - exists v'. split; [done|by eapply lin_ext].
  - exists e. split; [done|]. destruct H; try by econstructor.
    eapply failed_exhausted; [done|done| |done]. etrans; [done|]. by apply rely_moves, loc_stream.
Qed.

Lemma create_post_here b0 b1 b2 out :
  rely b0 b1 -> rely b1 b2 -> spec_create (ix b1) id rks value rank due = (out, ix b1) ->
  create_post b0 out b2.
Proof.
  intros H0 H1 Hs. left. exists value. split; [done|].
  apply (lin_here _ _ b0 b1); [apply loc_stream|done..].
Qed.

Lemma create_post_seam b0 b1 e : fault e -> create_post b0 (Err e) b1.
Proof. intros He. right. exists e. split; [done|by apply failed_seam]. Qed.

(** An existing identity is answered as it is. *)
Lemma create_post_existing b0 b1 b2 r :
  rely b0 b1 -> rely b1 b2 -> records (ix b1) !! record = Some r -> create_post b0 (Ok (r, false)) b2.
Proof.
  intros H0 H1 Hx. apply (create_post_here b0 b1); [done..|]. unfold spec_create. by rewrite Hloc, Hx.
Qed.

Lemma wp_readCounter {B} (k : N * N -> M (res B)) (Q : res B -> backend -> Prop) b :
  good_backend b ->
  (forall b1 e, rely b b1 -> fault e -> Q (Err e) b1) ->
  (forall b1, rely b b1 -> good_backend b1 ->
     WP (k ((head (lg b1) counter).1, last_order (ix b1) counter)) Q b1) ->
  WP (bind_res (readCounter spec counter) k) Q b.
Proof.
  intros Hb Herr Hk b1 Hr1 r b2 [-> Hread]. split; [apply guar_refl|].
  pose proof (rely_good _ _ Hr1 Hb) as Hb1.
  pose proof (counter_value _ _ _ _ (good_lg _ Hb1) loc_counter) as Hv.
  destruct r as [[q d]|e]; cbn.
  - pose proof (Hk b1 Hr1 Hb1) as H. rewrite <- Hread in H, Hv. cbn in H, Hv.
    destruct (N.eqb_spec q 0) as [Hq|Hq].
    + rewrite decide_True in Hv by done. by rewrite Hv in H.
    + rewrite decide_False in Hv by done. by rewrite Hv.
  - intros b3 H3. apply Herr; [by etrans|done].
Qed.

Definition attempt_post (b0 ba : backend) (out : res (option (OrderedRecord * bool))) (b1 : backend) : Prop :=
  rely ba b1 /\
  match out with
  | Ok None => True
  | Ok (Some r) => create_post b0 (Ok r) b1
  | Err e => create_post b0 (Err e) b1
  end.

(** What the read-back of a lost race and of a lost acknowledgement find. *)
Lemma wp_create_lost_race b0 ba b3 :
  good_backend b3 -> rely b0 b3 -> rely ba b3 ->
  WP (found <-! readRecord spec record;
      match found with Some (winner, _) => Ret (Ok (Some (winner, false))) | None => Ret (Ok None) end)
     (attempt_post b0 ba) b3.
Proof.
  intros Hb3 H03 Ha3. apply wp_readRecord; [done| | |].
  - intros b4 e' H4 He'. split; [chain|by apply create_post_seam].
  - intros b4 H4 Hb4 Hx b5 H5. split; [|done]. chain.
  - intros b4 w H4 Hb4 Hx b5 H5. split; [chain|]. apply (create_post_existing b0 b4); [chain|done..].
Qed.

Lemma wp_create_lost_ack b0 ba b3 last e :
  good_backend ba -> good_backend b3 -> rely b0 ba -> rely ba b3 -> records (ix ba) !! record = None ->
  fault e -> is_ordered_ambiguous e = true ->
  WP (found <-! readRecord spec record;
      match found with
      | Some (winner, _) => Ret (Ok (Some (winner, orderedRecordEqual winner (new_record id rks value rank due last))))
      | None => Ret (Err (OrderedAmbiguousError OrderedCreateOperation id e))
      end) (attempt_post b0 ba) b3.
Proof.
  intros Hba Hb3 H0 Ha3 Habsent Hfault Eamb. pose proof loc_stream as Hst. assert (H03 : rely b0 b3) by chain.
  apply wp_readRecord; [done| | |].
  - intros b4 e' H4 He'. split; [chain|by apply create_post_seam].
  - intros b4 H4 Hb4 Hx b5 H5. split; [chain|]. right. eexists. split; [done|]. by apply failed_ambiguous.
  - intros b4 w H4 Hb4 Hx b5 H5. split; [chain|].
    destruct (orderedRecordEqual w _) eqn:Eeq; [|apply (create_post_existing b0 b4); [chain|done..]].
    apply record_equal in Eeq as (Ei & Es & Er & _ & Ed & Ek & _ & Ev). assert (Ha4 : rely ba b4) by chain.
    destruct (find_create ns (lg ba) (lg b4) record w (rely_moves _ _ _ _ Ha4 Hst)
      (good_lg _ Hba) Habsent Hx Er) as (k & k' & Hk1 & Hk2 & Hk3 & Hsp).
    left. exists (Value w). split; [done|]. apply (lin_between _ _ b0 ba b4 _ _ _ k k'); [done..|].
    rewrite Ei, Es, Ed, Ek in Hsp. exact Hsp.
Qed.

(** The batch built on the counter of [b1], if it is accepted on [b2]. *)
Lemma create_commits b1 b2 payload :
  ValidateName rks = None -> ValidateOrderedValue value = None -> ValidateDue due = None ->
  good_backend b1 -> rely b1 b2 -> last_order (ix b1) counter <> MaxUint64 ->
  let rec := new_record id rks value rank due (last_order (ix b1) counter) in
  let ms := [{| subject := counter; data := encodeOrderedCounter (Order rec); expectLastSeq := (head (lg b1) counter).1 |};
             {| subject := record; data := payload; expectLastSeq := 0 |}] in
  encodeOrderedRecord rec = Ok payload -> fences_hold (lg b2) ms ->
  commits ns (lg b2) ms /\ spec_create (ix b2) id rks value rank due = (Ok (rec, true), abs ns (lg b2 ++ stored ms)).
Proof.
  intros Hn Hv Hd Hb1 H2 Hmax rec ms Henc Hf. pose proof Hf as [Hf1 _]%Forall_cons. cbn in Hf1.
  pose proof (rely_moves _ _ _ _ H2 loc_stream) as Hm2. pose proof (rely_good _ _ H2 Hb1) as Hb2.
  pose proof (counter_stable _ _ _ _ _ (good_lg _ Hb1) Hm2 loc_counter Hf1) as Hl.
  pose proof (commits_create id spec counter record rks value rank due (lg b2)
    (head (lg b1) counter).1 payload) as Hcc. cbv zeta in Hcc. rewrite Hl in Hcc.
  apply Hcc; try done. by apply good_lg.
Qed.

Lemma wp_create_attempt b0 ba b :
  ValidateName rks = None -> ValidateOrderedValue value = None -> ValidateDue due = None ->
  good_backend b0 -> rely b0 ba -> rely ba b -> records (ix ba) !! record = None ->
  WP (create_attempt id rks value rank due spec counter record) (attempt_post b0 ba) b.
Proof.
  intros Hn Hv Hd Hb0 H0 Ha Habsent. pose proof loc_stream as Hst.
  pose proof (rely_good _ _ H0 Hb0) as Hba. pose proof (rely_good _ _ Ha Hba) as Hb.
  unfold create_attempt. apply wp_readCounter; [done| |].
  { intros b1 e H1 He. split; [chain|by apply create_post_seam]. }
  intros b1 H1 Hb1. set (last := last_order (ix b1) counter). cbv beta iota.
  assert (Ha1 : rely ba b1) by chain. assert (H01 : rely b0 b1) by chain.
  assert (Hret : forall e, failed m ns (stream spec) counter b0 b1 e ->
    WP (Ret (Err e)) (attempt_post b0 ba) b1).
  { intros e He b2 H2. split; [chain|].
    apply (create_post_ext b0 (Err e) b1); [right; eauto|done]. }
  destruct (N.eqb_spec last MaxUint64) as [Emax|Hmax].
  { rewrite Emax. apply Hret. apply (failed_exhausted m _ _ _ _ _ (lg b1)); [done|by apply rely_moves|done|done]. }
  set (rec := new_record id rks value rank due last).
  destruct (encodeOrderedRecord rec) as [payload|e] eqn:Henc; cbn [bind_res bind].
  2: { apply Hret. unfold encodeOrderedRecord in Henc.
       destruct (ValidateOrderedRecord rec) eqn:Hval; [|done]. injection Henc as <-.
       by apply (failed_candidate m _ _ _ _ _ id rks value rank due last). }
  pose (ms := [{| subject := counter; data := encodeOrderedCounter (Order rec);
      expectLastSeq := (head (lg b1) counter).1 |}; {| subject := record; data := payload; expectLastSeq := 0 |}]).
  intros b2 H2 r b3 Hp.
  change (publish_contract fault may_commit b2 (stream spec) ms r b3) in Hp.
  pose proof (rely_good _ _ H2 Hb1) as Hb2.
  pose proof (create_commits b1 b2 payload Hn Hv Hd Hb1 H2 Hmax Henc) as Hc. fold last rec ms in Hc.
  assert (Hguar : guar b2 b3) by (eapply publish_guar; [exact Hp|done|by intros []%Hc]).
  split; [exact Hguar|]. pose proof (rely_good _ _ (rtc_once _ _ Hguar) Hb2) as Hb3.
  assert (Ha3 : rely ba b3) by (pose proof (rtc_once _ _ Hguar : rely b2 b3); chain).
  assert (H03 : rely b0 b3) by chain.
  destruct r as [e|]; cbn.
  2: { intros b4 H4. split; [chain|]. left. exists value. split; [done|].
       destruct Hp as [Hf ->]. destruct (Hc Hf).
       apply (lin_commit _ _ b0 b2 _ ms); [done|chain|done..]. }
  destruct Hp as [Hfault _]. destruct (is_precondition e); cbn; [by apply wp_create_lost_race|].
  destruct (is_ordered_ambiguous e) eqn:Eamb; cbn; [by apply wp_create_lost_ack|].
  intros b4 H4. split; [chain|by apply create_post_seam].
Qed.

Lemma wp_waitBeforeRetry {B} attempt (k : option error -> M (res B)) (Q : res B -> backend -> Prop) b :
  (forall b1 r, rely b b1 -> fault_of fault r -> WP (k r) Q b1) ->
  WP (bind (waitBeforeRetry retryBase attempt) k) Q b.
Proof.
  intros Hk. unfold waitBeforeRetry, orderedBackoff. destruct (_ <=? _)%Z; cbn [bind]; [by apply Hk|].
  intros b1 H1 rnd b2 [-> _]. split; [apply guar_refl|].
  intros b3 H3 r b4 [-> Hr]. split; [apply guar_refl|]. apply Hk; [chain|done].
Qed.

Lemma wp_create_loop b0 ba n b :
  ValidateName rks = None -> ValidateOrderedValue value = None -> ValidateDue due = None ->
  good_backend b0 -> rely b0 ba -> rely ba b -> records (ix ba) !! record = None ->
  WP (create_loop retryBase n id rks value rank due spec counter record)
     (fun out b1 => rely b0 b1 /\ create_post b0 out b1) b.
Proof.
  intros Hn Hv Hd Hb0 H0 Ha Habsent. revert b Ha. induction n as [|n IH]; intros b Ha.
  { intros b1 H1. split; [chain|].
    right. eexists. split; [done|]. by apply (failed_contention m). }
  rewrite create_loop_S.
  assert (Hbody : forall b1 r, rely b b1 -> fault_of fault r ->
    WP (match r with
        | Some e => Ret (Err e)
        | None => bind_res (create_attempt id rks value rank due spec counter record)
            (fun done => match done with
             | Some result => Ret (Ok result)
             | None => create_loop retryBase n id rks value rank due spec counter record
             end)
        end) (fun out b1 => rely b0 b1 /\ create_post b0 out b1) b1).
  { intros b1 [e|] H1 Hr.
    { intros b2 H2. split; [chain|by apply create_post_seam]. }
    assert (Ha1 : rely ba b1) by chain.
    apply (wp_bind (handle fault may_commit) rely guar). eapply wp_mono; [by apply (wp_create_attempt b0 ba b1)|].
    intros [[result|]|e] b2 [Ha2 Hpost]; [|by apply IH|];
      intros b3 H3; (split; [chain|by eapply create_post_ext]). }
  destruct (1 <? _)%Z; [by apply wp_waitBeforeRetry|].
  exact (Hbody b None (rely_refl b) I).
Qed.

Lemma wp_Create b : good_backend b ->
  WP (Create retryBase id rks value rank due) (create_post b) b.
Proof.
  intros Hb. unfold Create. rewrite Hloc. cbn [bind_res bind].
  intros b1 H1 r b2 [Hr Hb2]. assert (Hguar : guar b1 b2).
  { left. intros s. destruct Hb2 as [->| ->]; [done|]. unfold log_of at 1.
    destruct (decide (s = stream spec)) as [->|]; [by rewrite lookup_insert_eq|by rewrite lookup_insert_ne]. }
  split; [done|]. assert (H02 : rely b b2) by (pose proof (rtc_once _ _ Hguar : rely b1 b2); chain).
  destruct r as [e|]; cbn; [intros b3 H3; by apply create_post_seam|].
  apply wp_readRecord; [by eapply rely_good| | |].
  - intros b3 e H3 He. by apply create_post_seam.
  - intros b3 H3 Hb3 Hx. assert (H03 : rely b b3) by chain.
    assert (Hret : forall out, spec_create (ix b3) id rks value rank due = (out, ix b3) ->
      WP (Ret out) (create_post b) b3) by (intros out Hs b4 H4; by apply (create_post_here b b3)).
    unfold spec_create in Hret. rewrite Hloc, Hx in Hret.
    destruct (ValidateName rks) eqn:Hn; [by apply Hret|].
    destruct (ValidateOrderedValue value) eqn:Hv; [by apply Hret|].
    destruct (ValidateDue due) eqn:Hd; [by apply Hret|].
    intros b4 H4 ra b5 [-> Hra]. split; [apply guar_refl|].
    destruct ra as [e|]; cbn; [intros b6 H6; by apply create_post_seam|].
    apply (wp_bind (handle fault may_commit) rely guar).
    eapply wp_mono; [apply (wp_create_loop b b3); done|].
    intros out b6 [_ Hpost] b7 H7 [] b8 ->. split; [apply guar_refl|].
    intros b9 H9. eapply create_post_ext; [exact Hpost|chain].
  - intros b3 w H3 Hb3 Hx b4 H4. apply (create_post_existing b b3); [chain|done..].
Qed.

End create.

Lemma rev_post_method m op expected value rank due b0 out b1 :
  method_op m = Some op -> method_id m = id ->
  (forall id' value' x, orderedLocation id' = orderedLocation id -> bytes_of value' = bytes_of value ->
     exists m', same_call m m' /\
       method_spec m' x = let (r, x') := spec_rev op id' expected value' rank due x in (unflagged r, x')) ->
  rev_post op expected value rank due b0 out b1 -> method_post m b0 (unflagged out) b1.
Proof.
  intros Hop Hid Hm Hpost. unfold method_post. rewrite Hid, Hloc.
  destruct Hpost as [(id' & v' & Hl & Hv & l & l' & H1 & H2 & H3 & Hsp)|(e & -> & He)].
  - left. destruct (Hm id' v' (abs ns l) Hl Hv) as (m' & Hs & Hx). exists m'. split; [done|].
    exists l, l'. split_and!; [done..|]. by rewrite Hx, Hsp.
  - right. exists e. split; [done|]. destruct He as [He|(id' & c & -> & Hl & Hf & Ha)]; [by apply failed_seam|].
    apply failed_ambiguous; [done|by rewrite Hid|done..].
Qed.

(** ** Every method *)

Lemma wp_located m b : method_id m = id -> typed_method m -> good_backend b ->
  WP (method_prog m) (method_post m b) b.
Proof.
  intros Hid Ht Hb. destruct m as [i|i rks value rank due|i expected value rank due|i expected];
    cbn in Hid; subst i; cbn [method_prog].
  - apply (wp_bind (handle fault may_commit) rely guar). eapply wp_mono; [by apply wp_Get|].
    intros out b1 Hpost b2 H2. unfold method_post. cbn [method_id]. rewrite Hloc.
    destruct Hpost as [(l & l' & H1 & Hm & H3 & Hsp)|(e & -> & He)].
    + left. exists (mGet id). split; [done|]. apply (lin_ext _ b1); [|done]. exists l, l'.
      split_and!; [done..|]. cbn. by injection Hsp as -> ->.
    + right. exists e. split; [done|by apply failed_seam].
  - eapply wp_mono; [by apply wp_Create|]. intros out b1 Hpost. unfold method_post. cbn [method_id]. rewrite Hloc.
    destruct Hpost as [(v' & Hv & Hl)|H]; [left|by right]. by exists (mCreate id rks v' rank due).
  - apply (wp_bind (handle fault may_commit) rely guar). eapply wp_mono; [by apply wp_Update|].
    intros out b1 Hpost b2 H2. eapply rev_post_method; [done|done| |by eapply rev_post_ext].
    intros id' v' x Hl Hv. by exists (mUpdate id' expected v' rank due).
  - apply (wp_bind (handle fault may_commit) rely guar). eapply wp_mono; [by apply wp_Delete|].
    intros out b1 Hpost b2 H2. eapply rev_post_method; [done|done| |by eapply rev_post_ext].
    intros id' v' x Hl Hv. by exists (mDelete id' expected).
Qed.
End safety.

Section system.
Context {S : Storage} {L : StorageLaws S}.
Context (fault may_commit : error -> Prop) (retryBase : Z).

Lemma wp_method m b : typed_method m -> good_backend b ->
  wp (handle fault may_commit) rely guar (method_prog retryBase m) (method_post fault m b) b.
Proof.
  intros Ht Hb. destruct (orderedLocation (method_id m)) as [[[spec counter] record]|e] eqn:Hl.
  - by eapply wp_located.
  - destruct m; cbn in Hl; unfold method_prog, Get, Create, Update, Delete; rewrite Hl;
      intros b1 _; unfold method_post; cbn; by rewrite Hl.
Qed.

(** Any number of methods, started and interleaved at will, over a service that meets the
    seam's contract. *)
Definition system_step := pool_step (handle fault may_commit) (method_prog retryBase) typed_method.

Definition system_ok (b0 : backend) := pool_ok (handle fault may_commit) rely guar typed_method
  (fun m b1 => method_post fault m b1) b0.

Lemma system_sound b0 c c' : good_backend b0 -> rtc system_step c c' -> system_ok b0 c ->
  rely c.2 c'.2 /\ system_ok b0 c'.
Proof.
  intros Hb.
  apply (pool_sound (handle fault may_commit) rely guar (method_prog retryBase) typed_method).
  - intros s s' Hs. by apply rtc_once.
  - intros m s Hm Hs. apply wp_method; [done|by eapply rely_good].
Qed.

Lemma system_start b0 : system_ok b0 ([], b0).
Proof. split; [reflexivity|constructor]. Qed.

Lemma good_empty : good_backend ∅.
Proof. intros ns st _. apply good_nil. Qed.

End system.
End Safety.
