(* ===== verification/OrderedProps.v ===== *)
(** * Properties of the mutating half of the ordered index.

    First the statements about every schedule of concurrent methods over the seam's
    contract, then those about a method running alone, its bounds and its latch. *)

From S2P Require Import Prelude GoText Storage Names OrderedCodec Prog OrderedStore OrderedSpec OrderedRefine OrderedSafety.
Open Scope stdpp_scope.
Import Names Codec Store Spec Refine Safety.

Module OrderedProps.

(** ** The executable service meets the contract *)

Notation any := (fun _ : error => True).

(** Scripts whose outcomes are one call's own. *)
Definition plain (o : outcome) : Prop :=
  match o with Raced _ => False | Refused e => is_precondition e = false | _ => True end.

Lemma fake_commit_cases b s ms :
  (fences_hold (log_of b s) ms /\ fake_commit b s ms = (None, append b s ms)) \/
  (~ fences_hold (log_of b s) ms /\ fake_commit b s ms = (Some errOrderedPrecondition, b)).
Proof. unfold fake_commit. case_decide; auto. Qed.

Lemma fake_publish_sound f s ms r f' :
  Forall plain (script f) -> fake_publish f s ms = (r, f') ->
  publish_contract any any (msgs f) s ms r (msgs f') /\ Forall plain (script f').
Proof.
  intros Hs H. unfold fake_publish in H.
  destruct (fake_commit_cases (msgs f) s ms) as [[Hf Hc]|[Hf Hc]];
    destruct (script f) as [|[|c|e|other] rest]; rewrite ?Hc in H; cbn in H; simplify_eq;
    try (apply Forall_cons in Hs as [Hp Hs]); cbn in *; try done; try (destruct c; cbn); auto 10.
  all: rewrite ?Hp; auto.
Qed.

Lemma fake_sound e f r f' :
  Forall plain (script f) -> fake_handle e f = (r, f') ->
  handle any any e (msgs f) r (msgs f') /\ Forall plain (script f').
Proof.
  intros Hs H. destruct e; cbn in H |- *;
    try (injection H as <- <-; cbn; auto; done); by eapply fake_publish_sound.
Qed.

(** Hence a run against it is a schedule of the system. *)
Lemma run_system {S : Storage} base ts m b1 p f a f' :
  Forall plain (script f) -> run fake_handle p f = (a, f') ->
  rtc (system_step any any base) (ts ++ [(m, b1, p)], msgs f) (ts ++ [(m, b1, Ret a)], msgs f').
Proof.
  revert f. induction p as [x|e k IH]; intros f Hs Hrun; cbn in Hrun.
  - by injection Hrun as <- <-.
  - destruct (fake_handle e f) as [r f1] eqn:E. destruct (fake_sound _ _ _ _ Hs E) as [Hh Hs1].
    eapply rtc_l; [|by apply (IH r f1)].
    replace (ts ++ [(m, b1, k r)]) with (<[length ts := (m, b1, k r)]> (ts ++ [(m, b1, Vis e k)])).
    + eapply pool_call; [by apply list_lookup_middle|]. by exists r.
    + by rewrite insert_app_r_alt, Nat.sub_diag by lia.
Qed.

(** ** Every schedule *)

Section concurrent.
Context {S : Storage} {L : StorageLaws S}.
Context (fault may_commit : error -> Prop) (retryBase : Z).
Notation system_step := (system_step fault may_commit retryBase).

Lemma run_index b0 ns st c c' :
  good_backend b0 -> rtc system_step ([], b0) c -> rtc system_step c c' ->
  orderedStreamName ns = Ok st ->
  good ns (log_of c.2 st) /\ rtc (index_step ns) (abs ns (log_of c.2 st)) (abs ns (log_of c'.2 st)).
Proof.
  intros Hb H1 H2 Hst.
  destruct (system_sound fault may_commit retryBase b0 _ _ Hb H1 (system_start _ _ b0)) as [Hr1 Hok].
  destruct (system_sound fault may_commit retryBase b0 _ _ Hb H2 Hok) as [Hr2 _].
  split; [by eapply rely_good|]. by eapply moves_steps, rely_moves.
Qed.

(** C5. Linearizability: whatever the schedule of the running [Get]s, [Create]s, [Update]s
    and [Delete]s, and whatever the seam answers within its contract, a method that
    returned [out] promises [method_post]: [out] is the specification's reply at one
    instant after the method's start and before now, its effect on the log being one
    atomic move, or it is one of the errors of [failed]. *)
Theorem ordered_linearizable b0 ts b i m b1 out :
  good_backend b0 -> rtc system_step ([], b0) (ts, b) ->
  ts !! i = Some (m, b1, Ret out) -> method_post fault m b1 out b.
Proof.
  intros Hb Hrun Hi.
  destruct (system_sound fault may_commit retryBase b0 _ _ Hb Hrun (system_start _ _ b0)) as [_ [_ Hts]].
  destruct (proj1 (Forall_lookup _ _) Hts i _ Hi) as (_ & _ & Hwp). apply Hwp. reflexivity.
Qed.

(** Refinement: between any two points of any schedule, each namespace's log evolves
    only by successful operations of the abstract index, one atomic commit at a time, and
    messages once stored are never rewritten. *)
Theorem ordered_index_refines b0 c c' ns st :
  good_backend b0 -> rtc system_step ([], b0) c -> rtc system_step c c' ->
  orderedStreamName ns = Ok st ->
  rtc (index_step ns) (abs ns (log_of c.2 st)) (abs ns (log_of c'.2 st)) /\
  log_of c.2 st `prefix_of` log_of c'.2 st.
Proof.
  intros Hb H1 H2 Hst. split; [by eapply run_index|].
  destruct (system_sound fault may_commit retryBase b0 _ _ Hb H1 (system_start _ _ b0)) as [_ Hok].
  destruct (system_sound fault may_commit retryBase b0 _ _ Hb H2 Hok) as [Hr2 _].
  by eapply moves_prefix, rely_moves.
Qed.

(** C10. Order allocation: from an empty service, at every point of every schedule the
    orders handed out in a scope are exactly [1..last], each to exactly one record. *)
Theorem ordered_orders_exact c ns st os counter k :
  rtc system_step ([], ∅) c -> orderedStreamName ns = Ok st ->
  orderedCounterSubject ns os = Ok counter ->
  let x := abs ns (log_of c.2 st) in
  (1 <= k <= last_order x counter)%N <->
  exists s r, (records x !! s = Some r /\ OrderingScope (ID r) = os /\ Order r = k) /\
    forall s' r', records x !! s' = Some r' -> OrderingScope (ID r') = os -> Order r' = k -> s' = s.
Proof.
  intros H1 Hst Hc x.
  destruct (run_index ∅ ns st c c good_empty H1 (rtc_refl _ c) Hst) as [[_ Hi] _]. fold x in Hi. split.
  - intros Hk. destruct (inv_dense _ _ Hi os counter k Hc Hk) as (s & r & Hs & Hos & Ho).
    exists s, r. split; [done|]. intros s' r' Hs' Hos' Ho'. eapply (inv_unique _ _ Hi); [done..|congruence|congruence].
  - intros (s & r & (Hs & <- & <-) & _). by apply (inv_bound _ _ Hi s r counter).
Qed.

(** C28. The life of a record: between any two points of any schedule a record keeps its
    identity, ranking scope and order, its revision never decreases, one revision is one
    value, and a tombstone stays exactly as it is.  A scope's last order never decreases. *)
Theorem ordered_record_history b0 c c' ns st s r counter :
  good_backend b0 -> rtc system_step ([], b0) c -> rtc system_step c c' ->
  orderedStreamName ns = Ok st -> records (abs ns (log_of c.2 st)) !! s = Some r ->
  (exists r', records (abs ns (log_of c'.2 st)) !! s = Some r' /\
     ID r' = ID r /\ RankingScope r' = RankingScope r /\ Order r' = Order r /\
     (Revision r <= Revision r')%N /\ (Revision r' = Revision r -> r' = r) /\ (Deleted r = true -> r' = r)) /\
  (last_order (abs ns (log_of c.2 st)) counter <= last_order (abs ns (log_of c'.2 st)) counter)%N.
Proof.
  intros Hb H1 H2 Hst Hr. destruct (run_index b0 ns st c c' Hb H1 H2 Hst) as [[_ Hi] Hs].
  split; [|by apply (steps_last_order ns)].
  destruct (steps_evolves ns _ _ s r Hs Hi Hr) as (r' & Hr' & He). by exists r'.
Qed.
End concurrent.

(** ** A schedule to exhibit: two creators of one scope and an update, on an empty service *)

Existing Instance Reference.reference.

Definition due_none : Due := {| DueStateOf := 0; UnixMillis := 0 |}.
Definition create1 : method := mCreate sample_id "prio" (Some "a") zeroRank due_none.
Definition create2 : method := mCreate second_id "prio" (Some "b") zeroRank due_none.
Definition update1 : method := mUpdate sample_id 1 (Some "c") {| Ranked := true; RankVal := 3 |} due_none.

Definition service0 : fake := {| msgs := ∅; script := [] |}.
Definition service1 : fake := snd (run fake_handle (method_prog 0 create1) service0).
Definition service2 : fake := snd (run fake_handle (method_prog 0 create2) service1).
Definition service3 : fake := snd (run fake_handle (method_prog 0 update1) service2).
Definition out3 : res (OrderedRecord * bool) := fst (run fake_handle (method_prog 0 update1) service2).

Lemma plain_service : Forall plain (script service0) /\ Forall plain (script service1) /\
  Forall plain (script service2).
Proof. vm_compute. repeat constructor. Qed.

Lemma system_run_method ts m f :
  typed_method m -> Forall plain (script f) ->
  rtc (system_step any any 0) (ts, msgs f)
    (ts ++ [(m, msgs f, Ret (fst (run fake_handle (method_prog 0 m) f)))],
     msgs (snd (run fake_handle (method_prog 0 m) f))).
Proof.
  intros Ht Hs. eapply rtc_l; [by apply pool_spawn|].
  apply run_system; [done|]. by destruct (run fake_handle (method_prog 0 m) f).
Qed.

Definition threads1 := [(create1, msgs service0, Ret (R := reply) (fst (run fake_handle (method_prog 0 create1) service0)))].
Definition threads3 := (threads1 ++ [(create2, msgs service1, Ret (fst (run fake_handle (method_prog 0 create2) service1)))])
  ++ [(update1, msgs service2, Ret out3)].

Lemma sample_typed_methods : typed_method create1 /\ typed_method create2 /\ typed_method update1.
Proof. vm_compute. repeat split; discriminate. Qed.

Lemma sample_schedule :
  rtc (system_step any any 0) ([], msgs service0) (threads1, msgs service1) /\
  rtc (system_step any any 0) (threads1, msgs service1) (threads3, msgs service3).
Proof.
  destruct sample_typed_methods as (H1 & H2 & H3), plain_service as (P0 & P1 & P2). split.
  - apply (system_run_method [] create1 service0 H1 P0).
  - eapply transitivity; [exact (system_run_method threads1 create2 service1 H2 P1)|].
    exact (system_run_method _ update1 service2 H3 P2).
Qed.

Lemma sample_schedule_end : rtc (system_step any any 0) ([], ∅) (threads3, msgs service3).
Proof. destruct sample_schedule as [H1 H2]. etrans; [exact H1|exact H2]. Qed.

Definition stream1 : string := get_ok EmptyString (orderedStreamName "work/q1").

Theorem ordered_linearizable_witness : method_post any update1 (msgs service2) out3 (msgs service3).
Proof.
  apply (ordered_linearizable any any 0 ∅ threads3 (msgs service3) 2 update1 (msgs service2) out3);
    [apply good_empty | apply sample_schedule_end | reflexivity].
Defined.

Theorem ordered_index_refines_witness :
  rtc (index_step "work/q1") (abs "work/q1" (log_of (msgs service1) stream1))
    (abs "work/q1" (log_of (msgs service3) stream1)).
Proof.
  refine (proj1 (ordered_index_refines any any 0 ∅ (threads1, msgs service1) (threads3, msgs service3)
    "work/q1" stream1 good_empty _ _ _)); [apply sample_schedule..|vm_compute; reflexivity].
Defined.

Theorem ordered_orders_exact_witness :
  exists s r, (records (abs "work/q1" (log_of (msgs service3) stream1)) !! s = Some r /\
    OrderingScope (ID r) = "lane_a" /\ Order r = 1%N) /\
    forall s' r', records (abs "work/q1" (log_of (msgs service3) stream1)) !! s' = Some r' ->
      OrderingScope (ID r') = "lane_a" -> Order r' = 1%N -> s' = s.
Proof.
  apply (proj1 (ordered_orders_exact any any 0 (threads3, msgs service3) "work/q1" stream1 "lane_a"
    sample_counter 1 sample_schedule_end ltac:(vm_compute; reflexivity) ltac:(vm_compute; reflexivity))).
  vm_compute. split; discriminate.
Defined.

Theorem ordered_record_history_witness :
  (last_order (abs "work/q1" (log_of (msgs service1) stream1)) sample_counter <=
   last_order (abs "work/q1" (log_of (msgs service3) stream1)) sample_counter)%N.
Proof.
  refine (proj2 (ordered_record_history any any 0 ∅ (threads1, msgs service1) (threads3, msgs service3)
    "work/q1" stream1 sample_subject
    (new_record sample_id "prio" (Some "a") zeroRank due_none 0) sample_counter good_empty _ _ _ _));
    [apply sample_schedule..|vm_compute; reflexivity|vm_compute; reflexivity].
Defined.

End OrderedProps.
