(* ===== verification/OrderedRun.v ===== *)
(** * A mutating method on its own: bounds, latch discipline, and the exact reply when no
    one interferes, acknowledgements lost or not. *)

From S2P Require Import Prelude GoText Storage Names OrderedCodec Prog OrderedStore OrderedSpec OrderedRefine OrderedSafety.
Open Scope stdpp_scope.
Import Names Codec Store Spec Refine Safety.

Module OrderedRun.

(** ** Calls *)

Definition is_batch (e : event) : bool := match e with publishBatch _ _ => true | _ => false end.
Definition is_read (e : event) : bool := match e with lastMsgForSubject _ _ => true | _ => false end.
Definition is_sleep (e : event) : bool := match e with sleep _ => true | _ => false end.

(** The latch discipline of a program that owns [held]: a scope is acquired only when none
    is held, batches are published and the scope released only while it is held; [Q] is
    what holds of the reply and of the latch on return. *)
Fixpoint latch {A} (Q : A -> option string -> Prop) (held : option string) (p : M A) : Prop :=
  match p with
  | Ret a => Q a held
  | Vis e k =>
      match e return (reply e -> option string -> Prop) -> Prop with
      | acquireScope key => fun ok => held = None /\ ok None (Some key) /\ (forall e, ok (Some e) None)
      | releaseScope key => fun ok => held = Some key /\ ok tt None
      | publishBatch _ _ => fun ok => is_Some held /\ forall r, ok r held
      | _ => fun ok => forall r, ok r held
      end (fun r h => latch Q h (k r))
  end.

Lemma latch_bind {A B} (Q : B -> option string -> Prop) held (p : M A) (f : A -> M B) :
  latch (fun a h => latch Q h (f a)) held p -> latch Q held (bind p f).
Proof.
  revert held. induction p as [a|e k IH]; intros held; cbn; [done|].
  destruct e; cbn; try (intros H r; by apply IH).
  - intros [Hh H]. split; [done|]. intros r. by apply IH.
  - intros (Hh & H1 & H2). split_and!; [done|by apply IH|]. intros e. by apply IH.
  - intros [Hh H]. split; [done|by apply IH].
Qed.

Lemma latch_mono {A} (Q Q' : A -> option string -> Prop) h (p : M A) :
  (forall a h', Q a h' -> Q' a h') -> latch Q h p -> latch Q' h p.
Proof.
  intros HQ. revert h. induction p as [a|e k IH]; intros h; [apply HQ|].
  destruct e; cbn; try (intros H r; by apply IH); intros H; destruct_and?; split_and!; auto.
Qed.

Definition random_u64 (e : event) : reply e -> Prop :=
  match e with randomUint64 => fun r => u64 r | _ => fun _ => True end.
Definition sleep_below (bound : Z) (e : event) : Prop :=
  match e with sleep d => (0 <= d < bound)%Z | _ => True end.

Lemma wrap64_small z : i64 z -> wrap64 z = z.
Proof. unfold i64, MinInt64, MaxInt64, wrap64. intros. lia. Qed.

Section bounds.
Context {S : Storage}.

Lemma orderedBackoff_every base shift maxShift :
  (0 < base)%Z -> (0 <= maxShift)%Z -> (base * 2 ^ maxShift <= MaxInt64)%Z ->
  every random_u64 (sleep_below (base * 2 ^ Z.min (Z.max shift 0) maxShift))
    (orderedBackoff base shift maxShift).
Proof.
  intros Hb Hm Hmax. unfold orderedBackoff. destruct (Z.leb_spec base 0); [done|].
  set (sh := Z.min (Z.max shift 0) maxShift).
  assert (Hsh : (0 <= sh <= maxShift)%Z) by lia.
  rewrite Z.shiftl_mul_pow2 by lia.
  assert (Hp1 : (0 < 2 ^ sh)%Z) by (apply Z.pow_pos_nonneg; lia).
  assert (Hp2 : (2 ^ sh <= 2 ^ maxShift)%Z) by (apply Z.pow_le_mono_r; lia).
  assert (Hw : (0 < base * 2 ^ sh <= MaxInt64)%Z) by nia.
  rewrite (wrap64_small (base * 2 ^ sh)) by (unfold i64, MinInt64 in *; lia).
  rewrite (Z.mod_small (base * 2 ^ sh)) by (unfold MaxInt64 in *; lia).
  cbn. split; [done|]. intros r _. split; [|done].
  pose proof (Z.mod_pos_bound (Z.of_N r) (base * 2 ^ sh) ltac:(lia)) as Hr.
  rewrite wrap64_small by (unfold i64, MinInt64, MaxInt64 in *; lia). done.
Qed.

Lemma every_sleep_mono {A} b1 b2 (p : M A) :
  (b1 <= b2)%Z -> every random_u64 (sleep_below b1) p -> every random_u64 (sleep_below b2) p.
Proof.
  intros Hb. induction p as [a|e k IH]; cbn; [done|]. intros [He Hk]. split; [|auto].
  destruct e; cbn in *; lia || done.
Qed.

Context (base : Z) (id : OrderedID) (rks : string) (value : option string) (rank : Rank) (due : Due).

Lemma at_most_res {A B} f n m (p : M (res A)) (g : A -> M (res B)) :
  at_most f n p -> (forall a, at_most f m (g a)) -> at_most f (n + m) (bind_res p g).
Proof. intros Hp Hg. apply at_most_bind; [done|]. intros [a|e]; [done|exact I]. Qed.

Lemma readRecord_at_most f spec subj :
  at_most f (if f (lastMsgForSubject spec subj) then 1 else 0) (readRecord spec subj).
Proof.
  cbn. destruct (f _); intros [[q d]|e]; cbn; try done;
    (destruct (q =? 0)%N; [done|by destruct (decodeOrderedRecord subj d)]).
Qed.

Lemma readCounter_at_most f spec subj :
  at_most f (if f (lastMsgForSubject spec subj) then 1 else 0) (readCounter spec subj).
Proof.
  cbn. destruct (f _); intros [[q d]|e]; cbn; try done;
    (destruct (q =? 0)%N; [done|by destruct (decodeOrderedCounter d)]).
Qed.

Lemma attempt_at_most f spec counter record nb nr :
  (forall st ms, f (publishBatch st ms) = nb) -> (forall s, f (lastMsgForSubject spec s) = nr) ->
  at_most f (Nat.b2n nr + (Nat.b2n nb + Nat.b2n nr))
    (create_attempt id rks value rank due spec counter record).
Proof.
  intros Hb Hr. unfold create_attempt. apply at_most_res.
  { pose proof (readCounter_at_most f spec counter) as H. by rewrite Hr in H. }
  intros [q last]. destruct (_ =? _)%N; [done|].
  destruct (encodeOrderedRecord _); cbn [bind_res bind]; [|done].
  assert (Hread : forall B (g : option (OrderedRecord * N) -> M (res B)),
    (forall x, at_most f 0 (g x)) -> at_most f (Nat.b2n nr) (bind_res (readRecord spec record) g)).
  { intros B g Hg. replace (Nat.b2n nr) with (Nat.b2n nr + 0) by lia. apply at_most_res; [|done].
    pose proof (readRecord_at_most f spec record) as H. by rewrite Hr in H. }
  assert (Hrest : forall r, at_most f (Nat.b2n nr)
    match r with
    | None => Ret (Ok (Some (new_record id rks value rank due last, true)))
    | Some e =>
        if is_precondition e then bind_res (readRecord spec record) (fun found =>
          match found with Some (winner, _) => Ret (Ok (Some (winner, false))) | None => Ret (Ok None) end)
        else if is_ordered_ambiguous e then bind_res (readRecord spec record) (fun found =>
          match found with
          | Some (winner, _) =>
              Ret (Ok (Some (winner, orderedRecordEqual winner (new_record id rks value rank due last))))
          | None => Ret (Err (OrderedAmbiguousError OrderedCreateOperation id e))
          end)
        else Ret (Err e)
    end).
  { intros [e|]; [|done]. destruct (is_precondition e); [|destruct (is_ordered_ambiguous e); [|done]];
      apply Hread; intros [[]|]; done. }
  cbn [bind at_most seam call]. rewrite Hb. destruct nb; exact Hrest.
Qed.

Lemma loop_at_most f n spec counter record nb nr ns :
  (forall st ms, f (publishBatch st ms) = nb) -> (forall s, f (lastMsgForSubject spec s) = nr) ->
  (forall d, f (sleep d) = ns) -> f randomUint64 = false ->
  at_most f (n * (Nat.b2n ns + (Nat.b2n nr + (Nat.b2n nb + Nat.b2n nr))))
    (create_loop base n id rks value rank due spec counter record).
Proof.
  intros Hb Hr Hs Hrnd. induction n as [|n IH]; [done|]. rewrite create_loop_S.
  cbn [Nat.mul]. rewrite <- Nat.add_assoc. apply at_most_bind.
  - destruct (1 <? _)%Z; [|done]. unfold waitBeforeRetry, orderedBackoff. destruct (_ <=? _)%Z; [done|].
    cbn. rewrite Hrnd. intros r. rewrite Hs. by destruct ns.
  - intros [e|]; [done|]. apply at_most_res; [by apply attempt_at_most|]. by intros [r|].
Qed.

Lemma Create_at_most f nb nr ns :
  (forall st ms, f (publishBatch st ms) = nb) -> (forall sp s, f (lastMsgForSubject sp s) = nr) ->
  (forall d, f (sleep d) = ns) -> f randomUint64 = false ->
  (forall sp, f (ensureStream sp) = false) -> (forall k, f (acquireScope k) = false) ->
  (forall k, f (releaseScope k) = false) ->
  at_most f (Nat.b2n nr + 64 * (Nat.b2n ns + (Nat.b2n nr + (Nat.b2n nb + Nat.b2n nr))))
    (Create base id rks value rank due).
Proof.
  intros Hb Hr Hs Hrnd He Ha Hrel. unfold Create.
  destruct (orderedLocation id) as [[[spec counter] record]|]; [|done].
  cbn [bind_res bind at_most seam call]. rewrite He. intros [e|]; [done|].
  apply at_most_res.
  { pose proof (readRecord_at_most f spec record) as H. by rewrite Hr in H. }
  intros [[existing q]|]; [done|].
  destruct (ValidateName rks); [done|]. destruct (ValidateOrderedValue value); [done|].
  destruct (ValidateDue due); [done|].
  cbn [bind_res bind at_most seam call]. rewrite Ha. intros [e|]; [done|].
  rewrite <- (Nat.add_0_r (64 * _)). apply at_most_bind; [by apply loop_at_most|].
  intros out. cbn. by rewrite Hrel.
Qed.

(** Reads and waits keep the latch. *)
Lemma latch_read {B} (Q : res B -> option string -> Prop) held spec subj g :
  (forall e, Q (Err e) held) -> (forall x, latch Q held (g x)) ->
  latch Q held (bind_res (readRecord spec subj) g).
Proof.
  intros He Hg. intros [[q d]|e]; cbn; [|done].
  destruct (q =? 0)%N; [apply Hg|]. destruct (decodeOrderedRecord subj d); [apply Hg|apply He].
Qed.

Lemma latch_counter {B} (Q : res B -> option string -> Prop) held spec subj g :
  (forall e, Q (Err e) held) -> (forall x, latch Q held (g x)) ->
  latch Q held (bind_res (readCounter spec subj) g).
Proof.
  intros He Hg. intros [[q d]|e]; cbn; [|done].
  destruct (q =? 0)%N; [apply Hg|]. destruct (decodeOrderedCounter d); [apply Hg|apply He].
Qed.

Lemma latch_wait {B} (Q : B -> option string -> Prop) held attempt g :
  (forall r, latch Q held (g r)) -> latch Q held (bind (waitBeforeRetry base attempt) g).
Proof.
  intros Hg. unfold waitBeforeRetry, orderedBackoff. destruct (_ <=? _)%Z; [exact (Hg None)|].
  intros r r'. apply Hg.
Qed.

Lemma attempt_latch spec counter record :
  latch (fun _ h => h = Some counter) (Some counter)
    (create_attempt id rks value rank due spec counter record).
Proof.
  unfold create_attempt. apply latch_counter; [done|]. intros [q last].
  destruct (_ =? _)%N; [done|]. destruct (encodeOrderedRecord _); cbn [bind_res bind]; [|done].
  split; [by eexists|]. intros [e|]; cbn [bind seam call]; [|done].
  destruct (is_precondition e); [|destruct (is_ordered_ambiguous e); [|done]];
    (apply latch_read; [done|]); intros [[]|]; done.
Qed.

Lemma loop_latch n spec counter record :
  latch (fun _ h => h = Some counter) (Some counter)
    (create_loop base n id rks value rank due spec counter record).
Proof.
  induction n as [|n IH]; [done|]. rewrite create_loop_S.
  assert (Hbody : forall r : option error, latch (fun _ h => h = Some counter) (Some counter)
    (match r with
     | Some e => Ret (Err e)
     | None => bind_res (create_attempt id rks value rank due spec counter record)
         (fun done => match done with
          | Some result => Ret (Ok result)
          | None => create_loop base n id rks value rank due spec counter record
          end)
     end)).
  { intros [e|]; [done|]. apply latch_bind.
    eapply latch_mono; [|apply attempt_latch]. intros [[r|]|e] h ->; [done|exact IH|done]. }
  destruct (1 <? _)%Z; [|exact (Hbody None)].
  apply latch_wait, Hbody.
Qed.

(** Waits of the retry loop stay in the capped window. *)
Lemma every_read {B} rok P spec subj (g : option (OrderedRecord * N) -> M (res B)) :
  (forall e, is_read e = true -> P e) -> (forall x, every rok P (g x)) ->
  every rok P (bind_res (readRecord spec subj) g).
Proof.
  intros HP Hg. split; [by apply HP|]. intros [[q d]|e] _; cbn; [|done].
  destruct (q =? 0)%N; [apply Hg|]. destruct (decodeOrderedRecord subj d); [apply Hg|done].
Qed.

Lemma every_counter {B} rok P spec subj (g : N * N -> M (res B)) :
  (forall e, is_read e = true -> P e) -> (forall x, every rok P (g x)) ->
  every rok P (bind_res (readCounter spec subj) g).
Proof.
  intros HP Hg. split; [by apply HP|]. intros [[q d]|e] _; cbn; [|done].
  destruct (q =? 0)%N; [apply Hg|]. destruct (decodeOrderedCounter d); [apply Hg|done].
Qed.

Lemma attempt_every bound spec counter record :
  every random_u64 (sleep_below bound) (create_attempt id rks value rank due spec counter record).
Proof.
  assert (Hread : forall e, is_read e = true -> sleep_below bound e) by (by intros []).
  unfold create_attempt. apply every_counter; [done|]. intros [q last].
  destruct (_ =? _)%N; [done|]. destruct (encodeOrderedRecord _); cbn [bind_res bind]; [|done].
  split; [done|]. intros [e|] _; cbn [bind seam call]; [|done].
  destruct (is_precondition e); [|destruct (is_ordered_ambiguous e); [|done]];
    (apply every_read; [done|]); intros [[]|]; done.
Qed.

Lemma wait_every attempt :
  (0 < base)%Z -> (base * 2 ^ orderedRetryMaxShift <= MaxInt64)%Z ->
  every random_u64 (sleep_below (base * 2 ^ orderedRetryMaxShift)) (waitBeforeRetry base attempt).
Proof.
  intros Hb Hmax. eapply every_sleep_mono; [|by apply orderedBackoff_every].
  apply Z.mul_le_mono_nonneg_l; [lia|]. apply Z.pow_le_mono_r; unfold orderedRetryMaxShift; lia.
Qed.

(** ** Properties *)

(** Backoff: with a positive base whose capped window fits a [time.Duration], every
    wait of [Create] is a non-negative duration below [base << 8], whatever entropy is
    drawn and however many attempts fail: no overflow, no division by a zero window. *)
Theorem Create_waits_bounded :
  (0 < base)%Z -> (base * 2 ^ orderedRetryMaxShift <= MaxInt64)%Z ->
  every random_u64 (sleep_below (base * 2 ^ orderedRetryMaxShift)) (Create base id rks value rank due).
Proof.
  intros Hb Hmax. set (bound := (base * 2 ^ orderedRetryMaxShift)%Z).
  assert (Hread : forall e, is_read e = true -> sleep_below bound e) by (by intros []).
  assert (Hloop : forall n spec counter record,
    every random_u64 (sleep_below bound) (create_loop base n id rks value rank due spec counter record)).
  { intros n spec counter record. induction n as [|n IH]; [done|]. rewrite create_loop_S.
    apply every_bind; [destruct (1 <? _)%Z; [by apply wait_every|done]|].
    intros [e|]; [done|]. apply every_bind; [apply attempt_every|]. by intros [[r|]|e]. }
  unfold Create. destruct (orderedLocation id) as [[[spec counter] record]|]; [|done].
  split; [done|]. intros [e|] _; [done|]. apply every_read; [done|]. intros [[existing q]|]; [done|].
  destruct (ValidateName rks); [done|]. destruct (ValidateOrderedValue value); [done|].
  destruct (ValidateDue due); [done|]. split; [done|]. intros [e|] _; [done|].
  apply (every_bind _ _ (create_loop base orderedCreateAttempts id rks value rank due spec counter record));
    [apply Hloop|done].
Qed.

(** Latch discipline of [Create]: on every path, whatever the replies, the scope latch
    is taken at most once and under the counter subject, every batch is published while
    it is held, and it is released exactly once before the call returns. *)
Theorem Create_latch :
  latch (fun _ held => held = None) None (Create base id rks value rank due).
Proof.
  unfold Create. destruct (orderedLocation id) as [[[spec counter] record]|]; [|done].
  intros [e|]; [done|]. apply latch_read; [done|]. intros [[existing q]|]; [done|].
  destruct (ValidateName rks); [done|]. destruct (ValidateOrderedValue value); [done|].
  destruct (ValidateDue due); [done|].
  split_and!; [done| |done].
  refine (latch_bind _ _ (create_loop base orderedCreateAttempts id rks value rank due spec counter record) _ _).
  refine (latch_mono _ _ _ _ _ (loop_latch _ _ _ _)). intros out h ->. done.
Qed.

(** Termination and cost of [Create]: at most 64 batch publishes, at most 64 waits
    and at most 129 reads, whatever the service replies. *)
Theorem Create_bounded :
  at_most is_batch 64 (Create base id rks value rank due) /\
  at_most is_sleep 64 (Create base id rks value rank due) /\
  at_most is_read 129 (Create base id rks value rank due).
Proof.
  split_and!.
  - by apply (Create_at_most is_batch true false false).
  - by apply (Create_at_most is_sleep false false true).
  - by apply (Create_at_most is_read false true false).
Qed.
End bounds.

Theorem Create_waits_bounded_witness :
  every random_u64 (sleep_below 25600000)
    (Create (S := Reference.reference) orderedRetryBase sample_id "prio" None zeroRank
       {| DueStateOf := 0; UnixMillis := 0 |}).
Proof.
  refine (Create_waits_bounded (S := Reference.reference) orderedRetryBase sample_id "prio" None zeroRank
    {| DueStateOf := 0; UnixMillis := 0 |} _ _); vm_compute; [reflexivity|discriminate].
Defined.

(** ** A method running alone *)

(** The publish of the call is answered in full, or its acknowledgement is lost after the
    service did or did not commit. *)
Definition alone (o : outcome) : Prop := match o with Normal | LostAck _ => True | _ => False end.
Definition committed (o : outcome) : bool := match o with LostAck c => c | _ => true end.

(** The reply [out] and the final index [x'], when the specification answers [sp] on [x]:
    exactly [sp] when the write committed, whether or not the acknowledgement arrived;
    when it did not, either the specification does not write and its reply is given, or
    it does and the outcome is reported as unknown, with nothing written. *)
Definition settled {A} (o : outcome) (op : option OrderedOperation) (x x' : index) (out : res A)
    (sp : res A * index) : Prop :=
  if committed o then sp = (out, x')
  else x' = x /\
    (sp = (out, x) \/
     exists r id' op', op = Some op' /\ sp.1 = Ok r /\ out = Err (OrderedAmbiguousError op' id' lost_ack)).

Lemma settled_same {A} o op x (out : res A) sp : sp = (out, x) -> settled o op x x out sp.
Proof. intros ->. unfold settled. destruct (committed o); auto. Qed.

Lemma fake_publish_fenced f s ms o :
  fences_hold (log_of (msgs f) s) ms -> script f = [o] -> alone o ->
  fake_publish f s ms =
    (match o with Normal => None | _ => Some lost_ack end,
     {| msgs := if committed o then append (msgs f) s ms else msgs f; script := [] |}).
Proof.
  intros Hf Hs Ho. unfold fake_publish. rewrite Hs. unfold fake_commit. rewrite decide_True by done.
  by destruct o as [|[]| |].
Qed.

Section alone.
Context {S : Storage} {L : StorageLaws S}.
Context (id : OrderedID) (spec : orderedStreamSpec) (counter record : string).
Context (Hloc : orderedLocation id = Ok (spec, counter, record)).
Notation ns := (Namespace id).
Notation lg f := (log_of (msgs f) (stream spec)).
Notation ix f := (abs ns (lg f)).

Lemma run_read {B} (k : option (OrderedRecord * N) -> M (res B)) f :
  good ns (lg f) ->
  run fake_handle (bind_res (readRecord spec record) k) f =
  run fake_handle
    (k (option_map (fun r => (r, (head (lg f) record).1)) (records (ix f) !! record))) f.
Proof.
  intros Hg. pose proof (record_value id record (lg f) Hg (loc_record id spec counter record Hloc)) as H.
  cbn. destruct (head (lg f) record) as [q d] eqn:E. cbn in H |- *. destruct (N.eqb_spec q 0) as [Hq|Hq].
  - rewrite decide_True in H by done. by rewrite H.
  - rewrite decide_False in H by done. destruct H as (r & Hd & ->). by rewrite Hd.
Qed.

Lemma run_counter {B} (k : N * N -> M (res B)) f :
  good ns (lg f) ->
  run fake_handle (bind_res (readCounter spec counter) k) f =
  run fake_handle (k ((head (lg f) counter).1, last_order (ix f) counter)) f.
Proof.
  intros Hg.
  pose proof (counter_value _ _ _ _ Hg (loc_counter id spec counter record Hloc)) as H.
  cbn. destruct (head (lg f) counter) as [q d] eqn:E. cbn in H |- *. destruct (N.eqb_spec q 0) as [Hq|Hq].
  - rewrite decide_True in H by done. by rewrite H.
  - rewrite decide_False in H by done. by rewrite H.
Qed.

Lemma orderedRecordEqual_refl r : orderedRecordEqual r r = true.
Proof.
  unfold orderedRecordEqual. rewrite !bool_decide_eq_true_2, !N.eqb_refl, Bool.eqb_reflx, String.eqb_refl by done.
  done.
Qed.

Lemma lg_append f ms s : log_of (append (msgs f) (stream spec) ms) (stream spec) = lg f ++ stored ms /\
  (s <> stream spec -> log_of (append (msgs f) (stream spec) ms) s = log_of (msgs f) s).
Proof.
  rewrite !log_of_append, decide_True by done. split; [done|]. intros. by rewrite decide_False.
Qed.

(** The stream after a publish that was accepted or whose outcome is unknown. *)
Lemma published f ms o : good ns (lg f) -> commits ns (lg f) ms ->
  let f1 := {| msgs := if committed o then append (msgs f) (stream spec) ms else msgs f; script := [] |} in
  lg f1 = (if committed o then lg f ++ stored ms else lg f) /\ good ns (lg f1).
Proof.
  intros Hg Hc f1. assert (E : lg f1 = if committed o then lg f ++ stored ms else lg f).
  { unfold f1. cbn [msgs]. destruct (committed o); [|done]. by apply (lg_append f ms EmptyString). }
  split; [done|]. rewrite E. destruct (committed o); [|done].
  eapply moves_good; [|exact Hg]. apply rtc_once. right; eauto.
Qed.

Lemma alone_revise op expected value rank due cur f o out f' :
  op = OrderedUpdateOperation /\ ValidateOrderedValue value = None /\
    ValidateDue due = None /\ typed_args rank due \/ op = OrderedDeleteOperation ->
  Deleted cur = false -> Revision cur = expected -> Revision cur <> MaxUint64 ->
  good ns (lg f) -> records (ix f) !! record = Some cur -> script f = [o] -> alone o ->
  run fake_handle (commitRevision spec record (head (lg f) record).1
    (next_of op cur value rank due) expected op) f = (out, f') ->
  settled o (Some op) (ix f) (ix f') out (spec_rev op id expected value rank due (ix f)).
Proof.
  intros Hop Hlive Hrev Hmax Hg Hcur Hs Ho Hrun.
  destruct (next_facts id record op expected value rank due Hop cur Hrev Hmax _ (proj2 Hg) Hcur)
    as (Hid & Hnext & Ht).
  pose proof (spec_rev_live id spec counter record Hloc op expected value rank due Hop cur Hlive Hrev Hmax
    id (ix f) eq_refl Hcur) as Hsp.
  set (next := next_of op cur value rank due) in *.
  unfold commitRevision in Hrun. destruct (encodeOrderedRecord next) as [payload|e] eqn:Henc.
  2: { cbn in Hrun. injection Hrun as <- <-. apply settled_same. rewrite Hsp.
       unfold encodeOrderedRecord in Henc. destruct (ValidateOrderedRecord next); congruence. }
  pose (ms := [{| subject := record; data := payload; expectLastSeq := (head (lg f) record).1 |}]).
  assert (Hf : fences_hold (lg f) ms) by (by apply Forall_singleton).
  destruct (encoded_ok next payload record Henc Ht) as [Hdec Hval].
  { rewrite Hid. by destruct (inv_record _ _ (proj2 Hg) _ _ Hcur) as (? & _). }
  rewrite Hval in Hsp. rewrite Hsp.
  destruct (commits_revise id spec counter record (lg f) cur next (head (lg f) record).1 payload
    (fun x => (Ok next, put x record next)) Hloc Hg Hcur Hid Ht ltac:(lia) Henc (fun _ => eq_refl))
    as [Hc Habs].
  { intros x' [= <-]. by eapply spec_rev_step. }
  fold ms in Hc, Habs. injection Habs as Habs.
  cbn [bind_res bind seam call run fake_handle] in Hrun. fold ms in Hrun.
  rewrite (fake_publish_fenced f (stream spec) ms o Hf Hs Ho) in Hrun.
  destruct (published f ms o Hg Hc) as [Hlg1 Hg1]. set (f1 := {| msgs := _; script := [] |}) in *.
  assert (Hix1 : ix f1 = if committed o then put (ix f) record next else ix f)
    by (rewrite Hlg1; by destruct (committed o)).
  destruct o as [|c|e|other]; try done.
  - injection Hrun as <- <-. unfold settled. cbn [committed] in *. by rewrite Hix1.
  - change (is_precondition lost_ack) with false in Hrun. change (is_ordered_ambiguous lost_ack) with true in Hrun.
    cbv iota in Hrun. rewrite run_read in Hrun by done.
    unfold settled. destruct c; cbn [committed] in *; rewrite Hix1 in Hrun.
    + cbn [records put] in Hrun. rewrite lookup_insert_eq in Hrun. cbn [option_map] in Hrun.
      rewrite orderedRecordEqual_refl in Hrun. injection Hrun as <- <-. by rewrite Hix1.
    + rewrite Hcur in Hrun. cbn [option_map] in Hrun.
      destruct (orderedRecordEqual cur next) eqn:Eeq.
      { apply record_equal in Eeq as (_ & _ & E & _). lia. }
      injection Hrun as <- <-. rewrite Hix1. split; [done|]. right. by exists next, (ID next), op.
Qed.

Lemma spec_create_absent rks value rank due x :
  ValidateName rks = None -> ValidateOrderedValue value = None -> ValidateDue due = None ->
  records x !! record = None ->
  spec_create x id rks value rank due =
    let last := last_order x counter in let rec := new_record id rks value rank due last in
    if (last =? MaxUint64)%N then (Err (OrderedOrderExhaustedError id last), x)
    else match ValidateOrderedRecord rec with
         | Some e => (Err e, x)
         | None => (Ok (rec, true), allocate x counter record rec)
         end.
Proof. intros Hn Hv Hd Hx. unfold spec_create. by rewrite Hloc, Hx, Hn, Hv, Hd. Qed.

(** The fences of a create hold of what it has just read. *)
Lemma create_fences f cdata payload : good ns (lg f) -> records (ix f) !! record = None ->
  fences_hold (lg f) [{| subject := counter; data := cdata; expectLastSeq := (head (lg f) counter).1 |};
                      {| subject := record; data := payload; expectLastSeq := 0 |}].
Proof.
  intros Hg Hx. apply Forall_cons. split; [done|]. apply Forall_singleton. cbn.
  pose proof (record_value id record (lg f) Hg (loc_record id spec counter record Hloc)) as H.
  destruct (decide _); [done|]. destruct H as (? & _ & ?). congruence.
Qed.

Lemma alone_attempt rks value rank due f o r f' :
  typed_args rank due -> ValidateName rks = None -> ValidateOrderedValue value = None ->
  ValidateDue due = None -> good ns (lg f) -> records (ix f) !! record = None ->
  script f = [o] -> alone o ->
  run fake_handle (create_attempt id rks value rank due spec counter record) f = (r, f') ->
  exists out, settled o (Some OrderedCreateOperation) (ix f) (ix f') out
                (spec_create (ix f) id rks value rank due) /\
    r = match out with Ok x => Ok (Some x) | Err e => Err e end.
Proof.
  intros Hty Hn Hv Hd Hg Hx Hs Ho Hrun.
  unfold create_attempt in Hrun. rewrite run_counter in Hrun by done.
  pose proof (spec_create_absent rks value rank due (ix f) Hn Hv Hd Hx) as Hsp.
  cbv zeta in Hsp.
  destruct (N.eqb_spec (last_order (ix f) counter) MaxUint64) as [|Hmax].
  { injection Hrun as <- <-. exists (Err (OrderedOrderExhaustedError id (last_order (ix f) counter))).
    split; [by apply settled_same|done]. }
  set (rec := new_record id rks value rank due (last_order (ix f) counter)) in *.
  destruct (encodeOrderedRecord rec) as [payload|e] eqn:Henc.
  2: { injection Hrun as <- <-. exists (Err e). split; [|done]. apply settled_same. rewrite Hsp.
       unfold encodeOrderedRecord in Henc. destruct (ValidateOrderedRecord rec); congruence. }
  pose (ms := [{| subject := counter; data := encodeOrderedCounter (Order rec); expectLastSeq := (head (lg f) counter).1 |};
               {| subject := record; data := payload; expectLastSeq := 0 |}]).
  pose proof (create_fences f (encodeOrderedCounter (Order rec)) payload Hg Hx) as Hf.
  destruct (commits_create id spec counter record rks value rank due (lg f) _ payload
    Hloc Hg Hty Hn Hv Hd Hmax Henc Hf) as [Hc Habs].
  fold rec in Hc, Habs. fold ms in Hc, Habs. clear Hsp.
  cbn [bind_res bind seam call run fake_handle] in Hrun. fold ms in Hrun.
  rewrite (fake_publish_fenced f (stream spec) ms o Hf Hs Ho) in Hrun.
  destruct (published f ms o Hg Hc) as [Hlg1 Hg1]. set (f1 := {| msgs := _; script := [] |}) in *.
  destruct o as [|c|e|other]; try done.
  - injection Hrun as <- <-. exists (Ok (rec, true)). split; [|done]. unfold settled. cbn [committed] in *.
    by rewrite Hlg1.
  - change (is_precondition lost_ack) with false in Hrun. change (is_ordered_ambiguous lost_ack) with true in Hrun.
    cbv iota in Hrun. rewrite run_read in Hrun by done.
    unfold settled. destruct c; cbn [committed] in *; rewrite Hlg1 in Hrun.
    + pose proof Habs as (sp & c' & r' & El & _ & Ea & _)%spec_create_Ok. rewrite Hloc in El.
      injection El as <- <- <-. rewrite Ea in Hrun. cbn [records allocate] in Hrun.
      rewrite lookup_insert_eq in Hrun. cbn [option_map] in Hrun.
      rewrite orderedRecordEqual_refl in Hrun. injection Hrun as <- <-.
      exists (Ok (rec, true)). split; [by rewrite Hlg1|done].
    + rewrite Hx in Hrun. cbn [option_map] in Hrun. injection Hrun as <- <-.
      exists (Err (OrderedAmbiguousError OrderedCreateOperation id lost_ack)).
      split; [|done]. rewrite Hlg1. split; [done|]. right. exists (rec, true), id, OrderedCreateOperation.
      by rewrite Habs.
Qed.

Lemma alone_create base rks value rank due f o out f' :
  typed_args rank due -> good ns (lg f) -> script f = [o] -> alone o ->
  run fake_handle (Create base id rks value rank due) f = (out, f') ->
  settled o (Some OrderedCreateOperation) (ix f) (ix f') out (spec_create (ix f) id rks value rank due).
Proof.
  intros Hty Hg Hs Ho Hrun. unfold Create in Hrun. rewrite Hloc in Hrun.
  cbn [bind_res bind seam call run fake_handle] in Hrun.
  set (f1 := {| msgs := _; script := script f |}) in Hrun.
  assert (Hlg1 : lg f1 = lg f) by (unfold f1, log_of; cbn [msgs]; by rewrite lookup_insert_eq).
  rewrite run_read in Hrun by (by rewrite Hlg1). rewrite Hlg1 in Hrun. rewrite <- Hlg1.
  assert (Hx1 : ix f1 = ix f) by (by rewrite Hlg1).
  destruct (records (ix f) !! record) as [existing|] eqn:Hx; cbn [option_map] in Hrun.
  { injection Hrun as <- <-. apply settled_same. unfold spec_create. by rewrite Hloc, Hx1, Hx. }
  assert (Hret : forall e, spec_create (ix f1) id rks value rank due = (Err e, ix f1) ->
    (Err e, f1) = (out, f') ->
    settled o (Some OrderedCreateOperation) (ix f1) (ix f') out (spec_create (ix f1) id rks value rank due)).
  { intros e He [= <- <-]. by apply settled_same. }
  assert (Hguards : spec_create (ix f1) id rks value rank due =
    match (guard? ValidateName rks; guard? ValidateOrderedValue value; guard? ValidateDue due; Ok tt) with
    | Err e => (Err e, ix f1) | Ok _ => spec_create (ix f1) id rks value rank due end)
    by (unfold spec_create; rewrite Hloc, Hx1, Hx; by destruct (guard? ValidateName rks; _)).
  destruct (ValidateName rks) eqn:Hn; [by eapply Hret|].
  destruct (ValidateOrderedValue value) eqn:Hv; [by eapply Hret|].
  destruct (ValidateDue due) eqn:Hd; [by eapply Hret|]. clear Hret Hguards.
  cbn [bind_res bind seam call run fake_handle] in Hrun.
  rewrite run_bind in Hrun. unfold orderedCreateAttempts in Hrun. rewrite create_loop_S in Hrun.
  change (1 <? _)%Z with false in Hrun. cbn [bind] in Hrun.
  unfold bind_res in Hrun. rewrite run_bind in Hrun.
  destruct (run fake_handle (create_attempt id rks value rank due spec counter record) f1) as [r f2] eqn:E.
  destruct (alone_attempt rks value rank due f1 o r f2) as (out2 & Hset & ->); try done.
  { by rewrite Hlg1. } { by rewrite Hx1. }
  destruct out2 as [x|e]; cbn in Hrun; by injection Hrun as <- <-.
Qed.

Lemma alone_update expected value rank due f o out f' :
  typed_args rank due -> good ns (lg f) -> script f = [o] -> alone o ->
  run fake_handle (Update id expected value rank due) f = (out, f') ->
  settled o (Some OrderedUpdateOperation) (ix f) (ix f') out (spec_update (ix f) id expected value rank due).
Proof.
  intros Hty Hg Hs Ho Hrun. unfold Update in Hrun. rewrite Hloc in Hrun. cbn [bind_res bind] in Hrun.
  rewrite run_read in Hrun by done.
  assert (Hret : forall e, spec_update (ix f) id expected value rank due = (Err e, ix f) -> (Err e, f) = (out, f') ->
    settled o (Some OrderedUpdateOperation) (ix f) (ix f') out (spec_update (ix f) id expected value rank due))
    by (intros e He [= <- <-]; by apply settled_same).
  unfold spec_update in Hret at 1. rewrite Hloc in Hret.
  destruct (records (ix f) !! record) as [cur|] eqn:Hx; cbn [option_map] in Hrun; [|by eapply Hret].
  destruct (Deleted cur) eqn:Hd; [by eapply Hret|].
  destruct (ValidateOrderedValue value) eqn:Hv; [by eapply Hret|].
  destruct (ValidateDue due) eqn:Hdue; [by eapply Hret|]. unfold spec_revise in Hret.
  destruct (N.eqb_spec (Revision cur) expected) as [Hr|]; [|by eapply Hret]. cbn [negb] in *.
  destruct (N.eqb_spec (Revision cur) MaxUint64) as [|Hmax]; [by eapply Hret|].
  eapply (alone_revise OrderedUpdateOperation expected value rank due cur f o out f'); try done. by left.
Qed.

Lemma alone_delete expected f o out f' :
  good ns (lg f) -> script f = [o] -> alone o -> run fake_handle (Delete id expected) f = (out, f') ->
  settled o (Some OrderedDeleteOperation) (ix f) (ix f') out (spec_delete (ix f) id expected).
Proof.
  intros Hg Hs Ho Hrun. unfold Delete in Hrun. rewrite Hloc in Hrun. cbn [bind_res bind] in Hrun.
  rewrite run_read in Hrun by done.
  assert (Hret : forall out0, spec_delete (ix f) id expected = (out0, ix f) -> (out0, f) = (out, f') ->
    settled o (Some OrderedDeleteOperation) (ix f) (ix f') out (spec_delete (ix f) id expected))
    by (intros e He [= <- <-]; by apply settled_same).
  unfold spec_delete in Hret at 1. rewrite Hloc in Hret.
  destruct (records (ix f) !! record) as [cur|] eqn:Hx; cbn [option_map] in Hrun; [|by eapply Hret].
  destruct (Deleted cur) eqn:Hd; [by eapply Hret|]. unfold spec_revise in Hret.
  destruct (N.eqb_spec (Revision cur) expected) as [Hr|]; [|by eapply Hret]. cbn [negb] in *.
  destruct (N.eqb_spec (Revision cur) MaxUint64) as [|Hmax]; [by eapply Hret|].
  eapply (alone_revise OrderedDeleteOperation expected None zeroRank {| DueStateOf := NotDue; UnixMillis := 0 |}
            cur f o out f'); try done. by right.
Qed.

Lemma alone_get f out f' :
  good ns (lg f) -> run fake_handle (Get id) f = (out, f') -> out = spec_get (ix f) id /\ f' = f.
Proof.
  intros Hg Hrun. unfold Get in Hrun. rewrite Hloc in Hrun. cbn [bind_res bind] in Hrun.
  rewrite run_read in Hrun by done. unfold spec_get. rewrite Hloc.
  by destruct (records (ix f) !! record); injection Hrun as <- <-.
Qed.
End alone.

Lemma settled_unflagged o op x x' out sp :
  settled o op x x' out sp -> settled o op x x' (unflagged out) (let (r, y) := sp in (unflagged r, y)).
Proof.
  unfold settled. destruct (committed o); [by intros ->|].
  intros [-> [->|(r & id' & op' & -> & Hr & ->)]]; (split; [done|]); [by left|right].
  destruct sp as [r' y]. cbn in Hr. subst r'. by exists (r, false), id', op'.
Qed.

(** C30. A method running alone, from any state the store could have reached, answers and
    leaves exactly what the specification says, on every branch.  A lost acknowledgement
    of a write that committed is resolved to the same success by the read-back; of one
    that did not, to an [OrderedAmbiguousError] with nothing written. *)
Theorem method_alone {S : Storage} {L : StorageLaws S} base m f o out f' :
  good_backend (msgs f) -> typed_method m -> script f = [o] -> alone o ->
  run fake_handle (method_prog base m) f = (out, f') ->
  match orderedLocation (method_id m) with
  | Err e => out = Err e /\ f' = f
  | Ok (spec, _, _) =>
      let x := abs (Namespace (method_id m)) (log_of (msgs f) (stream spec)) in
      let x' := abs (Namespace (method_id m)) (log_of (msgs f') (stream spec)) in
      settled o (method_op m) x x' out (method_spec m x)
  end.
Proof.
  intros Hb Hty Hs Ho Hrun.
  destruct (orderedLocation (method_id m)) as [[[spec counter] record]|e] eqn:Hloc.
  - pose proof (Hb _ _ (loc_stream _ _ _ _ Hloc)) as Hg.
    destruct m as [id|id rks value rank due|id expected value rank due|id expected]; cbn [method_id] in *;
      cbn [method_prog method_spec method_op] in *.
    + rewrite run_bind in Hrun. destruct (run fake_handle (Get id) f) as [r f1] eqn:E.
      destruct (alone_get id spec counter record Hloc f r f1 Hg E) as [-> ->]. injection Hrun as <- <-.
      by apply settled_same.
    + by eapply alone_create.
    + rewrite run_bind in Hrun. destruct (run fake_handle (Update id expected value rank due) f) as [r f1] eqn:E.
      injection Hrun as <- <-. apply settled_unflagged. by eapply alone_update.
    + rewrite run_bind in Hrun. destruct (run fake_handle (Delete id expected) f) as [r f1] eqn:E.
      injection Hrun as <- <-. apply settled_unflagged. by eapply alone_delete.
  - destruct m; cbn [method_id method_prog] in *; unfold Get, Create, Update, Delete in Hrun;
      rewrite Hloc in Hrun; cbn in Hrun; by injection Hrun as <- <-.
Qed.

Definition lost_create : method :=
  mCreate sample_id "prio" (Some "a") zeroRank {| DueStateOf := 0; UnixMillis := 0 |}.
Definition lost_service : fake := {| msgs := ∅; script := [LostAck true] |}.

Theorem method_alone_witness :
  fst (run fake_handle (method_prog (S := Reference.reference) 0 lost_create) lost_service) =
  Ok (new_record sample_id "prio" (Some "a") zeroRank {| DueStateOf := 0; UnixMillis := 0 |} 0, true).
Proof.
  destruct (run fake_handle (method_prog (S := Reference.reference) 0 lost_create) lost_service) as [out f'] eqn:E.
  assert (Hty : typed_method lost_create) by (vm_compute; repeat split; discriminate).
  pose proof (method_alone (S := Reference.reference) 0 lost_create lost_service (LostAck true) out f'
    good_empty Hty eq_refl I E) as H.
  destruct (orderedLocation (method_id lost_create)) as [[[spec c] r]|] eqn:El;
    [|vm_compute in El; discriminate].
  cbv zeta in H. change (abs _ (log_of (msgs lost_service) _)) with empty_index in H.
  assert (Hs : fst (method_spec (S := Reference.reference) lost_create empty_index) =
    Ok (new_record sample_id "prio" (Some "a") zeroRank {| DueStateOf := 0; UnixMillis := 0 |} 0, true))
    by (vm_compute; reflexivity).
  unfold settled in H. cbn [committed] in H. rewrite H in Hs. exact Hs.
Defined.

End OrderedRun.
