(* ===== verification/OrderedLinked.v ===== *)
(** * The store linked with its seam: processes of this package over one JetStream.

    [newOrderedStore(newJetStreamOrderedSeam(nc, js))] of natsstore.go.  [link] replaces
    each call a method makes of the seam by the seam's own program, so that what is left
    are calls of the NATS client and of the runtime.  Any number of processes, each with
    its nonce, its counter and its cache, run any number of methods; their client calls
    interleave one by one, and the server may drop a batch that waits for its commit. *)

From S2P Require Import Prelude GoText Encoding Storage Nats Names OrderedCodec Prog OrderedStore OrderedSeam OrderedSeamProps.
From S2P Require Import OrderedSpec OrderedRefine OrderedSafety OrderedProps.
From Stdlib Require Import Ascii.
Open Scope stdpp_scope.
Import Names Codec Store Seam SeamProps Spec Refine Safety OrderedProps.

Module Linked.

(** ** Linking *)

(** A call of the client, or of the runtime: the latch, the entropy source, the timer. *)
Inductive lcall :=
  | Client (c : jcall)
  | Local (e : event).

Definition lreply (c : lcall) : Type :=
  match c with Client c => jreply c | Local e => reply e end.

Fixpoint lift {A} (p : prog jreply A) : prog lreply A :=
  match p with
  | Ret a => Ret a
  | Vis c k => Vis (Client c) (fun r => lift (k r))
  end.

Section link.
Context {J : JetStream}.

Fixpoint link (batchNonce : string) {A} (p : prog reply A) : prog lreply A :=
  match p with
  | Ret a => Ret a
  | Vis e k =>
      match seam_prog batchNonce e with
      | Some q => bind (lift q) (fun r => link batchNonce (k r))
      | None => Vis (Local e) (fun r => link batchNonce (k r))
      end
  end.

(** ** The world *)

(** The server, and of each process its cache of verified streams and how many batch ids it
    has drawn.  [w_issued] is auxiliary: who drew each id. *)
Record world := {
  w_logs : backend;
  w_staged : gmap string (list nats_msg);
  w_issued : gmap string nat;
  w_cache : gmap nat (gmap string handle);
  w_count : gmap nat N }.

Definition count (p : nat) (w : world) : N := default 0%N (w_count w !! p).

(** What one process sees. *)
Definition view (p : nat) (w : world) : jserver :=
  {| logs := w_logs w; staged := w_staged w; issued := w_issued w; cache := default ∅ (w_cache w !! p) |}.

(** The stream a subject is routed to: the one whose filter [OI.<namespace>.>] it matches. *)
Definition route (subject : string) : option string :=
  '(root, rest) ← Cut subject ".";
  if decide (root = orderedSubjectRoot) then
    '(namespace, _) ← Cut rest "."; Some (orderedStreamPrefix +:+ namespace)
  else None.

Section system.
Context (batchNonce : nat -> string) (p i : nat).

(** Drawing the batch id numbered [n]. *)
Definition draw (n : N) (w : world) : world :=
  {| w_logs := w_logs w; w_staged := w_staged w;
     w_issued := <[nextBatchID (batchNonce p) n := i]> (w_issued w);
     w_cache := w_cache w; w_count := <[p := n]> (w_count w) |}.

(** The other processes' own state. *)
Definition same_others (w w' : world) : Prop :=
  w_count w' = w_count w /\ forall q, q <> p -> w_cache w' !! q = w_cache w !! q.

(** A client call of thread [i], which runs in process [p]; the counter stays within its
    64 bits. *)
Definition client_handle (c : jcall) (w : world) : jreply c -> world -> Prop :=
  match c as c0 return jreply c0 -> world -> Prop with
  | batchID_Add => fun r w' => r = (count p w + 1)%N /\ u64 r /\ w' = draw r w
  | c0 => fun r w' => jhandle (batchNonce p) route i c0 (view p w) r (view p w') /\ same_others w w'
  end.

(** The runtime's calls end early only because a context does. *)
Definition link_fault (e : error) : Prop :=
  seam_fault e \/ e = context_Canceled \/ e = context_DeadlineExceeded.

Definition lhandle (c : lcall) (w : world) : lreply c -> world -> Prop :=
  match c as c0 return lreply c0 -> world -> Prop with
  | Client c => client_handle c w
  | Local e => fun r w' => w' = w /\ Store.handle link_fault seam_may_commit e (w_logs w) r (w_logs w)
  end.
End system.

(** The server forgets a batch, or part of it, before its commit arrives. *)
Definition env_step (w w' : world) : Prop :=
  w_logs w' = w_logs w /\ w_issued w' = w_issued w /\ w_cache w' = w_cache w /\ w_count w' = w_count w /\
  forall id, default [] (w_staged w' !! id) `sublist_of` default [] (w_staged w !! id).
End link.

Section proofs.
Context {S : Storage} {L : StorageLaws S} {J : JetStream}.
Context (processes : nat) (entropy : nat -> string) (retryBase : Z).
Context (Hentropy : forall p, String.length (entropy p) = orderedBatchNonceBytes).
Context (Hdistinct : forall p q, p < processes -> q < processes -> entropy p = entropy q -> p = q).
Context (Hheader : ExpectedLastSubjSeqHeader <> orderedHdrBatchID /\ ExpectedLastSubjSeqHeader <> orderedHdrBatchSeq /\
  ExpectedLastSubjSeqHeader <> orderedHdrBatchCommit).

Definition nonce (p : nat) : string := newOrderedBatchNonce (entropy p).
Notation handle_of p i := (lhandle nonce p i).

(** A thread runs a method in a process. *)
Definition linked_body (t : nat * method) : prog lreply (res (OrderedRecord * bool)) :=
  link (nonce t.1) (method_prog retryBase t.2).
Definition linked_allowed (t : nat * method) : Prop := t.1 < processes /\ typed_method t.2.
Definition linked_step := ipool_step (fun i t => handle_of t.1 i) env_step linked_body linked_allowed.

(** ** Invariant, rely, guarantee *)

Record world_ok (w : world) : Prop := {
  ok_views p : server_ok (view p w);
  (** an id in use was drawn by its process *)
  ok_drawn id j : w_issued w !! id = Some j -> exists q n,
    q < processes /\ id = nextBatchID (nonce q) n /\ u64 n /\ (1 <= n <= count q w)%N }.

Definition lcommon (w w' : world) : Prop := rely (w_logs w) (w_logs w') /\ (world_ok w -> world_ok w').

Definition staged_of (id : string) (w : world) : list nats_msg := default [] (w_staged w !! id).

Definition lrely (i : nat) (w w' : world) : Prop :=
  lcommon w w' /\
  forall id, w_issued w !! id = Some i -> w_issued w' !! id = Some i /\ staged_of id w' `sublist_of` staged_of id w.

Definition lguar (i : nat) (w w' : world) : Prop :=
  guar (w_logs w) (w_logs w') /\ (world_ok w -> world_ok w') /\ w_issued w ⊆ w_issued w' /\
  forall id, w_issued w !! id <> Some i -> staged_of id w' = staged_of id w.

#[export] Instance lcommon_refl : Reflexive lcommon.
Proof. by intros w. Qed.
#[export] Instance lcommon_trans : Transitive lcommon.
Proof. intros w1 w2 w3 [H1 K1] [H2 K2]. split; [by etrans|auto]. Qed.
#[export] Instance lrely_refl i : Reflexive (lrely i).
Proof. by intros w. Qed.
#[export] Instance lrely_trans i : Transitive (lrely i).
Proof.
  intros w1 w2 w3 [C1 H1] [C2 H2]. split; [by etrans|]. intros id [Hi S1]%H1. apply H2 in Hi as [? S2].
  split; [done|by etrans].
Qed.

Lemma lguar_common i w w' : lguar i w w' -> lcommon w w'.
Proof. intros (H & K & _). split; [by apply rtc_once|done]. Qed.

Lemma lguar_rely i j w w' : i <> j -> lguar i w w' -> lrely j w w'.
Proof.
  intros Hne Hg. split; [by eapply lguar_common|]. destruct Hg as (_ & _ & Hsub & Hst). intros id Hid.
  split; [by eapply lookup_weaken|]. rewrite Hst; [done|congruence].
Qed.

Lemma dropped_ok w w' : env_step w w' -> world_ok w -> world_ok w'.
Proof.
  intros (Hl & Hi & Hc & Hn & Hs) [Hv Hd]. split.
  - intros p. destruct (Hv p) as [Hok Hfree]. split; [cbn; by rewrite Hc|]. cbn. rewrite Hi. intros id Hid.
    specialize (Hfree id Hid). specialize (Hs id). unfold staged_at in *. cbn [staged view] in *.
    rewrite Hfree in Hs. by apply sublist_nil_r.
  - intros id j. unfold count. rewrite Hi, Hn. apply Hd.
Qed.

Lemma dropped_common w w' : env_step w w' -> lcommon w w'.
Proof. intros He. split; [by rewrite (proj1 He)|by apply dropped_ok]. Qed.

Lemma dropped_rely i w w' : env_step w w' -> lrely i w w'.
Proof.
  intros He. split; [by apply dropped_common|]. destruct He as (_ & Hi & _ & _ & Hs). intros id Hid.
  rewrite Hi. split; [done|apply Hs].
Qed.

(** ** What one process sees *)

Lemma rely_view i p w w' : lrely i w w' -> world_ok w -> jrely i rely (view p w) (view p w').
Proof. intros [[Hr Hok] Hs] Hw. split; [done|]. split; [exact Hs|]. intros _. by apply Hok. Qed.

Lemma client_view p i c w r w' :
  p < processes -> client_handle nonce p i c w r w' -> world_ok w -> jhandle (nonce p) route i c (view p w) r (view p w').
Proof.
  intros Hp Hc Hw. destruct c; try exact (proj1 Hc). destruct Hc as (-> & Hu & ->). split; [|done].
  cbn [issued view]. destruct (w_issued w !! _) as [j|] eqn:E; [exfalso|done].
  apply (ok_drawn _ Hw) in E as (q & n & Hq & E & Hn & Hle).
  apply nextBatchID_unique in E as [Ep En]; [|apply Hentropy..|done|done]. apply Hdistinct in Ep; [|done..]. subst. lia.
Qed.

(** Only drawing an id touches the ids and the counters. *)
Lemma jhandle_issued n o i c s r s' : jhandle n o i c s r s' ->
  match c with batchID_Add => True | _ => issued s' = issued s end.
Proof.
  destruct c; cbn; intros H; try done;
    first [by rewrite H|by rewrite (proj1 H)|exact (proj1 (proj2 H))|exact (proj2 (proj2 (proj1 H)))].
Qed.

Lemma client_frame p i c w r w' :
  client_handle nonce p i c w r w' ->
  (u64 (count p w + 1) /\ w' = draw nonce p i (count p w + 1) w) \/ (w_issued w' = w_issued w /\ same_others p w w').
Proof.
  intros Hc. destruct c; try (right; exact (conj (jhandle_issued _ _ _ _ _ _ _ (proj1 Hc)) (proj2 Hc))).
  destruct Hc as (-> & Hu & ->). by left.
Qed.

Lemma count_draw p i n w q : count q (draw nonce p i n w) = if decide (q = p) then n else count q w.
Proof. unfold count. cbn. case_decide; [subst; by rewrite lookup_insert_eq|by rewrite lookup_insert_ne]. Qed.

(** A call of the client keeps the world sound, when its process's view stays so. *)
Lemma client_ok p i c w r w' :
  p < processes -> client_handle nonce p i c w r w' -> world_ok w -> server_ok (view p w') -> world_ok w'.
Proof.
  intros Hp Hc Hw [Hcache Hfree]. pose proof (client_frame _ _ _ _ _ _ Hc) as Hf.
  split.
  - intros q. split; [|exact Hfree]. destruct (decide (q = p)) as [->|Hq]; [done|].
    assert (E : w_cache w' !! q = w_cache w !! q) by (destruct Hf as [[_ ->]|(_ & _ & Hs)]; [done|by apply Hs]).
    cbn. rewrite E. apply (ok_views _ Hw q).
  - destruct Hf as [[Hu ->]|(Hi & Hn & _)]; [|unfold count; rewrite Hi, Hn; apply (ok_drawn _ Hw)].
    cbn. intros id j [[<- <-]|[_ Hid]]%lookup_insert_Some.
    + exists p, (count p w + 1)%N. rewrite count_draw, decide_True by done. split_and!; try done; lia.
    + apply (ok_drawn _ Hw) in Hid as (q & n & Hq & -> & Hn & Hle). exists q, n. split_and!; [done..|lia|].
      rewrite count_draw. case_decide; [subst; lia|lia].
Qed.

(** ** Linking is sound *)

(** A program of the seam, run by its process while it serves the call [e]. *)
Lemma lift_sound p i e b0 {A} (q : prog jreply A) Q w :
  (forall b r b', rely b0 b -> Store.handle seam_fault seam_may_commit e b r b' -> guar b b') ->
  p < processes -> rely b0 (w_logs w) -> world_ok w ->
  wp (jhandle (nonce p) route i) (jrely i rely) (jguar i e) q Q (view p w) ->
  wp (handle_of p i) (lrely i) (lguar i) (lift q) (fun a w' => Q a (view p w') /\ world_ok w') w.
Proof.
  intros HG Hp. revert w. induction q as [a|c k IH]; intros w Hb Hw H; cbn [lift wp].
  - intros w' Hr. split; [apply H; by eapply rely_view|by apply Hr].
  - intros w1 Hr r w2 Hc. assert (Hw1 : world_ok w1) by (by apply Hr).
    destruct (H (view p w1) ltac:(by eapply rely_view) r (view p w2) ltac:(by eapply client_view)) as [(Hl & Hi & Hs & Hok) Hk].
    assert (Hb1 : rely b0 (w_logs w1)) by (etrans; [done|apply Hr]).
    assert (Hg : guar (w_logs w1) (w_logs w2)).
    { destruct Hl as [Hl|[r' Hl]]; [left; cbn in Hl; by rewrite Hl|by eapply HG]. }
    assert (Hw2 : world_ok w2) by (eapply client_ok; [done..|by apply Hok, ok_views]).
    split; [by split_and!|]. apply IH; [|done|done]. etrans; [exact Hb1|by apply rtc_once].
Qed.

Lemma handle_mono f m f' m' e b r b' :
  (forall e, f e -> f' e) -> (forall e, m e -> m' e) ->
  Store.handle f m e b r b' -> Store.handle f' m' e b r b'.
Proof.
  intros Hf Hm. assert (Ho : forall o, fault_of f o -> fault_of f' o) by (intros [|]; cbn; auto).
  assert (Hp : forall st ms o, publish_contract f m b st ms o b' -> publish_contract f' m' b st ms o b').
  { intros st ms [e'|]; cbn; [|done]. intros [Hfe H]. split; [auto|]. destruct (is_precondition e'); [done|].
    destruct H as [?|(? & ? & ?)]; auto. }
  destruct e; cbn; intros H; try exact H; try (apply Hp, H).
  - split; [apply Ho, H|apply H].
  - destruct H as [H1 H2]. split; [done|]. destruct r; [done|by apply Hf].
  - split; [apply H|apply Ho, H].
  - split; [apply H|apply Ho, H].
Qed.

(** What a method knows of the seam's contract holds of the linked program. *)
Lemma link_sound p i {A} (q : prog reply A) Q w :
  p < processes -> world_ok w -> every typed_reply (seam_args route) q ->
  wp (Store.handle link_fault seam_may_commit) rely guar q Q (w_logs w) ->
  wp (handle_of p i) (lrely i) (lguar i) (link (nonce p) q) (fun a w' => Q a (w_logs w')) w.
Proof.
  intros Hp. revert w. induction q as [a|e k IH]; intros w Hw Ha H; cbn [link].
  - intros w' Hr. apply H, Hr.
  - destruct Ha as [He Hk]. destruct (seam_prog (nonce p) e) as [q|] eqn:Eq.
    + assert (HG : forall b r b', rely (w_logs w) b -> Store.handle seam_fault seam_may_commit e b r b' -> guar b b' /\
        wp (Store.handle link_fault seam_may_commit) rely guar (k r) Q b').
      { intros b r b' Hb Hh. apply (H b Hb). eapply handle_mono; [|done|exact Hh]. by left. }
      apply (wp_bind (handle_of p i) (lrely i) (lguar i)).
      eapply wp_mono; [apply (lift_sound p i e (w_logs w)); [by intros; eapply HG|done..|]|].
      { by apply (seam_refines (nonce p) route i rely Hheader e q (view p w)); [..|apply ok_views]. }
      intros r w' [(Ht & b & b' & H1 & Hh & H2) Hw']. apply IH; [done|by apply Hk|].
      refine (wp_rely _ rely guar _ _ _ _ H2 _). by apply (HG b r b').
    + intros w1 Hr r w2 [-> Hh]. split; [split_and!; [by apply guar_refl|done..]|].
      apply IH; [by apply Hr| |].
      * apply Hk. by destruct e.
      * by apply (H (w_logs w1) ltac:(apply Hr)).
Qed.

(** ** The methods call the seam as it expects *)

Lemma route_prefix ns rest :
  route ((orderedSubjectRoot +:+ String "." (encodeStream ns)) +:+ String "." rest) =
  Some (orderedStreamPrefix +:+ encodeStream ns).
Proof.
  rewrite str_app_assoc, str_cons_app. unfold route. rewrite Cut_app by done. cbn [mbind option_bind].
  rewrite decide_True by done. by rewrite Cut_app by apply encodeStream_no_dot.
Qed.

Lemma route_location id spec counter record : orderedLocation id = Ok (spec, counter, record) ->
  route counter = Some (stream spec) /\ route record = Some (stream spec).
Proof.
  unfold orderedLocation, orderedStreamName, orderedSubjectFilter, orderedCounterSubject, orderedRecordSubject,
    orderedNamespacePrefix.
  destruct (ValidateOrderedID id); [done|]. destruct (ValidateName (Namespace id)); [done|].
  cbv beta iota. destruct (ValidateName (OrderingScope id)); [done|]. cbv beta iota.
  intros [= <- <- <-]. cbn [stream]. split; apply route_prefix.
Qed.

Notation calls_ok := (every typed_reply (seam_args route)).

Lemma calls_seam {A} e (k : reply e -> prog reply A) :
  seam_args route e -> (forall r, typed_reply e r -> calls_ok (k r)) -> calls_ok (bind (seam e) k).
Proof. by split. Qed.

Lemma every_bind_res {A B} (q : prog reply (res A)) (f : A -> prog reply (res B)) :
  calls_ok q -> (forall a, calls_ok (f a)) -> calls_ok (bind_res q f).
Proof. intros Hq Hf. apply every_bind; [done|]. by intros [a|e]. Qed.

Section located.
Context (id : OrderedID) (spec : orderedStreamSpec) (counter record : string).
Context (Hloc : orderedLocation id = Ok (spec, counter, record)).

Lemma every_readRecord {A} subj (f : option (OrderedRecord * N) -> prog reply (res A)) :
  (forall found, match found with Some (_, seq) => u64 seq | None => True end -> calls_ok (f found)) ->
  calls_ok (bind_res (readRecord spec subj) f).
Proof.
  intros H. split; [done|]. intros [[seq data]|e] Hr; cbn; [|done]. destruct (seq =? 0)%N; cbn; [by apply H|].
  destruct (decodeOrderedRecord subj data); cbn; [by apply H|done].
Qed.

Lemma every_readCounter {A} (f : N * N -> prog reply (res A)) :
  (forall seq last, u64 seq -> calls_ok (f (seq, last))) -> calls_ok (bind_res (readCounter spec counter) f).
Proof.
  intros H. split; [done|]. intros [[seq data]|e] Hr; cbn; [|done]. destruct (seq =? 0)%N; cbn; [by apply H|].
  destruct (decodeOrderedCounter data); cbn; [by apply H|done].
Qed.

Lemma calls_create_attempt rks value rank due :
  calls_ok (create_attempt id rks value rank due spec counter record).
Proof.
  destruct (route_location _ _ _ _ Hloc) as [Hc Hr]. unfold create_attempt. apply every_readCounter.
  intros seq last Hseq. destruct (last =? MaxUint64)%N; [done|]. cbn zeta.
  destruct (encodeOrderedRecord _) as [payload|e]; [|done]. split.
  - split; [|done]. by repeat constructor.
  - intros [e|] _; cbn; [|done]. destruct (is_precondition e); [|destruct (is_ordered_ambiguous e); [|done]].
    all: apply every_readRecord; by intros [[winner ?]|] _.
Qed.

Lemma calls_backoff base shift maxShift : calls_ok (orderedBackoff base shift maxShift).
Proof. unfold orderedBackoff. by destruct (base <=? 0)%Z. Qed.

Lemma calls_create_loop n rks value rank due :
  calls_ok (create_loop retryBase n id rks value rank due spec counter record).
Proof.
  induction n as [|n IH]; [done|]. rewrite create_loop_S. apply every_bind.
  - destruct (_ <? _)%Z; [apply calls_backoff|done].
  - intros [e|]; [done|]. apply every_bind_res; [apply calls_create_attempt|]. by intros [result|].
Qed.

Lemma calls_commitRevision expect next expected op : u64 expect ->
  calls_ok (commitRevision spec record expect next expected op).
Proof.
  destruct (route_location _ _ _ _ Hloc) as [_ Hr]. intros Hu. unfold commitRevision.
  destruct (encodeOrderedRecord next) as [payload|e]; [|done]. split; [by split|].
  intros [e|] _; cbn; [|done]. destruct (is_precondition e).
  { apply every_readRecord. intros [[current ?]|] _; [|done]. destruct (Deleted current); [by destruct op|done]. }
  destruct (is_ordered_ambiguous e); [|done].
  apply every_readRecord. intros [[current ?]|] _; [|done]. by destruct (orderedRecordEqual current next).
Qed.
End located.

Lemma calls_method m : calls_ok (method_prog retryBase m).
Proof.
  assert (Hun : forall q, calls_ok q -> calls_ok (r <- q; Ret (unflagged r))) by (intros; by apply every_bind).
  destruct (orderedLocation (method_id m)) as [[[spec counter] record]|e] eqn:Hl.
  2: { destruct m; cbn in Hl; unfold method_prog, Get, Create, Update, Delete; by rewrite Hl. }
  destruct m as [id|id rks value rank due|id expected value rank due|id expected]; cbn in Hl; cbn [method_prog];
    unfold Get, Create, Update, Delete; rewrite Hl; try apply Hun; cbn [bind_res bind].
  - apply every_readRecord. by intros [[]|] _.
  - apply calls_seam; [done|]. intros [e|] _; [done|]. apply every_readRecord. intros [[]|] _; [done|].
    repeat (case_match; [done|]). apply calls_seam; [done|]. intros [e|] _; [done|].
    apply every_bind; [by eapply calls_create_loop|done].
  - apply every_readRecord. intros [[current seq]|] Hseq; [|done]. repeat case_match; try done.
    by eapply calls_commitRevision.
  - apply every_readRecord. intros [[current seq]|] Hseq; [|done]. repeat case_match; try done.
    by eapply calls_commitRevision.
Qed.

(** ** Every schedule of the linked system *)

Definition linked_ok := ipool_ok (fun i t => handle_of t.1 i) linked_allowed (fun i _ => lrely i) (fun i _ => lguar i)
  lcommon (fun _ t w1 out w => method_post link_fault t.2 (w_logs w1) out (w_logs w)).

Lemma linked_start w0 : linked_ok w0 ([], w0).
Proof. split; [done|]. by intros []. Qed.

Lemma linked_sound w0 c c' : good_backend (w_logs w0) -> world_ok w0 ->
  rtc linked_step c c' -> linked_ok w0 c -> rely (w_logs c.2) (w_logs c'.2) /\ linked_ok w0 c'.
Proof.
  intros Hgood Hok Hrun Hc.
  destruct (ipool_sound (fun i t => handle_of t.1 i) env_step linked_body linked_allowed
    (fun i _ => lrely i) (fun i _ => lguar i) lcommon
    (fun _ t w1 out w => method_post link_fault t.2 (w_logs w1) out (w_logs w))
    (fun i _ => lguar_common i) (fun i _ j _ => lguar_rely i j) dropped_common (fun j _ => dropped_rely j)
    w0 c c') as [[Hr _] H]; [|done..].
  intros j [q m'] w' [Hq Ht] [Hw' Hok']. apply link_sound; [done|by apply Hok'|apply calls_method|].
  apply wp_method; [done|]. by eapply rely_good.
Qed.

(** A method that has returned, and where the world stands. *)
Lemma linked_returned w0 ts w i p m w1 out :
  good_backend (w_logs w0) -> linked_ok w0 (ts, w) -> ts !! i = Some ((p, m), w1, Ret out) ->
  good_backend (w_logs w1) /\ method_post link_fault m (w_logs w1) out (w_logs w).
Proof.
  intros Hg [_ Hts] Hi. destruct (Hts _ _ _ _ Hi) as (_ & [Hr _] & Hwp).
  split; [by eapply rely_good|]. by apply Hwp.
Qed.

(** C1. The whole ordered index, down to the NATS client: methods linked with the real seam,
    run by any number of threads in any number of processes whose client calls interleave
    freely over one JetStream, while the server loses acknowledgements and waiting batches.
    A method that returned [out] promises what [ordered_linearizable] says: its reply is the
    specification's at one instant between its start and now, or one of the listed
    failures; and every namespace's log has evolved only by operations of the abstract
    index, what was stored staying as it is. *)
Theorem linked_linearizable w0 ts w i p m w1 out :
  good_backend (w_logs w0) -> world_ok w0 -> rtc linked_step ([], w0) (ts, w) ->
  ts !! i = Some ((p, m), w1, Ret out) ->
  method_post link_fault m (w_logs w1) out (w_logs w) /\
  forall ns st, orderedStreamName ns = Ok st ->
    rtc (index_step ns) (abs ns (log_of (w_logs w0) st)) (abs ns (log_of (w_logs w) st)) /\
    log_of (w_logs w0) st `prefix_of` log_of (w_logs w) st.
Proof.
  intros Hgood Hok Hrun Hi. destruct (linked_sound w0 _ _ Hgood Hok Hrun (linked_start w0)) as [Hr Hsys].
  split; [by eapply linked_returned|]. intros ns st Hst. pose proof (rely_moves _ _ _ _ Hr Hst) as Hm.
  split; [by apply moves_steps|by eapply moves_prefix].
Qed.
End proofs.

(** ** Running one method by itself *)

Section running.
Context {J : JetStream}.
Context (batchNonce : nat -> string) (p i : nat).
Notation handle_pi := (lhandle batchNonce p i).

(** A call of the interface, served by the seam's program or by the runtime. *)
Definition served (e : event) (w : world) (r : reply e) (w' : world) : Prop :=
  match seam_prog (batchNonce p) e with
  | Some q => runs handle_pi (lift q) w r w'
  | None => handle_pi (Local e) w r w'
  end.

Fixpoint all_served (tr : list (ans reply)) (w w' : world) : Prop :=
  match tr with
  | [] => w' = w
  | existT e r :: tr => exists w1, served e w r w1 /\ all_served tr w1 w'
  end.

Lemma runs_link {A} (q : prog reply A) tr a w w' :
  exec q tr a -> all_served tr w w' -> runs handle_pi (link (batchNonce p) q) w a w'.
Proof.
  revert tr w. induction q as [x|e k IH]; intros tr w; cbn.
  - by intros [-> ->] ->.
  - intros (r & tr' & -> & He) (w1 & Hr & Ht). unfold served in Hr.
    destruct (seam_prog (batchNonce p) e) as [q|].
    + eapply runs_bind; [exact Hr|by apply (IH r tr')].
    + exists r, w1. split; [exact Hr|by apply (IH r tr')].
Qed.

(** The world with one process's view replaced. *)
Definition put (s : jserver) (w : world) : world :=
  {| w_logs := logs s; w_staged := staged s; w_issued := issued s;
     w_cache := <[p := cache s]> (w_cache w); w_count := w_count w |}.

Lemma view_put s w : view p (put s w) = s.
Proof. destruct s. unfold view, put. cbn. by rewrite lookup_insert_eq. Qed.

Lemma view_others s w : same_others p w (put s w).
Proof. split; [done|]. intros q Hq. cbn. by rewrite lookup_insert_ne. Qed.

(** A call that answers and leaves the view as it is. *)
Lemma runs_read {A} c (r : jreply c) (k : jreply c -> prog jreply A) w a w' :
  reads c = true -> jhandle (batchNonce p) route i c (view p w) r (view p w) ->
  runs handle_pi (lift (k r)) w a w' -> runs handle_pi (lift (bind (client c) k)) w a w'.
Proof. intros Hc H Hk. exists r, w. split; [|exact Hk]. by destruct c. Qed.

(** The handle the server's current answer makes. *)
Definition handle_at (spec : orderedStreamSpec) (w : world) : handle :=
  {| h_name := stream spec;
     h_info := Some (orderedStreamConfig spec, N.of_nat (length (log_of (w_logs w) (stream spec)))) |}.
Definition caching (spec : orderedStreamSpec) (w : world) : world :=
  put {| logs := w_logs w; staged := w_staged w; issued := w_issued w;
         cache := <[stream spec := handle_at spec w]> (cache (view p w)) |} w.

Lemma runs_verify spec w : verifyOrderedStreamConfig spec (orderedStreamConfig spec) = None ->
  runs handle_pi (lift (verifyAndCacheStream spec (handle_at spec w))) w None (caching spec w).
Proof.
  intros Hv. apply (runs_read (stream_Info (handle_at spec w)) (Ok (orderedStreamConfig spec))); [done|by split|].
  cbv beta iota. rewrite Hv. exists tt, (caching spec w). split; [|by split].
  split; [unfold caching; by rewrite view_put|apply view_others].
Qed.

Lemma runs_lift_bind {A B} (q : prog jreply A) (f : A -> prog jreply B) w a w1 b w2 :
  runs handle_pi (lift q) w a w1 -> runs handle_pi (lift (f a)) w1 b w2 -> runs handle_pi (lift (bind q f)) w b w2.
Proof.
  revert w. induction q as [x|c k IH]; intros w; cbn; [by intros [-> ->]|].
  intros (r & w3 & Hc & Hr) Hf. exists r, w3. split; [done|]. by eapply IH.
Qed.

(** The first use of a stream that does not exist provisions it. *)
Lemma runs_ensure spec w :
  verifyOrderedStreamConfig spec (orderedStreamConfig spec) = None ->
  cache (view p w) !! stream spec = None -> log_of (w_logs w) (stream spec) = [] ->
  served (ensureStream spec) w None (caching spec w).
Proof.
  intros Hv Hc Hl. unfold served. cbn [seam_prog]. unfold ensureStream_.
  apply (runs_read (cachedVerifiedStream (stream spec)) None); [done|by split|].
  apply (runs_read (js_Stream (stream spec)) (Err (Nats js_ErrStreamNotFound))); [done|by split_and!|].
  cbn [is_err]. change (is_nats js_ErrStreamNotFound (Nats js_ErrStreamNotFound)) with true. cbv iota.
  eapply (runs_lift_bind _ _ w (Ok (handle_at spec w)) w); [|by apply runs_verify].
  exists (Ok (handle_at spec w)), w. split; [|by split].
  split; [split_and!; try done; by left|done].
Qed.

(** Reading the current message of a subject, the stream known or verified first. *)
Lemma runs_get spec h subj w : h_name h = stream spec -> u64 (head (log_of (w_logs w) (stream spec)) subj).1 ->
  runs handle_pi (lift (m <- client (stream_GetLastMsgForSubject h subj);
    if is_err js_ErrMsgNotFound m then Ret (Ok (0%N, EmptyString))
    else match m with
         | Err err => Ret (Err (OrderedStreamOpError (stream spec) "get last message" err))
         | Ok seq_data => Ret (Ok seq_data) end)) w (Ok (head (log_of (w_logs w) (stream spec)) subj)) w.
Proof.
  intros Hh Hu. apply (runs_read (stream_GetLastMsgForSubject h subj) (Ok (head (log_of (w_logs w) (stream spec)) subj))); [done| |done].
  cbn [jhandle view logs]. by rewrite Hh.
Qed.

Lemma runs_last spec h subj w :
  cache (view p w) !! stream spec = Some h -> h_name h = stream spec -> u64 (head (log_of (w_logs w) (stream spec)) subj).1 ->
  served (lastMsgForSubject spec subj) w (Ok (head (log_of (w_logs w) (stream spec)) subj)) w.
Proof.
  intros Hc Hh Hu. unfold served. cbn [seam_prog]. unfold lastMsgForSubject_.
  apply (runs_read (cachedVerifiedStream (stream spec)) (Some h)); [done|by split|].
  by apply runs_get.
Qed.

Lemma runs_last_verified spec subj w :
  verifyOrderedStreamConfig spec (orderedStreamConfig spec) = None ->
  cache (view p w) !! stream spec = None -> u64 (head (log_of (w_logs w) (stream spec)) subj).1 ->
  served (lastMsgForSubject spec subj) w (Ok (head (log_of (w_logs w) (stream spec)) subj)) (caching spec w).
Proof.
  intros Hv Hc Hu. unfold served. cbn [seam_prog]. unfold lastMsgForSubject_.
  apply (runs_read (cachedVerifiedStream (stream spec)) None); [done|by split|].
  eapply runs_lift_bind with (a := Ok (Some (handle_at spec w))); [|by apply (runs_get spec _ subj (caching spec w))].
  apply (runs_read (js_Stream (stream spec)) (Ok (handle_at spec w))); [done|by split_and!|].
  cbn [is_err]. eapply runs_lift_bind; [by apply runs_verify|by split].
Qed.

(** A batch of two, whose acknowledgement is [bytes]. *)
Definition staging (m : nats_msg) (w : world) : world :=
  put {| logs := w_logs w; staged := <[batch_id m := staged_at (view p w) (batch_id m) ++ [m]]> (w_staged w);
         issued := w_issued w; cache := cache (view p w) |} w.
Definition committing (id st : string) (ms : list orderedMsg) (w : world) : world :=
  put {| logs := append (w_logs w) st ms; staged := <[id := []]> (w_staged w);
         issued := w_issued w; cache := cache (view p w) |} w.

Lemma runs_batch st m1 m2 w bytes ack :
  let n := (count p w + 1)%N in let id := nextBatchID (batchNonce p) n in
  let w1 := draw batchNonce p i n w in let w2 := staging (member id 0 false m1) w1 in
  duplicate_subject [] [m1; m2] = None -> u64 n -> decode_ack bytes = Some ack -> AckError ack = None ->
  BatchSize ack = 2%N -> batch_id (member id 0 false m1) = id -> batch_id (member id 1 true m2) = id ->
  staged_at (view p w) id = [] ->
  complete route st [member id 0 false m1; member id 1 true m2] [m1; m2] ->
  fences_hold (log_of (w_logs w) st) [m1; m2] ->
  served (publishBatch st [m1; m2]) w None (committing id st [m1; m2] w2).
Proof.
  intros n id w1 w2 Hdup Hu Hack Herr Hsize Hid1 Hid2 Hst Hcomp Hf.
  unfold served. cbn [seam_prog]. unfold publishBatch_. rewrite decide_False by done. rewrite Hdup.
  exists n, w1. split; [done|]. cbn [batch_loop].
  exists None, w2. split.
  { split; [|apply view_others]. unfold w2, staging. rewrite view_put. split; [done|]. split; [done|]. by right. }
  change (nextBatchID (batchNonce p) n) with id. change (0 + 1) with 1.
  exists (Ok bytes), (committing id st [m1; m2] w2). split.
  - split; [|apply view_others]. unfold committing. rewrite view_put. cbn [jhandle]. split_and!; try done.
    + rewrite Hid2. intros id' Hne. unfold staged_at. cbn [staged view]. by rewrite lookup_insert_ne.
    + rewrite Hack, Herr. exists st, [m1; m2]. split; [|by split].
      rewrite Hid2. unfold w2 at 1. unfold staging. rewrite view_put. unfold staged_at at 1. cbn [staged].
      rewrite Hid1, lookup_insert_eq. cbn [default]. unfold w1. change (staged_at (view p (draw batchNonce p i n w)) id)
        with (staged_at (view p w) id). rewrite Hst. exact Hcomp.
  - cbn [bind]. rewrite Hack. cbn [lift runs]. split; [|done].
    unfold classifyOrderedBatchAck. by rewrite Herr, Hsize.
Qed.

End running.

(** ** A schedule of two processes: one creates a record, the other reads it *)

Section example.
Existing Instance Reference.reference.
Existing Instance nats_go.

Definition entropy2 (p : nat) : string := if decide (p = 0) then "0123456789abcdef" else "fedcba9876543210".
Notation nonce2 := (nonce entropy2).
Notation step2 := (linked_step 2 entropy2 0).

Definition get1 : method := mGet sample_id.
Definition location1 : orderedStreamSpec * string * string :=
  get_ok ({| stream := EmptyString; subjectFilter := EmptyString |}, EmptyString, EmptyString) (orderedLocation sample_id).
Definition spec1 : orderedStreamSpec := location1.1.1.
Definition counter1 : string := location1.1.2.
Definition record1 : string := location1.2.
Definition rec1 : OrderedRecord := new_record sample_id "prio" (Some "a") zeroRank due_none 0.
Definition payload1 : string := get_ok EmptyString (encodeOrderedRecord rec1).
Definition counter_msg1 : orderedMsg := {| subject := counter1; data := encodeOrderedCounter (Order rec1); expectLastSeq := 0 |}.
Definition record_msg1 : orderedMsg := {| subject := record1; data := payload1; expectLastSeq := 0 |}.

Definition empty_world : world := {| w_logs := ∅; w_staged := ∅; w_issued := ∅; w_cache := ∅; w_count := ∅ |}.
Definition provisioned : world := caching 0 spec1 empty_world.
Definition draw1 : N := (count 0 provisioned + 1)%N.
Definition id1 : string := nextBatchID (nonce2 0) draw1.
Definition created : world :=
  committing 0 id1 (stream spec1) [counter_msg1; record_msg1]
    (staging 0 (member id1 0 false counter_msg1) (draw nonce2 0 0 draw1 provisioned)).
Definition read_back : world := caching 1 spec1 created.

Lemma create_trace : trace_of fake_handle (method_prog 0 create1) service0 =
  [existT (ensureStream spec1) None; existT (lastMsgForSubject spec1 record1) (Ok (0%N, EmptyString));
   existT (acquireScope counter1) None; existT (lastMsgForSubject spec1 counter1) (Ok (0%N, EmptyString));
   existT (publishBatch (stream spec1) [counter_msg1; record_msg1]) None; existT (releaseScope counter1) tt].
Proof. vm_compute. reflexivity. Qed.

Lemma get_trace : trace_of fake_handle (method_prog 0 get1) service1 =
  [existT (lastMsgForSubject spec1 record1) (Ok (2%N, payload1))].
Proof. vm_compute. reflexivity. Qed.

Lemma create_out : (run fake_handle (method_prog 0 create1) service0).1 = Ok (rec1, true).
Proof. vm_compute. reflexivity. Qed.
Lemma get_out : (run fake_handle (method_prog 0 get1) service1).1 = Ok (rec1, false).
Proof. vm_compute. reflexivity. Qed.

Lemma layout_ok : verifyOrderedStreamConfig spec1 (orderedStreamConfig spec1) = None.
Proof. vm_compute. reflexivity. Qed.

Lemma batch_ok : complete route (stream spec1) [member id1 0 false counter_msg1; member id1 1 true record_msg1]
  [counter_msg1; record_msg1].
Proof.
  split; [done|]. split; [|eexists; split; [reflexivity|vm_compute; reflexivity]].
  intros [|[|i]] nm m Hi Hm; [..|by destruct i].
  - injection Hi as <-. injection Hm as <-. vm_compute. split_and!; reflexivity.
  - injection Hi as <-. injection Hm as <-. vm_compute. split_and!; reflexivity.
Qed.

Lemma create_served : all_served nonce2 0 0 (trace_of fake_handle (method_prog 0 create1) service0) empty_world created.
Proof.
  rewrite create_trace. destruct sample_ack_ok as (ack & Hack & Herr & Hsize).
  exists provisioned. split; [by apply runs_ensure; [apply layout_ok|..]|].
  exists provisioned. split; [by apply (runs_last nonce2 0 0 spec1 (handle_at spec1 empty_world) record1 provisioned)|].
  exists provisioned. split; [split_and!; done|].
  exists provisioned. split; [by apply (runs_last nonce2 0 0 spec1 (handle_at spec1 empty_world) counter1 provisioned)|].
  exists created. split.
  { apply (runs_batch nonce2 0 0 (stream spec1) counter_msg1 record_msg1 provisioned sample_ack ack).
    - vm_compute. reflexivity.
    - done.
    - done.
    - done.
    - done.
    - vm_compute. reflexivity.
    - vm_compute. reflexivity.
    - vm_compute. reflexivity.
    - apply batch_ok.
    - change (w_logs provisioned) with (∅ : backend). unfold log_of. rewrite lookup_empty. by repeat constructor. }
  exists created. by split.
Qed.

Lemma get_served : all_served nonce2 1 1 (trace_of fake_handle (method_prog 0 get1) service1) created read_back.
Proof.
  rewrite get_trace. exists read_back. split; [|done].
  assert (E : head (log_of (w_logs created) (stream spec1)) record1 = (2%N, payload1)) by (vm_compute; reflexivity).
  rewrite <- E. apply runs_last_verified; [apply layout_ok|vm_compute; reflexivity|]. by rewrite E.
Qed.

Lemma empty_ok : world_ok 2 entropy2 empty_world.
Proof. by split. Qed.

Definition threads2 : list (nat * method * world * prog lreply (res (OrderedRecord * bool))) :=
  [((0, create1), empty_world, Ret (Ok (rec1, true))); ((1, get1), created, Ret (Ok (rec1, false)))].

Lemma create_runs : runs (lhandle nonce2 0 0) (linked_body entropy2 0 (0, create1)) empty_world (Ok (rec1, true)) created.
Proof. rewrite <- create_out. exact (runs_link nonce2 0 0 _ _ _ _ _ (exec_trace_of fake_handle _ service0) create_served). Qed.

Lemma get_runs : runs (lhandle nonce2 1 1) (linked_body entropy2 0 (1, get1)) created (Ok (rec1, false)) read_back.
Proof. rewrite <- get_out. exact (runs_link nonce2 1 1 _ _ _ _ _ (exec_trace_of fake_handle _ service1) get_served). Qed.

Lemma linked_create : rtc step2 ([], empty_world) ([((0, create1), empty_world, Ret (Ok (rec1, true)))], created).
Proof.
  eapply rtc_l; [apply (ipool_spawn _ _ _ _ [] empty_world (0, create1)); split; [cbn; lia|apply sample_typed_methods]|].
  exact (runs_ipool _ _ _ _ 0 (0, create1) _ _ _ _ _ [_] eq_refl create_runs).
Qed.

Lemma linked_schedule : rtc step2 ([], empty_world) (threads2, read_back).
Proof.
  etrans; [exact linked_create|].
  eapply rtc_l; [apply (ipool_spawn _ _ _ _ _ created (1, get1)); split; [cbn; lia|done]|].
  exact (runs_ipool _ _ _ _ 1 (1, get1) _ _ _ _ _ [_; _] eq_refl get_runs).
Qed.

Lemma entropy2_ok :
  (forall p, String.length (entropy2 p) = orderedBatchNonceBytes) /\
  (forall p q, p < 2 -> q < 2 -> entropy2 p = entropy2 q -> p = q).
Proof.
  split; unfold entropy2; [intros p; by case_decide|]. intros p q Hp Hq. repeat case_decide; first [done|lia].
Qed.

Theorem linked_linearizable_witness :
  method_post link_fault get1 (w_logs created) (Ok (rec1, false)) (w_logs read_back).
Proof.
  refine (proj1 (linked_linearizable 2 entropy2 0 (proj1 entropy2_ok) (proj2 entropy2_ok) _
    empty_world threads2 read_back 1 1 get1 created (Ok (rec1, false)) _ empty_ok linked_schedule eq_refl)).
  - vm_compute. repeat split; discriminate.
  - intros ns st _. apply good_nil.
Defined.
End example.
End Linked.
