(* ===== verification/OrderedIndex.v ===== *)
(** * [ordered.go], lines 639-682 and 1034-1185: the sort keys and the sorted indexes.

    The two frozen sort keys, the four binary searches (each counting the entries it
    visits), and the maintenance of a sorted index.  An index is characterised by
    [indexed]: strictly sorted, holding exactly the identities whose current record
    qualifies. *)

From S2P Require Import Prelude GoText Storage.
From Stdlib Require Import Ascii ZifyNat.
Open Scope stdpp_scope.

Module Index.

(** ** The sort keys *)

Record orderedIdentity := { orderingScope : string; stableKey : string }.
#[export] Instance orderedIdentity_eq_dec : EqDecision orderedIdentity.
Proof. solve_decision. Defined.
#[export] Instance orderedIdentity_countable : Countable orderedIdentity.
Proof.
  apply (inj_countable' (fun k => (orderingScope k, stableKey k))
           (fun p => {| orderingScope := p.1; stableKey := p.2 |})). by intros [].
Defined.

Definition identity_of (r : OrderedRecord) : orderedIdentity :=
  {| orderingScope := OrderingScope (ID r); stableKey := StableKey (ID r) |}.

Definition orderedComparator : Type := OrderedRecord -> OrderedRecord -> bool.

Definition orderedRankedBefore : orderedComparator := fun left right =>
  if negb (RankVal (RankOf left) =? RankVal (RankOf right))%Z
  then (RankVal (RankOf right) <? RankVal (RankOf left))%Z
  else if negb (String.eqb (StableKey (ID left)) (StableKey (ID right)))
  then str_ltb (StableKey (ID right)) (StableKey (ID left))
  else str_ltb (OrderingScope (ID right)) (OrderingScope (ID left)).

Definition orderedDueBefore : orderedComparator := fun left right =>
  if negb (UnixMillis (DueOf left) =? UnixMillis (DueOf right))%Z
  then (UnixMillis (DueOf left) <? UnixMillis (DueOf right))%Z
  else if negb (String.eqb (StableKey (ID left)) (StableKey (ID right)))
  then str_ltb (StableKey (ID left)) (StableKey (ID right))
  else str_ltb (OrderingScope (ID left)) (OrderingScope (ID right)).

(** The acceptance order of one order scope compares one scalar. *)
Definition orderBefore : orderedComparator := fun left right => (Order left <? Order right)%N.

(** What the index code needs of a sort key: a strict order; and, for the two frozen sort
    keys, that it is total over distinct identities. *)
Class Comparator (before : orderedComparator) := {
  before_irrefl r : before r r = false;
  before_trans a b c : before a b = true -> before b c = true -> before a c = true }.
Class TotalComparator (before : orderedComparator) :=
  before_total a b : identity_of a <> identity_of b -> before a b = true \/ before b a = true.

Lemma str_eqb_cases a b :
  (String.eqb a b = true /\ a = b) \/ (String.eqb a b = false /\ a <> b).
Proof. destruct (String.eqb_spec a b); auto. Qed.

Lemma ranked_before_iff a b :
  orderedRankedBefore a b = true <->
  (RankVal (RankOf b) < RankVal (RankOf a))%Z \/
  RankVal (RankOf a) = RankVal (RankOf b) /\
    (str_ltb (StableKey (ID b)) (StableKey (ID a)) = true \/
     StableKey (ID a) = StableKey (ID b) /\
       str_ltb (OrderingScope (ID b)) (OrderingScope (ID a)) = true).
Proof.
  unfold orderedRankedBefore.
  destruct (Z.eqb_spec (RankVal (RankOf a)) (RankVal (RankOf b))) as [E|]; cbn;
    [|rewrite Z.ltb_lt; intuition lia].
  destruct (str_eqb_cases (StableKey (ID a)) (StableKey (ID b))) as [[-> E2]|[-> E2]]; cbn.
  - rewrite E2, str_ltb_irrefl. intuition (try lia; try done).
  - intuition (try lia; try done).
Qed.

Lemma due_before_iff a b :
  orderedDueBefore a b = true <->
  (UnixMillis (DueOf a) < UnixMillis (DueOf b))%Z \/
  UnixMillis (DueOf a) = UnixMillis (DueOf b) /\
    (str_ltb (StableKey (ID a)) (StableKey (ID b)) = true \/
     StableKey (ID a) = StableKey (ID b) /\
       str_ltb (OrderingScope (ID a)) (OrderingScope (ID b)) = true).
Proof.
  unfold orderedDueBefore.
  destruct (Z.eqb_spec (UnixMillis (DueOf a)) (UnixMillis (DueOf b))) as [E|]; cbn;
    [|rewrite Z.ltb_lt; intuition lia].
  destruct (str_eqb_cases (StableKey (ID a)) (StableKey (ID b))) as [[-> E2]|[-> E2]]; cbn.
  - rewrite E2, str_ltb_irrefl. intuition (try lia; try done).
  - intuition (try lia; try done).
Qed.

Lemma identity_neq a b : identity_of a <> identity_of b ->
  StableKey (ID a) <> StableKey (ID b) \/ OrderingScope (ID a) <> OrderingScope (ID b).
Proof.
  intros H. destruct (decide (StableKey (ID a) = StableKey (ID b))) as [E|]; [right|by left].
  intros E2. apply H. unfold identity_of. by rewrite E, E2.
Qed.

(** Transitivity of a lexicographic order, one combination of deciding positions. *)
Ltac lexi :=
  first
    [ left; lia
    | right; split; [lia|]; left; eapply str_ltb_trans; eassumption
    | right; split; [lia|]; left; congruence
    | right; split; [lia|]; right; split; [congruence|]; eapply str_ltb_trans; eassumption ].

#[export] Instance ranked_comparator : Comparator orderedRankedBefore.
Proof.
  split.
  - intros r. apply not_true_iff_false. rewrite ranked_before_iff, !str_ltb_irrefl. intuition (try lia; try done).
  - intros a b c. rewrite !ranked_before_iff.
    intros [?|(? & [?|[? ?]])] [?|(? & [?|[? ?]])]; lexi.
Qed.
#[export] Instance ranked_total : TotalComparator orderedRankedBefore.
Proof.
  intros a b Hne. apply identity_neq in Hne. rewrite !ranked_before_iff.
  destruct (Z.lt_trichotomy (RankVal (RankOf a)) (RankVal (RankOf b))) as [?|[E|?]]; [auto| |auto].
  destruct (str_ltb_total (StableKey (ID a)) (StableKey (ID b))) as [Ek|[?|?]]; [|clear Hne; naive_solver..].
  destruct (str_ltb_total (OrderingScope (ID a)) (OrderingScope (ID b))) as [Eo|[?|?]];
    [destruct Hne; congruence|clear Hne; naive_solver..].
Qed.

#[export] Instance due_comparator : Comparator orderedDueBefore.
Proof.
  split.
  - intros r. apply not_true_iff_false. rewrite due_before_iff, !str_ltb_irrefl. intuition (try lia; try done).
  - intros a b c. rewrite !due_before_iff.
    intros [?|(? & [?|[? ?]])] [?|(? & [?|[? ?]])]; lexi.
Qed.
#[export] Instance due_total : TotalComparator orderedDueBefore.
Proof.
  intros a b Hne. apply identity_neq in Hne. rewrite !due_before_iff.
  destruct (Z.lt_trichotomy (UnixMillis (DueOf a)) (UnixMillis (DueOf b))) as [?|[E|?]]; [auto| |auto].
  destruct (str_ltb_total (StableKey (ID a)) (StableKey (ID b))) as [Ek|[?|?]]; [|clear Hne; naive_solver..].
  destruct (str_ltb_total (OrderingScope (ID a)) (OrderingScope (ID b))) as [Eo|[?|?]];
    [destruct Hne; congruence|clear Hne; naive_solver..].
Qed.

#[export] Instance order_comparator : Comparator orderBefore.
Proof.
  split; unfold orderBefore; [intros; apply N.ltb_irrefl|]. intros a b c.
  rewrite !N.ltb_lt. lia.
Qed.

(** ** Binary search *)

(** [for low < high { middle := low + (high-low)/2; visit; ... }]: the loop the four
    searches share; [right middle] is the test that moves [low] past the middle. *)
Fixpoint search_loop (fuel : nat) (right : nat -> bool) (low high visited : nat) : nat * nat :=
  match fuel with
  | 0 => (low, visited)
  | S fuel' =>
      if low <? high then
        let middle := low + (high - low) / 2 in
        if right middle then search_loop fuel' right (S middle) high (S visited)
        else search_loop fuel' right low middle (S visited)
      else (low, visited)
  end.

Section search.
Context (recs : gmap orderedIdentity OrderedRecord).

(** [v.records[key]]: a missing key reads the zero record. *)
Definition rec_of (key : orderedIdentity) : OrderedRecord := default zeroRecord (recs !! key).
Definition entry (entries : list orderedIdentity) (i : nat) : OrderedRecord :=
  match entries !! i with Some key => rec_of key | None => zeroRecord end.

Definition lowerBoundLocked (entries : list orderedIdentity) (before : orderedComparator)
    (probe : OrderedRecord) : nat * nat :=
  search_loop (length entries) (fun middle => before (entry entries middle) probe) 0 (length entries) 0.

Definition upperBoundLocked (entries : list orderedIdentity) (before : orderedComparator)
    (probe : OrderedRecord) : nat * nat :=
  search_loop (length entries) (fun middle => negb (before probe (entry entries middle))) 0 (length entries) 0.

Definition orderLowerBoundLocked (entries : list orderedIdentity) (order : N) : nat * nat :=
  search_loop (length entries) (fun middle => (Order (entry entries middle) <? order)%N) 0 (length entries) 0.

Definition dueEndLocked (due : list orderedIdentity) (bound : Z) : nat * nat :=
  search_loop (length due) (fun middle => (UnixMillis (DueOf (entry due middle)) <=? bound)%Z) 0 (length due) 0.

(** The forward scan of [locateLocked] from [at]. *)
Fixpoint locate_scan (fuel : nat) (entries : list orderedIdentity) (before : orderedComparator)
    (record : OrderedRecord) (key : orderedIdentity) (at_ : nat) : option nat :=
  match fuel with
  | 0 => None
  | S fuel' =>
      match entries !! at_ with
      | None => None
      | Some k =>
          if before record (rec_of k) then None
          else if decide (k = key) then Some at_
          else locate_scan fuel' entries before record key (S at_)
      end
  end.

Definition locateLocked (entries : list orderedIdentity) (before : orderedComparator)
    (record : OrderedRecord) (key : orderedIdentity) : option nat * nat :=
  let (at_, visited) := lowerBoundLocked entries before record in
  (locate_scan (S (length entries)) entries before record key at_, visited).
End search.

(** [p] holds on a prefix: what makes the search meaningful. *)
Definition antitone (n : nat) (p : nat -> bool) : Prop :=
  forall i j, i <= j -> j < n -> p j = true -> p i = true.

Lemma search_loop_spec p n fuel low high visited k visits :
  antitone n p -> high - low <= fuel -> low <= high -> high <= n ->
  (forall i, i < low -> p i = true) -> (forall i, high <= i -> i < n -> p i = false) ->
  search_loop fuel p low high visited = (k, visits) ->
  low <= k <= high /\ (forall i, i < k -> p i = true) /\ (forall i, k <= i -> i < n -> p i = false) /\
  (forall b, high - low < 2 ^ b -> visits <= visited + b).
Proof.
  intros Hp. revert low high visited. induction fuel as [|fuel IH]; intros low high visited Hf Hlh Hn Hlo Hhi H; cbn [search_loop] in H; cbv zeta in H.
  - injection H as <- <-. assert (high = low) as -> by lia. split_and!; [lia..|done|done|intros; lia].
  - destruct (Nat.ltb_spec low high) as [Hlt|Hge].
    2: { injection H as <- <-. assert (high = low) as -> by lia. split_and!; [lia..|done|done|intros; lia]. }
    set (mid := low + (high - low) / 2) in H.
    assert (Hmid : low <= mid < high /\ mid - low = (high - low) / 2) by (unfold mid; lia).
    assert (Hb : forall b, high - low < 2 ^ b -> exists b', b = S b' /\ (high - low) / 2 < 2 ^ b').
    { intros [|b'] Hb; [cbn in Hb; lia|]. exists b'. rewrite Nat.pow_succ_r' in Hb. split; [done|lia]. }
    destruct (p mid) eqn:Ep.
    + apply IH in H as (Hk & H1 & H2 & Hv); try lia; try done.
      * split_and!; [lia..|done|done|]. intros b (b' & -> & Hb')%Hb. specialize (Hv b' ltac:(lia)). lia.
      * intros i Hi. apply (Hp i mid); [lia|lia|done].
    + apply IH in H as (Hk & H1 & H2 & Hv); try lia; try done.
      * split_and!; [lia..|done|done|]. intros b (b' & -> & Hb')%Hb. specialize (Hv b' ltac:(lia)). lia.
      * intros i Hi Hin. apply not_true_iff_false. intros Hc.
        rewrite (Hp mid i) in Ep by (done || lia). done.
Qed.

Lemma search_spec p n k visits :
  antitone n p -> search_loop n p 0 n 0 = (k, visits) ->
  k <= n /\ (forall i, i < k -> p i = true) /\ (forall i, k <= i -> i < n -> p i = false) /\
  visits <= (if decide (n = 0) then 0 else S (Nat.log2 n)).
Proof.
  intros Hp H. apply (search_loop_spec p n) in H as (Hk & H1 & H2 & Hv); try done; try lia.
  split_and!; [lia|done|done|]. case_decide as Hn; [subst; specialize (Hv 0 ltac:(cbn; lia)); lia|].
  apply (Hv (S (Nat.log2 n))). rewrite Nat.sub_0_r. apply Nat.log2_spec. lia.
Qed.

(** ** Sorted indexes *)

Section sorted.
Context (before : orderedComparator) `{!Comparator before}.
Implicit Types (recs : gmap orderedIdentity OrderedRecord) (l : list orderedIdentity).

Definition key_before recs (a b : orderedIdentity) : Prop :=
  before (rec_of recs a) (rec_of recs b) = true.

(** Every record sits under its own identity. *)
Definition keyed recs : Prop := forall k r, recs !! k = Some r -> identity_of r = k.

(** [l] is the sorted list of the identities whose record satisfies [P]. *)
Definition indexed recs (P : OrderedRecord -> Prop) l : Prop :=
  StronglySorted (key_before recs) l /\
  forall k, k ∈ l <-> exists r, recs !! k = Some r /\ P r.

Lemma rec_of_Some recs k r : recs !! k = Some r -> rec_of recs k = r.
Proof. intros H. unfold rec_of. by rewrite H. Qed.

Lemma entry_lookup recs l i k : l !! i = Some k -> entry recs l i = rec_of recs k.
Proof. intros H. unfold entry. by rewrite H. Qed.

Lemma sorted_lookup recs l i j a b :
  StronglySorted (key_before recs) l -> l !! i = Some a -> l !! j = Some b -> i < j ->
  key_before recs a b.
Proof.
  intros Hs. revert i j. induction Hs as [|x l Hs IH Hx]; intros i j Hi Hj Hij; [done|].
  destruct j as [|j]; [lia|]. destruct i as [|i]; cbn in Hi, Hj.
  - injection Hi as ->. by eapply (proj1 (Forall_lookup _ _) Hx j).
  - by eapply (IH i j); [..|lia].
Qed.

Lemma sorted_NoDup recs l : StronglySorted (key_before recs) l -> NoDup l.
Proof.
  intros Hs. apply NoDup_alt. intros i j x Hi Hj.
  destruct (Nat.lt_trichotomy i j) as [Hij|[?|Hij]]; [|done|].
  - pose proof (sorted_lookup _ _ _ _ _ _ Hs Hi Hj Hij) as H. unfold key_before in H.
    by rewrite before_irrefl in H.
  - pose proof (sorted_lookup _ _ _ _ _ _ Hs Hj Hi Hij) as H. unfold key_before in H.
    by rewrite before_irrefl in H.
Qed.

Lemma lower_antitone recs l probe :
  StronglySorted (key_before recs) l ->
  antitone (length l) (fun middle => before (entry recs l middle) probe).
Proof.
  intros Hs i j Hij Hj Hb. destruct (lookup_lt_is_Some_2 l j Hj) as [b Hlb].
  destruct (lookup_lt_is_Some_2 l i ltac:(lia)) as [a Hla].
  rewrite (entry_lookup _ _ _ _ Hla). rewrite (entry_lookup _ _ _ _ Hlb) in Hb.
  destruct (decide (i = j)) as [->|]; [congruence|].
  eapply before_trans; [|exact Hb]. by eapply (sorted_lookup recs l i j); [..|lia].
Qed.

Lemma upper_antitone recs l probe :
  StronglySorted (key_before recs) l ->
  antitone (length l) (fun middle => negb (before probe (entry recs l middle))).
Proof.
  intros Hs i j Hij Hj Hb. apply negb_true_iff in Hb. apply negb_true_iff, not_true_iff_false. intros Hc.
  destruct (lookup_lt_is_Some_2 l j Hj) as [b Hlb].
  destruct (lookup_lt_is_Some_2 l i ltac:(lia)) as [a Hla].
  rewrite (entry_lookup _ _ _ _ Hla) in Hc. rewrite (entry_lookup _ _ _ _ Hlb) in Hb.
  destruct (decide (i = j)) as [->|]; [congruence|].
  assert (key_before recs a b) by (by eapply (sorted_lookup recs l i j); [..|lia]).
  rewrite (before_trans _ _ _ Hc) in Hb; [done|done].
Qed.

(** Two lists of entries agree where their records agree. *)
Lemma sorted_ext recs recs' l :
  (forall k, k ∈ l -> rec_of recs' k = rec_of recs k) ->
  StronglySorted (key_before recs) l -> StronglySorted (key_before recs') l.
Proof.
  intros Hext Hs. induction Hs as [|x l Hs IH Hx]; [constructor|]. constructor.
  - apply IH. intros k Hk. apply Hext. by right.
  - apply Forall_forall. intros y Hy. unfold key_before.
    rewrite !Hext by (by (left; fail) || (right; done) || left).
    by apply (proj1 (Forall_forall _ _) Hx).
Qed.

(** ** Maintenance *)

(** Like [indexed], but for [key], which is absent. *)
Definition indexed_but (key : orderedIdentity) recs (P : OrderedRecord -> Prop) l : Prop :=
  StronglySorted (key_before recs) l /\
  forall k, k ∈ l <-> k <> key /\ exists r, recs !! k = Some r /\ P r.

Lemma indexed_absent key recs (P : OrderedRecord -> Prop) l :
  (forall r, recs !! key = Some r -> ~ P r) -> indexed recs P l -> indexed_but key recs P l.
Proof.
  intros Hn [Hs Hm]. split; [done|]. intros k. rewrite Hm. split; [|tauto].
  intros (r & Hr & HP). split; [|eauto]. intros ->. by eapply Hn.
Qed.

Lemma indexed_but_update key recs P l r :
  indexed_but key recs P l -> indexed_but key (<[key := r]> recs) P l.
Proof.
  intros [Hs Hm]. split.
  - apply (sorted_ext recs); [|done]. intros k [Hk _]%Hm. unfold rec_of. by rewrite lookup_insert_ne.
  - intros k. rewrite Hm. split; intros [Hk (r0 & Hr & HP)]; (split; [done|]); exists r0;
      by rewrite lookup_insert_ne in *.
Qed.

Lemma indexed_skip key recs (P : OrderedRecord -> Prop) l :
  (forall r, recs !! key = Some r -> ~ P r) -> indexed_but key recs P l -> indexed recs P l.
Proof.
  intros Hn [Hs Hm]. split; [done|]. intros k. rewrite Hm. split; [tauto|].
  intros (r & Hr & HP). split; [|eauto]. intros ->. by eapply Hn.
Qed.

Lemma slices_delete_sorted key recs (P : OrderedRecord -> Prop) l i :
  indexed recs P l -> l !! i = Some key -> indexed_but key recs P (slices_delete l i).
Proof.
  intros [Hs Hm] Hi. pose proof (sorted_NoDup _ _ Hs) as Hnd.
  pose proof (take_drop_middle l i key Hi) as E. split.
  - rewrite <- E in Hs. apply StronglySorted_app in Hs as (H12 & H1 & [_ H2]%StronglySorted_cons).
    apply StronglySorted_app. split_and!; [|done|done]. intros a b Ha Hb. apply H12; [done|by right].
  - intros k. rewrite <- Hm. pose proof (slices_delete_perm l i key Hi) as Hp.
    revert Hp. generalize (slices_delete l i). intros l' Hp.
    rewrite Hp in Hnd. apply NoDup_cons in Hnd as [Hni _]. rewrite Hp, elem_of_cons. split.
    + intros Hk. split; [by intros ->|by right].
    + intros [Hne [?|?]]; done.
Qed.

Lemma slices_insert_sorted key recs (P : OrderedRecord -> Prop) l r at_ visits :
  indexed_but key recs P l -> recs !! key = Some r -> P r ->
  (forall k, k ∈ l -> before r (rec_of recs k) = true \/ before (rec_of recs k) r = true) ->
  lowerBoundLocked recs l before r = (at_, visits) ->
  indexed recs P (slices_insert l at_ key).
Proof.
  intros [Hs Hm] Hr HP Hdist Hb.
  apply search_spec in Hb as (Hat & Hlo & Hhi & _); [|by apply lower_antitone].
  assert (Hsplit : take at_ l ++ drop at_ l = l) by apply take_drop. split.
  - rewrite <- Hsplit in Hs. apply StronglySorted_app in Hs as (H12 & H1 & H2).
    unfold slices_insert. apply StronglySorted_app. split_and!; [|done|apply StronglySorted_cons; split].
    + intros a b Ha [->|Hb]%elem_of_cons; [|by apply H12].
      apply elem_of_take in Ha as (i & Hi & Hlt). unfold key_before.
      rewrite (rec_of_Some _ _ _ Hr), <- (entry_lookup _ _ _ _ Hi). by apply Hlo.
    + apply Forall_forall. intros b Hb. unfold key_before. rewrite (rec_of_Some _ _ _ Hr).
      apply list_elem_of_lookup in Hb as [j Hj]. rewrite lookup_drop in Hj.
      pose proof (lookup_lt_Some _ _ _ Hj) as Hlt.
      destruct (Hdist b) as [|Hc]; [by eapply list_elem_of_lookup_2|done|].
      rewrite <- (entry_lookup recs l _ b Hj), Hhi in Hc by lia. done.
    + done.
  - intros k. rewrite elem_of_slices_insert, Hm. split.
    + intros [->|[_ ?]]; eauto.
    + intros (r0 & ? & ?). destruct (decide (k = key)); eauto 6.
Qed.

(** An indexed record is found at its exact position, by the lower bound alone. *)
Lemma locate_found recs (P : OrderedRecord -> Prop) l key r :
  indexed recs P l -> recs !! key = Some r -> P r ->
  exists at_ visits, locateLocked recs l before r key = (Some at_, visits) /\ l !! at_ = Some key /\
    lowerBoundLocked recs l before r = (at_, visits).
Proof.
  intros [Hs Hm] Hr HP. unfold locateLocked.
  destruct (lowerBoundLocked recs l before r) as [at_ visits] eqn:Hb. exists at_, visits.
  apply search_spec in Hb as (Hat & Hlo & Hhi & _); [|by apply lower_antitone].
  assert (Hin : key ∈ l) by (apply Hm; eauto). apply list_elem_of_lookup in Hin as [i Hi].
  pose proof (lookup_lt_Some _ _ _ Hi) as Hil.
  assert (Hei : entry recs l i = r) by (rewrite (entry_lookup _ _ _ _ Hi); by apply rec_of_Some).
  assert (Hle : at_ <= i).
  { destruct (Nat.le_gt_cases at_ i); [done|]. exfalso.
    pose proof (Hlo i ltac:(lia)) as H0. rewrite Hei, before_irrefl in H0. done. }
  assert (at_ = i) as ->.
  { destruct (decide (at_ = i)); [done|]. exfalso.
    destruct (lookup_lt_is_Some_2 l at_ ltac:(lia)) as [a Ha].
    pose proof (sorted_lookup _ _ _ _ _ _ Hs Ha Hi ltac:(lia)) as Hab. unfold key_before in Hab.
    rewrite (rec_of_Some _ _ _ Hr), <- (entry_lookup _ _ _ _ Ha), Hhi in Hab by lia. done. }
  split_and!; [|done|done]. cbn [locate_scan]. rewrite Hi, (rec_of_Some _ _ _ Hr), before_irrefl.
  by rewrite decide_True.
Qed.
End sorted.

End Index.
