(* ===== verification/OrderedView.v ===== *)
(** * [ordered.go], lines 682-1034 and 1085-1215: the materialized view of a namespace.

    The view's state, the single writer [applyMessage], the barrier test, and the
    maintenance of the three sorted indexes, with the invariant that each index is the
    sorted list of exactly the records that belong in it. *)

From S2P Require Import Prelude GoText Storage OrderedCodec OrderedIndex.
Open Scope stdpp_scope.
Import Codec Index.

Module View.

Record orderedView := {
  namespace : string;
  watermark : N;
  fatal : option error;
  broadcasts : nat;      (* closed generations of [changed] *)
  cancelled : bool;
  records : gmap orderedIdentity OrderedRecord;
  order : gmap string (list orderedIdentity);
  ranked : gmap string (list orderedIdentity);
  due : list orderedIdentity;
  messagesApplied : nat;
  indexVisited : nat }.

Definition newOrderedView (namespace : string) : orderedView :=
  {| namespace := namespace; watermark := 0; fatal := None; broadcasts := 0; cancelled := false;
     records := ∅; order := ∅; ranked := ∅; due := []; messagesApplied := 0; indexVisited := 0 |}.

Definition order_of (v : orderedView) (scope : string) : list orderedIdentity := default [] (order v !! scope).
Definition ranked_of (v : orderedView) (scope : string) : list orderedIdentity := default [] (ranked v !! scope).

(** Field updates. *)
Definition visit (n : nat) (v : orderedView) : orderedView :=
  {| namespace := namespace v; watermark := watermark v; fatal := fatal v; broadcasts := broadcasts v;
     cancelled := cancelled v; records := records v; order := order v; ranked := ranked v; due := due v;
     messagesApplied := messagesApplied v; indexVisited := indexVisited v + n |}.
Definition set_records m (v : orderedView) : orderedView :=
  {| namespace := namespace v; watermark := watermark v; fatal := fatal v; broadcasts := broadcasts v;
     cancelled := cancelled v; records := m; order := order v; ranked := ranked v; due := due v;
     messagesApplied := messagesApplied v; indexVisited := indexVisited v |}.
Definition set_order m (v : orderedView) : orderedView :=
  {| namespace := namespace v; watermark := watermark v; fatal := fatal v; broadcasts := broadcasts v;
     cancelled := cancelled v; records := records v; order := m; ranked := ranked v; due := due v;
     messagesApplied := messagesApplied v; indexVisited := indexVisited v |}.
Definition set_ranked m (v : orderedView) : orderedView :=
  {| namespace := namespace v; watermark := watermark v; fatal := fatal v; broadcasts := broadcasts v;
     cancelled := cancelled v; records := records v; order := order v; ranked := m; due := due v;
     messagesApplied := messagesApplied v; indexVisited := indexVisited v |}.
Definition set_due l (v : orderedView) : orderedView :=
  {| namespace := namespace v; watermark := watermark v; fatal := fatal v; broadcasts := broadcasts v;
     cancelled := cancelled v; records := records v; order := order v; ranked := ranked v; due := l;
     messagesApplied := messagesApplied v; indexVisited := indexVisited v |}.

Section view.
Context `{S : Storage}.

(** ** Index maintenance *)

Definition removeCurrentLocked (key : orderedIdentity) (previous : OrderedRecord) (v : orderedView)
    : orderedView :=
  let v :=
    if negb (Deleted previous) && Ranked (RankOf previous) then
      let entries := ranked_of v (RankingScope previous) in
      let (found, n) := locateLocked (records v) entries orderedRankedBefore previous key in
      match found with
      | Some at_ => visit n (set_ranked (<[RankingScope previous := slices_delete entries at_]> (ranked v)) v)
      | None => visit n v
      end
    else v in
  if negb (Deleted previous) && (DueStateOf (DueOf previous) =? DueAt)%N then
    let (found, n) := locateLocked (records v) (due v) orderedDueBefore previous key in
    match found with
    | Some at_ => visit n (set_due (slices_delete (due v) at_) v)
    | None => visit n v
    end
  else v.

Definition insertCurrentLocked (key : orderedIdentity) (record : OrderedRecord) (v : orderedView)
    : orderedView :=
  let v :=
    if negb (Deleted record) && Ranked (RankOf record) then
      let entries := ranked_of v (RankingScope record) in
      let (at_, n) := lowerBoundLocked (records v) entries orderedRankedBefore record in
      visit n (set_ranked (<[RankingScope record := slices_insert entries at_ key]> (ranked v)) v)
    else v in
  if negb (Deleted record) && (DueStateOf (DueOf record) =? DueAt)%N then
    let (at_, n) := lowerBoundLocked (records v) (due v) orderedDueBefore record in
    visit n (set_due (slices_insert (due v) at_ key) v)
  else v.

Definition insertOrderLocked (key : orderedIdentity) (record : OrderedRecord) (v : orderedView)
    : orderedView :=
  let entries := order_of v (orderingScope key) in
  let (at_, n) := orderLowerBoundLocked (records v) entries (Order record) in
  visit n (set_order (<[orderingScope key := slices_insert entries at_ key]> (order v)) v).

(** ** Applying the stream *)

Definition applyRecord (record : OrderedRecord) (v : orderedView) : orderedView :=
  let key := identity_of record in
  match records v !! key with
  | Some previous =>
      if (Revision record <=? Revision previous)%N then v
      else
        let v := removeCurrentLocked key previous v in
        insertCurrentLocked key record (set_records (<[key := record]> (records v)) v)
  | None =>
      let v := set_records (<[key := record]> (records v)) v in
      insertCurrentLocked key record (insertOrderLocked key record v)
  end.

Definition advance (seq : N) (v : orderedView) : orderedView :=
  if (seq <=? watermark v)%N then v
  else {| namespace := namespace v; watermark := seq; fatal := fatal v; broadcasts := Datatypes.S (broadcasts v);
          cancelled := cancelled v; records := records v; order := order v; ranked := ranked v;
          due := due v; messagesApplied := messagesApplied v; indexVisited := indexVisited v |}.

Definition setFatal (err : error) (v : orderedView) : orderedView :=
  {| namespace := namespace v; watermark := watermark v;
     fatal := match fatal v with None => Some err | Some e => Some e end;
     broadcasts := match fatal v with None => Datatypes.S (broadcasts v) | Some _ => broadcasts v end;
     cancelled := true; records := records v; order := order v; ranked := ranked v; due := due v;
     messagesApplied := messagesApplied v; indexVisited := indexVisited v |}.

(** [v.cancel()]: the context of the view's goroutine ends. *)
Definition cancel_view (v : orderedView) : orderedView :=
  {| namespace := namespace v; watermark := watermark v; fatal := fatal v; broadcasts := broadcasts v;
     cancelled := true; records := records v; order := order v; ranked := ranked v; due := due v;
     messagesApplied := messagesApplied v; indexVisited := indexVisited v |}.

Definition count_message (v : orderedView) : orderedView :=
  {| namespace := namespace v; watermark := watermark v; fatal := fatal v; broadcasts := broadcasts v;
     cancelled := cancelled v; records := records v; order := order v; ranked := ranked v; due := due v;
     messagesApplied := Datatypes.S (messagesApplied v); indexVisited := indexVisited v |}.

(** The first critical section of [applyMessage], and whether [advance] follows it: between
    the two the view is unlocked, a record already in place below its watermark. *)
Definition foldMessage (subject data : string) (v : orderedView) : orderedView * bool :=
  let v := count_message v in
  match classifyOrderedSubject (namespace v) subject with
  | Err err => (setFatal err v, false)
  | Ok orderedRecordSubjectFamily =>
      match decodeOrderedRecord subject data with
      | Err err => (setFatal err v, false)
      | Ok record => (applyRecord record v, true)
      end
  | Ok _ => (v, true)
  end.

Definition applyMessage (subject : string) (seq : N) (data : string) (v : orderedView) : orderedView :=
  let (v, folded) := foldMessage subject data v in
  if folded then advance seq v else v.

(** ** The barrier *)

(** One look under the lock: the answer, or [None] to wait for the next broadcast. *)
Definition barrier_poll (target : N) (v : orderedView) : option (option error) :=
  match fatal v with
  | Some err => Some (Some err)
  | None => if (target <=? watermark v)%N then Some None else None
  end.

(** Why a parked waiter woke: the view broadcast, the view stopped, or its own context. *)
Inductive wake := Changed | Done | CtxDone (err : error).

(** The loop of [waitBarrier], over what the waiter finds: the view at each look, and each
    wake-up.  [None] is a waiter still parked when the observations end. *)
Fixpoint barrier_loop (target : N) (seen : list (orderedView * wake)) (last : orderedView)
    : option (option error) :=
  match seen with
  | [] => barrier_poll target last
  | (v, w) :: rest =>
      match barrier_poll target v with
      | Some answer => Some answer
      | None =>
          match w with
          | Changed => barrier_loop target rest last
          | CtxDone err => Some (Some err)
          | Done =>
              let v' := match rest with (v', _) :: _ => v' | [] => last end in
              Some (Some match fatal v' with
                         | Some err => err
                         | None => OrderedStoreClosedError (namespace v')
                         end)
          end
      end
  end.

(** [ctx_err] is [ctx.Err()] at the call. *)
Definition waitBarrier (ctx_err : option error) (target : N) (seen : list (orderedView * wake))
    (last : orderedView) : option (option error) :=
  match ctx_err with
  | Some err => Some (Some err)
  | None => barrier_loop target seen last
  end.

(** ** The invariant *)

Definition in_order (scope : string) (r : OrderedRecord) : Prop := OrderingScope (ID r) = scope.
Definition in_ranked (scope : string) (r : OrderedRecord) : Prop :=
  Deleted r = false /\ Ranked (RankOf r) = true /\ RankingScope r = scope.
Definition in_due (r : OrderedRecord) : Prop := Deleted r = false /\ DueStateOf (DueOf r) = DueAt.

Record view_inv (v : orderedView) : Prop := {
  inv_keyed : keyed (records v);
  inv_valid key r : records v !! key = Some r -> ValidateOrderedRecord r = None /\ typed_record r;
  inv_order scope : indexed orderBefore (records v) (in_order scope) (order_of v scope);
  inv_ranked scope : indexed orderedRankedBefore (records v) (in_ranked scope) (ranked_of v scope);
  inv_due : indexed orderedDueBefore (records v) in_due (due v) }.

(** What the stream guarantees of a record it delivers, given what it delivered before: it
    decoded, a later revision keeps the order, and orders are unique within their scope. *)
Definition admissible (v : orderedView) (record : OrderedRecord) : Prop :=
  ValidateOrderedRecord record = None /\ typed_record record /\
  (forall previous, records v !! identity_of record = Some previous -> Order record = Order previous) /\
  (forall key r, records v !! key = Some r -> key <> identity_of record ->
     OrderingScope (ID r) = OrderingScope (ID record) -> Order r <> Order record).

(** ** Every operation preserves it *)

(** All but [key]'s entries are in place. *)
Definition current_but (key : orderedIdentity) (v : orderedView) : Prop :=
  (forall scope, indexed_but orderedRankedBefore key (records v) (in_ranked scope) (ranked_of v scope)) /\
  indexed_but orderedDueBefore key (records v) in_due (due v).

Lemma live_test (b : bool) r : negb (Deleted r) && b = true <-> Deleted r = false /\ b = true.
Proof. rewrite andb_true_iff, negb_true_iff. done. Qed.

Lemma keyed_neq recs key r k : keyed recs -> identity_of r = key -> k <> key ->
  forall r', recs !! k = Some r' -> identity_of r <> identity_of r'.
Proof. intros Hk <- Hne r' Hr'. rewrite (Hk _ _ Hr'). congruence. Qed.

(** Distinct identities are comparable under a frozen sort key. *)
Lemma comparable before `{!TotalComparator before} key recs (P : OrderedRecord -> Prop) l r :
  keyed recs -> identity_of r = key -> indexed_but before key recs P l ->
  forall k, k ∈ l -> before r (rec_of recs k) = true \/ before (rec_of recs k) r = true.
Proof.
  intros Hk Hid [_ Hm] k [Hne (r' & Hr' & _)]%Hm. rewrite (rec_of_Some _ _ _ Hr').
  apply before_total. by eapply keyed_neq.
Qed.

Lemma removeCurrent_but key previous v :
  view_inv v -> records v !! key = Some previous ->
  let v' := removeCurrentLocked key previous v in
  records v' = records v /\ order v' = order v /\ current_but key v'.
Proof.
  intros Hv Hp. unfold removeCurrentLocked.
  set (v1 := if negb (Deleted previous) && Ranked (RankOf previous) then _ else v).
  assert (H1 : records v1 = records v /\ order v1 = order v /\ due v1 = due v /\
    forall scope, indexed_but orderedRankedBefore key (records v) (in_ranked scope) (ranked_of v1 scope)).
  { unfold v1. destruct (negb (Deleted previous) && Ranked (RankOf previous)) eqn:E.
    - apply live_test in E as [Hd Hr].
      destruct (locate_found orderedRankedBefore (records v) (in_ranked (RankingScope previous))
        (ranked_of v (RankingScope previous)) key previous (inv_ranked v Hv _) Hp)
        as (at_ & n & -> & Hat & _); [by repeat split|].
      split_and!; [done..|]. intros scope. unfold ranked_of. cbn.
      destruct (decide (scope = RankingScope previous)) as [->|Hne].
      + rewrite lookup_insert_eq. cbn. apply slices_delete_sorted; [apply _| |done]. apply (inv_ranked v Hv).
      + rewrite lookup_insert_ne by done. apply indexed_absent; [|apply (inv_ranked v Hv)].
        intros r Hr' (_ & _ & Hs). congruence.
    - split_and!; [done..|]. intros scope. apply indexed_absent; [|apply (inv_ranked v Hv)].
      intros r Hr' (Hd & Hk & _). assert (r = previous) as -> by congruence. rewrite Hd, Hk in E. done. }
  clearbody v1. destruct H1 as (Hrec & Hord & Hdue & Hrk).
  destruct (negb (Deleted previous) && (DueStateOf (DueOf previous) =? DueAt)%N) eqn:E.
  - apply live_test in E as [Hd Hr%N.eqb_eq]. rewrite Hrec, Hdue.
    destruct (locate_found orderedDueBefore (records v) in_due (due v) key previous (inv_due v Hv) Hp)
      as (at_ & n & -> & Hat & _); [by split|].
    split_and!; [done..|split]; cbn; rewrite ?Hrec; [done|].
    apply slices_delete_sorted; [apply _|apply (inv_due v Hv)|done].
  - split_and!; [done..|split]; rewrite Hrec; [done|]. rewrite Hdue. apply indexed_absent; [|apply (inv_due v Hv)].
    intros r Hr' [Hd Hk]. assert (r = previous) as -> by congruence. rewrite Hd, Hk, N.eqb_refl in E. done.
Qed.

Lemma insertCurrent_inv key record v :
  keyed (records v) -> records v !! key = Some record -> current_but key v ->
  let v' := insertCurrentLocked key record v in
  records v' = records v /\ order v' = order v /\
  (forall scope, indexed orderedRankedBefore (records v) (in_ranked scope) (ranked_of v' scope)) /\
  indexed orderedDueBefore (records v) in_due (due v').
Proof.
  intros Hk Hr [Hrk Hdue]. unfold insertCurrentLocked. pose proof (Hk _ _ Hr) as Hid.
  set (v1 := if negb (Deleted record) && Ranked (RankOf record) then _ else v).
  assert (H1 : records v1 = records v /\ order v1 = order v /\ due v1 = due v /\
    forall scope, indexed orderedRankedBefore (records v) (in_ranked scope) (ranked_of v1 scope)).
  { unfold v1. destruct (negb (Deleted record) && Ranked (RankOf record)) eqn:E.
    - apply live_test in E as [Hd Hrd].
      destruct (lowerBoundLocked _ _ _ _) as [at_ n] eqn:Hb.
      split_and!; [done..|]. intros scope. unfold ranked_of. cbn.
      destruct (decide (scope = RankingScope record)) as [->|Hne].
      + rewrite lookup_insert_eq. cbn.
        apply (slices_insert_sorted orderedRankedBefore key (records v) (in_ranked (RankingScope record))
          (ranked_of v (RankingScope record)) record at_ n); [apply Hrk|exact Hr|by repeat split| |exact Hb].
        apply (comparable orderedRankedBefore key (records v) (in_ranked (RankingScope record))); done.
      + rewrite lookup_insert_ne by done. eapply indexed_skip; [|apply Hrk].
        intros r Hr' (_ & _ & Hs). congruence.
    - split_and!; [done..|]. intros scope. eapply indexed_skip; [|apply Hrk].
      intros r Hr' (Hd & Hrd & _). assert (r = record) as -> by congruence. rewrite Hd, Hrd in E. done. }
  clearbody v1. destruct H1 as (Hrec & Hord & Hdue1 & Hrk1).
  destruct (negb (Deleted record) && (DueStateOf (DueOf record) =? DueAt)%N) eqn:E.
  - apply live_test in E as [Hd Hst%N.eqb_eq].
    destruct (lowerBoundLocked (records v1) (due v1) orderedDueBefore record) as [at_ n] eqn:Hb.
    rewrite Hrec, Hdue1 in Hb. split_and!; [done..|]. cbn. rewrite Hdue1.
    apply (slices_insert_sorted orderedDueBefore key (records v) in_due (due v) record at_ n);
      [done|exact Hr|by split| |exact Hb].
    apply (comparable orderedDueBefore key (records v) in_due); done.
  - split_and!; [done..|]. rewrite Hdue1. eapply indexed_skip; [|exact Hdue].
    intros r Hr' [Hd Hst]. assert (r = record) as -> by congruence. rewrite Hd, Hst, N.eqb_refl in E. done.
Qed.

Lemma orderLowerBound_eq recs l (r : OrderedRecord) :
  orderLowerBoundLocked recs l (Order r) = lowerBoundLocked recs l orderBefore r.
Proof. done. Qed.

Lemma insertOrder_inv record v :
  let key := identity_of record in
  records v !! key = Some record -> keyed (records v) ->
  (forall scope, indexed_but orderBefore key (records v) (in_order scope) (order_of v scope)) ->
  (forall k r, records v !! k = Some r -> k <> key ->
     OrderingScope (ID r) = OrderingScope (ID record) -> Order r <> Order record) ->
  let v' := insertOrderLocked key record v in
  records v' = records v /\ ranked v' = ranked v /\ due v' = due v /\
  forall scope, indexed orderBefore (records v) (in_order scope) (order_of v' scope).
Proof.
  intros key Hr Hk Hord Hdist. unfold insertOrderLocked. rewrite orderLowerBound_eq.
  destruct (lowerBoundLocked _ _ _ _) as [at_ n] eqn:Hb. split_and!; [done..|].
  intros scope. unfold order_of. cbn. destruct (decide (scope = OrderingScope (ID record))) as [->|Hne].
  - rewrite lookup_insert_eq. cbn.
    apply (slices_insert_sorted orderBefore key (records v) (in_order (OrderingScope (ID record)))
      (order_of v (OrderingScope (ID record))) record at_ n); [apply Hord|exact Hr|done| |exact Hb].
    intros k (Hne & r' & Hr' & Hs)%(proj2 (Hord _)). rewrite (rec_of_Some _ _ _ Hr'). unfold orderBefore.
    rewrite !N.ltb_lt. pose proof (Hdist k r' Hr' Hne Hs). lia.
  - rewrite lookup_insert_ne by done. eapply indexed_skip; [|apply Hord].
    intros r Hr' Hs. unfold in_order in Hs. congruence.
Qed.

Lemma keyed_insert recs r : keyed recs -> keyed (<[identity_of r := r]> recs).
Proof. intros Hk k r' [[<- <-]|[_ ?]]%lookup_insert_Some; [done|by apply Hk]. Qed.

(** A record whose order did not change keeps its place in the order index. *)
Lemma order_update recs scope l key previous r :
  indexed orderBefore recs (in_order scope) l -> recs !! key = Some previous ->
  Order r = Order previous -> OrderingScope (ID r) = OrderingScope (ID previous) ->
  indexed orderBefore (<[key := r]> recs) (in_order scope) l.
Proof.
  intros [Hs Hm] Hp Ho Hos.
  assert (Hrec : forall k, Order (rec_of (<[key := r]> recs) k) = Order (rec_of recs k)).
  { intros k. unfold rec_of. destruct (decide (k = key)) as [->|].
    - by rewrite lookup_insert_eq, Hp.
    - by rewrite lookup_insert_ne. }
  split.
  - clear Hm. induction Hs as [|x l Hs IH Hx]; [constructor|]. constructor; [done|].
    eapply Forall_impl; [exact Hx|]. intros y. unfold key_before, orderBefore. by rewrite !Hrec.
  - intros k. rewrite Hm. destruct (decide (k = key)) as [->|].
    + rewrite lookup_insert_eq, Hp. unfold in_order. split; intros (r' & [= <-] & <-); eauto.
    + by rewrite lookup_insert_ne.
Qed.

Lemma applyRecord_records record v :
  records (applyRecord record v) =
  match records v !! identity_of record with
  | Some previous => if (Revision record <=? Revision previous)%N then records v
                     else <[identity_of record := record]> (records v)
  | None => <[identity_of record := record]> (records v)
  end.
Proof.
  assert (Hi : forall key r w, records (insertCurrentLocked key r w) = records w).
  { intros. unfold insertCurrentLocked. repeat (case_match; cbn; try done). }
  assert (Hr : forall key r w, records (removeCurrentLocked key r w) = records w).
  { intros. unfold removeCurrentLocked. repeat (case_match; cbn; try done). }
  unfold applyRecord. destruct (records v !! identity_of record) as [previous|].
  - destruct (_ <=? _)%N; [done|]. by rewrite Hi, Hr.
  - rewrite Hi. unfold insertOrderLocked. by destruct (orderLowerBoundLocked _ _ _).
Qed.

Lemma applyRecord_inv_lemma record v :
  view_inv v -> admissible v record -> view_inv (applyRecord record v).
Proof.
  intros Hv (Hval & Hty & Hsame & Hdist).
  assert (Hvalid : forall key r, records (applyRecord record v) !! key = Some r ->
    ValidateOrderedRecord r = None /\ typed_record r).
  { intros key r. rewrite applyRecord_records. pose proof (inv_valid v Hv key r) as Hi.
    repeat case_match; try done; intros [[<- <-]|[_ ?]]%lookup_insert_Some; auto. }
  unfold applyRecord in *. set (key := identity_of record) in *.
  destruct (records v !! key) as [previous|] eqn:Hp.
  - destruct (N.leb_spec (Revision record) (Revision previous)); [done|].
    destruct (removeCurrent_but key previous v Hv Hp) as (Hr1 & Ho1 & Hrk1 & Hd1).
    set (v1 := removeCurrentLocked key previous v) in *.
    set (v2 := set_records (<[key := record]> (records v1)) v1).
    assert (Hk2 : keyed (records v2)) by (cbn; rewrite Hr1; apply keyed_insert, Hv).
    destruct (insertCurrent_inv key record v2 Hk2) as (Hr3 & Ho3 & Hrk3 & Hd3).
    { cbn. apply lookup_insert_eq. }
    { split; [intros scope|]; cbn; by apply indexed_but_update. }
    split; [by rewrite Hr3|exact Hvalid| |by rewrite Hr3|by rewrite Hr3].
    intros scope. rewrite Hr3. unfold order_of. rewrite Ho3. cbn. rewrite Ho1, Hr1.
    apply (order_update _ scope _ key previous); [apply (inv_order v Hv)|done|by apply Hsame|].
    apply Hv in Hp. unfold key, identity_of in Hp. congruence.
  - set (v1 := set_records (<[key := record]> (records v)) v).
    assert (Habs : forall P r, records v !! key = Some r -> ~ P r) by (intros; congruence).
    assert (Hk1 : keyed (records v1)) by apply keyed_insert, Hv.
    destruct (insertOrder_inv record v1) as (Hr2 & Hrk2 & Hd2 & Ho2).
    { apply lookup_insert_eq. } { done. }
    { intros scope. cbn. apply indexed_but_update, indexed_absent; [by apply Habs|]. apply (inv_order v Hv). }
    { intros k r Hr Hne. cbn in Hr. rewrite lookup_insert_ne in Hr by done. by apply (Hdist k). }
    fold key in Hr2, Hrk2, Hd2, Ho2. set (v2 := insertOrderLocked key record v1) in *.
    destruct (insertCurrent_inv key record v2) as (Hr3 & Ho3 & Hrk3 & Hd3).
    { by rewrite Hr2. } { rewrite Hr2. apply lookup_insert_eq. }
    { split; [intros scope; unfold ranked_of; rewrite Hrk2|rewrite Hd2]; rewrite Hr2; cbn;
        apply indexed_but_update, indexed_absent; try (by apply Habs); apply Hv. }
    rewrite Hr2 in *. split; [by rewrite Hr3|exact Hvalid| |by rewrite Hr3|by rewrite Hr3].
    intros scope. rewrite Hr3. unfold order_of. rewrite Ho3. apply Ho2.
Qed.

(** The rest of the state is not the indexes'. *)
Lemma view_inv_ext v w :
  records w = records v -> order w = order v -> ranked w = ranked v -> due w = due v ->
  view_inv v -> view_inv w.
Proof.
  intros E1 E2 E3 E4 [H1 H2 H3 H4 H5].
  split; unfold order_of, ranked_of in *; rewrite ?E1, ?E2, ?E3, ?E4; done.
Qed.

Lemma advance_fields seq v :
  records (advance seq v) = records v /\ order (advance seq v) = order v /\
  ranked (advance seq v) = ranked v /\ due (advance seq v) = due v /\
  fatal (advance seq v) = fatal v /\ namespace (advance seq v) = namespace v /\
  watermark (advance seq v) = N.max (watermark v) seq.
Proof. unfold advance. destruct (N.leb_spec seq (watermark v)); cbn; split_and!; try done; lia. Qed.

(** All but the records and their indexes. *)
Definition same_rest (v w : orderedView) : Prop :=
  watermark w = watermark v /\ fatal w = fatal v /\ namespace w = namespace v /\
  messagesApplied w = messagesApplied v /\ cancelled w = cancelled v /\ broadcasts w = broadcasts v.

#[export] Instance same_rest_trans : Transitive same_rest.
Proof. intros v1 v2 v3 (?&?&?&?&?&?) (?&?&?&?&?&?). unfold same_rest. split_and!; congruence. Qed.

Lemma applyRecord_rest r v : same_rest v (applyRecord r v).
Proof.
  assert (Hi : forall key x w, same_rest w (insertCurrentLocked key x w)).
  { intros. unfold insertCurrentLocked. repeat (case_match; cbn; try done). }
  assert (Hr : forall key x w, same_rest w (removeCurrentLocked key x w)).
  { intros. unfold removeCurrentLocked. repeat (case_match; cbn; try done). }
  unfold applyRecord. destruct (records v !! identity_of r) as [previous|].
  - destruct (_ <=? _)%N; [done|].
    transitivity (removeCurrentLocked (identity_of r) previous v); [apply Hr|].
    eapply transitivity; [|apply Hi]. done.
  - eapply transitivity; [|apply Hi]. unfold insertOrderLocked. by destruct (orderLowerBoundLocked _ _ _).
Qed.

Lemma applyRecord_fields r v :
  watermark (applyRecord r v) = watermark v /\ fatal (applyRecord r v) = fatal v /\
  namespace (applyRecord r v) = namespace v /\ messagesApplied (applyRecord r v) = messagesApplied v.
Proof. by destruct (applyRecord_rest r v) as (?&?&?&?&_). Qed.

Lemma advance_records seq v : records (advance seq v) = records v.
Proof. apply advance_fields. Qed.

(** What never goes back: the watermark, the first fatal error, the cancellation. *)
Definition advances (v w : orderedView) : Prop :=
  namespace w = namespace v /\ (watermark v <= watermark w)%N /\
  (forall e, fatal v = Some e -> fatal w = Some e) /\ (cancelled v = true -> cancelled w = true).

#[global] Instance advances_refl : Reflexive advances.
Proof. by intros v. Qed.
#[global] Instance advances_trans : Transitive advances.
Proof. intros v1 v2 v3 (N1 & W1 & F1 & C1) (N2 & W2 & F2 & C2). split_and!; [congruence|lia|auto..]. Qed.

Lemma rest_advances v w : same_rest v w -> advances v w.
Proof. intros (E1 & E2 & E3 & _ & E5 & _). unfold advances. rewrite E1, E2, E3, E5. by split_and!. Qed.

Lemma setFatal_advances e v : advances v (setFatal e v).
Proof. split_and!; try done. cbn. by intros e' ->. Qed.

Lemma cancel_advances v : advances v (cancel_view v).
Proof. done. Qed.

Lemma advance_advances seq v : advances v (advance seq v).
Proof. unfold advance. destruct (N.leb_spec seq (watermark v)); [done|]. split_and!; try done. cbn. lia. Qed.

Lemma foldMessage_fields subject data v :
  let w := (foldMessage subject data v).1 in
  watermark w = watermark v /\ namespace w = namespace v /\ advances v w.
Proof.
  assert (He : forall e, advances v (setFatal e (count_message v))).
  { intros e. split_and!; try done. cbn. by intros e' ->. }
  unfold foldMessage. destruct (classifyOrderedSubject _ _) as [[]|e]; try (by split_and!; try apply He).
  destruct (decodeOrderedRecord _ _) as [r|e]; [|by split_and!; try apply He].
  pose proof (applyRecord_rest r (count_message v)) as H. cbn [fst].
  split_and!; [apply H|apply H|]. by apply rest_advances in H.
Qed.

Lemma applyMessage_watermark subject seq data v :
  (watermark v <= watermark (applyMessage subject seq data v))%N.
Proof.
  assert (Hadv : forall w, watermark w = watermark v -> (watermark v <= watermark (advance seq w))%N).
  { intros w E. destruct (advance_fields seq w) as (_&_&_&_&_&_&->). lia. }
  unfold applyMessage. pose proof (foldMessage_fields subject data v) as (E & _).
  destruct (foldMessage subject data v) as [w []]; cbn in E; [by apply Hadv|by rewrite E].
Qed.

Lemma new_view_inv ns : view_inv (newOrderedView ns).
Proof.
  split; cbn; try done.
  - intros scope. split; [constructor|]. intros k. split; [by intros ?%elem_of_nil|]. by intros (r & Hr & _).
  - intros scope. split; [constructor|]. intros k. split; [by intros ?%elem_of_nil|]. by intros (r & Hr & _).
  - split; [constructor|]. intros k. split; [by intros ?%elem_of_nil|]. by intros (r & Hr & _).
Qed.

(** ** Properties *)

(** C11. Applying a record: the three indexes stay exactly the sorted lists of the records
    that belong in them, the newest revision of each identity wins, and redelivery
    changes nothing at all. *)
Theorem applyRecord_correct v record :
  view_inv v -> admissible v record ->
  view_inv (applyRecord record v) /\
  records (applyRecord record v) =
    match records v !! identity_of record with
    | Some previous => if (Revision record <=? Revision previous)%N then records v
                       else <[identity_of record := record]> (records v)
    | None => <[identity_of record := record]> (records v)
    end /\
  applyRecord record (applyRecord record v) = applyRecord record v.
Proof.
  intros Hv Ha. split_and!; [by apply applyRecord_inv_lemma|apply applyRecord_records|].
  unfold applyRecord at 1. rewrite applyRecord_records.
  destruct (records v !! identity_of record) as [previous|] eqn:Hp.
  - destruct (N.leb_spec (Revision record) (Revision previous)) as [Hle|Hgt].
    + rewrite Hp. by rewrite (proj2 (N.leb_le _ _) Hle).
    + rewrite lookup_insert_eq. by rewrite N.leb_refl.
  - rewrite lookup_insert_eq. by rewrite N.leb_refl.
Qed.

(** Applying a message: every message counts; a fatal error is sticky and the first one
    is kept, cancelling the subscription; otherwise the watermark reaches the message's
    sequence and never goes back; waiters are woken exactly when either changes. *)
Theorem applyMessage_progress subject seq data v :
  let v' := applyMessage subject seq data v in
  messagesApplied v' = Datatypes.S (messagesApplied v) /\
  (watermark v <= watermark v')%N /\
  (forall e, fatal v = Some e -> fatal v' = Some e) /\
  (fatal v = None -> match fatal v' with
                     | Some _ => cancelled v' = true /\ records v' = records v /\ watermark v' = watermark v
                     | None => (seq <= watermark v')%N
                     end) /\
  (broadcasts v' = broadcasts v <-> watermark v' = watermark v /\ fatal v' = fatal v).
Proof.
  assert (Hfatal : forall e w, let w' := setFatal e (count_message w) in
    messagesApplied w' = Datatypes.S (messagesApplied w) /\ (watermark w <= watermark w')%N /\
    (forall e, fatal w = Some e -> fatal w' = Some e) /\
    (fatal w = None -> match fatal w' with
       | Some _ => cancelled w' = true /\ records w' = records w /\ watermark w' = watermark w
       | None => (seq <= watermark w')%N end) /\
    (broadcasts w' = broadcasts w <-> watermark w' = watermark w /\ fatal w' = fatal w)).
  { intros e w. cbn. destruct (fatal w); split_and!; try done; try lia; split; try done; try lia; by intros []. }
  assert (Hadv : forall w, messagesApplied w = Datatypes.S (messagesApplied v) -> watermark w = watermark v ->
    fatal w = fatal v -> broadcasts w = broadcasts v -> let w' := advance seq w in
    messagesApplied w' = Datatypes.S (messagesApplied v) /\ (watermark v <= watermark w')%N /\
    (forall e, fatal v = Some e -> fatal w' = Some e) /\
    (fatal v = None -> match fatal w' with
       | Some _ => cancelled w' = true /\ records w' = records v /\ watermark w' = watermark v
       | None => (seq <= watermark w')%N end) /\
    (broadcasts w' = broadcasts v <-> watermark w' = watermark v /\ fatal w' = fatal v)).
  { intros w E1 E2 E3 E4. unfold advance. destruct (N.leb_spec seq (watermark w)); cbn;
      rewrite ?E1, ?E2, ?E3, ?E4; split_and!; try done; try lia; try (intros ->; lia);
      split; try done; try lia; intros [? _]; lia. }
  unfold applyMessage, foldMessage. change (namespace (count_message v)) with (namespace v).
  destruct (classifyOrderedSubject _ _) as [[]|e]; [by apply Hadv|by apply Hadv| |by apply Hfatal].
  destruct (decodeOrderedRecord subject data) as [r|e]; [|by apply Hfatal].
  destruct (applyRecord_rest r (count_message v)) as (E1 & E2 & _ & E4 & _ & E6).
  by apply Hadv; rewrite ?E1, ?E2, ?E4, ?E6.
Qed.

Lemma barrier_poll_answer target v a :
  barrier_poll target v = Some a ->
  match a with None => fatal v = None /\ (target <= watermark v)%N | Some e => fatal v = Some e end.
Proof.
  unfold barrier_poll. destruct (fatal v); [by intros [= <-]|].
  destruct (N.leb_spec target (watermark v)); [by intros [= <-]|done].
Qed.

(** Nothing to answer yet. *)
Definition pending (target : N) (v : orderedView) : Prop := fatal v = None /\ (watermark v < target)%N.

Lemma barrier_poll_pending target v : barrier_poll target v = None <-> pending target v.
Proof.
  unfold barrier_poll, pending. destruct (fatal v); [by split; [|intros [? _]]|].
  destruct (N.leb_spec target (watermark v)); split; [done|lia|done|done].
Qed.

(** What a waiter answers at its last look [v], after which it woke by [w] and could look
    at [rest]. *)
Definition answers_at (target : N) (v : orderedView) (w : wake) (rest : list (orderedView * wake)) (answer : option error) : Prop :=
  match fatal v with
  | Some e => answer = Some e
  | None =>
      if decide (target <= watermark v)%N then answer = None
      else match w with
           | Changed => False
           | CtxDone e => answer = Some e
           | Done => exists v' w' rest', rest = (v', w') :: rest' /\
               answer = Some (default (OrderedStoreClosedError (namespace v')) (fatal v'))
           end
  end.

Lemma barrier_loop_answer target seen last answer :
  barrier_loop target seen last = Some answer <->
  exists pre v w rest, seen ++ [(last, Changed)] = pre ++ (v, w) :: rest /\
    Forall (fun x => pending target x.1 /\ x.2 = Changed) pre /\ answers_at target v w rest answer.
Proof.
  assert (Hdone : forall v w rest a, barrier_poll target v = Some a -> answers_at target v w rest answer <-> a = answer).
  { intros v w rest a. unfold barrier_poll, answers_at. destruct (fatal v); [intros [= <-]; split; congruence|].
    destruct (N.leb_spec target (watermark v)); [|done]. rewrite decide_True by done. intros [= <-]. split; congruence. }
  assert (Hwait : forall v w rest, barrier_poll target v = None -> answers_at target v w rest answer <->
    match w with Changed => False | CtxDone e => answer = Some e
      | Done => exists v' w' rest', rest = (v', w') :: rest' /\
          answer = Some (default (OrderedStoreClosedError (namespace v')) (fatal v')) end).
  { intros v w rest [Hf Hw]%barrier_poll_pending. unfold answers_at. by rewrite Hf, decide_False by lia. }
  assert (Hfirst : forall v w rest, w <> Changed \/ barrier_poll target v <> None ->
    (exists pre v0 w0 rest0, (v, w) :: rest = pre ++ (v0, w0) :: rest0 /\
       Forall (fun x => pending target x.1 /\ x.2 = Changed) pre /\ answers_at target v0 w0 rest0 answer) <->
    answers_at target v w rest answer).
  { intros v w rest Hend. split; [|intros H; by exists [], v, w, rest].
    intros ([|x pre] & v0 & w0 & rest0 & E & Hpre & H); [by injection E as -> -> ->|]. injection E as <- _.
    apply Forall_cons in Hpre as [[Hp%barrier_poll_pending Hc] _]. by destruct Hend. }
  induction seen as [|[v w] rest IH]; cbn [barrier_loop app].
  - destruct (barrier_poll target last) as [a|] eqn:Ep.
    + rewrite Hfirst, Hdone by (done || right; congruence). split; congruence.
    + split; [done|]. intros ([|x pre] & v0 & w0 & rest0 & E & _ & H).
      * injection E as <- <- <-. by apply Hwait in H.
      * injection E as _ E. by destruct pre.
  - destruct (barrier_poll target v) as [a|] eqn:Ep.
    { rewrite Hfirst, Hdone by (done || right; congruence). split; congruence. }
    destruct w as [| |e].
    + rewrite IH. split.
      * intros (pre & v0 & w0 & rest0 & E & Hpre & H). exists ((v, Changed) :: pre), v0, w0, rest0.
        split; [by rewrite E|]. split; [|done]. constructor; [|done]. by split; [apply barrier_poll_pending|].
      * intros ([|x pre] & v0 & w0 & rest0 & E & Hpre & H); [injection E as <- <- <-; by apply Hwait in H|].
        injection E as _ E. apply Forall_cons in Hpre as [_ Hpre]. by exists pre, v0, w0, rest0.
    + rewrite Hfirst, Hwait by (done || by left). destruct rest as [|[v' w'] rest]; cbn [app].
      * split; [intros [= <-]; exists last, Changed, []; by destruct (fatal last)|].
        intros (v' & w' & rest' & [= <- <- <-] & ->). by destruct (fatal last).
      * split; [intros [= <-]; eexists v', w', _; by destruct (fatal v')|].
        intros (v1 & w1 & rest' & [= <- <- <-] & ->). by destruct (fatal v').
    + rewrite Hfirst, Hwait by (done || by left). split; congruence.
Qed.

(** C32. The barrier, exactly.  A waiter whose context has already ended returns its error.
    Any other is answered at one look, its last: at every look before that the view had no
    fatal error and had not reached the target, and a broadcast woke it.  At the last look
    it returns the view's fatal error; or, when there is none, nothing if the watermark has
    reached the target; or else the error of its own context, if that is what woke it, or,
    if the view's end did, the fatal error the view then has, and the closed error only
    when it has none.  So a waiter is answered at its first look at a view that is fatal or
    has reached the target, and is let through by nothing else. *)
Theorem waitBarrier_answer ctx_err target seen last_view :
  (forall answer, waitBarrier ctx_err target seen last_view = Some answer <->
     match ctx_err with
     | Some e => answer = Some e
     | None => exists pre v w rest, seen ++ [(last_view, Changed)] = pre ++ (v, w) :: rest /\
         Forall (fun x => pending target x.1 /\ x.2 = Changed) pre /\ answers_at target v w rest answer
     end) /\
  (forall pre v w rest, seen = pre ++ (v, w) :: rest -> ctx_err = None ->
     Forall (fun x => x.2 = Changed) pre ->
     fatal v <> None \/ (target <= watermark v)%N ->
     exists answer, waitBarrier ctx_err target seen last_view = Some answer).
Proof.
  unfold waitBarrier. destruct ctx_err as [e0|]; [split; [intros answer; split; congruence|done]|].
  split; [intros answer; apply barrier_loop_answer|]. intros pre v w rest -> _ Hpre Hv.
  induction Hpre as [|[v0 w0] pre Hw _ IH]; cbn.
  - destruct (barrier_poll target v) as [a|] eqn:Ep; [eauto|]. apply barrier_poll_pending in Ep as [Hf Hlt].
    destruct Hv as [?|?]; [done|lia].
  - destruct (barrier_poll target v0); [eauto|]. cbn in Hw. by rewrite Hw.
Qed.

End view.

(** ** The hypotheses hold *)

Section samples.
Existing Instance Reference.reference.

Definition sample_view : orderedView := newOrderedView "work/q1".
Definition sample_live : OrderedRecord :=
  {| ID := sample_id; RankingScope := "prio"; Revision := 1; Order := 1;
     DueOf := {| DueStateOf := DueAt; UnixMillis := 500 |}; RankOf := {| Ranked := true; RankVal := 7 |};
     Value := Some "a"; Deleted := false |}.
(** A second identity of the same scope, ranked higher and due earlier. *)
Definition sample_ahead : OrderedRecord :=
  {| ID := second_id; RankingScope := "prio"; Revision := 1; Order := 2;
     DueOf := {| DueStateOf := DueAt; UnixMillis := 400 |}; RankOf := {| Ranked := true; RankVal := 9 |};
     Value := Some "b"; Deleted := false |}.
Definition view_one : orderedView := applyRecord sample_live sample_view.
Definition view_two : orderedView := applyRecord sample_ahead view_one.

Lemma sample_admissible : admissible sample_view sample_live.
Proof. repeat split; try done. Qed.

Lemma sample_admissible2 : admissible view_one sample_ahead.
Proof.
  split; [vm_compute; reflexivity|]. split; [vm_compute; intuition discriminate|].
  assert (Er : records view_one = <[identity_of sample_live := sample_live]> ∅) by reflexivity.
  rewrite Er. split.
  - intros previous. rewrite lookup_insert_ne by (vm_compute; discriminate). done.
  - intros key r [[<- <-]|[_ H]]%lookup_insert_Some _ _; [discriminate|done].
Qed.

Lemma view_one_inv : view_inv view_one.
Proof. apply applyRecord_inv_lemma; [apply new_view_inv|apply sample_admissible]. Qed.
Lemma view_two_inv : view_inv view_two.
Proof. apply applyRecord_inv_lemma; [apply view_one_inv|apply sample_admissible2]. Qed.

Theorem applyRecord_correct_witness :
  ranked_of view_two "prio" = [identity_of sample_ahead; identity_of sample_live] /\
  applyRecord sample_ahead view_two = view_two.
Proof.
  split; [vm_compute; reflexivity|].
  apply (applyRecord_correct view_one sample_ahead view_one_inv sample_admissible2).
Defined.
End samples.

End View.
