(* ===== verification/OrderedList.v ===== *)
(** * [ordered.go], lines 1187-1198 and 1360-1549: the listings.

    [ListOrdered], [ListRanked] and [ListDue] over a view that is caught up, with their
    cursors.  A slice expression out of range, or an index into an empty page, is a
    [Panic]; the page theorems show none happens. *)

From S2P Require Import Prelude GoText Encoding Json Storage OrderedCodec OrderedIndex OrderedView.
Open Scope stdpp_scope.
Import Json Codec Index View.

Module Listing.

Record OrderedPage := { Records : list OrderedRecord; NextAfterOrder : N }.
(** Ranked and due pages have one shape. *)
Record CursorPage := { PageRecords : list OrderedRecord; NextCursor : string }.

Definition slice_panic : error := Panic "slice bounds out of range".
Definition index_panic : error := Panic "index out of range".

Section listing.
Context `{Sto : Storage}.

(** The copies carry the record; each costs one visit. *)
Definition collectLocked (v : orderedView) (entries : list orderedIdentity) : list OrderedRecord :=
  rec_of (records v) <$> entries.

(** ** Cursors *)

Definition decodeRankedCursor (cursor namespace rankingScope : string) : res (OrderedRecord * bool) :=
  if decide (cursor = EmptyString) then Ok (zeroRecord, false)
  else
    payload <-? decodeOrderedCursorPayload RankedCursorKind cursor;
    if negb (String.eqb (c_Namespace payload) namespace) || negb (String.eqb (c_RankingScope payload) rankingScope)
    then Err (InvalidOrderedCursorError RankedCursorKind cursor OrderedCursorQueryMismatch)
    else Ok ({| ID := {| Namespace := c_Namespace payload; OrderingScope := c_OrderingScope payload;
                         StableKey := c_StableKey payload |};
                RankingScope := c_RankingScope payload; Revision := 0; Order := 0;
                DueOf := {| DueStateOf := 0; UnixMillis := 0 |};
                RankOf := {| Ranked := true; RankVal := c_Rank payload |};
                Value := None; Deleted := false |}, true).

Definition decodeDueCursor (cursor namespace : string) (dueAtOrBefore : Z) : res (OrderedRecord * bool) :=
  if decide (cursor = EmptyString) then Ok (zeroRecord, false)
  else
    payload <-? decodeOrderedCursorPayload DueCursorKind cursor;
    if negb (String.eqb (c_Namespace payload) namespace) || negb (c_DueBound payload =? dueAtOrBefore)%Z
       || (dueAtOrBefore <? c_DueAt payload)%Z
    then Err (InvalidOrderedCursorError DueCursorKind cursor OrderedCursorQueryMismatch)
    else Ok ({| ID := {| Namespace := c_Namespace payload; OrderingScope := c_OrderingScope payload;
                         StableKey := c_StableKey payload |};
                RankingScope := EmptyString; Revision := 0; Order := 0;
                DueOf := {| DueStateOf := DueAt; UnixMillis := c_DueAt payload |};
                RankOf := zeroRank; Value := None; Deleted := false |}, true).

Definition ranked_cursor (namespace rankingScope : string) (last : OrderedRecord) : orderedCursorPayload :=
  {| c_Kind := RankedCursorKind; c_Namespace := namespace; c_RankingScope := rankingScope;
     c_Rank := RankVal (RankOf last); c_DueBound := 0; c_DueAt := 0;
     c_StableKey := StableKey (ID last); c_OrderingScope := OrderingScope (ID last) |}.
Definition due_cursor (namespace : string) (bound : Z) (last : OrderedRecord) : orderedCursorPayload :=
  {| c_Kind := DueCursorKind; c_Namespace := namespace; c_RankingScope := EmptyString; c_Rank := 0;
     c_DueBound := bound; c_DueAt := UnixMillis (DueOf last);
     c_StableKey := StableKey (ID last); c_OrderingScope := OrderingScope (ID last) |}.

(** ** The three listings; [ready] is [readyView]'s answer.  The second component counts
    the index entries visited. *)

Definition ListOrdered (ready : res orderedView) (namespace orderingScope : string) (afterOrder : N)
    (limit : Z) : res (OrderedPage * nat) :=
  guard? ValidateName namespace;
  guard? ValidateName orderingScope;
  guard? ValidateOrderedLimit limit;
  view <-? ready;
  let entries := order_of view orderingScope in
  let (start, n) :=
    if negb (afterOrder =? MaxUint64)%N then orderLowerBoundLocked (records view) entries (add64 afterOrder 1)
    else (length entries, 0) in
  let end_ := Nat.min (start + Z.to_nat limit) (length entries) in
  match slice_range entries start end_ with
  | None => Err slice_panic
  | Some run =>
      let recs := collectLocked view run in
      Ok ({| Records := recs; NextAfterOrder := match last recs with Some r => Order r | None => 0%N end |},
          n + length run)
  end.

(** The tail the two cursor listings share: the page, and the cursor when more is eligible. *)
Definition cursor_page (view : orderedView) (entries : list orderedIdentity) (start end_ eligible n : nat)
    (token : OrderedRecord -> orderedCursorPayload) : res (CursorPage * nat) :=
  match slice_range entries start end_ with
  | None => Err slice_panic
  | Some run =>
      let recs := collectLocked view run in
      if end_ <? eligible then
        match last recs with
        | None => Err index_panic
        | Some r =>
            next <-? encodeOrderedCursor (token r);
            Ok ({| PageRecords := recs; NextCursor := next |}, n + length run)
        end
      else Ok ({| PageRecords := recs; NextCursor := EmptyString |}, n + length run)
  end.

Definition ListRanked (ready : res orderedView) (namespace rankingScope after : string) (limit : Z)
    : res (CursorPage * nat) :=
  guard? ValidateName namespace;
  guard? ValidateName rankingScope;
  guard? ValidateOrderedLimit limit;
  match decodeRankedCursor after namespace rankingScope with
  | Err e => Err e
  | Ok (probe, resuming) =>
      view <-? ready;
      let entries := ranked_of view rankingScope in
      let (start, n) :=
        if (resuming : bool) then upperBoundLocked (records view) entries orderedRankedBefore probe else (0, 0) in
      let end_ := Nat.min (start + Z.to_nat limit) (length entries) in
      cursor_page view entries start end_ (length entries) n (ranked_cursor namespace rankingScope)
  end.

Definition ListDue (ready : res orderedView) (namespace : string) (dueAtOrBefore : Z) (after : string)
    (limit : Z) : res (CursorPage * nat) :=
  guard? ValidateName namespace;
  guard? ValidateOrderedLimit limit;
  match decodeDueCursor after namespace dueAtOrBefore with
  | Err e => Err e
  | Ok (probe, resuming) =>
      view <-? ready;
      let entries := due view in
      let (start, n) :=
        if (resuming : bool) then upperBoundLocked (records view) entries orderedDueBefore probe else (0, 0) in
      let (eligible, n') := dueEndLocked (records view) entries dueAtOrBefore in
      let end_ := Nat.min (start + Z.to_nat limit) eligible in
      cursor_page view entries start end_ eligible (n + n') (due_cursor namespace dueAtOrBefore)
  end.

(** ** Sorted listings *)

(** [all] is the strictly sorted list of the view's records that satisfy [P]. *)
Definition lists (before : orderedComparator) (v : orderedView) (P : OrderedRecord -> Prop)
    (all : list OrderedRecord) : Prop :=
  StronglySorted (fun a b => before a b = true) all /\
  forall r, r ∈ all <-> exists k, records v !! k = Some r /\ P r.

Lemma collect_lists before v P entries :
  indexed before (records v) P entries -> lists before v P (collectLocked v entries).
Proof.
  intros [Hs Hm]. split.
  - unfold collectLocked. clear Hm. induction Hs as [|x l Hs IH Hx]; [constructor|]. constructor; [done|].
    apply Forall_fmap. exact Hx.
  - intros r. unfold collectLocked. split.
    + intros (k & -> & (r0 & Hr & HP)%Hm)%list_elem_of_fmap. exists k. by rewrite (rec_of_Some _ _ _ Hr).
    + intros (k & Hr & HP). apply list_elem_of_fmap. exists k. rewrite (rec_of_Some _ _ _ Hr).
      split; [done|]. apply Hm. eauto.
Qed.

Lemma split_filter {A} (q : A -> bool) l k :
  (forall i x, l !! i = Some x -> i < k -> q x = true) ->
  (forall i x, l !! i = Some x -> k <= i -> q x = false) ->
  List.filter q l = take k l /\ List.filter (fun x => negb (q x)) l = drop k l.
Proof.
  revert k. induction l as [|x l IH]; intros k Hlo Hhi; cbn; [by rewrite take_nil, drop_nil|].
  destruct k as [|k].
  - assert (Hx : q x = false) by (apply (Hhi 0); [done|lia]). rewrite Hx. cbn.
    destruct (IH 0) as [-> ->]; [intros; lia|intros i y Hy _; apply (Hhi (S i)); [done|lia]|].
    by rewrite take_0, drop_0.
  - assert (Hx : q x = true) by (apply (Hlo 0); [done|lia]). rewrite Hx. cbn.
    destruct (IH k) as [-> ->]; [intros i y Hy Hi; apply (Hlo (S i)); [done|lia]|
      intros i y Hy Hi; apply (Hhi (S i)); [done|lia]|done].
Qed.

(** A binary search splits the records of an index as its test does. *)
Lemma search_split (q : OrderedRecord -> bool) v entries k n :
  antitone (length entries) (fun i => q (entry (records v) entries i)) ->
  search_loop (length entries) (fun i => q (entry (records v) entries i)) 0 (length entries) 0 = (k, n) ->
  k <= length entries /\
  List.filter q (collectLocked v entries) = take k (collectLocked v entries) /\
  List.filter (fun r => negb (q r)) (collectLocked v entries) = drop k (collectLocked v entries) /\
  n <= S (Nat.log2 (length entries)).
Proof.
  intros Ha H. apply search_spec in H as (Hk & Hlo & Hhi & Hn); [|done].
  destruct (split_filter q (collectLocked v entries) k) as [H1 H2].
  - intros i x Hx Hi. unfold collectLocked in Hx. apply list_lookup_fmap_Some in Hx as (key & -> & Hkey).
    rewrite <- (entry_lookup _ _ _ _ Hkey). by apply Hlo.
  - intros i x Hx Hi. unfold collectLocked in Hx. apply list_lookup_fmap_Some in Hx as (key & -> & Hkey).
    rewrite <- (entry_lookup _ _ _ _ Hkey). apply Hhi; [done|]. by eapply lookup_lt_Some.
  - split_and!; [done..|]. case_decide; lia.
Qed.

(** The page cut out of an index: at most [limit] records from [start]. *)
Lemma page_slice v entries start stop limit :
  start <= stop -> stop <= length entries ->
  let end_ := Nat.min (start + limit) stop in
  slice_range entries start end_ = Some (take (end_ - start) (drop start entries)) /\
  collectLocked v (take (end_ - start) (drop start entries)) =
    take limit (drop start (take stop (collectLocked v entries))) /\
  length (take (end_ - start) (drop start entries)) = Nat.min limit (stop - start).
Proof.
  intros Hs Hl end_. split_and!.
  - apply slice_range_Some; unfold end_; lia.
  - unfold collectLocked. rewrite fmap_take, fmap_drop, !take_drop_commute, take_take.
    do 2 f_equal. unfold end_. lia.
  - rewrite length_take, length_drop. unfold end_. lia.
Qed.

(** What a page of [rest] under [limit] is: its first records, and the cursor of the last
    one exactly when more remain. *)
Definition is_page (limit : nat) (token : OrderedRecord -> orderedCursorPayload) (rest : list OrderedRecord)
    (page : CursorPage) : Prop :=
  PageRecords page = take limit rest /\
  (if decide (length rest <= limit) then NextCursor page = EmptyString
   else exists r, last (PageRecords page) = Some r /\ encodeOrderedCursor (token r) = Ok (NextCursor page)).

Lemma cursor_page_spec v entries start stop limit n token :
  start <= stop -> stop <= length entries -> 0 < limit ->
  exists page, cursor_page v entries start (Nat.min (start + limit) stop) stop n token =
    Ok (page, n + Nat.min limit (stop - start)) /\
    is_page limit token (drop start (take stop (collectLocked v entries))) page.
Proof.
  intros Hs Hl Hlim. destruct (page_slice v entries start stop limit Hs Hl) as (Hsl & Hc & Hlen).
  unfold cursor_page. rewrite Hsl, Hc, Hlen.
  set (rest := drop start (take stop (collectLocked v entries))).
  assert (Hrest : length rest = stop - start).
  { unfold rest, collectLocked. rewrite length_drop, length_take, length_fmap. lia. }
  destruct (Nat.ltb_spec (Nat.min (start + limit) stop) stop).
  - destruct (last (take limit rest)) as [r|] eqn:Hlast.
    + eexists. split; [done|]. split; [done|]. rewrite decide_False by lia. by exists r.
    + apply last_None in Hlast. apply (f_equal length) in Hlast. rewrite length_take in Hlast. cbn in Hlast. lia.
  - eexists. split; [done|]. split; [done|]. by rewrite decide_True by lia.
Qed.

(** ** Cursors decode to the position they were issued for *)

Context {L : StorageLaws Sto}.

Definition cap_ok (payload : orderedCursorPayload) : Prop :=
  String.length (cursor_token orderedCursorVersion (print_object (cursor_members payload)))
    <= maxOrderedCursorBytes.

Lemma cursor_token_nonempty payload token : encodeOrderedCursor payload = Ok token -> token <> EmptyString.
Proof. by intros [= <-]. Qed.

Lemma kind_utf8 : Utf8.utf8 RankedCursorKind /\ Utf8.utf8 DueCursorKind.
Proof. destruct CursorKind_ascii. split; by apply Utf8.ascii_utf8. Qed.

Lemma record_cursor_ok r : ValidateOrderedRecord r = None -> typed_record r ->
  Utf8.utf8 (StableKey (ID r)) /\ Utf8.utf8 (OrderingScope (ID r)) /\
  i64 (RankVal (RankOf r)) /\ i64 (UnixMillis (DueOf r)).
Proof.
  intros (_ & Hos & _ & Hk)%valid_record_names (_ & _ & _ & ? & ?).
  split_and!; [by apply Utf8.ValidString_utf8|by apply valid_name_utf8|done..].
Qed.

Lemma decodeRankedCursor_issued ns rs r token :
  ValidateName ns = None -> ValidateName rs = None -> ValidateOrderedRecord r = None -> typed_record r ->
  encodeOrderedCursor (ranked_cursor ns rs r) = Ok token -> cap_ok (ranked_cursor ns rs r) ->
  exists probe, decodeRankedCursor token ns rs = Ok (probe, true) /\
    forall x, orderedRankedBefore probe x = orderedRankedBefore r x.
Proof.
  intros Hns Hrs Hv Ht He Hcap. destruct (record_cursor_ok r Hv Ht) as (Hk & Hos & Hrk & _).
  pose proof (cursor_token_nonempty _ _ He). unfold decodeRankedCursor. rewrite decide_False by done.
  injection He as <-.
  change RankedCursorKind with (c_Kind (ranked_cursor ns rs r)).
  rewrite (decode_issued_cursor (ranked_cursor ns rs r)).
  - cbn. rewrite !String.eqb_refl. cbn. eexists. split; [done|]. done.
  - split; cbn; try done; [apply kind_utf8|by apply valid_name_utf8..].
  - exact Hcap.
Qed.

Lemma decodeDueCursor_issued ns bound r token :
  ValidateName ns = None -> i64 bound -> (UnixMillis (DueOf r) <= bound)%Z ->
  ValidateOrderedRecord r = None -> typed_record r ->
  encodeOrderedCursor (due_cursor ns bound r) = Ok token -> cap_ok (due_cursor ns bound r) ->
  exists probe, decodeDueCursor token ns bound = Ok (probe, true) /\
    forall x, orderedDueBefore probe x = orderedDueBefore r x.
Proof.
  intros Hns Hb Hle Hv Ht He Hcap. destruct (record_cursor_ok r Hv Ht) as (Hk & Hos & _ & Hdu).
  pose proof (cursor_token_nonempty _ _ He). unfold decodeDueCursor. rewrite decide_False by done.
  injection He as <-.
  change DueCursorKind with (c_Kind (due_cursor ns bound r)).
  rewrite (decode_issued_cursor (due_cursor ns bound r)).
  - cbn. rewrite String.eqb_refl, Z.eqb_refl. cbn. destruct (Z.ltb_spec bound (UnixMillis (DueOf r))); [lia|].
    eexists. split; [done|]. done.
  - split; cbn; try done; [apply kind_utf8|by apply valid_name_utf8|by apply Utf8.ascii_utf8].
  - exact Hcap.
Qed.

(** ** Searching an index for a cursor position *)

Lemma resume_spec before `{!Comparator before} v P entries probe (resuming : bool) start n :
  indexed before (records v) P entries ->
  (if resuming then upperBoundLocked (records v) entries before probe else (0, 0)) = (start, n) ->
  start <= length entries /\ n <= Datatypes.S (Nat.log2 (length entries)) /\
  forall stop, start <= stop -> drop start (take stop (collectLocked v entries)) =
    (if resuming then List.filter (before probe) (take stop (collectLocked v entries))
     else take stop (collectLocked v entries)).
Proof.
  intros [Hs _] H. destruct resuming; [|injection H as <- <-; split_and!; [lia..|intros; by rewrite drop_0]].
  apply search_spec in H as (Hk & Hlo & Hhi & Hn); [|by apply upper_antitone].
  split_and!; [done|case_decide; lia|]. intros stop Hstop.
  assert (Hcell : forall i x, take stop (collectLocked v entries) !! i = Some x ->
    i < length entries /\ entry (records v) entries i = x).
  { intros i x Hx. apply lookup_take_Some in Hx as [Hx _]. unfold collectLocked in Hx.
    apply list_lookup_fmap_Some in Hx as (key & -> & Hkey). rewrite (entry_lookup _ _ _ _ Hkey).
    split; [by eapply lookup_lt_Some|done]. }
  destruct (split_filter (fun r => negb (before probe r)) (take stop (collectLocked v entries)) start) as [_ Hd].
  - intros i x [Hi <-]%Hcell Hlt. by apply Hlo.
  - intros i x [Hi <-]%Hcell Hge. by apply Hhi.
  - rewrite <- Hd. apply List.filter_ext. intros r. by rewrite negb_involutive.
Qed.

Lemma due_eligible v bound stop n :
  view_inv v -> dueEndLocked (records v) (due v) bound = (stop, n) ->
  stop <= length (due v) /\ n <= Datatypes.S (Nat.log2 (length (due v))) /\
  take stop (collectLocked v (due v)) =
    List.filter (fun r => (UnixMillis (DueOf r) <=? bound)%Z) (collectLocked v (due v)).
Proof.
  intros Hv H.
  apply (search_split (fun r => (UnixMillis (DueOf r) <=? bound)%Z)) in H as (Hk & Hf & _ & Hn); [by split_and!|].
  destruct (inv_due v Hv) as [Hs _]. intros i j Hij Hj Hb.
  destruct (lookup_lt_is_Some_2 (due v) j Hj) as [b Hlb].
  destruct (lookup_lt_is_Some_2 (due v) i ltac:(lia)) as [a Hla].
  rewrite (entry_lookup _ _ _ _ Hla). rewrite (entry_lookup _ _ _ _ Hlb) in Hb.
  destruct (decide (i = j)) as [->|]; [congruence|].
  pose proof (sorted_lookup _ _ _ _ _ _ _ Hs Hla Hlb ltac:(lia)) as Hab.
  apply due_before_iff in Hab. apply Z.leb_le in Hb. apply Z.leb_le. lia.
Qed.

(** In a sorted list, a resumed search starts inside the eligible prefix: what lies before
    the probe is due no later than the probe. *)
Lemma due_start v bound probe (resuming : bool) start n stop n' :
  view_inv v -> (resuming = true -> UnixMillis (DueOf probe) <= bound)%Z ->
  (if resuming then upperBoundLocked (records v) (due v) orderedDueBefore probe else (0, 0)) = (start, n) ->
  dueEndLocked (records v) (due v) bound = (stop, n') -> start <= stop.
Proof.
  intros Hv Hb Hst Hend. destruct resuming; [|injection Hst as <- <-; lia].
  destruct (inv_due v Hv) as [Hs _]. specialize (Hb eq_refl).
  apply search_spec in Hst as (Hk & Hlo & _ & _); [|by apply upper_antitone; [apply _|]].
  pose proof (due_eligible v bound stop n' Hv Hend) as (Hstop & _ & _).
  destruct (Nat.le_gt_cases start stop) as [|Hgt]; [done|]. exfalso.
  destruct (lookup_lt_is_Some_2 (due v) stop ltac:(lia)) as [a Ha].
  pose proof (Hlo stop Hgt) as H1. rewrite (entry_lookup _ _ _ _ Ha) in H1.
  apply negb_true_iff in H1.
  assert (H2 : (bound < UnixMillis (DueOf (rec_of (records v) a)))%Z).
  { unfold dueEndLocked in Hend. apply search_spec in Hend as (_ & _ & Hhi & _).
    - specialize (Hhi stop (le_n _) ltac:(lia)). rewrite (entry_lookup _ _ _ _ Ha) in Hhi.
      by apply Z.leb_gt in Hhi.
    - intros i j Hij Hj Hbj. destruct (lookup_lt_is_Some_2 (due v) j Hj) as [y Hy].
      destruct (lookup_lt_is_Some_2 (due v) i ltac:(lia)) as [x Hx].
      rewrite (entry_lookup _ _ _ _ Hx). rewrite (entry_lookup _ _ _ _ Hy) in Hbj.
      destruct (decide (i = j)) as [->|]; [congruence|].
      pose proof (sorted_lookup _ _ _ _ _ _ _ Hs Hx Hy ltac:(lia)) as Hab.
      apply due_before_iff in Hab. apply Z.leb_le in Hbj. apply Z.leb_le. lia. }
  assert (orderedDueBefore probe (rec_of (records v) a) = true) by (apply due_before_iff; left; lia).
  congruence.
Qed.

(** ** Walking the pages *)

(** Every page from [cursor] on, concatenated; [None] on an error or without an end. *)
Fixpoint walk (fuel : nat) (page_at : string -> res (CursorPage * nat)) (cursor : string)
    : option (list OrderedRecord) :=
  match fuel with
  | 0 => None
  | Datatypes.S fuel' =>
      match page_at cursor with
      | Err _ => None
      | Ok (page, _) =>
          if decide (NextCursor page = EmptyString) then Some (PageRecords page)
          else option_map (app (PageRecords page)) (walk fuel' page_at (NextCursor page))
      end
  end.

Lemma walk_S fuel page_at cursor :
  walk (Datatypes.S fuel) page_at cursor =
  match page_at cursor with
  | Err _ => None
  | Ok (page, _) =>
      if decide (NextCursor page = EmptyString) then Some (PageRecords page)
      else option_map (app (PageRecords page)) (walk fuel page_at (NextCursor page))
  end.
Proof. reflexivity. Qed.

Lemma filter_after before `{!Comparator before} l1 r l2 :
  StronglySorted (fun a b => before a b = true) (l1 ++ r :: l2) ->
  List.filter (before r) (l1 ++ r :: l2) = l2.
Proof.
  intros (H12 & H1 & [H2 _]%StronglySorted_cons)%StronglySorted_app.
  rewrite List.filter_app. cbn. rewrite before_irrefl.
  assert (E1 : List.filter (before r) l1 = []).
  { assert (Hall : Forall (fun x => before r x = false) l1).
    { apply Forall_forall. intros x Hx. apply not_true_iff_false. intros Hc.
      pose proof (before_trans _ _ _ Hc (H12 x r Hx ltac:(by left))) as Ht. by rewrite before_irrefl in Ht. }
    clear -Hall. induction Hall as [|x l Hx _ IH]; [done|]. cbn. by rewrite Hx. }
  rewrite E1. cbn. clear -H2. induction H2 as [|x l Hx _ IH]; [done|]. cbn. by rewrite Hx, IH.
Qed.

Lemma walk_complete before `{!Comparator before} all limit token page_at :
  StronglySorted (fun a b => before a b = true) all -> 0 < limit ->
  (exists page n, page_at EmptyString = Ok (page, n) /\ is_page limit token all page) ->
  (forall r tok, r ∈ all -> encodeOrderedCursor (token r) = Ok tok ->
     exists page n, page_at tok = Ok (page, n) /\ is_page limit token (List.filter (before r) all) page) ->
  walk (Datatypes.S (length all)) page_at EmptyString = Some all.
Proof.
  intros Hs Hlim H0 Hres.
  assert (Hgen : forall fuel rest pre cursor, all = pre ++ rest -> length rest <= fuel ->
    (exists page n, page_at cursor = Ok (page, n) /\ is_page limit token rest page) ->
    walk (Datatypes.S fuel) page_at cursor = Some rest).
  { induction fuel as [|fuel IH]; intros rest pre cursor Hall Hf (page & n & Hp & Hrec & Hnext);
      rewrite walk_S, Hp; destruct (decide (length rest <= limit)) as [Hle|Hgt].
    1, 3: rewrite decide_True by done; rewrite Hrec; by rewrite take_ge by lia.
    - lia.
    - destruct Hnext as (r & Hlast & Htok). rewrite decide_False by (by eapply cursor_token_nonempty).
      rewrite Hrec in Hlast. apply last_Some in Hlast as [init Hinit].
      assert (Esplit : rest = init ++ r :: drop limit rest).
      { rewrite <- (take_drop limit rest) at 1. rewrite Hinit, <- app_assoc. done. }
      assert (Hmem : r ∈ all).
      { rewrite Hall, Esplit. apply elem_of_app. right. apply elem_of_app. right. by left. }
      rewrite (IH (drop limit rest) (pre ++ init ++ [r]) (NextCursor page)).
      + cbn. by rewrite Hrec, take_drop.
      + rewrite Hall. rewrite Esplit at 1. by rewrite <- !app_assoc.
      + rewrite length_drop. lia.
      + destruct (Hres r _ Hmem Htok) as (page' & n' & Hp' & Hpage'). exists page', n'. split; [done|].
        rewrite Hall in Hpage', Hs. rewrite Esplit, app_assoc in Hpage', Hs.
        by rewrite filter_after in Hpage' by done. }
  by apply (Hgen _ all []).
Qed.

(** ** Properties *)

(** Where [ListOrdered] starts: past the orders up to [after], none when it is maximal. *)
Lemma ordered_start v scope after :
  view_inv v -> u64 after ->
  let entries := order_of v scope in
  let start := if negb (after =? MaxUint64)%N then orderLowerBoundLocked (records v) entries (add64 after 1) else (length entries, 0) in
  fst start <= length entries /\ snd start <= Datatypes.S (Nat.log2 (length entries)) /\
  drop (fst start) (collectLocked v entries) = List.filter (fun r => (after <? Order r)%N) (collectLocked v entries).
Proof.
  intros Hv Hu entries start. pose proof (inv_order v Hv scope) as Hi. fold entries in Hi.
  unfold start. destruct (N.eqb_spec after MaxUint64) as [->|Hne]; cbn [negb].
  - cbn. assert (Hlen : length (collectLocked v entries) = length entries) by apply length_fmap.
    split_and!; [lia..|]. rewrite drop_ge by lia.
    assert (Hall : Forall (fun r => (MaxUint64 <? Order r)%N = false) (collectLocked v entries)).
    { apply Forall_fmap, Forall_forall. intros k (r & Hr & _)%(proj2 Hi).
      change ((MaxUint64 <? Order (rec_of (records v) k))%N = false). rewrite (rec_of_Some _ _ _ Hr).
      destruct (inv_valid v Hv k r Hr) as [_ (_ & Ho & _)]. apply N.ltb_ge. unfold u64, two64, MaxUint64 in *. lia. }
    clear Hlen. induction Hall as [|x l Hx _ IH]; [done|]. cbn. by rewrite Hx.
  - destruct (orderLowerBoundLocked (records v) entries (add64 after 1)) as [k n] eqn:Hb.
    rewrite add64_small in Hb by (unfold u64, two64, MaxUint64 in *; lia).
    apply (search_split (fun r => (Order r <? after + 1)%N)) in Hb as (Hk & _ & Hd & Hn).
    + split_and!; [done..|]. cbn [fst]. rewrite <- Hd. apply List.filter_ext. intros r.
      destruct (N.ltb_spec (Order r) (after + 1)), (N.ltb_spec after (Order r)); cbn; done || lia.
    + intros i j Hij Hj Hlt.
      pose proof (lower_antitone orderBefore (records v) entries
        {| ID := zeroID; RankingScope := EmptyString; Revision := 0; Order := after + 1;
           DueOf := {| DueStateOf := 0; UnixMillis := 0 |}; RankOf := zeroRank; Value := None; Deleted := false |}
        (proj1 Hi)) as Ha. by apply (Ha i j).
Qed.

Lemma ListOrdered_spec v namespace scope after limit :
  view_inv v -> ValidateName namespace = None -> ValidateName scope = None ->
  ValidateOrderedLimit limit = None -> u64 after ->
  let all := collectLocked v (order_of v scope) in
  exists visits,
    let recs := take (Z.to_nat limit) (List.filter (fun r => (after <? Order r)%N) all) in
    ListOrdered (Ok v) namespace scope after limit =
      Ok ({| Records := recs; NextAfterOrder := match last recs with Some r => Order r | None => 0%N end |}, visits) /\
    visits <= Datatypes.S (Nat.log2 (length all)) + Z.to_nat limit.
Proof.
  intros Hv Hns Hsc Hlim Hu. pose proof (ValidateOrderedLimit_pos _ Hlim) as Hpos.
  destruct (ordered_start v scope after Hv Hu) as (Hst & Hn & Hd). cbv zeta in *.
  unfold ListOrdered. rewrite Hns, Hsc, Hlim. set (entries := order_of v scope) in *.
  assert (Hlen : length (collectLocked v entries) = length entries) by apply length_fmap.
  set (start_n := if negb (after =? MaxUint64)%N then _ else _) in *.
  destruct start_n as [start n]. cbn [fst snd] in *.
  destruct (page_slice v entries start (length entries) (Z.to_nat limit) Hst (le_n _)) as (Hsl & Hc & Hl).
  rewrite Hsl, Hc, Hl. rewrite (take_ge (collectLocked v entries)) by lia. rewrite Hd.
  exists (n + Nat.min (Z.to_nat limit) (length entries - start)). split; [done|]. rewrite Hlen. lia.
Qed.

(** [ListOrdered] never panics, and its page is exactly the first [limit] records of
    the scope's sorted acceptance stream, tombstones included, whose order is strictly
    greater than [afterOrder] (the maximal order included: nothing follows it), at the
    cost of one binary search plus its own length. *)
Theorem ListOrdered_page v namespace scope after limit :
  view_inv v -> ValidateName namespace = None -> ValidateName scope = None ->
  ValidateOrderedLimit limit = None -> u64 after ->
  exists all visits, lists orderBefore v (in_order scope) all /\
    let recs := take (Z.to_nat limit) (List.filter (fun r => (after <? Order r)%N) all) in
    ListOrdered (Ok v) namespace scope after limit =
      Ok ({| Records := recs; NextAfterOrder := match last recs with Some r => Order r | None => 0%N end |}, visits) /\
    visits <= Datatypes.S (Nat.log2 (length all)) + Z.to_nat limit.
Proof.
  intros Hv Hns Hsc Hlim Hu. destruct (ListOrdered_spec v namespace scope after limit Hv Hns Hsc Hlim Hu) as (visits & H).
  exists (collectLocked v (order_of v scope)), visits. split; [apply collect_lists, inv_order, Hv|exact H].
Qed.

Lemma ListRanked_spec v namespace scope after limit probe (resuming : bool) :
  view_inv v -> ValidateName namespace = None -> ValidateName scope = None ->
  ValidateOrderedLimit limit = None -> decodeRankedCursor after namespace scope = Ok (probe, resuming) ->
  let all := collectLocked v (ranked_of v scope) in
  exists page visits, ListRanked (Ok v) namespace scope after limit = Ok (page, visits) /\
    is_page (Z.to_nat limit) (ranked_cursor namespace scope)
      (if resuming then List.filter (orderedRankedBefore probe) all else all) page /\
    visits <= Datatypes.S (Nat.log2 (length all)) + Z.to_nat limit.
Proof.
  intros Hv Hns Hsc Hlim Hc all. pose proof (ValidateOrderedLimit_pos _ Hlim) as Hpos.
  pose proof (inv_ranked v Hv scope) as Hi. unfold ListRanked. rewrite Hns, Hsc, Hlim, Hc.
  set (entries := ranked_of v scope) in *.
  assert (Hlen : length all = length entries) by apply length_fmap.
  destruct (if resuming then _ else _) as [start n] eqn:Est.
  destruct (resume_spec orderedRankedBefore v _ entries probe resuming start n Hi Est) as (Hst & Hn & Hd).
  destruct (cursor_page_spec v entries start (length entries) (Z.to_nat limit) n
    (ranked_cursor namespace scope) Hst (le_n _) ltac:(lia)) as (page & Hp & Hpage).
  exists page, (n + Nat.min (Z.to_nat limit) (length entries - start)).
  specialize (Hd (length entries) Hst). fold all in Hpage, Hd. rewrite Hd, (take_ge all (length entries)) in Hpage by (by rewrite Hlen).
  split; [exact Hp|]. split; [exact Hpage|]. rewrite Hlen. lia.
Qed.

Lemma ListDue_spec v namespace bound after limit probe (resuming : bool) :
  view_inv v -> ValidateName namespace = None -> ValidateOrderedLimit limit = None ->
  decodeDueCursor after namespace bound = Ok (probe, resuming) ->
  let all := collectLocked v (due v) in
  let eligible := List.filter (fun r => (UnixMillis (DueOf r) <=? bound)%Z) all in
  exists page visits, ListDue (Ok v) namespace bound after limit = Ok (page, visits) /\
    is_page (Z.to_nat limit) (due_cursor namespace bound)
      (if resuming then List.filter (orderedDueBefore probe) eligible else eligible) page /\
    visits <= 2 * Datatypes.S (Nat.log2 (length all)) + Z.to_nat limit.
Proof.
  intros Hv Hns Hlim Hc all eligible. pose proof (ValidateOrderedLimit_pos _ Hlim) as Hpos.
  unfold ListDue. rewrite Hns, Hlim, Hc. set (entries := due v) in *.
  assert (Hlen : length all = length entries) by apply length_fmap.
  destruct (if resuming then _ else _) as [start n] eqn:Est.
  destruct (dueEndLocked (records v) entries bound) as [stop n'] eqn:Eend.
  assert (Hprobe : resuming = true -> (UnixMillis (DueOf probe) <= bound)%Z).
  { intros ->. unfold decodeDueCursor in Hc. destruct (decide _); [done|].
    destruct (decodeOrderedCursorPayload _ _) as [payload|]; [|done].
    destruct (negb _ || negb _ || (bound <? c_DueAt payload)%Z) eqn:E; [done|].
    apply orb_false_iff in E as [_ E]. injection Hc as <-. cbn. by apply Z.ltb_ge in E. }
  pose proof (due_start v bound probe resuming start n stop n' Hv Hprobe Est Eend) as Hle.
  destruct (due_eligible v bound stop n' Hv Eend) as (Hstop & Hn' & Htake).
  destruct (resume_spec orderedDueBefore v _ entries probe resuming start n (inv_due v Hv) Est)
    as (Hst & Hn & Hd).
  destruct (cursor_page_spec v entries start stop (Z.to_nat limit) (n + n')
    (due_cursor namespace bound) Hle Hstop ltac:(lia)) as (page & Hp & Hpage).
  exists page, (n + n' + Nat.min (Z.to_nat limit) (stop - start)). split; [exact Hp|].
  fold entries in Htake, Hn'. fold all in Hpage, Htake. split.
  - specialize (Hd stop Hle). fold all in Hd. rewrite Hd, Htake in Hpage. exact Hpage.
  - rewrite Hlen. lia.
Qed.

(** Walking a listing that only needs its cursors to fit the length cap. *)
Lemma ranked_pages v namespace scope limit :
  view_inv v -> ValidateName namespace = None -> ValidateName scope = None ->
  ValidateOrderedLimit limit = None ->
  let all := collectLocked v (ranked_of v scope) in
  (forall r, r ∈ all -> cap_ok (ranked_cursor namespace scope r)) ->
  walk (Datatypes.S (length all)) (fun after => ListRanked (Ok v) namespace scope after limit) EmptyString
    = Some all.
Proof.
  intros Hv Hns Hsc Hlim all Hcap. pose proof (ValidateOrderedLimit_pos _ Hlim) as Hpos.
  destruct (collect_lists _ v _ _ (inv_ranked v Hv scope)) as [Hs Hm]. fold all in Hs, Hm.
  apply (walk_complete orderedRankedBefore all (Z.to_nat limit) (ranked_cursor namespace scope)); [done|lia| |].
  - destruct (ListRanked_spec v namespace scope EmptyString limit zeroRecord false Hv Hns Hsc Hlim eq_refl)
      as (page & n & Hp & Hpage & _). eauto.
  - intros r tok Hr Htok. pose proof Hr as (k & Hk & _)%Hm. destruct (inv_valid v Hv k r Hk) as [Hval Hty].
    destruct (decodeRankedCursor_issued namespace scope r tok Hns Hsc Hval Hty Htok (Hcap r Hr)) as (probe & Hd & Hpr).
    destruct (ListRanked_spec v namespace scope tok limit probe true Hv Hns Hsc Hlim Hd) as (page & n & Hp & Hpage & _).
    exists page, n. split; [done|]. fold all in Hpage. by rewrite (List.filter_ext _ _ Hpr) in Hpage.
Qed.

Lemma sorted_filter before (q : OrderedRecord -> bool) l :
  StronglySorted (fun a b => before a b = true) l ->
  StronglySorted (fun a b => before a b = true) (List.filter q l).
Proof.
  induction 1 as [|x l Hs IH Hx]; [constructor|]. cbn. destruct (q x); [|done]. constructor; [done|].
  apply Forall_forall. intros y [Hy _]%list_elem_of_In%List.filter_In.
  apply (proj1 (Forall_forall _ _) Hx). by apply list_elem_of_In.
Qed.

Lemma due_lists v bound :
  view_inv v ->
  lists orderedDueBefore v (fun r => in_due r /\ (UnixMillis (DueOf r) <= bound)%Z)
    (List.filter (fun r => (UnixMillis (DueOf r) <=? bound)%Z) (collectLocked v (due v))).
Proof.
  intros Hv. destruct (collect_lists _ v _ _ (inv_due v Hv)) as [Hs Hm]. split; [by apply sorted_filter|].
  intros r. rewrite list_elem_of_In, List.filter_In, <- list_elem_of_In, Hm, Z.leb_le. split.
  - intros [(k & Hk & Hd) Hb]. by exists k.
  - intros (k & Hk & Hd & Hb). split; [by exists k|done].
Qed.

Lemma due_pages v namespace bound limit :
  view_inv v -> ValidateName namespace = None -> ValidateOrderedLimit limit = None -> i64 bound ->
  let eligible := List.filter (fun r => (UnixMillis (DueOf r) <=? bound)%Z) (collectLocked v (due v)) in
  (forall r, r ∈ eligible -> cap_ok (due_cursor namespace bound r)) ->
  walk (Datatypes.S (length eligible)) (fun after => ListDue (Ok v) namespace bound after limit) EmptyString
    = Some eligible.
Proof.
  intros Hv Hns Hlim Hb eligible Hcap. pose proof (ValidateOrderedLimit_pos _ Hlim) as Hpos.
  destruct (collect_lists _ v _ _ (inv_due v Hv)) as [Hs Hm].
  apply (walk_complete orderedDueBefore eligible (Z.to_nat limit) (due_cursor namespace bound));
    [by apply sorted_filter|lia| |].
  - destruct (ListDue_spec v namespace bound EmptyString limit zeroRecord false Hv Hns Hlim eq_refl)
      as (page & n & Hp & Hpage & _). eauto.
  - intros r tok Hr Htok. pose proof Hr as [Hin Hle]%list_elem_of_In%List.filter_In.
    apply list_elem_of_In in Hin. apply Z.leb_le in Hle.
    pose proof Hin as (k & Hk & _)%Hm. destruct (inv_valid v Hv k r Hk) as [Hval Hty].
    destruct (decodeDueCursor_issued namespace bound r tok Hns Hb Hle Hval Hty Htok (Hcap r Hr)) as (probe & Hd & Hpr).
    destruct (ListDue_spec v namespace bound tok limit probe true Hv Hns Hlim Hd) as (page & n & Hp & Hpage & _).
    exists page, n. split; [done|]. fold eligible in Hpage. by rewrite (List.filter_ext _ _ Hpr) in Hpage.
Qed.

(** C9. [ListRanked]: each page is the first [limit] live ranked records of the scope after
    the cursor's position in the descending sort key, a cursor is issued exactly when
    more remain, and a page costs one binary search plus its length; walking the cursors
    over an unchanging view returns every record once, in order. *)
Theorem ListRanked_complete v namespace scope limit :
  view_inv v -> ValidateName namespace = None -> ValidateName scope = None ->
  ValidateOrderedLimit limit = None ->
  exists all, lists orderedRankedBefore v (in_ranked scope) all /\
    (forall after probe (resuming : bool), decodeRankedCursor after namespace scope = Ok (probe, resuming) ->
       exists page visits, ListRanked (Ok v) namespace scope after limit = Ok (page, visits) /\
         is_page (Z.to_nat limit) (ranked_cursor namespace scope)
           (if resuming then List.filter (orderedRankedBefore probe) all else all) page /\
         visits <= Datatypes.S (Nat.log2 (length all)) + Z.to_nat limit) /\
    ((forall r, r ∈ all -> cap_ok (ranked_cursor namespace scope r)) ->
     walk (Datatypes.S (length all)) (fun after => ListRanked (Ok v) namespace scope after limit) EmptyString
       = Some all).
Proof.
  intros Hv Hns Hsc Hlim. exists (collectLocked v (ranked_of v scope)). split_and!.
  - apply collect_lists, inv_ranked, Hv.
  - intros. by apply ListRanked_spec.
  - by apply ranked_pages.
Qed.

(** C8. [ListDue]: the same for the records due no later than the bound, in ascending order.
    No slice of it is ever out of range: the cursor check keeps the resumed position
    inside the eligible prefix. *)
Theorem ListDue_complete v namespace bound limit :
  view_inv v -> ValidateName namespace = None -> ValidateOrderedLimit limit = None -> i64 bound ->
  exists all, lists orderedDueBefore v in_due all /\
    let eligible := List.filter (fun r => (UnixMillis (DueOf r) <=? bound)%Z) all in
    (forall after probe (resuming : bool), decodeDueCursor after namespace bound = Ok (probe, resuming) ->
       exists page visits, ListDue (Ok v) namespace bound after limit = Ok (page, visits) /\
         is_page (Z.to_nat limit) (due_cursor namespace bound)
           (if resuming then List.filter (orderedDueBefore probe) eligible else eligible) page /\
         visits <= 2 * Datatypes.S (Nat.log2 (length all)) + Z.to_nat limit) /\
    ((forall r, r ∈ eligible -> cap_ok (due_cursor namespace bound r)) ->
     walk (Datatypes.S (length eligible)) (fun after => ListDue (Ok v) namespace bound after limit) EmptyString
       = Some eligible).
Proof.
  intros Hv Hns Hlim Hb. exists (collectLocked v (due v)). split; [apply collect_lists, inv_due, Hv|].
  intros eligible. split; [intros; by apply ListDue_spec|by apply due_pages].
Qed.
End listing.

(** ** The hypotheses hold *)

Section samples.
Existing Instance Reference.reference.

Lemma view_two_records key r : records view_two !! key = Some r -> r = sample_ahead \/ r = sample_live.
Proof.
  assert (E : records view_two = <[identity_of sample_ahead := sample_ahead]> (<[identity_of sample_live := sample_live]> ∅))
    by reflexivity.
  rewrite E. intros [[_ <-]|[_ [[_ <-]|[_ ?]]%lookup_insert_Some]]%lookup_insert_Some; auto; done.
Qed.

Theorem ListOrdered_page_witness :
  exists visits, ListOrdered (Ok view_two) "work/q1" "lane_a" 1 10 =
    Ok ({| Records := [sample_ahead]; NextAfterOrder := 2 |}, visits).
Proof.
  destruct (ListOrdered_page view_two "work/q1" "lane_a" 1 10 view_two_inv ltac:(vm_compute; reflexivity)
    ltac:(vm_compute; reflexivity) ltac:(vm_compute; reflexivity) ltac:(vm_compute; reflexivity))
    as (all & visits & _ & H & _).
  assert (E : exists n, ListOrdered (Ok view_two) "work/q1" "lane_a" 1 10 =
    Ok ({| Records := [sample_ahead]; NextAfterOrder := 2 |}, n)) by (eexists; vm_compute; reflexivity).
  destruct E as [n E]. exists visits. rewrite E in H |- *. injection H as _ _ ->. reflexivity.
Defined.

Theorem ListRanked_complete_witness :
  exists all, walk (Datatypes.S (length all)) (fun after => ListRanked (Ok view_two) "work/q1" "prio" after 1) EmptyString
    = Some all.
Proof.
  destruct (ListRanked_complete view_two "work/q1" "prio" 1 view_two_inv ltac:(vm_compute; reflexivity)
    ltac:(vm_compute; reflexivity) ltac:(vm_compute; reflexivity)) as (all & [_ Hm] & _ & H).
  exists all. apply H. intros r (k & [->| ->]%view_two_records & _)%Hm;
    apply Nat.leb_le; vm_compute; reflexivity.
Defined.

Theorem ListDue_complete_witness :
  exists eligible, walk (Datatypes.S (length eligible)) (fun after => ListDue (Ok view_two) "work/q1" 450 after 1) EmptyString
    = Some eligible.
Proof.
  destruct (ListDue_complete view_two "work/q1" 450 1 view_two_inv ltac:(vm_compute; reflexivity)
    ltac:(vm_compute; reflexivity) ltac:(vm_compute; split; discriminate || reflexivity)) as (all & [_ Hm] & _ & H).
  eexists. apply H. intros r [Hin%list_elem_of_In _]%list_elem_of_In%List.filter_In.
  apply Hm in Hin as (k & [->| ->]%view_two_records & _);
    apply Nat.leb_le; vm_compute; reflexivity.
Defined.
End samples.
End Listing.
