(* ===== verification/OrderedDelivery.v ===== *)
(** * The view against the stream: what a caught-up reader sees.

    The stream keeps one message per subject, so the view's consumer receives the heads
    it finds, in sequence order, and may skip any message that has been superseded.  The
    delivery system interleaves the store's commits with re-attachments and with the two
    critical sections of each callback, those of earlier subscriptions included. *)

From S2P Require Import Prelude GoText Storage OrderedCodec OrderedStore OrderedSpec OrderedRefine.
From S2P Require Import Prog OrderedSafety OrderedProps.
From S2P Require Import OrderedIndex OrderedView.
Open Scope stdpp_scope.
Import Codec Store Refine Index.

Module Delivery.

Section delivery.
Context {S : Storage} {L : StorageLaws S}.
Context (ns : string).

Notation log := (list (string * string)).

(** The message at index [i] is the current one of its subject. *)
Definition is_head (l : log) (i : nat) : Prop :=
  exists m, l !! i = Some m /\ forall j m', i < j -> l !! j = Some m' -> m'.1 <> m.1.

(** One [Consume] callback: the next stream index it may receive, and the message it has
    folded into the view without having advanced the watermark yet. *)
Inductive subscription := Idle (next : nat) | Busy (next i : nat).

Record state := { stream_log : log; subs : list subscription; view_of : View.orderedView }.

(** One commit of the store; one critical section of a callback, which calls [applyMessage]
    for a message it has found (ordered_seam.go 724-734); a new subscription, which starts
    from the last message per subject (lines 703-712), while the callbacks of earlier ones
    may still run; the layout found unfit (ordered.go 851-855); or a cancellation. *)
Inductive step : state -> state -> Prop :=
  | step_commit l ss v ms :
      commits ns l ms -> step {| stream_log := l; subs := ss; view_of := v |}
                              {| stream_log := l ++ stored ms; subs := ss; view_of := v |}
  | step_attach l ss v :
      step {| stream_log := l; subs := ss; view_of := v |} {| stream_log := l; subs := ss ++ [Idle 0]; view_of := v |}
  | step_fold l ss v k c i m w folded :
      ss !! k = Some (Idle c) -> c <= i -> l !! i = Some m -> (forall j, c <= j < i -> ~ is_head l j) ->
      View.foldMessage m.1 m.2 v = (w, folded) ->
      step {| stream_log := l; subs := ss; view_of := v |}
           {| stream_log := l; subs := <[k := if folded then Busy c i else Idle (Datatypes.S i)]> ss; view_of := w |}
  | step_advance l ss v k c i :
      ss !! k = Some (Busy c i) ->
      step {| stream_log := l; subs := ss; view_of := v |}
           {| stream_log := l; subs := <[k := Idle (Datatypes.S i)]> ss;
              view_of := View.advance (N.of_nat (Datatypes.S i)) v |}
  | step_fatal l ss v e : is_config_error e = true ->
      step {| stream_log := l; subs := ss; view_of := v |} {| stream_log := l; subs := ss; view_of := View.setFatal e v |}
  | step_cancel l ss v :
      step {| stream_log := l; subs := ss; view_of := v |} {| stream_log := l; subs := ss; view_of := View.cancel_view v |}.

Definition start : state :=
  {| stream_log := []; subs := []; view_of := View.newOrderedView ns |}.

(** ** The history of a log *)

(** Every stored record version evolves into its subject's current record. *)
Definition chronicle (l : log) : Prop :=
  forall i s d r, l !! i = Some (s, d) -> decodeOrderedRecord s d = Ok r ->
    exists r', Spec.records (abs ns l) !! s = Some r' /\ Spec.evolves r r'.

Lemma chronicle_nil : chronicle [].
Proof. intros i s d r H. done. Qed.

Lemma msg_ok_record m r :
  msg_ok ns m -> decodeOrderedRecord m.1 m.2 = Ok r -> Namespace (ID r) = ns.
Proof.
  intros [(os & n & Hs & _)|(r' & Hd & Hn)] Hr; [|congruence].
  apply decodeOrderedRecord_Ok in Hr as (_ & _ & Hs'). exfalso. by eapply counter_record_distinct.
Qed.

(** The last message on a subject is what the index holds. *)
Lemma abs_last l1 s d l2 r :
  wf_log ns (l1 ++ (s, d) :: l2) -> Forall (fun m => m.1 <> s) l2 ->
  decodeOrderedRecord s d = Ok r -> Spec.records (abs ns (l1 ++ (s, d) :: l2)) !! s = Some r.
Proof.
  intros Hw Hl2 Hr. induction l2 as [|[s2 d2] l2 IH] using rev_ind.
  - apply Forall_app in Hw as [_ [Hm _]%Forall_cons]. rewrite abs_snoc.
    rewrite (apply_record ns s d r); [apply lookup_insert_eq|done|by apply (msg_ok_record (s, d))].
  - apply Forall_app in Hl2 as [Hl2 [Hne _]%Forall_cons]. cbn in Hne.
    rewrite app_comm_cons, app_assoc in Hw |- *. apply Forall_app in Hw as [Hw [Hm _]%Forall_cons].
    rewrite abs_snoc. specialize (IH Hw Hl2).
    destruct Hm as [(os & n & Hs2 & Hd2)|(r2 & Hd2 & Hn2)]; cbn in *.
    + by rewrite (apply_counter ns os s2 d2 n).
    + rewrite (apply_record ns s2 d2 r2) by done. cbn. by rewrite lookup_insert_ne.
Qed.

Lemma is_head_split l i s d : is_head l i -> l !! i = Some (s, d) ->
  exists l1 l2, l = l1 ++ (s, d) :: l2 /\ length l1 = i /\ Forall (fun m => m.1 <> s) l2.
Proof.
  intros (m & Hm & Hlast) Hi. assert (m = (s, d)) as -> by congruence.
  exists (take i l), (drop (Datatypes.S i) l). split_and!.
  - symmetry. by apply take_drop_middle.
  - apply length_take_le. by apply Nat.lt_le_incl, (lookup_lt_Some _ _ _ Hi).
  - apply Forall_lookup. intros j x Hj. rewrite lookup_drop in Hj. by apply (Hlast (Datatypes.S i + j)); [lia|].
Qed.

Lemma head_record l i s d r :
  wf_log ns l -> is_head l i -> l !! i = Some (s, d) -> decodeOrderedRecord s d = Ok r ->
  Spec.records (abs ns l) !! s = Some r.
Proof.
  intros Hw Hh Hi Hr. destruct (is_head_split l i s d Hh Hi) as (l1 & l2 & -> & _ & Hl2).
  by apply abs_last.
Qed.

Lemma chronicle_commit l ms :
  good ns l -> chronicle l -> commits ns l ms -> chronicle (l ++ stored ms).
Proof.
  intros [Hw Hi] Hc (Hok & Hst & Hnd & _) i s d r Hl Hr.
  assert (Hw' : wf_log ns (l ++ stored ms)) by (by apply Forall_app).
  apply lookup_app_Some in Hl as [Hl|[Hge Hl]].
  - destruct (Hc i s d r Hl Hr) as (r1 & H1 & He1).
    destruct (Spec.change_evolves ns _ _ s r1 (Spec.index_step_change _ _ _ Hst) Hi H1) as (r2 & H2 & He2).
    exists r2. split; [done|by eapply Spec.evolves_trans].
  - exists r. split; [|apply Spec.evolves_refl].
    apply (head_record _ i s d r Hw'); [|by rewrite lookup_app_r|done].
    exists (s, d). split; [by rewrite lookup_app_r|]. intros j m' Hj Hm' Heq.
    rewrite lookup_app_r in Hm' by lia. unfold stored in Hl, Hm'.
    apply list_lookup_fmap_Some in Hl as (m1 & E1 & Hl). apply list_lookup_fmap_Some in Hm' as (m2 & E2 & Hm').
    assert (Hs1 : map subject ms !! (i - length l) = Some s) by (apply list_lookup_fmap_Some; exists m1; by injection E1 as -> _).
    assert (Hs2 : map subject ms !! (j - length l) = Some s).
    { apply list_lookup_fmap_Some. exists m2. split; [|done]. rewrite E2 in Heq. done. }
    pose proof (NoDup_lookup _ _ _ _ Hnd Hs1 Hs2). lia.
Qed.

(** ** The invariant of the delivery system *)

(** A current message the view has received is there. *)
Definition holds_head (l : log) (v : View.orderedView) (i : nat) : Prop :=
  forall s d r, is_head l i -> l !! i = Some (s, d) -> decodeOrderedRecord s d = Ok r ->
    View.records v !! identity_of r = Some r.

(** A callback starts no later than the watermark, and skipped nothing that is current. *)
Definition sub_ok (l : log) (v : View.orderedView) (sub : subscription) : Prop :=
  match sub with
  | Idle c => c <= N.to_nat (View.watermark v)
  | Busy c i => c <= N.to_nat (View.watermark v) /\ i < length l /\
      (forall j, c <= j < i -> ~ is_head l j) /\ holds_head l v i
  end.

Record delivery_inv (st : state) : Prop := {
  d_good : good ns (stream_log st);
  d_chronicle : chronicle (stream_log st);
  d_view : View.view_inv (view_of st);
  d_namespace : View.namespace (view_of st) = ns;
  d_fatal e : View.fatal (view_of st) = Some e -> is_config_error e = true;
  d_watermark : N.to_nat (View.watermark (view_of st)) <= length (stream_log st);
  d_subs k sub : subs st !! k = Some sub -> sub_ok (stream_log st) (view_of st) sub;
  (** the view holds nothing that was not stored *)
  d_stored k r : View.records (view_of st) !! k = Some r ->
    exists i s d, stream_log st !! i = Some (s, d) /\ decodeOrderedRecord s d = Ok r /\ identity_of r = k;
  (** a current message the watermark has passed is in the view *)
  d_fresh i : i < N.to_nat (View.watermark (view_of st)) -> holds_head (stream_log st) (view_of st) i }.

(** One identity, one subject; one subject, one identity. *)
Lemma stored_record l i s d r :
  good ns l -> l !! i = Some (s, d) -> decodeOrderedRecord s d = Ok r ->
  Namespace (ID r) = ns /\ orderedRecordSubject (ID r) = Ok s /\
  ValidateOrderedRecord r = None /\ typed_record r.
Proof.
  intros [Hw _] Hi Hr. split_and!; try (by apply decodeOrderedRecord_Ok in Hr as (?&?&?)).
  eapply (msg_ok_record (s, d)); [|exact Hr]. by eapply (proj1 (Forall_lookup _ _) Hw).
Qed.

Lemma same_identity_subject l i s d r j s' d' r' :
  good ns l -> l !! i = Some (s, d) -> decodeOrderedRecord s d = Ok r ->
  l !! j = Some (s', d') -> decodeOrderedRecord s' d' = Ok r' ->
  identity_of r = identity_of r' -> s = s'.
Proof.
  intros Hg Hi Hr Hj Hr' Hid.
  destruct (stored_record _ _ _ _ _ Hg Hi Hr) as (Hn & Hs & _).
  destruct (stored_record _ _ _ _ _ Hg Hj Hr') as (Hn' & Hs' & _).
  assert (E : ID r = ID r').
  { injection Hid as E1 E2. destruct (ID r), (ID r'). cbn in *. congruence. }
  congruence.
Qed.

(** Versions of one identity: the older is dominated by the current one. *)
Lemma admissible_stored st i s d r :
  delivery_inv st -> stream_log st !! i = Some (s, d) -> decodeOrderedRecord s d = Ok r ->
  View.admissible (View.count_message (view_of st)) r.
Proof.
  intros Hi Hl Hr. pose proof (d_good _ Hi) as Hg.
  destruct (stored_record _ _ _ _ _ Hg Hl Hr) as (Hns & Hs & Hv & Ht).
  destruct (d_chronicle _ Hi i s d r Hl Hr) as (cur & Hcur & He).
  split_and!; [done..| |].
  - intros previous Hp. destruct (d_stored _ Hi _ _ Hp) as (j & s' & d' & Hl' & Hr' & Hid).
    assert (s' = s) as -> by (by eapply same_identity_subject).
    destruct (d_chronicle _ Hi j s d' previous Hl' Hr') as (cur' & Hcur' & He').
    assert (cur' = cur) as -> by congruence.
    destruct He as (_ & _ & E & _), He' as (_ & _ & E' & _). congruence.
  - intros key r' Hp Hne Hscope Hord. destruct (d_stored _ Hi _ _ Hp) as (j & s' & d' & Hl' & Hr' & <-).
    destruct (d_chronicle _ Hi j s' d' r' Hl' Hr') as (cur' & Hcur' & He').
    destruct He as (E1 & _ & E2 & _), He' as (E1' & _ & E2' & _).
    assert (s' = s) as -> by (eapply (Spec.inv_unique _ _ (proj2 Hg)); [done|done|congruence|congruence]).
    assert (cur' = cur) as -> by congruence. apply Hne. unfold identity_of. congruence.
Qed.

(** What applying a stored message does to the records. *)
Lemma deliver_records st i s d r :
  delivery_inv st -> stream_log st !! i = Some (s, d) -> decodeOrderedRecord s d = Ok r ->
  forall j s' d' r', is_head (stream_log st) j -> stream_log st !! j = Some (s', d') ->
    decodeOrderedRecord s' d' = Ok r' ->
    View.records (view_of st) !! identity_of r' = Some r' \/ j = i ->
    View.records (View.applyRecord r (View.count_message (view_of st))) !! identity_of r' = Some r'.
Proof.
  intros Hi Hl Hr j s' d' r' Hh Hl' Hr' Hcase. pose proof (d_good _ Hi) as Hg.
  pose proof (head_record _ j s' d' r' (proj1 Hg) Hh Hl' Hr') as Hcur.
  rewrite View.applyRecord_records. cbn [View.records View.count_message].
  destruct (decide (identity_of r = identity_of r')) as [Hid|Hid].
  - assert (s = s') as -> by (by eapply (same_identity_subject _ i s d r j s' d' r')).
    destruct (d_chronicle _ Hi i s' d r Hl Hr) as (c & Hc & He). assert (c = r') as -> by congruence.
    rewrite Hid.
    destruct (View.records (view_of st) !! identity_of r') as [previous|] eqn:Hp.
    + destruct (d_stored _ Hi _ _ Hp) as (k & s2 & d2 & Hl2 & Hr2 & Hid2).
      assert (s2 = s') as -> by (by eapply (same_identity_subject _ k s2 d2 previous j s' d' r')).
      destruct (d_chronicle _ Hi k s' d2 previous Hl2 Hr2) as (c2 & Hc2 & He2).
      assert (c2 = r') as -> by congruence.
      destruct (N.leb_spec (Revision r) (Revision previous)) as [Hle|Hgt].
      * rewrite Hp. destruct Hcase as [Hcase| ->]; [done|].
        assert (r' = r) as -> by congruence.
        apply Spec.evolves_same in He2 as ->; [done|]. apply Spec.evolves_le in He2. lia.
      * rewrite lookup_insert_eq. destruct Hcase as [Hcase| ->]; [|congruence].
        assert (previous = r') as -> by congruence. apply Spec.evolves_le in He. lia.
    + rewrite lookup_insert_eq. destruct Hcase as [Hcase| ->]; [done|congruence].
  - assert (Hne : View.records (view_of st) !! identity_of r' = Some r').
    { destruct Hcase as [|Hji]; [done|]. subst j. exfalso. apply Hid. congruence. }
    destruct (View.records (view_of st) !! identity_of r); [destruct (_ <=? _)%N; [done|]|];
      by rewrite lookup_insert_ne.
Qed.

(** Folding a message of the log: always possible, it adds that message's record only, and
    keeps every current one. *)
Lemma folded st i s d :
  delivery_inv st -> stream_log st !! i = Some (s, d) ->
  let v := view_of st in
  exists w, View.foldMessage s d v = (w, true) /\
    View.view_inv w /\ View.namespace w = ns /\ View.fatal w = View.fatal v /\ View.watermark w = View.watermark v /\
    (forall k r, View.records w !! k = Some r -> View.records v !! k = Some r \/
       decodeOrderedRecord s d = Ok r /\ identity_of r = k) /\
    (forall j, holds_head (stream_log st) v j \/ j = i -> holds_head (stream_log st) w j).
Proof.
  intros Hinv Hi v. pose proof (d_good _ Hinv) as Hg. pose proof (d_view _ Hinv) as Hv.
  pose proof (d_namespace _ Hinv) as Hns. fold v in Hv, Hns.
  pose proof (proj1 (Forall_lookup _ _) (proj1 Hg) i _ Hi) as Hok.
  set (v1 := View.count_message v).
  assert (Hv1 : View.view_inv v1) by (by apply (View.view_inv_ext v)).
  unfold View.foldMessage. change (View.namespace (View.count_message v)) with (View.namespace v). rewrite Hns.
  destruct Hok as [(os & n & Hs & Hd)|(r & Hd & Hn)]; cbn [fst snd] in *.
  - exists v1. rewrite (classify_counter ns os s Hs). split_and!; try done; [auto|].
    intros j [?| ->] s' d' r' Hh Hl' Hr'; [by eapply H|]. exfalso. assert (s' = s) as -> by congruence.
    apply decodeOrderedRecord_Ok in Hr' as (_ & _ & Hr'). by eapply counter_record_distinct.
  - pose proof Hd as (_ & _ & Hsub)%decodeOrderedRecord_Ok. rewrite <- Hn, (classify_record _ _ Hsub), Hd.
    pose proof (admissible_stored _ i s d r Hinv Hi Hd) as Hadm. fold v v1 in Hadm.
    destruct (View.applyRecord_fields r v1) as (E1 & E2 & E3 & _).
    exists (View.applyRecord r v1). split_and!; try done.
    + by apply View.applyRecord_inv_lemma.
    + rewrite E3. cbn. by rewrite Hn.
    + intros k r0. rewrite View.applyRecord_records. unfold v1. cbn [View.records View.count_message].
      intros H. assert (Hk : View.records v !! k = Some r0 \/ <[identity_of r := r]> (View.records v) !! k = Some r0)
        by (repeat case_match; auto).
      destruct Hk as [|[[<- <-]|[_ ?]]%lookup_insert_Some]; auto.
    + intros j Hj s' d' r' Hh Hl' Hr'. eapply (deliver_records _ i s d r Hinv); try done.
      destruct Hj as [Hj|]; [left; by eapply Hj|by right].
Qed.

(** ** Every step preserves it *)

(** A message that is current in a longer log was current before. *)
Lemma is_head_app l l' i : i < length l -> is_head (l ++ l') i -> is_head l i.
Proof.
  intros Hi (m & Hm & Hlast). rewrite lookup_app_l in Hm by done. exists m. split; [done|].
  intros j m' Hj Hm'. apply (Hlast j m' Hj). by apply lookup_app_l_Some.
Qed.

Lemma holds_head_app l l' v i : i < length l -> holds_head l v i -> holds_head (l ++ l') v i.
Proof.
  intros Hi H s d r Hh Hl Hr. rewrite lookup_app_l in Hl by done. by eapply H; [eapply is_head_app| |].
Qed.

Lemma sub_ok_app l l' v sub : N.to_nat (View.watermark v) <= length l -> sub_ok l v sub -> sub_ok (l ++ l') v sub.
Proof.
  destruct sub as [c|c i]; cbn; [done|]. intros _ (Hc & Hi & Hs & Hh). rewrite length_app. split_and!; [done|lia| |].
  - intros j Hj Hh'. apply (Hs j Hj). eapply is_head_app; [lia|exact Hh'].
  - by apply holds_head_app.
Qed.

(** A view that kept its current records and did not go back. *)
Lemma sub_ok_view l v w sub : (View.watermark v <= View.watermark w)%N ->
  (forall j, holds_head l v j -> holds_head l w j) -> sub_ok l v sub -> sub_ok l w sub.
Proof.
  intros Hw Hh. destruct sub as [c|c i]; cbn; [lia|]. intros (Hc & Hi & Hs & Hi'). split_and!; [lia|done..|by apply Hh].
Qed.

Lemma commit_inv l ss v ms :
  delivery_inv {| stream_log := l; subs := ss; view_of := v |} -> commits ns l ms ->
  delivery_inv {| stream_log := l ++ stored ms; subs := ss; view_of := v |}.
Proof.
  intros [Hg Hch Hv Hns Hf Hwm Hsu Hst Hfr] Hms. cbn [stream_log subs view_of] in *.
  split; cbn [stream_log subs view_of]; try done.
  - eapply moves_good; [|exact Hg]. apply rtc_once. right; eauto.
  - by apply chronicle_commit.
  - rewrite length_app. lia.
  - intros k sub H%Hsu. by apply sub_ok_app.
  - intros k r (j & s & d & Hl & Hr)%Hst. exists j, s, d. split; [by apply lookup_app_l_Some|done].
  - intros j Hj. apply holds_head_app; [lia|by apply Hfr].
Qed.

Lemma fold_inv l ss v k c i m w b :
  delivery_inv {| stream_log := l; subs := ss; view_of := v |} ->
  ss !! k = Some (Idle c) -> c <= i -> l !! i = Some m -> (forall j, c <= j < i -> ~ is_head l j) ->
  View.foldMessage m.1 m.2 v = (w, b) ->
  delivery_inv {| stream_log := l; subs := <[k := if b then Busy c i else Idle (Datatypes.S i)]> ss; view_of := w |}.
Proof.
  intros Hinv Hk Hci Hi Hskip Hfold. destruct m as [s d].
  destruct (folded _ i s d Hinv Hi) as (w' & Hw' & Hw & Hwns & Hwf & Hww & Hback & Hnew).
  cbn [fst snd view_of stream_log] in *. rewrite Hw' in Hfold. injection Hfold as -> <-.
  destruct Hinv as [Hg Hch Hv Hns Hf Hwm Hsu Hst Hfr]. cbn [stream_log subs view_of] in *.
  split; cbn [stream_log subs view_of]; try done.
  - by rewrite Hwf.
  - by rewrite Hww.
  - intros k' sub [(-> & <- & _)|[_ H]]%list_lookup_insert_Some.
    + cbn. rewrite Hww. split_and!; [by apply (Hsu _ _ Hk)|by eapply lookup_lt_Some|done|]. apply Hnew. by right.
    + apply (sub_ok_view l v); [by rewrite Hww|auto|by eapply Hsu].
  - intros k' r [Hk'|[Hd <-]]%Hback; [by apply Hst|]. by exists i, s, d.
  - intros j Hj. rewrite Hww in Hj. apply Hnew. left. by apply Hfr.
Qed.

Lemma advance_inv l ss v k c i :
  delivery_inv {| stream_log := l; subs := ss; view_of := v |} -> ss !! k = Some (Busy c i) ->
  delivery_inv {| stream_log := l; subs := <[k := Idle (Datatypes.S i)]> ss;
                  view_of := View.advance (N.of_nat (Datatypes.S i)) v |}.
Proof.
  intros [Hg Hch Hv Hns Hf Hwm Hsu Hst Hfr] Hk. cbn [stream_log subs view_of] in *.
  destruct (View.advance_fields (N.of_nat (Datatypes.S i)) v) as (E1 & E2 & E3 & E4 & E5 & E6 & E7).
  destruct (Hsu _ _ Hk) as (Hc & Hi & Hskip & Hhi).
  assert (Hh : forall j, holds_head l v j -> holds_head l (View.advance (N.of_nat (Datatypes.S i)) v) j)
    by (intros j H s d r; rewrite E1; apply H).
  split; cbn [stream_log subs view_of]; try done.
  - by apply (View.view_inv_ext v).
  - by rewrite E6.
  - by rewrite E5.
  - rewrite E7. lia.
  - intros k' sub [(-> & <- & _)|[_ H]]%list_lookup_insert_Some; [cbn; rewrite E7; lia|].
    apply (sub_ok_view l v); [rewrite E7; lia|done|by eapply Hsu].
  - rewrite E1. done.
  - intros j Hj. apply Hh. rewrite E7 in Hj.
    destruct (Nat.lt_ge_cases j (N.to_nat (View.watermark v))) as [Hlt|Hge]; [by apply Hfr|].
    destruct (decide (j = i)) as [->|]; [done|]. intros s d r Hhead. exfalso. apply (Hskip j); [lia|done].
Qed.

(** Nothing but the error and the cancellation changes. *)
Lemma mark_inv l ss v w :
  delivery_inv {| stream_log := l; subs := ss; view_of := v |} ->
  View.records w = View.records v -> View.order w = View.order v -> View.ranked w = View.ranked v ->
  View.due w = View.due v -> View.namespace w = View.namespace v -> View.watermark w = View.watermark v ->
  (forall e, View.fatal w = Some e -> View.fatal v = Some e \/ is_config_error e = true) ->
  delivery_inv {| stream_log := l; subs := ss; view_of := w |}.
Proof.
  intros [Hg Hch Hv Hns Hf Hwm Hsu Hst Hfr] E1 E2 E3 E4 E5 E6 Ef. cbn [stream_log subs view_of] in *.
  assert (Hh : forall j, holds_head l v j -> holds_head l w j) by (intros j H s d r; rewrite E1; apply H).
  split; cbn [stream_log subs view_of]; try done.
  - by apply (View.view_inv_ext v).
  - by rewrite E5.
  - intros e [?|?]%Ef; [by apply Hf|done].
  - by rewrite E6.
  - intros k sub H%Hsu. apply (sub_ok_view l v); [by rewrite E6|done|done].
  - by rewrite E1.
  - intros j. rewrite E6. intros Hj. by apply Hh, Hfr.
Qed.

Lemma delivery_step_inv st st' : step st st' -> delivery_inv st -> delivery_inv st'.
Proof.
  intros [l ss v ms Hms|l ss v|l ss v k c i m w b Hk Hci Hi Hskip Hf|l ss v k c i Hk|l ss v e He|l ss v] Hinv.
  - by apply commit_inv.
  - destruct Hinv as [Hg Hch Hv Hns Hf Hwm Hsu Hst Hfr]. split; cbn [stream_log subs view_of] in *; try done.
    intros k sub [H|[_ H]]%lookup_app_Some; [by eapply Hsu|].
    apply list_lookup_singleton_Some in H as [_ <-]. cbn. lia.
  - by eapply fold_inv.
  - by eapply advance_inv.
  - apply (mark_inv l ss v); try done. cbn. intros e'. destruct (View.fatal v); [by left|]. intros [= <-]. by right.
  - apply (mark_inv l ss v); try done. by left.
Qed.

Lemma delivery_start_inv : delivery_inv start.
Proof. split; cbn; try done; [apply good_nil|apply View.new_view_inv]. Qed.

Lemma delivery_reachable_inv st : rtc step start st -> delivery_inv st.
Proof.
  intros H. remember start as st0 eqn:E. assert (H0 : delivery_inv st0) by (subst; apply delivery_start_inv).
  clear E. induction H as [|x y z Hs _ IH]; [done|]. by apply IH, (delivery_step_inv x).
Qed.

(** The store's own moves are commits of the system. *)
Lemma moves_delivery l l' ss v :
  rtc (moves ns) l l' ->
  rtc step {| stream_log := l; subs := ss; view_of := v |} {| stream_log := l'; subs := ss; view_of := v |}.
Proof.
  induction 1 as [|l l1 l2 [->|(ms & -> & Hms)] _ IH]; [done|done|].
  eapply rtc_l; [by apply step_commit|exact IH].
Qed.

(** A view that never goes back: what it holds, it holds at the same order and never an
    older revision. *)
Definition view_grows (v w : View.orderedView) : Prop :=
  (View.watermark v <= View.watermark w)%N /\
  (forall k r, View.records v !! k = Some r ->
     exists r', View.records w !! k = Some r' /\ Order r' = Order r /\ (Revision r <= Revision r')%N).

#[export] Instance view_grows_refl : Reflexive view_grows.
Proof. intros v. split; [done|]. intros k r ?. by exists r. Qed.
#[export] Instance view_grows_trans : Transitive view_grows.
Proof.
  intros v1 v2 v3 [W1 R1] [W2 R2]. split; [lia|]. intros k r (r1 & (r2 & ? & ? & ?)%R2 & ? & ?)%R1.
  exists r2. split_and!; [done|congruence|lia].
Qed.

Lemma view_grows_records v w : (View.watermark v <= View.watermark w)%N -> View.records w = View.records v -> view_grows v w.
Proof. intros Hw Hr. split; [done|]. intros k r ?. exists r. by rewrite Hr. Qed.

Lemma fold_grows st i s d :
  delivery_inv st -> stream_log st !! i = Some (s, d) -> view_grows (view_of st) (View.foldMessage s d (view_of st)).1.
Proof.
  intros Hinv Hi. split; [by destruct (View.foldMessage_fields s d (view_of st)) as [-> _]|]. intros k r Hk.
  assert (Hsame : forall w, View.records w = View.records (view_of st) -> exists r', View.records w !! k = Some r' /\
    Order r' = Order r /\ (Revision r <= Revision r')%N) by (intros w ->; by exists r).
  unfold View.foldMessage. destruct (classifyOrderedSubject _ s) as [[]|e]; try (by apply Hsame).
  destruct (decodeOrderedRecord s d) as [rec|e] eqn:Hd; [|by apply Hsame].
  pose proof (admissible_stored _ i s d rec Hinv Hi Hd) as (_ & _ & Hord & _).
  cbn [fst]. rewrite View.applyRecord_records. cbn [View.records View.count_message] in *.
  destruct (View.records (view_of st) !! identity_of rec) as [p|] eqn:Ep.
  - destruct (N.leb_spec (Revision rec) (Revision p)); [by exists r|].
    destruct (decide (identity_of rec = k)) as [<-|Hne].
    + exists rec. rewrite lookup_insert_eq. assert (p = r) as -> by congruence.
      split_and!; [done|by apply Hord|lia].
    + exists r. by rewrite lookup_insert_ne.
  - exists r. rewrite lookup_insert_ne by congruence. done.
Qed.

(** What a step keeps of the log and of the view. *)
Lemma step_keeps st st' : step st st' -> delivery_inv st ->
  rtc (moves ns) (stream_log st) (stream_log st') /\ view_grows (view_of st) (view_of st').
Proof.
  intros Hstep Hinv.
  destruct Hstep as [l ss v ms Hms|l ss v|l ss v k c i [s d] w b Hk Hci Hi Hskip Hf|l ss v k c i Hk|l ss v e He|l ss v];
    cbn [stream_log subs view_of] in *.
  - split; [|done]. apply rtc_once. right; eauto.
  - done.
  - split; [done|]. pose proof (fold_grows _ i s d Hinv Hi) as H. cbn [view_of fst snd] in *. by rewrite Hf in H.
  - destruct (View.advance_fields (N.of_nat (Datatypes.S i)) v) as (E1 & _ & _ & _ & _ & _ & E7).
    split; [done|]. apply view_grows_records; [rewrite E7; lia|done].
  - split; [done|]. by apply view_grows_records.
  - split; [done|]. by apply view_grows_records.
Qed.

Lemma steps_keep st st' : rtc step st st' -> delivery_inv st ->
  delivery_inv st' /\ rtc (moves ns) (stream_log st) (stream_log st') /\ view_grows (view_of st) (view_of st').
Proof.
  induction 1 as [|x y z Hs _ IH]; intros Hx; [done|].
  destruct (step_keeps _ _ Hs Hx) as [H1 H2].
  destruct (IH (delivery_step_inv _ _ Hs Hx)) as (G0 & G1 & G2).
  split_and!; [done|by etrans|by etrans].
Qed.

(** A record's current message. *)
Lemma current_message l s r : good ns l -> Spec.records (abs ns l) !! s = Some r ->
  exists i d, l !! i = Some (s, d) /\ is_head l i /\ decodeOrderedRecord s d = Ok r.
Proof.
  intros [Hw Hi]. revert r. clear Hi. induction l as [|[s2 d2] l IH] using rev_ind; [done|].
  intros r. apply Forall_app in Hw as [Hw [Hm _]%Forall_cons]. rewrite abs_snoc.
  assert (Hold : s2 <> s -> Spec.records (abs ns l) !! s = Some r ->
    exists i d, (l ++ [(s2, d2)]) !! i = Some (s, d) /\ is_head (l ++ [(s2, d2)]) i /\ decodeOrderedRecord s d = Ok r).
  { intros Hne Hr. destruct (IH Hw r Hr) as (i & d & Hl & (m & Hlm & Hlast) & Hd). exists i, d.
    pose proof (lookup_lt_Some _ _ _ Hl). split_and!; [by apply lookup_app_l_Some| |done]. exists m.
    split; [by apply lookup_app_l_Some|]. assert (m = (s, d)) as -> by congruence. cbn in *.
    intros j m' Hj [Hm'|[Hge Hm']]%lookup_app_Some; [by eapply Hlast|].
    by apply list_lookup_singleton_Some in Hm' as [_ <-]. }
  destruct Hm as [(os & n & Hs2 & Hd2)|(r2 & Hd2 & Hn2)]; cbn [fst snd] in *.
  - rewrite (apply_counter ns os s2 d2 n) by done. intros Hr. apply Hold; [|done]. intros ->.
    destruct (IH Hw r Hr) as (i & d & _ & _ & Hd). apply decodeOrderedRecord_Ok in Hd as (_ & _ & Hd).
    by eapply counter_record_distinct.
  - rewrite (apply_record ns s2 d2 r2) by done. cbn.
    intros [[-> ->]|[Hne Hr]]%lookup_insert_Some; [|by apply Hold].
    exists (length l), d2. split_and!; [by apply list_lookup_middle| |done].
    exists (s, d2). split; [by apply list_lookup_middle|]. intros j m' Hj Hm'%lookup_lt_Some.
    rewrite length_app in Hm'. cbn in Hm'. lia.
Qed.

(** ** Properties *)

(** C6. Views only tell what was stored, and never go back: in every interleaving of commits,
    subscriptions and their callbacks (superseded messages skipped or not, redelivered or
    not, by an earlier subscription or the current one, a record folded and the watermark
    not yet advanced), the view keeps its index invariant and turns fatal for a
    configuration error only; whatever it holds was stored and has evolved into the current
    record; and once it holds a record it holds it for good, at the same order and never an
    older revision. *)
Theorem view_sound st st' :
  rtc step start st -> rtc step st st' ->
  let v := view_of st in let v' := view_of st' in
  View.view_inv v' /\ (forall e, View.fatal v' = Some e -> is_config_error e = true) /\
  (N.to_nat (View.watermark v') <= length (stream_log st')) /\
  (View.watermark v <= View.watermark v')%N /\
  (forall k r, View.records v' !! k = Some r ->
     exists s cur, orderedRecordSubject (ID r) = Ok s /\
       Spec.records (abs ns (stream_log st')) !! s = Some cur /\ Spec.evolves r cur) /\
  (forall k r, View.records v !! k = Some r ->
     exists r', View.records v' !! k = Some r' /\ Order r' = Order r /\ (Revision r <= Revision r')%N).
Proof.
  intros H1%delivery_reachable_inv H2. destruct (steps_keep _ _ H2 H1) as (Hi & _ & Hw & Hk).
  split_and!; [apply Hi|apply Hi|apply Hi|done| |done].
  intros k r (i & s & d & Hl & Hd & _)%(d_stored _ Hi).
  destruct (d_chronicle _ Hi i s d r Hl Hd) as (cur & Hc & He). exists s, cur. split_and!; try done.
  by apply decodeOrderedRecord_Ok in Hd as (_ & _ & ?).
Qed.

(** What a view that has passed the end of an earlier log holds. *)
Definition covers (l0 : log) (st : state) : Prop :=
  (forall s r, Spec.records (abs ns l0) !! s = Some r ->
     (exists r', View.records (view_of st) !! identity_of r = Some r' /\ Spec.evolves r r') \/
     (exists i d, N.to_nat (View.watermark (view_of st)) <= i /\ stream_log st !! i = Some (s, d) /\
        length l0 <= i)) /\
  (stream_log st = l0 -> forall k r,
     View.records (view_of st) !! k = Some r <->
     exists s, Spec.records (abs ns l0) !! s = Some r /\ identity_of r = k).

Lemma barrier_sees l0 st :
  delivery_inv st -> good ns l0 -> rtc (moves ns) l0 (stream_log st) ->
  length l0 <= N.to_nat (View.watermark (view_of st)) -> covers l0 st.
Proof.
  intros Hi [Hw0 Hx0] Hs%moves_steps Hb. pose proof (d_good _ Hi) as Hg.
  assert (Hnow : forall s r', Spec.records (abs ns (stream_log st)) !! s = Some r' ->
    View.records (view_of st) !! identity_of r' = Some r' \/
    exists i d, N.to_nat (View.watermark (view_of st)) <= i /\ stream_log st !! i = Some (s, d) /\ length l0 <= i).
  { intros s r' Hr'. destruct (current_message _ s r' Hg Hr') as (i & d & Hl & Hh & Hd).
    destruct (Nat.lt_ge_cases i (N.to_nat (View.watermark (view_of st)))) as [Hlt|Hge].
    - left. by eapply (d_fresh _ Hi i Hlt).
    - right. exists i, d. split_and!; [done..|lia]. }
  split.
  - intros s r Hr. destruct (Spec.steps_evolves ns _ _ s r Hs Hx0 Hr) as (r' & Hr' & He).
    destruct (Hnow s r' Hr') as [Hv|?]; [left|by right]. exists r'. split; [|done].
    destruct He as (E & _). unfold identity_of in *. by rewrite E in Hv.
  - intros Heq k r. rewrite Heq in *. split.
    + intros Hk. destruct (d_stored _ Hi k r Hk) as (i & s & d & Hl & Hd & Hid). exists s. split; [|done].
      rewrite <- Heq. destruct (d_chronicle _ Hi i s d r Hl Hd) as (cur & Hcur & He).
      rewrite Heq in Hcur. destruct (Hnow s cur Hcur) as [Hv|(j & d' & _ & Hl' & Hge)].
      * assert (identity_of cur = identity_of r) as E by (destruct He as (E & _); unfold identity_of; by rewrite E).
        rewrite E, Hid, Hk in Hv. rewrite Heq. congruence.
      * apply lookup_lt_Some in Hl'. lia.
    + intros (s & Hr & <-). destruct (Hnow s r Hr) as [?|(j & d' & _ & Hl' & Hge)]; [done|].
      apply lookup_lt_Some in Hl'. lia.
Qed.

(** A reader that was let through has passed the tip it took, and stays past it. *)
Lemma let_through st st1 st' :
  rtc step start st -> rtc step st st1 ->
  View.barrier_poll (N.of_nat (length (stream_log st))) (view_of st1) = Some None -> rtc step st1 st' ->
  delivery_inv st' /\ good ns (stream_log st) /\ rtc (moves ns) (stream_log st) (stream_log st') /\
  length (stream_log st) <= N.to_nat (View.watermark (view_of st')).
Proof.
  intros H0%delivery_reachable_inv H1 [_ Hb]%View.barrier_poll_answer H2.
  destruct (steps_keep _ _ H1 H0) as (Hi1 & Hm1 & _). destruct (steps_keep _ _ H2 Hi1) as (Hi & Hm2 & Hw & _).
  split_and!; [done|apply H0|by etrans|lia].
Qed.

(** What the barrier does guarantee.  Let a reader capture the tip of [st], the barrier
    let it through in [st1], and let it read the view in [st'], at once or later.  Every
    record that existed at the capture is in the view at that version or a later one,
    unless its current message has not been passed yet (it was rewritten after the
    capture).  If nothing has been stored since the capture, the view holds exactly the
    records of the index. *)
Theorem barrier_guarantee st st1 st' :
  rtc step start st -> rtc step st st1 ->
  View.barrier_poll (N.of_nat (length (stream_log st))) (view_of st1) = Some None -> rtc step st1 st' ->
  (forall s r, Spec.records (abs ns (stream_log st)) !! s = Some r ->
     (exists r', View.records (view_of st') !! identity_of r = Some r' /\ Spec.evolves r r') \/
     (exists i d, N.to_nat (View.watermark (view_of st')) <= i /\ stream_log st' !! i = Some (s, d) /\
        length (stream_log st) <= i)) /\
  (stream_log st' = stream_log st -> forall k r,
     View.records (view_of st') !! k = Some r <->
     exists s, Spec.records (abs ns (stream_log st)) !! s = Some r /\ identity_of r = k).
Proof. intros H0 H1 Hb H2. destruct (let_through st st1 st' H0 H1 Hb H2) as (? & ? & ? & ?). by apply barrier_sees. Qed.

End delivery.

(** ** A schedule to exhibit *)

(** Two records of one scope are created; a reader captures the tip, 4; the first record is
    updated, so that its only message is now the fifth; the view receives what remains of
    the first four messages. *)
Section sample.
Existing Instance Reference.reference.
Notation ns := "work/q1".

Definition log2 : list (string * string) :=
  Eval vm_compute in log_of (msgs OrderedProps.service2) OrderedProps.stream1.
Definition log3 : list (string * string) :=
  Eval vm_compute in log_of (msgs OrderedProps.service3) OrderedProps.stream1.

Lemma logs_eq : log_of (msgs OrderedProps.service2) OrderedProps.stream1 = log2 /\
  log_of (msgs OrderedProps.service3) OrderedProps.stream1 = log3.
Proof. vm_compute. by split. Qed.

Lemma sample_moves : rtc (moves ns) [] log2 /\ rtc (moves ns) log2 log3.
Proof.
  destruct OrderedProps.sample_typed_methods as (T1 & T2 & T3), OrderedProps.plain_service as (P0 & P1 & P2).
  pose proof (OrderedProps.system_run_method [] _ _ T1 P0) as R1.
  pose proof (OrderedProps.system_run_method OrderedProps.threads1 _ _ T2 P1) as R2.
  pose proof (OrderedProps.system_run_method (OrderedProps.threads1 ++
    [(OrderedProps.create2, msgs OrderedProps.service1,
      Prog.Ret (fst (Prog.run fake_handle (Safety.method_prog 0 OrderedProps.create2) OrderedProps.service1)))]) _ _ T3 P2) as R3.
  destruct (Safety.system_sound (fun _ => True) (fun _ => True) 0 ∅ _ _ Safety.good_empty R1 (Safety.system_start _ _ ∅)) as [G1 K1].
  destruct (Safety.system_sound (fun _ => True) (fun _ => True) 0 ∅ _ _ Safety.good_empty R2 K1) as [G2 K2].
  destruct (Safety.system_sound (fun _ => True) (fun _ => True) 0 ∅ _ _ Safety.good_empty R3 K2) as [G3 _].
  assert (Hst : orderedStreamName ns = Ok OrderedProps.stream1) by (vm_compute; reflexivity).
  destruct logs_eq as [<- <-]. split; [|exact (Safety.rely_moves ns _ _ _ G3 Hst)].
  etrans; [exact (Safety.rely_moves ns _ _ _ G1 Hst)|exact (Safety.rely_moves ns _ _ _ G2 Hst)].
Qed.

Definition view0 : View.orderedView := View.newOrderedView ns.
Definition deliver_at (l : list (string * string)) (i : nat) (v : View.orderedView) : View.orderedView :=
  match l !! i with Some m => View.applyMessage m.1 (N.of_nat (Datatypes.S i)) m.2 v | None => v end.

Notation attached l c v := {| stream_log := l; subs := [Idle c]; view_of := v |}.

Definition captured : state := {| stream_log := log2; subs := []; view_of := view0 |}.
(** The consumer finds the messages 3 and 4 only. *)
Definition answered : state := attached log3 4 (deliver_at log3 3 (deliver_at log3 2 view0)).
(** A later reader, of an unchanging stream. *)
Definition later : state := attached log3 5 (deliver_at log3 4 (deliver_at log3 3 (deliver_at log3 2 view0))).

(** A callback that runs to its end at once. *)
Lemma deliver_steps ns0 l c v i m :
  c <= i -> l !! i = Some m -> (forall j, c <= j < i -> ~ is_head l j) -> (View.foldMessage m.1 m.2 v).2 = true ->
  rtc (step ns0) (attached l c v) (attached l (Datatypes.S i) (View.applyMessage m.1 (N.of_nat (Datatypes.S i)) m.2 v)).
Proof.
  intros Hc Hi Hs Hf. unfold View.applyMessage. destruct (View.foldMessage m.1 m.2 v) as [w b] eqn:Ew. cbn in Hf. subst b.
  eapply rtc_l; [apply (step_fold ns0 l [Idle c] v 0 c i m w true eq_refl Hc Hi Hs Ew)|].
  apply rtc_once. exact (step_advance ns0 l [Busy c i] w 0 c i eq_refl).
Qed.

Lemma superseded l i j m m' : l !! i = Some m -> l !! j = Some m' -> i < j -> m.1 = m'.1 -> ~ is_head l i.
Proof.
  intros Hi Hj Hij E (m0 & Hm0 & Hlast). assert (m0 = m) as -> by congruence.
  by apply (Hlast j m' Hij).
Qed.

Lemma log3_superseded j : j < 2 -> ~ is_head log3 j.
Proof.
  intros Hj. destruct j as [|[|j]]; [| |lia].
  - destruct (log3 !! 0) as [m|] eqn:E0; [|by vm_compute in E0].
    destruct (log3 !! 2) as [m'|] eqn:E2; [|by vm_compute in E2].
    apply (superseded _ _ 2 m m' E0 E2); [lia|]. vm_compute in E0, E2. by injection E0 as <-; injection E2 as <-.
  - destruct (log3 !! 1) as [m|] eqn:E0; [|by vm_compute in E0].
    destruct (log3 !! 4) as [m'|] eqn:E2; [|by vm_compute in E2].
    apply (superseded _ _ 4 m m' E0 E2); [lia|]. vm_compute in E0, E2. by injection E0 as <-; injection E2 as <-.
Qed.

Lemma log3_length : length log3 = 5.
Proof. vm_compute. reflexivity. Qed.

Lemma deliver_log3 c v i : c <= i -> i < 5 -> (forall j, c <= j < i -> j < 2) ->
  match log3 !! i with Some m => (View.foldMessage m.1 m.2 v).2 = true | None => True end ->
  rtc (step ns) (attached log3 c v) (attached log3 (Datatypes.S i) (deliver_at log3 i v)).
Proof.
  intros Hc Hi Hs Hf. rewrite <- log3_length in Hi. apply lookup_lt_is_Some in Hi as [m Hm].
  unfold deliver_at. rewrite Hm in Hf |- *. apply deliver_steps; [done..| |done].
  intros j Hj. by apply log3_superseded, Hs.
Qed.

Lemma reach_captured : rtc (step ns) (start ns) captured.
Proof. apply moves_delivery, sample_moves. Qed.

Lemma reach_answered : rtc (step ns) captured answered.
Proof.
  etrans; [apply moves_delivery, sample_moves|]. eapply rtc_l; [apply step_attach|].
  etrans; [apply (deliver_log3 0 view0 2); [lia|lia|lia|vm_compute; reflexivity]|].
  apply (deliver_log3 3 _ 3); [lia|lia|lia|vm_compute; reflexivity].
Qed.

Lemma reach_now : rtc (step ns) (start ns) answered.
Proof. etrans; [apply reach_captured|apply reach_answered]. Qed.

Lemma reach_later : rtc (step ns) answered later.
Proof.
  pose proof (deliver_log3 4 (deliver_at log3 3 (deliver_at log3 2 view0)) 4) as H.
  apply H; [lia|lia|lia|vm_compute; reflexivity].
Qed.

(** C36. The barrier does not keep its stated promise.  A reader captures the tip 4 when the
    first record exists; the barrier lets it through at a view where that record is
    missing in every version, because its message was superseded before the view
    received it and the replacement lies past the tip.  The listing of the scope then
    shows order 2 without order 1. *)
Theorem barrier_misses_record :
  exists st st' s r, rtc (step ns) (start ns) st /\ rtc (step ns) st st' /\
    Spec.records (abs ns (stream_log st)) !! s = Some r /\ Deleted r = false /\
    View.barrier_poll (N.of_nat (length (stream_log st))) (view_of st') = Some None /\
    View.records (view_of st') !! identity_of r = None /\
    (fun r => Order (Index.rec_of (View.records (view_of st')) r)) <$>
      View.order_of (view_of st') (OrderingScope (ID r)) = [2%N].
Proof.
  exists captured, answered, sample_subject, (new_record sample_id "prio" (Some "a") zeroRank OrderedProps.due_none 0).
  split; [apply reach_captured|]. split; [apply reach_answered|]. by vm_compute.
Qed.

Theorem view_sound_witness :
  exists r', View.records (view_of later) !! identity_of (new_record second_id "prio" (Some "b") zeroRank OrderedProps.due_none 1)
    = Some r' /\ Order r' = 2%N.
Proof.
  destruct (view_sound ns answered later reach_now reach_later)
    as (_ & _ & _ & _ & _ & H).
  destruct (H (identity_of (new_record second_id "prio" (Some "b") zeroRank OrderedProps.due_none 1))
    (new_record second_id "prio" (Some "b") zeroRank OrderedProps.due_none 1)) as (r' & H1 & H2 & _);
    [vm_compute; reflexivity|]. exists r'. split; [exact H1|exact H2].
Defined.

Lemma later_log : stream_log later = stream_log answered.
Proof. unfold later, answered. cbn [stream_log]. reflexivity. Qed.

Theorem barrier_guarantee_witness :
  exists r', View.records (view_of later) !! identity_of sample_rec = Some r'.
Proof.
  destruct (barrier_guarantee ns answered later later reach_now reach_later ltac:(vm_compute; reflexivity) (rtc_refl _ _)) as [_ H].
  set (r := updated (new_record sample_id "prio" (Some "a") zeroRank OrderedProps.due_none 0) (Some "c")
            {| Ranked := true; RankVal := 3 |} OrderedProps.due_none).
  exists r. refine (proj2 (H later_log (identity_of sample_rec) r) _).
  exists sample_subject. split; [vm_compute; reflexivity|reflexivity].
Defined.
End sample.
End Delivery.
