(* ===== verification/OrderedEndToEnd.v ===== *)
(** * From the store to a listing: what a reader sees of what writers did.

    The store's commits, their delivery to the view, the barrier and the three listings
    together, from the abstract index to the concatenated pages and back. *)

From S2P Require Import Prelude GoText Storage OrderedCodec OrderedStore OrderedSpec OrderedRefine.
From S2P Require Import OrderedIndex OrderedView OrderedList OrderedDelivery.
Open Scope stdpp_scope.
Import Codec Store Refine Index.

Module EndToEnd.
Import Delivery.

Section listings.
Context {Sto : Storage} {L : StorageLaws Sto}.
Context (ns : string).

(** No message has been stored on the subject since the log had [n] of them. *)
Definition untouched (n : nat) (l : list (string * string)) (s : string) : Prop :=
  forall i d, n <= i -> l !! i <> Some (s, d).

(** A current message that the log kept is its current message still. *)
Lemma untouched_record l l' s r :
  good ns l -> good ns l' -> l `prefix_of` l' -> untouched (length l) l' s ->
  Spec.records (abs ns l) !! s = Some r ->
  exists i d, i < length l /\ l' !! i = Some (s, d) /\ is_head l' i /\ decodeOrderedRecord s d = Ok r.
Proof.
  intros Hg Hg' [tail ->] Hu Hr. destruct (current_message ns l s r Hg Hr) as (i & d & Hl & (m & Hm & Hh) & Hd).
  pose proof (lookup_lt_Some _ _ _ Hl) as Hi. exists i, d. split_and!; [done|by apply lookup_app_l_Some| |done].
  assert (m = (s, d)) as -> by congruence. exists (s, d). split; [by apply lookup_app_l_Some|].
  intros j [s' d'] Hj Hm'. destruct (Nat.lt_ge_cases j (length l)) as [Hlt|Hge].
  - rewrite lookup_app_l in Hm' by done. by apply (Hh j (s', d')).
  - cbn. intros ->. by apply (Hu j d').
Qed.

(** ** A view that has passed the end of an earlier log *)

Section passed.
Context (l0 : list (string * string)) (st : state).
Context (Hinv : delivery_inv ns st) (Hg0 : good ns l0) (Hmoves : rtc (moves ns) l0 (stream_log st)).
Context (Hpassed : length l0 <= N.to_nat (View.watermark (view_of st))).

(** It holds every record that was not rewritten since. *)
Lemma caught_up s r :
  Spec.records (abs ns l0) !! s = Some r -> untouched (length l0) (stream_log st) s ->
  View.records (view_of st) !! identity_of r = Some r.
Proof.
  intros Hr Hu.
  destruct (untouched_record _ _ s r Hg0 (d_good _ _ Hinv) (moves_prefix _ _ _ Hmoves) Hu Hr) as (i & d & Hlt & Hl & Hh & Hd).
  by apply (d_fresh _ _ Hinv i ltac:(lia) s d r).
Qed.

(** What it holds was stored, and is the current record or an earlier version of it. *)
Lemma held_stored k r :
  View.records (view_of st) !! k = Some r ->
  exists s cur, orderedRecordSubject (ID r) = Ok s /\ Spec.records (abs ns (stream_log st)) !! s = Some cur /\
    Spec.evolves r cur.
Proof.
  intros (i & s & d & Hl & Hd & _)%(d_stored _ _ Hinv).
  destruct (d_chronicle _ _ Hinv i s d r Hl Hd) as (cur & Hc & He). exists s, cur. split_and!; try done.
  by apply decodeOrderedRecord_Ok in Hd as (_ & _ & ?).
Qed.

(** [all] lists, in the order [before], the records [keep] selects, for a reader that took
    the tip of [l0] and reads at [st]. *)
Record reflects (before : OrderedRecord -> OrderedRecord -> bool) (keep : OrderedRecord -> Prop)
    (all : list OrderedRecord) : Prop := {
  r_sorted : StronglySorted (fun a b => before a b = true) all;
  (** nothing that was not stored, *)
  r_sound r : r ∈ all -> keep r /\ exists s cur, orderedRecordSubject (ID r) = Ok s /\
    Spec.records (abs ns (stream_log st)) !! s = Some cur /\ Spec.evolves r cur;
  (** everything that was there and has not been rewritten since, *)
  r_complete s r : Spec.records (abs ns l0) !! s = Some r -> keep r ->
    untouched (length l0) (stream_log st) s -> r ∈ all;
  (** and, if nothing was stored since, exactly the index. *)
  r_exact : stream_log st = l0 ->
    forall r, r ∈ all <-> keep r /\ exists s, Spec.records (abs ns l0) !! s = Some r }.

Lemma lists_reflects before keep all : Listing.lists before (view_of st) keep all -> reflects before keep all.
Proof.
  intros [Hs Hm].
  assert (Hc : forall s r, Spec.records (abs ns l0) !! s = Some r -> keep r ->
    untouched (length l0) (stream_log st) s -> r ∈ all).
  { intros s r Hr Hk Hu. apply Hm. exists (identity_of r). split; [|done]. by apply (caught_up s). }
  split; [done| |done|].
  - intros r (k & Hr & Hk)%Hm. split; [done|]. by apply (held_stored k).
  - intros Heq r. assert (Hu : forall s, untouched (length l0) (stream_log st) s).
    { intros s i d Hge Hl. rewrite Heq in Hl. apply lookup_lt_Some in Hl. lia. }
    split; [|intros (Hk & s & Hr); by apply (Hc s r Hr Hk)].
    intros (k & Hr & Hk)%Hm. split; [done|]. destruct (held_stored k r Hr) as (s & cur & Es & Hcur & He).
    exists s. rewrite Heq in Hcur. pose proof (caught_up s cur Hcur (Hu s)) as Hv.
    assert (identity_of cur = identity_of r) as E by (destruct He as (E & _); unfold identity_of; by rewrite E).
    rewrite E, (View.inv_keyed _ (d_view _ _ Hinv) k r Hr), Hr in Hv. congruence.
Qed.

Lemma listings_of scope bound limit :
  ValidateName ns = None -> ValidateName scope = None -> ValidateOrderedLimit limit = None -> i64 bound ->
  let v := view_of st in
  (exists all, reflects orderedRankedBefore (View.in_ranked scope) all /\
     ((forall r, r ∈ all -> Listing.cap_ok (Listing.ranked_cursor ns scope r)) ->
      Listing.walk (Datatypes.S (length all)) (fun after => Listing.ListRanked (Ok v) ns scope after limit) EmptyString = Some all)) /\
  (exists all, reflects orderedDueBefore (fun r => View.in_due r /\ (UnixMillis (DueOf r) <= bound)%Z) all /\
     ((forall r, r ∈ all -> Listing.cap_ok (Listing.due_cursor ns bound r)) ->
      Listing.walk (Datatypes.S (length all)) (fun after => Listing.ListDue (Ok v) ns bound after limit) EmptyString = Some all)) /\
  (exists all, reflects orderBefore (View.in_order scope) all /\
     forall after, u64 after ->
     let recs := take (Z.to_nat limit) (List.filter (fun r => (after <? Order r)%N) all) in
     exists visits, Listing.ListOrdered (Ok v) ns scope after limit =
       Ok ({| Listing.Records := recs; Listing.NextAfterOrder := match last recs with Some r => Order r | None => 0%N end |}, visits)).
Proof.
  intros Hns Hsc Hlim Hbound v. pose proof (d_view _ _ Hinv) as Hv. split_and!.
  - exists (Listing.collectLocked v (View.ranked_of v scope)). split; [|by apply Listing.ranked_pages].
    apply lists_reflects, Listing.collect_lists, View.inv_ranked, Hv.
  - eexists. split; [|by apply Listing.due_pages]. by apply lists_reflects, Listing.due_lists.
  - exists (Listing.collectLocked v (View.order_of v scope)). split.
    + apply lists_reflects, Listing.collect_lists, View.inv_order, Hv.
    + intros after Hu. destruct (Listing.ListOrdered_spec v ns scope after limit Hv Hns Hsc Hlim Hu) as (visits & H & _). by exists visits.
Qed.
End passed.

(** End to end: writers, the stream, the view, the barrier and the listings together.  A
    reader that took the tip of [st], was let through at [st1] and reads at [st'], at once
    or later, gets, walking the cursors over that view, a strictly sorted list that holds
    only versions that were stored, every record of the abstract index of [st] that
    qualifies and has not been rewritten since, and exactly the qualifying records of the
    index if nothing was stored since; so for the ranked records of a scope, for those due
    by a bound, and, page by page, for a scope's acceptance stream. *)
Theorem listings_reflect_index st st1 st' scope bound limit :
  rtc (step ns) (start ns) st -> rtc (step ns) st st1 ->
  View.barrier_poll (N.of_nat (length (stream_log st))) (view_of st1) = Some None -> rtc (step ns) st1 st' ->
  ValidateName ns = None -> ValidateName scope = None -> ValidateOrderedLimit limit = None -> i64 bound ->
  let v := view_of st' in let l0 := stream_log st in
  (exists all, reflects l0 st' orderedRankedBefore (View.in_ranked scope) all /\
     ((forall r, r ∈ all -> Listing.cap_ok (Listing.ranked_cursor ns scope r)) ->
      Listing.walk (Datatypes.S (length all)) (fun after => Listing.ListRanked (Ok v) ns scope after limit) EmptyString = Some all)) /\
  (exists all, reflects l0 st' orderedDueBefore (fun r => View.in_due r /\ (UnixMillis (DueOf r) <= bound)%Z) all /\
     ((forall r, r ∈ all -> Listing.cap_ok (Listing.due_cursor ns bound r)) ->
      Listing.walk (Datatypes.S (length all)) (fun after => Listing.ListDue (Ok v) ns bound after limit) EmptyString = Some all)) /\
  (exists all, reflects l0 st' orderBefore (View.in_order scope) all /\
     forall after, u64 after ->
     let recs := take (Z.to_nat limit) (List.filter (fun r => (after <? Order r)%N) all) in
     exists visits, Listing.ListOrdered (Ok v) ns scope after limit =
       Ok ({| Listing.Records := recs; Listing.NextAfterOrder := match last recs with Some r => Order r | None => 0%N end |}, visits)).
Proof.
  intros H0 H1 Hb H2. destruct (let_through ns st st1 st' H0 H1 Hb H2) as (? & ? & ? & ?). by apply listings_of.
Qed.
End listings.

Section sample.
Existing Instance Reference.reference.

(** The second reader of the schedule of [OrderedDelivery]. *)
Lemma listings_reflect_index_witness :
  (exists all, reflects "work/q1" (stream_log answered) later orderedRankedBefore (View.in_ranked "prio") all) /\
  (exists all visits, reflects "work/q1" (stream_log answered) later orderBefore (View.in_order "lane_a") all /\
     Listing.ListOrdered (Ok (view_of later)) "work/q1" "lane_a" 0 1 =
       Ok ({| Listing.Records := take 1 (List.filter (fun r => (0 <? Order r)%N) all); Listing.NextAfterOrder := 1 |}, visits)).
Proof.
  destruct (listings_reflect_index "work/q1" answered later later "lane_a" 450 1 reach_now reach_later eq_refl (rtc_refl _ _)) as (_ & _ & all & H1 & H2);
    [vm_compute; reflexivity..|vm_compute; split; discriminate || reflexivity|].
  split.
  - destruct (listings_reflect_index "work/q1" answered later later "prio" 450 1 reach_now reach_later eq_refl (rtc_refl _ _)) as ((all' & H & _) & _);
      [vm_compute; reflexivity..|vm_compute; split; discriminate || reflexivity|]. exists all'. exact H.
  - destruct (H2 0%N) as [visits H3]; [vm_compute; reflexivity|]. exists all, visits. split; [exact H1|].
    assert (E : exists n p, Listing.ListOrdered (Ok (view_of later)) "work/q1" "lane_a" 0 1 = Ok (p, n) /\
      Listing.NextAfterOrder p = 1%N) by (eexists _, _; split; vm_compute; reflexivity).
    destruct E as (n & p & E1 & E2). rewrite E1 in H3 |- *. injection H3 as Ep En. subst p n. cbn in E2. rewrite <- E2. reflexivity.
Defined.
End sample.
End EndToEnd.
