(* ===== verification/OrderedLatch.v ===== *)
(** * [ordered.go], lines 152-233: the per-scope latch of [acquireScope].

    A process's creators of one scope queue on a one-permit channel that lives in a map
    entry for as long as someone wants it.  The latch objects live in a store of their
    own, since a waiter keeps the object it found after the entry is gone from the map. *)

From S2P Require Import Prelude.
Open Scope stdpp_scope.

Module Latch.

(** [token] is whether the channel's one slot is full; [refs] is an [int]. *)
Record orderedScopeLatch := { token : bool; refs : Z }.

(** A caller between [acquireScope]'s first critical section and its release. *)
Record caller := { key : string; latch : nat; holding : bool }.
#[export] Instance caller_eq_dec : EqDecision caller.
Proof. solve_decision. Defined.

Record state := {
  latches : gmap string nat;            (* s.latches *)
  objects : gmap nat orderedScopeLatch;
  callers : gmap nat caller }.

Definition with_refs (l : orderedScopeLatch) (d : Z) : orderedScopeLatch :=
  {| token := token l; refs := refs l + d |}.

(** Lines 206-213: find or make the latch, and count in. *)
Definition enter (k : string) (s : state) : option (nat * state) :=
  let '(p, ls, os) :=
    match latches s !! k with
    | Some p => (p, latches s, objects s)
    | None =>
        let p := fresh (dom (objects s)) in
        (p, <[k := p]> (latches s), <[p := {| token := false; refs := 0 |}]> (objects s))
    end in
  l ← os !! p;
  Some (p, {| latches := ls; objects := <[p := with_refs l 1]> os; callers := callers s |}).

(** The send on [latch.token]: only when the slot is free. *)
Definition send (p : nat) (s : state) : option state :=
  l ← objects s !! p;
  if token l then None
  else Some {| latches := latches s; objects := <[p := {| token := true; refs := refs l |}]> (objects s);
               callers := callers s |}.

(** Lines 215-225: the [drop] closure; the receive blocks on an empty slot. *)
Definition drop (k : string) (p : nat) (held : bool) (s : state) : option state :=
  l ← objects s !! p;
  if held && negb (token l) then None
  else
    let l' := {| token := if held then false else token l; refs := refs l - 1 |} in
    Some {| latches := if (refs l' =? 0)%Z then delete k (latches s) else latches s;
            objects := <[p := l']> (objects s); callers := callers s |}.

Definition set_callers (c : gmap nat caller) (s : state) : state :=
  {| latches := latches s; objects := objects s; callers := c |}.

Inductive step : state -> state -> Prop :=
  | step_enter s t k p s' :
      callers s !! t = None -> enter k s = Some (p, s') ->
      step s (set_callers (<[t := {| key := k; latch := p; holding := false |}]> (callers s)) s')
  | step_take s t k p s' :
      callers s !! t = Some {| key := k; latch := p; holding := false |} -> send p s = Some s' ->
      step s (set_callers (<[t := {| key := k; latch := p; holding := true |}]> (callers s)) s')
  (* the context ends first *)
  | step_cancel s t k p s' :
      callers s !! t = Some {| key := k; latch := p; holding := false |} -> drop k p false s = Some s' ->
      step s (set_callers (delete t (callers s)) s')
  | step_release s t k p s' :
      callers s !! t = Some {| key := k; latch := p; holding := true |} -> drop k p true s = Some s' ->
      step s (set_callers (delete t (callers s)) s').

Definition start : state := {| latches := ∅; objects := ∅; callers := ∅ |}.

(** ** The invariant *)

Definition users (p : nat) (c : gmap nat caller) : gmap nat caller := filter (fun x => latch x.2 = p) c.

Lemma users_insert p c t u :
  c !! t = None -> size (users p (<[t := u]> c)) = size (users p c) + (if decide (latch u = p) then 1 else 0).
Proof.
  intros Ht. unfold users. case_decide as H.
  - rewrite map_filter_insert_True by done. rewrite map_size_insert_None; [lia|].
    apply eq_None_not_Some. intros [x [? _]%map_lookup_filter_Some]. congruence.
  - rewrite map_filter_insert_False by done. rewrite delete_id by done. lia.
Qed.

Lemma users_delete p c t u :
  c !! t = Some u -> size (users p c) = size (users p (delete t c)) + (if decide (latch u = p) then 1 else 0).
Proof.
  intros Ht. rewrite <- (insert_delete_id c t u Ht) at 1. rewrite users_insert; [done|apply lookup_delete_eq].
Qed.

Lemma users_update p c t u u' :
  c !! t = Some u -> latch u' = latch u -> size (users p (<[t := u']> c)) = size (users p c).
Proof.
  intros Ht Hl. rewrite (users_delete p c t u Ht), <- insert_delete_eq, users_insert by (apply lookup_delete_eq).
  by rewrite Hl.
Qed.

Lemma users_pos p c : 0 < size (users p c) <-> exists t u, c !! t = Some u /\ latch u = p.
Proof.
  split.
  - intros H. destruct (decide (users p c = ∅)) as [E|E]; [rewrite E, map_size_empty in H; lia|].
    apply map_choose in E as (t & u & [H1 H2]%map_lookup_filter_Some). eauto.
  - intros (t & u & H1 & H2). destruct (Nat.eq_0_gt_0_cases (size (users p c))) as [E%map_size_empty_inv|]; [|lia].
    assert (Hu : users p c !! t = Some u) by (by apply map_lookup_filter_Some).
    by rewrite E, lookup_empty in Hu.
Qed.

Record inv (s : state) : Prop := {
  i_refs p l : objects s !! p = Some l -> refs l = Z.of_nat (size (users p (callers s)));
  i_entry k p : latches s !! k = Some p -> exists t u, callers s !! t = Some u /\ latch u = p /\ key u = k;
  i_caller t u : callers s !! t = Some u -> latches s !! key u = Some (latch u) /\ exists l, objects s !! latch u = Some l;
  i_inj k k' p : latches s !! k = Some p -> latches s !! k' = Some p -> k = k';
  i_token t u l : callers s !! t = Some u -> holding u = true -> objects s !! latch u = Some l -> token l = true;
  i_held p l : objects s !! p = Some l -> token l = true ->
    exists t u, callers s !! t = Some u /\ latch u = p /\ holding u = true;
  i_excl t t' u u' : callers s !! t = Some u -> callers s !! t' = Some u' ->
    holding u = true -> holding u' = true -> latch u = latch u' -> t = t' }.

Lemma latch_start_inv : inv start.
Proof. split; intros *; cbn; try done. Qed.

(** What [enter] leaves: the entry of [k], one more reference on its latch. *)
Lemma enter_spec s k p s' : inv s -> enter k s = Some (p, s') ->
  callers s' = callers s /\ latches s' = <[k := p]> (latches s) /\
  (latches s !! k = Some p \/ latches s !! k = None /\ objects s !! p = None) /\
  (forall k', latches s !! k' = Some p -> k' = k) /\
  exists l, objects s' = <[p := with_refs l 1]> (objects s) /\
    (objects s !! p = Some l \/ objects s !! p = None /\ l = {| token := false; refs := 0 |}).
Proof.
  intros Hi. unfold enter. destruct (latches s !! k) as [q|] eqn:Hk; intros H.
  - destruct (objects s !! q) as [l|] eqn:Hq; [|done]. cbn in H. injection H as <- <-. cbn.
    split_and!; [done|by rewrite insert_id|by left|intros k' Hk'; by eapply (i_inj _ Hi)|]. exists l. auto.
  - cbn zeta in H. rewrite lookup_insert_eq in H. cbn in H. injection H as <- <-. cbn.
    assert (Hn : objects s !! fresh (dom (objects s)) = None) by apply not_elem_of_dom, is_fresh.
    split_and!; [done..|by right| |].
    + intros k' (t & u & Hu & Hl & _)%(i_entry _ Hi). apply (i_caller _ Hi) in Hu as [_ [l Hl']].
      rewrite Hl in Hl'. congruence.
    + exists {| token := false; refs := 0 |}. rewrite insert_insert_eq. auto.
Qed.

(** The entry outlives a caller exactly while another wants the latch. *)
Lemma last_user s t u l : inv s -> callers s !! t = Some u -> objects s !! latch u = Some l ->
  (refs l - 1 =? 0)%Z = false <-> exists t' u', delete t (callers s) !! t' = Some u' /\ latch u' = latch u.
Proof.
  intros Hi Ht Hl. pose proof (i_refs _ Hi _ _ Hl) as Hn. rewrite (users_delete (latch u) _ _ _ Ht) in Hn.
  rewrite decide_True in Hn by done. rewrite <- users_pos, Z.eqb_neq. lia.
Qed.

Lemma drop_inv s t k p held s' :
  inv s -> callers s !! t = Some {| key := k; latch := p; holding := held |} ->
  drop k p held s = Some s' -> inv (set_callers (delete t (callers s)) s').
Proof.
  intros Hi Ht He. set (u := {| key := k; latch := p; holding := held |}) in *.
  destruct (i_caller _ Hi _ _ Ht) as [Hk [l Hp]]. cbn [key latch u] in Hk, Hp.
  unfold drop in He. rewrite Hp in He. cbn in He. destruct (held && negb (token l)) eqn:Hblock; [done|].
  injection He as <-. pose proof (last_user s t u l Hi Ht Hp) as Hlast. cbn [latch u] in Hlast.
  pose proof (i_refs _ Hi _ _ Hp) as Hn. rewrite (users_delete p _ _ _ Ht) in Hn. cbn [latch u] in Hn.
  rewrite decide_True in Hn by done.
  split; unfold set_callers; cbn [callers latches objects refs token]; intros *.
  - intros [[<- <-]|[Hne Hp']]%lookup_insert_Some; cbn [refs]; [lia|].
    rewrite (i_refs _ Hi _ _ Hp'), (users_delete _ _ _ _ Ht). cbn [latch u]. rewrite decide_False by done. lia.
  - intros Hk0. assert (Hk1 : latches s !! k0 = Some p0 /\ (k0 = k -> (refs l - 1 =? 0)%Z = false)).
    { destruct (refs l - 1 =? 0)%Z; [|done]. by apply lookup_delete_Some in Hk0 as [? ?]. }
    destruct Hk1 as [Hk1 Hnz]. destruct (decide (k0 = k)) as [->|Hne].
    + assert (p0 = p) as -> by congruence. specialize (Hnz eq_refl).
      apply Hlast in Hnz as (t' & u' & Hu' & Hl). exists t', u'. split_and!; [done..|].
      apply lookup_delete_Some in Hu' as [_ Hu']. apply (i_caller _ Hi) in Hu' as [Hk' _].
      rewrite Hl in Hk'. by eapply (i_inj _ Hi).
    + destruct (i_entry _ Hi _ _ Hk1) as (t' & u' & Hu' & Hl & Hk'). exists t', u'.
      rewrite lookup_delete_ne; [done|]. intros <-. assert (u' = u) as -> by congruence. by apply Hne.
  - intros [Hne Hu0]%lookup_delete_Some. destruct (i_caller _ Hi _ _ Hu0) as [Hk0 [l' Hl']]. split.
    + destruct (decide (latch u0 = p)) as [E|Hp0].
      * assert ((refs l - 1 =? 0)%Z = false) as ->; [|done]. apply Hlast. exists t0, u0.
        by rewrite lookup_delete_ne.
      * destruct (refs l - 1 =? 0)%Z; [|done]. rewrite lookup_delete_ne; [done|].
        intros E. rewrite <- E in Hk0. congruence.
    + destruct (decide (latch u0 = p)) as [->|]; [rewrite lookup_insert_eq|rewrite lookup_insert_ne by done]; eauto.
  - intros H1 H2. assert (Hsub : forall x y, (if (refs l - 1 =? 0)%Z then delete k (latches s) else latches s) !! x = Some y ->
      latches s !! x = Some y) by (intros x y; destruct (refs l - 1 =? 0)%Z; [by intros [_ ?]%lookup_delete_Some|done]).
    by eapply (i_inj _ Hi); apply Hsub.
  - intros [Hne Hu0]%lookup_delete_Some Hh. intros [[Hpe <-]|[_ Hp']]%lookup_insert_Some; [|by eapply (i_token _ Hi)].
    cbn. assert (Htok : token l = true) by (rewrite Hpe in Hp; by eapply (i_token _ Hi)).
    destruct held; [|done]. exfalso. apply Hne. eapply (i_excl _ Hi t t0); done.
  - intros [[<- <-]|[Hne Hp']]%lookup_insert_Some Ht0.
    + cbn in Ht0. destruct held; [done|]. destruct (i_held _ Hi _ _ Hp Ht0) as (t' & u' & Hu' & Hl & Hh).
      exists t', u'. rewrite lookup_delete_ne; [done|]. intros <-. assert (u' = u) as -> by congruence. done.
    + destruct (i_held _ Hi _ _ Hp' Ht0) as (t' & u' & Hu' & Hl & Hh).
      exists t', u'. rewrite lookup_delete_ne; [done|]. intros <-. assert (u' = u) as -> by congruence. done.
  - intros [_ ?]%lookup_delete_Some [_ ?]%lookup_delete_Some. by eapply (i_excl _ Hi).
Qed.

Lemma latch_enter_inv s t k p s' :
  inv s -> callers s !! t = None -> enter k s = Some (p, s') ->
  inv (set_callers (<[t := {| key := k; latch := p; holding := false |}]> (callers s)) s').
Proof.
  intros Hi Ht He.
  pose proof (enter_spec _ _ _ _ Hi He) as (Hc & Hl & Hold & Huniq & l & Ho & Hl0).
  set (u := {| key := k; latch := p; holding := false |}).
  assert (Hu0 : Z.of_nat (size (users p (callers s))) = refs l).
  { destruct Hl0 as [Hp|[Hp ->]]; [by rewrite (i_refs _ Hi p l)|].
    destruct (decide (0 < size (users p (callers s)))) as [(t' & u' & Ht' & Hu')%users_pos|]; [|cbn; lia].
    apply (i_caller _ Hi) in Ht' as [_ [l' Hl']]. congruence. }
  split; unfold set_callers; cbn [callers latches objects]; rewrite ?Hc, ?Hl, ?Ho; intros *.
  - rewrite users_insert by done. cbn [latch u]. intros [[<- <-]|[Hne Hp]]%lookup_insert_Some.
    + rewrite decide_True by done. cbn. lia.
    + rewrite decide_False by done. rewrite Nat.add_0_r. by apply (i_refs _ Hi).
  - intros [[<- <-]|[Hne Hk]]%lookup_insert_Some.
    + exists t, u. by rewrite lookup_insert_eq.
    + destruct (i_entry _ Hi _ _ Hk) as (t' & u' & Hu' & ?). exists t', u'. by rewrite lookup_insert_ne by congruence.
  - intros [[<- <-]|[Hne Hu]]%lookup_insert_Some.
    + cbn. rewrite !lookup_insert_eq. eauto.
    + destruct (i_caller _ Hi _ _ Hu) as [Hk [l' Hl']]. split.
      * destruct (decide (key u0 = k)) as [E|]; [|by rewrite lookup_insert_ne].
         rewrite E in Hk |- *. rewrite lookup_insert_eq. destruct Hold as [|[? _]]; congruence.
      * destruct (decide (latch u0 = p)) as [->|]; [rewrite lookup_insert_eq|rewrite lookup_insert_ne by done]; eauto.
  - intros [[<- <-]|[Hne Hk]]%lookup_insert_Some [[<- E]|[Hne' Hk']]%lookup_insert_Some; try done.
    + symmetry. by apply Huniq.
    + subst. by apply Huniq.
    + by eapply (i_inj _ Hi).
  - intros [[<- <-]|[Hne Hu]]%lookup_insert_Some; [done|]. intros Hh.
    intros [[Hpe <-]|[_ Hp]]%lookup_insert_Some; [|by eapply (i_token _ Hi)]. cbn.
    destruct Hl0 as [Hp|[Hp _]]; rewrite Hpe in Hp; [by eapply (i_token _ Hi)|].
    apply (i_caller _ Hi) in Hu as [_ [? ?]]. congruence.
  - intros Hp Htok. assert (Hx : exists t' u', callers s !! t' = Some u' /\ latch u' = p0 /\ holding u' = true).
    { apply lookup_insert_Some in Hp as [[<- <-]|[_ Hp]]; [|by eapply (i_held _ Hi)].
      destruct Hl0 as [Hp|[_ ->]]; [by eapply (i_held _ Hi)|done]. }
    destruct Hx as (t' & u' & Hu' & ?). exists t', u'. by rewrite lookup_insert_ne by congruence.
  - intros [[<- <-]|[Hne Hu]]%lookup_insert_Some; [done|].
    intros [[<- <-]|[Hne' Hu']]%lookup_insert_Some; [done|]. by eapply (i_excl _ Hi).
Qed.

Lemma take_inv s t k p s' :
  inv s -> callers s !! t = Some {| key := k; latch := p; holding := false |} -> send p s = Some s' ->
  inv (set_callers (<[t := {| key := k; latch := p; holding := true |}]> (callers s)) s').
Proof.
  intros Hi Ht He.
  unfold send in He. destruct (objects s !! p) as [l|] eqn:Hp; [|done]. cbn in He.
  destruct (token l) eqn:Htok; [done|]. injection He as <-.
  set (u := {| key := k; latch := p; holding := false |}) in *.
  assert (Hfree : forall t' u', callers s !! t' = Some u' -> holding u' = true -> latch u' <> p).
  { intros t' u' Hu' Hh E. rewrite <- E in Hp. pose proof (i_token _ Hi _ _ _ Hu' Hh Hp). congruence. }
  split; unfold set_callers; cbn [callers latches objects]; intros *.
  - rewrite (users_update _ _ t u) by done. intros [[<- <-]|[_ Hp']]%lookup_insert_Some; cbn; by apply (i_refs _ Hi).
  - intros (t' & u' & Hu' & Hl & Hk)%(i_entry _ Hi). destruct (decide (t' = t)) as [->|].
    + exists t. eexists. rewrite lookup_insert_eq. split; [done|]. assert (u' = u) as -> by congruence. done.
    + exists t', u'. by rewrite lookup_insert_ne.
  - intros Hu. assert (Hx : exists u', callers s !! t0 = Some u' /\ key u' = key u0 /\ latch u' = latch u0).
    { apply lookup_insert_Some in Hu as [[<- <-]|[_ Hu]]; eauto. }
    destruct Hx as (u' & Hu' & <- & <-). destruct (i_caller _ Hi _ _ Hu') as [? [l' Hl']]. split; [done|].
    destruct (decide (latch u' = p)) as [->|]; [rewrite lookup_insert_eq|rewrite lookup_insert_ne by done]; eauto.
  - apply (i_inj _ Hi).
  - intros Hu Hh [[_ <-]|[Hne Hp']]%lookup_insert_Some; [done|].
    apply lookup_insert_Some in Hu as [[_ <-]|[_ Hu]]; [done|]. by eapply (i_token _ Hi).
  - intros [[<- <-]|[Hne Hp']]%lookup_insert_Some Ht0.
    + exists t. eexists. by rewrite lookup_insert_eq.
    + destruct (i_held _ Hi _ _ Hp' Ht0) as (t' & u' & Hu' & Hl & Hh). exists t', u'.
      rewrite lookup_insert_ne; [done|]. intros <-. assert (u' = u) as -> by congruence. done.
  - intros [[<- <-]|[Hne Hu]]%lookup_insert_Some [[<- <-]|[Hne' Hu']]%lookup_insert_Some; try done.
    + intros _ Hh Hl. by destruct (Hfree _ _ Hu' Hh).
    + intros Hh _ Hl. by destruct (Hfree _ _ Hu Hh).
    + by eapply (i_excl _ Hi).
Qed.

Lemma latch_step_inv s s' : step s s' -> inv s -> inv s'.
Proof.
  intros [] Hi; [by eapply latch_enter_inv|by eapply take_inv|by eapply drop_inv..].
Qed.

Lemma latch_reachable_inv s : rtc step start s -> inv s.
Proof.
  intros H. assert (G : forall x y, rtc step x y -> inv x -> inv y).
  { induction 1 as [|x y z Hxy _ IH]; [done|]. intros Hx. by eapply IH, latch_step_inv. }
  by apply (G start s H), latch_start_inv.
Qed.

(** ** Properties *)

(** C15. The latch of [acquireScope]: at every point of every interleaving of entering,
    taking, giving up and releasing, at most one caller holds a scope; a release never
    blocks; a waiter whose scope is free can take it; the map holds an entry exactly for
    the scopes someone wants, so an idle scope costs nothing; and everyone who wants a
    scope is counted on that one latch. *)
Theorem acquireScope_latch s :
  rtc step start s ->
  (forall t t' u u', callers s !! t = Some u -> callers s !! t' = Some u' ->
     holding u = true -> holding u' = true -> key u = key u' -> t = t') /\
  (forall t u, callers s !! t = Some u -> exists s', drop (key u) (latch u) (holding u) s = Some s') /\
  (forall t u, callers s !! t = Some u ->
     (forall t' u', callers s !! t' = Some u' -> key u' = key u -> holding u' = false) ->
     exists s', send (latch u) s = Some s') /\
  (forall k, is_Some (latches s !! k) <-> exists t u, callers s !! t = Some u /\ key u = k) /\
  (forall k p l, latches s !! k = Some p -> objects s !! p = Some l ->
     refs l = Z.of_nat (size (users p (callers s)))).
Proof.
  intros Hi%latch_reachable_inv. split_and!.
  - intros t t' u u' Ht Ht' Hh Hh' Hk. apply (i_excl _ Hi t t' u u'); try done.
    destruct (i_caller _ Hi _ _ Ht) as [H1 _], (i_caller _ Hi _ _ Ht') as [H2 _]. congruence.
  - intros t u Ht. destruct (i_caller _ Hi _ _ Ht) as [_ [l Hl]]. unfold drop. rewrite Hl. cbn.
    destruct (holding u) eqn:Hh; cbn; [|eauto]. rewrite (i_token _ Hi _ _ _ Ht Hh Hl). cbn. eauto.
  - intros t u Ht Hfree. destruct (i_caller _ Hi _ _ Ht) as [Hk [l Hl]]. unfold send. rewrite Hl. cbn.
    destruct (token l) eqn:Htok; [|eauto]. destruct (i_held _ Hi _ _ Hl Htok) as (t' & u' & Ht' & Hp & Hh).
    destruct (i_caller _ Hi _ _ Ht') as [Hk' _]. rewrite Hp in Hk'.
    rewrite (Hfree t' u' Ht') in Hh; [done|]. by eapply (i_inj _ Hi).
  - intros k. split.
    + intros [p (t & u & Ht & _ & Hk)%(i_entry _ Hi)]. eauto.
    + intros (t & u & Ht & <-). apply (i_caller _ Hi) in Ht as [? _]. eauto.
  - intros k p l _ Hl. by apply (i_refs _ Hi).
Qed.

(** Two callers of one scope; the first holds it. *)
Definition enter_some (k : string) (s : state) : nat * state := default (0, s) (enter k s).
Definition state1 : state :=
  let (p, s) := enter_some "scope" start in set_callers (<[0 := {| key := "scope"; latch := p; holding := false |}]> ∅) s.
Definition state2 : state :=
  set_callers (<[0 := {| key := "scope"; latch := 0; holding := true |}]> (callers state1)) (default state1 (send 0 state1)).

Theorem acquireScope_latch_witness : exists s', drop "scope" 0 true state2 = Some s'.
Proof.
  assert (H : rtc step start state2).
  { eapply rtc_l; [apply (step_enter start 0 "scope" 0 (enter_some "scope" start).2); reflexivity|].
    eapply rtc_l; [|constructor]. apply (step_take state1 0 "scope" 0 (default state1 (send 0 state1))); reflexivity. }
  destruct (acquireScope_latch state2 H) as (_ & Hd & _).
  exact (Hd 0 {| key := "scope"; latch := 0; holding := true |} eq_refl).
Defined.

End Latch.
