(* ===== verification/OrderedRegistry.v ===== *)
(** * [ordered.go], lines 818-872 and 1185-1355: the views' life cycle.

    One view, one goroutine per open namespace: the registry under the store's mutex, the
    goroutine's loop, the retirement of a view an operator may have repaired, [Close], and
    [readyView], which every listing goes through. *)

From S2P Require Import Prelude GoText Storage Names OrderedCodec Prog OrderedStore.
From S2P Require Import OrderedIndex OrderedView.
Open Scope stdpp_scope.
Import Codec Store.

Module Registry.

(** ** The goroutine *)

Inductive run_next := RunExit | RunFatal (err : error) | RunBackoff (attempt : Z).

(** One turn of [run]'s loop: what follows a watch that returned [err], where [ctx_done] is
    [ctx.Err() != nil]; the backoff it starts waits with shift [attempt - 1]. *)
Definition run_turn (attempt : Z) (err : option error) (ctx_done : bool) : run_next :=
  if ctx_done then RunExit
  else match err with
       | Some e => if is_config_error e then RunFatal e else RunBackoff (attempt + 1)
       | None => RunBackoff 0
       end.

(** ** The registry *)

(** A view and whether its goroutine has exited. *)
Record instance := { view : View.orderedView; done : bool }.

(** [stopping] are the views a [Close] has taken out of the map to stop. *)
Record state := {
  closed : bool;
  views : gmap string nat;
  instances : gmap nat instance;
  stopping : list nat }.

Inductive orderedViewRetireResult := orderedViewNotRetired | orderedViewRetired | orderedViewSuperseded.

Definition with_view (i : instance) (v : View.orderedView) : instance := {| view := v; done := done i |}.
Definition set_instance (id : nat) (i : instance) (s : state) : state :=
  {| closed := closed s; views := views s; instances := <[id := i]> (instances s); stopping := stopping s |}.

Section registry.
Context {S : Storage}.

Definition orderedNamespaceSpec (namespace : string) : res orderedStreamSpec :=
  stream <-? orderedStreamName namespace;
  filter <-? orderedSubjectFilter namespace;
  Ok {| stream := stream; subjectFilter := filter |}.

Definition acquireView (namespace : string) (s : state) : res (nat * bool) * state :=
  match orderedNamespaceSpec namespace with
  | Err e => (Err e, s)
  | Ok _ =>
      if closed s then (Err (OrderedStoreClosedError namespace), s)
      else
        match views s !! namespace with
        | Some id => (Ok (id, false), s)
        | None =>
            let id := fresh (dom (instances s)) in
            (Ok (id, true),
             {| closed := closed s; views := <[namespace := id]> (views s);
                instances := <[id := {| view := View.newOrderedView namespace; done := false |}]> (instances s);
                stopping := stopping s |})
        end
  end.

(** The last critical section of [evictRepairableFatal]. *)
Definition retire (namespace : string) (id : nat) (s : state) : orderedViewRetireResult * state :=
  if decide (views s !! namespace = Some id) then
    (orderedViewRetired,
     {| closed := closed s; views := delete namespace (views s); instances := instances s; stopping := stopping s |})
  else (orderedViewSuperseded, s).

(** The critical section of [Close]: the views to stop, when this call is the first. *)
Definition close_views (s : state) : list nat * state :=
  if closed s then ([], s)
  else
    let ids := (map_to_list (views s)).*2 in
    (ids, {| closed := true; views := ∅; instances := instances s; stopping := ids |}).

Inductive step : state -> state -> Prop :=
  | step_acquire s ns r s' : acquireView ns s = (r, s') -> step s s'
  (* a stream it cannot serve; the two critical sections of [applyMessage], by a callback
     that may still run when the goroutine has exited *)
  | step_fatal s id i err :
      instances s !! id = Some i -> step s (set_instance id (with_view i (View.setFatal err (view i))) s)
  | step_fold s id i subject data :
      instances s !! id = Some i ->
      step s (set_instance id (with_view i (View.foldMessage subject data (view i)).1) s)
  | step_advance s id i seq :
      instances s !! id = Some i -> step s (set_instance id (with_view i (View.advance seq (view i))) s)
  (* it exits once its context has ended, closing [done] *)
  | step_exit s id i :
      instances s !! id = Some i -> View.cancelled (view i) = true ->
      step s (set_instance id {| view := view i; done := true |} s)
  (* a query retires a view whose configuration error may have been repaired *)
  | step_retire s ns id i err r s' :
      instances s !! id = Some i -> View.namespace (view i) = ns ->
      View.fatal (view i) = Some err -> is_config_error err = true ->
      done i = true -> retire ns id s = (r, s') -> step s s'
  | step_close s ids s' : close_views s = (ids, s') -> step s s'
  | step_cancel s id i :
      instances s !! id = Some i ->
      step s (set_instance id (with_view i (View.cancel_view (view i))) s).

Definition start : state := {| closed := false; views := ∅; instances := ∅; stopping := [] |}.

(** ** The invariant *)

Record inv (s : state) : Prop := {
  i_registered ns id : views s !! ns = Some id -> exists i, instances s !! id = Some i /\ View.namespace (view i) = ns;
  i_live id i : instances s !! id = Some i -> done i = false ->
    views s !! View.namespace (view i) = Some id \/ id ∈ stopping s;
  i_closed : closed s = true -> views s = ∅;
  i_stopping id : id ∈ stopping s -> closed s = true /\ is_Some (instances s !! id);
  i_stop_inj id id' i i' : id ∈ stopping s -> id' ∈ stopping s -> instances s !! id = Some i ->
    instances s !! id' = Some i' -> View.namespace (view i) = View.namespace (view i') -> id = id' }.

Lemma registry_start_inv : inv start.
Proof. split; cbn; intros *; try done; by intros ?%elem_of_nil. Qed.

(** Changing one instance, its name apart, and only ever towards [done]. *)
Lemma set_instance_inv s id i i' :
  inv s -> instances s !! id = Some i -> View.namespace (view i') = View.namespace (view i) ->
  (done i = true -> done i' = true) -> inv (set_instance id i' s).
Proof.
  intros Hi Hid Hns Hd. unfold set_instance.
  (* an instance of the new state is one of the old, up to its contents *)
  assert (Hback : forall x j, <[id := i']> (instances s) !! x = Some j -> exists j0, instances s !! x = Some j0 /\
    View.namespace (view j) = View.namespace (view j0) /\ (done j = false -> done j0 = false)).
  { intros x j [[<- <-]|[_ H]]%lookup_insert_Some; [|eauto]. exists i. split_and!; [done..|].
    intros H. destruct (done i); [|done]. by rewrite Hd in H. }
  split; cbn [closed views instances stopping]; try apply Hi.
  - intros ns x (j & Hj & Hn)%(i_registered _ Hi). destruct (decide (x = id)) as [->|].
    + exists i'. rewrite lookup_insert_eq. split; [done|]. congruence.
    + exists j. by rewrite lookup_insert_ne.
  - intros x j (j0 & Hj & Hn & Hdn)%Hback Hlive. rewrite Hn. by apply (i_live _ Hi); [|apply Hdn].
  - intros x Hx. destruct (i_stopping _ Hi x Hx) as [? [j Hj]]. split; [done|].
    destruct (decide (x = id)) as [->|]; [rewrite lookup_insert_eq|rewrite lookup_insert_ne by done]; eauto.
  - intros x y jx jy Hx Hy (jx0 & Hjx & Ex & _)%Hback (jy0 & Hjy & Ey & _)%Hback E.
    apply (i_stop_inj _ Hi x y jx0 jy0); congruence.
Qed.

Lemma acquireView_inv s ns r s' : inv s -> acquireView ns s = (r, s') -> inv s'.
Proof.
  intros Hi H.
  unfold acquireView in H. destruct (orderedNamespaceSpec ns); [|by injection H as _ <-].
  destruct (closed s) eqn:Hcl; [by injection H as _ <-|].
  destruct (views s !! ns) as [id|] eqn:Hv; [by injection H as _ <-|]. injection H as _ <-.
  set (id := fresh (dom (instances s))). assert (Hnew : instances s !! id = None) by apply not_elem_of_dom, is_fresh.
  assert (Hno : forall x, x ∈ stopping s -> False).
  { intros x Hx. destruct (i_stopping _ Hi x Hx). congruence. }
  split; cbn [closed views instances stopping].
  - intros ns' x [[<- <-]|[Hne Hx]]%lookup_insert_Some.
    + eexists. by rewrite lookup_insert_eq.
    + destruct (i_registered _ Hi _ _ Hx) as (j & Hj & ?). exists j. by rewrite lookup_insert_ne by congruence.
  - intros x j [[<- <-]|[Hne Hj]]%lookup_insert_Some Hlive.
    + left. cbn. by rewrite lookup_insert_eq.
    + left. destruct (i_live _ Hi _ _ Hj Hlive) as [Hreg|Hs]; [|by destruct (Hno x)].
      rewrite lookup_insert_ne; [done|]. intros ->. congruence.
  - congruence.
  - intros x Hx. by destruct (Hno x).
  - intros x y jx jy Hx. by destruct (Hno x).
Qed.

Lemma retire_inv s ns id i r s' :
  inv s -> instances s !! id = Some i -> View.namespace (view i) = ns -> done i = true ->
  retire ns id s = (r, s') -> inv s'.
Proof.
  intros Hi Hid Hns Hd H.
  unfold retire in H. destruct (decide _) as [Hreg|]; injection H as _ <-; [|done].
  split; cbn [closed views instances stopping]; try apply Hi.
  - intros ns' x [_ Hx]%lookup_delete_Some. by apply (i_registered _ Hi).
  - intros x j Hj Hlive. destruct (i_live _ Hi _ _ Hj Hlive) as [Hx|]; [left|by right].
    rewrite lookup_delete_ne; [done|]. intros E. rewrite <- E in Hx. congruence.
  - intros Hcl. by rewrite (i_closed _ Hi Hcl), delete_empty.
Qed.

Lemma close_views_inv s ids s' : inv s -> close_views s = (ids, s') -> inv s'.
Proof.
  intros Hi H.
  unfold close_views in H. destruct (closed s) eqn:Hcl; [by injection H as _ <-|]. injection H as _ <-.
  assert (Hids : forall x, x ∈ (map_to_list (views s)).*2 <-> exists ns, views s !! ns = Some x).
  { intros x. rewrite list_elem_of_fmap. split.
    - intros ([ns y] & -> & Hy%elem_of_map_to_list). eauto.
    - intros [ns Hx]. exists (ns, x). by rewrite elem_of_map_to_list. }
  split; cbn [closed views instances stopping].
  - intros ns x. by rewrite lookup_empty.
  - intros x j Hj Hlive. right. apply Hids. destruct (i_live _ Hi _ _ Hj Hlive) as [|Hs]; [eauto|].
    destruct (i_stopping _ Hi x Hs). congruence.
  - done.
  - intros x [ns Hx]%Hids. split; [done|]. destruct (i_registered _ Hi _ _ Hx) as (j & Hj & _). eauto.
  - intros x y jx jy [ns Hx]%Hids [ns' Hy]%Hids Hjx Hjy E.
    destruct (i_registered _ Hi _ _ Hx) as (? & ? & ?), (i_registered _ Hi _ _ Hy) as (? & ? & ?). congruence.
Qed.

Lemma registry_step_inv s s' : step s s' -> inv s -> inv s'.
Proof.
  intros [s0 ns r s1 H|s0 id i err Hid|s0 id i subject data Hid|s0 id i seq Hid|s0 id i Hid Hc
    |s0 ns id i err r s1 Hid Hns Hf Hcfg Hd H|s0 ids s1 H|s0 id i Hid] Hi.
  - by eapply acquireView_inv.
  - by apply (set_instance_inv _ _ i).
  - apply (set_instance_inv _ _ i); try done. apply View.foldMessage_fields.
  - apply (set_instance_inv _ _ i); try done. apply View.advance_fields.
  - by apply (set_instance_inv _ _ i).
  - by eapply retire_inv.
  - by eapply close_views_inv.
  - by apply (set_instance_inv _ _ i).
Qed.

Lemma registry_reachable_inv s s' : inv s -> rtc step s s' -> inv s'.
Proof. intros Hi H. induction H as [|x y z Hs _ IH]; [done|]. by eapply IH, registry_step_inv. Qed.

(** What an instance never takes back. *)
Definition grows (i i' : instance) : Prop :=
  View.advances (view i) (view i') /\ (done i = true -> done i' = true).

#[export] Instance grows_refl : Reflexive grows.
Proof. by intros i. Qed.
#[export] Instance grows_trans : Transitive grows.
Proof. intros i1 i2 i3 [V1 D1] [V2 D2]. split; [by etrans|auto]. Qed.

Lemma set_instance_grows s id i i' : instances s !! id = Some i -> grows i i' ->
  forall x j, instances s !! x = Some j -> exists j', instances (set_instance id i' s) !! x = Some j' /\ grows j j'.
Proof.
  intros Hi Hg x j Hj. cbn. destruct (decide (x = id)) as [->|].
  - exists i'. rewrite lookup_insert_eq. split; [done|]. by assert (j = i) as -> by congruence.
  - exists j. by rewrite lookup_insert_ne.
Qed.

(** An instance stays, and grows. *)
Lemma step_grows s s' id i : step s s' -> instances s !! id = Some i ->
  exists i', instances s' !! id = Some i' /\ grows i i'.
Proof.
  intros [s0 ns r s1 H|s0 x j err Hj|s0 x j subject data Hj|s0 x j seq Hj|s0 x j Hj Hc
    |s0 ns x j err r s1 Hj Hns Hf Hcfg Hd H|s0 ids s1 H|s0 x j Hj] Hi.
  - unfold acquireView in H. destruct (orderedNamespaceSpec ns); [|injection H as _ <-; by exists i].
    destruct (closed s0); [injection H as _ <-; by exists i|].
    destruct (views s0 !! ns); injection H as _ <-; [by exists i|]. exists i. cbn. split; [|done].
    rewrite lookup_insert_ne; [done|]. intros E. apply (is_fresh (dom (instances s0))). rewrite E. by eapply elem_of_dom_2.
  - eapply set_instance_grows; [exact Hj| |exact Hi]. split; [apply View.setFatal_advances|done].
  - eapply set_instance_grows; [exact Hj| |exact Hi]. split; [apply View.foldMessage_fields|done].
  - eapply set_instance_grows; [exact Hj| |exact Hi]. split; [apply View.advance_advances|done].
  - eapply set_instance_grows; [exact Hj| |exact Hi]. by split.
  - unfold retire in H. destruct (decide _); injection H as _ <-; by exists i.
  - unfold close_views in H. destruct (closed s0); injection H as _ <-; by exists i.
  - eapply set_instance_grows; [exact Hj| |exact Hi]. split; [apply View.cancel_advances|done].
Qed.

Lemma steps_grow s s' id i : rtc step s s' -> instances s !! id = Some i ->
  exists i', instances s' !! id = Some i' /\ grows i i'.
Proof.
  intros H. revert i. induction H as [|x y z Hs _ IH]; intros i Hi; [by exists i|].
  destruct (step_grows _ _ _ _ Hs Hi) as (j & Hj & Hg). destruct (IH j Hj) as (k & Hk & Hg').
  exists k. split; [done|by etrans].
Qed.

Lemma closed_step s s' : step s s' -> closed s = true -> closed s' = true /\ stopping s' = stopping s /\
  (forall id i, instances s !! id = Some i -> done i = true -> exists i', instances s' !! id = Some i' /\ done i' = true) /\
  (forall id, is_Some (instances s' !! id) -> is_Some (instances s !! id)).
Proof.
  assert (Hset : forall s id i i', instances s !! id = Some i -> (done i = true -> done i' = true) ->
    (forall x j, instances s !! x = Some j -> done j = true -> exists j', <[id := i']> (instances s) !! x = Some j' /\ done j' = true) /\
    (forall x, is_Some (<[id := i']> (instances s) !! x) -> is_Some (instances s !! x))).
  { intros s0 id i i' Hid Hd. split.
    - intros x j Hj Hdj. destruct (decide (x = id)) as [->|]; [|exists j; by rewrite lookup_insert_ne].
      exists i'. rewrite lookup_insert_eq. split; [done|]. apply Hd. congruence.
    - intros x [j [[<- _]|[_ Hj]]%lookup_insert_Some]; eauto. }
  intros [s0 ns r s1 H|s0 id i err Hid|s0 id i subject data Hid|s0 id i seq Hid|s0 id i Hid Hc
    |s0 ns id i err r s1 Hid Hns Hf Hcfg Hd H|s0 ids s1 H|s0 id i Hid] Hcl.
  - unfold acquireView in H. rewrite Hcl in H. destruct (orderedNamespaceSpec ns); injection H as _ <-; split_and!; eauto.
  - split_and!; [done..| |]; by apply (Hset s0 id i).
  - split_and!; [done..| |]; by apply (Hset s0 id i).
  - split_and!; [done..| |]; by apply (Hset s0 id i).
  - split_and!; [done..| |]; by apply (Hset s0 id i).
  - unfold retire in H. destruct (decide _); injection H as _ <-; split_and!; eauto.
  - unfold close_views in H. rewrite Hcl in H. injection H as _ <-. split_and!; eauto.
  - split_and!; [done..| |]; by apply (Hset s0 id i).
Qed.

(** C16. The views' life cycle: in every interleaving of queries, goroutines and [Close], a
    namespace has at most one running goroutine (a retired view's has exited before its
    replacement starts); a store that is open reaches every running one through its map,
    and a closed one through what [Close] waits for; and once those have exited no
    goroutine ever runs again and every query is refused. *)
Theorem view_registry_safe s s' :
  rtc step start s -> rtc step s s' ->
  (forall id id' i i', instances s !! id = Some i -> instances s !! id' = Some i' ->
     done i = false -> done i' = false -> View.namespace (view i) = View.namespace (view i') -> id = id') /\
  (forall id i, instances s !! id = Some i -> done i = false ->
     if closed s then id ∈ stopping s else views s !! View.namespace (view i) = Some id) /\
  (closed s = true ->
   (forall id i, id ∈ stopping s -> instances s !! id = Some i -> done i = true) ->
   (forall id i, instances s' !! id = Some i -> done i = true) /\
   (forall ns spec, orderedNamespaceSpec ns = Ok spec -> acquireView ns s' = (Err (OrderedStoreClosedError ns), s'))).
Proof.
  intros H1 H2. pose proof (registry_reachable_inv _ _ registry_start_inv H1) as Hi.
  assert (Hlive : forall id i, instances s !! id = Some i -> done i = false ->
    if closed s then id ∈ stopping s else views s !! View.namespace (view i) = Some id).
  { intros id i Hid Hd. destruct (closed s) eqn:Hcl; destruct (i_live _ Hi _ _ Hid Hd) as [Hv|Hs]; try done.
    - by rewrite (i_closed _ Hi Hcl), lookup_empty in Hv.
    - destruct (i_stopping _ Hi _ Hs). congruence. }
  split_and!; [|done|].
  - intros id id' i i' Hid Hid' Hd Hd' E. pose proof (Hlive _ _ Hid Hd) as L. pose proof (Hlive _ _ Hid' Hd') as L'.
    destruct (closed s); [by apply (i_stop_inj _ Hi id id' i i')|]. rewrite E in L. congruence.
  - intros Hcl Hstopped.
    assert (Hall : forall id i, instances s !! id = Some i -> done i = true).
    { intros id i Hid. destruct (done i) eqn:Hd; [done|]. specialize (Hlive _ _ Hid Hd). rewrite Hcl in Hlive.
      rewrite <- Hd. by eapply Hstopped. }
    assert (Hend : closed s' = true /\ forall id i, instances s' !! id = Some i -> done i = true).
    { clear Hlive Hstopped Hi H1. induction H2 as [|x y z Hxy _ IH]; [done|].
      destruct (closed_step _ _ Hxy Hcl) as (Hcl' & _ & Hdone & Hdom). apply IH; [done|].
      intros id i Hid. destruct (Hdom id ltac:(eauto)) as [j Hj].
      destruct (Hdone id j Hj (Hall _ _ Hj)) as (i' & Hi' & Hd'). congruence. }
    destruct Hend as [Hcl' Hend]. split; [done|]. intros ns spec Hns.
    unfold acquireView. by rewrite Hns, Hcl'.
Qed.
End registry.

(** ** Getting a view that is caught up *)

Inductive rcall :=
  | r_acquireView (namespace : string)
  | r_fatalError (id : nat)
  | r_waitDone (id : nat)                         (* <-view.done, or ctx.Done() *)
  | r_retire (namespace : string) (id : nat)
  | r_streamTip (id : nat)                        (* of the view's stream *)
  | r_waitBarrier (id : nat) (target : N)
  | r_close                                       (* the critical section of [Close] *)
  | r_cancel (id : nat).                          (* view.cancel() *)

Definition rreply (c : rcall) : Type :=
  match c with
  | r_acquireView _ => res (nat * bool)
  | r_fatalError _ | r_waitDone _ | r_waitBarrier _ _ => option error
  | r_retire _ _ => orderedViewRetireResult
  | r_streamTip _ => res N
  | r_close => list (nat * string)
  | r_cancel _ => unit
  end.

Notation RM := (prog rreply).
Definition rdo (c : rcall) : RM (rreply c) := call c.

Definition evictRepairableFatal (namespace : string) (id : nat) (err : error) : RM (res orderedViewRetireResult) :=
  if negb (is_config_error err) then Ret (Ok orderedViewNotRetired)
  else
    waited <- rdo (r_waitDone id);
    match waited with
    | Some ctx_err => Ret (Err ctx_err)
    | None => outcome <- rdo (r_retire namespace id); Ret (Ok outcome)
    end.

Definition maxRetiredViewRestarts : nat := 1.

(** [left] is [maxRetiredViewRestarts - restarts]. *)
Fixpoint ready_loop (left : nat) (namespace : string) (id : nat) (created : bool) : RM (res nat) :=
  fatal <- rdo (r_fatalError id);
  match fatal with
  | Some err =>
      match left with
      | Datatypes.S left' =>
          if negb created then
            outcome <-! evictRepairableFatal namespace id err;
            match outcome with
            | orderedViewNotRetired => Ret (Err err)
            | _ => '(id', created') <-! rdo (r_acquireView namespace); ready_loop left' namespace id' created'
            end
          else Ret (Err err)
      | 0 => Ret (Err err)
      end
  | None =>
      tip <-! rdo (r_streamTip id);
      waited <- rdo (r_waitBarrier id tip);
      match waited with
      | Some err => _ <-! evictRepairableFatal namespace id err; Ret (Err err)
      | None => Ret (Ok id)
      end
  end.

Definition readyAcquiredView (namespace : string) (id : nat) (created : bool) : RM (res nat) :=
  ready_loop maxRetiredViewRestarts namespace id created.

Definition readyView (namespace : string) : RM (res nat) :=
  '(id, created) <-! rdo (r_acquireView namespace);
  readyAcquiredView namespace id created.

(** ** Closing *)

(** A view is its instance and its namespace. *)
Definition stop (view : nat * string) : RM (option error) :=
  _ <- rdo (r_cancel view.1);
  waited <- rdo (r_waitDone view.1);
  Ret (match waited with None => None | Some ctx_err => Some (OrderedViewStopTimeoutError view.2 ctx_err) end).

Fixpoint cancel_all (views : list (nat * string)) : RM unit :=
  match views with
  | [] => Ret tt
  | view :: rest => _ <- rdo (r_cancel view.1); cancel_all rest
  end.

Fixpoint stop_all (views : list (nat * string)) (errs : list error) : RM (list error) :=
  match views with
  | [] => Ret errs
  | view :: rest =>
      err <- stop view;
      stop_all rest (match err with Some e => errs ++ [e] | None => errs end)
  end.

(** The critical section of a second call answers no view. *)
Definition Close : RM (option error) :=
  views <- rdo r_close;
  _ <- cancel_all views;
  errs <- stop_all views [];
  Ret (errors_Join (Some <$> errs)).

(** What a call is. *)
Definition is_tip (c : rcall) : bool := match c with r_streamTip _ => true | _ => false end.
Definition is_acquire (c : rcall) : bool := match c with r_acquireView _ => true | _ => false end.
Definition barrier_passed (id : nat) (x : ans rreply) : Prop :=
  match x with existT (r_waitBarrier i _) None => i = id | _ => False end.
Definition barrier_of (x : ans rreply) : option (nat * N) :=
  match projT1 x with r_waitBarrier i t => Some (i, t) | _ => None end.
Definition tip_read (id : nat) (t : N) (x : ans rreply) : Prop :=
  match x with existT (r_streamTip i) (Ok tip) => i = id /\ tip = t | _ => False end.

Lemma evict_calls namespace id err :
  at_most is_tip 0 (evictRepairableFatal namespace id err) /\
  at_most is_acquire 0 (evictRepairableFatal namespace id err).
Proof.
  unfold evictRepairableFatal. destruct (negb _); [done|]. split; intros [e|]; cbn; done.
Qed.

(** Retiring counts as neither, whatever follows. *)
Lemma evict_bind {A} namespace id err n (g : orderedViewRetireResult -> RM (res A)) :
  ((forall o, at_most is_tip n (g o)) -> at_most is_tip n (bind_res (evictRepairableFatal namespace id err) g)) /\
  ((forall o, at_most is_acquire n (g o)) -> at_most is_acquire n (bind_res (evictRepairableFatal namespace id err) g)).
Proof.
  split; intros H; (apply (at_most_bind _ 0 n); [apply evict_calls|]); intros [o|e]; done.
Qed.

(** The barrier half of one turn. *)
Lemma barrier_half_calls namespace id n :
  let p := tip <-! rdo (r_streamTip id);
    waited <- rdo (r_waitBarrier id tip);
    match waited with
    | Some err => _ <-! evictRepairableFatal namespace id err; Ret (A := res nat) (Err err)
    | None => Ret (Ok id)
    end in
  at_most is_tip (Datatypes.S n) p /\ at_most is_acquire n p.
Proof.
  split; cbn; (intros [t|e]; [|done]); cbn; (intros [e|]; [|done]); by apply evict_bind.
Qed.

Lemma ready_loop_calls left ns id created :
  at_most is_tip 1 (ready_loop left ns id created) /\ at_most is_acquire left (ready_loop left ns id created).
Proof.
  revert id created. induction left as [|left IH]; intros id created; split; (intros [e|]; [|apply barrier_half_calls]);
    cbn; try done; (destruct (negb created); [|done]); apply evict_bind; intros []; try done;
    (intros [[id' c']|e2]; cbn; [apply IH|done]).
Qed.

Lemma evict_trace namespace id err tr o :
  exec (evictRepairableFatal namespace id err) tr o -> Forall (fun x => barrier_of x = None) tr.
Proof.
  unfold evictRepairableFatal. destruct (negb _); cbn; [by intros [-> _]|].
  intros (w & tr1 & -> & H). destruct w as [e|]; cbn in H; [destruct H as [-> _]; by repeat constructor|].
  destruct H as (r & tr2 & -> & -> & _). by repeat constructor.
Qed.

(** A ready view passed its barrier, at the tip read just before, after any restart. *)
Lemma ready_loop_trace left ns id created tr v :
  exec (ready_loop left ns id created) tr (Ok v) ->
  exists tr1 x y t, tr = tr1 ++ [x; y] /\ tip_read v t x /\ barrier_passed v y /\ barrier_of y = Some (v, t) /\
    Forall (fun z => barrier_of z = None) tr1.
Proof.
  revert id created tr. induction left as [|left IH]; intros id created tr (f & tr1 & -> & H).
  all: destruct f as [e|].
  2, 4: destruct H as (t & tr2 & -> & H); destruct t as [t|e]; cbn in H; [|by destruct H];
    destruct H as (w & tr3 & -> & H); destruct w as [e|]; cbn in H;
    [apply exec_bind in H as ([o|e2] & tr4 & tr5 & _ & _ & [_ ?]); done|];
    destruct H as [-> [= ->]]; exists [existT (r_fatalError id) None];
    exists (existT (r_streamTip id) (Ok t)), (existT (r_waitBarrier id t) None), t; split_and!; try done; by repeat constructor.
  - by destruct H.
  - cbn in H. destruct (negb created); [|by destruct H].
    apply exec_bind in H as (o & tr2 & tr3 & -> & He & H). apply evict_trace in He.
    assert (Hrest : exists id' c' tr4, tr3 = existT (r_acquireView ns) (Ok (id', c')) :: tr4 /\ exec (ready_loop left ns id' c') tr4 (Ok v)).
    { destruct o as [[]|e2]; try (by destruct H); destruct H as ([[id' c']|e2] & tr4 & -> & H); cbn in H;
        [exists id', c', tr4; done|by destruct H|exists id', c', tr4; done|by destruct H]. }
    destruct Hrest as (id' & c' & tr4 & -> & H').
    destruct (IH _ _ _ H') as (tr5 & x & y & t & -> & Hx & Hy & Hb & Hn).
    exists (existT (r_fatalError id) (Some e) :: tr2 ++ existT (r_acquireView ns) (Ok (id', c')) :: tr5), x, y, t.
    split_and!; try done.
    + cbn. by rewrite <- app_assoc.
    + constructor; [done|]. apply Forall_app. by split; [|constructor].
Qed.

(** [readyView], whatever its calls answer: it ends after at most one barrier, one tip
    read and one replacement of a retired view; and the view it returns is one it waited
    for, up to a tip it read during this very call and before the wait. *)
Theorem readyView_barrier ns :
  at_most is_tip 1 (readyView ns) /\ at_most is_acquire 2 (readyView ns) /\
  (forall tr v, exec (readyView ns) tr (Ok v) ->
     exists tr1 x y t, tr = tr1 ++ [x; y] /\ tip_read v t x /\ barrier_passed v y /\ barrier_of y = Some (v, t) /\
       Forall (fun z => barrier_of z = None) tr1).
Proof.
  split_and!.
  - intros [[id c]|e]; [apply (ready_loop_calls 1)|done].
  - intros [[id c]|e]; [apply (ready_loop_calls 1)|done].
  - intros tr v (r & tr1 & -> & H). destruct r as [[id c]|e]; [|by destruct H].
    destruct (ready_loop_trace 1 ns id c tr1 v H) as (tr2 & x & y & t & -> & Hx & Hy & Hb & Hn).
    exists (existT (r_acquireView ns) (Ok (id, c)) :: tr2), x, y, t. split_and!; try done. by constructor.
Qed.

(** The cancellations of [cancel_all]. *)
Definition cancels (views : list (nat * string)) : list (ans rreply) :=
  (fun view => existT (r_cancel view.1) tt) <$> views.

(** What stopping one view does, its wait answering [w], and what comes of it. *)
Definition stop_calls (view : nat * string) (w : option error) : list (ans rreply) :=
  [existT (r_cancel view.1) tt; existT (r_waitDone view.1) w].
Definition timeout_of (view : nat * string) (w : option error) : option error :=
  OrderedViewStopTimeoutError view.2 <$> w.

Lemma cancel_all_trace views tr r : exec (cancel_all views) tr r -> tr = cancels views.
Proof.
  revert tr. induction views as [|view rest IH]; intros tr; cbn; [by intros [-> _]|].
  intros ([] & tr1 & -> & H). f_equal. by apply IH.
Qed.

(** Each view is cancelled again and waited for, in order, whatever the others answered;
    the errors are those of the waits that were given up. *)
Lemma stop_all_trace views errs tr out :
  exec (stop_all views errs) tr out ->
  exists waits, length waits = length views /\
    tr = concat (zip_with stop_calls views waits) /\
    out = errs ++ omap id (zip_with timeout_of views waits).
Proof.
  revert errs tr. induction views as [|view rest IH]; intros errs tr; cbn.
  - intros [-> ->]. exists []. by rewrite app_nil_r.
  - intros ([] & tr1 & -> & w & tr2 & -> & H). cbn in H.
    destruct (IH _ _ H) as (waits & Hlen & -> & ->). exists (w :: waits). cbn. rewrite Hlen.
    split_and!; [done..|]. destruct w as [e|]; cbn; [by rewrite <- app_assoc|done].
Qed.

Lemma omap_id_fmap {A} (l : list (option A)) : omap id (Some <$> omap id l) = omap id l.
Proof. induction l as [|[x|] l IH]; cbn; [done|by f_equal|done]. Qed.

Lemma timeouts_none (views : list (nat * string)) (waits : list (option error)) :
  length waits = length views ->
  omap id (zip_with timeout_of views waits) = [] <->
  Forall (fun w => w = None) waits.
Proof.
  revert waits. induction views as [|view views IH]; intros [|w waits] Hlen; try done.
  cbn in Hlen. injection Hlen as Hlen. rewrite Forall_cons, <- IH by done. destruct w; cbn; naive_solver.
Qed.

(** [Close], however long its context lasts: every open view is cancelled before the first
    wait, so one slow view keeps no other from being stopped; each is then waited for in
    turn; and the result joins exactly the waits that were given up, nil precisely when
    every goroutine was seen to exit. *)
Theorem Close_stops_all tr r :
  exec Close tr r ->
  exists views waits, length waits = length views /\
    tr = existT r_close views :: cancels views ++
         concat (zip_with stop_calls views waits) /\
    r = errors_Join (zip_with timeout_of views waits) /\
    (r = None <-> Forall (fun w => w = None) waits).
Proof.
  intros (views & tr1 & -> & H). exists views.
  apply exec_bind in H as (views' & tr0 & tr0' & -> & Hv & H). destruct Hv as [-> ->].
  apply exec_bind in H as (u & tr2 & tr3 & -> & Hc & H). apply cancel_all_trace in Hc as ->.
  apply exec_bind in H as (out & tr4 & tr5 & -> & Hs & H). destruct H as [-> ->].
  destruct (stop_all_trace _ _ _ _ Hs) as (waits & Hlen & -> & ->).
  exists waits. rewrite app_nil_r. cbn [app]. unfold errors_Join. rewrite omap_id_fmap.
  split_and!; [done..|]. rewrite <- (timeouts_none views) by done. by destruct (omap id _).
Qed.

(** ** The life cycle at a concrete history *)

Section sample.
Existing Instance Reference.reference.

Definition opened : state := (acquireView "ns" start).2.
Definition closing : state := (close_views opened).2.
Definition instance0 : instance := {| view := View.newOrderedView "ns"; done := false |}.
Definition cancelled : state := set_instance 0 (with_view instance0 (View.cancel_view (view instance0))) closing.
Definition stopped : state := set_instance 0 {| view := View.cancel_view (view instance0); done := true |} cancelled.

Theorem view_registry_safe_witness :
  acquireView "ns" stopped = (Err (OrderedStoreClosedError "ns"), stopped).
Proof.
  assert (H : rtc step start stopped).
  { eapply rtc_l; [apply (step_acquire start "ns" (acquireView "ns" start).1); vm_compute; reflexivity|].
    eapply rtc_l; [apply (step_close opened (close_views opened).1); vm_compute; reflexivity|].
    eapply rtc_l; [apply (step_cancel closing 0 instance0); vm_compute; reflexivity|].
    eapply rtc_l; [|constructor].
    apply (step_exit cancelled 0 (with_view instance0 (View.cancel_view (view instance0)))); vm_compute; reflexivity. }
  destruct (view_registry_safe stopped stopped H (rtc_refl _ _)) as (_ & _ & Hc).
  destruct Hc as [_ Hclosed]; [vm_compute; reflexivity| |].
  - intros id i Hid Hi. assert (id = 0) as -> by (by apply list_elem_of_singleton in Hid).
    vm_compute in Hi. by injection Hi as <-.
  - apply (Hclosed "ns" {| stream := "OI_ns"; subjectFilter := "OI.ns.>" |}). vm_compute. reflexivity.
Defined.

(** One view, whose wait the caller's context cuts short. *)
Definition close_trace : list (ans rreply) :=
  [existT r_close [(0, "ns")]; existT (r_cancel 0) tt; existT (r_cancel 0) tt;
   existT (r_waitDone 0) (Some context_Canceled)].
Definition close_result : option error := Some (Join [OrderedViewStopTimeoutError "ns" context_Canceled]).

Theorem Close_stops_all_witness :
  exec Close close_trace close_result /\
  exists (views : list (nat * string)) (waits : list (option error)),
    close_trace = existT r_close views :: cancels views ++
      concat (zip_with stop_calls views waits).
Proof.
  assert (H : exec Close close_trace close_result).
  { exists [(0, "ns")]. eexists. split; [reflexivity|]. exists tt. eexists. split; [reflexivity|].
    exists tt. eexists. split; [reflexivity|]. exists (Some context_Canceled). eexists. split; [reflexivity|].
    split; reflexivity. }
  split; [exact H|]. destruct (Close_stops_all _ _ H) as (views & waits & _ & Ht & _). by exists views, waits.
Defined.
End sample.
End Registry.
