(* ===== verification/OrderedReader.v ===== *)
(** * The reading half of an ordered store, as it runs.

    One process's views over the logs of the server: the registry, each view's goroutine
    ([run] of ordered.go, lines 846-872, over the program [watchStream] of the seam), the
    callbacks of its subscriptions, and any number of query threads ([readyView] over the
    program [streamTip]) and [Close] calls.  Client calls, callbacks, critical sections and
    the commits of other clients interleave one by one. *)

From S2P Require Import Prelude GoText Storage Nats OrderedCodec Prog OrderedStore OrderedSeam OrderedSeamProps.
From S2P Require Import OrderedSpec OrderedRefine OrderedSafety OrderedIndex OrderedView OrderedDelivery OrderedRegistry.
Open Scope stdpp_scope.
Import Codec Store Seam Refine Safety.

Module Reader.

(** ** The state *)

(** One [Consume] callback, and what its watch was told to fail with: [failures], a channel
    of capacity one. *)
Record callback := { delivery : Delivery.subscription; reported : option error }.

(** Where a goroutine is: in [watchStream], in the backoff that follows it, or past its
    loop. *)
Inductive phase :=
  | Watching (attempt : Z) (rest : prog jreply (option error))
  | Backing (attempt : Z) (rest : prog reply (option error))
  | Leaving.

(** The callbacks of its subscriptions, the current one last: an earlier one may still
    run. *)
Record goroutine := { spec : orderedStreamSpec; stage : phase; callbacks : list callback }.

Record state := { logs : backend; reg : Registry.state; runs : gmap nat goroutine }.

Definition set_stage (p : phase) (g : goroutine) : goroutine :=
  {| spec := spec g; stage := p; callbacks := callbacks g |}.
Definition set_callback (k : nat) (cb : callback) (g : goroutine) : goroutine :=
  {| spec := spec g; stage := stage g; callbacks := <[k := cb]> (callbacks g) |}.
Definition set_logs (b : backend) (s : state) : state := {| logs := b; reg := reg s; runs := runs s |}.
Definition set_reg (r : Registry.state) (s : state) : state := {| logs := logs s; reg := r; runs := runs s |}.
(** The instance [id] and its goroutine. *)
Definition update (id : nat) (g : goroutine) (i : Registry.instance) (s : state) : state :=
  {| logs := logs s; reg := Registry.set_instance id i (reg s); runs := <[id := g]> (runs s) |}.

(** How a context ends. *)
Definition ctx_error (e : error) : Prop := e = context_Canceled \/ e = context_DeadlineExceeded.

Section reader.
Context {S : Storage} {J : JetStream}.
Context (viewRetryBase : Z).

(** [view.start()]: the goroutine enters its loop. *)
Definition start_run (sp : orderedStreamSpec) : goroutine :=
  {| spec := sp; stage := Watching 0 (watchStream sp); callbacks := [] |}.

(** The goroutine is started under the mutex that registers its view. *)
Definition acquire (namespace : string) (s : state) : res (nat * bool) * state :=
  let (r, reg') := Registry.acquireView namespace (reg s) in
  (r, {| logs := logs s; reg := reg';
         runs := match r, Registry.orderedNamespaceSpec namespace with
                 | Ok (id, true), Ok sp => <[id := start_run sp]> (runs s)
                 | _, _ => runs s
                 end |}).

(** ** The goroutine *)

(** What the package relies on of the calls that read the server. *)
Definition net_reply (b : backend) (c : jcall) : jreply c -> Prop :=
  match c as c0 return jreply c0 -> Prop with
  | js_Stream n => SeamProps.stream_reply n (log_of b n)
  | stream_CachedInfo h => fun r => r = h_info h
  | _ => fun _ => True
  end.

(** A watch ends with its context, when the consumer closes, or with what a callback
    reported. *)
Definition watch_reply (b : backend) (v : View.orderedView) (cbs : list callback) (c : jcall) : jreply c -> Prop :=
  match c as c0 return jreply c0 -> Prop with
  | watch_select => fun r =>
      match r with
      | WatchDone => View.cancelled v = true
      | WatchClosed => True
      | WatchFailed e => exists cb, last cbs = Some cb /\ reported cb = Some e
      end
  | c0 => net_reply b c0
  end.

(** A subscription begins. *)
Definition consumed (c : jcall) : jreply c -> list callback -> list callback :=
  match c as c0 return jreply c0 -> list callback -> list callback with
  | consumer_Consume => fun r cbs =>
      match r with None => cbs ++ [{| delivery := Delivery.Idle 0; reported := None |}] | Some _ => cbs end
  | _ => fun _ cbs => cbs
  end.

(** The timer and the entropy source: a wait ends early only with the context. *)
Definition backoff_reply (v : View.orderedView) (e : event) : reply e -> Prop :=
  match e as e0 return reply e0 -> Prop with
  | randomUint64 => fun r => u64 r
  | sleep _ => fun r => match r with None => True | Some err => View.cancelled v = true /\ ctx_error err end
  | _ => fun _ => True
  end.

(** The body of [run]'s loop, once the watch has ended, *)
Definition after_watch (attempt : Z) (err : option error) (v : View.orderedView) : phase * View.orderedView :=
  match Registry.run_turn attempt err (View.cancelled v) with
  | Registry.RunExit => (Leaving, v)
  | Registry.RunFatal e => (Leaving, View.setFatal e v)
  | Registry.RunBackoff attempt =>
      (Backing attempt (orderedBackoff viewRetryBase (attempt - 1) orderedViewRetryMaxShift), v)
  end.

(** and once the backoff has. *)
Definition after_backoff (attempt : Z) (waitErr : option error) (sp : orderedStreamSpec) (v : View.orderedView) : phase :=
  match waitErr with
  | Some _ => Leaving
  | None => if View.cancelled v then Leaving else Watching attempt (watchStream sp)
  end.

(** One step of the goroutine [id]. *)
Inductive own_step (id : nat) (s : state) : state -> Prop :=
  | own_call g i attempt c k r :
      runs s !! id = Some g -> Registry.instances (reg s) !! id = Some i -> stage g = Watching attempt (Vis c k) ->
      watch_reply (logs s) (Registry.view i) (callbacks g) c r ->
      own_step id s (update id {| spec := spec g; stage := Watching attempt (k r);
                                  callbacks := consumed c r (callbacks g) |} i s)
  | own_turn g i attempt err :
      runs s !! id = Some g -> Registry.instances (reg s) !! id = Some i -> stage g = Watching attempt (Ret err) ->
      let turn := after_watch attempt err (Registry.view i) in
      own_step id s (update id (set_stage turn.1 g) (Registry.with_view i turn.2) s)
  | own_wait g i attempt e k r :
      runs s !! id = Some g -> Registry.instances (reg s) !! id = Some i -> stage g = Backing attempt (Vis e k) ->
      backoff_reply (Registry.view i) e r ->
      own_step id s (update id (set_stage (Backing attempt (k r)) g) i s)
  | own_resume g i attempt waitErr :
      runs s !! id = Some g -> Registry.instances (reg s) !! id = Some i -> stage g = Backing attempt (Ret waitErr) ->
      own_step id s (update id (set_stage (after_backoff attempt waitErr (spec g) (Registry.view i)) g) i s)
  (* [defer close(v.done)] *)
  | own_exit g i :
      runs s !! id = Some g -> Registry.instances (reg s) !! id = Some i -> stage g = Leaving -> Registry.done i = false ->
      own_step id s (update id g {| Registry.view := Registry.view i; Registry.done := true |} s).

(** The goroutines and the callbacks.  A callback is handed JetStream messages, whose
    metadata parse; the error handler of [Consume] may report at any time. *)
Inductive local_step (s : state) : state -> Prop :=
  | local_own id s' : own_step id s s' -> local_step s s'
  | local_fold id g i k cb c n m subject seq data w folded :
      runs s !! id = Some g -> Registry.instances (reg s) !! id = Some i -> callbacks g !! k = Some cb ->
      delivery cb = Delivery.Idle c -> c <= n -> log_of (logs s) (stream (spec g)) !! n = Some m ->
      (forall j, c <= j < n -> ~ Delivery.is_head (log_of (logs s) (stream (spec g))) j) ->
      watch_handler (spec g) (Ok (N.of_nat (Datatypes.S n))) m.1 m.2 = inl (subject, seq, data) ->
      View.foldMessage subject data (Registry.view i) = (w, folded) ->
      local_step s (update id (set_callback k
        {| delivery := if folded then Delivery.Busy c n else Delivery.Idle (Datatypes.S n); reported := reported cb |} g)
        (Registry.with_view i w) s)
  | local_advance id g i k cb c n :
      runs s !! id = Some g -> Registry.instances (reg s) !! id = Some i -> callbacks g !! k = Some cb ->
      delivery cb = Delivery.Busy c n ->
      local_step s (update id (set_callback k {| delivery := Delivery.Idle (Datatypes.S n); reported := reported cb |} g)
        (Registry.with_view i (View.advance (N.of_nat (Datatypes.S n)) (Registry.view i))) s)
  | local_report id g i k cb cause :
      runs s !! id = Some g -> Registry.instances (reg s) !! id = Some i -> callbacks g !! k = Some cb ->
      reported cb = None ->
      local_step s (update id (set_callback k
        {| delivery := delivery cb; reported := Some (OrderedStreamOpError (stream (spec g)) "watch" cause) |} g) i s).

(** With the commits of other clients. *)
Inductive env_step (s : state) : state -> Prop :=
  | env_commit b : guar (logs s) b -> env_step s (set_logs b s)
  | env_local s' : local_step s s' -> env_step s s'.

(** ** The queries *)

(** A critical section or a wait of this package, a read of a view's frozen [spec], a call of
    the client. *)
Inductive qcall :=
  | Reg (c : Registry.rcall)
  | StreamOf (id : nat)
  | Net (c : jcall).

Definition qreply (c : qcall) : Type :=
  match c with Reg c => Registry.rreply c | StreamOf _ => string | Net c => jreply c end.

Fixpoint lift {A} (p : prog jreply A) : prog qreply A :=
  match p with
  | Ret a => Ret a
  | Vis c k => Vis (Net c) (fun r => lift (k r))
  end.

(** [s.seam.streamTip(ctx, view.spec.stream)] is the seam's program. *)
Fixpoint link {A} (p : prog Registry.rreply A) : prog qreply A :=
  match p with
  | Ret a => Ret a
  | Vis c k =>
      match c as c0 return (Registry.rreply c0 -> prog Registry.rreply A) ->
                           (Registry.rreply c0 -> prog qreply A) -> prog qreply A with
      | Registry.r_streamTip id => fun _ next =>
          name <- (call (StreamOf id) : prog qreply string); tip <- lift (streamTip name); next tip
      | c0 => fun _ next => Vis (Reg c0) next
      end k (fun r => link (k r))
  end.

(** The answer of [waitBarrier] when it is given: at its last look under the lock, when the
    view has stopped, or with the caller's context (see [View.waitBarrier_answer]). *)
Definition barrier_reply (target : N) (i : Registry.instance) (answer : option error) : Prop :=
  View.barrier_poll target (Registry.view i) = Some answer \/
  Registry.done i = true /\ answer = Some (match View.fatal (Registry.view i) with
    | Some err => err
    | None => OrderedStoreClosedError (View.namespace (Registry.view i))
    end).

Definition reg_handle (c : Registry.rcall) (s : state) : Registry.rreply c -> state -> Prop :=
  match c as c0 return Registry.rreply c0 -> state -> Prop with
  | Registry.r_acquireView ns => fun r s' => acquire ns s = (r, s')
  | Registry.r_fatalError id => fun r s' => s' = s /\
      exists i, Registry.instances (reg s) !! id = Some i /\ r = View.fatal (Registry.view i)
  | Registry.r_waitDone id => fun r s' => s' = s /\
      match r with
      | None => exists i, Registry.instances (reg s) !! id = Some i /\ Registry.done i = true
      | Some e => ctx_error e
      end
  | Registry.r_retire ns id => fun r s' =>
      exists reg', Registry.retire ns id (reg s) = (r, reg') /\ s' = set_reg reg' s
  | Registry.r_streamTip _ => fun _ _ => False
  | Registry.r_waitBarrier id target => fun r s' => s' = s /\
      ((exists e, r = Some e /\ ctx_error e) \/
       exists i, Registry.instances (reg s) !! id = Some i /\ barrier_reply target i r)
  (* the map is read in any order *)
  | Registry.r_close => fun r s' => s' = set_reg (Registry.close_views (reg s)).2 s /\
      r ≡ₚ if Registry.closed (reg s) then [] else (fun x => (x.2, x.1)) <$> map_to_list (Registry.views (reg s))
  | Registry.r_cancel id => fun _ s' => exists i, Registry.instances (reg s) !! id = Some i /\
      s' = set_reg (Registry.set_instance id (Registry.with_view i (View.cancel_view (Registry.view i))) (reg s)) s
  end.

Definition qhandle (c : qcall) (s : state) : qreply c -> state -> Prop :=
  match c as c0 return qreply c0 -> state -> Prop with
  | Reg c => reg_handle c s
  | StreamOf id => fun r s' => s' = s /\ exists g, runs s !! id = Some g /\ r = stream (spec g)
  | Net c => fun r s' => s' = s /\ net_reply (logs s) c r
  end.

Inductive query := Query (namespace : string) | Closing.

Definition body (q : query) : prog qreply (res nat + option error) :=
  match q with
  | Query ns => r <- link (Registry.readyView ns); Ret (inl r)
  | Closing => r <- link Registry.Close; Ret (inr r)
  end.

(** The steps of the store alone, and among other clients. *)
Definition store_step := ipool_step (fun _ _ => qhandle) local_step body (fun _ => True).
Definition reader_step := ipool_step (fun _ _ => qhandle) env_step body (fun _ => True).

(** A store that was just opened, over a server whose logs this package has written. *)
Definition written (b : backend) : Prop :=
  forall ns st, orderedStreamName ns = Ok st -> rtc (moves ns) [] (log_of b st).
Definition opened (b : backend) : state := {| logs := b; reg := Registry.start; runs := ∅ |}.

End reader.
End Reader.
