(* ===== verification/OrderedReaderProps.v ===== *)
(** * What the reading half guarantees.

    Every view a reader holds follows its stream as [OrderedDelivery] says; a query that
    returns a view has passed everything stored before it was called; a goroutine whose
    context has ended leaves within a bounded number of its own steps. *)

From S2P Require Import Prelude GoText Storage Nats OrderedCodec Prog OrderedStore OrderedSeam OrderedSeamProps.
From S2P Require Import OrderedSpec OrderedRefine OrderedSafety OrderedIndex OrderedView OrderedList OrderedDelivery OrderedEndToEnd.
From S2P Require Import OrderedProps OrderedLinked OrderedRegistry OrderedReader.
Open Scope stdpp_scope.
Import Codec Store Seam Refine Safety Index Reader.

Module ReaderProps.

Section reader.
Context {S : Storage} {L : StorageLaws S} {J : JetStream}.
Context (viewRetryBase : Z).
Notation own_step := (own_step viewRetryBase).
Notation local_step := (local_step viewRetryBase).
Notation env_step := (env_step viewRetryBase).
Notation reader_step := (reader_step viewRetryBase).

(** ** The invariant *)

(** What the subscription of an instance sees. *)
Definition followed (b : backend) (g : goroutine) (i : Registry.instance) : Delivery.state :=
  {| Delivery.stream_log := log_of b (stream (spec g)); Delivery.subs := delivery <$> callbacks g;
     Delivery.view_of := Registry.view i |}.

(** A backoff fails only with the goroutine's context. *)
Fixpoint waits (v : View.orderedView) (p : prog reply (option error)) : Prop :=
  match p with
  | Ret w => w <> None -> View.cancelled v = true
  | Vis e k => forall r, backoff_reply v e r -> waits v (k r)
  end.

(** How many calls a stage may still make; a goroutine past its loop has no context left. *)
Definition stage_ok (g : goroutine) (i : Registry.instance) : Prop :=
  match stage g with
  | Watching _ p => at_most (fun _ => true) 8 p /\ Registry.done i = false
  | Backing _ p => at_most (fun _ => true) 2 p /\ waits (Registry.view i) p /\ Registry.done i = false
  | Leaving => View.cancelled (Registry.view i) = true
  end.

Definition run_ok (b : backend) (g : goroutine) (i : Registry.instance) : Prop :=
  let ns := View.namespace (Registry.view i) in
  Registry.orderedNamespaceSpec ns = Ok (spec g) /\
  rtc (Delivery.step ns) (Delivery.start ns) (followed b g i) /\ stage_ok g i.

Record inv (s : state) : Prop := {
  v_registry : rtc Registry.step Registry.start (reg s);
  v_written : written (logs s);
  v_runs id i : Registry.instances (reg s) !! id = Some i -> exists g, runs s !! id = Some g /\ run_ok (logs s) g i }.

(** What everybody guarantees, and relies on. *)
Definition evolves (s s' : state) : Prop :=
  rely (logs s) (logs s') /\ (inv s -> inv s' /\ rtc Registry.step (reg s) (reg s')).

#[export] Instance evolves_refl : Reflexive evolves.
Proof. by intros s. Qed.
#[export] Instance evolves_trans : Transitive evolves.
Proof.
  intros s1 s2 s3 [R1 I1] [R2 I2]. split; [by etrans|]. intros (H1 & G1)%I1. apply I2 in H1 as [H2 G2].
  split; [done|by etrans].
Qed.

Lemma namespace_stream ns sp : Registry.orderedNamespaceSpec ns = Ok sp -> orderedStreamName ns = Ok (stream sp).
Proof.
  unfold Registry.orderedNamespaceSpec. destruct (orderedStreamName ns) as [st|]; [|done].
  destruct (orderedSubjectFilter ns); [|done]. by intros [= <-].
Qed.

Lemma written_rely b b' : written b -> rely b b' -> written b'.
Proof. intros Hb Hr ns st Hst. etrans; [by apply Hb|by apply rely_moves]. Qed.

(** ** Steps of the registry and of an instance *)

(** The registry moves, its instances as they were. *)
Lemma evolves_reg s reg' :
  (inv s -> rtc Registry.step (reg s) reg') -> Registry.instances reg' = Registry.instances (reg s) ->
  evolves s (set_reg reg' s).
Proof.
  intros Hr Hi. split; [done|]. intros Hinv. specialize (Hr Hinv). split; [|done].
  destruct Hinv as [H1 H2 H3]. split; cbn; [by etrans|done|]. by rewrite Hi.
Qed.

(** An instance and its goroutine move. *)
Lemma evolves_update id g g' i i' s :
  runs s !! id = Some g -> Registry.instances (reg s) !! id = Some i ->
  (rtc Registry.step Registry.start (reg s) -> stage_ok g i ->
   rtc Registry.step (reg s) (Registry.set_instance id i' (reg s))) ->
  spec g' = spec g -> View.namespace (Registry.view i') = View.namespace (Registry.view i) ->
  (Registry.orderedNamespaceSpec (View.namespace (Registry.view i)) = Ok (spec g) ->
   rtc (Delivery.step (View.namespace (Registry.view i))) (followed (logs s) g i) (followed (logs s) g' i')) ->
  (stage_ok g i -> stage_ok g' i') ->
  evolves s (update id g' i' s).
Proof.
  intros Hg Hi Hreg Hsp Hns Hd Hst. split; [done|]. intros [H1 H2 H3].
  destruct (H3 _ _ Hi) as (g0 & Hg0 & Hspec & Hreach & Hok). assert (g0 = g) as -> by congruence.
  specialize (Hreg H1 Hok). split; [|done]. split; cbn; [by etrans|done|].
  intros x j [[<- <-]|[Hne Hj]]%lookup_insert_Some.
  - exists g'. rewrite lookup_insert_eq. split; [done|]. unfold run_ok. rewrite Hns, Hsp.
    split_and!; [done| |by apply Hst]. etrans; [exact Hreach|by apply Hd].
  - rewrite lookup_insert_ne by done. by apply H3.
Qed.

Lemma with_view_same i : Registry.with_view i (Registry.view i) = i.
Proof. by destruct i. Qed.

Lemma set_instance_same id i r : Registry.instances r !! id = Some i -> Registry.set_instance id i r = r.
Proof. intros H. destruct r as [c vs ins st]. unfold Registry.set_instance. cbn in *. by rewrite insert_id. Qed.

(** The goroutine moves by itself. *)
Lemma evolves_goroutine id g g' i s :
  runs s !! id = Some g -> Registry.instances (reg s) !! id = Some i -> spec g' = spec g ->
  rtc (Delivery.step (View.namespace (Registry.view i))) (followed (logs s) g i) (followed (logs s) g' i) ->
  (stage_ok g i -> stage_ok g' i) -> evolves s (update id g' i s).
Proof.
  intros Hg Hi Hsp Hd Hst. apply (evolves_update id g g' i i); try done. intros _ _.
  by rewrite set_instance_same.
Qed.

(** ** The goroutine *)

Lemma at_most_client {A} n c (k : jreply c -> prog jreply A) :
  (forall r, at_most (fun _ => true) n (k r)) -> at_most (fun _ => true) (Datatypes.S n) (bind (client c) k).
Proof. done. Qed.

Lemma release_calls {A} n h (a : A) :
  at_most (fun _ => true) (2 + n) (_ <- releaseOrderedViewConsumer h; Ret a).
Proof.
  apply (at_most_bind _ 2 n); [|by intros []]. apply at_most_client. intros [name|]; [|done]. by apply at_most_client.
Qed.

Lemma watchStream_calls sp : at_most (fun _ => true) 8 (watchStream sp).
Proof.
  unfold watchStream. apply (at_most_bind _ 1 7).
  { apply at_most_client. intros r. destruct (is_err js_ErrStreamNotFound r); [exact I|]. by destruct r. }
  intros [[h|]|e]; [|exact I..]. apply at_most_client. intros [[cfg q]|]; [|exact I].
  destruct (verifyOrderedStreamConfig sp cfg); [exact I|]. apply at_most_client. intros [e|]; [exact I|].
  apply at_most_client. intros [e|]; [apply (release_calls 2)|].
  apply at_most_client. intros fin. apply at_most_client. intros []. apply (release_calls 0).
Qed.

Lemma orderedBackoff_calls base shift maxShift : at_most (fun _ => true) 2 (orderedBackoff base shift maxShift).
Proof. unfold orderedBackoff. destruct (_ <=? _)%Z; [done|]. intros r. by intros r'. Qed.

Lemma at_most_step {E} {R : E -> Type} {A} n e (k : R e -> prog R A) r :
  at_most (fun _ => true) n (Vis e k) -> exists m, n = Datatypes.S m /\ at_most (fun _ => true) m (k r).
Proof. destruct n as [|m]; [done|]. intros H. exists m. split; [done|apply H]. Qed.

Lemma at_most_next {E} {R : E -> Type} {A} n e (k : R e -> prog R A) r :
  at_most (fun _ => true) n (Vis e k) -> at_most (fun _ => true) n (k r).
Proof. intros H. destruct (at_most_step n e k r H) as (m & -> & Hk). eapply at_most_mono; [|exact Hk]. lia. Qed.

Lemma waits_cancelled v p : View.cancelled v = true -> waits v p.
Proof. intros Hv. induction p as [w|e k IH]; cbn; auto. Qed.

Lemma waits_advances v w p : View.cancelled w = View.cancelled v \/ View.cancelled w = true -> waits v p -> waits w p.
Proof.
  intros [E|E] H; [|by apply waits_cancelled]. induction p as [x|e k IH]; cbn in *; [by rewrite E|].
  intros r Hr. apply IH, H. destruct e; try done. cbn in *. by rewrite <- E.
Qed.

Lemma orderedBackoff_waits v base shift maxShift : waits v (orderedBackoff base shift maxShift).
Proof.
  unfold orderedBackoff. destruct (_ <=? _)%Z; [by intros []|]. intros r _ [e|]; [by intros [? _] _|by intros _ []].
Qed.

Lemma consumed_follows ns b g i c r st :
  rtc (Delivery.step ns) (followed b g i)
    (followed b {| spec := spec g; stage := st; callbacks := consumed c r (callbacks g) |} i).
Proof.
  destruct c; try done. cbn. destruct r; [done|]. unfold followed. cbn. rewrite fmap_app. apply rtc_once, Delivery.step_attach.
Qed.

Lemma own_evolves id s s' : own_step id s s' -> evolves s s'.
Proof.
  intros [g i attempt c k r Hg Hi Hst Hr|g i attempt err Hg Hi Hst turn|g i attempt e k r Hg Hi Hst Hr
    |g i attempt w Hg Hi Hst|g i Hg Hi Hst Hd].
  - apply (evolves_goroutine id g); try done; [apply consumed_follows|].
    unfold stage_ok. rewrite Hst. cbn. intros [H ?]. split; [by apply (at_most_next 8 c k r)|done].
  - unfold turn, after_watch. unfold Registry.run_turn. destruct (View.cancelled (Registry.view i)) eqn:Hc; cbn [fst snd].
    { rewrite with_view_same. by apply (evolves_goroutine id g). }
    assert (Hback : forall a, evolves s (update id (set_stage (Backing a (orderedBackoff viewRetryBase (a - 1) orderedViewRetryMaxShift)) g) i s)).
    { intros a. apply (evolves_goroutine id g); try done. unfold stage_ok. rewrite Hst. cbn. intros [_ ?].
      split_and!; [apply orderedBackoff_calls|apply orderedBackoff_waits|done]. }
    destruct err as [e|]; [|rewrite with_view_same; apply Hback].
    destruct (is_config_error e) eqn:He; [|rewrite with_view_same; apply Hback].
    apply (evolves_update id g _ i); try done.
    + intros _ _. apply rtc_once. by apply Registry.step_fatal.
    + intros _. apply rtc_once. by apply Delivery.step_fatal.
  - apply (evolves_goroutine id g); try done. unfold stage_ok. rewrite Hst. cbn. intros (H & Hw & ?).
    split_and!; [by apply (at_most_next 2 e k r)|by apply Hw|done].
  - apply (evolves_goroutine id g); try done. unfold stage_ok. rewrite Hst. cbn. intros (_ & Hw & ?).
    unfold after_backoff. destruct w as [e|]; cbn; [by apply Hw|].
    destruct (View.cancelled (Registry.view i)) eqn:Hc; cbn; [done|]. split; [apply watchStream_calls|done].
  - apply (evolves_update id g _ i); try done.
    + intros _ Hok. unfold stage_ok in Hok. rewrite Hst in Hok. apply rtc_once. by apply Registry.step_exit.
    + unfold stage_ok. by rewrite Hst.
Qed.

(** ** The callbacks and the other clients *)

Lemma set_callback_subs k cb g : delivery <$> callbacks (set_callback k cb g) = <[k := delivery cb]> (delivery <$> callbacks g).
Proof. apply list_fmap_insert. Qed.

Lemma callback_sub g k cb : callbacks g !! k = Some cb -> (delivery <$> callbacks g) !! k = Some (delivery cb).
Proof. intros H. by rewrite list_lookup_fmap, H. Qed.

(** A callback's critical section on the view. *)
Lemma evolves_callback id g i k cb v s :
  runs s !! id = Some g -> Registry.instances (reg s) !! id = Some i ->
  rtc Registry.step (reg s) (Registry.set_instance id (Registry.with_view i v) (reg s)) ->
  View.advances (Registry.view i) v ->
  (Registry.orderedNamespaceSpec (View.namespace (Registry.view i)) = Ok (spec g) ->
   Delivery.step (View.namespace (Registry.view i)) (followed (logs s) g i)
     {| Delivery.stream_log := log_of (logs s) (stream (spec g));
        Delivery.subs := <[k := delivery cb]> (delivery <$> callbacks g); Delivery.view_of := v |}) ->
  evolves s (update id (set_callback k cb g) (Registry.with_view i v) s).
Proof.
  intros Hg Hi Hreg (Hns & _ & _ & Hc) Hd. apply (evolves_update id g _ i); try done.
  - intros Hsp. apply rtc_once. unfold followed at 2. rewrite set_callback_subs. by apply Hd.
  - unfold stage_ok. cbn. destruct (stage g); [done| |by apply Hc].
    intros (? & Hw & ?). split_and!; [done| |done]. eapply waits_advances; [|exact Hw].
    destruct (View.cancelled (Registry.view i)); [right; by apply Hc|]. destruct (View.cancelled v); [by right|by left].
Qed.

Lemma local_evolves s s' : local_step s s' -> evolves s s'.
Proof.
  intros [id s1 Ho|id g i k cb c n m subj seq dat w b Hg Hi Hk Hc Hcn Hm Hskip Hh Hf
    |id g i k cb c n Hg Hi Hk Hc|id g i k cb cause Hg Hi Hk Hr].
  - by eapply own_evolves.
  - cbn in Hh. injection Hh as <- _ <-.
    apply evolves_callback; try done.
    + replace w with (View.foldMessage m.1 m.2 (Registry.view i)).1 by by rewrite Hf.
      apply rtc_once. by apply Registry.step_fold.
    + pose proof (View.foldMessage_fields m.1 m.2 (Registry.view i)) as (_ & _ & H). by rewrite Hf in H.
    + intros _. pose proof (Delivery.step_fold (View.namespace (Registry.view i)) (log_of (logs s) (stream (spec g)))
        (delivery <$> callbacks g) (Registry.view i) k c n m w b) as H. cbn [delivery].
      apply H; try done. by rewrite <- Hc; apply callback_sub.
  - apply evolves_callback; try done.
    + apply rtc_once. by apply Registry.step_advance.
    + apply View.advance_advances.
    + intros _. apply Delivery.step_advance with (c := c). rewrite <- Hc. by apply callback_sub.
  - apply (evolves_goroutine id g); try done. unfold followed. rewrite set_callback_subs.
    cbn [delivery spec set_callback]. rewrite list_insert_id by (by apply callback_sub). constructor.
Qed.

Lemma env_evolves s s' : env_step s s' -> evolves s s'.
Proof.
  intros [b Hb|s1 Hl]; [|by apply local_evolves].
  assert (Hr : rely (logs s) b) by by apply rtc_once. split; [done|]. intros [H1 H2 H3]. split; [|done].
  split; [done|by eapply written_rely|]. intros id i Hi. destruct (H3 id i Hi) as (g & Hg & Hsp & Hd & Hst).
  exists g. split; [done|]. split_and!; [done| |done]. etrans; [exact Hd|].
  apply Delivery.moves_delivery, rely_moves; [done|]. by apply namespace_stream in Hsp.
Qed.

(** ** The queries' calls *)

Lemma evolves_inst s s' id i : evolves s s' -> inv s -> Registry.instances (reg s) !! id = Some i ->
  exists i', Registry.instances (reg s') !! id = Some i' /\ Registry.grows i i'.
Proof. intros [_ H] Hinv Hi. destruct (H Hinv) as [_ Hr]. by apply (Registry.steps_grow _ _ _ _ Hr). Qed.

Lemma evolves_inv s s' : evolves s s' -> inv s -> inv s'.
Proof. intros [_ H] Hinv. by apply H. Qed.

(** The instance [id] is a view of [ns]. *)
Definition has (s : state) (id : nat) (ns : string) : Prop :=
  exists i, Registry.instances (reg s) !! id = Some i /\ View.namespace (Registry.view i) = ns.

Lemma has_evolves s s' id ns : evolves s s' -> inv s -> has s id ns -> has s' id ns.
Proof.
  intros He Hinv (i & Hi & Hn). destruct (evolves_inst _ _ _ _ He Hinv Hi) as (i' & Hi' & (Hv & _) & _).
  exists i'. split; [done|congruence].
Qed.

Lemma acquire_evolves ns s r s' : acquire ns s = (r, s') ->
  evolves s s' /\ (inv s -> forall id c, r = Ok (id, c) -> has s' id ns).
Proof.
  intros H. unfold acquire in H. destruct (Registry.acquireView ns (reg s)) as [r0 reg'] eqn:Ha. injection H as <- <-.
  pose proof Ha as Ha0. unfold Registry.acquireView in Ha.
  destruct (Registry.orderedNamespaceSpec ns) as [sp|e] eqn:Hsp; [|injection Ha as <- <-; by destruct s].
  destruct (Registry.closed (reg s)); [injection Ha as <- <-; by destruct s|].
  destruct (Registry.views (reg s) !! ns) as [id|] eqn:Hv.
  - injection Ha as <- <-. assert (E : {| logs := logs s; reg := reg s; runs := runs s |} = s) by by destruct s.
    rewrite E. split; [done|]. intros [H1 _ _] id' c [= <- <-].
    apply (Registry.registry_reachable_inv _ _ Registry.registry_start_inv) in H1.
    destruct (Registry.i_registered _ H1 _ _ Hv) as (i & Hi & Hn). by exists i.
  - injection Ha as <- <-. set (id := fresh (dom (Registry.instances (reg s)))).
    split; [|intros _ id' c [= <- <-]; eexists; cbn; by rewrite lookup_insert_eq].
    split; [done|]. intros [H1 H2 H3].
    assert (Hst : rtc Registry.step (reg s) _) by by eapply rtc_once, Registry.step_acquire.
    split; [|exact Hst]. split; cbn; [by etrans|done|].
    intros x j [[<- <-]|[Hne Hj]]%lookup_insert_Some.
    + exists (start_run sp). rewrite lookup_insert_eq. split; [done|]. split_and!; [done| |split; [apply watchStream_calls|done]].
      apply (Delivery.moves_delivery ns [] _ []), H2. by apply namespace_stream in Hsp.
    + rewrite lookup_insert_ne by done. by apply H3.
Qed.

Lemma cancel_evolves s id i : Registry.instances (reg s) !! id = Some i ->
  evolves s (set_reg (Registry.set_instance id (Registry.with_view i (View.cancel_view (Registry.view i))) (reg s)) s).
Proof.
  intros Hi. set (i' := Registry.with_view i _). split; [done|]. intros Hinv. destruct (v_runs _ Hinv _ _ Hi) as (g & Hg & _).
  assert (E : set_reg (Registry.set_instance id i' (reg s)) s = update id g i' s)
    by (unfold set_reg, update; by rewrite insert_id).
  rewrite E. apply (evolves_update id g g i i'); try done.
  - intros _ _. apply rtc_once. by apply Registry.step_cancel.
  - intros _. apply rtc_once. apply Delivery.step_cancel.
  - unfold stage_ok. destruct (stage g); [done| |done]. intros (? & Hw & ?). split_and!; [done|by apply waits_cancelled|done].
Qed.

(** ** The queries *)

Notation qwp := (wp qhandle evolves evolves).

Lemma qwp_bind_mono {A B C} (p : prog qreply A) (f : A -> prog qreply B) (g : A -> prog qreply C) Q Q' s :
  (forall a s', qwp (f a) Q s' -> qwp (g a) Q' s') -> qwp (bind p f) Q s -> qwp (bind p g) Q' s.
Proof.
  intros Hfg. revert s. induction p as [a|e k IH]; intros s; cbn [bind]; [apply Hfg|].
  intros H s1 H1 r s2 H2. destruct (H s1 H1 r s2 H2) as [Hg Hk]. split; [done|by apply IH].
Qed.

Lemma qwp_link_bind {A B} (p : prog Registry.rreply A) (f : A -> prog Registry.rreply B) Q s :
  qwp (link p) (fun a s' => qwp (link (f a)) Q s') s -> qwp (link (bind p f)) Q s.
Proof.
  revert s. induction p as [a|c k IH]; intros s H; [by apply H|].
  destruct c; try (intros s1 H1 r s2 H2; destruct (H s1 H1 r s2 H2) as [Hg Hk]; split; [exact Hg|by apply IH]).
  apply (qwp_bind_mono (call (StreamOf id) : prog qreply string) (fun name => bind (lift (streamTip name)) (fun tip => link (k tip)))
    (fun name => bind (lift (streamTip name)) (fun tip => link (bind (k tip) f))) (fun a s' => qwp (link (f a)) Q s')); [|exact H].
  intros name s1. apply (qwp_bind_mono (lift (streamTip name)) (fun tip => link (k tip)) (fun tip => link (bind (k tip) f))).
  intros r s2. apply IH.
Qed.

(** One call of the registry. *)
Lemma qwp_reg {A} c (k : Registry.rreply c -> prog Registry.rreply A) Q s :
  Registry.is_tip c = false ->
  (forall s1 r s2, evolves s s1 -> reg_handle c s1 r s2 -> evolves s1 s2 /\ qwp (link (k r)) Q s2) ->
  qwp (link (bind (Registry.rdo c) k)) Q s.
Proof. intros Hc H. destruct c; try done; intros s1 H1 r s2 H2; by apply H. Qed.

(** A call that leaves the state as it is. *)
Lemma qwp_look {A} c (k : Registry.rreply c -> prog Registry.rreply A) Q s :
  match c with Registry.r_fatalError _ | Registry.r_waitDone _ | Registry.r_waitBarrier _ _ => True | _ => False end ->
  (forall s1 r, evolves s s1 -> reg_handle c s1 r s1 -> qwp (link (k r)) Q s1) ->
  qwp (link (bind (Registry.rdo c) k)) Q s.
Proof.
  intros Hc H. destruct c; try done; intros s1 H1 r s2 H2; (assert (s2 = s1) as -> by apply H2);
    (split; [reflexivity|by apply H]).
Qed.

(** The tip, read in two calls of the client at some moment of the query. *)
Lemma qwp_tip {A} id ns (k : res N -> prog Registry.rreply A) Q s :
  inv s -> has s id ns ->
  (forall r s', evolves s s' -> (forall t st, r = Ok t -> orderedStreamName ns = Ok st ->
     length (log_of (logs s) st) <= N.to_nat t) -> qwp (link (k r)) Q s') ->
  qwp (link (bind (Registry.rdo (Registry.r_streamTip id)) k)) Q s.
Proof.
  intros Hinv Hhas Hk s1 H1 name s2 [-> (g & Hg & ->)]. split; [reflexivity|].
  pose proof (evolves_inv _ _ H1 Hinv) as Hinv1. destruct (has_evolves _ _ _ _ H1 Hinv Hhas) as (i & Hi & Hn).
  destruct (v_runs _ Hinv1 _ _ Hi) as (g' & Hg' & Hsp & _). assert (g' = g) as -> by congruence.
  rewrite Hn in Hsp. apply namespace_stream in Hsp.
  intros s3 H3 r s4 [-> [_ Hr]]. split; [reflexivity|]. assert (H3' : evolves s s3) by by etrans.
  assert (Hlen : forall s5, evolves s s5 -> length (log_of (logs s) (stream (spec g))) <= length (log_of (logs s5) (stream (spec g)))).
  { intros s5 [Hrel _]. by eapply prefix_length, moves_prefix, rely_moves. }
  assert (Hout : forall s5 out, evolves s s5 -> (forall t, out = Ok t -> length (log_of (logs s) (stream (spec g))) <= N.to_nat t) ->
    qwp (link (k out)) Q s5).
  { intros s5 out H5 Ht. apply Hk; [done|]. intros t st Eo Est. assert (st = stream (spec g)) as -> by congruence. by apply Ht. }
  destruct r as [h|e].
  - intros s5 H5 info s6 [-> Hinfo]. cbn in Hinfo. split; [reflexivity|]. assert (H5' : evolves s s5) by by etrans.
    destruct Hr as [_ Hio]. unfold SeamProps.info_of in Hio. rewrite <- Hinfo in Hio.
    destruct info as [[cfg q]|]; apply Hout; try done. intros t [= <-]. rewrite Hio, Nat2N.id. by apply Hlen.
  - cbn [bind is_err]. destruct (is_nats js_ErrStreamNotFound e); apply Hout; try done.
    intros t [= <-]. specialize (Hlen s3 H3'). by rewrite Hr in Hlen.
Qed.

Lemma qwp_evict ns id err Q s :
  inv s -> has s id ns ->
  (is_config_error err = true ->
   exists i, Registry.instances (reg s) !! id = Some i /\ View.fatal (Registry.view i) = Some err) ->
  (forall r s', evolves s s' -> Q r s') -> qwp (link (Registry.evictRepairableFatal ns id err)) Q s.
Proof.
  intros Hinv Hhas Hf HQ. unfold Registry.evictRepairableFatal.
  destruct (is_config_error err) eqn:Hc; cbn [negb]; [|intros s' H'; by apply HQ].
  destruct (Hf eq_refl) as (i & Hi & Hfi). apply qwp_look; [done|]. intros s1 r H1 [_ Hr].
  destruct r as [e|]; [intros s' H'; apply HQ; by etrans|].
  destruct Hr as (i1 & Hi1 & Hd1). apply qwp_reg; [done|]. intros s2 r s3 H2 (reg' & Hret & ->).
  assert (Hinv1 : inv s1) by by eapply evolves_inv.
  destruct (evolves_inst _ _ _ _ H2 Hinv1 Hi1) as (i2 & Hi2 & _ & Hd2).
  assert (H2' : evolves s s2) by by etrans.
  destruct (evolves_inst _ _ _ _ H2' Hinv Hi) as (i2' & Hi2' & (Hn & _ & Hfat & _) & _).
  assert (i2' = i2) as -> by congruence.
  assert (Hns : View.namespace (Registry.view i2) = ns).
  { destruct Hhas as (i0 & Hi0 & <-). assert (i0 = i) as -> by congruence. done. }
  assert (He : evolves s2 (set_reg reg' s2)).
  { apply evolves_reg.
    - intros _. apply rtc_once. eapply (Registry.step_retire _ ns id i2 err); [exact Hi2|done|by apply Hfat|done|by apply Hd2|exact Hret].
    - unfold Registry.retire in Hret. destruct (decide _); by injection Hret as _ <-. }
  split; [done|]. intros s' H'. apply HQ. by repeat (etrans; [eassumption|]).
Qed.

(** A returned view is one of [ns] that has passed every log of [ns] as it was in [b]. *)
Definition ready (ns : string) (b : backend) (r : res nat) (s : state) : Prop :=
  forall id, r = Ok id -> exists i, Registry.instances (reg s) !! id = Some i /\ View.namespace (Registry.view i) = ns /\
    forall st, orderedStreamName ns = Ok st -> length (log_of b st) <= N.to_nat (View.watermark (Registry.view i)).

Lemma ready_err ns b e s : ready ns b (Err e) s.
Proof. done. Qed.

(** The end of a turn that failed. *)
Lemma qwp_refused ns id err b s :
  inv s -> has s id ns ->
  (is_config_error err = true ->
   exists i, Registry.instances (reg s) !! id = Some i /\ View.fatal (Registry.view i) = Some err) ->
  qwp (link (_ <-! Registry.evictRepairableFatal ns id err; Ret (A := res nat) (Err err))) (ready ns b) s.
Proof.
  intros Hinv Hhas Hf. apply qwp_link_bind, qwp_evict; [done..|]. intros [o|e] s' _; intros s'' _; apply ready_err.
Qed.

Lemma qwp_barrier_half ns id b s :
  inv s -> has s id ns -> rely b (logs s) ->
  qwp (link (tip <-! Registry.rdo (Registry.r_streamTip id);
    waited <- Registry.rdo (Registry.r_waitBarrier id tip);
    match waited with
    | Some err => _ <-! Registry.evictRepairableFatal ns id err; Ret (A := res nat) (Err err)
    | None => Ret (Ok id)
    end)) (ready ns b) s.
Proof.
  intros Hinv Hhas Hb. apply (qwp_tip id ns); [done..|]. intros [t|e] s1 H1 Ht; [|intros s' _; apply ready_err].
  assert (Hinv1 : inv s1) by by eapply evolves_inv. pose proof (has_evolves _ _ _ _ H1 Hinv Hhas) as Hhas1.
  apply qwp_look; [done|]. intros s2 r H2 [_ Hr].
  assert (Hinv2 : inv s2) by by eapply evolves_inv. pose proof (has_evolves _ _ _ _ H2 Hinv1 Hhas1) as Hhas2.
  destruct r as [err|].
  - apply qwp_refused; [done..|]. intros Hc.
    destruct Hr as [(e & [= ->] & [->| ->])|(i & Hi & [Hp|[_ [= ->]]])]; [done..| |].
    + apply View.barrier_poll_answer in Hp. by exists i.
    + exists i. split; [done|]. by destruct (View.fatal (Registry.view i)).
  - destruct Hr as [(e & [=] & _)|(i & Hi & [Hp|[_ [=]]])]. apply View.barrier_poll_answer in Hp as [_ Hw].
    intros s3 H3 id' [= <-]. destruct (evolves_inst _ _ _ _ H3 Hinv2 Hi) as (i3 & Hi3 & (Hn & Hwm & _) & _).
    destruct Hhas2 as (i' & Hi' & Hns). assert (i' = i) as -> by congruence.
    exists i3. split_and!; [done|congruence|]. intros st Hst. specialize (Ht t st eq_refl Hst).
    assert (length (log_of b st) <= length (log_of (logs s) st)) by (by eapply prefix_length, moves_prefix, rely_moves).
    lia.
Qed.

Lemma qwp_ready_loop left ns id created b s :
  inv s -> has s id ns -> rely b (logs s) -> qwp (link (Registry.ready_loop left ns id created)) (ready ns b) s.
Proof.
  revert id created s. induction left as [|left IH]; intros id created s Hinv Hhas Hb; cbn [Registry.ready_loop];
    apply qwp_look; try done; intros s1 r H1 [_ (i & Hi & ->)];
    (assert (Hinv1 : inv s1) by by eapply evolves_inv); pose proof (has_evolves _ _ _ _ H1 Hinv Hhas) as Hhas1;
    (assert (Hb1 : rely b (logs s1)) by (etrans; [exact Hb|apply H1]));
    (destruct (View.fatal (Registry.view i)) as [err|] eqn:Hf; [|by apply qwp_barrier_half]).
  { intros s' _. apply ready_err. }
  destruct (negb created); [|intros s' _; apply ready_err].
  apply qwp_link_bind, qwp_evict; [done..|by exists i|]. intros out s2 H2.
  assert (Hinv2 : inv s2) by by eapply evolves_inv.
  assert (Hagain : qwp (link ('(id', created') <-! Registry.rdo (Registry.r_acquireView ns);
    Registry.ready_loop left ns id' created')) (ready ns b) s2).
  { apply qwp_reg; [done|]. intros s3 r s4 H3 Hacq. destruct (acquire_evolves _ _ _ _ Hacq) as [He Hnew].
    split; [done|]. assert (Hinv3 : inv s3) by by eapply evolves_inv.
    destruct r as [[id' c']|e]; [|intros s' _; apply ready_err].
    apply IH; [by eapply evolves_inv|by eapply Hnew|]. repeat (etrans; [eassumption|]). etrans; [apply H2|]. etrans; [apply H3|apply He]. }
  destruct out as [[]|e]; try exact Hagain; intros s' _; apply ready_err.
Qed.

Lemma qwp_readyView ns s : inv s -> qwp (link (Registry.readyView ns)) (ready ns (logs s)) s.
Proof.
  intros Hinv. unfold Registry.readyView. apply qwp_reg; [done|]. intros s1 r s2 H1 Hacq.
  destruct (acquire_evolves _ _ _ _ Hacq) as [He Hnew]. split; [done|]. assert (Hinv1 : inv s1) by by eapply evolves_inv.
  destruct r as [[id c]|e]; [|intros s' _; apply ready_err].
  apply qwp_ready_loop; [by eapply evolves_inv|by eapply Hnew|]. etrans; [apply H1|apply He].
Qed.

(** [Close] makes steps of the registry. *)
Definition closing_call (c : Registry.rcall) : Prop :=
  match c with Registry.r_close | Registry.r_cancel _ | Registry.r_waitDone _ => True | _ => False end.

Lemma reg_evolves c s r s' :
  closing_call c -> reg_handle c s r s' -> evolves s s'.
Proof.
  destruct c; try done; intros _ H.
  - by destruct H as [-> _].
  - destruct H as [-> _]. apply evolves_reg.
    + intros _. apply rtc_once. by eapply Registry.step_close, surjective_pairing.
    + unfold Registry.close_views. by destruct (Registry.closed (reg s)).
  - destruct H as (i & Hi & ->). by apply cancel_evolves.
Qed.

Lemma qwp_closing {A} (p : prog Registry.rreply A) s :
  every (fun _ _ => True) closing_call p -> qwp (link p) (fun _ _ => True) s.
Proof.
  revert s. induction p as [a|c k IH]; intros s H; [by intros s' _|]. destruct H as [Hc Hk].
  assert (Hstep : forall s1, evolves s s1 -> forall r s2, reg_handle c s1 r s2 -> evolves s1 s2 /\ qwp (link (k r)) (fun _ _ => True) s2)
    by (intros s1 _ r s2 Hh; split; [by eapply reg_evolves|by apply IH, Hk]).
  destruct c; try done; exact Hstep.
Qed.

Lemma Close_calls : every (fun _ _ => True) closing_call Registry.Close.
Proof.
  assert (Hcancel : forall views, every (fun _ _ => True) closing_call (Registry.cancel_all views))
    by (induction views as [|v vs IH]; cbn; auto).
  assert (Hstop : forall views errs, every (fun _ _ => True) closing_call (Registry.stop_all views errs))
    by (induction views as [|v vs IH]; intros errs; cbn; auto 6).
  split; [done|]. intros views _. apply (every_bind _ _ (Registry.cancel_all views)); [apply Hcancel|]. intros _.
  by apply every_bind; [apply Hstop|].
Qed.

(** What each thread promises. *)
Definition promised (_ : nat) (q : query) (s1 : state) (out : res nat + option error) (s : state) : Prop :=
  evolves s1 s /\ match q, out with Query ns, inl r => ready ns (logs s1) r s | _, _ => True end.

Lemma qwp_evolves {A} (p : prog qreply A) Q s0 s : evolves s0 s -> qwp p Q s -> qwp p (fun a s' => evolves s0 s' /\ Q a s') s.
Proof.
  revert s. induction p as [a|c k IH]; intros s H0 H.
  - intros s' H'. split; [by etrans|by apply H].
  - intros s1 H1 r s2 H2. destruct (H s1 H1 r s2 H2) as [Hg Hk]. split; [done|]. apply IH; [|done].
    etrans; [exact H0|]. by etrans.
Qed.

Lemma body_promised q s : inv s -> qwp (body q) (promised 0 q s) s.
Proof.
  intros Hinv. apply qwp_evolves; [reflexivity|]. destruct q as [ns|]; cbn [body].
  - apply wp_bind; try apply _. eapply wp_mono; [by apply qwp_evolves, qwp_readyView|]. intros r s1 [H1 Hr] s2 H2 id E.
    assert (Hinv1 : inv s1) by by eapply evolves_inv. cbn in E. destruct (Hr id ltac:(congruence)) as (i & Hi & Hn & Hlen).
    destruct (evolves_inst _ _ _ _ H2 Hinv1 Hi) as (i2 & Hi2 & (Hn2 & Hw & _) & _). exists i2.
    split_and!; [done|congruence|]. intros st Hst. specialize (Hlen st Hst). lia.
  - apply wp_bind; try apply _. eapply wp_mono; [apply qwp_closing, Close_calls|]. by intros r s1 _ s2 _.
Qed.

(** ** Every schedule *)

(** What the store does alone, it does among others. *)
Lemma stores_step c c' : rtc (store_step viewRetryBase) c c' -> rtc reader_step c c'.
Proof.
  intros H. induction H as [|c c1 c2 Hs _ IH]; [done|]. eapply rtc_l; [|exact IH].
  destruct Hs; [by econstructor|by constructor|by apply ipool_env, env_local].
Qed.

Lemma store_logs c c' : store_step viewRetryBase c c' -> logs c'.2 = logs c.2.
Proof.
  intros [ts s i q s1 p p' s' Hi Hp|ts s q Hq|ts s s' Hl]; cbn; [|done|].
  - destruct p as [|c0 k]; [done|]. destruct Hp as (r & Hh & _). destruct c0 as [c0| |]; [|by destruct Hh as [-> _]..].
    destruct c0; try (by destruct Hh as [-> _]); try done.
    + cbn in Hh. unfold acquire in Hh. destruct (Registry.acquireView _ _). by injection Hh as _ <-.
    + by destruct Hh as (reg' & _ & ->).
    + by destruct Hh as (j & _ & ->).
  - destruct Hl as [id s1 Ho| | |]; [|done..]. by destruct Ho.
Qed.

Lemma opened_inv b : written b -> inv (opened b).
Proof. intros Hb. split; [constructor|done|]. intros id i. cbn. by rewrite lookup_empty. Qed.

Notation reader_ok := (ipool_ok (fun _ _ => qhandle) (fun _ => True) (fun _ _ => evolves) (fun _ _ => evolves) evolves promised).

Lemma reader_sound s0 c c' : inv s0 -> rtc reader_step c c' -> reader_ok s0 c -> evolves c.2 c'.2 /\ reader_ok s0 c'.
Proof.
  intros Hinv Hrun Hok.
  refine (ipool_sound (fun _ _ => qhandle) env_step body (fun _ => True) (fun _ _ => evolves) (fun _ _ => evolves)
    evolves promised _ _ _ _ s0 c c' _ Hrun Hok); try done.
  - intros s s'. apply env_evolves.
  - intros _ _ s s'. apply env_evolves.
  - intros j q s _ Hs. apply body_promised. by eapply evolves_inv.
Qed.

Lemma reader_start b : reader_ok (opened b) ([], opened b).
Proof. by split. Qed.

Lemma reached_inv b qs s : written b -> rtc reader_step ([], opened b) (qs, s) -> inv s.
Proof.
  intros Hb%opened_inv Hrun. destruct (reader_sound _ _ _ Hb Hrun (reader_start b)) as [He _]. by eapply evolves_inv.
Qed.

(** C4. Refinement: whatever the queries, the goroutines, the callbacks and the other clients
    do, the registry of a store only makes the moves of [Registry.step], and every view it
    ever made follows the stream of its namespace by the moves of [Delivery.step], from the
    empty view on.  So all that is shown of those two systems ([view_registry_safe],
    [view_sound], [barrier_guarantee]) is true of the store as it runs. *)
Theorem reader_refines b qs s :
  written b -> rtc reader_step ([], opened b) (qs, s) ->
  rtc Registry.step Registry.start (reg s) /\
  forall id i, Registry.instances (reg s) !! id = Some i ->
    let ns := View.namespace (Registry.view i) in
    exists g, runs s !! id = Some g /\ orderedStreamName ns = Ok (stream (spec g)) /\
      rtc (Delivery.step ns) (Delivery.start ns) (followed (logs s) g i).
Proof.
  intros Hb Hrun. destruct (reached_inv _ _ _ Hb Hrun) as [H1 _ H3]. split; [done|]. intros id i Hi.
  destruct (H3 id i Hi) as (g & Hg & Hsp & Hd & _). exists g. split_and!; [done|by apply namespace_stream|done].
Qed.

(** What a finished query may rely on: its view, past everything stored before its start. *)
Lemma query_passed b qs s j ns s1 id :
  written b -> rtc reader_step ([], opened b) (qs, s) -> qs !! j = Some (Query ns, s1, Ret (inl (Ok id))) ->
  exists i g, Registry.instances (reg s) !! id = Some i /\ runs s !! id = Some g /\
    View.namespace (Registry.view i) = ns /\ orderedStreamName ns = Ok (stream (spec g)) /\
    let l0 := log_of (logs s1) (stream (spec g)) in
    Delivery.delivery_inv ns (followed (logs s) g i) /\ good ns l0 /\
    rtc (moves ns) l0 (log_of (logs s) (stream (spec g))) /\
    length l0 <= N.to_nat (View.watermark (Registry.view i)).
Proof.
  intros Hb Hrun Hj. pose proof (opened_inv _ Hb) as Hinv0.
  destruct (reader_sound _ _ _ Hinv0 Hrun (reader_start b)) as [He [_ Hts]]. cbn in He, Hts.
  destruct (Hts j _ _ _ Hj) as (_ & H1 & Hwp). destruct (Hwp s ltac:(reflexivity)) as [Hs1 Hr]. destruct (Hr id eq_refl) as (i & Hi & Hn & Hlen).
  assert (Hinv : inv s) by exact (evolves_inv _ _ He Hinv0). destruct (v_runs _ Hinv _ _ Hi) as (g & Hg & Hsp & Hd & _).
  rewrite Hn in Hsp, Hd. apply namespace_stream in Hsp. exists i, g. cbn zeta. split_and!; try done.
  - by apply Delivery.delivery_reachable_inv.
  - pose proof (evolves_inv _ _ H1 Hinv0) as Hinv1.
    exact (moves_good ns [] _ (v_written _ Hinv1 _ _ Hsp) (good_nil ns)).
  - by apply rely_moves; [apply Hs1|].
  - by apply Hlen.
Qed.

(** C3. A query of a running store, from its call to its page.  Once [readyView] has returned a
    view of [ns], at once or later, whatever queries, goroutines, [Close] calls and other
    clients do: every record stored before the query was called is in the view, at that
    version or a later one, unless it was rewritten since and its current message not
    passed yet; and walking the cursors of a listing over the view gives a strictly sorted
    list that holds only versions that were stored, every qualifying record of the index at
    the call that has not been rewritten since, and exactly the qualifying records of the
    index if nothing was stored since. *)
Theorem query_reads b qs s j ns s1 id scope bound limit :
  written b -> rtc reader_step ([], opened b) (qs, s) -> qs !! j = Some (Query ns, s1, Ret (inl (Ok id))) ->
  ValidateName ns = None -> ValidateName scope = None -> ValidateOrderedLimit limit = None -> i64 bound ->
  exists i g, Registry.instances (reg s) !! id = Some i /\ runs s !! id = Some g /\
    orderedStreamName ns = Ok (stream (spec g)) /\
    let v := Registry.view i in let st := followed (logs s) g i in let l0 := log_of (logs s1) (stream (spec g)) in
    Delivery.covers ns l0 st /\
    (exists all, EndToEnd.reflects ns l0 st orderedRankedBefore (View.in_ranked scope) all /\
       ((forall r, r ∈ all -> Listing.cap_ok (Listing.ranked_cursor ns scope r)) ->
        Listing.walk (Datatypes.S (length all)) (fun after => Listing.ListRanked (Ok v) ns scope after limit) EmptyString = Some all)) /\
    (exists all, EndToEnd.reflects ns l0 st orderedDueBefore (fun r => View.in_due r /\ (UnixMillis (DueOf r) <= bound)%Z) all /\
       ((forall r, r ∈ all -> Listing.cap_ok (Listing.due_cursor ns bound r)) ->
        Listing.walk (Datatypes.S (length all)) (fun after => Listing.ListDue (Ok v) ns bound after limit) EmptyString = Some all)) /\
    (exists all, EndToEnd.reflects ns l0 st orderBefore (View.in_order scope) all /\
       forall after, u64 after ->
       let recs := take (Z.to_nat limit) (List.filter (fun r => (after <? Order r)%N) all) in
       exists visits, Listing.ListOrdered (Ok v) ns scope after limit =
         Ok ({| Listing.Records := recs; Listing.NextAfterOrder := match last recs with Some r => Order r | None => 0%N end |}, visits)).
Proof.
  intros Hb Hrun Hj Hns Hsc Hlim Hbound.
  destruct (query_passed b qs s j ns s1 id Hb Hrun Hj) as (i & g & Hi & Hg & _ & Hst & Hd & Hgood & Hm & Hlen).
  exists i, g. split; [done|]. split; [done|]. split; [done|]. split; [by apply Delivery.barrier_sees|].
  exact (EndToEnd.listings_of ns _ _ Hd Hgood Hm Hlen scope bound limit Hns Hsc Hlim Hbound).
Qed.

(** ** A goroutine whose context has ended *)

(** Runs in which the goroutine [id] takes [n] steps, or more. *)
Inductive run_of (id : nat) : nat -> list (query * state * prog qreply (res nat + option error)) * state ->
    list (query * state * prog qreply (res nat + option error)) * state -> Prop :=
  | run_end c : run_of id 0 c c
  | run_own n ts s s' c : own_step id s s' -> run_of id n (ts, s') c -> run_of id (Datatypes.S n) (ts, s) c
  | run_other n c c1 c2 : reader_step c c1 -> run_of id n c1 c2 -> run_of id n c c2.

(** It is past its loop after at most [n] more steps of its own. *)
Definition within (n : nat) (s : state) (id : nat) : Prop :=
  exists g i, runs s !! id = Some g /\ Registry.instances (reg s) !! id = Some i /\
    View.cancelled (Registry.view i) = true /\
    (Registry.done i = true \/
     match stage g with
     | Watching _ p => exists m, at_most (fun _ => true) m p /\ m + 2 <= n
     | Backing _ p => exists m, at_most (fun _ => true) m p /\ m + 2 <= n
     | Leaving => 1 <= n
     end).

(** Another goroutine's step, or its callbacks', leaves its stage as it is. *)
Lemma within_update n s x g i g' i' id :
  runs s !! x = Some g -> Registry.instances (reg s) !! x = Some i ->
  (x = id -> stage g' = stage g /\ Registry.grows i i') -> within n s id -> within n (update x g' i' s) id.
Proof.
  intros Hg Hi Hx (g0 & i0 & Hg0 & Hi0 & Hc & H). unfold within. cbn. destruct (decide (id = x)) as [->|Hne].
  - assert (g0 = g) as -> by congruence. assert (i0 = i) as -> by congruence.
    destruct (Hx eq_refl) as (Hst & (_ & _ & _ & Hcc) & Hd). exists g', i'. rewrite !lookup_insert_eq.
    split_and!; [done..|by apply Hcc|]. rewrite Hst. destruct H as [H|H]; [left; by apply Hd|by right].
  - exists g0, i0. by rewrite !lookup_insert_ne by done.
Qed.

Lemma within_own n s s' x id : own_step x s s' -> x <> id -> within n s id -> within n s' id.
Proof. intros H Hne. destruct H; by eapply within_update. Qed.

Lemma within_step n s s' id :
  inv s -> own_step id s s' -> within (Datatypes.S n) s id -> within n s' id.
Proof.
  intros Hinv Ho (g0 & i0 & Hg0 & Hi0 & Hc & H).
  destruct (v_runs _ Hinv _ _ Hi0) as (g1 & Hg1 & _ & _ & Hok). assert (g1 = g0) as -> by congruence.
  assert (Hw : forall g' i', View.cancelled (Registry.view i') = true ->
    (Registry.done i' = true \/ match stage g' with
      | Watching _ p => exists m, at_most (fun _ => true) m p /\ m + 2 <= n
      | Backing _ p => exists m, at_most (fun _ => true) m p /\ m + 2 <= n
      | Leaving => 1 <= n end) -> within n (update id g' i' s) id).
  { intros g' i' Hc' H'. exists g', i'. cbn. by rewrite !lookup_insert_eq. }
  unfold stage_ok in Hok.
  destruct Ho as [g i attempt c k r Hg Hi Hst Hr|g i attempt err Hg Hi Hst turn|g i attempt e k r Hg Hi Hst Hr
    |g i attempt w Hg Hi Hst|g i Hg Hi Hst Hd];
    assert (g0 = g) as -> by congruence; assert (i0 = i) as -> by congruence; rewrite Hst in Hok, H.
  - destruct H as [H|(m & Hm & Hle)]; [destruct Hok; congruence|]. apply Hw; [done|right].
    destruct (at_most_step m c k r Hm) as (m' & -> & Hm'). exists m'. split; [done|lia].
  - destruct H as [H|(m & Hm & Hle)]; [destruct Hok; congruence|]. unfold turn, after_watch, Registry.run_turn.
    rewrite Hc. apply Hw; [done|right]. cbn. lia.
  - destruct H as [H|(m & Hm & Hle)]; [destruct Hok as (_ & _ & ?); congruence|]. apply Hw; [done|right].
    destruct (at_most_step m e k r Hm) as (m' & -> & Hm'). exists m'. split; [done|lia].
  - destruct H as [H|(m & Hm & Hle)]; [destruct Hok as (_ & _ & ?); congruence|].
    unfold after_backoff. rewrite Hc. apply Hw; [done|right]. cbn. destruct w; lia.
  - apply Hw; [done|by left].
Qed.

Lemma within_mono n m s id : n <= m -> within n s id -> within m s id.
Proof.
  intros Hle (g & i & Hg & Hi & Hc & H). exists g, i. split_and!; [done..|]. destruct H as [H|H]; [by left|right].
  destruct (stage g); [| |lia]; destruct H as (k & ? & ?); exists k; (split; [done|lia]).
Qed.

Lemma within_local n s s' id : local_step s s' -> inv s -> within n s id -> within n s' id.
Proof.
  intros [x s1 Ho|x g i k cb c m msg subj seq dat w b Hg Hi Hk Hc Hcn Hm Hskip Hh Hf
    |x g i k cb c m Hg Hi Hk Hc|x g i k cb cause Hg Hi Hk Hr] Hinv Hw.
  - destruct (decide (x = id)) as [->|]; [|by eapply within_own].
    eapply within_step; [done..|]. eapply within_mono; [|exact Hw]. lia.
  - cbn in Hh. injection Hh as <- _ <-. eapply within_update; [done..| |done]. intros ->. split; [done|]. split; [|done].
    pose proof (View.foldMessage_fields msg.1 msg.2 (Registry.view i)) as (_ & _ & H). by rewrite Hf in H.
  - eapply within_update; [done..| |done]. intros ->. split; [done|]. split; [apply View.advance_advances|done].
  - by eapply within_update.
Qed.

Lemma within_env n s s' id : env_step s s' -> inv s -> within n s id -> within n s' id.
Proof. intros [b Hb|s1 Hl] Hinv Hw; [|by eapply within_local]. destruct Hw as (g & i & ?). by exists g, i. Qed.

Lemma within_query n c s r s' id : qhandle c s r s' -> within n s id -> within n s' id.
Proof.
  intros H Hw. destruct c as [c| |]; [|by destruct H as [-> _]..]. destruct Hw as (g & i & Hg & Hi & Hc & Hd).
  destruct c; try (by destruct H as [-> _]; exists g, i); try done.
  - cbn in H. unfold acquire in H. destruct (Registry.acquireView namespace (reg s)) as [r0 reg'] eqn:Ha.
    injection H as _ <-. exists g, i. unfold Registry.acquireView in Ha. cbn.
    destruct (Registry.orderedNamespaceSpec namespace) as [sp|]; [|by injection Ha as <- <-].
    destruct (Registry.closed (reg s)); [by injection Ha as <- <-|].
    destruct (Registry.views (reg s) !! namespace); injection Ha as <- <-; [done|]. cbn.
    assert (Hne : fresh (dom (Registry.instances (reg s))) <> id).
    { intros E. apply (is_fresh (dom (Registry.instances (reg s)))). rewrite E. by eapply elem_of_dom_2. }
    by rewrite !lookup_insert_ne.
  - destruct H as (reg' & Hr & ->). unfold Registry.retire in Hr. destruct (decide _); injection Hr as _ <-; by exists g, i.
  - destruct H as [-> _]. exists g, i. unfold Registry.close_views. by destruct (Registry.closed (reg s)).
  - destruct H as (j & Hj & ->). unfold within. cbn. destruct (decide (id = id0)) as [->|Hne].
    + assert (j = i) as -> by congruence. eexists g, _. by rewrite lookup_insert_eq.
    + exists g, i. by rewrite lookup_insert_ne.
Qed.

Lemma within_reader n c c' id : reader_step c c' -> inv c.2 -> within n c.2 id -> within n c'.2 id.
Proof.
  intros [ts s j t s1 p p' s' Hj Hp|ts s t Ht|ts s s' He] Hinv Hw; cbn in *; [|done|by eapply within_env].
  destruct p as [|c0 k]; [done|]. destruct Hp as (r & Hh & _). by eapply within_query.
Qed.

Lemma run_within id n c c' s0 k :
  inv s0 -> run_of id n c c' -> reader_ok s0 c -> within k c.2 id -> within (k - n) c'.2 id.
Proof.
  intros Hinv Hrun. revert k. induction Hrun as [c|n ts s s' c Ho _ IH|n c c1 c2 Hs _ IH]; intros k Hok Hw.
  - by rewrite Nat.sub_0_r.
  - assert (Hs : reader_step (ts, s) (ts, s')) by by apply ipool_env, env_local, (local_own _ _ id).
    destruct (reader_sound s0 _ _ Hinv (rtc_once _ _ Hs) Hok) as [_ Hok'].
    replace (k - Datatypes.S n) with (pred k - n) by lia. apply IH; [done|]. cbn in *.
    apply (within_step _ s); [|done|].
    + eapply evolves_inv; [apply Hok|done].
    + eapply within_mono; [|exact Hw]. lia.
  - destruct (reader_sound s0 _ _ Hinv (rtc_once _ _ Hs) Hok) as [_ Hok']. apply IH; [done|].
    eapply within_reader; [done| |done]. eapply evolves_inv; [apply Hok|done].
Qed.

(** Whatever a goroutine waits for, its call returns when its context has ended. *)
Lemma watch_returns b v cbs c : View.cancelled v = true -> exists r, watch_reply b v cbs c r.
Proof.
  intros Hv. destruct c; try (by exists None); try (by eexists (Err (Leaf EmptyString))); try (by exists tt); try (by exists 0%N).
  - by eexists.
  - by exists WatchDone.
Qed.

Lemma own_enabled s id i :
  inv s -> Registry.instances (reg s) !! id = Some i -> View.cancelled (Registry.view i) = true ->
  Registry.done i = false -> exists s', own_step id s s'.
Proof.
  intros Hinv Hi Hc Hd. destruct (v_runs _ Hinv _ _ Hi) as (g & Hg & _).
  destruct (stage g) as [attempt [err|c k]|attempt [w|e k]|] eqn:Hst.
  - eexists. by eapply own_turn.
  - destruct (watch_returns (logs s) (Registry.view i) (callbacks g) c Hc) as [r Hr]. eexists. by eapply own_call.
  - eexists. by eapply own_resume.
  - assert (exists r, backoff_reply (Registry.view i) e r) as [r Hr].
    { destruct e; try (by exists None); [by exists (Err (Leaf EmptyString))|by exists tt|by exists 0%N]. }
    eexists. by eapply own_wait.
  - eexists. by eapply own_exit.
Qed.

(** C29. Termination: once its context has ended, by [Close] or by a fatal error, a goroutine
    has exited when it has taken ten steps of its own, whatever its calls answer and
    whatever all others do meanwhile; and until then it always has a step to take.  So a
    [Close] that waits long enough sees every goroutine exit. *)
Theorem goroutine_exits b qs s id i :
  written b -> rtc reader_step ([], opened b) (qs, s) ->
  Registry.instances (reg s) !! id = Some i -> View.cancelled (Registry.view i) = true ->
  (Registry.done i = false -> exists s', own_step id s s') /\
  (forall n qs' s', run_of id n (qs, s) (qs', s') -> 10 <= n ->
     exists i', Registry.instances (reg s') !! id = Some i' /\ Registry.done i' = true).
Proof.
  intros Hb Hrun Hi Hc. pose proof (opened_inv b Hb) as Hinv0. pose proof (reached_inv b qs s Hb Hrun) as Hinv.
  split; [by apply own_enabled|]. intros n qs' s' Hn Hle.
  destruct (reader_sound _ _ _ Hinv0 Hrun (reader_start b)) as [_ Hok].
  assert (Hw : within 10 s id).
  { destruct (v_runs _ Hinv _ _ Hi) as (g & Hg & _ & _ & Hst). exists g, i. split_and!; [done..|]. right.
    unfold stage_ok in Hst. destruct (stage g); [exists 8|exists 2|]; [split; [apply Hst|lia]..|lia]. }
  pose proof (run_within id n _ _ _ 10 Hinv0 Hn Hok Hw) as (g' & i' & _ & Hi' & _ & H). exists i'. split; [done|].
  cbn in H. replace (10 - n) with 0 in H by lia. destruct H as [H|H]; [done|]. destruct (stage g'); [destruct H; lia..|lia].
Qed.

End reader.
(** ** A query of a store that finds one record *)

Section example.
Existing Instance Reference.reference.
Existing Instance Nats.nats_go.
Notation ns := "work/q1".
Notation spec1 := Linked.spec1.

Definition counter_entry : string * string := (Linked.counter1, encodeOrderedCounter (Order Linked.rec1)).
Definition record_entry : string * string := (Linked.record1, Linked.payload1).

Context (b : backend) (Hlog : log_of b (stream spec1) = [counter_entry; record_entry]).

(** The stream as the server describes it. *)
Definition handle1 : handle := {| h_name := stream spec1; h_info := Some (orderedStreamConfig spec1, 2%N) |}.
Definition view0 : View.orderedView := View.newOrderedView ns.
Definition view1 : View.orderedView := View.applyMessage counter_entry.1 (N.of_nat 1) counter_entry.2 view0.
Definition view2 : View.orderedView := View.applyMessage record_entry.1 (N.of_nat 2) record_entry.2 view1.
Definition instance_of (v : View.orderedView) : Registry.instance := {| Registry.view := v; Registry.done := false |}.

(** The store once the query has its view and the goroutine is started. *)
Definition acquired : state :=
  {| logs := b;
     reg := {| Registry.closed := false; Registry.views := <[ns := 0]> ∅;
               Registry.instances := <[0 := instance_of view0]> ∅; Registry.stopping := [] |};
     runs := <[0 := start_run spec1]> ∅ |}.

Lemma spec1_eq : Registry.orderedNamespaceSpec ns = Ok spec1.
Proof. vm_compute. reflexivity. Qed.
Lemma first_id : fresh (dom (∅ : gmap nat Registry.instance)) = 0.
Proof. vm_compute. reflexivity. Qed.

Lemma acquire_first : acquire ns (opened b) = (Ok (0, true), acquired).
Proof.
  unfold acquire, Registry.acquireView. rewrite spec1_eq. cbn [Registry.closed opened reg Registry.start Registry.views Registry.instances].
  rewrite lookup_empty. cbn iota. rewrite first_id. reflexivity.
Qed.

(** The goroutine in its watch, with its callbacks and its view. *)
Definition at_ (p : prog jreply (option error)) (cbs : list callback) (v : View.orderedView) : state :=
  update 0 {| spec := spec1; stage := Watching 0 p; callbacks := cbs |} (instance_of v) acquired.

Lemma acquired_at : acquired = at_ (watchStream spec1) [] view0.
Proof. unfold at_, update, acquired, Registry.set_instance. cbn. by rewrite !insert_insert_eq. Qed.

Lemma update_at p cbs v p' cbs' v' :
  update 0 {| spec := spec1; stage := Watching 0 p'; callbacks := cbs' |} (instance_of v') (at_ p cbs v) = at_ p' cbs' v'.
Proof. unfold at_, update, Registry.set_instance. cbn. by rewrite !insert_insert_eq. Qed.

Lemma at_run p cbs v : runs (at_ p cbs v) !! 0 = Some {| spec := spec1; stage := Watching 0 p; callbacks := cbs |}.
Proof. apply lookup_insert_eq. Qed.
Lemma at_instance p cbs v : Registry.instances (reg (at_ p cbs v)) !! 0 = Some (instance_of v).
Proof. apply lookup_insert_eq. Qed.

(** Its next call. *)
Lemma at_call c k r cbs v : watch_reply b v cbs c r ->
  local_step 0 (at_ (Vis c k) cbs v) (at_ (k r) (consumed c r cbs) v).
Proof.
  intros Hr. rewrite <- (update_at (Vis c k) cbs v (k r) (consumed c r cbs) v).
  apply (local_own _ _ 0), (own_call _ 0 _ _ _ 0 c k r (at_run _ _ _) (at_instance _ _ _)); [done|exact Hr].
Qed.

(** It looks its stream up, accepts the layout, and subscribes. *)
Lemma subscribes : exists p,
  rtc (local_step 0) (at_ (watchStream spec1) [] view0) (at_ p [{| delivery := Delivery.Idle 0; reported := None |}] view0).
Proof.
  eexists. eapply rtc_l; [apply (at_call (js_Stream (stream spec1)) _ (Ok handle1))|].
  { split; [done|]. split; [done|]. cbn. by rewrite Hlog. }
  eapply rtc_l; [apply (at_call (stream_CachedInfo handle1) _ (h_info handle1)); done|].
  eapply rtc_l; [apply (at_call (stream_OrderedConsumer handle1 (subjectFilter spec1)) _ None); done|].
  apply rtc_once. by apply (at_call consumer_Consume _ None).
Qed.

(** Its callback is handed one message of the log. *)
Lemma delivers p n m v :
  [counter_entry; record_entry] !! n = Some m -> (View.foldMessage m.1 m.2 v).2 = true ->
  rtc (local_step 0) (at_ p [{| delivery := Delivery.Idle n; reported := None |}] v)
    (at_ p [{| delivery := Delivery.Idle (Datatypes.S n); reported := None |}]
       (View.applyMessage m.1 (N.of_nat (Datatypes.S n)) m.2 v)).
Proof.
  intros Hm Hf. unfold View.applyMessage. destruct (View.foldMessage m.1 m.2 v) as [w folded] eqn:Ew. cbn in Hf. subst folded.
  set (cb := {| delivery := Delivery.Idle n; reported := None |}).
  set (cb1 := {| delivery := Delivery.Busy n n; reported := None |}).
  eapply rtc_l; [|apply rtc_once].
  - apply (local_fold 0 _ 0 _ _ 0 cb n n m m.1 (N.of_nat (Datatypes.S n)) m.2 w true (at_run _ _ _) (at_instance _ _ _));
      [done|done|done| |intros; lia|done|exact Ew]. change (log_of b (stream spec1) !! n = Some m). by rewrite Hlog.
  - change (local_step 0 (update 0 {| spec := spec1; stage := Watching 0 p; callbacks := [cb1] |} (instance_of w) (at_ p [cb] v))
      (at_ p [{| delivery := Delivery.Idle (Datatypes.S n); reported := None |}] (View.advance (N.of_nat (Datatypes.S n)) w))).
    rewrite update_at, <- (update_at p [cb1] w p _ (View.advance (N.of_nat (Datatypes.S n)) w)).
    exact (local_advance 0 (at_ p [cb1] w) 0 _ (instance_of w) 0 cb1 n n (at_run p [cb1] w) (at_instance p [cb1] w) eq_refl eq_refl).
Qed.

Lemma follows p : rtc (local_step 0) (at_ p [{| delivery := Delivery.Idle 0; reported := None |}] view0)
  (at_ p [{| delivery := Delivery.Idle 2; reported := None |}] view2).
Proof.
  etrans; [apply (delivers p 0 counter_entry); [done|vm_compute; reflexivity]|].
  apply (delivers p 1 record_entry); [done|vm_compute; reflexivity].
Qed.

(** What the query does once it has its view. *)
Lemma query_rest p cbs :
  Prog.runs qhandle (r <- link (Registry.ready_loop 1 ns 0 true); Ret (inl r)) (at_ p cbs view2)
    (inl (Ok 0) : res nat + option error) (at_ p cbs view2).
Proof.
  exists None, (at_ p cbs view2). split; [split; [done|]; exists (instance_of view2); split; [apply at_instance|vm_compute; reflexivity]|].
  exists (stream spec1), (at_ p cbs view2). split; [split; [done|]; eexists; split; [apply at_run|done]|].
  exists (Ok handle1), (at_ p cbs view2). split; [split; [done|]; split; [done|]; split; [done|]; cbn; by rewrite Hlog|].
  exists (h_info handle1), (at_ p cbs view2). split; [done|].
  exists None, (at_ p cbs view2). split; [|done]. split; [done|]. right. exists (instance_of view2).
  split; [apply at_instance|]. left. vm_compute. reflexivity.
Qed.

Lemma locals_step ts s s' : rtc (local_step 0) s s' -> rtc (store_step 0) (ts, s) (ts, s').
Proof. induction 1 as [|s1 s2 s3 H _ IH]; [done|]. eapply rtc_l; [by apply ipool_env|done]. Qed.

(** The query starts the goroutine, which follows the stream; the query takes the tip, is let
    through, and returns its view. *)
Lemma query_schedule : exists p,
  rtc (store_step 0) ([], opened b)
    ([(Query ns, opened b, Ret (inl (Ok 0)))], at_ p [{| delivery := Delivery.Idle 2; reported := None |}] view2).
Proof.
  destruct subscribes as [p Hsub]. exists p.
  eapply rtc_l; [by apply (ipool_spawn _ _ _ _ [] (opened b) (Query ns))|].
  eapply rtc_l.
  { apply (ipool_call _ _ _ _ _ _ 0 (Query ns) (opened b) (body (Query ns))
      (r <- link (Registry.ready_loop 1 ns 0 true); Ret (inl r)) acquired); [done|].
    exists (Ok (0, true)). split; [exact acquire_first|done]. }
  rewrite acquired_at. etrans; [apply locals_step; etrans; [exact Hsub|apply follows]|].
  exact (runs_ipool _ _ _ _ 0 (Query ns) _ _ _ _ _ [_] eq_refl (query_rest p _)).
Qed.

End example.
(** ** The hypotheses hold: the record was created by another process *)

Section witnesses.
Existing Instance Reference.reference.
Existing Instance Nats.nats_go.
Notation ns := "work/q1".
Notation logs1 := (Linked.w_logs Linked.created).
#[local] Opaque view2 Linked.created.

Lemma created_log : log_of logs1 (stream Linked.spec1) = [counter_entry; record_entry].
Proof. vm_compute. reflexivity. Qed.

Lemma headers_ok : ExpectedLastSubjSeqHeader <> orderedHdrBatchID /\ ExpectedLastSubjSeqHeader <> orderedHdrBatchSeq /\
  ExpectedLastSubjSeqHeader <> orderedHdrBatchCommit.
Proof. vm_compute. repeat split; discriminate. Qed.

Lemma created_written : written logs1.
Proof.
  apply (written_rely ∅); [by intros n st _|].
  exact (proj1 (Linked.linked_sound 2 Linked.entropy2 0 (proj1 Linked.entropy2_ok) (proj2 Linked.entropy2_ok) headers_ok
    Linked.empty_world _ _ (fun n st _ => good_nil n) Linked.empty_ok Linked.linked_create
    (Linked.linked_start 2 Linked.entropy2 Linked.empty_world))).
Qed.

Theorem reader_refines_witness : exists v, rtc (Delivery.step ns) (Delivery.start ns) v /\ Delivery.stream_log v = [counter_entry; record_entry].
Proof.
  destruct (query_schedule logs1 created_log) as [p Hrun%(stores_step 0)].
  destruct (reader_refines 0 logs1 _ _ created_written Hrun) as [_ H].
  destruct (H 0 (instance_of view2) (at_instance logs1 p _ view2)) as (g & Hg & Hst & Hd). exists (followed logs1 g (instance_of view2)).
  split; [exact Hd|]. rewrite at_run in Hg. injection Hg as <-. exact created_log.
Defined.

Theorem query_reads_witness : exists r', View.records view2 !! identity_of Linked.rec1 = Some r' /\ Spec.evolves Linked.rec1 r'.
Proof.
  destruct (query_schedule logs1 created_log) as [p Hrun%(stores_step 0)].
  destruct (query_reads 0 logs1 _ _ 0 ns (opened logs1) 0 "prio" 450 10 created_written Hrun eq_refl)
    as (i & g & Hi & Hg & _ & Hcov & _); [vm_compute; reflexivity..|vm_compute; split; discriminate || reflexivity|].
  rewrite at_instance in Hi. injection Hi as <-. rewrite at_run in Hg. injection Hg as <-.
  destruct (proj1 Hcov Linked.record1 Linked.rec1) as [H|(j & d & _ & Hj & Hge)].
  - cbn [opened logs spec]. rewrite created_log. vm_compute. reflexivity.
  - exact H.
  - exfalso. cbn [followed Delivery.stream_log opened logs spec] in Hj, Hge.
    change (log_of logs1 (stream Linked.spec1) !! j = Some (Linked.record1, d)) in Hj.
    rewrite created_log in Hj, Hge. apply lookup_lt_Some in Hj. cbn in Hj, Hge. lia.
Defined.
(** [Close] takes the view out of the registry and cancels it. *)
Notation finished p := (at_ logs1 p [{| delivery := Delivery.Idle 2; reported := None |}] view2).
Definition closing (s : state) : state := set_reg (Registry.close_views (reg s)).2 s.
Definition cancelled_instance : Registry.instance :=
  Registry.with_view (instance_of view2) (View.cancel_view (Registry.view (instance_of view2))).
Definition cancelling (s : state) : state := set_reg (Registry.set_instance 0 cancelled_instance (reg s)) s.

Lemma close_schedule p ts : exists ts',
  rtc (store_step 0) (ts, finished p) (ts', cancelling (closing (finished p))).
Proof.
  eexists. eapply rtc_l; [by apply (ipool_spawn _ _ _ _ ts _ Closing)|].
  eapply rtc_l.
  { eapply (ipool_call _ _ _ _ _ _ (length ts) Closing); [by apply list_lookup_middle|].
    exists [(0, ns)]. split; [split; [reflexivity|]|reflexivity].
    change (Registry.views (reg (finished p))) with ({[ns := 0]} : gmap string nat). by rewrite map_to_list_singleton. }
  apply rtc_once. eapply (ipool_call _ _ _ _ _ _ (length ts) Closing).
  { rewrite insert_app_r_alt by lia. rewrite Nat.sub_diag. by apply list_lookup_middle. }
  exists tt. split; [|reflexivity]. exists (instance_of view2). split; [|reflexivity]. exact (at_instance logs1 p _ view2).
Qed.

Theorem goroutine_exits_witness : exists p s', Reader.own_step 0 0 (cancelling (closing (finished p))) s'.
Proof.
  destruct (query_schedule logs1 created_log) as [p H1%(stores_step 0)]. destruct (close_schedule p [(Query ns, opened logs1, Ret (inl (Ok 0)))]) as [ts' H2%(stores_step 0)]. exists p.
  refine (proj1 (goroutine_exits 0 logs1 ts' _ 0 cancelled_instance created_written (transitivity H1 H2) _ eq_refl) eq_refl).
  apply lookup_insert_eq.
Defined.
End witnesses.
End ReaderProps.
