(* ===== verification/OrderedWhole.v ===== *)
(** * The whole index: processes that write, and a store that is queried.

    [OrderedLinked]'s processes and one store's reading half ([OrderedReader]) over the one
    server: client calls, goroutines, callbacks and queries in any interleaving.  What a
    method returned in one process is what a query of any process sees next. *)

From S2P Require Import Prelude GoText Storage Nats OrderedCodec Prog OrderedStore OrderedSeam OrderedSeamProps.
From S2P Require Import OrderedSpec OrderedRefine OrderedSafety OrderedProps OrderedIndex OrderedView OrderedDelivery OrderedLinked.
From S2P Require Import OrderedRegistry OrderedReader OrderedReaderProps.
Open Scope stdpp_scope.
Import Codec Store Seam SeamProps Refine Safety OrderedProps Index Linked.

Module Whole.

(** ** What a successful method knows *)

Section known.
Context {S : Storage} {L : StorageLaws S}.

(** After an operation that returned [r], the index holds [r]. *)
Lemma spec_holds m x x' r flag spec counter record :
  orderedLocation (method_id m) = Ok (spec, counter, record) ->
  method_spec m x = (Ok (r, flag), x') -> Spec.records x' !! record = Some r.
Proof.
  intros Hl H. destruct m as [id|id rks value rank due|id expected value rank due|id expected];
    cbn [method_id method_spec] in *.
  - unfold Spec.spec_get in H. rewrite Hl in H. destruct (Spec.records x !! record) eqn:E; [|done].
    cbn in H. by injection H as -> _ <-.
  - destruct flag.
    + apply Spec.spec_create_Ok in H as (? & ? & ? & E & _ & -> & _). rewrite Hl in E. injection E as <- <- <-.
      apply lookup_insert_eq.
    + unfold Spec.spec_create in H. rewrite Hl in H. destruct (Spec.records x !! record) eqn:E.
      * by injection H as -> <-.
      * destruct (guard? _; _); [|done]. cbn zeta in H. destruct (_ =? _)%N; [done|].
        by destruct (ValidateOrderedRecord _).
  - destruct (Spec.spec_update _ _ _ _ _ _) as [[r0|e] x0] eqn:E; [|done]. cbn in H. injection H as -> _ <-.
    apply Spec.spec_update_Ok in E as (? & ? & ? & cur & E & _ & _ & _ & _ & Hr). rewrite Hl in E. injection E as <- <- <-.
    apply Spec.spec_revise_Ok in Hr as (_ & -> & ->). apply lookup_insert_eq.
  - destruct (Spec.spec_delete _ _ _) as [[r0|e] x0] eqn:E; [|done]. cbn in H. injection H as -> _ <-.
    apply Spec.spec_delete_Ok in E as (? & ? & ? & cur & E & Hc & Hr). rewrite Hl in E. injection E as <- <- <-.
    destruct Hr as [(_ & -> & ->)|[_ Hr]]; [done|]. apply Spec.spec_revise_Ok in Hr as (_ & -> & ->). apply lookup_insert_eq.
Qed.

(** So, if it promised [method_post], the index now holds [r] or a later version of it. *)
Lemma returned_held fault m b0 b r flag st :
  good_backend b0 -> orderedStreamName (Namespace (method_id m)) = Ok st ->
  method_post fault m b0 (Ok (r, flag)) b ->
  exists s cur, Spec.records (abs (Namespace (method_id m)) (log_of b st)) !! s = Some cur /\ Spec.evolves r cur.
Proof.
  intros Hg Hst. unfold method_post. destruct (orderedLocation _) as [[[spec counter] record]|] eqn:Hl; [|done].
  pose proof (loc_stream _ _ _ _ Hl) as Hst'. rewrite Hst in Hst'. injection Hst' as ->.
  intros [(m' & (Hl' & _) & l & l' & H1 & Hm & H2 & Hs)|(e & [=] & _)].
  rewrite Hl in Hl'. pose proof (spec_holds _ _ _ _ _ _ _ _ Hl' Hs) as Hrec.
  assert (Hg' : good (Namespace (method_id m)) l') by (eapply moves_good; [exact (rtc_r _ _ _ H1 Hm)|by apply Hg]).
  destruct (Spec.steps_evolves _ _ _ _ _ (moves_steps _ _ _ H2) (proj2 Hg') Hrec) as (cur & Hc & He).
  by exists record, cur.
Qed.
End known.

(** ** The system *)

Section whole.
Context {S : Storage} {L : StorageLaws S} {J : JetStream}.
Context (processes : nat) (entropy : nat -> string) (retryBase viewRetryBase : Z).
Context (Hentropy : forall p, String.length (entropy p) = orderedBatchNonceBytes).
Context (Hdistinct : forall p q, p < processes -> q < processes -> entropy p = entropy q -> p = q).
Context (Hheader : ExpectedLastSubjSeqHeader <> orderedHdrBatchID /\ ExpectedLastSubjSeqHeader <> orderedHdrBatchSeq /\
  ExpectedLastSubjSeqHeader <> orderedHdrBatchCommit).

Notation threads := (list (nat * method * world * prog lreply (res (OrderedRecord * bool)))).
Notation queries := (list (Reader.query * Reader.state * prog Reader.qreply (res nat + option error))).
Notation linked := (linked_step processes entropy retryBase).
Notation reader_step := (Reader.reader_step viewRetryBase).
Notation store_step := (Reader.store_step viewRetryBase).

(** The processes and the server; the queries of one store, and its views. *)
Record system := { procs : threads; server : world; asked : queries; store : Reader.state }.

Inductive whole_step (s : system) : system -> Prop :=
  | whole_write ts' w' : linked (procs s, server s) (ts', w') ->
      whole_step s {| procs := ts'; server := w'; asked := asked s; store := Reader.set_logs (w_logs w') (store s) |}
  | whole_read qs' r' : store_step (asked s, store s) (qs', r') ->
      whole_step s {| procs := procs s; server := server s; asked := qs'; store := r' |}.

Definition beginning (w0 : world) : system :=
  {| procs := []; server := w0; asked := []; store := Reader.opened (w_logs w0) |}.

Lemma written_good b : Reader.written b -> good_backend b.
Proof. intros Hb ns st Hst. exact (moves_good ns [] _ (Hb ns st Hst) (good_nil ns)). Qed.

(** Another client's writes, to a store. *)
Lemma reads_rely qs r b : rely (Reader.logs r) b -> rtc reader_step (qs, r) (qs, Reader.set_logs b r).
Proof.
  intros H. destruct r as [l g rs]. cbn in H. unfold Reader.set_logs. cbn.
  induction H as [l|l l1 b Hg _ IH]; [done|]. eapply rtc_l; [|exact IH].
  exact (ipool_env _ _ _ _ qs _ _ (Reader.env_commit _ {| Reader.logs := l; Reader.reg := g; Reader.runs := rs |} l1 Hg)).
Qed.

(** A run of the whole is a run of the processes, and one of the store. *)
Lemma whole_runs w0 s s' :
  good_backend (w_logs w0) -> world_ok processes entropy w0 ->
  linked_ok processes entropy w0 (procs s, server s) -> Reader.logs (store s) = w_logs (server s) ->
  rtc whole_step s s' ->
  rtc linked (procs s, server s) (procs s', server s') /\ rtc reader_step (asked s, store s) (asked s', store s') /\
  Reader.logs (store s') = w_logs (server s').
Proof.
  intros Hg Hw Hok Heq H. revert Hok Heq. induction H as [s|s s1 s2 Hs _ IH]; intros Hok Heq; [done|].
  destruct Hs as [ts' w' Hl|qs' r' Hr]; cbn [procs server asked store] in *.
  - destruct (linked_sound processes entropy retryBase Hentropy Hdistinct Hheader w0 _ _ Hg Hw (rtc_once _ _ Hl) Hok) as [Hrel Hok1].
    cbn [snd] in Hrel. destruct (IH Hok1 eq_refl) as (H1 & H2 & H3). split_and!; [by eapply rtc_l| |done].
    etrans; [|exact H2]. apply reads_rely. by rewrite Heq.
  - pose proof (ReaderProps.store_logs viewRetryBase _ _ Hr) as El. cbn in El.
    destruct (IH Hok ltac:(congruence)) as (H1 & H2 & H3). split_and!; [done| |done].
    etrans; [|exact H2]. by apply ReaderProps.stores_step, rtc_once.
Qed.

(** C2. Read your writes, across processes and down to the client's calls: once a method of
    any process has returned a record, a query called afterwards, of a store of any
    process, that returns a view has that record in it, or a later version of it; unless
    the record was rewritten while the query waited (see [barrier_misses_record]). *)
Theorem read_your_writes w0 s s' i p m w1 r flag j ns s1 id :
  Reader.written (w_logs w0) -> world_ok processes entropy w0 ->
  rtc whole_step (beginning w0) s -> procs s !! i = Some ((p, m), w1, Ret (Ok (r, flag))) -> Namespace (method_id m) = ns ->
  rtc whole_step s s' -> asked s' !! j = Some (Reader.Query ns, s1, Ret (inl (Ok id))) -> length (asked s) <= j ->
  exists i' g, Registry.instances (Reader.reg (store s')) !! id = Some i' /\ Reader.runs (store s') !! id = Some g /\
    let st := stream (Reader.spec g) in
    ((exists r', View.records (Registry.view i') !! identity_of r = Some r' /\ Spec.evolves r r') \/
     (exists subj k d, orderedRecordSubject (ID r) = Ok subj /\ length (log_of (w_logs (server s)) st) <= k /\
        log_of (w_logs (server s')) st !! k = Some (subj, d))).
Proof.
  intros Hwr Hw H1 Hi Hns H2 Hj Hlate. pose proof (written_good _ Hwr) as Hg.
  destruct (whole_runs w0 (beginning w0) s Hg Hw (linked_start processes entropy w0) eq_refl H1) as (Hl1 & Hr1 & E1).
  cbn [procs server asked store beginning] in Hl1, Hr1.
  destruct (linked_sound processes entropy retryBase Hentropy Hdistinct Hheader w0 _ _ Hg Hw Hl1 (linked_start processes entropy w0)) as [Hrel Hok].
  destruct (whole_runs w0 _ _ Hg Hw Hok E1 H2) as (_ & Hr2 & E2).
  destruct (linked_returned processes entropy w0 _ _ _ _ _ _ _ Hg Hok Hi) as [Hg1 Hpost].
  destruct (ReaderProps.query_passed viewRetryBase _ _ _ _ _ _ _ Hwr (transitivity Hr1 Hr2) Hj)
    as (i' & g & Hi' & Hgr & _ & Hst & Hinv & Hgood1 & Hm & Hlen).
  destruct (spawned_during _ _ _ _ _ _ _ _ _ _ _ _ Hr2 Hlate Hj) as [qs1 Hr3].
  pose proof (ReaderProps.opened_inv _ Hwr) as Hri.
  destruct (ReaderProps.reader_sound viewRetryBase _ _ _ Hri Hr1 (ReaderProps.reader_start _)) as [_ Hrok].
  destruct (ReaderProps.reader_sound viewRetryBase _ _ _ Hri Hr3 Hrok) as [[Hrel1 _] _]. cbn [snd] in Hrel1.
  rewrite E1 in Hrel1. pose proof (rely_moves ns _ _ _ Hrel1 Hst) as Hm0.
  assert (Hst' : orderedStreamName (Namespace (method_id m)) = Ok (stream (Reader.spec g))) by (by rewrite Hns).
  destruct (returned_held _ _ _ _ _ _ _ Hg1 Hst' Hpost) as (subj & cur & Hcur & He). rewrite Hns in Hcur.
  set (l0 := log_of (w_logs (server s)) (stream (Reader.spec g))) in *.
  assert (Hgood : good ns l0) by (by apply (rely_good _ _ Hrel Hg)).
  pose proof (prefix_length _ _ (moves_prefix _ _ _ Hm0)) as Hle.
  destruct (Delivery.barrier_sees ns l0 _ Hinv Hgood (transitivity Hm0 Hm) ltac:(cbn [Delivery.view_of ReaderProps.followed]; lia))
    as [Hcov _].
  assert (Hid : identity_of cur = identity_of r) by (destruct He as (E & _); unfold identity_of; by rewrite E).
  exists i', g. split; [done|]. split; [done|].
  destruct (Hcov subj cur Hcur) as [(r' & Hr' & He')|(k & d & _ & Hk & Hge)].
  - left. exists r'. rewrite Hid in Hr'. split; [exact Hr'|by eapply Spec.evolves_trans].
  - right. exists subj, k, d. split_and!; [|done|by rewrite <- E2].
    destruct (Spec.inv_record _ _ (proj2 Hgood) _ _ Hcur) as (Hs & _). destruct He as (E & _). by rewrite <- E.
Qed.

Lemma whole_writes ts w ts' w' qs r : rtc linked (ts, w) (ts', w') ->
  Reader.logs r = w_logs w ->
  rtc whole_step {| procs := ts; server := w; asked := qs; store := r |}
                 {| procs := ts'; server := w'; asked := qs; store := Reader.set_logs (w_logs w') r |}.
Proof.
  intros H. remember (ts, w) as x eqn:Ex. remember (ts', w') as y eqn:Ey. revert ts w r Ex.
  induction H as [x|x [ts1 w1] y Hs _ IH]; intros ts w r -> Hr.
  - injection Ey as <- <-. destruct r as [l g rs]. cbn in Hr. subst l. done.
  - eapply rtc_l; [apply whole_write; exact Hs|].
    exact (IH Ey ts1 w1 (Reader.set_logs (w_logs w1) r) eq_refl eq_refl).
Qed.

Lemma whole_reads qs r qs' r' ts w : rtc store_step (qs, r) (qs', r') ->
  rtc whole_step {| procs := ts; server := w; asked := qs; store := r |} {| procs := ts; server := w; asked := qs'; store := r' |}.
Proof.
  intros H. remember (qs, r) as x eqn:Ex. remember (qs', r') as y eqn:Ey. revert qs r Ex.
  induction H as [x|x [qs1 r1] y Hs _ IH]; intros qs r ->; [by simplify_eq|].
  eapply rtc_l; [exact (whole_read {| procs := ts; server := w; asked := qs; store := r |} qs1 r1 Hs)|by apply IH].
Qed.
End whole.

(** ** One process creates, and a query of another store follows *)

Section example.
Existing Instance Reference.reference.
Existing Instance nats_go.
#[local] Opaque ReaderProps.view2 created.

(** Nobody has asked yet. *)
Definition after_create : system :=
  {| procs := [((0, create1), empty_world, Ret (Ok (rec1, true)))]; server := created; asked := [];
     store := Reader.opened (w_logs created) |}.

Lemma creates : rtc (whole_step 2 entropy2 0 0) (beginning empty_world) after_create.
Proof. exact (whole_writes _ _ _ _ _ _ _ _ [] (Reader.opened (w_logs empty_world)) linked_create eq_refl). Qed.

Theorem read_your_writes_witness :
  exists r', View.records ReaderProps.view2 !! identity_of rec1 = Some r' /\ Spec.evolves rec1 r'.
Proof.
  destruct (ReaderProps.query_schedule (w_logs created) ReaderProps.created_log) as [q Hq].
  assert (Hwr : Reader.written (w_logs empty_world)) by (by intros ns st _).
  destruct (read_your_writes 2 entropy2 0 0 (proj1 entropy2_ok) (proj2 entropy2_ok) ReaderProps.headers_ok
    empty_world after_create _ 0 0 create1 empty_world rec1 true 0 "work/q1" (Reader.opened (w_logs created)) 0
    Hwr empty_ok creates eq_refl eq_refl
    (whole_reads 2 entropy2 0 0 _ _ _ _ [((0, create1), empty_world, Ret (Ok (rec1, true)))] created Hq) eq_refl (le_n 0))
    as (i & g & Hi & Hg & [H|(subj & k & d & _ & Hk & Hl)]).
  - cbn [store] in Hi. rewrite ReaderProps.at_instance in Hi. injection Hi as <-. exact H.
  - exfalso. cbn [store server] in Hg, Hk, Hl. rewrite ReaderProps.at_run in Hg. injection Hg as <-. cbn [Reader.spec after_create server] in Hk, Hl.
    rewrite ReaderProps.created_log in Hk, Hl. apply lookup_lt_Some in Hl. cbn in Hk, Hl. lia.
Defined.
End example.
End Whole.
