(* ===== verification/Lifecycle.v ===== *)
(** * The composition root: [natsstore.go], [embedded.go], [lockedengine.go], the store lock
    and [paths.go].

    Opening and closing are programs over the calls they make of the operating system, the
    embedded server and the client; a handle is a number.  The locals a Go function may
    set to nil are options, and a method that mutates its receiver returns it. *)

From S2P Require Import Prelude GoText GoTime GoPath GoUrl Storage Nats Prog Lease Ledger.
From Stdlib Require Import Ascii.
Open Scope stdpp_scope.
Open Scope go_scope.
Import GoTime GoPath.

Module Lifecycle.

(** ** The calls *)

Record serverOptions := {
  so_JetStream : bool; so_StoreDir : string; so_DontListen : bool; so_SyncInterval : Z; so_MaxPayload : Z;
  so_NoSigs : bool; so_NoLog : bool }.
Inductive dial := InProcessServer (srv : nat) | RemoteURL (url : string) (timeout drainTimeout : Z).
Record KeyValueConfig := { kc_Bucket : string; kc_TTL : Z; kc_Storage : N; kc_History : N; kc_Replicas : N }.
Record ObjectStoreConfig := { oc_Bucket : string; oc_Storage : N; oc_Replicas : N }.
Inductive flock_result := FlockHeld | FlockWouldBlock | FlockError (e : error).

Inductive call_ :=
  | os_Getenv (key : string)
  | os_UserHomeDir
  | os_MkdirAll (path : string) (perm : N)
  | filepath_Abs (path : string)
  | filepath_EvalSymlinks (path : string)
  | server_NewServer (opts : serverOptions)
  | srv_Start (srv : nat)                     (* go srv.Start() *)
  | srv_ReadyForConnections (srv : nat) (timeout : Z)
  | srv_Shutdown (srv : nat)
  | srv_WaitForShutdown (srv : nat)
  | nats_Connect (target : dial)
  | nc_JetStream (nc : nat)
  | nc_Close (nc : nat)
  | nc_Drain (nc : nat)
  | jetstream_New (nc : nat)
  | jsx_CreateOrUpdateKeyValue (jsx : nat) (cfg : KeyValueConfig)
  | jsx_CreateOrUpdateObjectStore (jsx : nat) (cfg : ObjectStoreConfig)
  | storage_NewComposite                      (* whether its OrderedIndex is the *orderedStore *)
  | ordered_Close
  | os_OpenFile (path : string) (perm : N)
  | flock_EX (path : string) (fd : nat)       (* LOCK_EX|LOCK_NB on the file opened at the path *)
  | flock_UN (fd : nat)
  | file_Close (fd : nat).

Definition reply_ (c : call_) : Type :=
  match c with
  | os_Getenv _ => string
  | os_UserHomeDir | filepath_Abs _ | filepath_EvalSymlinks _ => res string
  | os_MkdirAll _ _ | nc_Drain _ | ordered_Close | flock_UN _ | file_Close _ => option error
  | srv_Start _ | srv_Shutdown _ | srv_WaitForShutdown _ | nc_Close _ => unit
  | server_NewServer _ | nats_Connect _ | nc_JetStream _ | jetstream_New _ => res nat
  | jsx_CreateOrUpdateKeyValue _ _ | jsx_CreateOrUpdateObjectStore _ _ | os_OpenFile _ _ => res nat
  | srv_ReadyForConnections _ _ => bool
  | storage_NewComposite => res bool
  | flock_EX _ _ => flock_result
  end.

Notation OM := (prog reply_).
Definition odo (c : call_) : OM (reply_ c) := call c.

(** ** Options *)

Definition leaseBucketName : string := "natsstore_leases".
Definition kvBucketName : string := "natsstore_kv".
Definition blobsBucketName : string := "natsstore_blobs".
Definition remoteConnectTimeout : Z := 10 * second.
Definition remoteDrainTimeout : Z := 30 * second.
Definition defaultDirName : string := ".looprig".
Definition jetstreamDirName : string := "jetstream".
Definition storeDirPerm : N := 448.           (* 0o700 *)
Definition defaultSyncInterval : Z := 2 * second.
Definition readyTimeout : Z := 10 * second.
Definition maxPayload : Z := 8388608.
Definition natsSubDir : string := "nats".
Definition storeLockFileName : string := "store.lock".
Definition storeLockFilePerm : N := 384.      (* 0o600 *)

Record Options := { URL : string; EmbeddedDir : string; MaxPayload : Z }.
Inductive storeMode := modeInvalid | modeEmbedded | modeRemote.
Record resolvedOptions := { ro_mode : storeMode; ro_url : string; ro_embeddedDir : string; ro_maxPayload : Z }.

Definition resolveMaxPayload (requested : Z) : res Z :=
  if (requested <=? 0)%Z then Ok maxPayload
  else if (requested <? Ledger.ledgerMaxMsgSize)%Z then
    Err (OptionsError "MaxPayload" ("must be >= the ledger stream ceiling (" +:+ FormatInt Ledger.ledgerMaxMsgSize +:+ " bytes)"))
  else Ok requested.

Definition resolve (o : Options) : res resolvedOptions :=
  let hasURL := negb (String.eqb (TrimSpace (URL o)) EmptyString) in
  let hasDir := negb (String.eqb (TrimSpace (EmbeddedDir o)) EmptyString) in
  if hasURL && hasDir then Err (OptionsError "URL/EmbeddedDir" "exactly one of URL or EmbeddedDir must be set, not both")
  else if negb hasURL && negb hasDir then Err (OptionsError "URL/EmbeddedDir" "exactly one of URL or EmbeddedDir must be set")
  else if hasDir then
    let dir := Clean (EmbeddedDir o) in
    if negb (IsAbs dir) then Err (OptionsError "EmbeddedDir" "must be an absolute path")
    else
      maxPay <-? resolveMaxPayload (MaxPayload o);
      Ok {| ro_mode := modeEmbedded; ro_url := EmptyString; ro_embeddedDir := dir; ro_maxPayload := maxPay |}
  else Ok {| ro_mode := modeRemote; ro_url := TrimSpace (URL o); ro_embeddedDir := EmptyString; ro_maxPayload := 0 |}.

(** ** The embedded engine *)

Record EngineOptions := { DataDir : string; SyncInterval : Z; eo_MaxPayload : Z }.
Record Engine := { e_srv : option nat; e_nc : option nat; e_js : nat }.

Definition containmentRoot : OM (res string) :=
  xdg <- odo (os_Getenv "XDG_DATA_HOME");
  if negb (String.eqb (TrimSpace xdg) EmptyString) then Ret (Ok (TrimSpace xdg))
  else
    home <- odo os_UserHomeDir;
    match home with Err err => Ret (Err (StoreDirError EmptyString (Some err))) | Ok home => Ret (Ok home) end.

Definition defaultDataDir : OM (res string) :=
  xdg <- odo (os_Getenv "XDG_DATA_HOME");
  if negb (String.eqb (TrimSpace xdg) EmptyString) then Ret (Ok (Join [TrimSpace xdg; "looprig"; jetstreamDirName]))
  else
    home <- odo os_UserHomeDir;
    match home with
    | Err err => Ret (Err (StoreDirError EmptyString (Some err)))
    | Ok home => Ret (Ok (Join [home; defaultDirName; jetstreamDirName]))
    end.

Definition DefaultEngineOptions : OM (res EngineOptions) :=
  dir <-! defaultDataDir;
  Ret (Ok {| DataDir := dir; SyncInterval := defaultSyncInterval; eo_MaxPayload := 0 |}).

Definition resolveStoreDir (root dataDir : string) : res string :=
  if String.eqb (TrimSpace root) EmptyString
  then Err (StoreDirError dataDir (Some (Leaf "natsstore: empty home root")))
  else if String.eqb (TrimSpace dataDir) EmptyString
  then Err (StoreDirError EmptyString (Some (Leaf "natsstore: empty data dir")))
  else
    let cleanRoot := Clean root in
    let clean := Clean dataDir in
    match Rel cleanRoot clean with
    | None => Err (StoreDirError clean (Some (Leaf "Rel")))
    | Some rel =>
        if String.eqb rel ".." || HasPrefix rel "../"
        then Err (StoreDirError clean (Some (Leaf "natsstore: StoreDir escapes the home root")))
        else Ok clean
    end.

Definition openEngineAt (storeDir : string) (sync maxPay : Z) : OM (res Engine) :=
  err <- odo (os_MkdirAll storeDir storeDirPerm);
  match err with
  | Some err => Ret (Err (StoreDirError storeDir (Some err)))
  | None =>
      let sync := if (sync <=? 0)%Z then defaultSyncInterval else sync in
      let maxPay := if (maxPay <=? 0)%Z then maxPayload else maxPay in
      r <- odo (server_NewServer {| so_JetStream := true; so_StoreDir := storeDir; so_DontListen := true;
             so_SyncInterval := sync; so_MaxPayload := maxPay; so_NoSigs := true; so_NoLog := true |});
      match r with
      | Err err => Ret (Err (ServerStartError (Some err)))
      | Ok srv =>
          _ <- odo (srv_Start srv);
          ready <- odo (srv_ReadyForConnections srv readyTimeout);
          if negb ready then _ <- odo (srv_Shutdown srv); Ret (Err (ServerStartError (Some errServerNotReady)))
          else
            r <- odo (nats_Connect (InProcessServer srv));
            match r with
            | Err err => _ <- odo (srv_Shutdown srv); Ret (Err (ServerStartError (Some err)))
            | Ok nc =>
                r <- odo (nc_JetStream nc);
                match r with
                | Err err => _ <- odo (nc_Close nc); _ <- odo (srv_Shutdown srv); Ret (Err (ServerStartError (Some err)))
                | Ok js => Ret (Ok {| e_srv := Some srv; e_nc := Some nc; e_js := js |})
                end
            end
      end
  end.

Definition OpenEngine (opts : EngineOptions) : OM (res Engine) :=
  root <-! containmentRoot;
  storeDir <-! Ret (resolveStoreDir root (DataDir opts));
  openEngineAt storeDir (SyncInterval opts) (eo_MaxPayload opts).

Definition Engine_Close (e : Engine) : OM (option error) :=
  err <- (match e_nc e with Some nc => odo (nc_Drain nc) | None => Ret None end);
  _ <- (match e_srv e with
        | Some srv => _ <- odo (srv_Shutdown srv); odo (srv_WaitForShutdown srv)
        | None => Ret tt
        end);
  Ret err.

(** ** The store lock *)

(** The descriptor a [flockStoreLock] holds, until [Unlock]. *)
Definition storeLock : Type := option nat.

Definition acquireStoreLock (dir : string) : OM (res nat) :=
  let path := Join [dir; storeLockFileName] in
  r <- odo (os_OpenFile path storeLockFilePerm);
  match r with
  | Err err => Ret (Err (StoreLockError path (Some err)))
  | Ok fd =>
      f <- odo (flock_EX path fd);
      match f with
      | FlockHeld => Ret (Ok fd)
      | FlockWouldBlock => _ <- odo (file_Close fd); Ret (Err (StoreLockedError path))
      | FlockError err => _ <- odo (file_Close fd); Ret (Err (StoreLockError path (Some err)))
      end
  end.

(** The other build: no flock, no lock. *)
Definition acquireStoreLock_unsupported (dir : string) : OM (res nat) := Ret (Err errStoreLockUnsupported).

Definition Unlock (l : storeLock) : OM (option error * storeLock) :=
  match l with
  | None => Ret (None, None)
  | Some fd =>
      unlockErr <- odo (flock_UN fd);
      closeErr <- odo (file_Close fd);
      Ret (match unlockErr with Some e => Some e | None => closeErr end, None)
  end.

Record LockedEngine := { le_engine : option Engine; le_lock : option nat }.

Definition OpenLockedEngine (unix : bool) (dir : string) : OM (res LockedEngine) :=
  lock <-! (if unix then acquireStoreLock dir else acquireStoreLock_unsupported dir);
  r <- OpenEngine {| DataDir := Join [dir; natsSubDir]; SyncInterval := 0; eo_MaxPayload := 0 |};
  match r with
  | Err err => _ <- Unlock (Some lock); Ret (Err err)
  | Ok engine => Ret (Ok {| le_engine := Some engine; le_lock := Some lock |})
  end.

(** [None] is a nil receiver. *)
Definition LockedEngine_Close (e : option LockedEngine) : OM (option error * option LockedEngine) :=
  match e with
  | None => Ret (None, None)
  | Some e =>
      engineErr <- (match le_engine e with Some eng => Engine_Close eng | None => Ret None end);
      lockErr <- (match le_lock e with Some fd => r <- Unlock (Some fd); Ret (fst r) | None => Ret None end);
      Ret (match engineErr with Some err => Some err | None => lockErr end,
           Some {| le_engine := None; le_lock := None |})
  end.

(** [LockedEngine.JetStream]; [None] is nil. *)
Definition LockedEngine_JetStream (e : option LockedEngine) : option nat :=
  match e with None => None | Some e => match le_engine e with None => None | Some eng => Some (e_js eng) end end.

(** ** The store *)

(** [closeBackend]: the engine's [Close], or the connection's [Drain]. *)
Inductive backend := BackendEngine (e : Engine) | BackendConn (nc : nat).
Record Store := { s_paths : list string; s_ordered : bool; s_backend : option backend; s_closed : bool }.

(** What [buildComposite] binds to: the three buckets. *)
Record backingBuckets := { b_lease : nat; b_kv : nat; b_obj : nat }.

Section store.
Context {J : JetStream}.

Definition kvBucketConfig (bucket : string) : KeyValueConfig :=
  {| kc_Bucket := bucket; kc_TTL := 0; kc_Storage := FileStorage; kc_History := 1; kc_Replicas := 1 |}.
Definition leaseBucketConfig (bucket : string) (ttl : Z) : KeyValueConfig :=
  {| kc_Bucket := bucket; kc_TTL := Lease.backstopBucketTTL ttl; kc_Storage := FileStorage; kc_History := 1; kc_Replicas := 1 |}.
Definition objectStoreConfig (bucket : string) : ObjectStoreConfig :=
  {| oc_Bucket := bucket; oc_Storage := FileStorage; oc_Replicas := 1 |}.

(** [return _, &WiringError{Component: component, Cause: err}]. *)
Definition wiring {A} (component : string) (r : res A) : res A :=
  match r with Ok a => Ok a | Err err => Err (WiringError component err) end.

Definition provisionBuckets (jsx : nat) : OM (res backingBuckets) :=
  r <- odo (jsx_CreateOrUpdateKeyValue jsx (leaseBucketConfig leaseBucketName Lease.defaultLeaseTTL));
  lease <-! Ret (wiring "lease-bucket" r);
  r <- odo (jsx_CreateOrUpdateKeyValue jsx (kvBucketConfig kvBucketName));
  kv <-! Ret (wiring "kv-bucket" r);
  r <- odo (jsx_CreateOrUpdateObjectStore jsx (objectStoreConfig blobsBucketName));
  obj <-! Ret (wiring "blobs-bucket" r);
  Ret (Ok {| b_lease := lease; b_kv := kv; b_obj := obj |}).

(** The answer is whether the composite's ordered index is an [*orderedStore]. *)
Definition buildComposite (conn : nat) : OM (res bool) :=
  r <- odo (nc_JetStream conn);
  _ <-! Ret (wiring "jetstream-context" r);
  r <- odo (jetstream_New conn);
  jsx <-! Ret (wiring "jetstream" r);
  _ <-! provisionBuckets jsx;
  r <- odo storage_NewComposite;
  Ret (wiring "composite" r).

Definition newStore (paths : list string) (b : backend) : Store :=
  {| s_paths := paths; s_ordered := true; s_backend := Some b; s_closed := false |}.

Definition wireStore (conn : nat) (paths : list string) (b : backend) : OM (res Store) :=
  ok <-! buildComposite conn;
  if negb ok then Ret (Err (WiringError "ordered-index" (Leaf "natsstore: composite ordered index has unexpected implementation")))
  else Ret (Ok (newStore paths b)).

Definition canonicalStoragePath (path : string) : OM (res string) :=
  r <- odo (filepath_Abs (Clean path));
  match r with
  | Err err => Ret (Err (StoreDirError path (Some err)))
  | Ok abs =>
      r <- odo (filepath_EvalSymlinks abs);
      match r with Err err => Ret (Err (StoreDirError path (Some err))) | Ok canonical => Ret (Ok (Clean canonical)) end
  end.

(** [Engine.Conn]: the connection of an engine just opened. *)
Definition openEmbedded (ro : resolvedOptions) : OM (res Store) :=
  eng <-! openEngineAt (ro_embeddedDir ro) 0 (ro_maxPayload ro);
  r <- canonicalStoragePath (ro_embeddedDir ro);
  match r with
  | Err err => _ <- Engine_Close eng; Ret (Err err)
  | Ok canonical =>
      match e_nc eng with
      | None => Ret (Err (Panic "nil connection"))
      | Some nc =>
          r <- wireStore nc [canonical] (BackendEngine eng);
          match r with Err err => _ <- Engine_Close eng; Ret (Err err) | Ok st => Ret (Ok st) end
      end
  end.

(** The host parser of [net/url]. *)
Context (parseHost : string -> string -> option string).

(** One entry of a list of servers, as it is shown. *)
Definition redact_entry (p : string) : string :=
  match GoUrl.Parse parseHost p with Some u => GoUrl.Redacted u | None => "[redacted]" end.

Definition redactURL (raw : string) : string :=
  join_on "," (map (fun p => redact_entry (TrimSpace p)) (split_on "," raw)).

Definition openRemote (ro : resolvedOptions) : OM (res Store) :=
  r <- odo (nats_Connect (RemoteURL (ro_url ro) remoteConnectTimeout remoteDrainTimeout));
  match r with
  | Err err => Ret (Err (ConnectError (redactURL (ro_url ro)) err))
  | Ok conn =>
      r <- wireStore conn [] (BackendConn conn);
      match r with Err err => _ <- odo (nc_Close conn); Ret (Err err) | Ok st => Ret (Ok st) end
  end.

Definition Open_ (opts : Options) : OM (res Store) :=
  ro <-! Ret (resolve opts);
  match ro_mode ro with
  | modeEmbedded => openEmbedded ro
  | modeRemote => openRemote ro
  | modeInvalid => Ret (Err (OptionsError "URL/EmbeddedDir" "no store mode resolved"))
  end.

Definition close_backend (b : backend) : OM (option error) :=
  match b with BackendEngine e => Engine_Close e | BackendConn nc => odo (nc_Drain nc) end.

(** Under the store's mutex. *)
Definition Store_Close (s : Store) : OM (option error * Store) :=
  if s_closed s then Ret (None, s)
  else
    let s := {| s_paths := s_paths s; s_ordered := s_ordered s; s_backend := s_backend s; s_closed := true |} in
    orderedErr <- (if s_ordered s then odo ordered_Close else Ret None);
    backendErr <- (match s_backend s with Some b => close_backend b | None => Ret None end);
    Ret (errors_Join [orderedErr; backendErr], s).

Definition StoragePaths (s : Store) : list string := s_paths s.
End store.

End Lifecycle.
