(* ===== verification/LifecycleProps.v ===== *)
(** * The composition root: what opening and closing guarantee.

    A trace of calls is accounted for: the servers, connections and files it leaves open, and
    the locks it leaves held.  An [Open] that fails leaves nothing, a [Close] leaves nothing,
    and a locked engine's server runs only while its directory is locked. *)

From S2P Require Import Prelude GoText GoTime GoPath Storage Nats Prog Lease Ledger Lifecycle.
From Stdlib Require Import Ascii.
Open Scope stdpp_scope.
Open Scope go_scope.
Import GoTime GoPath Lifecycle.

Module LifecycleProps.

(** ** Accounting *)

Inductive resource := RServer (n : nat) | RConn (n : nat) | RFile (n : nat).
#[export] Instance resource_eq_dec : EqDecision resource.
Proof. solve_decision. Defined.

Definition drop (r : resource) (s : list resource) : list resource := filter (fun x => x <> r) s.
Definition take_ok (f : nat -> resource) (r : res nat) (s : list resource) : list resource :=
  match r with Ok n => f n :: s | Err _ => s end.

(** What a call opens or closes.  [Drain] lets go of the connection: the client closes it in
    the background once it is drained. *)
Definition account (s : list resource) (x : ans reply_) : list resource :=
  let 'existT c r := x in
  match c return reply_ c -> list resource with
  | server_NewServer _ => fun r => take_ok RServer r s
  | nats_Connect _ => fun r => take_ok RConn r s
  | os_OpenFile _ _ => fun r => take_ok RFile r s
  | srv_Shutdown n => fun _ => drop (RServer n) s
  | nc_Close n | nc_Drain n => fun _ => drop (RConn n) s
  | file_Close n => fun _ => drop (RFile n) s
  | _ => fun _ => s
  end r.
Definition live (s : list resource) (tr : list (ans reply_)) : list resource := foldl account s tr.

(** The locks held, by path and descriptor. *)
Definition lock (h : list (string * nat)) (x : ans reply_) : list (string * nat) :=
  let 'existT c r := x in
  match c return reply_ c -> list (string * nat) with
  | flock_EX path fd => fun r => match r with FlockHeld => (path, fd) :: h | _ => h end
  | flock_UN fd | file_Close fd => fun _ => filter (fun p => p.2 <> fd) h
  | _ => fun _ => h
  end r.
Definition held (h : list (string * nat)) (tr : list (ans reply_)) : list (string * nat) := foldl lock h tr.

Definition is_file (r : resource) : Prop := match r with RFile _ => True | _ => False end.

Lemma live_app s t1 t2 : live s (t1 ++ t2) = live (live s t1) t2.
Proof. apply foldl_app. Qed.
Lemma held_app h t1 t2 : held h (t1 ++ t2) = held (held h t1) t2.
Proof. apply foldl_app. Qed.

Lemma drop_files r s : ~ is_file r -> Forall is_file s -> drop r s = s.
Proof.
  intros Hr. induction 1 as [|x s Hx _ IH]; [done|]. unfold drop in *.
  rewrite filter_cons_True; [by rewrite IH|]. by intros ->.
Qed.
Lemma drop_server n s : Forall is_file s -> drop (RServer n) s = s.
Proof. by apply drop_files; intros []. Qed.
Lemma drop_conn n s : Forall is_file s -> drop (RConn n) s = s.
Proof. by apply drop_files; intros []. Qed.
Lemma drop_head r s : drop r (r :: s) = drop r s.
Proof. unfold drop. by rewrite filter_cons_False by (intros H; by apply H). Qed.
Lemma drop_other r x s : x <> r -> drop r (x :: s) = x :: drop r s.
Proof. intros H. unfold drop. by rewrite filter_cons_True. Qed.

Ltac accounts := unfold live; cbn [foldl account take_ok].

(** Programs that open and close nothing. *)
Definition quiet (c : call_) : Prop :=
  match c with
  | server_NewServer _ | nats_Connect _ | os_OpenFile _ _ | srv_Shutdown _ | nc_Close _ | nc_Drain _ | file_Close _
  | flock_EX _ _ | flock_UN _ => False
  | _ => True
  end.
Notation silent := (every (fun _ _ => True) quiet).

Lemma silent_exec {A} (p : OM A) tr a s h : silent p -> exec p tr a -> live s tr = s /\ held h tr = h.
Proof.
  revert tr. induction p as [x|c k IH]; intros tr.
  - by intros _ [-> _].
  - intros [Hq Hk] (r & tr' & -> & He). destruct (IH r tr' (Hk r I) He) as [H1 H2].
    assert (E : account s (existT c r) = s /\ lock h (existT c r) = h) by by destruct c.
    destruct E as [E1 E2].
    change (live (account s (existT c r)) tr' = s /\ held (lock h (existT c r)) tr' = h). by rewrite E1, E2.
Qed.

Lemma silent_containmentRoot : silent containmentRoot.
Proof. split; [done|]. intros xdg _. cbn. case_match; [done|]. split; [done|]. intros [?|?] _; done. Qed.

Section with_nats.
Context {J : JetStream}.

Lemma silent_res {A B} (p : OM (res A)) (f : A -> OM (res B)) :
  silent p -> (forall a, silent (f a)) -> silent (bind_res p f).
Proof. intros Hp Hf. apply every_bind; [done|]. by intros [a|e]. Qed.

Lemma silent_canonical path : silent (canonicalStoragePath path).
Proof. split; [done|]. intros [abs|e] _; [|done]. split; [done|]. by intros [c|e] _. Qed.

Lemma silent_buildComposite nc : silent (buildComposite nc).
Proof.
  split; [done|]. intros r _. apply silent_res; [done|]. intros _. split; [done|]. intros r2 _.
  apply silent_res; [done|]. intros jsx. apply silent_res; [|by intros _; split].
  unfold provisionBuckets. split; [done|]. intros r3 _. apply silent_res; [done|]. intros l.
  split; [done|]. intros r4 _. apply silent_res; [done|]. intros k. split; [done|]. intros r5 _. by apply silent_res.
Qed.

Lemma silent_wireStore nc paths b : silent (wireStore nc paths b).
Proof. apply silent_res; [apply silent_buildComposite|]. intros ok. by destruct (negb ok). Qed.

(** ** The engine *)

Definition engine_of (srv nc js : nat) : Engine := {| e_srv := Some srv; e_nc := Some nc; e_js := js |}.

Lemma openEngineAt_accounts d sy mp tr r s h :
  Forall is_file s -> exec (openEngineAt d sy mp) tr r ->
  held h tr = h /\
  match r with
  | Ok e => exists srv nc js, e = engine_of srv nc js /\ live s tr = RConn nc :: RServer srv :: s
  | Err _ => live s tr = s
  end.
Proof.
  intros Hs (err & t1 & -> & H). destruct err as [err|]; [by destruct H as [-> ->]|].
  destruct H as (srv & t2 & -> & H). destruct srv as [srv|err]; [|by destruct H as [-> ->]].
  destruct H as ([] & t3 & -> & H). destruct H as (ready & t4 & -> & H). destruct ready.
  2: { destruct H as ([] & t5 & -> & [-> ->]). split; [done|]. accounts. by rewrite drop_head, drop_server. }
  destruct H as (nc & t5 & -> & H). destruct nc as [nc|err].
  2: { destruct H as ([] & t6 & -> & [-> ->]). split; [done|]. accounts. by rewrite drop_head, drop_server. }
  destruct H as (js & t6 & -> & H). destruct js as [js|err].
  - destruct H as [-> ->]. split; [done|]. by exists srv, nc, js.
  - destruct H as ([] & t7 & -> & ([] & t8 & -> & [-> ->])). split; [done|]. accounts.
    by rewrite drop_head, drop_other, drop_conn, drop_head, drop_server.
Qed.

Lemma Engine_Close_accounts srv nc js tr err s h :
  Forall is_file s -> exec (Engine_Close (engine_of srv nc js)) tr err ->
  held h tr = h /\ live (RConn nc :: RServer srv :: s) tr = s.
Proof.
  intros Hs (e & t1 & -> & ([] & t2 & -> & ([] & t3 & -> & [-> _]))). split; [done|]. accounts.
  by rewrite drop_head, drop_other, drop_conn, drop_head, drop_server.
Qed.

(** ** The store *)

Context (parseHost : string -> string -> option string).

Definition store_resources (st : Store) : list resource :=
  match s_backend st with
  | Some (BackendEngine e) =>
      match e_nc e, e_srv e with Some nc, Some srv => [RConn nc; RServer srv] | _, _ => [] end
  | Some (BackendConn nc) => [RConn nc]
  | None => []
  end.

Definition just_opened (st : Store) : Prop :=
  exists paths b, st = newStore paths b /\
    match b with BackendEngine e => exists srv nc js, e = engine_of srv nc js | BackendConn _ => True end.

Lemma wireStore_Ok nc paths b tr st :
  exec (wireStore nc paths b) tr (Ok st) -> st = newStore paths b.
Proof.
  intros (r & t1 & t2 & -> & _ & H)%exec_bind. destruct r as [ok|e]; [|by destruct H as [_ ?]].
  destruct (negb ok); [by destruct H as [_ ?]|]. by destruct H as [_ [= ->]].
Qed.

Lemma openEmbedded_accounts ro tr r :
  exec (openEmbedded ro) tr r ->
  match r with Ok st => live [] tr = store_resources st /\ just_opened st | Err _ => live [] tr = [] end.
Proof.
  intros (eng & t1 & t2 & -> & H1 & H)%exec_bind. rewrite live_app.
  destruct (openEngineAt_accounts _ _ _ _ _ [] [] (Forall_nil_2 _) H1) as [_ HL].
  destruct eng as [eng|err]; [|by destruct H as [-> ->]]. destruct HL as (srv & nc & js & -> & ->).
  apply exec_bind in H as (can & t3 & t4 & -> & H2 & H). rewrite live_app.
  destruct (silent_exec _ _ _ [RConn nc; RServer srv] [] (silent_canonical _) H2) as [-> _].
  destruct can as [can|err].
  2: { apply exec_bind in H as (e & t5 & t6 & -> & H3 & [-> ->]). rewrite app_nil_r.
       by apply (Engine_Close_accounts srv nc js _ _ [] [] (Forall_nil_2 _)) in H3 as [_ ->]. }
  apply exec_bind in H as (w & t5 & t6 & -> & H3 & H). rewrite live_app.
  destruct (silent_exec _ _ _ [RConn nc; RServer srv] [] (silent_wireStore _ _ _) H3) as [-> _].
  destruct w as [st|err].
  - destruct H as [-> ->]. apply wireStore_Ok in H3 as ->. split; [done|].
    exists [can], (BackendEngine (engine_of srv nc js)). split; [done|]. by exists srv, nc, js.
  - apply exec_bind in H as (e & t7 & t8 & -> & H4 & [-> ->]). rewrite app_nil_r.
    by apply (Engine_Close_accounts srv nc js _ _ [] [] (Forall_nil_2 _)) in H4 as [_ ->].
Qed.

Lemma openRemote_accounts ro tr r :
  exec (openRemote parseHost ro) tr r ->
  match r with Ok st => live [] tr = store_resources st /\ just_opened st | Err _ => live [] tr = [] end.
Proof.
  intros (conn & t1 & -> & H). cbn [bind] in H. destruct conn as [nc|err]; [|by destruct H as [-> ->]].
  apply exec_bind in H as (w & t2 & t3 & -> & H1 & H). change (existT ?c ?x :: ?a ++ ?b) with ([existT c x] ++ a ++ b).
  rewrite !live_app. change (live [] [existT (nats_Connect _) (Ok nc)]) with [RConn nc].
  destruct (silent_exec _ _ _ [RConn nc] [] (silent_wireStore _ _ _) H1) as [-> _]. destruct w as [st|err].
  - destruct H as [-> ->]. apply wireStore_Ok in H1 as ->. split; [done|]. by exists [], (BackendConn nc).
  - destruct H as ([] & t4 & -> & [-> ->]). accounts. by rewrite drop_head.
Qed.

(** C22. An [Open] that fails, at whatever step, has shut down the server and closed the
    connection it made: it leaves nothing.  One that succeeds leaves exactly what its [Close]
    then releases: the ordered index is closed before the connection is drained, a server is
    shut down after it, their errors are joined, and a second [Close] does nothing at all. *)
Theorem store_lifecycle opts tr r :
  exec (Open_ parseHost opts) tr r ->
  match r with
  | Err _ => live [] tr = []
  | Ok st => live [] tr = store_resources st /\
      forall tr' err st', exec (Store_Close st) tr' (err, st') ->
        live (store_resources st) tr' = [] /\
        (exists orderedErr nc drainErr rest, tr' = existT ordered_Close orderedErr :: existT (nc_Drain nc) drainErr :: rest /\
           err = errors_Join [orderedErr; drainErr]) /\
        forall tr2 o, exec (Store_Close st') tr2 o -> tr2 = [] /\ o = (None, st')
  end.
Proof.
  unfold Open_. intros (ro & t1 & t2 & -> & [-> ->] & H)%exec_bind. cbn [app].
  assert (Ha : match r with Ok st => live [] t2 = store_resources st /\ just_opened st | Err _ => live [] t2 = [] end).
  { destruct (resolve opts) as [ro|e]; [|by destruct H as [-> ->]].
    destruct (ro_mode ro); [by destruct H as [-> ->]|by apply (openEmbedded_accounts ro)|by apply (openRemote_accounts ro)]. }
  destruct r as [st|e]; [|done]. destruct Ha as [-> (paths & b & -> & Hb)]. split; [done|].
  intros tr' err st' (e1 & t3 & -> & Hc). cbn [bind s_ordered newStore s_backend s_closed] in Hc.
  apply exec_bind in Hc as (e2 & t4 & t5 & -> & Hc & [-> [= -> ->]]). rewrite app_nil_r.
  split; [|split; [|by intros tr2 o [-> ->]]].
  - change (live (store_resources (newStore paths b)) t4 = []). destruct b as [e|nc].
    + destruct Hb as (srv & nc & js & ->). change (live [RConn nc; RServer srv] t4 = []).
      by apply (Engine_Close_accounts srv nc js _ _ [] [] (Forall_nil_2 _)) in Hc as [_ ->].
    + destruct Hc as (e & t6 & -> & [-> ->]). change (drop (RConn nc) [RConn nc] = []). by rewrite drop_head.
  - destruct b as [e|nc].
    + destruct Hb as (srv & nc & js & ->). destruct Hc as (e & t6 & -> & ([] & t7 & -> & ([] & t8 & -> & [-> ->]))).
      by eexists e1, nc, e, _.
    + destruct Hc as (e & t6 & -> & [-> ->]). by eexists e1, nc, e, [].
Qed.
End with_nats.

(** ** The locked engine *)

Definition lock_path (dir : string) : string := Join [dir; storeLockFileName].

(** At every moment of a trace, a running server means a held lock of the path. *)
Fixpoint guarded (path : string) (s : list resource) (h : list (string * nat)) (tr : list (ans reply_)) : Prop :=
  ((exists n, RServer n ∈ s) -> exists fd, (path, fd) ∈ h) /\
  match tr with [] => True | x :: tr => guarded path (account s x) (lock h x) tr end.

Lemma guarded_app path s h t1 t2 :
  guarded path s h (t1 ++ t2) <-> guarded path s h t1 /\ guarded path (live s t1) (held h t1) t2.
Proof.
  revert s h. induction t1 as [|x t1 IH]; intros s h.
  - cbn [app]. split; [intros H; split; [|done]|tauto]. split; [|done]. by destruct t2; destruct H.
  - cbn [app guarded]. rewrite IH. change (live s (x :: t1)) with (live (account s x) t1).
    change (held h (x :: t1)) with (held (lock h x) t1). tauto.
Qed.

Lemma guarded_now path s h tr :
  guarded path s h tr -> (exists n, RServer n ∈ live s tr) -> exists fd, (path, fd) ∈ held h tr.
Proof. rewrite <- (app_nil_r tr). rewrite guarded_app, app_nil_r. intros [_ [H _]]. exact H. Qed.

(** While the lock is held and nobody lets go of it. *)
Lemma guarded_locked path fd s h tr :
  (path, fd) ∈ h -> (forall t1 t2, tr = t1 ++ t2 -> held h t1 = h) -> guarded path s h tr.
Proof.
  revert s. induction tr as [|x tr IH]; intros s Hin Hh; [split; [by eexists|done]|]. split; [by eexists|].
  assert (E : lock h x = h) by by apply (Hh [x] tr). rewrite E. apply IH; [done|].
  intros t1 t2 ->. specialize (Hh (x :: t1) t2 eq_refl). change (held (lock h x) t1 = h) in Hh. by rewrite E in Hh.
Qed.

(** Calls that are not of the lock keep it. *)
Definition lockless (c : call_) : Prop :=
  match c with flock_EX _ _ | flock_UN _ | file_Close _ => False | _ => True end.
Lemma lockless_exec {A} (p : OM A) tr a h :
  every (fun _ _ => True) lockless p -> exec p tr a -> forall t1 t2, tr = t1 ++ t2 -> held h t1 = h.
Proof.
  revert tr. induction p as [x|c k IH]; intros tr.
  - intros _ [-> _] t1 t2 E. by destruct t1.
  - intros [Hq Hk] (r & tr' & -> & He) t1 t2 E. destruct t1 as [|x t1]; [done|]. injection E as <- E.
    change (held (lock h (existT c r)) t1 = h). assert (El : lock h (existT c r) = h) by by destruct c.
    rewrite El. by apply (IH r tr' (Hk r I) He t1 t2).
Qed.

Lemma lockless_OpenEngine opts : every (fun _ _ => True) lockless (OpenEngine opts).
Proof.
  apply every_bind; [split; [done|]; intros xdg _; cbn; case_match; [done|]; split; [done|]; by intros [?|?] _|].
  intros [root|e]; [|done]. apply every_bind; [done|]. intros [d|e]; [|done].
  unfold openEngineAt. split; [done|]. intros [err|] _; [done|]. split; [done|]. intros [srv|e] _; [|done].
  do 2 (split; [done|]; intros ? _). cbn [bind]. case_match; [by split|]. split; [done|]. intros [nc|e] _; [|by split].
  split; [done|]. intros [js|e] _; [done|]. split; [done|]. intros ? _. by split.
Qed.

Lemma lockless_Engine_Close e : every (fun _ _ => True) lockless (Engine_Close e).
Proof.
  apply every_bind; [by destruct (e_nc e)|]. intros err. apply every_bind; [|done].
  destruct (e_srv e); [|done]. by repeat split.
Qed.

Lemma OpenEngine_accounts opts tr r s :
  Forall is_file s -> exec (OpenEngine opts) tr r ->
  match r with
  | Ok e => exists srv nc js, e = engine_of srv nc js /\ live s tr = RConn nc :: RServer srv :: s
  | Err _ => live s tr = s
  end.
Proof.
  intros Hs (root & t1 & t2 & -> & H1 & H)%exec_bind. rewrite live_app.
  destruct (silent_exec _ _ _ s [] silent_containmentRoot H1) as [-> _]. destruct root as [root|e]; [|by destruct H as [-> ->]].
  apply exec_bind in H as (d & t3 & t4 & -> & [-> ->] & H). cbn [app].
  destruct (resolveStoreDir root (DataDir opts)) as [d|e]; [|by destruct H as [-> ->]].
  exact (proj2 (openEngineAt_accounts _ _ _ _ _ s [] Hs H)).
Qed.

Lemma acquireStoreLock_accounts dir tr r :
  exec (acquireStoreLock dir) tr r ->
  guarded (lock_path dir) [] [] tr /\
  match r with
  | Ok fd => live [] tr = [RFile fd] /\ held [] tr = [(lock_path dir, fd)]
  | Err _ => live [] tr = [] /\ held [] tr = []
  end.
Proof.
  assert (G : forall s (h : list (string * nat)), Forall is_file s -> (exists n, RServer n ∈ s) -> exists fd, (lock_path dir, fd) ∈ h).
  { intros s h Hs [n Hn]. by pose proof (proj1 (Forall_forall _ _) Hs _ Hn). }
  intros (f & t1 & -> & H). destruct f as [fd|err]; [|destruct H as [-> ->]; repeat split; by apply G].
  assert (F : Forall is_file [RFile fd]) by by constructor.
  destruct H as (f & t2 & -> & H). destruct f as [| |err].
  - destruct H as [-> ->]. repeat split; apply G; by constructor.
  - destruct H as (e & t3 & -> & [-> ->]). accounts. unfold held. cbn [foldl lock guarded account take_ok filter].
    rewrite drop_head. repeat split; apply G; by constructor.
  - destruct H as (e & t3 & -> & [-> ->]). accounts. unfold held. cbn [foldl lock guarded account take_ok filter].
    rewrite drop_head. repeat split; apply G; by constructor.
Qed.

Lemma Unlock_accounts path fd tr r :
  exec (Unlock (Some fd)) tr r ->
  guarded path [RFile fd] [(path, fd)] tr /\ live [RFile fd] tr = [] /\ held [(path, fd)] tr = [] /\ r.2 = None.
Proof.
  intros (e1 & t1 & -> & (e2 & t2 & -> & [-> ->])).
  assert (Ef : filter (fun p : string * nat => p.2 <> fd) [(path, fd)] = []).
  { rewrite filter_cons_False; [done|]. cbn. by intros []. }
  unfold live, held. cbn [foldl account lock guarded]. rewrite Ef, drop_head. repeat split.
  - intros _. exists fd. by left.
  - intros [n Hn]. by apply list_elem_of_singleton in Hn.
  - intros [n Hn]. by apply not_elem_of_nil in Hn.
Qed.

Definition locked_of (fd srv nc js : nat) : LockedEngine :=
  {| le_engine := Some (engine_of srv nc js); le_lock := Some fd |}.

Lemma OpenLockedEngine_accounts unix dir tr r :
  exec (OpenLockedEngine unix dir) tr r ->
  guarded (lock_path dir) [] [] tr /\
  match r with
  | Ok e => exists fd srv nc js, e = locked_of fd srv nc js /\
      live [] tr = [RConn nc; RServer srv; RFile fd] /\ held [] tr = [(lock_path dir, fd)]
  | Err _ => live [] tr = [] /\ held [] tr = []
  end.
Proof.
  intros (lk & t1 & t2 & -> & H1 & H)%exec_bind. destruct unix; cycle 1.
  { destruct H1 as [-> ->]. destruct H as [-> ->]. repeat split. intros [n Hn]. by apply not_elem_of_nil in Hn. }
  apply acquireStoreLock_accounts in H1 as [G1 HL]. rewrite live_app, held_app, guarded_app.
  destruct lk as [fd|err]; destruct HL as [HL HH]; rewrite HL, HH; cycle 1.
  { destruct H as [-> ->]. split; [split; [done|]|done]. split; [|done]. intros [n Hn]. by apply not_elem_of_nil in Hn. }
  apply exec_bind in H as (eng & t3 & t4 & -> & H2 & H). rewrite live_app, held_app, guarded_app.
  pose proof (lockless_exec _ _ _ [(lock_path dir, fd)] (lockless_OpenEngine _) H2) as LK.
  rewrite (LK t3 []) by by rewrite app_nil_r.
  assert (F : Forall is_file [RFile fd]) by by constructor.
  apply (OpenEngine_accounts _ _ _ _ F) in H2.
  assert (G2 : guarded (lock_path dir) [RFile fd] [(lock_path dir, fd)] t3) by (apply (guarded_locked _ fd); [by left|done]).
  destruct eng as [eng|err].
  - destruct H2 as (srv & nc & js & -> & ->). destruct H as [-> ->]. split.
    + split; [done|]. split; [done|]. split; [|done]. intros _. exists fd. by left.
    + by exists fd, srv, nc, js.
  - rewrite H2. apply exec_bind in H as (u & t5 & t6 & -> & H3 & [-> ->]). rewrite app_nil_r.
    by apply (Unlock_accounts (lock_path dir)) in H3 as (G3 & -> & -> & _).
Qed.

Definition closed_engine : LockedEngine := {| le_engine := None; le_lock := None |}.

Lemma LockedEngine_Close_accounts path fd srv nc js tr err e' :
  exec (LockedEngine_Close (Some (locked_of fd srv nc js))) tr (err, e') ->
  let s := [RConn nc; RServer srv; RFile fd] in let h := [(path, fd)] in
  guarded path s h tr /\ live s tr = [] /\ held h tr = [] /\ e' = Some closed_engine.
Proof.
  intros (e1 & t1 & t2 & -> & H1 & H)%exec_bind. cbn [locked_of le_lock] in H.
  apply exec_bind in H as (e2 & t3 & t4 & -> & H2 & [-> [= -> ->]]). rewrite app_nil_r.
  apply exec_bind in H2 as (u & t5 & t6 & -> & H2 & [-> _]). rewrite app_nil_r.
  cbv zeta. rewrite live_app, held_app, guarded_app.
  pose proof (lockless_exec _ _ _ [(path, fd)] (lockless_Engine_Close _) H1) as LK. rewrite (LK t1 []) by by rewrite app_nil_r.
  apply (Engine_Close_accounts srv nc js t1 e1 [RFile fd] []) in H1 as [_ H1]; [|by constructor].
  rewrite H1.
  apply (Unlock_accounts path) in H2 as (G & -> & -> & _). repeat split; [|done].
  apply (guarded_locked _ fd); [by left|done].
Qed.

(** [OpenLockedEngine] takes the directory's lock before any server exists: at every
    call of the open and of the close that follows, a running server means a held lock.
    An open that fails has let go of the server, the connection, the file and the lock; a
    build without flock fails before any call.  [Close] drains, shuts the server down and
    waits, and then, whatever the drain said, unlocks and closes the file; the first
    error is the one it returns, the engine is no longer handed out, and a second [Close]
    does nothing. *)
Theorem locked_engine_lifecycle unix dir tr r :
  exec (OpenLockedEngine unix dir) tr r ->
  (unix = false -> tr = [] /\ r = Err errStoreLockUnsupported) /\
  guarded (lock_path dir) [] [] tr /\
  match r with
  | Err _ => live [] tr = [] /\ held [] tr = []
  | Ok e => forall tr' err e', exec (LockedEngine_Close (Some e)) tr' (err, e') ->
      guarded (lock_path dir) [] [] (tr ++ tr') /\ live [] (tr ++ tr') = [] /\ held [] (tr ++ tr') = [] /\
      (exists nc drainErr srv fd unlockErr closeErr,
         tr' = [existT (nc_Drain nc) drainErr; existT (srv_Shutdown srv) tt; existT (srv_WaitForShutdown srv) tt;
                existT (flock_UN fd) unlockErr; existT (file_Close fd) closeErr] /\
         err = match drainErr with Some e => Some e | None =>
                 match unlockErr with Some e => Some e | None => closeErr end end) /\
      LockedEngine_JetStream e' = None /\
      forall tr2 o, exec (LockedEngine_Close e') tr2 o -> tr2 = [] /\ o = (None, e')
  end.
Proof.
  intros He. split; [intros ->; by destruct He as [-> ->]|].
  destruct (OpenLockedEngine_accounts _ _ _ _ He) as [G HL]. split; [done|].
  destruct r as [e|err]; [|done]. destruct HL as (fd & srv & nc & js & -> & HL & HH). intros tr' err e' Hc.
  destruct (LockedEngine_Close_accounts (lock_path dir) _ _ _ _ _ _ _ Hc) as (G2 & L2 & H2 & ->).
  rewrite guarded_app, live_app, held_app, HL, HH. split_and!; [done|done|done|done| |done|by intros tr2 o [-> ->]].
  destruct Hc as (d & t1 & -> & ([] & t2 & -> & ([] & t3 & -> & (u & t4 & -> & (c & t5 & -> & [-> [= ->]]))))).
  exists nc, d, srv, fd, u, c. split; [done|]. by destruct d.
Qed.

(** ** Several processes *)

(** One process: it opens the engine of its directory and, if that worked, closes it. *)
Definition session (unix : bool) (dir : string) : OM (option error) :=
  r <- OpenLockedEngine unix dir;
  match r with Ok e => r <- LockedEngine_Close (Some e); Ret (fst r) | Err err => Ret (Some err) end.

(** The calls of one process in a trace of all of them. *)
Definition mine (t : nat) (g : list (nat * ans reply_)) : list (ans reply_) :=
  omap (fun p => if decide (p.1 = t) then Some p.2 else None) g.

Definition grants (x : ans reply_) : option string :=
  let 'existT c r := x in
  match c return reply_ c -> option string with
  | flock_EX path _ => fun r => match r with FlockHeld => Some path | _ => None end
  | _ => fun _ => None
  end r.

(** What flock promises: a lock is granted only while no process holds one of that path. *)
Fixpoint flock_ok (h : nat -> list (string * nat)) (g : list (nat * ans reply_)) : Prop :=
  match g with
  | [] => True
  | (t, x) :: g =>
      (forall path, grants x = Some path -> forall t' fd, (path, fd) ∉ h t') /\
      flock_ok (fun t' => if decide (t = t') then lock (h t') x else h t') g
  end.

Definition exclusive (h : nat -> list (string * nat)) : Prop :=
  forall t1 t2 path fd1 fd2, (path, fd1) ∈ h t1 -> (path, fd2) ∈ h t2 -> t1 = t2.

Lemma lock_in path fd h x : (path, fd) ∈ lock h x -> (path, fd) ∈ h \/ grants x = Some path.
Proof.
  destruct x as [c r]. destruct c; cbn; auto; try (intros [_ H]%list_elem_of_filter; by left).
  destruct r; auto. intros [[= <- <-]|H]%elem_of_cons; auto.
Qed.

Lemma exclusive_held h g :
  exclusive h -> flock_ok h g -> exclusive (fun t => held (h t) (mine t g)).
Proof.
  revert h. induction g as [|[t x] g IH]; intros h Hh; [done|]. intros [Hx Hg].
  specialize (IH (fun t' => if decide (t = t') then lock (h t') x else h t')). cbn beta in IH.
  assert (E : forall t', held (h t') (mine t' ((t, x) :: g)) =
                         held (if decide (t = t') then lock (h t') x else h t') (mine t' g)).
  { intros t'. unfold mine. cbn. by case_decide. }
  intros t1 t2 path fd1 fd2. rewrite !E. refine (IH _ Hg t1 t2 path fd1 fd2). clear -Hh Hx.
  intros t1 t2 path fd1 fd2 H1 H2. destruct (decide (t = t1)), (decide (t = t2)); subst.
  - done.
  - apply lock_in in H1 as [H1|H1]; [by apply (Hh _ _ path fd1 fd2)|]. by apply (Hx path) in H2.
  - apply lock_in in H2 as [H2|H2]; [by apply (Hh _ _ path fd1 fd2)|]. by apply (Hx path) in H1.
  - by apply (Hh _ _ path fd1 fd2).
Qed.

Lemma session_guarded unix dir tr rest r :
  exec (session unix dir) (tr ++ rest) r -> guarded (lock_path dir) [] [] tr.
Proof.
  intros H. enough (G : guarded (lock_path dir) [] [] (tr ++ rest)) by by apply guarded_app in G as [G _].
  apply exec_bind in H as (o & t1 & t2 & -> & H1 & H). apply OpenLockedEngine_accounts in H1 as [G HL].
  apply guarded_app. split; [done|]. destruct o as [e|err].
  - destruct HL as (fd & srv & nc & js & -> & -> & ->).
    apply exec_bind in H as ([err e'] & t3 & t4 & -> & H2 & [-> _]). rewrite app_nil_r.
    by apply (LockedEngine_Close_accounts (lock_path dir)) in H2 as [G2 _].
  - destruct HL as [-> ->]. destruct H as [-> _]. split; [|done]. intros [n Hn]. by apply not_elem_of_nil in Hn.
Qed.

(** C23. However the calls of any number of processes interleave, and wherever each has got
    to, no two of them have a server running over the same directory, given only that
    flock does not grant one path twice. *)
Theorem locked_engine_exclusive unix (dirs : nat -> string) g :
  flock_ok (fun _ => []) g ->
  (forall t, exists rest r, exec (session unix (dirs t)) (mine t g ++ rest) r) ->
  forall t1 t2 n1 n2, lock_path (dirs t1) = lock_path (dirs t2) ->
  RServer n1 ∈ live [] (mine t1 g) -> RServer n2 ∈ live [] (mine t2 g) -> t1 = t2.
Proof.
  intros Hg Hs t1 t2 n1 n2 Hp H1 H2.
  assert (K : forall t n, RServer n ∈ live [] (mine t g) -> exists fd, (lock_path (dirs t), fd) ∈ held [] (mine t g)).
  { intros t n Hn. destruct (Hs t) as (rest & r & He). apply session_guarded, guarded_now in He; [done|by exists n]. }
  destruct (K t1 n1 H1) as [fd1 L1]. destruct (K t2 n2 H2) as [fd2 L2]. rewrite <- Hp in L2.
  refine (exclusive_held (fun _ => []) g _ Hg t1 t2 (lock_path (dirs t1)) fd1 fd2 L1 L2).
  by intros ? ? ? ? ? ?%not_elem_of_nil.
Qed.

(** ** Paths and options *)

Lemma blank_spec s : String.eqb (TrimSpace s) EmptyString = bool_decide (TrimSpace s = EmptyString).
Proof. destruct (String.eqb_spec (TrimSpace s) EmptyString); [by rewrite bool_decide_true|by rewrite bool_decide_false]. Qed.

Lemma beneath_Clean base targ : beneath (Clean base) (Clean targ) <-> beneath base targ.
Proof. unfold beneath. by rewrite !parts_Clean. Qed.

Lemma resolveStoreDir_Ok root dataDir d :
  resolveStoreDir root dataDir = Ok d <->
  TrimSpace root <> EmptyString /\ TrimSpace dataDir <> EmptyString /\ beneath root dataDir /\ d = Clean dataDir.
Proof.
  unfold resolveStoreDir. rewrite !blank_spec. case_bool_decide; [by split; [|intros [? _]]|].
  case_bool_decide; [by split; [|intros (_ & ? & _)]|]. rewrite <- (beneath_Clean root dataDir).
  pose proof (Rel_confined (Clean root) (Clean dataDir)) as HR. destruct (Rel (Clean root) (Clean dataDir)) as [rel|].
  - change (String.eqb rel ".." || HasPrefix rel "../") with (escapes rel). destruct (escapes rel).
    + split; [done|]. intros (_ & _ & H1 & _). by apply HR in H1.
    + split; [intros [= <-]|by intros (_ & _ & _ & ->)]. split_and!; [done|done|by apply HR|done].
  - split; [done|]. by intros (_ & _ & H1 & _).
Qed.

(** A directory [jetstream] under the root is accepted as it is. *)
Lemma resolveStoreDir_jetstream root w :
  TrimSpace root <> EmptyString -> plain w ->
  resolveStoreDir root (Join [root; w; jetstreamDirName]) = Ok (Join [root; w; jetstreamDirName]).
Proof.
  intros Hb Hw. assert (Hr : root <> EmptyString) by by intros ->.
  assert (Hp : Forall plain ([w] ++ [jetstreamDirName])) by (constructor; [done|constructor; [|done]]; by repeat split).
  apply resolveStoreDir_Ok. split_and!; [done| | |].
  - destruct (Join_ends root [w] jetstreamDirName Hr Hp) as [x E]. cbn [app] in E. rewrite E.
    apply (TrimSpace_last _ "m"%char); [vm_compute; by repeat constructor|].
    clear. induction x as [|c x IH]; [done|]. rewrite str_cons_app. cbn [String.list_ascii_of_string].
    change (last ([c] ++ String.list_ascii_of_string (x +:+ jetstreamDirName)) = Some "m"%char). by rewrite last_app, IH.
  - unfold beneath. rewrite parts_Join by done. split; [done|]. exists [w; jetstreamDirName]. split; [done|].
    intros Hin. rewrite Forall_forall in Hp. by destruct (Hp _ Hin) as (_ & _ & ? & _).
  - unfold Join. cbn [List.filter]. apply String.eqb_neq in Hr. rewrite Hr. symmetry. apply Clean_Clean.
Qed.

Lemma defaultDataDir_confined tr d :
  exec defaultDataDir tr (Ok d) ->
  exists root, exec containmentRoot tr (Ok root) /\ (TrimSpace root <> EmptyString -> resolveStoreDir root d = Ok d).
Proof.
  intros (xdg & t1 & -> & H). cbn [bind] in H. unfold containmentRoot.
  destruct (negb (String.eqb (TrimSpace xdg) EmptyString)) eqn:E.
  - destruct H as [-> [= ->]]. exists (TrimSpace xdg). split.
    + exists xdg, []. split; [done|]. cbn [bind]. by rewrite E.
    + intros Hb. by apply resolveStoreDir_jetstream; [|repeat split].
  - destruct H as (home & t2 & -> & H). cbn [bind] in H. destruct home as [home|e]; [|by destruct H].
    destruct H as [-> [= ->]]. exists home. split.
    + exists xdg, [existT os_UserHomeDir (Ok home)]. split; [done|]. cbn [bind]. rewrite E. by exists (Ok home), [].
    + intros Hb. by apply resolveStoreDir_jetstream; [|repeat split].
Qed.

(** The directory a call creates or runs a server on. *)
Definition creates (c : call_) : option string :=
  match c with os_MkdirAll d _ => Some d | server_NewServer o => Some (so_StoreDir o) | _ => None end.

Lemma openEngineAt_creates d sy mp :
  every (fun _ _ => True) (fun c => forall d', creates c = Some d' -> d' = d) (openEngineAt d sy mp).
Proof.
  assert (D : forall d', Some d = Some d' -> d' = d) by congruence.
  split; [done|]. intros [err|] _; [done|]. split; [done|]. intros [srv|e] _; [|done].
  do 2 (split; [done|]; intros ? _). cbn [bind]. case_match; [by split|]. split; [done|]. intros [nc|e] _; [|by split].
  split; [done|]. intros [js|e] _; [done|]. split; [done|]. intros ? _. by split.
Qed.

Lemma containmentRoot_creates : every (fun _ _ => True) (fun c => creates c = None) containmentRoot.
Proof. split; [done|]. intros xdg _. cbn. case_match; [done|]. split; [done|]. by intros [?|?] _. Qed.

(** C24. [resolveStoreDir] succeeds exactly when the root and the directory are not blank
    and the cleaned directory is the cleaned root or lies beneath it, element by element
    and with no [..] left; it fails with a [StoreDirError] otherwise.  So every directory
    [OpenEngine] creates or runs a server on is the cleaned [DataDir], beneath the root
    that [$XDG_DATA_HOME] or the home directory gave in that same run; and the default data
    directory is one [resolveStoreDir] accepts unchanged, if the home is not blank. *)
Theorem store_dir_confined :
  (forall root dataDir,
     match resolveStoreDir root dataDir with
     | Ok d => TrimSpace root <> EmptyString /\ TrimSpace dataDir <> EmptyString /\ beneath root dataDir /\ d = Clean dataDir
     | Err err => (exists p c, err = StoreDirError p c) /\
         ~ (TrimSpace root <> EmptyString /\ TrimSpace dataDir <> EmptyString /\ beneath root dataDir)
     end) /\
  (forall opts tr r x d, exec (OpenEngine opts) tr r -> x ∈ tr -> creates (projT1 x) = Some d ->
     exists root t1 t2, tr = t1 ++ t2 /\ exec containmentRoot t1 (Ok root) /\
       d = Clean (DataDir opts) /\ beneath root d) /\
  (forall tr o, exec DefaultEngineOptions tr (Ok o) ->
     exists root, exec containmentRoot tr (Ok root) /\
       (TrimSpace root <> EmptyString -> resolveStoreDir root (DataDir o) = Ok (DataDir o))).
Proof.
  split; [|split].
  - intros root dataDir. pose proof (resolveStoreDir_Ok root dataDir) as H. destruct (resolveStoreDir root dataDir) as [d|err] eqn:E.
    + by apply H.
    + split; [|intros (H1 & H2 & H3); by assert (@Err string err = Ok (Clean dataDir)) by by apply H].
      unfold resolveStoreDir in E. repeat case_match; simplify_eq; eauto.
  - intros opts tr r x d (root & t1 & t2 & -> & H1 & H)%exec_bind Hx Hd.
    apply elem_of_app in Hx as [Hx|Hx].
    { pose proof (every_exec _ _ _ _ containmentRoot_creates H1) as Q. rewrite Forall_forall in Q.
      by pose proof (eq_trans (eq_sym (Q _ Hx)) Hd). }
    destruct root as [root|e]; cycle 1.
    { destruct H as [-> _]. by apply not_elem_of_nil in Hx. }
    apply exec_bind in H as (sd & t3 & t4 & -> & [-> ->] & H). cbn [app] in Hx |- *.
    destruct (resolveStoreDir root (DataDir opts)) as [sd|e] eqn:E; [|destruct H as [-> _]; by apply not_elem_of_nil in Hx].
    apply resolveStoreDir_Ok in E as (_ & _ & Hb & ->).
    pose proof (every_exec _ _ _ _ (openEngineAt_creates _ _ _) H) as Q. rewrite Forall_forall in Q.
    apply (Q _ Hx) in Hd as ->. exists root, t1, t4. split_and!; [done|done|done|].
    unfold beneath in *. by rewrite parts_Clean.
  - intros tr o (d & t1 & t2 & -> & H1 & H)%exec_bind. destruct d as [d|e]; [|by destruct H].
    destruct H as [-> [= ->]]. rewrite app_nil_r. by apply defaultDataDir_confined.
Qed.

(** The options: exactly one of a URL and a directory, a directory that is absolute and
    a payload limit at or above the ledger's ceiling, with the default for none; nothing
    else resolves, every refusal is an [OptionsError], and what resolves in embedded mode
    is a cleaned absolute path with no [..] and a limit a ledger append fits in. *)
Theorem options_resolved o :
  match resolve o with
  | Ok ro =>
      (TrimSpace (URL o) = EmptyString /\ TrimSpace (EmbeddedDir o) <> EmptyString /\ IsAbs (EmbeddedDir o) = true /\
       ro_mode ro = modeEmbedded /\ ro_embeddedDir ro = Clean (EmbeddedDir o) /\ IsAbs (ro_embeddedDir ro) = true /\
       ".." ∉ (parts (ro_embeddedDir ro)).2 /\ (Ledger.ledgerMaxMsgSize <= ro_maxPayload ro)%Z /\
       ro_maxPayload ro = (if decide (MaxPayload o <= 0) then maxPayload else MaxPayload o)%Z) \/
      (TrimSpace (URL o) <> EmptyString /\ TrimSpace (EmbeddedDir o) = EmptyString /\
       ro_mode ro = modeRemote /\ ro_url ro = TrimSpace (URL o))
  | Err err => (exists f m, err = OptionsError f m) /\
      ((TrimSpace (URL o) = EmptyString <-> TrimSpace (EmbeddedDir o) = EmptyString) \/
       (TrimSpace (EmbeddedDir o) <> EmptyString /\
        (IsAbs (EmbeddedDir o) = false \/ (0 < MaxPayload o < Ledger.ledgerMaxMsgSize)%Z)))
  end.
Proof.
  unfold resolve. rewrite !blank_spec. do 2 case_bool_decide; cbn [negb andb].
  - split; [eauto|]. by left.
  - rewrite IsAbs_Clean. destruct (IsAbs (EmbeddedDir o)) eqn:EA; cbn [negb]; [|split; eauto].
    unfold resolveMaxPayload. destruct (Z.leb_spec (MaxPayload o) 0) as [L|L]; [|destruct (Z.ltb_spec (MaxPayload o) Ledger.ledgerMaxMsgSize) as [L2|L2]].
    all: try (split; [eauto|right; split; [done|by right]]).
    all: left; cbn [ro_mode ro_embeddedDir ro_maxPayload]; rewrite parts_Clean, IsAbs_Clean; split_and!; try done.
    all: try (by rewrite decide_True by lia). all: try (by rewrite decide_False by lia).
    all: destruct (parts_normal (EmbeddedDir o)) as (k & rest & -> & Hk & Hp); rewrite (Hk EA); intros Hin.
    all: rewrite Forall_forall in Hp; by apply Hp in Hin as (_ & _ & ? & _).
  - right. cbn. done.
  - split; [eauto|]. left. tauto.
Qed.

(** ** Witnesses *)

(** An environment in which every call succeeds; handles are numbered as they come. *)
Definition sunny (c : call_) (n : nat) : reply_ c * nat :=
  match c with
  | os_Getenv _ => ("/home/u", n) | os_UserHomeDir => (Ok "/home/u", n)
  | filepath_Abs p | filepath_EvalSymlinks p => (Ok p, n)
  | os_MkdirAll _ _ | nc_Drain _ | ordered_Close | flock_UN _ | file_Close _ => (None, n)
  | srv_Start _ | srv_Shutdown _ | srv_WaitForShutdown _ | nc_Close _ => (tt, n)
  | server_NewServer _ | nats_Connect _ | nc_JetStream _ | jetstream_New _ => (Ok n, S n)
  | jsx_CreateOrUpdateKeyValue _ _ | jsx_CreateOrUpdateObjectStore _ _ | os_OpenFile _ _ => (Ok n, S n)
  | srv_ReadyForConnections _ _ => (true, n)
  | storage_NewComposite => (Ok true, n)
  | flock_EX _ _ => (FlockHeld, n)
  end.

Notation result p := (fst (run sunny p 0)).
Notation calls p := (trace_of sunny p 0).

Section witness.
Let host (_ h : string) : option string := Some h.
Let opts : Options := {| URL := EmptyString; EmbeddedDir := "/srv/data"; MaxPayload := 0 |}.
Let opening : OM (res Store) := Open_ (J := nats_go) host opts.
Let st : Store := newStore ["/srv/data"] (BackendEngine (engine_of 0 1 2)).

Lemma opening_ok : result opening = Ok st.
Proof. vm_compute. reflexivity. Qed.

Lemma store_dir_confined_witness :
  (exists x, x ∈ calls (OpenEngine {| DataDir := "/home/u/app/../x/"; SyncInterval := 0; eo_MaxPayload := 0 |}) /\
     creates (projT1 x) = Some "/home/u/x") /\
  (forall x d, x ∈ calls (OpenEngine {| DataDir := "/home/u/app/../x/"; SyncInterval := 0; eo_MaxPayload := 0 |}) ->
     creates (projT1 x) = Some d -> d = "/home/u/x").
Proof.
  split.
  { exists (existT (os_MkdirAll "/home/u/x" storeDirPerm) None).
    split; [apply (list_elem_of_lookup_2 _ 1); vm_compute; reflexivity|reflexivity]. }
  intros x d Hx Hd.
  destruct (proj1 (proj2 store_dir_confined) _ _ _ x d (exec_trace_of sunny _ 0) Hx Hd) as (root & t1 & t2 & _ & _ & H & _).
  rewrite H. vm_compute. reflexivity.
Defined.

Lemma store_lifecycle_witness :
  result opening = Ok st /\ live [] (calls opening) = [RConn 1; RServer 0] /\
  live (store_resources st) (calls (Store_Close st)) = [].
Proof.
  pose proof (store_lifecycle (J := nats_go) host opts _ _ (exec_trace_of sunny opening 0)) as H.
  fold opening in H. rewrite opening_ok in H. destruct H as [H1 H2]. split; [exact opening_ok|]. split; [exact H1|].
  refine (proj1 (H2 _ (fst (result (Store_Close st))) (snd (result (Store_Close st))) _)).
  rewrite <- surjective_pairing. apply exec_trace_of.
Defined.

Let locking : OM (res LockedEngine) := OpenLockedEngine true "/home/u/app".

Lemma locking_ok : result locking = Ok (locked_of 0 1 2 3).
Proof. vm_compute. reflexivity. Qed.

Lemma locked_engine_lifecycle_witness :
  result locking = Ok (locked_of 0 1 2 3) /\ guarded "/home/u/app/store.lock" [] [] (calls locking) /\
  live [] (calls locking ++ calls (LockedEngine_Close (Some (locked_of 0 1 2 3)))) = [].
Proof.
  pose proof (locked_engine_lifecycle true "/home/u/app" _ _ (exec_trace_of sunny locking 0)) as (_ & H1 & H2).
  fold locking in H1, H2. rewrite locking_ok in H2. split; [exact locking_ok|]. split; [exact H1|].
  refine (proj1 (proj2 (H2 _ (fst (result (LockedEngine_Close (Some (locked_of 0 1 2 3)))))
    (snd (result (LockedEngine_Close (Some (locked_of 0 1 2 3))))) _))).
  rewrite <- surjective_pairing. apply exec_trace_of.
Defined.

(** A second process asks for the directory while the first one runs: it is refused. *)
Let refused : list (ans reply_) :=
  [existT (os_OpenFile "/home/u/app/store.lock" storeLockFilePerm) (Ok 9);
   existT (flock_EX "/home/u/app/store.lock" 9) FlockWouldBlock; existT (file_Close 9) None].
Let both : list (nat * ans reply_) := map (pair 0) (calls locking) ++ map (pair 1) refused.

Lemma both_flock : flock_ok (fun _ => []) both.
Proof.
  vm_compute. repeat split; intros path [= <-]; intros t' fd; destruct t'; apply not_elem_of_nil.
Qed.

Lemma both_sessions t : exists rest r, exec (session true "/home/u/app") (mine t both ++ rest) r.
Proof.
  assert (E : session true "/home/u/app" = bind locking (fun r =>
    match r with Ok e => r <- LockedEngine_Close (Some e); Ret (fst r) | Err err => Ret (Some err) end)) by reflexivity.
  destruct t as [|[|t]].
  - rewrite E. eexists (calls (LockedEngine_Close (Some (locked_of 0 1 2 3))) ++ []), _. apply exec_bind.
    eexists _, (calls locking), _. split; [reflexivity|]. split; [exact (exec_trace_of sunny locking 0)|]. rewrite locking_ok.
    apply exec_bind. eexists _, _, _. split; [reflexivity|]. split; [exact (exec_trace_of sunny (LockedEngine_Close _) 0)|]. by split.
  - exists [], (Some (StoreLockedError "/home/u/app/store.lock")). rewrite app_nil_r.
    exists (Ok 9), (tl refused). split; [reflexivity|]. exists FlockWouldBlock, (tl (tl refused)). split; [reflexivity|].
    exists None, []. by split.
  - change (mine (S (S t)) both) with (@nil (ans reply_)). eexists _, _. exact (exec_trace_of sunny (session true "/home/u/app") 0).
Qed.

Lemma locked_engine_exclusive_witness :
  RServer 1 ∈ live [] (mine 0 both) /\ forall t n, RServer n ∈ live [] (mine t both) -> t = 0.
Proof.
  assert (H : RServer 1 ∈ live [] (mine 0 both)) by (vm_compute; right; left).
  split; [exact H|]. intros t n Hn. symmetry.
  exact (locked_engine_exclusive true (fun _ => "/home/u/app") both both_flock both_sessions 0 t 1 n eq_refl H Hn).
Defined.

(** The lock file is created before the directory is checked against the root. *)
Lemma lock_precedes_confinement :
  result (OpenLockedEngine true "/etc") =
    Err (StoreDirError "/etc/nats" (Some (Leaf "natsstore: StoreDir escapes the home root"))) /\
  calls (OpenLockedEngine true "/etc") !! 0 = Some (existT (os_OpenFile "/etc/store.lock" storeLockFilePerm) (Ok 0)).
Proof. vm_compute. split; reflexivity. Qed.
End witness.
End LifecycleProps.
